(* ===== verification/_CoqProject ===== *)
-Q . S2P
Prelude.v
GoText.v
GoSort.v
Strconv.v
Numbers.v
ExprNumbers.v
Times.v
Sha256.v
Ids.v
Values.v
CallGraph.v
Ladder.v
LadderFacts.v
Heads.v
HeadFacts.v
Budgets.v
Compare.v
CompareFacts.v
Catalog.v
Ast.v
Scope.v
Eval.v
ValueFacts.v
EvalRel.v
EvalFacts.v
EvalTotal.v
EvalClean.v
EvalLaws.v
CollectionFacts.v
TimeFacts.v
Predicates.v
Lexer.v
Refusals.v
Parser.v
Printer.v
LexerFacts.v
ParserFacts.v
Canonical.v
Lexing.v
Reparse.v
RoundTrip.v
TokenShapes.v
Printability.v
Meaning.v
Topics.v
TopicFacts.v
Events.v
Bus.v
BusFacts.v
Scc.v
SccFacts.v
LoopFilter.v
Triggers.v
LoopFilterFacts.v
TriggerFacts.v
LoopGraph.v
LoopGraphFacts.v
LoopRuns.v
LoopRuntime.v
Mask.v
MaskFacts.v
Globs.v
GlobFacts.v
GoPath.v
GoGraph.v
Selection.v
AffectedFacts.v
Shards.v
Durations.v
Manifest.v
Validate.v
Plan.v
PlanFacts.v
