(* ===== verification/Prelude.v ===== *)
(** * MemQL: expressions, events, automations and work

    MemQL is a graph database server with its own language.  This library
    models the parts the rest of the server leans on and proves what they
    promise: the expression language from text to value, the event core, the
    protection of automations against loops, and the decisions of the work
    spine.

    ** The program's parts

    The front end turns the text of an edition-2026 expression into a tree
    (src/component/language/parser, src/component/language/ast) and a tree back
    into canonical text.  Every filter, argument, condition and mutation value
    of the language passes through it; gates then ask the tree what it reads
    and what it guarantees.  The evaluator (src/component/memql/expr_eval.go)
    computes the value of a tree over a scope, calling the functions and methods
    the catalog lists (src/component/language/functions) and the hooks its caller
    supplies.  The event core (src/component/events) carries what the server did
    to whoever asked to hear of it: topics and patterns, events and their
    causes, and the in-memory bus.

    Automations (src/component/automations) run on events and write rows, and a
    write is an event: they can set each other off.  Two guards stand against a
    loop.  At load, the loop graph draws an edge from an automation to each one
    its writes can fire, deciding the trigger filter on what is known of the
    written row, and refuses the automations on a cycle that nothing ends; both
    the filters and the values written are expressions of the language.  At run
    time the cause an event carries counts the runs behind it, and a bound stops
    the chain.  The work spine (src/component/work) decides which procedures may
    serve which calls, which version of a step is shown, what a run may spend and
    whether a replay agreed with the recording.

    ** Files

    - Prelude: results, tactics, the hint database.
    - GoText, Strconv: Go's runes, strings and number conversions as the code
      uses them.  A string is its list of runes; a float64 is a [spec_float] of
      53 bits of precision.
    - Numbers, ExprNumbers: core/num, and the numbers of expressions: exact
      comparison of integers with floats, checked arithmetic.
    - Times, Sha256, Ids: dates, durations and timestamps of
      runtime_evaluator.go over Go's time package, the digest hash() gives, and
      core/id's node ids.
    - Values: what an expression computes.  [value] holds the language's values
      (nil, absent, booleans, strings, integers, floats, lists, maps), rows and
      scope objects, and the Go shapes a scope may hand in; with normalisation,
      member reads, equality, order, text and grouping keys.
    - Catalog: functions/catalog.go and the dispatch tables.
    - Ast, Predicates: ast/v1.go, v1_kind.go, v1_predicates.go.  [expr] has one
      constructor per node type.
    - Scope, Eval: the evaluator of expr_eval.go and expr_stored.go with what it
      takes from collection_method.go, executor_filter.go, mutation_templates.go
      and runtime_evaluator.go.  The monad [eval_m] threads the step count and
      the world the hooks act on; a refusal is a code.  The functions of the
      evaluator are written open in eval and evalCondition and closed by
      [eval_fuel].  A cancelled context is a predicate on the step count.
    - ValueFacts, CollectionFacts, TimeFacts: equality, order and arithmetic; the
      list methods; timestamps.
    - EvalRel, EvalFacts, EvalTotal, EvalClean, EvalLaws: the evaluator.  EvalRel
      walks every operation once, against an interface (a class with the
      relation on computations and on values that its clauses preserve); the
      other files instantiate it to count steps, to compare two budgets, to
      forget parentheses, to bound the steps an expression needs and to keep
      values plain.
    - Lexer, LexerFacts: parser/lexer.go.  The state is the text left, a cursor
      and the doc-comment side channel.
    - Refusals, Parser, ParserFacts: parser/v1_refusals.go, v1_expr.go,
      chain_bound.go and what they consult.  A parse function takes the tokens
      left and returns what it read with the tokens left; the depth counter is
      the budget argument.
    - Printer: ast/v1_format.go.
    - Canonical, Lexing, Reparse, RoundTrip: printing against parsing.  Canonical
      says which trees the language can write ([printable]), where the printer
      adds parentheses ([reparen]) and which tokens a printed tree is made of
      ([lexemes]); Lexing proves the lexer reads those tokens from the text,
      Reparse that the parser builds the tree from them.
    - TokenShapes, Printability: every tree the parser returns is printable.
    - Meaning: printing, parsing and evaluation together.
    - Topics, TopicFacts: events/pattern.go with Go's path.Match.
    - Events: events/event.go and cause.go, with core/num's clamps.  Maps live
      in a heap that copies of an event share.
    - Bus, BusFacts: events/bus.go as a step relation over interleaved
      operations.
    - GoSort: sort.Strings and sort.SliceStable.
    - CallGraph: work/kind.go and footprint.go, the walk over the constructs one
      calls, for prompts, footprints and writes.
    - Ladder, LadderFacts: work/ladder.go, verdict.go and replay.go, the rungs of
      a learned procedure under a sequence of happenings and the decision to
      serve it.
    - Heads, HeadFacts: work/head.go and idempotency.go, the versions of a run's
      steps and the head that names the current one of each.
    - Budgets: work/budget.go, symptom.go and terminal.go, what a run may spend
      and what it does about a failure.
    - Compare, CompareFacts: work/compare.go, a replayed step against what the
      recordings agreed on.
    - Scc, SccFacts: automations/loop_graph_scc.go, Tarjan's algorithm with its
      explicit stacks, the strata and the search for a cycle, against mutual
      reachability.
    - LoopFilter, LoopFilterFacts: automations/loop_graph_filter.go, the
      three-valued decision of a trigger filter, and its soundness for the
      evaluator of Eval.
    - Triggers, TriggerFacts: automations/args_binding.go and the filter scope of
      run_scope.go, scheduler.go and executor.go; the decision against the events
      a write puts on the bus.
    - LoopGraph, LoopGraphFacts: automations/loop_graph.go,
      loop_graph_before_write.go and the problems of loop_graph_report.go, from
      the steps of the automations to edges, cycles, strata and refusals.
    - LoopRuns: what the runs of automations put on the bus, and that every
      firing is an edge of the graph.
    - LoopRuntime: automations/loop_runtime.go and the causes executor.go and
      journal.go carry.

    ** What the theorems show

    - The lexer and the parser answer on every input; tokens tile the source and
      carry exact positions; every parsed tree is well formed, within the chain
      bound and of bounded height.
    - The printed text of a parsed expression parses again, to the same tree with
      the printer's parentheses made explicit, and prints to itself.  Two bounds
      of the code appear: the chain bound, which a parsed tree keeps, and the
      depth limit, which added parentheses may exceed.  A float literal must read
      back from the shortest digits strconv gives it ([floats_read], decidable on
      each tree); integers, strings and names need no such premise.
    - Formatting keeps meaning: what the printed text evaluates to is what the
      original does, on every scope and with every hook that does not look at
      parentheses, once both have steps enough.
    - Every evaluation ends: within its budget, and by itself once the budget is
      large enough.  Answers hold no absence mark or scope object inside.
    - Equality is an equivalence on decoded data; numbers compare by exact value
      and integer arithmetic is exact or refused; values read from stored rows
      are not refused where a literal would be; any and all are dual; orderBy is
      a stable sort on comparable keys and groupBy a partition; timestamps and
      node ids read back; the catalog and the dispatch tables name the same
      things.
    - Guarantees, Conjuncts and MemberPath are exact or sound for the predicates
      they judge.
    - Match is the documented wildcard matching; segment globs agree with their
      declarative reading; topic builders and extractors invert each other;
      graph subscriptions match exactly what was asked.
    - A cause counts its runs, survives its JSON form and saturates.
    - On every run of the bus: no registration replaces another, deliveries
      match and are isolated, publishing reaches every live subscription once,
      an unsubscribed handler is not called again.
    - Tarjan's loop gives exactly the classes of mutual reachability.  A filter
      decided false does not hold on any event the write puts on the bus, for the
      filters and rows the theorem names; four concrete cases outside them are
      decided false and fire.  A set of automations is refused exactly when there
      is a cycle of edges with no @loop on it; strata are the layers of the
      graph's components; when nothing is refused, no chain of firings over
      automations without @loop visits one twice.
    - At run time the depth of a cause is the number of runs it names and stays
      within the cap, and the runs of an automation within its @loop; every chain
      longer than the cap has a refused run; a resumed run carries the cause it
      was started with; a depth at the largest integer wraps and is admitted.
    - A learned procedure serves only on earned evidence and an approval, and
      loses its rung when it keeps failing; a moved head shows a run that
      happened, moving it back restores it and a rerun takes fresh keys; a
      deterministic construct reaches no prompt; footprints and writes are
      exactly those of the reachable constructs; spending stays under its
      ceilings and retries end at a person; a replay that matches an app that
      matched the recordings would be accepted alone.

    ** Fuel

    Loops of the lexer and the parser run under fuel of one more than the text
    or tokens left.  Every round consumes at least one, so the fuel never shows:
    the termination theorems say that no result is the out-of-fuel error.  The
    evaluator runs under fuel of one more than its step budget: every recursive
    call counts a step first, so the budget error comes before the fuel ends.
    Chains of scope objects are followed sixteen times, as the code does.  Tarjan's
    loop runs under the nodes plus the edges of its graph, since every round takes
    a successor or leaves a node; its path searches under the nodes allowed plus
    one, the walk over called automations under their number plus one, and the
    walk over constructs under the size of the registry plus one, since each
    visits a node once.

    ** Parameters

    Unicode's tables ([UnicodeTables]) and fmt's text of a Go value the language
    has no form for ([GoFmt]) are classes, and so are Go's regular expressions
    ([GoRegexp]) and the fingerprint of a map
    ([Fingerprint]); the hooks of
    EvalOptions are functions on an abstract world.  sort.SliceStable is insertion by the less function, as
    Go does on blocks; on keys that are a weak order every stable sort agrees.

    ** What is not modelled

    Error message texts (an error is a value), source spans of nodes, position
    markers of lowered text, logging, strings that are not UTF-8, float32 and
    named Go types a scope could hand to the evaluator, the decoding of a stored
    row, the statement grammar around expressions, the lowering of expressions
    to SQL, storage, networking and user interfaces.  Of the automations: the
    sentences that explain a verdict, the flat rows of the graph, the proofs that
    an until condition ends a loop, the modes, the executor's steps and the
    adapter that reads step facts from a function's source.  Of the work spine:
    the table of symptom rules, approvals, feedback, snapshots, the inference of
    a text's type and the object forms of the records. *)

From stdpp Require Export base list gmap strings sets.
From Stdlib Require Export ZArith Lia.

#[export] Set Warnings "-register-all".

Open Scope Z_scope.
Open Scope list_scope.

(** ** Fallible code

    Go functions that return [(T, error)] are functions into [result E T]. *)

Inductive result (E A : Type) : Type :=
| Ok (a : A)
| Err (e : E).

Arguments Ok {E A} a.
Arguments Err {E A} e.

#[export] Instance result_ret E : MRet (result E) := fun _ a => Ok a.
#[export] Instance result_bind E : MBind (result E) := fun _ _ f m =>
  match m with Ok a => f a | Err e => Err e end.
#[export] Instance result_fmap E : FMap (result E) := fun _ _ f m =>
  match m with Ok a => Ok (f a) | Err e => Err e end.

Definition is_ok {E A} (m : result E A) : bool :=
  match m with Ok _ => true | Err _ => false end.

Section Result.
Context {E A B : Type}.
Implicit Types m : result E A.

Lemma result_bind_ok (f : A -> result E B) m b :
  (m ≫= f) = Ok b <-> exists a, m = Ok a /\ f a = Ok b.
Proof. destruct m; cbn; naive_solver. Qed.

Lemma result_bind_err (f : A -> result E B) m e :
  (m ≫= f) = Err e <-> m = Err e \/ exists a, m = Ok a /\ f a = Err e.
Proof. destruct m; cbn; naive_solver. Qed.
End Result.

(** Invert every [bind] of a hypothesis that produced a value. *)
Ltac inv_bind :=
  repeat match goal with
  | H : mbind _ _ = Ok _ |- _ =>
      let a := fresh "r" in let H1 := fresh "Hr" in let H2 := fresh "Hr" in
      apply result_bind_ok in H as (a & H1 & H2)
  | H : (match ?p with (_, _) => _ end) = Ok _ |- _ => destruct p
  end.

(** ** Boolean tests as propositions *)

Ltac bprop :=
  repeat match goal with
  | H : (_ && _)%bool = true |- _ => apply andb_true_iff in H as [? ?]
  | H : (_ || _)%bool = false |- _ => apply orb_false_iff in H as [? ?]
  | H : (_ || _)%bool = true |- _ => apply orb_true_iff in H
  | H : (_ && _)%bool = false |- _ => apply andb_false_iff in H
  | H : negb _ = true |- _ => apply negb_true_iff in H
  | H : negb _ = false |- _ => apply negb_false_iff in H
  | H : (_ =? _) = true |- _ => apply Z.eqb_eq in H
  | H : (_ =? _) = false |- _ => apply Z.eqb_neq in H
  | H : (_ <=? _) = true |- _ => apply Z.leb_le in H
  | H : (_ <=? _) = false |- _ => apply Z.leb_gt in H
  | H : (_ <? _) = true |- _ => apply Z.ltb_lt in H
  | H : (_ <? _) = false |- _ => apply Z.ltb_ge in H
  | H : bool_decide _ = true |- _ => apply bool_decide_eq_true in H
  | H : bool_decide _ = false |- _ => apply bool_decide_eq_false in H
  end.

(** Split the innermost scrutinee of the goal or of a hypothesis. *)
Ltac dmatch :=
  match goal with
  | |- context [match ?x with _ => _ end] =>
      lazymatch x with context [match _ with _ => _ end] => fail | _ => destruct x eqn:? end
  end.

Ltac dmatch_in H :=
  match type of H with
  | context [match ?x with _ => _ end] =>
      lazymatch x with context [match _ with _ => _ end] => fail | _ => destruct x eqn:? end
  end.

Create HintDb memql.
