(* ===== verification/GoText.v ===== *)
(** Runes, strings and the parts of Go's [unicode] and [strings] packages the
    modelled code uses.

    A Go string is modelled by its sequence of runes: the code reads text
    through [[]rune(input)], [for _, r := range s] and functions whose
    separators and prefixes are single ASCII characters, all of which agree on
    valid UTF-8 whether they work on bytes or on runes.  Text that is not valid
    UTF-8 is outside the model.

    Unicode tables are exact for Latin-1, the range Go itself answers from a
    fixed array.  Above it the general categories are a parameter, the class
    [UnicodeTables]; nothing proved here depends on what it holds. *)

From S2P Require Import Prelude.

Abbreviation rune := Z (only parsing).
Abbreviation gostring := (list Z) (only parsing).

(** An ASCII literal as a Go string. *)
Definition go (s : string) : gostring :=
  (fun a => Z.of_N (Ascii.N_of_ascii a)) <$> String.list_ascii_of_string s.

Definition eqs (a b : gostring) : bool := bool_decide (a = b).

Declare Scope gotext_scope.
Delimit Scope gotext_scope with gotext.
Infix "=s" := eqs (at level 70, no associativity) : gotext_scope.
Open Scope gotext_scope.

Lemma eqs_refl s : (s =s s) = true.
Proof. unfold eqs. by apply bool_decide_eq_true. Qed.

Lemma eqs_true a b : (a =s b) = true <-> a = b.
Proof. unfold eqs. apply bool_decide_eq_true. Qed.

Lemma eqs_false a b : (a =s b) = false <-> a <> b.
Proof. unfold eqs. apply bool_decide_eq_false. Qed.

(** Membership of a string in a fixed list, Go's [map[string]bool] literals. *)
Definition memS (s : gostring) (l : list gostring) : bool := existsb (eqs s) l.

Lemma memS_In s l : memS s l = true <-> In s l.
Proof.
  unfold memS. rewrite existsb_exists. split.
  - intros (x & Hin & Hx). apply eqs_true in Hx. by subst.
  - intros Hin. exists s. split; [done | apply eqs_refl].
Qed.

(** ** unicode *)

Class UnicodeTables := {
  letter_ext : rune -> bool;  (* category L above Latin-1 *)
  digit_ext : rune -> bool;   (* category Nd above Latin-1 *)
  lower_ext : rune -> rune;   (* unicode.ToLower above ASCII *)
  upper_ext : rune -> rune    (* unicode.ToUpper above ASCII *)
}.

(** Tables with no letters or digits above Latin-1. *)
Definition latin1_tables : UnicodeTables :=
  {| letter_ext := fun _ => false; digit_ext := fun _ => false; lower_ext := fun r => r;
     upper_ext := fun r => r |}.

Definition between (lo hi r : Z) : bool := (lo <=? r) && (r <=? hi).

(** The lexer's own [isDigit]: ASCII only. *)
Definition isDigit (r : rune) : bool := between 48 57 r.

Section Unicode.
Context `{UnicodeTables}.

(** unicode.IsLetter *)
Definition IsLetter (r : rune) : bool :=
  if r <=? 255 then
    between 65 90 r || between 97 122 r || (r =? 170) || (r =? 181) || (r =? 186)
    || between 192 214 r || between 216 246 r || between 248 255 r
  else letter_ext r.

(** unicode.IsDigit *)
Definition IsDigit (r : rune) : bool :=
  if r <=? 255 then between 48 57 r else digit_ext r.

(** strings.ToLower *)
Definition to_lower_rune (r : rune) : rune :=
  if between 65 90 r then r + 32 else if r <=? 127 then r else lower_ext r.

Definition ToLower (s : gostring) : gostring := to_lower_rune <$> s.

(** strings.ToUpper *)
Definition to_upper_rune (r : rune) : rune :=
  if between 97 122 r then r - 32 else if r <=? 127 then r else upper_ext r.

Definition ToUpper (s : gostring) : gostring := to_upper_rune <$> s.
End Unicode.

(** unicode.IsSpace: White_Space, a fixed set. *)
Definition IsSpace (r : rune) : bool :=
  between 9 13 r || (r =? 32) || (r =? 133) || (r =? 160) || (r =? 5760)
  || between 8192 8202 r || (r =? 8232) || (r =? 8233) || (r =? 8239)
  || (r =? 8287) || (r =? 12288).

(** ** strings *)

(** strings.Contains(s, sep) and strings.ContainsAny(s, chars), for single
    characters. *)
Definition ContainsRune (s : gostring) (c : rune) : bool := existsb (Z.eqb c) s.

Definition ContainsAny (s chars : gostring) : bool :=
  existsb (fun c => ContainsRune chars c) s.

Fixpoint HasPrefix (s p : gostring) {struct p} : bool :=
  match p, s with
  | [], _ => true
  | c :: p', d :: s' => (c =? d) && HasPrefix s' p'
  | _ :: _, [] => false
  end.

Definition TrimPrefix (s p : gostring) : gostring :=
  if HasPrefix s p then drop (length p) s else s.

(** strings.Split on a one-character separator: always at least one part. *)
Fixpoint Split (s : gostring) (sep : rune) : list gostring :=
  match s with
  | [] => [[]]
  | c :: s' =>
      if c =? sep then [] :: Split s' sep
      else match Split s' sep with
           | part :: parts => (c :: part) :: parts
           | [] => [[c]]
           end
  end.

(** strings.Compare, by bytes, which for valid UTF-8 is by code points. *)
Fixpoint str_compare (a b : gostring) : comparison :=
  match a, b with
  | [], [] => Eq
  | [], _ :: _ => Lt
  | _ :: _, [] => Gt
  | x :: a', y :: b' => match Z.compare x y with Eq => str_compare a' b' | c => c end
  end.

(** strings.Contains *)
Fixpoint Contains (s sub : gostring) : bool :=
  HasPrefix s sub || match s with [] => false | _ :: s' => Contains s' sub end.

(** strings.Join *)
Fixpoint Join (parts : list gostring) (sep : gostring) : gostring :=
  match parts with
  | [] => []
  | [p] => p
  | p :: ps => p ++ sep ++ Join ps sep
  end.

Fixpoint trim_left (f : rune -> bool) (s : gostring) : gostring :=
  match s with
  | [] => []
  | c :: s' => if f c then trim_left f s' else s
  end.

(** strings.TrimFunc *)
Definition TrimFunc (f : rune -> bool) (s : gostring) : gostring :=
  reverse (trim_left f (reverse (trim_left f s))).

Definition TrimSpace (s : gostring) : gostring := TrimFunc IsSpace s.

(** The longest prefix of runes satisfying [f], and what follows it: the shape
    of every [for !l.eof() && f(l.peek())] loop. *)
Fixpoint span (f : rune -> bool) (s : gostring) : gostring * gostring :=
  match s with
  | [] => ([], [])
  | c :: s' => if f c then let '(a, b) := span f s' in (c :: a, b) else ([], s)
  end.

(** ** Lemmas *)

Lemma ContainsRune_app s1 s2 c :
  ContainsRune (s1 ++ s2) c = ContainsRune s1 c || ContainsRune s2 c.
Proof. apply existsb_app. Qed.

Lemma ContainsRune_false s c : ContainsRune s c = false <-> Forall (fun d => d <> c) s.
Proof.
  unfold ContainsRune. induction s as [|d s IH]; cbn; [split; [constructor | done]|].
  rewrite orb_false_iff, IH, Z.eqb_neq, Forall_cons. intuition congruence.
Qed.

Lemma HasPrefix_app p s : HasPrefix (p ++ s) p = true.
Proof. induction p as [|c p IH]; cbn; [by destruct s | by rewrite Z.eqb_refl, IH]. Qed.

Lemma HasPrefix_inv s p : HasPrefix s p = true -> exists t, s = p ++ t.
Proof.
  revert s. induction p as [|c p IH]; intros s; cbn; [by exists s|].
  destruct s as [|d s]; [done|]. intros Hp. cbn in Hp. bprop. subst.
  rename select (HasPrefix s p = true) into Hp. apply IH in Hp as [t ->]. by exists t.
Qed.

Lemma Split_nonempty s sep : Split s sep <> [].
Proof.
  destruct s as [|c s]; cbn; [done|]. destruct (c =? sep); [done|].
  by destruct (Split s sep).
Qed.

Lemma Split_none s sep : ContainsRune s sep = false -> Split s sep = [s].
Proof.
  rewrite ContainsRune_false.
  induction 1 as [|c s Hc _ IH]; cbn; [done|]. apply Z.eqb_neq in Hc. by rewrite Hc, IH.
Qed.

Lemma Split_app s sep t :
  ContainsRune s sep = false -> Split (s ++ sep :: t) sep = s :: Split t sep.
Proof.
  rewrite ContainsRune_false.
  induction 1 as [|c s Hc _ IH]; cbn; [by rewrite Z.eqb_refl|].
  apply Z.eqb_neq in Hc. by rewrite Hc, IH.
Qed.

(** Splitting inverts joining when no part holds the separator. *)
Lemma Split_Join parts sep :
  parts <> [] -> Forall (fun p => ContainsRune p sep = false) parts ->
  Split (Join parts [sep]) sep = parts.
Proof.
  induction parts as [|p [|q ps] IH]; intros Hne Hall; [done | |].
  - apply Forall_inv in Hall. cbn. by apply Split_none.
  - apply Forall_cons in Hall as [Hp Hall].
    change (Join (p :: q :: ps) [sep]) with (p ++ sep :: Join (q :: ps) [sep]).
    rewrite Split_app by done. by rewrite IH.
Qed.

Lemma Join_Split s sep : Join (Split s sep) [sep] = s.
Proof.
  induction s as [|c s IH]; cbn; [done|].
  destruct (c =? sep) eqn:Hc.
  - apply Z.eqb_eq in Hc as ->. cbn. pose proof (Split_nonempty s sep) as Hne.
    destruct (Split s sep) as [|p ps]; [done|]. cbn in *. by rewrite IH.
  - pose proof (Split_nonempty s sep) as Hne.
    destruct (Split s sep) as [|p ps]; [done|]. cbn. cbn in IH.
    destruct ps; cbn in *; by subst.
Qed.

Lemma Split_parts s sep : Forall (fun p => ContainsRune p sep = false) (Split s sep).
Proof.
  induction s as [|c s IH]; cbn; [by repeat constructor|].
  destruct (c =? sep) eqn:Hc; [by constructor|].
  destruct (Split s sep) as [|p ps]; [by repeat constructor; cbn; rewrite Z.eqb_sym, Hc|].
  inversion_clear IH. constructor; [|done]. cbn. by rewrite Z.eqb_sym, Hc.
Qed.

Lemma span_app f s a b : span f s = (a, b) -> s = a ++ b.
Proof.
  revert a b. induction s as [|c s IH]; intros a b; cbn; [by intros [= <- <-]|].
  destruct (f c); [|by intros [= <- <-]].
  destruct (span f s) as [a' b']. intros [= <- <-]. cbn. by rewrite (IH _ _ eq_refl).
Qed.

(** [span] stops where the text that follows a matching run does. *)
Lemma span_exact f a b :
  Forall (fun c => f c = true) a ->
  match b with [] => True | c :: _ => f c = false end ->
  span f (a ++ b) = (a, b).
Proof.
  intros Ha Hb. induction Ha as [|c a Hc _ IH]; cbn.
  - destruct b as [|c b]; cbn; [done | by rewrite Hb].
  - by rewrite Hc, IH.
Qed.

Lemma span_length f s : (length (span f s).2 <= length s)%nat.
Proof.
  destruct (span f s) as [a b] eqn:E. apply span_app in E as ->.
  rewrite length_app. cbn. lia.
Qed.

(** ** Trimming *)

Section Trim.
Context (f : rune -> bool).

(** Nothing to trim at either end. *)
Definition trimmed (t : gostring) : Prop :=
  (forall c, head t = Some c -> f c = false) /\ (forall c, last t = Some c -> f c = false).

Lemma trim_left_spec s : exists a, s = a ++ trim_left f s /\ Forall (fun c => f c = true) a
  /\ (forall c, head (trim_left f s) = Some c -> f c = false).
Proof.
  induction s as [|c s (a & Hs & Ha & Hh)]; cbn [trim_left]; [by exists []|].
  destruct (f c) eqn:Hc.
  - exists (c :: a). cbn. rewrite <- Hs. split; [done|]. split; [by constructor|done].
  - exists []. split; [done|]. split; [constructor|]. by intros d [= <-].
Qed.

Lemma trim_left_id t : (forall c, head t = Some c -> f c = false) -> trim_left f t = t.
Proof. destruct t as [|c t]; cbn; [done|]. intros Hh. by rewrite (Hh c eq_refl). Qed.

Lemma TrimFunc_spec s : exists a b, s = a ++ TrimFunc f s ++ b
  /\ Forall (fun c => f c = true) a /\ Forall (fun c => f c = true) b /\ trimmed (TrimFunc f s).
Proof.
  unfold TrimFunc. destruct (trim_left_spec s) as (a & Hs & Ha & Hh).
  set (t1 := trim_left f s) in *. destruct (trim_left_spec (reverse t1)) as (b & Hb & Hfb & Hhb).
  set (t2 := trim_left f (reverse t1)) in *.
  assert (Ht1 : t1 = reverse t2 ++ reverse b) by (by rewrite <- reverse_app, <- Hb, reverse_involutive).
  exists a, (reverse b). rewrite <- Ht1. repeat split; [done|done|by apply Forall_reverse| |].
  - intros c Hc. apply Hh. rewrite Ht1. destruct (reverse t2); [done|]. done.
  - intros c Hc. apply Hhb. rewrite last_reverse in Hc. done.
Qed.

Lemma TrimFunc_id t : trimmed t -> TrimFunc f t = t.
Proof.
  intros [Hh Hl]. unfold TrimFunc. rewrite (trim_left_id t) by done.
  rewrite trim_left_id; [apply reverse_involutive|]. intros c Hc. apply Hl.
  by rewrite <- head_reverse.
Qed.

Lemma TrimFunc_idem s : TrimFunc f (TrimFunc f s) = TrimFunc f s.
Proof. destruct (TrimFunc_spec s) as (_ & _ & _ & _ & _ & Ht). by apply TrimFunc_id. Qed.
End Trim.
