(* ===== verification/GoSort.v ===== *)
(** Go's sort package as the code uses it (sort.SliceStable, sort.Strings), and the
    order of strings. *)

From Stdlib Require Import Sorting.Sorted.
From S2P Require Import Prelude GoText.

(** One round of an insertion sort: [x] moves left past the elements it is less
    than.  The sorted part is kept with its last element first. *)
Fixpoint insert_back {A} (less : A -> A -> bool) (x : A) (sorted : list A) : list A :=
  match sorted with
  | [] => [x]
  | y :: l => if less x y then y :: insert_back less x l else x :: sorted
  end.

(** sort.SliceStable and sort.Strings.  Go sorts blocks of twenty this way and
    merges them; on a [less] that is a strict weak order that gives the same
    list. *)
Definition sort_stable {A} (less : A -> A -> bool) (l : list A) : list A :=
  reverse (fold_left (fun acc x => insert_back less x acc) l []).

Definition str_ltb (a b : gostring) : bool := match str_compare a b with Lt => true | _ => false end.


Lemma insert_back_perm {A} less (x : A) l : insert_back less x l ≡ₚ x :: l.
Proof.
  induction l as [|y l IH]; [done|]. cbn. case_match; [|done]. rewrite IH. apply Permutation_swap.
Qed.

Lemma insert_fold_perm {A} less (l acc : list A) :
  fold_left (fun acc x => insert_back less x acc) l acc ≡ₚ l ++ acc.
Proof.
  revert acc. induction l as [|x l IH]; intros acc; cbn; [done|].
  rewrite IH, insert_back_perm. by rewrite Permutation_middle.
Qed.

Lemma sort_stable_perm {A} less (l : list A) : sort_stable less l ≡ₚ l.
Proof. unfold sort_stable. rewrite reverse_Permutation, insert_fold_perm. by rewrite app_nil_r. Qed.

(** ** The stable sort *)

Section Sort.
Context {A : Type} (cmp : A -> A -> Z) (ok : A -> Prop).
Context (cmp_anti : forall x y, ok x -> ok y -> cmp y x = - cmp x y).
Context (cmp_trans : forall x y z, ok x -> ok y -> ok z -> cmp x y <= 0 -> cmp y z <= 0 -> cmp x z <= 0).

Definition less (x y : A) : bool := cmp x y <? 0.

(** Largest first: the sorted part as the insertion keeps it. *)
Definition descending : list A -> Prop := StronglySorted (fun x y => cmp y x <= 0).

Lemma insert_back_ok x l : ok x -> Forall ok l -> Forall ok (insert_back less x l).
Proof. intros Hx Hl. rewrite insert_back_perm. by constructor. Qed.

Lemma insert_back_sorted x l : ok x -> Forall ok l -> descending l -> descending (insert_back less x l).
Proof.
  intros Hx Hl Hd. induction Hd as [|y l Hd IH Hy]; cbn; [by repeat constructor|].
  inversion Hl as [|? ? Hyo Hlo]; subst. unfold less at 1. destruct (Z.ltb_spec (cmp x y) 0) as [Hlt|Hge].
  - constructor; [by apply IH|]. rewrite insert_back_perm. constructor; [lia|done].
  - assert (Hyx : cmp y x <= 0) by (rewrite (cmp_anti x y) by done; lia).
    constructor; [by constructor|]. constructor; [done|]. rewrite Forall_forall in *. intros z Hz.
    eapply (cmp_trans z y x); auto.
Qed.

Definition same_key (k x : A) : bool := cmp k x =? 0.

Lemma same_key_less k x y : ok k -> ok x -> ok y -> same_key k x = true -> less x y = true -> same_key k y = false.
Proof.
  unfold same_key, less. intros Hk Hx Hy Hkx%Z.eqb_eq Hxy%Z.ltb_lt. apply Z.eqb_neq. intros Hky.
  pose proof (cmp_anti k y Hk Hy). pose proof (cmp_anti x y Hx Hy). pose proof (cmp_trans y k x Hy Hk Hx). lia.
Qed.

(** An element joins its equals at their end. *)
Lemma insert_back_filter k x l : ok k -> ok x -> Forall ok l ->
  List.filter (same_key k) (insert_back less x l)
  = if same_key k x then x :: List.filter (same_key k) l else List.filter (same_key k) l.
Proof.
  intros Hk Hx Hl. induction Hl as [|y l Hy Hl IH]; cbn; [done|]. destruct (less x y) eqn:E; cbn.
  - rewrite IH. destruct (same_key k x) eqn:Ex; [|done]. by rewrite (same_key_less k x y).
  - done.
Qed.

Lemma insert_all_inv l acc : Forall ok l -> Forall ok acc -> descending acc ->
  let out := fold_left (fun acc x => insert_back less x acc) l acc in
  descending out /\ forall k, ok k ->
    List.filter (same_key k) out = reverse (List.filter (same_key k) l) ++ List.filter (same_key k) acc.
Proof.
  intros Hl. revert acc. induction Hl as [|x l Hx Hl IH]; intros acc Ha Hd; cbn [fold_left]; [done|].
  destruct (IH (insert_back less x acc)) as [Hs Hf]; [by apply insert_back_ok|by apply insert_back_sorted|].
  split; [done|]. intros k Hk. rewrite Hf, insert_back_filter by done. cbn [List.filter].
  destruct (same_key k x); [|done]. by rewrite reverse_cons, <- app_assoc.
Qed.

Lemma filter_rev_stdlib (f : A -> bool) l : List.filter f (reverse l) = reverse (List.filter f l).
Proof.
  induction l as [|x l IH]; [done|]. rewrite reverse_cons, List.filter_app, IH. cbn [List.filter].
  destruct (f x); [by rewrite reverse_cons|by rewrite app_nil_r].
Qed.

Lemma sorted_reverse (R : A -> A -> Prop) l : StronglySorted R l -> StronglySorted (fun x y => R y x) (reverse l).
Proof.
  intros Hs. induction Hs as [|x l Hs IH Hx]; [constructor|]. rewrite reverse_cons.
  clear Hs. assert (Hx' : Forall (fun y => R x y) (reverse l)) by by rewrite reverse_Permutation. clear Hx.
  induction IH as [|y k IH IHk Hy]; [by repeat constructor|]. inversion Hx'; subst. constructor; [by apply IHk|].
  apply Forall_app. split; [done|]. by constructor.
Qed.

Lemma sort_stable_spec l : Forall ok l ->
  sort_stable less l ≡ₚ l /\ StronglySorted (fun x y => cmp x y <= 0) (sort_stable less l)
  /\ forall k, ok k -> List.filter (same_key k) (sort_stable less l) = List.filter (same_key k) l.
Proof.
  intros Hl. split; [apply sort_stable_perm|]. unfold sort_stable.
  destruct (insert_all_inv l [] Hl (List.Forall_nil _)) as [Hs Hf]; [constructor|]. split.
  - by apply sorted_reverse in Hs.
  - intros k Hk. rewrite filter_rev_stdlib, Hf by done. cbn. by rewrite app_nil_r, reverse_involutive.
Qed.
End Sort.

Lemma sort_stable_ext {A} (f g : A -> A -> bool) l : (forall x y, f x y = g x y) -> sort_stable f l = sort_stable g l.
Proof.
  intros Hfg. assert (Hi : forall x l, insert_back f x l = insert_back g x l).
  { intros x k. induction k as [|y k IH]; [done|]. cbn. by rewrite Hfg, IH. }
  unfold sort_stable. f_equal. generalize (@nil A). induction l as [|x l IH]; intros acc; [done|]. cbn. by rewrite Hi.
Qed.

(** ** Strings in order *)

Lemma str_compare_anti a b : str_compare b a = CompOpp (str_compare a b).
Proof.
  revert b. induction a as [|x a IH]; intros [|y b]; cbn; try done. rewrite (Z.compare_antisym x y), (IH b).
  by destruct (x ?= y).
Qed.

Lemma str_compare_eq a b : str_compare a b = Eq -> a = b.
Proof.
  revert b. induction a as [|x a IH]; intros [|y b]; cbn; try done.
  destruct (Z.compare_spec x y); try done. intros ?%IH. by subst.
Qed.

Lemma str_compare_trans a b c : str_compare a b <> Gt -> str_compare b c <> Gt -> str_compare a c <> Gt.
Proof.
  revert b c. induction a as [|x a IH]; intros [|y b] [|z c]; cbn; try done.
  destruct (Z.compare_spec x y), (Z.compare_spec y z), (Z.compare_spec x z); subst; try done; try lia. apply IH.
Qed.

Definition str_sign (a b : gostring) : Z := match str_compare a b with Lt => -1 | Eq => 0 | Gt => 1 end.

Lemma str_ltb_sign a b : str_ltb a b = (str_sign a b <? 0).
Proof. unfold str_ltb, str_sign. by destruct (str_compare a b). Qed.

Lemma str_sign_anti a b : str_sign b a = - str_sign a b.
Proof. unfold str_sign. rewrite (str_compare_anti a b). by destruct (str_compare a b). Qed.

Lemma str_sign_zero a b : str_sign a b = 0 -> a = b.
Proof. unfold str_sign. destruct (str_compare a b) eqn:E; try done. intros _. by apply str_compare_eq. Qed.

Lemma str_sign_refl a : str_sign a a = 0.
Proof. pose proof (str_sign_anti a a). lia. Qed.

Lemma str_sign_trans a b c : str_sign a b <= 0 -> str_sign b c <= 0 -> str_sign a c <= 0.
Proof.
  intros Hab Hbc. pose proof (str_compare_trans a b c) as Ht. revert Hab Hbc. unfold str_sign.
  destruct (str_compare a b), (str_compare b c), (str_compare a c); try done; try lia; intros; by destruct Ht.
Qed.

(** A sort without equals is strict. *)
Lemma sorted_strict {A} (cmp : A -> A -> Z) l : (forall x y, x ∈ l -> y ∈ l -> cmp x y = 0 -> x = y) ->
  NoDup l -> StronglySorted (fun x y => cmp x y <= 0) l -> StronglySorted (fun x y => cmp x y < 0) l.
Proof.
  intros Heq Hnd Hs. induction Hs as [|x l Hs IH Hx]; [constructor|]. inversion Hnd as [|? ? Hn Hl]; subst.
  constructor; [apply IH; [|done]; intros; apply Heq; set_solver|].
  rewrite Forall_forall in *. intros y Hy. specialize (Hx y Hy).
  destruct (decide (cmp x y = 0)) as [E|]; [|lia]. apply Heq in E as ->; [done|set_solver..].
Qed.

(** sort.Strings of distinct strings. *)
Lemma sort_strings_strict l : NoDup l ->
  StronglySorted (fun a b => str_ltb a b = true) (sort_stable str_ltb l).
Proof.
  intros Hnd. destruct (sort_stable_spec str_sign (fun _ => True) (fun x y _ _ => str_sign_anti x y)
    (fun x y z _ _ _ => str_sign_trans x y z) l) as (_ & Hs & _); [by apply Forall_true|].
  rewrite (sort_stable_ext _ str_ltb) in Hs by (intros; symmetry; apply str_ltb_sign).
  apply (sorted_strict str_sign) in Hs.
  - induction Hs as [|x k _ IH Hx]; constructor; [done|]. eapply Forall_impl; [exact Hx|].
    intros y Hy. cbn in Hy. rewrite str_ltb_sign. by apply Z.ltb_lt.
  - intros x y _ _. apply str_sign_zero.
  - by rewrite sort_stable_perm.
Qed.
