(* ===== verification/Strconv.v ===== *)
(** The parts of Go's [strconv] the literal code uses: decimal integers, and
    binary64 floats in the shortest form [FormatFloat(x, 'g', -1, 64)] and back.

    A float64 is a [spec_float] of the Standard Library (precision 53, maximal
    exponent 1024).  [ParseFloat] rounds the exact decimal value once, to
    nearest, ties to even; [FormatFloat] searches the least number of decimal
    digits that reads back, which is how the Go documentation defines
    precision -1. *)

From Stdlib Require Import SpecFloat.
From S2P Require Import Prelude GoText.

Definition int64_min : Z := - 2 ^ 63.
Definition int64_max : Z := 2 ^ 63 - 1.

Definition in_int64 (z : Z) : bool := between int64_min int64_max z.

(** ** Decimal integers *)

Fixpoint dec_digits (fuel : nat) (n : Z) (acc : gostring) : gostring :=
  match fuel with
  | O => acc
  | S f =>
      let acc' := (48 + n mod 10) :: acc in
      if n <? 10 then acc' else dec_digits f (n / 10) acc'
  end.

(** The decimal digits of a non-negative integer. *)
Definition FormatUint (n : Z) : gostring := dec_digits (S (Z.to_nat (Z.log2 n))) n [].

(** strconv.FormatInt(z, 10), strconv.Itoa *)
Definition FormatInt (z : Z) : gostring :=
  if z <? 0 then 45 :: FormatUint (- z) else FormatUint z.

Definition dec_value (digits : gostring) : Z :=
  fold_left (fun v c => v * 10 + (c - 48)) digits 0.

(** Sign and remaining text, as ParseInt and readFloat take it. *)
Definition read_sign (s : gostring) : bool * gostring :=
  match s with
  | c :: s' => if c =? 45 then (true, s') else if c =? 43 then (false, s') else (false, s)
  | [] => (false, [])
  end.

(** strconv.ParseInt(s, 10, 64); [None] is any of its errors. *)
Definition ParseInt (s : gostring) : option Z :=
  let '(neg, ds) := read_sign s in
  match ds with
  | [] => None
  | _ =>
      if forallb isDigit ds then
        let v := if neg then - dec_value ds else dec_value ds in
        if in_int64 v then Some v else None
      else None
  end.

(** ** Floats *)

Definition float64 : Type := spec_float.
Definition f64_prec : Z := 53.
Definition f64_emax : Z := 1024.
Definition f64_zero : float64 := S754_zero false.

Definition f64_ltb (a b : float64) : bool := SFltb a b.
Definition f64_leb (a b : float64) : bool := SFleb a b.
Definition f64_opp (a : float64) : float64 := SFopp a.

(** The float64 nearest to (-1)^sign * m * 10^e10. *)
Definition dec_to_float (sign : bool) (m e10 : Z) : float64 :=
  match m with
  | Zpos _ =>
      if 0 <=? e10 then
        binary_normalize f64_prec f64_emax (cond_Zopp sign (m * 10 ^ e10)) 0 sign
      else
        let '(q, e', l) := SFdiv_core_binary f64_prec f64_emax m 0 (10 ^ (- e10)) 0 in
        binary_round_aux f64_prec f64_emax sign q e' l
  | _ => S754_zero sign
  end.

(** The exponent part: ['e' | 'E'] sign? digits, at least one digit; the value
    saturates at the bound [readFloat] uses. *)
Definition exp_value (digits : gostring) : Z :=
  fold_left (fun e c => if e <? 10000 then e * 10 + (c - 48) else e) digits 0.

Definition read_exp (s : gostring) : option Z :=
  match s with
  | [] => Some 0
  | c :: s' =>
      if (c =? 101) || (c =? 69) then
        let '(neg, ds) := read_sign s' in
        match ds with
        | [] => None
        | _ => if forallb isDigit ds
               then Some (if neg then - exp_value ds else exp_value ds)
               else None
        end
      else None
  end.

(** strconv.ParseFloat(s, 64) on decimal text; [None] is a syntax or a range
    error.  Hexadecimal, underscored and named (inf, nan) spellings are not
    number tokens and are not read. *)
Definition ParseFloat (s : gostring) : option float64 :=
  let '(neg, t) := read_sign s in
  let '(ip, t1) := span isDigit t in
  let '(fp, t2) :=
    match t1 with
    | c :: t1' => if c =? 46 then span isDigit t1' else ([], t1)
    | [] => ([], t1)
    end in
  match ip ++ fp with
  | [] => None
  | ds =>
      match read_exp t2 with
      | None => None
      | Some e =>
          let f := dec_to_float neg (dec_value ds) (e - Z.of_nat (length fp)) in
          match f with
          | S754_infinity _ | S754_nan => None
          | _ => Some f
          end
      end
  end.

(** *** Shortest decimal *)

(** The position of the decimal point of [num / den]: the least [k] with
    [num < den * 10^k], searched upward from [k] and, below one, downward. *)
Fixpoint dec_point (fuel : nat) (num den k : Z) : Z :=
  match fuel with
  | O => k
  | S f =>
      if num <? den * 10 ^ (Z.max 0 k) then
        if k <=? 0 then
          (* below one: move the point left while the value stays under it *)
          if num * 10 ^ (1 - k) <? den then dec_point f num den (k - 1) else k
        else k
      else dec_point f num den (k + 1)
  end.

Fixpoint strip_zeros (digits_rev : gostring) : gostring :=
  match digits_rev with
  | c :: ds => if c =? 48 then strip_zeros ds else digits_rev
  | [] => []
  end.

(** A candidate with [p] significant digits: its digits without trailing
    zeros, and the position of the decimal point. *)
Definition dec_candidate (q dp p : Z) : gostring * Z :=
  let ds := FormatUint q in
  (reverse (strip_zeros (reverse ds)), dp + (Z.of_nat (length ds) - p)).

Definition candidate_reads (m : float64) (c : gostring * Z) : bool :=
  let '(ds, dp) := c in
  match dec_to_float false (dec_value ds) (dp - Z.of_nat (length ds)), m with
  | S754_finite _ m1 e1, S754_finite _ m2 e2 => bool_decide (m1 = m2 /\ e1 = e2)
  | _, _ => false
  end.

(** Try 1, 2, ... significant digits; the nearer of the two neighbours first. *)
Fixpoint shortest (fuel : nat) (num den dp p : Z) (f : float64) : gostring * Z :=
  let scaled_num := num * 10 ^ (Z.max 0 (p - dp)) in
  let scaled_den := den * 10 ^ (Z.max 0 (dp - p)) in
  let q := scaled_num / scaled_den in
  let r := scaled_num mod scaled_den in
  let near_up := scaled_den <? 2 * r in
  let lo := dec_candidate q dp p in
  let hi := dec_candidate (q + 1) dp p in
  let first := if near_up then hi else lo in
  let second := if near_up then lo else hi in
  match fuel with
  | O => first
  | S n =>
      if candidate_reads f first then first
      else if candidate_reads f second then second
      else shortest n num den dp (p + 1) f
  end.

Definition shortest_decimal (f : float64) : gostring * Z :=
  match f with
  | S754_finite _ m e =>
      let num := if 0 <=? e then Zpos m * 2 ^ e else Zpos m in
      let den := if 0 <=? e then 1 else 2 ^ (- e) in
      let dp := dec_point 800 num den 0 in
      shortest 16 num den dp 1 f
  | _ => ([48], 1)
  end.

Definition zeros (n : Z) : gostring := replicate (Z.to_nat n) 48.

(** %e with the shortest digits: d.ddde±dd *)
Definition fmt_e (ds : gostring) (dp : Z) : gostring :=
  let ex := dp - 1 in
  let frac := tail ds in
  let mant := match ds with c :: _ => [c] | [] => [48] end in
  let exd := FormatUint (Z.abs ex) in
  mant ++ (match frac with [] => [] | _ => 46 :: frac end)
  ++ [101; if ex <? 0 then 45 else 43]
  ++ (if Z.abs ex <? 10 then 48 :: exd else exd).

(** %f with the shortest digits *)
Definition fmt_f (ds : gostring) (dp : Z) : gostring :=
  let n := Z.of_nat (length ds) in
  let ip := if 0 <? dp then take (Z.to_nat dp) ds ++ zeros (dp - n) else [48] in
  let fp := if 0 <? dp then drop (Z.to_nat dp) ds else zeros (- dp) ++ ds in
  ip ++ (match fp with [] => [] | _ => 46 :: fp end).

(** strconv.FormatFloat(x, 'g', -1, 64) *)
Definition FormatFloat (f : float64) : gostring :=
  match f with
  | S754_nan => go "NaN"
  | S754_infinity s => if s then go "-Inf" else go "+Inf"
  | S754_zero s => if s then go "-0" else go "0"
  | S754_finite s _ _ =>
      let '(ds, dp) := shortest_decimal f in
      let ex := dp - 1 in
      (if s then [45] else [])
      ++ (if (ex <? -4) || (6 <=? ex) then fmt_e ds dp else fmt_f ds dp)
  end.

(** strconv.FormatFloat(x, 'f', -1, 64) *)
Definition FormatFloat_f (f : float64) : gostring :=
  match f with
  | S754_finite s _ _ => let '(ds, dp) := shortest_decimal f in (if s then [45] else []) ++ fmt_f ds dp
  | _ => FormatFloat f
  end.

(** strconv.FormatFloat(x, 'e', -1, 64), for a finite [x] other than zero *)
Definition FormatFloat_e (f : float64) : gostring :=
  match f with
  | S754_finite s _ _ => let '(ds, dp) := shortest_decimal f in (if s then [45] else []) ++ fmt_e ds dp
  | _ => FormatFloat f
  end.

(** ** Lemmas *)

Lemma dec_value_app ds c : dec_value (ds ++ [c]) = dec_value ds * 10 + (c - 48).
Proof. unfold dec_value. by rewrite fold_left_app. Qed.

Lemma fold_left_dec ds v :
  fold_left (fun v c => v * 10 + (c - 48)) ds v = v * 10 ^ Z.of_nat (length ds) + dec_value ds.
Proof.
  revert v. induction ds as [|c ds IH]; intros v; [cbn; unfold dec_value; cbn; lia|].
  unfold dec_value. cbn [fold_left length]. rewrite IH, (IH (0 * 10 + (c - 48))).
  rewrite Nat2Z.inj_succ, Z.pow_succ_r by lia. lia.
Qed.

Lemma dec_value_cons c ds :
  dec_value (c :: ds) = (c - 48) * 10 ^ Z.of_nat (length ds) + dec_value ds.
Proof. unfold dec_value at 1. cbn [fold_left]. rewrite fold_left_dec. lia. Qed.

Lemma isDigit_digit n : isDigit (48 + n mod 10) = true.
Proof.
  unfold isDigit, between. pose proof (Z.mod_pos_bound n 10 ltac:(lia)).
  apply andb_true_iff. split; apply Z.leb_le; lia.
Qed.

Lemma dec_digits_spec fuel n acc :
  0 <= n < 10 ^ Z.of_nat fuel -> (0 < fuel)%nat ->
  exists ds, dec_digits fuel n acc = ds ++ acc /\ ds <> []
    /\ Forall (fun c => isDigit c = true) ds /\ dec_value ds = n.
Proof.
  revert n acc. induction fuel as [|f IH]; intros n acc Hn Hf; [lia|].
  cbn [dec_digits]. rewrite Nat2Z.inj_succ, Z.pow_succ_r in Hn by lia.
  destruct (n <? 10) eqn:Hlt; bprop.
  - exists [48 + n mod 10]. repeat split; try done.
    + repeat constructor. apply isDigit_digit.
    + unfold dec_value. cbn. rewrite Z.mod_small; lia.
  - destruct f as [|f]; [cbn in Hn; lia|].
    destruct (IH (n / 10) ((48 + n mod 10) :: acc)) as (ds & E & Hne & Hd & Hv); [|lia|].
    { pose proof (Z.div_lt_upper_bound n 10 (10 ^ Z.of_nat (S f)) ltac:(lia)).
      pose proof (Z.div_pos n 10). lia. }
    exists (ds ++ [48 + n mod 10]). rewrite E, <- app_assoc. repeat split.
    + by destruct ds.
    + apply Forall_app_2; [done|]. repeat constructor. apply isDigit_digit.
    + rewrite dec_value_app, Hv. pose proof (Z.div_mod n 10). lia.
Qed.

Lemma FormatUint_spec n : 0 <= n ->
  FormatUint n <> [] /\ Forall (fun c => isDigit c = true) (FormatUint n)
  /\ dec_value (FormatUint n) = n.
Proof.
  intros Hn. unfold FormatUint.
  destruct (dec_digits_spec (S (Z.to_nat (Z.log2 n))) n []) as (ds & E & ?); [|lia|].
  - split; [done|]. rewrite Nat2Z.inj_succ, Z2Nat.id by apply Z.log2_nonneg.
    destruct (Z.eq_dec n 0) as [->|Hz]; [cbn; lia|].
    pose proof (Z.log2_spec n ltac:(lia)) as [_ Hb].
    eapply Z.lt_le_trans; [apply Hb|]. apply Z.pow_le_mono_l. lia.
  - rewrite app_nil_r in E. by rewrite E.
Qed.

Lemma FormatInt_shape z :
  exists sg ds, FormatInt z = sg ++ ds /\ (sg = [] \/ sg = [45]) /\ ds <> []
    /\ Forall (fun c => isDigit c = true) ds
    /\ dec_value ds = Z.abs z /\ (sg = [45] <-> z < 0).
Proof.
  unfold FormatInt. destruct (z <? 0) eqn:Hz; bprop.
  - destruct (FormatUint_spec (- z)) as (? & ? & ?); [lia|].
    exists [45], (FormatUint (- z)). repeat split; auto; lia.
  - destruct (FormatUint_spec z) as (? & ? & ?); [lia|].
    exists [], (FormatUint z). repeat split; auto; try lia; done.
Qed.

Lemma forallb_Forall_true {A} (f : A -> bool) l :
  forallb f l = true <-> Forall (fun c => f c = true) l.
Proof. rewrite forallb_forall, List.Forall_forall. done. Qed.

Lemma isDigit_range c : isDigit c = true <-> 48 <= c <= 57.
Proof.
  unfold isDigit, between. rewrite andb_true_iff, !Z.leb_le. done.
Qed.

Lemma read_sign_digits ds :
  Forall (fun c => isDigit c = true) ds -> read_sign ds = (false, ds).
Proof.
  destruct 1 as [|c ds Hc _]; [done|]. apply isDigit_range in Hc. cbn.
  destruct (Z.eqb_spec c 45), (Z.eqb_spec c 43); lia || done.
Qed.

(** strconv.ParseInt inverts strconv.FormatInt on every int64. *)
Lemma dec_value_nonneg ds : forallb isDigit ds = true -> 0 <= dec_value ds.
Proof.
  unfold dec_value. assert (H : forall v, 0 <= v -> forallb isDigit ds = true ->
    0 <= fold_left (fun v c => v * 10 + (c - 48)) ds v); [|intros; by apply H].
  induction ds as [|d ds IH]; intros v Hv Hd; [done|]. cbn [fold_left forallb] in *. bprop.
  rewrite isDigit_range in *. apply IH; [lia|done].
Qed.

Lemma ParseInt_FormatInt z : in_int64 z = true -> ParseInt (FormatInt z) = Some z.
Proof.
  intros Hin. destruct (FormatInt_shape z) as (sg & ds & E & Hsg & Hne & Hd & Hv & Hneg).
  rewrite E. unfold ParseInt.
  assert (read_sign (sg ++ ds) = (z <? 0, ds)) as ->.
  { destruct Hsg as [-> | ->]; cbn [app].
    - rewrite read_sign_digits by done. f_equal. symmetry. apply Z.ltb_ge.
      destruct (Z.lt_ge_cases z 0) as [Hl|]; [|lia]. by apply Hneg in Hl.
    - cbn. f_equal. symmetry. apply Z.ltb_lt. by apply Hneg. }
  destruct ds as [|c ds]; [done|].
  rewrite (proj2 (forallb_Forall_true _ _) Hd), Hv.
  replace (if z <? 0 then - Z.abs z else Z.abs z) with z; [by rewrite Hin|].
  destruct (z <? 0) eqn:?; bprop; lia.
Qed.
