(* ===== verification/Numbers.v ===== *)
(** Machine numbers: the narrowings of core/num/num.go and the comparisons and
    arithmetic of component/memql/expr_eval.go over int64 and float64.

    An int64 is a [Z] in range.  A float64 is a [spec_float]; [exact] is its value
    in units of 2^-1074, the smallest positive one, so the order of finite floats
    is the order of integers. *)

From Stdlib Require Import SpecFloat.
From S2P Require Import Prelude GoText Strconv.

(** ** core/num, on a 64-bit build *)

Definition MaxInt : Z := 2 ^ 63 - 1.
Definition MinInt : Z := - 2 ^ 63.

(** [float64(math.MaxInt)], which rounds up to 2^63, and [float64(math.MinInt)]. *)
Definition float_MaxInt : float64 := S754_finite false 4503599627370496 11.
Definition float_MinInt : float64 := S754_finite true 4503599627370496 11.

Definition is_nan (v : float64) : bool := match v with S754_nan => true | _ => false end.

Definition is_inf (v : float64) : bool := match v with S754_infinity _ => true | _ => false end.

(** The conversion [int64(v)] of a value in range: truncation toward zero. *)
Definition trunc (v : float64) : Z :=
  match v with
  | S754_finite s m e =>
      let a := if 0 <=? e then Z.pos m * 2 ^ e else Z.pos m / 2 ^ (- e) in
      if s then - a else a
  | _ => 0
  end.

Definition ClampInt64 (v : Z) : Z :=
  if MaxInt <? v then MaxInt else if v <? MinInt then MinInt else v.

Definition ClampFloat64 (v : float64) : Z :=
  if is_nan v then 0
  else if f64_leb float_MaxInt v then MaxInt
  else if f64_leb v float_MinInt then MinInt
  else ClampInt64 (trunc v).

Definition Int64Or (v def : Z) : Z := if (MaxInt <? v) || (v <? MinInt) then def else v.

Definition Int64OrZero (v : Z) : Z := if (MaxInt <? v) || (v <? MinInt) then 0 else v.

Definition Float64Or (v : float64) (def : Z) : Z :=
  if is_nan v || f64_leb float_MaxInt v || f64_leb v float_MinInt then def
  else Int64Or (trunc v) def.

Definition Float64OrZero (v : float64) : Z :=
  if is_nan v || f64_leb float_MaxInt v || f64_leb v float_MinInt then 0
  else Int64OrZero (trunc v).

Definition ClampFloat64ToInt64 (v : float64) : Z :=
  if is_nan v then 0
  else if f64_leb float_MaxInt v then int64_max
  else if f64_leb v float_MinInt then int64_min
  else trunc v.

(** math.Trunc: the fraction bits cleared. *)
Definition math_Trunc (v : float64) : float64 :=
  match v with
  | S754_finite s m e =>
      if 0 <=? e then v
      else match Z.pos m / 2 ^ (- e) * 2 ^ (- e) with
           | Z.pos p => S754_finite s p e
           | _ => S754_zero s
           end
  | _ => v
  end.

Definition f64_eqb (a b : float64) : bool := SFeqb a b.

Definition WholeInt64 (v : float64) : option Z :=
  if is_nan v || negb (f64_eqb v (math_Trunc v)) then None
  else if f64_leb float_MaxInt v || f64_ltb v float_MinInt then None
  else Some (trunc v).

(** ** float64 arithmetic *)

Definition f64_add : float64 -> float64 -> float64 := SFadd f64_prec f64_emax.
Definition f64_sub : float64 -> float64 -> float64 := SFsub f64_prec f64_emax.
Definition f64_mul : float64 -> float64 -> float64 := SFmul f64_prec f64_emax.
Definition f64_div : float64 -> float64 -> float64 := SFdiv f64_prec f64_emax.

(** The conversion [float64(i)], rounding to nearest even. *)
Definition f64_of_Z (i : Z) : float64 := binary_normalize f64_prec f64_emax i 0 false.

(** The float values Go has. *)
Definition f64_valid (v : float64) : bool := valid_binary f64_prec f64_emax v.

Definition f64_finite (v : float64) : bool := f64_valid v && negb (is_nan v) && negb (is_inf v).

(** ** Exact values *)

Definition f64_unit : Z := 2 ^ 1074.

(** The value of a finite float over [f64_unit]. *)
Definition exact (v : float64) : Z :=
  match v with
  | S754_finite s m e => cond_Zopp s (Z.pos m * 2 ^ (e + 1074))
  | _ => 0
  end.

Lemma digits2_bounds m : 2 ^ (Z.pos (digits2_pos m) - 1) <= Z.pos m < 2 ^ Z.pos (digits2_pos m).
Proof.
  induction m as [m IH|m IH|]; cbn [digits2_pos]; [..|cbn; lia];
    rewrite Pos2Z.inj_succ; replace (Z.succ (Z.pos (digits2_pos m)) - 1) with (Z.succ (Z.pos (digits2_pos m) - 1)) by lia;
    rewrite !Z.pow_succ_r by lia; lia.
Qed.

(** What a valid float's mantissa and exponent are. *)
Lemma valid_parts s m e : f64_valid (S754_finite s m e) = true ->
  Z.pos m < 2 ^ 53 /\ -1074 <= e <= 971 /\ (-1074 < e -> 2 ^ 52 <= Z.pos m).
Proof.
  unfold f64_valid, valid_binary, bounded, canonical_mantissa, fexp, emin, f64_prec, f64_emax.
  intros [Hc%Z.eqb_eq He%Z.leb_le]%andb_true_iff. pose proof (digits2_bounds m) as [Hlo Hhi].
  set (d := Z.pos (digits2_pos m)) in *. assert (0 < d) by (unfold d; lia).
  assert (Hmax : Z.max (d + e - 53) (-1074) = e) by exact Hc. clear Hc.
  assert (He' : e <= 971) by exact He. assert (d <= 53) by lia. split; [|split; [lia|]].
  - eapply Z.lt_le_trans; [exact Hhi|]. apply Z.pow_le_mono_r; lia.
  - intros Hemin. assert (d = 53) by lia. eapply Z.le_trans; [|exact Hlo]. apply Z.pow_le_mono_r; lia.
Qed.

Lemma pow2_pos k : 0 <= k -> 0 < 2 ^ k.
Proof. by apply Z.pow_pos_nonneg. Qed.

(** A larger exponent makes a larger magnitude. *)
Lemma exponent_decides m1 e1 m2 e2 : Z.pos m1 < 2 ^ 53 -> -1074 <= e1 -> e1 < e2 -> 2 ^ 52 <= Z.pos m2 ->
  Z.pos m1 * 2 ^ (e1 + 1074) < Z.pos m2 * 2 ^ (e2 + 1074).
Proof.
  intros H1 He1 He H2. set (k := e1 + 1074). replace (e2 + 1074) with (k + (1 + (e2 - e1 - 1))) by lia.
  rewrite (Z.pow_add_r 2 k), (Z.pow_add_r 2 1) by lia.
  pose proof (pow2_pos k ltac:(lia)). pose proof (pow2_pos (e2 - e1 - 1) ltac:(lia)).
  change (2 ^ 1) with 2. assert (Hm : Z.pos m1 < 2 * Z.pos m2) by (change (2 ^ 53) with (2 * 2 ^ 52) in H1; lia).
  apply Z.lt_le_trans with (2 * Z.pos m2 * 2 ^ k); [nia|]. generalize dependent (2 ^ k). generalize dependent (2 ^ (e2 - e1 - 1)).
  intros q Hq p Hp. nia.
Qed.

(** The comparison of two positive floats is that of their exact values. *)
Lemma compare_magnitudes s m1 e1 m2 e2 : f64_valid (S754_finite s m1 e1) = true -> f64_valid (S754_finite s m2 e2) = true ->
  match Z.compare e1 e2 with Lt => Lt | Gt => Gt | Eq => Pos.compare_cont Eq m1 m2 end
  = Z.compare (Z.pos m1 * 2 ^ (e1 + 1074)) (Z.pos m2 * 2 ^ (e2 + 1074)).
Proof.
  intros (A1 & A2 & A3)%valid_parts (B1 & B2 & B3)%valid_parts. destruct (Z.compare_spec e1 e2) as [->|He|He].
  - pose proof (pow2_pos (e2 + 1074) ltac:(lia)) as Hp.
    change (Pos.compare_cont Eq m1 m2) with (Z.compare (Z.pos m1) (Z.pos m2)). symmetry.
    destruct (Z.compare_spec (Z.pos m1) (Z.pos m2)) as [->|Hm|Hm];
      [apply Z.compare_refl|apply Z.compare_lt_iff; nia|apply Z.compare_gt_iff; nia].
  - symmetry. apply Z.compare_lt_iff, exponent_decides; lia.
  - symmetry. apply Z.compare_gt_iff, exponent_decides; lia.
Qed.

Lemma magnitude_pos m e : -1074 <= e -> 0 < Z.pos m * 2 ^ (e + 1074).
Proof. intros He. pose proof (pow2_pos (e + 1074) ltac:(lia)). nia. Qed.

Lemma f64_finite_parts v : f64_finite v = true -> f64_valid v = true /\ is_nan v = false /\ is_inf v = false.
Proof. unfold f64_finite. by intros [[-> ->%negb_true_iff]%andb_true_iff ->%negb_true_iff]%andb_true_iff. Qed.

(** IEEE comparison of finite floats is the comparison of their values. *)
Lemma SFcompare_exact a b : f64_finite a = true -> f64_finite b = true ->
  SFcompare a b = Some (Z.compare (exact a) (exact b)).
Proof.
  intros (Va & Na & Ia)%f64_finite_parts (Vb & Nb & Ib)%f64_finite_parts.
  destruct a as [sa|sa| |sa ma ea], b as [sb|sb| |sb mb eb]; try done; unfold SFcompare, exact; f_equal.
  - destruct sb; cbn [cond_Zopp]; pose proof (magnitude_pos mb eb ltac:(apply valid_parts in Vb; lia)); symmetry;
      [apply Z.compare_gt_iff|apply Z.compare_lt_iff]; lia.
  - destruct sa; cbn [cond_Zopp]; pose proof (magnitude_pos ma ea ltac:(apply valid_parts in Va; lia)); symmetry;
      [apply Z.compare_lt_iff|apply Z.compare_gt_iff]; lia.
  - pose proof (magnitude_pos ma ea ltac:(apply valid_parts in Va; lia)).
    pose proof (magnitude_pos mb eb ltac:(apply valid_parts in Vb; lia)).
    destruct sa, sb; cbn [cond_Zopp].
    + change (f64_valid (S754_finite false mb eb) = true) in Vb. change (f64_valid (S754_finite false ma ea) = true) in Va.
      rewrite (Z.compare_opp (Z.pos ma * _)), <- (compare_magnitudes false mb eb ma ea) by done.
      rewrite (Z.compare_antisym eb ea). destruct (eb ?= ea); cbn [CompOpp]; [|done|done].
      change (Pos.compare_cont Eq ma mb) with (Pos.compare ma mb). change (Pos.compare_cont Eq mb ma) with (Pos.compare mb ma).
      by rewrite (Pos.compare_antisym ma mb).
    + symmetry. apply Z.compare_lt_iff. lia.
    + symmetry. apply Z.compare_gt_iff. lia.
    + by apply (compare_magnitudes false).
Qed.

Lemma f64_leb_exact a b : f64_finite a = true -> f64_finite b = true -> f64_leb a b = (exact a <=? exact b).
Proof.
  intros Ha Hb. unfold f64_leb, SFleb. rewrite SFcompare_exact by done. unfold Z.leb. by destruct (_ ?= _).
Qed.

Lemma f64_ltb_exact a b : f64_finite a = true -> f64_finite b = true -> f64_ltb a b = (exact a <? exact b).
Proof.
  intros Ha Hb. unfold f64_ltb, SFltb. rewrite SFcompare_exact by done. unfold Z.ltb. by destruct (_ ?= _).
Qed.

Lemma f64_eqb_exact a b : f64_finite a = true -> f64_finite b = true -> f64_eqb a b = (exact a =? exact b).
Proof.
  intros Ha Hb. unfold f64_eqb, SFeqb. rewrite SFcompare_exact by done. rewrite Z.eqb_compare. by destruct (_ ?= _).
Qed.

(** *** Truncation *)

Lemma unit_split e : -1074 <= e -> e < 0 -> f64_unit = 2 ^ (- e) * 2 ^ (e + 1074).
Proof. intros. unfold f64_unit. rewrite <- Z.pow_add_r by lia. f_equal. lia. Qed.

Lemma exact_trunc v : f64_finite v = true -> trunc v = Z.quot (exact v) f64_unit.
Proof.
  intros (V & _ & _)%f64_finite_parts. destruct v as [s|s| |s m e]; try done. apply valid_parts in V as (_ & He & _).
  unfold trunc, exact. pose proof (pow2_pos 1074 ltac:(lia)) as Hu. change (2 ^ 1074) with f64_unit in Hu.
  assert (Habs : Z.quot (Z.pos m * 2 ^ (e + 1074)) f64_unit = if 0 <=? e then Z.pos m * 2 ^ e else Z.pos m / 2 ^ (- e)).
  { rewrite Z.quot_div_nonneg by (try apply Z.mul_nonneg_nonneg; try apply Z.pow_nonneg; lia).
    destruct (Z.leb_spec 0 e).
    - rewrite Z.pow_add_r by lia. change (2 ^ 1074) with f64_unit. rewrite Z.mul_assoc. apply Z.div_mul. lia.
    - rewrite (unit_split e) by lia. apply Z.div_mul_cancel_r; apply Z.pow_nonzero; lia. }
  destruct s; cbn [cond_Zopp]; rewrite ?Z.quot_opp_l by lia; by rewrite Habs.
Qed.

Lemma trunc_parts m e : Z.pos m < 2 ^ 53 -> (-1074 < e -> 2 ^ 52 <= Z.pos m) -> -1074 <= e < 0 ->
  let q := Z.pos m / 2 ^ (- e) * 2 ^ (- e) in q = 0 \/ (2 ^ 52 <= q < 2 ^ 53 /\ -1074 < e).
Proof.
  intros Hm Hn He q. pose proof (pow2_pos (- e) ltac:(lia)) as Hk.
  pose proof (Z.mul_div_le (Z.pos m) (2 ^ (- e)) Hk). pose proof (Z.div_pos (Z.pos m) (2 ^ (- e)) ltac:(lia) Hk).
  assert (Hq : q = 2 ^ (- e) * (Z.pos m / 2 ^ (- e))) by (unfold q; lia).
  destruct (Z.le_gt_cases (- e) 52) as [Hs|Hs].
  - right. split; [|lia]. split; [|lia]. rewrite Hq. specialize (Hn ltac:(lia)).
    replace (2 ^ 52) with (2 ^ (- e) * 2 ^ (52 + e)) in * by (rewrite <- Z.pow_add_r by lia; f_equal; lia).
    apply Z.mul_le_mono_nonneg_l; [lia|]. apply Z.div_le_lower_bound; [done|]. done.
  - left. rewrite Hq. assert (Z.pos m < 2 ^ (- e)).
    { eapply Z.lt_le_trans; [exact Hm|]. apply Z.pow_le_mono_r; lia. }
    rewrite Z.div_small; lia.
Qed.

Lemma digits2_exact p k : 0 < k -> 2 ^ (k - 1) <= Z.pos p < 2 ^ k -> Z.pos (digits2_pos p) = k.
Proof.
  intros Hk [H1 H2]. destruct (digits2_bounds p) as [D1 D2].
  assert (k - 1 < Z.pos (digits2_pos p)) by (apply (Z.pow_lt_mono_r_iff 2); lia).
  assert (Z.pos (digits2_pos p) - 1 < k) by (apply (Z.pow_lt_mono_r_iff 2); lia). lia.
Qed.

Lemma math_Trunc_exact v : f64_finite v = true ->
  f64_finite (math_Trunc v) = true /\ exact (math_Trunc v) = trunc v * f64_unit.
Proof.
  intros Hf. pose proof Hf as (V & _ & _)%f64_finite_parts. destruct v as [s|s| |s m e]; try done.
  pose proof V as (Hm & He & Hn)%valid_parts. unfold math_Trunc, trunc. destruct (Z.leb_spec 0 e).
  - split; [done|]. cbn [exact]. rewrite Z.pow_add_r by lia. change (2 ^ 1074) with f64_unit. destruct s; cbn [cond_Zopp]; ring.
  - rewrite (unit_split e) by lia. destruct (trunc_parts m e Hm Hn ltac:(lia)) as [Hq|[Hq Hem]].
    + rewrite Hq. split; [done|]. cbn [exact]. pose proof (pow2_pos (- e) ltac:(lia)). destruct s; nia.
    + destruct (Z.pos m / 2 ^ (- e) * 2 ^ (- e)) as [|p|p] eqn:Hp; [lia| |lia]. split.
      * unfold f64_finite, f64_valid, valid_binary, bounded, canonical_mantissa, fexp. cbn [is_nan is_inf negb andb].
        rewrite (digits2_exact p 53) by lia. rewrite !andb_true_r. apply andb_true_iff.
        split; [apply Z.eqb_eq|apply Z.leb_le]; unfold f64_prec, f64_emax, emin; lia.
      * cbn [exact]. destruct s; cbn [cond_Zopp]; rewrite <- Hp; ring.
Qed.

Lemma float_bounds_exact : f64_finite float_MaxInt = true /\ f64_finite float_MinInt = true
  /\ exact float_MaxInt = 2 ^ 63 * f64_unit /\ exact float_MinInt = - 2 ^ 63 * f64_unit.
Proof. by vm_compute. Qed.

(** WholeInt64 answers exactly for the values an int64 holds. *)
Lemma WholeInt64_spec v z : f64_valid v = true ->
  (WholeInt64 v = Some z <-> f64_finite v = true /\ exact v = z * f64_unit /\ in_int64 z = true).
Proof.
  intros V. destruct (f64_finite v) eqn:Hf.
  2:{ unfold f64_finite in Hf. rewrite V in Hf. destruct v as [s|s| |s m e]; try done; [|split; [done|by intros [? _]]].
      split; [|by intros [? _]]. by destruct s. }
  pose proof Hf as (_ & Hn & _)%f64_finite_parts. destruct (math_Trunc_exact v Hf) as [Ht He].
  destruct float_bounds_exact as (F1 & F2 & X1 & X2). pose proof (pow2_pos 1074 ltac:(lia)) as Hu. change (2 ^ 1074) with f64_unit in Hu.
  unfold WholeInt64. rewrite Hn, f64_eqb_exact, f64_leb_exact, f64_ltb_exact, X1, X2, He by done. cbn [orb].
  unfold in_int64, between, int64_min, int64_max.
  destruct (Z.eqb_spec (exact v) (trunc v * f64_unit)) as [Heq|Hne]; cbn [negb].
  2:{ split; [done|]. intros (_ & Hz & _). exfalso. apply Hne. rewrite exact_trunc, Hz, Z.quot_mul by (done || lia). done. }
  destruct (Z.leb_spec (2 ^ 63 * f64_unit) (exact v)); cbn [orb].
  { split; [done|]. intros (_ & Hz & [_ Hb%Z.leb_le]%andb_true_iff). nia. }
  destruct (Z.ltb_spec (exact v) (- 2 ^ 63 * f64_unit)).
  { split; [done|]. intros (_ & Hz & [Hb%Z.leb_le _]%andb_true_iff). nia. }
  split.
  - intros [= <-]. split; [done|]. split; [done|]. apply andb_true_iff. split; apply Z.leb_le; nia.
  - intros (_ & Hz & _). f_equal. apply (Z.mul_cancel_r _ _ f64_unit); [lia|]. congruence.
Qed.
