(* ===== verification/ExprNumbers.v ===== *)
(** Numbers of the expression language: exprNumber, the exact comparison and the
    checked arithmetic of component/memql/expr_eval.go, and the codes an
    evaluation is refused with. *)

From Stdlib Require Import SpecFloat.
From S2P Require Import Prelude GoText Strconv Numbers.

(** ** Refusals *)

(** The stable codes of ExprError. *)
Inductive expr_code : Type :=
| unsupported_node | lambda_not_callable | expression_budget_exceeded | unknown_name
| operand_type | arithmetic_overflow | division_by_zero | in_requires_list
| condition_not_boolean | argument_count | unknown_function | invalid_argument
| var_not_available | predicate_depth_exceeded | construct_call_not_allowed
| unknown_method | single_requires_one.

#[export] Instance expr_code_eq_dec : EqDecision expr_code.
Proof. solve_decision. Defined.

(** An ExprError by its code, error() with its message, an error a hook or the
    context returned, and the model's own out-of-fuel. *)
Inductive eval_error : Type :=
| ECode (c : expr_code)
| ERaised (message : gostring)
| EHook (e : gostring)
| EContext
| EFuel.

Definition exprErr {A} (c : expr_code) : result eval_error A := Err (ECode c).

(** ** Numbers *)

Inductive exprNumber : Type :=
| NInt (i : Z)
| NFloat (f : float64).

Definition num_float (n : exprNumber) : float64 :=
  match n with NInt i => f64_of_Z i | NFloat f => f end.

Definition num_whole (n : exprNumber) : option Z :=
  match n with NInt i => Some i | NFloat f => WholeInt64 f end.

(** The sign of a comparison, as Go's comparison functions return it. *)
Definition sign_of_cmp (c : comparison) : Z := match c with Lt => -1 | Eq => 0 | Gt => 1 end.

Definition exprCompareIntFloat (i : Z) (f : float64) : option Z :=
  if is_nan f then None
  else if f64_leb float_MaxInt f then Some (-1)
  else if f64_ltb f float_MinInt then Some 1
  else
    let t := math_Trunc f in
    match WholeInt64 t with
    | None => None
    | Some ti =>
        if i <? ti then Some (-1)
        else if ti <? i then Some 1
        else if f64_ltb t f then Some (-1)
        else if f64_ltb f t then Some 1
        else Some 0
    end.

Definition exprCompareNumbers (a b : exprNumber) : option Z :=
  match a, b with
  | NInt x, NInt y => Some (if x <? y then -1 else if y <? x then 1 else 0)
  | NFloat x, NFloat y =>
      if is_nan x || is_nan y then None
      else Some (if f64_ltb x y then -1 else if f64_ltb y x then 1 else 0)
  | NInt x, NFloat y => exprCompareIntFloat x y
  | NFloat x, NInt y => Z.opp <$> exprCompareIntFloat y x
  end.

(** ** Arithmetic *)

(** int64 arithmetic wraps. *)
Definition wrap64 (z : Z) : Z := (z + 2 ^ 63) mod 2 ^ 64 - 2 ^ 63.

Inductive arith_op : Type := OpAdd | OpSub | OpMul | OpDiv | OpMod.

Definition arith_int (op : arith_op) (x y : Z) : result eval_error exprNumber :=
  match op with
  | OpAdd =>
      if ((0 <? y) && (wrap64 (int64_max - y) <? x)) || ((y <? 0) && (x <? wrap64 (int64_min - y)))
      then exprErr arithmetic_overflow else Ok (NInt (wrap64 (x + y)))
  | OpSub =>
      if ((y <? 0) && (wrap64 (int64_max + y) <? x)) || ((0 <? y) && (x <? wrap64 (int64_min + y)))
      then exprErr arithmetic_overflow else Ok (NInt (wrap64 (x - y)))
  | OpMul =>
      let p := wrap64 (x * y) in
      if negb (x =? 0) && negb (y =? 0)
         && (negb (wrap64 (Z.quot p y) =? x) || ((x =? -1) && (y =? int64_min))
             || ((y =? -1) && (x =? int64_min)))
      then exprErr arithmetic_overflow else Ok (NInt p)
  | OpDiv =>
      if y =? 0 then exprErr division_by_zero
      else if (x =? int64_min) && (y =? -1) then exprErr arithmetic_overflow
      else Ok (NInt (wrap64 (Z.quot x y)))
  | OpMod =>
      if y =? 0 then exprErr division_by_zero
      else if y =? -1 then Ok (NInt 0)
      else Ok (NInt (Z.rem x y))
  end.

Definition arith_float (op : arith_op) (x y : float64) : result eval_error exprNumber :=
  let finish (r : float64) :=
    if is_inf r || is_nan r then exprErr arithmetic_overflow else Ok (NFloat r) in
  match op with
  | OpAdd => finish (f64_add x y)
  | OpSub => finish (f64_sub x y)
  | OpMul => finish (f64_mul x y)
  | OpDiv => if f64_eqb y f64_zero then exprErr division_by_zero else finish (f64_div x y)
  | OpMod => exprErr unsupported_node
  end.

Definition exprArithmetic (op : arith_op) (a b : exprNumber) : result eval_error exprNumber :=
  match a, b with
  | NInt x, NInt y => arith_int op x y
  | _, _ =>
      match op with
      | OpMod =>
          match num_whole a, num_whole b with
          | Some x, Some y =>
              if y =? 0 then exprErr division_by_zero
              else if y =? -1 then Ok (NInt 0)
              else Ok (NInt (Z.rem x y))
          | _, _ => exprErr operand_type
          end
      | _ => arith_float op (num_float a) (num_float b)
      end
  end.

(** ** Lemmas *)

(** The value a number stands for, over [f64_unit]. *)
Definition num_exact (n : exprNumber) : Z :=
  match n with NInt i => i * f64_unit | NFloat f => exact f end.

(** The numbers of the language: integers of 64 bits and finite floats. *)
Definition num_ok (n : exprNumber) : bool :=
  match n with NInt i => in_int64 i | NFloat f => f64_finite f end.

Lemma in_int64_range z : in_int64 z = true <-> - 2 ^ 63 <= z < 2 ^ 63.
Proof. unfold in_int64, between, int64_min, int64_max. rewrite andb_true_iff, !Z.leb_le. lia. Qed.

Lemma wrap64_id z : in_int64 z = true -> wrap64 z = z.
Proof. rewrite in_int64_range. intros Hz. unfold wrap64. rewrite Z.mod_small; lia. Qed.

Lemma wrap64_range z : in_int64 (wrap64 z) = true.
Proof. apply in_int64_range. unfold wrap64. pose proof (Z.mod_pos_bound (z + 2 ^ 63) (2 ^ 64)). lia. Qed.

(** Wrapping moves a value by a multiple of 2^64. *)
Lemma wrap64_cong z : exists k, wrap64 z = z + k * 2 ^ 64.
Proof.
  exists (- ((z + 2 ^ 63) / 2 ^ 64)). unfold wrap64. pose proof (Z.div_mod (z + 2 ^ 63) (2 ^ 64)). lia.
Qed.

Lemma unit_pos : 0 < f64_unit.
Proof. by apply pow2_pos. Qed.

Lemma sign_of_cmp_lt x y : sign_of_cmp (x ?= y) = if x <? y then -1 else if y <? x then 1 else 0.
Proof.
  destruct (Z.compare_spec x y) as [->|Hl|Hg]; cbn [sign_of_cmp].
  - by rewrite Z.ltb_irrefl.
  - by rewrite (proj2 (Z.ltb_lt x y) Hl).
  - rewrite (proj2 (Z.ltb_lt y x) Hg). by rewrite (proj2 (Z.ltb_ge x y)) by lia.
Qed.

Lemma compare_int_float_exact i f : in_int64 i = true -> f64_finite f = true ->
  exprCompareIntFloat i f = Some (sign_of_cmp (i * f64_unit ?= exact f)).
Proof.
  rewrite in_int64_range. intros Hi Hf. pose proof Hf as (_ & Hn & _)%f64_finite_parts.
  destruct (math_Trunc_exact f Hf) as [Ht He]. destruct float_bounds_exact as (F1 & F2 & X1 & X2).
  pose proof unit_pos as Hu. unfold exprCompareIntFloat.
  rewrite Hn, f64_leb_exact, f64_ltb_exact, !f64_ltb_exact, X1, X2, He, sign_of_cmp_lt by done.
  destruct (Z.leb_spec (2 ^ 63 * f64_unit) (exact f)).
  { rewrite (proj2 (Z.ltb_lt _ _)) by nia. done. }
  destruct (Z.ltb_spec (exact f) (- 2 ^ 63 * f64_unit)).
  { rewrite (proj2 (Z.ltb_ge (i * f64_unit) _)) by nia. by rewrite (proj2 (Z.ltb_lt _ _)) by nia. }
  pose proof (exact_trunc f Hf) as Htr.
  assert (Hq : Z.abs (exact f - trunc f * f64_unit) < f64_unit /\ (0 <= exact f -> trunc f * f64_unit <= exact f)
    /\ (exact f <= 0 -> exact f <= trunc f * f64_unit)).
  { rewrite Htr. pose proof (Z.quot_rem' (exact f) f64_unit) as Hqr.
    destruct (Z.le_gt_cases 0 (exact f)) as [Hs|Hs].
    - pose proof (Z.rem_bound_pos (exact f) f64_unit Hs Hu). split; [lia|]. split; [lia|].
      intros. replace (exact f) with 0 by lia. by rewrite Z.quot_0_l by lia.
    - pose proof (Z.rem_bound_pos_neg (exact f) f64_unit Hu (Z.lt_le_incl _ _ Hs)). repeat split; lia. }
  assert (Hw : WholeInt64 (math_Trunc f) = Some (trunc f)).
  { apply WholeInt64_spec; [by apply f64_finite_parts in Ht as (? & _)|]. split; [done|]. split; [done|].
    apply in_int64_range. rewrite Htr. pose proof (Z.quot_le_mono (- 2 ^ 63 * f64_unit) (exact f) f64_unit Hu ltac:(lia)) as Hlo.
    rewrite Z.quot_mul in Hlo by lia. split; [done|]. nia. }
  rewrite Hw. destruct Hq as (Q1 & Q2 & Q3).
  destruct (Z.ltb_spec i (trunc f)); [by rewrite (proj2 (Z.ltb_lt (i * f64_unit) _)) by nia|].
  destruct (Z.ltb_spec (trunc f) i).
  { rewrite (proj2 (Z.ltb_ge (i * f64_unit) _)) by nia. by rewrite (proj2 (Z.ltb_lt _ _)) by nia. }
  replace i with (trunc f) by lia. by repeat case_match.
Qed.

Lemma Z_mul_ltb k x y : 0 < k -> (x <? y) = (k * x <? k * y).
Proof. intros Hk. destruct (Z.ltb_spec x y); symmetry; [apply Z.ltb_lt|apply Z.ltb_ge]; nia. Qed.

Lemma num_ok_nan n : num_ok n = true -> match n with NFloat f => is_nan f = false | NInt _ => True end.
Proof. destruct n; [done|]. by intros (_ & ? & _)%f64_finite_parts. Qed.

(** The comparison is that of the exact values, whatever the representations. *)
Lemma compare_numbers_exact a b : num_ok a = true -> num_ok b = true ->
  exprCompareNumbers a b = Some (sign_of_cmp (num_exact a ?= num_exact b)).
Proof.
  intros Ha Hb. pose proof unit_pos. destruct a as [x|x], b as [y|y]; cbn [exprCompareNumbers num_exact num_ok] in *.
  - rewrite sign_of_cmp_lt, !(Z.mul_comm _ f64_unit), <- !Z_mul_ltb by done. done.
  - by apply compare_int_float_exact.
  - rewrite compare_int_float_exact by done. cbn [fmap option_fmap option_map].
    rewrite (Z.compare_antisym (y * f64_unit) (exact x)). by destruct (_ ?= _).
  - apply f64_finite_parts in Ha as Ha', Hb as Hb'. destruct Ha' as (_ & -> & _), Hb' as (_ & -> & _).
    cbn [orb]. by rewrite !f64_ltb_exact, sign_of_cmp_lt.
Qed.

(** *** Integer arithmetic *)

(** What an operator means on integers without a width. *)
Definition int_meaning (op : arith_op) (x y : Z) : Z :=
  match op with
  | OpAdd => x + y | OpSub => x - y | OpMul => x * y | OpDiv => Z.quot x y | OpMod => Z.rem x y
  end.

Definition needs_divisor (op : arith_op) : bool :=
  match op with OpDiv | OpMod => true | _ => false end.

(** The answer within 64 bits: the exact result, or a refusal. *)
Definition int_spec (op : arith_op) (x y : Z) : result eval_error exprNumber :=
  if needs_divisor op && (y =? 0) then exprErr division_by_zero
  else if in_int64 (int_meaning op x y) then Ok (NInt (int_meaning op x y))
  else exprErr arithmetic_overflow.

Lemma in_int64_false z : in_int64 z = false <-> z < - 2 ^ 63 \/ 2 ^ 63 <= z.
Proof. rewrite <- not_true_iff_false, in_int64_range. lia. Qed.

Lemma quot_in_int64 p y : in_int64 p = true -> y <> 0 -> ~ (p = - 2 ^ 63 /\ y = -1) -> in_int64 (Z.quot p y) = true.
Proof.
  rewrite !in_int64_range. intros Hp Hy Hn. pose proof (Z.quot_abs p y Hy) as Ha.
  assert (Z.abs (Z.quot p y) <= Z.abs p).
  { rewrite <- Ha. destruct (Z.eq_dec (Z.abs y) 1) as [->|]; [rewrite Z.quot_1_r; lia|].
    destruct (Z.eq_dec p 0) as [->|]; [by rewrite Z.quot_0_l by lia|]. apply Z.lt_le_incl, Z.quot_lt; lia. }
  destruct (Z.eq_dec p (- 2 ^ 63)) as [->|]; [|lia]. assert (y <> -1) by tauto.
  destruct (Z.eq_dec y 1) as [->|]; [rewrite Z.quot_1_r; lia|].
  assert (Z.abs (Z.quot (- 2 ^ 63) y) < 2 ^ 63); [|lia]. rewrite <- Ha. apply Z.quot_lt; lia.
Qed.

(** The product test finds every overflow. *)
Lemma mul_check x y : in_int64 x = true -> in_int64 y = true -> x <> 0 -> y <> 0 ->
  negb (wrap64 (Z.quot (wrap64 (x * y)) y) =? x) || ((x =? -1) && (y =? int64_min)) || ((y =? -1) && (x =? int64_min))
  = negb (in_int64 (x * y)).
Proof.
  intros Hx Hy Hx0 Hy0. destruct (in_int64 (x * y)) eqn:Hxy; cbn [negb].
  - rewrite (wrap64_id (x * y)), Z.quot_mul, wrap64_id, Z.eqb_refl by done. cbn [negb orb].
    apply in_int64_range in Hxy. unfold int64_min.
    destruct (Z.eqb_spec x (-1)) as [->|]; destruct (Z.eqb_spec y (- 2 ^ 63)) as [->|]; cbn [andb orb]; try lia;
      destruct (Z.eqb_spec y (-1)) as [->|]; destruct (Z.eqb_spec x (- 2 ^ 63)) as [->|]; cbn [andb orb]; try lia; done.
  - apply in_int64_false in Hxy. destruct (wrap64_cong (x * y)) as [k Hk].
    pose proof (wrap64_range (x * y)) as Hp. set (p := wrap64 (x * y)) in *.
    apply orb_true_iff. destruct (decide (p = - 2 ^ 63 /\ y = -1)) as [[Hp1 ->]|Hn].
    { destruct (decide (x = - 2 ^ 63)) as [->|Hx1]; [by right|]. left. apply orb_true_iff. left. rewrite Hp1.
      change (wrap64 (Z.quot (- 2 ^ 63) (-1))) with (- 2 ^ 63). apply negb_true_iff, Z.eqb_neq. lia. }
    left. apply orb_true_iff. left. rewrite wrap64_id by (by apply quot_in_int64). apply negb_true_iff, Z.eqb_neq. intros Hq.
    pose proof (Z.quot_rem' p y) as Hqr. pose proof (Z.rem_bound_abs p y Hy0) as Hb. rewrite Hq in Hqr.
    apply in_int64_range in Hy, Hp. assert (Z.abs (k * 2 ^ 64) < 2 ^ 64) by lia. assert (k = 0) by lia. lia.
Qed.

Lemma arith_int_exact op x y : in_int64 x = true -> in_int64 y = true -> arith_int op x y = int_spec op x y.
Proof.
  intros Hx Hy. pose proof Hx as Rx%in_int64_range. pose proof Hy as Ry%in_int64_range.
  unfold int_spec, arith_int. destruct op; cbn [needs_divisor andb int_meaning].
  - assert (((0 <? y) && (wrap64 (int64_max - y) <? x)) || ((y <? 0) && (x <? wrap64 (int64_min - y)))
      = negb (in_int64 (x + y))) as ->.
    { destruct (Z.ltb_spec 0 y), (Z.ltb_spec y 0); try lia; cbn [andb orb]; rewrite ?orb_false_r.
      - rewrite wrap64_id by (apply in_int64_range; unfold int64_max; lia). unfold int64_max.
        destruct (in_int64 (x + y)) eqn:Hs; [apply in_int64_range in Hs; apply Z.ltb_ge|apply in_int64_false in Hs; apply Z.ltb_lt]; lia.
      - rewrite wrap64_id by (apply in_int64_range; unfold int64_min; lia). unfold int64_min.
        destruct (in_int64 (x + y)) eqn:Hs; [apply in_int64_range in Hs; apply Z.ltb_ge|apply in_int64_false in Hs; apply Z.ltb_lt]; lia.
      - replace (x + y) with x by lia. by rewrite Hx. }
    destruct (in_int64 (x + y)) eqn:Hs; [|done]. cbn [negb]. by rewrite wrap64_id.
  - assert (((y <? 0) && (wrap64 (int64_max + y) <? x)) || ((0 <? y) && (x <? wrap64 (int64_min + y)))
      = negb (in_int64 (x - y))) as ->.
    { destruct (Z.ltb_spec 0 y), (Z.ltb_spec y 0); try lia; cbn [andb orb]; rewrite ?orb_false_r.
      - rewrite wrap64_id by (apply in_int64_range; unfold int64_min; lia). unfold int64_min.
        destruct (in_int64 (x - y)) eqn:Hs; [apply in_int64_range in Hs; apply Z.ltb_ge|apply in_int64_false in Hs; apply Z.ltb_lt]; lia.
      - rewrite wrap64_id by (apply in_int64_range; unfold int64_max; lia). unfold int64_max.
        destruct (in_int64 (x - y)) eqn:Hs; [apply in_int64_range in Hs; apply Z.ltb_ge|apply in_int64_false in Hs; apply Z.ltb_lt]; lia.
      - replace (x - y) with x by lia. by rewrite Hx. }
    destruct (in_int64 (x - y)) eqn:Hs; [|done]. cbn [negb]. by rewrite wrap64_id.
  - destruct (Z.eqb_spec x 0) as [->|Hx0]; [done|]. destruct (Z.eqb_spec y 0) as [->|Hy0]; [by rewrite Z.mul_0_r|].
    cbn [negb andb]. rewrite mul_check by done. destruct (in_int64 (x * y)) eqn:Hs; [|done]. cbn [negb]. by rewrite wrap64_id.
  - destruct (Z.eqb_spec y 0) as [->|Hy0]; [done|].
    destruct (decide (x = int64_min /\ y = -1)) as [[-> ->]|Hn]; [done|].
    rewrite quot_in_int64 by (done || (unfold int64_min in Hn; tauto)).
    destruct (Z.eqb_spec x int64_min) as [->|], (Z.eqb_spec y (-1)) as [->|]; cbn [andb]; try tauto;
      rewrite wrap64_id by (apply quot_in_int64; (done || (unfold int64_min in *; tauto))); done.
  - destruct (Z.eqb_spec y 0) as [->|Hy0]; [done|]. cbn [andb].
    assert (Hr : in_int64 (Z.rem x y) = true).
    { apply in_int64_range. pose proof (Z.rem_bound_abs x y Hy0). lia. }
    rewrite Hr. destruct (Z.eqb_spec y (-1)) as [->|]; [|done].
    change (-1) with (- (1)) in *. by rewrite Z.rem_opp_r, Z.rem_1_r.
Qed.
