(* ===== verification/Times.v ===== *)
(** Timestamps and durations: parseDate, parseISO8601Duration and
    EvaluateDaysBetween of component/memql/runtime_evaluator.go, with the parts
    of Go's [time] and [fmt] they call.

    An instant is its count of nanoseconds from 1970-01-01T00:00:00Z. *)

From Stdlib Require Import SpecFloat.
From S2P Require Import Prelude GoText Strconv Numbers ExprNumbers.

(** ** The calendar *)

Definition is_leap (y : Z) : bool := (y mod 4 =? 0) && (negb (y mod 100 =? 0) || (y mod 400 =? 0)).

(** daysIn *)
Definition days_in (m y : Z) : Z :=
  if m =? 2 then (if is_leap y then 29 else 28)
  else if (m =? 4) || (m =? 6) || (m =? 9) || (m =? 11) then 30 else 31.

(** Days from 1970-01-01 to a date; years counted from March, so that a leap day
    comes last. *)
Definition days_from_civil (y m d : Z) : Z :=
  let y' := if m <=? 2 then y - 1 else y in
  let mp := if m <=? 2 then m + 9 else m - 3 in
  365 * y' + y' / 4 - y' / 100 + y' / 400 + (153 * mp + 2) / 5 + d - 1 - 719468.

(** The date of a day, through cycles of 400, 100, 4 and 1 years. *)
Definition civil_from_days (n : Z) : Z * Z * Z :=
  let z := n + 719468 in
  let c400 := z / 146097 in
  let d400 := z mod 146097 in
  let c100 := Z.min 3 (d400 / 36524) in
  let d100 := d400 - 36524 * c100 in
  let c4 := d100 / 1461 in
  let d4 := d100 mod 1461 in
  let c1 := Z.min 3 (d4 / 365) in
  let doy := d4 - 365 * c1 in
  let y := 400 * c400 + 100 * c100 + 4 * c4 + c1 in
  let mp := (5 * doy + 2) / 153 in
  let d := doy - (153 * mp + 2) / 5 + 1 in
  let m := if mp <? 10 then mp + 3 else mp - 9 in
  (if m <=? 2 then y + 1 else y, m, d).

Definition second_ns : Z := 1000000000.

Definition instant (y m d hh mm ss ns : Z) : Z :=
  (days_from_civil y m d * 86400 + hh * 3600 + mm * 60 + ss) * second_ns + ns.

(** ** time.Parse *)

Definition digit_at (s : gostring) (i : nat) : bool :=
  match s !! i with Some c => isDigit c | None => false end.

(** getnum: two digits, or one where the layout does not fix the width. *)
Definition getnum (fixed : bool) (s : gostring) : option (Z * gostring) :=
  match s with
  | c :: s' =>
      if negb (isDigit c) then None
      else match s' with
           | c2 :: s'' =>
               if isDigit c2 then Some ((c - 48) * 10 + (c2 - 48), s'')
               else if fixed then None else Some (c - 48, s')
           | [] => if fixed then None else Some (c - 48, [])
           end
  | [] => None
  end.

Definition skip (c : rune) (s : gostring) : option gostring :=
  match s with c' :: s' => if c =? c' then Some s' else None | [] => None end.

Definition year4 (s : gostring) : option (Z * gostring) :=
  match s with
  | a :: b :: c :: d :: s' =>
      if forallb isDigit [a; b; c; d] then Some (dec_value [a; b; c; d], s') else None
  | _ => None
  end.

(** parseNanoseconds: at most nine digits count. *)
Definition nanoseconds (digits : gostring) : Z :=
  let ds := take 9 digits in dec_value ds * 10 ^ (9 - Z.of_nat (length ds)).

(** A fraction after the seconds, which no layout has to name. *)
Definition fraction (s : gostring) : Z * gostring :=
  match s with
  | p :: s' =>
      if ((p =? 46) || (p =? 44)) && digit_at s' 0
      then let '(ds, rest) := span isDigit s' in (nanoseconds ds, rest)
      else (0, s)
  | [] => (0, [])
  end.

(** Z07:00: the seconds east of UTC. *)
Definition zone (s : gostring) : option (Z * gostring) :=
  match s with
  | c :: s' =>
      if c =? 90 then Some (0, s')
      else match s' with
           | h1 :: h2 :: colon :: m1 :: m2 :: rest =>
               if negb (colon =? 58) then None
               else match getnum true [h1; h2], getnum true [m1; m2] with
                    | Some (hr, _), Some (mm, _) =>
                        if (24 <? hr) || (60 <? mm) then None
                        else if c =? 43 then Some ((hr * 60 + mm) * 60, rest)
                        else if c =? 45 then Some (- ((hr * 60 + mm) * 60), rest)
                        else None
                    | _, _ => None
                    end
           | _ => None
           end
  | [] => None
  end.

(** What a layout ends with. *)
Inductive layout : Type := RFC3339 | LayoutZ | LayoutLocal | LayoutDate.

Definition parse_day (s : gostring) : option ((Z * Z * Z) * gostring) :=
  '(y, s) ← year4 s; s ← skip 45 s;
  '(m, s) ← getnum true s;
  if (m <? 1) || (12 <? m) then None
  else s ← skip 45 s; '(d, s) ← getnum true s; Some ((y, m, d), s).

(** The clock of a layout that has one: hours may be one digit. *)
Definition parse_clock (s : gostring) : option ((Z * Z) * gostring) :=
  s ← skip 84 s; '(hh, s) ← getnum false s;
  if 24 <=? hh then None else
  s ← skip 58 s; '(mm, s) ← getnum true s;
  if 60 <=? mm then None else
  s ← skip 58 s; '(ss, s) ← getnum true s;
  if 60 <=? ss then None else
  let '(ns, s) := fraction s in
  Some ((hh * 3600 + mm * 60 + ss, ns), s).

(** time.Parse(layout, s): [None] is any of its errors. *)
Definition time_Parse (l : layout) (s : gostring) : option Z :=
  '((y, m, d), s) ← parse_day s;
  '(clock, zone_s, s) ←
    (match l with
     | LayoutDate => Some ((0, 0), 0, s)
     | _ =>
         '(clock, s) ← parse_clock s;
         match l with
         | RFC3339 => '(z, s) ← zone s; Some (clock, z, s)
         | LayoutZ => s ← skip 90 s; Some (clock, 0, s)
         | _ => Some (clock, 0, s)
         end
     end);
  if negb (s =s []) then None
  else if (d <? 1) || (days_in m y <? d) then None
  else Some (instant y m d 0 0 (clock.1 - zone_s) clock.2).

(** ** Format(time.RFC3339Nano), in UTC *)

(** Decimal digits, at least [w] of them. *)
Definition pad (w : Z) (n : Z) : gostring :=
  let ds := FormatUint n in zeros (w - Z.of_nat (length ds)) ++ ds.

(** appendInt *)
Definition appendInt (w : Z) (n : Z) : gostring := if n <? 0 then 45 :: pad w (- n) else pad w n.

(** The fraction without its trailing zeros, nothing when there is none. *)
Definition nano_text (ns : Z) : gostring :=
  match strip_zeros (reverse (pad 9 ns)) with
  | [] => []
  | ds => 46 :: reverse ds
  end.

Definition format_time (t : Z) : gostring :=
  let sec := t / second_ns in
  let '(y, m, d) := civil_from_days (sec / 86400) in
  let s := sec mod 86400 in
  appendInt 4 y ++ [45] ++ pad 2 m ++ [45] ++ pad 2 d ++ [84]
  ++ pad 2 (s / 3600) ++ [58] ++ pad 2 (s / 60 mod 60) ++ [58] ++ pad 2 (s mod 60)
  ++ nano_text (t mod second_ns) ++ [90].

(** ** runtime_evaluator.go *)

Definition parseDate (s : gostring) : option Z :=
  let fix first (ls : list layout) :=
    match ls with
    | [] => None
    | l :: ls' => match time_Parse l s with Some t => Some t | None => first ls' end
    end in
  first [RFC3339; LayoutZ; LayoutLocal; LayoutDate].

(** fmt's SkipSpace: a newline that is not part of a carriage return is an
    error. *)
Fixpoint skip_space (s : gostring) : option gostring :=
  match s with
  | [] => Some []
  | c :: s' =>
      if (c =? 13) && (hd 0 s' =? 10) then match s' with _ :: s'' => skip_space s'' | [] => Some [] end
      else if c =? 10 then None
      else if IsSpace c then skip_space s' else Some s
  end.

(** fmt.Sscanf(s, %d): what follows the number is not read. *)
Definition Sscanf_d (s : gostring) : option Z :=
  s ← skip_space s;
  let '(sign, rest) := match s with
                       | c :: s' => if (c =? 43) || (c =? 45) then ([c], s') else ([], s)
                       | [] => ([], [])
                       end in
  ParseInt (sign ++ (span isDigit rest).1).

(** The text before and after the first [c]. *)
Fixpoint cut (c : rune) (s : gostring) : option (gostring * gostring) :=
  match s with
  | [] => None
  | c' :: s' => if c =? c' then Some ([], s') else (fun p => (c' :: p.1, p.2)) <$> cut c s'
  end.

Definition hour_ns : Z := 3600 * second_ns.

(** One component of a duration: the number before its letter, an unreadable
    number counting for nothing, in int64 arithmetic. *)
Definition component (letter : rune) (unit : Z) (ds : Z * gostring) : Z * gostring :=
  let '(d, s) := ds in
  match cut letter s with
  | None => ds
  | Some (before, after) =>
      (match Sscanf_d before with Some n => wrap64 (d + wrap64 (n * unit)) | None => d end, after)
  end.

Definition parseISO8601Duration (s : gostring) : option Z :=
  let '(negative, s) := match s with c :: s' => if c =? 45 then (true, s') else (false, s) | [] => (false, []) end in
  match s with
  | p :: ((_ :: _) as body) =>
      if negb (p =? 80) then None
      else
        let '(d, s) := component 68 (24 * hour_ns) (0, body) in
        let d := match s with
                 | t :: s' =>
                     if t =? 84 then
                       (component 83 second_ns (component 77 (60 * second_ns) (component 72 hour_ns (d, s')))).1
                     else d
                 | [] => d
                 end in
        Some (if negative then wrap64 (- d) else d)
  | _ => None
  end.

(** Time.Sub saturates; Duration.Hours *)
Definition time_Sub (t u : Z) : Z := Z.max int64_min (Z.min int64_max (t - u)).

Definition duration_Hours (d : Z) : float64 :=
  f64_add (f64_of_Z (Z.quot d hour_ns)) (f64_div (f64_of_Z (Z.rem d hour_ns)) (f64_of_Z hour_ns)).

Definition EvaluateDaysBetween (date1 date2 : gostring) : option Z :=
  t1 ← parseDate date1; t2 ← parseDate date2;
  Some (trunc (f64_div (duration_Hours (time_Sub t2 t1)) (f64_of_Z 24))).
