(* ===== verification/Sha256.v ===== *)
(** crypto/sha256 and encoding/hex, as hash() of component/memql/expr_eval.go
    uses them: the digest of a string's UTF-8 bytes in lower-case hexadecimal.

    A word is a [Z] below 2^32. *)

From S2P Require Import Prelude GoText.

Definition word32 (z : Z) : Z := z mod 2 ^ 32.

Definition rotr (n : Z) (x : Z) : Z := Z.lor (Z.shiftr x n) (word32 (Z.shiftl x (32 - n))).

(** The constants are fractional bits of roots of the first primes: cube roots
    for the rounds, square roots for the initial state. *)
Definition is_prime (n : Z) : bool :=
  forallb (fun d => negb (n mod Z.of_nat d =? 0)) (seq 2 (Z.to_nat n - 2)).

Definition primes_below (n : nat) : list Z := List.filter is_prime (Z.of_nat <$> seq 2 (n - 2)).

(** The largest [r] below [2 ^ bits] with [r ^ k <= n], bit by bit. *)
Fixpoint root_bits (k : Z) (n : Z) (bits : nat) (r : Z) : Z :=
  match bits with
  | O => r
  | S b => let r' := r + 2 ^ Z.of_nat b in root_bits k n b (if r' ^ k <=? n then r' else r)
  end.

(** The first 32 fractional bits of the [k]-th root of [p]. *)
Definition root_word (k p : Z) : Z := word32 (root_bits k (p * 2 ^ (32 * k)) 40 0).

Definition sha_k : list Z := Eval vm_compute in root_word 3 <$> primes_below 312.

Definition sha_init : list Z := Eval vm_compute in root_word 2 <$> primes_below 20.

(** UTF-8 *)
Definition utf8_rune (r : rune) : list Z :=
  if r <? 0x80 then [r]
  else if r <? 0x800 then [0xC0 + r / 64; 0x80 + r mod 64]
  else if r <? 0x10000 then [0xE0 + r / 4096; 0x80 + r / 64 mod 64; 0x80 + r mod 64]
  else [0xF0 + r / 262144; 0x80 + r / 4096 mod 64; 0x80 + r / 64 mod 64; 0x80 + r mod 64].

Definition utf8_bytes (s : gostring) : list Z := concat (utf8_rune <$> s).

(** The big-endian bytes of a number, [n] of them. *)
Fixpoint big_endian (n : nat) (z : Z) : list Z :=
  match n with O => [] | S n' => z / 256 ^ Z.of_nat n' mod 256 :: big_endian n' z end.

(** The message with its one bit, zeros and length in bits. *)
Definition sha_pad (bs : list Z) : list Z :=
  let n := Z.of_nat (length bs) in
  bs ++ 0x80 :: replicate (Z.to_nat ((55 - n) mod 64)) 0 ++ big_endian 8 (8 * n).

Fixpoint words (bs : list Z) : list Z :=
  match bs with
  | a :: b :: c :: d :: bs' => ((a * 256 + b) * 256 + c) * 256 + d :: words bs'
  | _ => []
  end.

(** The message schedule, its words in reverse. *)
Fixpoint schedule (n : nat) (rev : list Z) : list Z :=
  match n with
  | O => rev
  | S n' =>
      let at' i := nth i rev 0 in
      let w2 := at' 1%nat in
      let w15 := at' 14%nat in
      let s0 := Z.lxor (Z.lxor (rotr 7 w15) (rotr 18 w15)) (Z.shiftr w15 3) in
      let s1 := Z.lxor (Z.lxor (rotr 17 w2) (rotr 19 w2)) (Z.shiftr w2 10) in
      schedule n' (word32 (at' 15%nat + s0 + at' 6%nat + s1) :: rev)
  end.

Definition round (h : list Z) (kw : Z * Z) : list Z :=
  match h with
  | [a; b; c; d; e; f; g; h'] =>
      let s1 := Z.lxor (Z.lxor (rotr 6 e) (rotr 11 e)) (rotr 25 e) in
      let ch := Z.lxor (Z.land e f) (Z.land (Z.lxor e 0xffffffff) g) in
      let t1 := h' + s1 + ch + kw.1 + kw.2 in
      let s0 := Z.lxor (Z.lxor (rotr 2 a) (rotr 13 a)) (rotr 22 a) in
      let maj := Z.lxor (Z.lxor (Z.land a b) (Z.land a c)) (Z.land b c) in
      [word32 (t1 + s0 + maj); a; b; c; word32 (d + t1); e; f; g]
  | _ => h
  end.

Definition compress (h : list Z) (block : list Z) : list Z :=
  let w := reverse (schedule 48 (reverse (words block))) in
  zip_with (fun x y => word32 (x + y)) h (fold_left round (zip sha_k w) h).

Fixpoint blocks (n : nat) (bs : list Z) : list (list Z) :=
  match n with O => [] | S n' => take 64 bs :: blocks n' (drop 64 bs) end.

(** sha256.Sum256 *)
Definition Sum256 (bs : list Z) : list Z :=
  let padded := sha_pad bs in
  concat (big_endian 4 <$> fold_left compress (blocks (length padded / 64) padded) sha_init).

(** hex.EncodeToString *)
Definition hex_byte (b : Z) : gostring :=
  let hex d := if d <? 10 then 48 + d else 87 + d in [hex (b / 16); hex (b mod 16)].

Definition hex_EncodeToString (bs : list Z) : gostring := concat (hex_byte <$> bs).

Definition sha256_hex (s : gostring) : gostring := hex_EncodeToString (Sum256 (utf8_bytes s)).

(** ** Lemmas *)

Lemma concat_const_length {A B} (f : A -> list B) (k : nat) l :
  (forall x, length (f x) = k) -> length (concat (f <$> l)) = (k * length l)%nat.
Proof. intros Hf. induction l; cbn; [lia|]. rewrite length_app, Hf, IHl. lia. Qed.

Lemma big_endian_length n z : length (big_endian n z) = n.
Proof. induction n; cbn; congruence. Qed.

Lemma round_length h kw : length (round h kw) = length h.
Proof. do 9 (destruct h as [|? h]; [done|]). done. Qed.

Lemma rounds_length l h : length (fold_left round l h) = length h.
Proof. revert h. induction l as [|kw l IH]; intros h; [done|]. cbn [fold_left]. by rewrite IH, round_length. Qed.

Lemma compress_length h b : length (compress h b) = length h.
Proof. unfold compress. rewrite length_zip_with, rounds_length. lia. Qed.

Lemma compresses_length l h : length (fold_left compress l h) = length h.
Proof. revert h. induction l as [|b l IH]; intros h; [done|]. cbn [fold_left]. by rewrite IH, compress_length. Qed.

(** hash() is fixed width: 64 characters for every input, the empty one
    included. *)
Lemma sha256_hex_length s : length (sha256_hex s) = 64%nat.
Proof.
  unfold sha256_hex, hex_EncodeToString, Sum256. rewrite (concat_const_length _ 2) by done.
  rewrite (concat_const_length _ 4) by (intros; apply big_endian_length). by rewrite compresses_length.
Qed.

(** The published vectors. *)
Lemma sha256_empty :
  sha256_hex [] = go "e3b0c44298fc1c149afbf4c8996fb92427ae41e4649b934ca495991b7852b855".
Proof. by vm_compute. Qed.

Lemma sha256_abc :
  sha256_hex (go "abc") = go "ba7816bf8f01cfea414140de5dae2223b00361a396177a9cb410ff61f20015ad".
Proof. by vm_compute. Qed.
