(* ===== verification/Ids.v ===== *)
(** Node ids: core/id/partition.go.  An id is its concept (version, domain,
    entity) and a short id, joined by colons. *)

From S2P Require Import Prelude GoText.

Section Ids.
Context `{UnicodeTables}.

Definition isVersionSegment (s : gostring) : bool :=
  match s with
  | c :: _ :: _ => (c =? 118) && forallb IsDigit (tail s)
  | _ => false
  end.

(** The index of the first version segment. *)
Fixpoint version_index (parts : list gostring) : option nat :=
  match parts with
  | [] => None
  | p :: ps => if isVersionSegment p then Some O else S <$> version_index ps
  end.

Inductive id_error : Type := EmptyNodeId | MalformedConcept.

Definition ParseNodeId (fullId : gostring) : result id_error (gostring * gostring) :=
  let trimmed := TrimSpace fullId in
  if trimmed =s [] then Err EmptyNodeId
  else
    let parts := Split trimmed 58 in
    match version_index parts with
    | None => Ok ([], trimmed)
    | Some i =>
        let conceptEnd := (i + 3)%nat in
        if (length parts <? conceptEnd)%nat then Err MalformedConcept
        else Ok (Join (take 3 (drop i parts)) [58], Join (drop conceptEnd parts) [58])
    end.

Definition BuildNodeId (concept shortId : gostring) : gostring :=
  let concept := TrimSpace concept in
  let shortId := TrimSpace shortId in
  if concept =s [] then shortId
  else if shortId =s [] then concept
  else concept ++ [58] ++ shortId.

(** ** Lemmas *)

Lemma TrimSpace_id t : trimmed IsSpace t -> TrimSpace t = t.
Proof. apply TrimFunc_id. Qed.

(** A concept of three segments, the first a version, with no space at its ends. *)
Definition concept_ok (v a b : gostring) : Prop :=
  isVersionSegment v = true /\ ContainsRune v 58 = false /\ ContainsRune a 58 = false
  /\ ContainsRune b 58 = false /\ trimmed IsSpace (v ++ 58 :: a ++ 58 :: b).

Lemma build_whole v a b s : concept_ok v a b -> trimmed IsSpace s -> s <> [] ->
  BuildNodeId (v ++ 58 :: a ++ 58 :: b) s = (v ++ 58 :: a ++ 58 :: b) ++ [58] ++ s.
Proof.
  intros (Hv & _ & _ & _ & Ht) Hs Hne. unfold BuildNodeId. rewrite !TrimSpace_id by done.
  assert (Hc : (v ++ 58 :: a ++ 58 :: b =s []) = false) by (apply eqs_false; by destruct v).
  apply eqs_false in Hne. by rewrite Hc, Hne.
Qed.

Lemma build_trimmed v a b s : concept_ok v a b -> trimmed IsSpace s -> s <> [] ->
  TrimSpace (BuildNodeId (v ++ 58 :: a ++ 58 :: b) s) = BuildNodeId (v ++ 58 :: a ++ 58 :: b) s.
Proof.
  intros Hc Hs Hne. rewrite build_whole by done. destruct Hc as (Hv & _ & _ & _ & [Hh _]), Hs as [_ Sl].
  apply TrimSpace_id. split.
  - intros c Hh'. apply Hh. by destruct v.
  - intros c Hl'. apply Sl. rewrite app_assoc, last_app in Hl'. by destruct (last s) eqn:E; [|apply last_None in E].
Qed.

Lemma parse_built v a b s : concept_ok v a b -> trimmed IsSpace s -> s <> [] ->
  ParseNodeId (BuildNodeId (v ++ 58 :: a ++ 58 :: b) s) = Ok (v ++ 58 :: a ++ 58 :: b, s).
Proof.
  intros Hc Hs Hne. unfold ParseNodeId. rewrite build_trimmed, build_whole by done.
  destruct Hc as (Hv & Cv & Ca & Cb & _).
  assert (Hw : ((v ++ 58 :: a ++ 58 :: b) ++ [58] ++ s =s []) = false) by (apply eqs_false; by destruct v).
  rewrite Hw. rewrite <- !app_assoc. cbn [app]. rewrite <- app_assoc. cbn [app].
  rewrite !Split_app by done. cbn [version_index]. rewrite Hv. cbn [Nat.add length take drop].
  destruct (Split s 58) as [|p ps] eqn:E; [by apply Split_nonempty in E|].
  change (S (S (S (length (p :: ps)))) <? 3)%nat with false. cbv iota. do 2 f_equal.
  rewrite <- E. apply Join_Split.
Qed.
End Ids.
