(* ===== verification/Values.v ===== *)
(** Values of the expression language and the pure operations on them: the last
    third of component/memql/expr_eval.go, with expr_row.go, intrinsic_fields.go
    and the comparison of runtime_evaluator.go.

    A Go [any] a scope can hold is a [value]: the evaluator's own domain (the X
    constructors), a value that answers its own member reads, and the other Go
    shapes exprNormalize absorbs (the G constructors).  A map is an association
    list with no repeated key.  A time is the RFC 3339 text the time library
    formats it as, in UTC. *)

From Stdlib Require Import SpecFloat.
From S2P Require Import Prelude GoText GoSort Strconv Numbers ExprNumbers.

Inductive value : Type :=
| XNil
| XAbsent
| XBool (b : bool)
| XStr (s : gostring)
| XInt (i : Z)                                        (* int64 *)
| XFloat (f : float64)
| XList (l : list value)                              (* []any *)
| XMap (m : list (gostring * value))                  (* map[string]any *)
| XRow (id concept type createdBy : gostring) (createdAt : option gostring)
       (provenance : option (list (gostring * value))) (payload : list (gostring * value))
| XObject (member : gostring -> option value) (stands : value)          (* ExprObject *)
| XMembers (read : gostring -> result gostring value)                   (* ExprMembers *)
| GInt (z : Z)                                        (* any other integer kind *)
| GNumber (s : gostring)                              (* json.Number *)
| GTime (s : gostring)                                (* time.Time *)
| GString (s : gostring)                              (* a named string type *)
| GBool (b : bool)                                    (* a named bool type *)
| GTypedNil                                           (* a nil pointer, map or slice *)
| GSlice (l : list value)                             (* a typed slice or an array *)
| GStringMap (m : list (gostring * value))            (* a typed map with string keys *)
| GPtr (v : value)
| GJSON (text : option gostring) (decoded : option value)  (* by its JSON form: a struct, a json.RawMessage *)
| GOpaque.                                            (* a func or a channel *)

(** ** Maps *)

Fixpoint map_get {A} (m : list (gostring * A)) (k : gostring) : option A :=
  match m with
  | [] => None
  | (k', v) :: m' => if k =s k' then Some v else map_get m' k
  end.

Fixpoint map_set {A} (m : list (gostring * A)) (k : gostring) (v : A) : list (gostring * A) :=
  match m with
  | [] => [(k, v)]
  | (k', v') :: m' => if k =s k' then (k, v) :: m' else (k', v') :: map_set m' k v
  end.

(** ** Objects and absence *)

(** exprResolveObject follows at most 16 objects. *)
Fixpoint resolve_object (hops : nat) (v : value) : value :=
  match hops, v with
  | S h, XObject _ stands => resolve_object h stands
  | _, _ => v
  end.

Definition exprResolveObject : value -> value := resolve_object 16.

Definition IsAbsent (v : value) : bool :=
  match exprResolveObject v with
  | XNil | XAbsent | GTypedNil => true
  | _ => false
  end.

(** exprUnsentinel: the sentinel becomes nil where it is about to be stored. *)
Definition exprUnsentinel (v : value) : value :=
  match exprResolveObject v with XAbsent => XNil | v' => v' end.

(** ** Normalisation *)

(** An integer of a kind other than int64. *)
Definition normal_int (z : Z) : value := if int64_max <? z then XFloat (f64_of_Z z) else XInt z.

Definition normal_number (s : gostring) : value :=
  match ParseInt s with
  | Some i => XInt i
  | None => match ParseFloat s with Some f => XFloat f | None => XStr s end
  end.

(** exprNormalize and exprNormalizeReflect, [hops] objects left to follow;
    [None] is an error. *)
Fixpoint normalize (hops : nat) (v : value) : option value :=
  match v with
  | XObject _ stands => match hops with O => None | S h => normalize h stands end
  | GPtr p => normalize 16 p
  | XMembers _ => None
  | GInt z => Some (normal_int z)
  | GNumber s => Some (normal_number s)
  | GTime s | GString s => Some (XStr s)
  | GBool b => Some (XBool b)
  | GTypedNil => Some XNil
  | GSlice l => Some (XList l)
  | GStringMap m => Some (XMap m)
  | GJSON _ d => d
  | GOpaque => None
  | XNil | XAbsent | XBool _ | XStr _ | XInt _ | XFloat _ | XList _ | XMap _ | XRow _ _ _ _ _ _ _ => Some v
  end.

Definition exprNormalize : value -> option value := normalize 16.

(** ** Numbers *)

Definition exprNumberOf (v : value) : option exprNumber :=
  match v with
  | XInt i => Some (NInt i)
  | XFloat f => Some (NFloat f)
  | _ => None
  end.

Definition of_number (n : exprNumber) : value :=
  match n with NInt i => XInt i | NFloat f => XFloat f end.

(** ** Members *)

Definition exprIndexOf (field : gostring) (n : nat) : option nat :=
  let digits := TrimPrefix field (go "-") in
  if (digits =s []) || negb (forallb isDigit digits) then None
  else match ParseInt field with
       | None => None
       | Some i =>
           let j := if i <? 0 then i + Z.of_nat n else i in
           if (j <? 0) || (Z.of_nat n <=? j) then None else Some (Z.to_nat j)
       end.

(** The row columns, by their lowercased name. *)
Inductive intrinsicField : Type :=
| intrinsicFieldId | intrinsicFieldConcept | intrinsicFieldType | intrinsicFieldCreatedBy
| intrinsicFieldCreatedAt | intrinsicFieldProvenance.

Definition intrinsicFieldRegistry : list (gostring * intrinsicField) :=
  [(go "concept", intrinsicFieldConcept); (go "id", intrinsicFieldId); (go "type", intrinsicFieldType);
   (go "createdat", intrinsicFieldCreatedAt); (go "createdby", intrinsicFieldCreatedBy);
   (go "provenance", intrinsicFieldProvenance)].

Definition or_absent (o : option value) : value := match o with Some v => v | None => XAbsent end.

Section Members.
Context `{UnicodeTables}.

Definition resolveIntrinsicField (name : gostring) : option intrinsicField :=
  map_get intrinsicFieldRegistry (ToLower (TrimSpace name)).

(** ExprRow.exprMember *)
Definition row_member (id concept type createdBy : gostring) (createdAt : option gostring)
    (provenance : option (list (gostring * value))) (payload : list (gostring * value))
    (field : gostring) : value :=
  match resolveIntrinsicField field with
  | Some intrinsicFieldId => XStr id
  | Some intrinsicFieldConcept => XStr concept
  | Some intrinsicFieldType => XStr type
  | Some intrinsicFieldCreatedBy => XStr createdBy
  | Some intrinsicFieldCreatedAt => or_absent (XStr <$> createdAt)
  | Some intrinsicFieldProvenance => or_absent (XMap <$> provenance)
  | None => or_absent (map_get payload field)
  end.

(** The member of a value that answers no reads of its own. *)
Definition plain_member (obj : value) (field : gostring) : result eval_error value :=
  match exprNormalize obj with
  | None => exprErr operand_type
  | Some (XMap m) => Ok (or_absent (map_get m field))
  | Some (XList l) => Ok (or_absent (exprIndexOf field (length l) ≫= fun i => l !! i))
  | Some (XRow i c t b a p d) => Ok (row_member i c t b a p d field)
  | Some _ => Ok XAbsent
  end.

Definition exprMember (obj : value) (field : gostring) : result eval_error value :=
  match obj with
  | XMembers read => match read field with Ok v => Ok v | Err e => Err (EHook e) end
  | XObject member _ =>
      match member field with
      | Some x => Ok x
      | None => plain_member (exprResolveObject obj) field
      end
  | _ => plain_member obj field
  end.
End Members.

(** ** Equality and order *)

(** Lists of values compared in step, the lengths equal. *)
Definition all2 {A B} (f : A -> B -> bool) : list A -> list B -> bool :=
  fix go l1 l2 :=
    match l1, l2 with
    | [], [] => true
    | x :: l1', y :: l2' => f x y && go l1' l2'
    | _, _ => false
    end.

(** reflect.DeepEqual, on the values rows hold. *)
Fixpoint DeepEqual (a b : value) : bool :=
  let maps (m1 m2 : list (gostring * value)) :=
    (length m1 =? length m2)%nat
    && forallb (fun kv => match map_get m2 kv.1 with Some y => DeepEqual kv.2 y | None => false end) m1 in
  match a, b with
  | XNil, XNil | XAbsent, XAbsent | GTypedNil, GTypedNil => true
  | XBool x, XBool y | GBool x, GBool y => eqb x y
  | XStr x, XStr y | GNumber x, GNumber y | GTime x, GTime y | GString x, GString y => x =s y
  | XInt x, XInt y | GInt x, GInt y => x =? y
  | XFloat x, XFloat y => f64_eqb x y
  | XList x, XList y | GSlice x, GSlice y => all2 DeepEqual x y
  | XMap x, XMap y | GStringMap x, GStringMap y => maps x y
  | GPtr x, GPtr y => DeepEqual x y
  | XRow i c t u at' p d, XRow i2 c2 t2 u2 at2 p2 d2 =>
      (i =s i2) && (c =s c2) && (t =s t2) && (u =s u2) && bool_decide (at' = at2)
      && match p, p2 with Some m, Some m2 => maps m m2 | None, None => true | _, _ => false end
      && maps d d2
  | _, _ => false
  end.

Definition numbers_equal (x : exprNumber) (b : value) : bool :=
  match exprNumberOf b with
  | None => false
  | Some y => match exprCompareNumbers x y with Some c => c =? 0 | None => false end
  end.

(** exprStrictEqual, normalising [a] on the way down. *)
Fixpoint strict_equal (hops : nat) (a b : value) : bool :=
  let lists (x : list value) :=
    match exprNormalize b with Some (XList y) => all2 (strict_equal 16) x y | _ => false end in
  let maps (x : list (gostring * value)) :=
    match exprNormalize b with
    | Some (XMap y) =>
        (length x =? length y)%nat
        && forallb (fun kv => match map_get y kv.1 with Some yv => strict_equal 16 kv.2 yv | None => false end) x
    | _ => false
    end in
  match a with
  | XObject _ stands => match hops with O => false | S h => strict_equal h stands b end
  | GPtr p => strict_equal 16 p b
  | XList x | GSlice x => lists x
  | XMap x | GStringMap x => maps x
  | GJSON _ (Some d) =>
      match d with
      | XNil | XAbsent | XBool _ | XStr _ | XInt _ | XFloat _ | XList _ | XMap _
      | XRow _ _ _ _ _ _ _ => strict_equal 16 d b
      | _ => false
      end
  | _ =>
      match exprNormalize a, exprNormalize b with
      | Some (XNil | XAbsent), Some nb => IsAbsent nb
      | Some (XBool x), Some (XBool y) => eqb x y
      | Some (XStr x), Some (XStr y) => x =s y
      | Some (XInt x), Some nb => numbers_equal (NInt x) nb
      | Some (XFloat x), Some nb => numbers_equal (NFloat x) nb
      | Some (XRow _ _ _ _ _ _ _ as x), Some (XRow _ _ _ _ _ _ _ as y) => DeepEqual x y
      | _, _ => false
      end
  end.

Definition exprStrictEqual : value -> value -> bool := strict_equal 16.

Definition exprIsUnset (v : value) : bool :=
  IsAbsent v || match v with XStr s => s =s [] | _ => false end.

Definition exprEqual (l r : value) : bool :=
  if exprIsUnset l || exprIsUnset r then exprIsUnset l && exprIsUnset r
  else exprStrictEqual l r.

Inductive order_op : Type := OpLt | OpLe | OpGt | OpGe.

Definition order_holds (op : order_op) (c : Z) : bool :=
  match op with OpLt => c <? 0 | OpLe => c <=? 0 | OpGt => 0 <? c | OpGe => 0 <=? c end.

Definition exprOrdered (op : order_op) (l r : value) : bool :=
  match exprNumberOf l, exprNumberOf r with
  | Some x, Some y => match exprCompareNumbers x y with Some c => order_holds op c | None => false end
  | _, _ => match l, r with
            | XStr x, XStr y => order_holds op (sign_of_cmp (str_compare x y))
            | _, _ => false
            end
  end.

(** ** Text *)

(** fmt's %v of a value the model does not spell out: a row or a Go shape. *)
Class GoFmt := { sprint_other : value -> gostring }.

(** encoding/json's string, HTML characters left unescaped. *)
Definition json_rune (r : rune) : gostring :=
  let hex d := if d <? 10 then 48 + d else 87 + d in
  if r =? 34 then [92; 34]
  else if r =? 92 then [92; 92]
  else if r =? 8 then [92; 98]
  else if r =? 12 then [92; 102]
  else if r =? 10 then [92; 110]
  else if r =? 13 then [92; 114]
  else if r =? 9 then [92; 116]
  else if r <? 32 then go "\u00" ++ [hex (r / 16); hex (r mod 16)]
  else if r =? 8232 then go "\u2028"
  else if r =? 8233 then go "\u2029"
  else [r].

Definition json_string (s : gostring) : gostring := [34] ++ concat (json_rune <$> s) ++ [34].

(** 1e-6 and 1e21, where encoding/json changes to an exponent. *)
Definition json_small : float64 := dec_to_float false 1 (-6).
Definition json_large : float64 := dec_to_float false 1 21.

Definition f64_abs (f : float64) : float64 := SFabs f.

(** e-09 becomes e-9. *)
Definition clean_exponent (s : gostring) : gostring :=
  match reverse s with
  | d :: z :: sg :: e :: rest =>
      if (e =? 101) && (sg =? 45) && (z =? 48) then reverse (d :: sg :: e :: rest) else s
  | _ => s
  end.

Definition json_float (f : float64) : option gostring :=
  if is_nan f || is_inf f then None
  else if negb (f64_eqb f f64_zero) && (f64_ltb (f64_abs f) json_small || f64_leb json_large (f64_abs f))
       then Some (clean_exponent (FormatFloat_e f))
  else Some (FormatFloat_f f).

Fixpoint all_some {A} (l : list (option A)) : option (list A) :=
  match l with
  | [] => Some []
  | o :: l' => match o, all_some l' with Some a, Some r => Some (a :: r) | _, _ => None end
  end.

Definition json_object (fields : list (gostring * option gostring)) : option gostring :=
  let field (kv : gostring * option gostring) := (fun t => json_string kv.1 ++ [58] ++ t) <$> kv.2 in
  (fun parts => [123] ++ Join parts [44] ++ [125]) <$> all_some (field <$> fields).

Definition json_sorted (fields : list (gostring * option gostring)) : option gostring :=
  json_object (sort_stable (fun a b => str_ltb a.1 b.1) fields).

(** exprJSONText: the compact JSON of a value. *)
Fixpoint exprJSONText (v : value) : option gostring :=
  let array (l : list value) :=
    (fun parts => [91] ++ Join parts [44] ++ [93]) <$> all_some (exprJSONText <$> l) in
  let map (m : list (gostring * value)) := json_sorted ((fun kv => (kv.1, exprJSONText kv.2)) <$> m) in
  match v with
  | XNil | XAbsent | GTypedNil => Some (go "null")
  | XBool b | GBool b => Some (if b then go "true" else go "false")
  | XStr s | GString s | GTime s => Some (json_string s)
  | XInt z | GInt z => Some (FormatInt z)
  | XFloat f => json_float f
  | GNumber s => Some s
  | XList l | GSlice l => array l
  | XMap m | GStringMap m => map m
  | GPtr p => exprJSONText p
  | XRow i c t u at' p d =>
      json_object [(go "ID", Some (json_string i)); (go "Concept", Some (json_string c));
                   (go "Type", Some (json_string t)); (go "CreatedBy", Some (json_string u));
                   (go "CreatedAt", Some (json_string (match at' with Some a => a | None => go "0001-01-01T00:00:00Z" end)));
                   (go "Provenance", match p with Some m => map m | None => Some (go "null") end);
                   (go "Payload", map d)]
  | GJSON text _ => text
  | XObject _ _ | XMembers _ | GOpaque => None
  end.

Section Text.
Context `{GoFmt}.

(** fmt.Sprint and fmt.Sprintf(%v) *)
Fixpoint Sprint (v : value) : gostring :=
  let map (m : list (gostring * value)) :=
    Join ((fun kv => kv.1 ++ [58] ++ kv.2)
          <$> sort_stable (fun a b => str_ltb a.1 b.1) ((fun kv => (kv.1, Sprint kv.2)) <$> m)) (go " ") in
  match v with
  | XNil => go "<nil>"
  | XAbsent => go "<absent>"
  | XBool b | GBool b => if b then go "true" else go "false"
  | XStr s | GString s | GNumber s => s
  | XInt z | GInt z => FormatInt z
  | XFloat f => FormatFloat f
  | XList l | GSlice l => [91] ++ Join (Sprint <$> l) (go " ") ++ [93]
  | XMap m | GStringMap m => go "map[" ++ map m ++ [93]
  | _ => sprint_other v
  end.

(** The text of a normalised value. *)
Definition normal_text (v : value) : gostring :=
  match v with
  | XNil | XAbsent => []
  | XStr s => s
  | XBool b => if b then go "true" else go "false"
  | XInt i => FormatInt i
  | XFloat f => FormatFloat_f f
  | _ => match exprJSONText v with Some s => s | None => Sprint v end
  end.

Definition exprText (v : value) : gostring :=
  match exprNormalize v with None => Sprint v | Some nv => normal_text nv end.

(** exprKey: the typed identity of distinct and groupBy. *)
Definition exprKey (v : value) : gostring :=
  match exprNormalize v with
  | None => go "?:" ++ Sprint v
  | Some nv =>
      match nv with
      | XNil | XAbsent => go "z:"
      | XBool b => go "b:" ++ if b then go "true" else go "false"
      | XStr s => go "s:" ++ s
      | XInt i => go "n:" ++ FormatInt i
      | XFloat f => go "n:" ++ match WholeInt64 f with Some w => FormatInt w | None => FormatFloat f end
      | _ => match exprJSONText nv with Some s => go "j:" ++ s | None => go "?:" ++ Sprint nv end
      end
  end.

(** runtimeToFloat64 *)
Definition runtimeToFloat64 (v : value) : option float64 :=
  match v with
  | XFloat f => Some f
  | XInt i => Some (f64_of_Z i)
  | GInt z => Some (f64_of_Z z)
  | _ => None
  end.

Definition runtimeCompareValues (a b : value) : Z :=
  match a, b with
  | XNil, XNil => 0
  | XNil, _ => -1
  | _, XNil => 1
  | _, _ =>
      match runtimeToFloat64 a, runtimeToFloat64 b with
      | Some fa, Some fb => if f64_ltb fa fb then -1 else if f64_ltb fb fa then 1 else 0
      | _, _ => sign_of_cmp (str_compare (Sprint a) (Sprint b))
      end
  end.
End Text.

(** ** Collections *)

(** exprCollection, normalising on the way: [Ok None] is no collection at all,
    [Err] not a collection. *)
Fixpoint collection (hops : nat) (v : value) : result unit (option (list value)) :=
  let map (m : list (gostring * value)) :=
    (fix nodes l :=
       match l with
       | [] => Ok (Some [XMap m])
       | (k, x) :: l' =>
           if k =s go "nodes" then
             match collection 16 x with
             | Ok None => Ok (Some [])
             | r => r
             end
           else nodes l'
       end) m in
  match v with
  | XObject _ stands => match hops with O => Err tt | S h => collection h stands end
  | GPtr p => collection 16 p
  | XNil | XAbsent | GTypedNil => Ok None
  | XList l | GSlice l => Ok (Some l)
  | XMap m | GStringMap m => map m
  | XRow _ _ _ _ _ _ _ => Ok (Some [v])
  | GJSON _ (Some d) =>
      match d with
      | XNil | XAbsent | XList _ | XMap _ | XRow _ _ _ _ _ _ _ => collection 16 d
      | _ => Err tt
      end
  | _ => Err tt
  end.

Definition exprCollection : value -> result unit (option (list value)) := collection 16.

(** exprClampCount *)
Definition exprClampCount (c : exprNumber) (n : nat) : nat :=
  let i := match c with NInt i => i | NFloat f => ClampFloat64ToInt64 f end in
  if i <? 0 then 0%nat
  else if Z.of_nat n <? i then n
  else Z.to_nat (ClampInt64 i).
