(* ===== verification/CallGraph.v ===== *)
(** The call graph of loaded constructs: component/work/kind.go and footprint.go.

    A registry maps a construct's name to what it is and what it calls.  Three
    walks share one shape, a depth-first search that enters each name once:
    ReachesPrompt stops at the first prompt, UnionFootprint adds up the declared
    effects, UnionWrites collects the mutations with the path to each.  [walk]
    is that search; its fuel is one more than the size of the registry, since
    every level of the recursion enters a name of the registry for the first
    time. *)

From Stdlib Require Import Sorting.Sorted.
From stdpp Require Import relations fin_sets.
From S2P Require Import Prelude GoText GoSort Strconv Numbers ExprNumbers Values.

(** ** kind.go *)

Inductive Kind : Type :=
| KindUnset | KindDeterministic | KindReasoning | KindDecision | KindHuman | KindLoop | KindSubrun.

#[export] Instance Kind_eq_dec : EqDecision Kind.
Proof. solve_decision. Defined.

Inductive construct_kind : Type :=
| ConstructQuery | ConstructMutation | ConstructShape | ConstructSpec | ConstructLogic
| ConstructBuiltin | ConstructPrompt | ConstructOther (s : gostring).

#[export] Instance construct_kind_eq_dec : EqDecision construct_kind.
Proof. solve_decision. Defined.

(** ** footprint.go *)

Record Footprint := mkFootprint {
  Concepts : list gostring;
  Files : bool;
  Machine : bool;
  External : bool;
  Spend : bool
}.

Definition no_footprint : Footprint := mkFootprint [] false false false false.

Definition IsSideEffect (f : Footprint) : bool :=
  negb (bool_decide (Concepts f = [])) || Files f || Machine f || External f || Spend f.

Definition merge (f other : Footprint) : Footprint :=
  mkFootprint (Concepts f ++ Concepts other) (Files f || Files other) (Machine f || Machine other)
    (External f || External other) (Spend f || Spend other).

Record FieldValue := mkFieldValue { Literal : value; HasLiteral : bool; Arg : gostring }.

Record WriteSpec := mkWriteSpec {
  ws_Kind : gostring;
  NewRow : bool;
  Fields : list (gostring * FieldValue)
}.

Definition no_spec : WriteSpec := mkWriteSpec [] false [].

Record Target := mkTarget {
  ConstructKind : construct_kind;
  Calls : list gostring;
  Concept : gostring;
  Effects : Footprint;
  t_Write : option WriteSpec
}.

Definition Registry : Type := gmap gostring Target.

(** ** The search *)

Section Walk.
Context {S : Type} (enter : gostring -> Target -> list gostring -> S -> S) (stop : S -> bool).
Context (reg : Registry).

(** The calls of one construct in turn, until the search is over. *)
Fixpoint walk_calls (walk : gostring -> gset gostring * S -> option (gset gostring * S))
    (calls : list gostring) (st : gset gostring * S) : option (gset gostring * S) :=
  match calls with
  | [] => Some st
  | c :: calls' =>
      st' ← walk c st;
      if stop st'.2 then Some st' else walk_calls walk calls' st'
  end.

(** [path] leads from the name the search started at to the caller of [n]. *)
Fixpoint walk (fuel : nat) (path : list gostring) (n : gostring) (st : gset gostring * S)
    : option (gset gostring * S) :=
  match fuel with
  | O => None
  | Datatypes.S fuel =>
      if bool_decide (n ∈ st.1) then Some st
      else
        let seen := {[n]} ∪ st.1 in
        match reg !! n with
        | None => Some (seen, st.2)
        | Some t =>
            let here := path ++ [n] in
            let s := enter n t here st.2 in
            if stop s then Some (seen, s) else walk_calls (walk fuel here) (Calls t) (seen, s)
        end
  end.

Definition walk_fuel : nat := Datatypes.S (size reg).
End Walk.

(** The accumulator a search ends with. *)
Definition walked {S} (r : option (gset gostring * S)) (default : S) : S :=
  match r with Some (_, s) => s | None => default end.

(** ** ReachesPrompt *)

Definition enter_prompt (n : gostring) (t : Target) (path : list gostring) (found : option (list gostring))
    : option (list gostring) :=
  match ConstructKind t with ConstructPrompt => Some path | _ => found end.

Definition found_prompt (found : option (list gostring)) : bool := bool_decide (is_Some found).

(** The path to the first prompt found, if any. *)
Definition ReachesPrompt (name : gostring) (reg : Registry) : option (list gostring) :=
  walked (walk enter_prompt found_prompt reg (walk_fuel reg) [] name (∅, None)) None.

(** ** DeriveKind and ValidateDeclaredKind *)

Inductive kind_error : Type :=
| UnknownStepType (stepType : gostring)
| ErrDeterministicReachesPrompt
| KindMismatch (declared derived : Kind).

Definition DeriveKind (stepType target : gostring) (reg : Registry) : result kind_error Kind :=
  if memS stepType [go "approval"; go "feedback"; go "wait"] then Ok KindHuman
  else if stepType =s go "automation" then Ok KindSubrun
  else if stepType =s go "loop" then Ok KindLoop
  else if stepType =s go "spec" then Ok KindDecision
  else if stepType =s go "app_answer" then Ok KindReasoning
  else if negb (target =s []) &&
          match reg !! target with Some t => match ConstructKind t with ConstructSpec => true | _ => false end
                                 | None => false end
       then Ok KindDecision
  else if negb (target =s []) && bool_decide (is_Some (ReachesPrompt target reg)) then Ok KindReasoning
  else if memS stepType [go "function"; go "action"; go "forEach"; go "parallel"; go "block"; go "event";
                         go "expression"; go "return"] then Ok KindDeterministic
  else if memS stepType [go "exec"; go "fs_write"; go "fs_read"; go "fetch"; go "mcp"]
       then Ok KindDeterministic
  else Err (UnknownStepType stepType).

Definition ValidateDeclaredKind (declared derived : Kind) : result kind_error unit :=
  if bool_decide (declared = KindUnset) || bool_decide (declared = derived) then Ok tt
  else if bool_decide (declared = KindDeterministic) && bool_decide (derived = KindReasoning)
       then Err ErrDeterministicReachesPrompt
  else Err (KindMismatch declared derived).

(** ** UnionFootprint *)

(** What one construct declares. *)
Definition enter_footprint (n : gostring) (t : Target) (path : list gostring) (out : Footprint) : Footprint :=
  match ConstructKind t with
  | ConstructMutation =>
      if Concept t =s [] then out
      else mkFootprint (Concepts out ++ [Concept t]) (Files out) (Machine out) (External out) (Spend out)
  | ConstructQuery | ConstructShape | ConstructSpec => out
  | _ => merge out (Effects t)
  end.

(** First occurrences, empty names left out. *)
Fixpoint unique (seen : list gostring) (l : list gostring) : list gostring :=
  match l with
  | [] => []
  | s :: l' => if (s =s []) || memS s seen then unique seen l' else s :: unique (s :: seen) l'
  end.

Definition sortedUnique (l : list gostring) : list gostring := sort_stable str_ltb (unique [] l).

Definition UnionFootprint (names : list gostring) (reg : Registry) : Footprint :=
  let search := walk enter_footprint (fun _ => false) reg (walk_fuel reg) [] in
  let out := walked (walk_calls (fun _ => false) search names (∅, no_footprint)) no_footprint in
  mkFootprint (sortedUnique (Concepts out)) (Files out) (Machine out) (External out) (Spend out).

(** ** UnionWrites *)

Record Write := mkWrite {
  w_Concept : gostring;
  w_Mutation : gostring;
  w_Path : list gostring;
  w_Spec : WriteSpec
}.

Definition enter_write (n : gostring) (t : Target) (here : list gostring) (out : list Write) : list Write :=
  match ConstructKind t with
  | ConstructMutation =>
      if Concept t =s [] then out
      else out ++ [mkWrite (Concept t) n here (match t_Write t with Some s => s | None => no_spec end)]
  | _ => out
  end.

(** Paths element by element, a prefix first. *)
Fixpoint path_ltb (a b : list gostring) : bool :=
  match a, b with
  | _, [] => false
  | [], _ :: _ => true
  | x :: a', y :: b' => if x =s y then path_ltb a' b' else str_ltb x y
  end.

Definition writeLess (a b : Write) : bool :=
  if negb (w_Concept a =s w_Concept b) then str_ltb (w_Concept a) (w_Concept b)
  else if negb (w_Mutation a =s w_Mutation b) then str_ltb (w_Mutation a) (w_Mutation b)
  else path_ltb (w_Path a) (w_Path b).

(** Each write that its predecessor is less than. *)
Fixpoint dedupe (prev : option Write) (l : list Write) : list Write :=
  match l with
  | [] => []
  | w :: l' =>
      match prev with
      | Some p => if writeLess p w then w :: dedupe (Some w) l' else dedupe (Some w) l'
      | None => w :: dedupe (Some w) l'
      end
  end.

Definition UnionWrites (names : list gostring) (reg : Registry) : list Write :=
  let search root out := walked (walk enter_write (fun _ => false) reg (walk_fuel reg) [] root (∅, out)) out in
  dedupe None (sort_stable writeLess (fold_left (fun out root => search root out) names [])).

(** ** Reachability *)

(** [a] is loaded and invokes [b]. *)
Definition calls (reg : Registry) (a b : gostring) : Prop := exists t, reg !! a = Some t /\ b ∈ Calls t.

(** [leads reg R path n]: [path] is a chain of calls from a name of [R] to a
    caller of [n]. *)
Inductive leads (reg : Registry) (R : gostring -> Prop) : list gostring -> gostring -> Prop :=
| leads_root n : R n -> leads reg R [] n
| leads_call path a b : leads reg R path a -> calls reg a b -> leads reg R (path ++ [a]) b.

Lemma leads_reachable reg R path n : leads reg R path n -> exists r, R r /\ rtc (calls reg) r n.
Proof.
  induction 1 as [n Hn|path a b _ [r [Hr Hra]] Hab]; [by exists n|]. exists r. split; [done|].
  by eapply rtc_r.
Qed.

Section Search.
Context {S : Type} (enter : gostring -> Target -> list gostring -> S -> S) (stop : S -> bool).
Context (reg : Registry) (R : gostring -> Prop) (I : gset gostring -> S -> Prop).
Context (I_enter : forall path n t seen s, leads reg R path n -> n ∉ seen -> reg !! n = Some t ->
           stop s = false -> I seen s -> I ({[n]} ∪ seen) (enter n t (path ++ [n]) s)).
Context (I_absent : forall path n seen s, leads reg R path n -> n ∉ seen -> reg !! n = None ->
           I seen s -> I ({[n]} ∪ seen) s).

(** What a search entered has its callees seen. *)
Definition entered (seen seen' : gset gostring) : Prop :=
  forall a b, a ∈ seen' -> a ∉ seen -> calls reg a b -> b ∈ seen'.

Lemma entered_trans A B C : B ⊆ C -> entered A B -> entered B C -> entered A C.
Proof. intros HBC HAB HBC' a b Ha Hna Hab. destruct (decide (a ∈ B)); [|by eauto]. apply HBC. by eapply HAB. Qed.

(** A search from [targets] keeps the invariant, and one that was not stopped has
    seen them and entered all it saw. *)
Definition searched (targets : list gostring) (st st' : gset gostring * S) : Prop :=
  I st'.1 st'.2 /\ st.1 ⊆ st'.1
  /\ (stop st'.2 = false -> (forall c, c ∈ targets -> c ∈ st'.1) /\ entered st.1 st'.1).

Lemma walk_calls_searched (f : gostring -> gset gostring * S -> option (gset gostring * S)) path cs st st' :
  (forall c st st', leads reg R path c -> stop st.2 = false -> I st.1 st.2 -> f c st = Some st' ->
     searched [c] st st') ->
  (forall c, c ∈ cs -> leads reg R path c) -> stop st.2 = false -> I st.1 st.2 ->
  walk_calls stop f cs st = Some st' -> searched cs st st'.
Proof using Type.
  clear I_enter I_absent enter.
  intros Hf. revert st. induction cs as [|c cs IH]; intros st Hcs Hs HI; cbn.
  { intros [= <-]. split; [done|]. split; [done|]. intros _. split; [set_solver|by intros a b]. }
  destruct (f c st) as [st1|] eqn:E; [|done]. cbn.
  destruct (Hf c st st1) as (HI1 & Hsub & Hdone); [set_solver|done..|].
  destruct (stop st1.2) eqn:Es.
  { intros [= <-]. split; [done|]. split; [done|]. by rewrite Es. }
  intros Hw. destruct (Hdone eq_refl) as [Hin Hent].
  destruct (IH st1) as (HI2 & Hsub2 & Hdone2); [set_solver|done..|].
  split; [done|]. split; [set_solver|]. intros Hs2. destruct (Hdone2 Hs2) as [Hin2 Hent2].
  split; [set_solver|]. by eapply entered_trans.
Qed.

Lemma walk_searched fuel path n st st' :
  leads reg R path n -> stop st.2 = false -> I st.1 st.2 ->
  walk enter stop reg fuel path n st = Some st' -> searched [n] st st'.
Proof.
  revert path n st st'. induction fuel as [|fuel IH]; intros path n [seen s] st' Hl Hs HI; cbn -[union]; [done|].
  case_bool_decide as Hn.
  { intros [= <-]. split; [done|]. split; [done|]. intros _. split; [set_solver|by intros a b]. }
  destruct (reg !! n) as [t|] eqn:Et.
  - destruct (stop (enter n t (path ++ [n]) s)) eqn:Es.
    { intros [= <-]. split; [by eapply I_enter|]. split; [set_solver|]. cbn. by rewrite Es. }
    intros Hw. apply (walk_calls_searched _ (path ++ [n])) in Hw as (HI' & Hsub & Hdone);
      [|by apply IH|intros c Hc; eapply leads_call; [done|by exists t]|done|by eapply I_enter].
    cbn in Hsub. split; [done|]. split; [set_solver|]. intros Hs'. destruct (Hdone Hs') as [Hin Hent].
    split; [set_solver|]. intros a b Ha Hna Hab. destruct (decide (a = n)) as [->|Hne].
    + destruct Hab as (t' & Ht' & Hb). simplify_eq. by apply Hin.
    + eapply Hent; [done| |done]. cbn. set_solver.
  - intros [= <-]. split; [by eapply I_absent|]. split; [set_solver|]. intros _. split; [set_solver|].
    cbn. intros a b Ha Hna (t & Ht & _). assert (a = n) as -> by set_solver. by simplify_eq.
Qed.
End Search.

(** ** The fuel is enough *)

Section Fuel.
Context {S : Type} (enter : gostring -> Target -> list gostring -> S -> S) (stop : S -> bool).
Context (reg : Registry).

(** The names of the registry not yet seen. *)
Definition unseen (seen : gset gostring) : nat := size ((dom reg : gset gostring) ∖ seen).

Lemma unseen_mono A B : A ⊆ B -> (unseen B <= unseen A)%nat.
Proof. intros HAB. unfold unseen. apply subseteq_size. set_solver. Qed.

Lemma walk_calls_total (f : gostring -> gset gostring * S -> option (gset gostring * S)) cs st :
  (forall c st', st.1 ⊆ st'.1 -> exists st'', f c st' = Some st'' /\ st'.1 ⊆ st''.1) ->
  exists st', walk_calls stop f cs st = Some st' /\ st.1 ⊆ st'.1.
Proof using Type.
  clear enter.
  revert st. induction cs as [|c cs IH]; intros st Hf; cbn; [by exists st|].
  destruct (Hf c st) as (st1 & -> & Hsub); [done|]. cbn. destruct (stop st1.2); [by exists st1|].
  destruct (IH st1) as (st2 & H2 & Hsub2).
  { intros c' st' Hst'. apply Hf. set_solver. }
  exists st2. split; [done|]. set_solver.
Qed.

Lemma walk_total fuel path n st : (unseen st.1 < fuel)%nat ->
  exists st', walk enter stop reg fuel path n st = Some st' /\ st.1 ⊆ st'.1.
Proof.
  revert path n st. induction fuel as [|fuel IH]; intros path n [seen s] Hf; [lia|]. cbn -[union] in *.
  case_bool_decide as Hn; [by eexists|].
  destruct (reg !! n) as [t|] eqn:Et; [|eexists; split; [done|set_solver]].
  destruct (stop (enter n t (path ++ [n]) s)); [eexists; split; [done|set_solver]|].
  destruct (walk_calls_total (walk enter stop reg fuel (path ++ [n])) (Calls t)
              ({[n]} ∪ seen, enter n t (path ++ [n]) s)) as (st' & Hst' & Hsub).
  - intros c st' Hst'. apply IH. apply unseen_mono in Hst'. cbn in Hst'.
    assert (unseen ({[n]} ∪ seen) < unseen seen)%nat; [|lia].
    unfold unseen. apply subset_size. apply elem_of_dom_2 in Et. set_solver.
  - exists st'. split; [done|]. cbn in Hsub. set_solver.
Qed.

Lemma walk_total_fuel path n st :
  exists st', walk enter stop reg (walk_fuel reg) path n st = Some st' /\ st.1 ⊆ st'.1.
Proof.
  apply walk_total. unfold walk_fuel, unseen, Registry in *. rewrite <- (size_dom (D := gset gostring)).
  apply Nat.lt_succ_r, subseteq_size. set_solver.
Qed.
End Fuel.

(** ** What the searches find *)

Section Exact.
Context (reg : Registry).

Lemma closed_reachable (seen : gset gostring) r m :
  entered reg ∅ seen -> r ∈ seen -> rtc (calls reg) r m -> m ∈ seen.
Proof. intros He Hr Hrm. induction Hrm as [|a b c Hab _ IH]; [done|]. apply IH. eapply He; [done|set_solver|done]. Qed.

Definition is_prompt (n : gostring) : bool :=
  match reg !! n with
  | Some t => match ConstructKind t with ConstructPrompt => true | _ => false end
  | None => false
  end.

(** The search so far: no prompt among the names seen, or a chain of calls that
    ends in one. *)
Definition prompt_search (root : gostring) (seen : gset gostring) (found : option (list gostring)) : Prop :=
  match found with
  | None => forall a, a ∈ seen -> is_prompt a = false
  | Some p => exists path n, p = path ++ [n] /\ leads reg (eq root) path n /\ is_prompt n = true
  end.

Lemma ReachesPrompt_cases name :
  match ReachesPrompt name reg with
  | Some p => exists path n, p = path ++ [n] /\ leads reg (eq name) path n /\ is_prompt n = true
  | None => forall m, rtc (calls reg) name m -> is_prompt m = false
  end.
Proof.
  unfold ReachesPrompt.
  destruct (walk_total_fuel enter_prompt found_prompt reg [] name (∅, None)) as ([seen found] & Hw & _).
  rewrite Hw. cbn. apply (walk_searched _ _ _ (eq name) (prompt_search name)) in Hw as (HI & _ & Hdone);
    [| | |by constructor|done|cbn; set_solver].
  - destruct found as [p|]; [exact HI|]. destruct Hdone as [Hin He]; [done|]. intros m Hm. apply HI.
    eapply closed_reachable; [done| |done]. set_solver.
  - intros path n t seen' s Hl Hn Ht Hs Hp. unfold enter_prompt. destruct s; [done|].
    assert (is_prompt n = match ConstructKind t with ConstructPrompt => true | _ => false end) as Hk
      by (unfold is_prompt; by rewrite Ht).
    destruct (ConstructKind t); try (intros a [->%elem_of_singleton|Ha]%elem_of_union; [done|by apply Hp]).
    by exists path, n.
  - intros path n seen' s Hl Hn Ht Hp. destruct s; [done|].
    intros a [->%elem_of_singleton|Ha]%elem_of_union; [unfold is_prompt; by rewrite Ht|by apply Hp].
Qed.

(** *** Effects *)

(** One thing a footprint says is touched. *)
Inductive effect : Type := WritesConcept (c : gostring) | TouchesFiles | TouchesMachine | LeavesCluster | CostsMoney.

Definition has (f : Footprint) (e : effect) : Prop :=
  match e with
  | WritesConcept c => c ∈ Concepts f
  | TouchesFiles => Files f = true
  | TouchesMachine => Machine f = true
  | LeavesCluster => External f = true
  | CostsMoney => Spend f = true
  end.

(** What a construct declares by itself. *)
Definition declared (n : gostring) : Footprint :=
  match reg !! n with Some t => enter_footprint n t [] no_footprint | None => no_footprint end.

Lemma has_nothing e : ~ has no_footprint e.
Proof. destruct e; cbn; set_solver. Qed.

Lemma has_enter n t path out e : reg !! n = Some t ->
  has (enter_footprint n t path out) e <-> has out e \/ has (declared n) e.
Proof.
  intros Ht. unfold declared. rewrite Ht. pose proof (has_nothing e) as Hno. unfold enter_footprint.
  destruct (ConstructKind t); try (by intuition); try case_match; try (by intuition);
    destruct e; cbn in *; rewrite ?orb_true_iff, ?elem_of_app; intuition.
Qed.

Definition effects_of (R : gostring -> Prop) (seen : gset gostring) (out : Footprint) : Prop :=
  (forall a, a ∈ seen -> exists r, R r /\ rtc (calls reg) r a)
  /\ forall e, has out e <-> exists a, a ∈ seen /\ has (declared a) e.

Lemma effects_of_enter R path n t seen out : leads reg R path n -> n ∉ seen -> reg !! n = Some t ->
  effects_of R seen out -> effects_of R ({[n]} ∪ seen) (enter_footprint n t (path ++ [n]) out).
Proof.
  intros Hl Hn Ht [Hr He]. split.
  - intros a [->%elem_of_singleton|Ha]%elem_of_union; [by eapply leads_reachable|by apply Hr].
  - intros e. rewrite has_enter, He by done. setoid_rewrite elem_of_union. setoid_rewrite elem_of_singleton.
    naive_solver.
Qed.

Lemma effects_of_absent R path n seen out : leads reg R path n -> n ∉ seen -> reg !! n = None ->
  effects_of R seen out -> effects_of R ({[n]} ∪ seen) out.
Proof.
  intros Hl Hn Ht [Hr He]. split.
  - intros a [->%elem_of_singleton|Ha]%elem_of_union; [by eapply leads_reachable|by apply Hr].
  - intros e. rewrite He. pose proof (has_nothing e). split; [intros (a & Ha & Hh); exists a; set_solver|].
    intros (a & [->%elem_of_singleton|Ha]%elem_of_union & Hh); [|by exists a]. unfold declared in Hh. by rewrite Ht in Hh.
Qed.

Lemma unique_elem seen l s : s ∈ unique seen l <-> s <> [] /\ s ∉ seen /\ s ∈ l.
Proof.
  revert seen. induction l as [|x l IH]; intros seen; cbn; [set_solver|].
  destruct ((x =s []) || memS x seen) eqn:E.
  - rewrite IH. assert (x = [] \/ x ∈ seen).
    { apply orb_true_iff in E as [E|E]; [left; by apply eqs_true|right; by apply list_elem_of_In, memS_In]. }
    rewrite elem_of_cons. naive_solver.
  - apply orb_false_iff in E as [E1%eqs_false E2]. assert (x ∉ seen).
    { rewrite list_elem_of_In, <- memS_In. by rewrite E2. }
    rewrite elem_of_cons, IH, !elem_of_cons. destruct (decide (s = x)); naive_solver.
Qed.

Lemma unique_NoDup seen l : NoDup (unique seen l).
Proof.
  revert seen. induction l as [|x l IH]; intros seen; cbn; [constructor|]. case_match; [done|].
  constructor; [|done]. rewrite unique_elem, elem_of_cons. naive_solver.
Qed.

Lemma UnionFootprint_cases names :
  let out := UnionFootprint names reg in
  (forall e, has out e <-> e <> WritesConcept [] /\
     exists r m, r ∈ names /\ rtc (calls reg) r m /\ has (declared m) e)
  /\ StronglySorted (fun a b => str_ltb a b = true) (Concepts out).
Proof.
  intros out. split; [|apply sort_strings_strict, unique_NoDup]. intros e. unfold out, UnionFootprint.
  set (search := walk enter_footprint (fun _ => false) reg (walk_fuel reg) []).
  destruct (walk_calls_total (fun _ => false) search names (∅, no_footprint)) as ([seen f] & Hw & _).
  { intros c st _. apply walk_total_fuel. }
  rewrite Hw. cbn. set (R := fun n => n ∈ names).
  assert (Hz : effects_of R ∅ no_footprint).
  { split; [set_solver|]. intros e'. pose proof (has_nothing e'). split; [done|]. by intros (a & []%not_elem_of_empty & _). }
  destruct (walk_calls_searched (fun _ => false) reg R (effects_of R) search [] names (∅, no_footprint) (seen, f))
    as ([Hr He] & _ & Hdone); [|intros c Hc; by apply leads_root|done|done|done|].
  { intros c st st' Hl _ HI. apply (walk_searched _ _ _ R (effects_of R)); [|apply effects_of_absent|done..].
    intros. by apply effects_of_enter. }
  destruct (Hdone eq_refl) as [Hin Hent]. cbn in *.
  assert (Hset : (exists a, a ∈ seen /\ has (declared a) e)
                 <-> exists r m, r ∈ names /\ rtc (calls reg) r m /\ has (declared m) e).
  { split; [intros (a & Ha & Hh); destruct (Hr a Ha) as (r & ? & ?); by exists r, a|].
    intros (r & m & Hrn & Hrm & Hh). exists m. split; [|done]. eapply closed_reachable; [done|by apply Hin|done]. }
  rewrite <- Hset, <- He. destruct e; cbn; try by intuition.
  unfold sortedUnique. rewrite sort_stable_perm, unique_elem. set_solver.
Qed.
End Exact.

(** *** The order of writes *)

(** Lexicographic: the second sign decides where the first is even. *)
Definition lex (s r : Z) : Z := if s =? 0 then r else s.

Fixpoint path_sign (a b : list gostring) : Z :=
  match a, b with
  | [], [] => 0
  | [], _ :: _ => -1
  | _ :: _, [] => 1
  | x :: a', y :: b' => lex (str_sign x y) (path_sign a' b')
  end.

Definition write_sign (a b : Write) : Z :=
  lex (str_sign (w_Concept a) (w_Concept b))
    (lex (str_sign (w_Mutation a) (w_Mutation b)) (path_sign (w_Path a) (w_Path b))).

Lemma eqs_sign a b : (a =s b) = (str_sign a b =? 0).
Proof.
  destruct (Z.eqb_spec (str_sign a b) 0) as [E|E].
  - apply str_sign_zero in E as ->. apply eqs_refl.
  - apply eqs_false. intros ->. by rewrite str_sign_refl in E.
Qed.

Lemma path_ltb_sign a b : path_ltb a b = (path_sign a b <? 0).
Proof.
  revert b. induction a as [|x a IH]; intros [|y b]; try done. cbn. unfold lex. rewrite eqs_sign, IH, str_ltb_sign.
  by destruct (str_sign x y =? 0).
Qed.

Lemma writeLess_sign a b : writeLess a b = (write_sign a b <? 0).
Proof.
  unfold writeLess, write_sign, lex. rewrite !eqs_sign, !str_ltb_sign, path_ltb_sign.
  by destruct (str_sign (w_Concept a) (w_Concept b) =? 0), (str_sign (w_Mutation a) (w_Mutation b) =? 0).
Qed.

Lemma lex_str_trans x y z rxy ryz rxz : (rxy <= 0 -> ryz <= 0 -> rxz <= 0) ->
  lex (str_sign x y) rxy <= 0 -> lex (str_sign y z) ryz <= 0 -> lex (str_sign x z) rxz <= 0.
Proof.
  intros Hr. unfold lex. pose proof (str_sign_trans x y z) as Ht.
  destruct (Z.eqb_spec (str_sign x y) 0) as [E1|E1].
  { apply str_sign_zero in E1 as <-. destruct (str_sign x z =? 0); auto. }
  destruct (Z.eqb_spec (str_sign y z) 0) as [E2|E2].
  { apply str_sign_zero in E2 as <-. destruct (Z.eqb_spec (str_sign x y) 0); lia. }
  destruct (Z.eqb_spec (str_sign x z) 0) as [E3|E3]; [|lia].
  apply str_sign_zero in E3 as <-. pose proof (str_sign_anti x y). lia.
Qed.

Lemma path_sign_trans a b c : path_sign a b <= 0 -> path_sign b c <= 0 -> path_sign a c <= 0.
Proof. revert b c. induction a as [|x a IH]; intros [|y b] [|z c]; cbn; try lia. apply lex_str_trans, IH. Qed.

Lemma write_sign_trans a b c : write_sign a b <= 0 -> write_sign b c <= 0 -> write_sign a c <= 0.
Proof. apply lex_str_trans, lex_str_trans, path_sign_trans. Qed.

Lemma path_sign_anti a b : path_sign b a = - path_sign a b.
Proof.
  revert b. induction a as [|x a IH]; intros [|y b]; try done. cbn. unfold lex. rewrite (str_sign_anti x y), (IH b).
  destruct (Z.eqb_spec (- str_sign x y) 0), (Z.eqb_spec (str_sign x y) 0); lia.
Qed.

Lemma write_sign_anti a b : write_sign b a = - write_sign a b.
Proof.
  unfold write_sign, lex. rewrite (str_sign_anti (w_Concept a)), (str_sign_anti (w_Mutation a)), path_sign_anti.
  repeat case_match; repeat match goal with H : (_ =? _) = _ |- _ => first [apply Z.eqb_eq in H|apply Z.eqb_neq in H] end; lia.
Qed.

Lemma path_sign_zero a b : path_sign a b = 0 -> a = b.
Proof.
  revert b. induction a as [|x a IH]; intros [|y b]; try done. cbn. unfold lex.
  destruct (Z.eqb_spec (str_sign x y) 0) as [E|E]; [|done]. intros ->%IH. apply str_sign_zero in E as ->. done.
Qed.

Lemma write_sign_zero a b : write_sign a b = 0 -> w_Mutation a = w_Mutation b /\ w_Path a = w_Path b.
Proof.
  unfold write_sign, lex.
  destruct (Z.eqb_spec (str_sign (w_Concept a) (w_Concept b)) 0) as [E|E]; [|done].
  destruct (Z.eqb_spec (str_sign (w_Mutation a) (w_Mutation b)) 0) as [E'%str_sign_zero|E']; [|done].
  intros ?%path_sign_zero. done.
Qed.

(** Whether [w] may follow [prev]. *)
Definition after (prev : option Write) (w : Write) : Prop :=
  match prev with Some p => write_sign p w <= 0 | None => True end.

Lemma dedupe_spec l prev : StronglySorted (fun a b => write_sign a b <= 0) l -> Forall (after prev) l ->
  let out := dedupe prev l in
  out `sublist_of` l
  /\ StronglySorted (fun a b => writeLess a b = true) out
  /\ Forall (fun w => match prev with Some p => writeLess p w = true | None => True end) out
  /\ forall w, w ∈ l -> (exists w', w' ∈ out /\ write_sign w w' = 0)
                        \/ match prev with Some p => write_sign w p = 0 | None => False end.
Proof.
  intros Hs. revert prev. induction Hs as [|w l Hs IH Hw]; intros prev Ha; cbn.
  { split; [done|]. split; [constructor|]. split; [constructor|]. set_solver. }
  apply Forall_cons in Ha as [Hpw _]. destruct (IH (Some w) Hw) as (Hsub & Hst & Hgt & Hall).
  assert (Hself : write_sign w w = 0) by (pose proof (write_sign_anti w w); lia).
  assert (Hkeep : forall v, v ∈ w :: l -> exists w', w' ∈ w :: dedupe (Some w) l /\ write_sign v w' = 0).
  { intros v [->|Hv]%elem_of_cons; [exists w; set_solver|]. destruct (Hall v Hv) as [(w' & ? & ?)|?]; set_solver. }
  destruct prev as [p|]; cbn in *.
  2: { split; [by constructor|]. split; [by constructor|]. split; [by apply Forall_true|]. intros v Hv. left. by apply Hkeep. }
  destruct (writeLess p w) eqn:Epw.
  - split; [by constructor|]. split; [by constructor|]. split; [|intros v Hv; left; by apply Hkeep].
    constructor; [done|]. eapply Forall_impl; [exact Hgt|]. cbn. intros v. rewrite !writeLess_sign in *.
    rewrite !Z.ltb_lt in *. intros Hwv. pose proof (write_sign_trans p w v). pose proof (write_sign_anti v p).
    pose proof (write_sign_trans v p w). pose proof (write_sign_anti w v). lia.
  - rewrite writeLess_sign in Epw. apply Z.ltb_ge in Epw. assert (Hpw0 : write_sign p w = 0) by lia.
    pose proof (write_sign_anti p w). split; [by constructor|]. split; [done|]. split.
    + eapply Forall_impl; [exact Hgt|]. cbn. intros v. rewrite !writeLess_sign, !Z.ltb_lt. intros Hwv.
      pose proof (write_sign_trans p w v). pose proof (write_sign_trans v p w). pose proof (write_sign_anti v p).
      pose proof (write_sign_anti w v). lia.
    + intros v [->|Hv]%elem_of_cons; [right; lia|]. destruct (Hall v Hv) as [?|Hvw]; [by left|]. right.
      pose proof (write_sign_trans v w p). pose proof (write_sign_trans p w v). pose proof (write_sign_anti v p).
      pose proof (write_sign_anti w v). lia.
Qed.

(** *** The writes found *)

Section Writes.
Context (reg : Registry).

(** [t] is a mutation the caller can name the concept of. *)
Definition writes (t : Target) : Prop := ConstructKind t = ConstructMutation /\ Concept t <> [].

#[export] Instance writes_dec t : Decision (writes t).
Proof. unfold writes. apply _. Defined.

(** [w] is the write of a mutation [root] reaches by [w]'s path. *)
Definition write_of (root : gostring) (w : Write) : Prop :=
  exists path t, leads reg (eq root) path (w_Mutation w) /\ reg !! w_Mutation w = Some t /\ writes t
    /\ w = mkWrite (Concept t) (w_Mutation w) (path ++ [w_Mutation w])
             (match t_Write t with Some s => s | None => no_spec end).

(** What the walk from [root] adds to [before]. *)
Definition writes_found (root : gostring) (before : list Write) (seen : gset gostring) (out : list Write) : Prop :=
  (forall w, w ∈ out -> w ∈ before \/ write_of root w) /\ (forall w, w ∈ before -> w ∈ out)
  /\ forall a t, a ∈ seen -> reg !! a = Some t -> writes t ->
       exists w, w ∈ out /\ write_of root w /\ w_Mutation w = a.

Lemma writes_found_enter root before path n t seen out : leads reg (eq root) path n -> reg !! n = Some t ->
  writes_found root before seen out -> writes_found root before ({[n]} ∪ seen) (enter_write n t (path ++ [n]) out).
Proof.
  intros Hl Ht (Hs & Hb & Hc). unfold enter_write. destruct (decide (writes t)) as [Hw|Hw].
  - destruct Hw as [Hk Hne]. rewrite Hk. destruct (Concept t =s []) eqn:E; [by apply eqs_true in E|].
    set (w := mkWrite _ n _ _). assert (Hw : write_of root w) by by exists path, t.
    split; [|split].
    + intros v [Hv| ->%list_elem_of_singleton]%elem_of_app; auto.
    + intros v Hv. apply elem_of_app. auto.
    + intros a ta [->%elem_of_singleton|Ha]%elem_of_union Hta Hwa.
      * exists w. split; [|done]. apply elem_of_app. right. by left.
      * destruct (Hc a ta Ha Hta Hwa) as (v & Hv & ? & ?). exists v. rewrite elem_of_app. auto.
  - assert (Heq : match ConstructKind t with ConstructMutation => if Concept t =s [] then out else
       out ++ [mkWrite (Concept t) n (path ++ [n]) (match t_Write t with Some s => s | None => no_spec end)]
       | _ => out end = out).
    { destruct (ConstructKind t) eqn:Ek; try done. destruct (Concept t =s []) eqn:E; [done|].
      destruct Hw. split; [done|]. by apply eqs_false. }
    rewrite Heq. split; [done|]. split; [done|].
    intros a ta [->%elem_of_singleton|Ha]%elem_of_union Hta Hwa; [by simplify_eq|by eapply Hc].
Qed.

Lemma walk_writes root before :
  let out := walked (walk enter_write (fun _ => false) reg (walk_fuel reg) [] root (∅, before)) before in
  (forall w, w ∈ out -> w ∈ before \/ write_of root w) /\ (forall w, w ∈ before -> w ∈ out)
  /\ forall m t, rtc (calls reg) root m -> reg !! m = Some t -> writes t ->
       exists w, w ∈ out /\ write_of root w /\ w_Mutation w = m.
Proof.
  destruct (walk_total_fuel enter_write (fun _ => false) reg [] root (∅, before)) as ([seen out] & Hw & _).
  rewrite Hw. cbn. apply (walk_searched _ _ _ (eq root) (writes_found root before)) in Hw as ((Hs & Hb & Hc) & _ & Hdone).
  - split; [done|]. split; [done|]. intros m t Hm Ht Hwt. eapply Hc; [|done..]. destruct (Hdone eq_refl) as [Hin He].
    eapply closed_reachable; [done|by apply Hin; left|done].
  - intros. by apply writes_found_enter.
  - intros path n seen' s _ _ Hn (Hs & Hb & Hc). split; [done|]. split; [done|].
    intros a t [->%elem_of_singleton|Ha]%elem_of_union Ha' Hwa; [by simplify_eq|by eapply Hc].
  - by constructor.
  - done.
  - split; [set_solver|]. split; [done|]. set_solver.
Qed.

Lemma fold_writes names before :
  let search root out := walked (walk enter_write (fun _ => false) reg (walk_fuel reg) [] root (∅, out)) out in
  let out := fold_left (fun out root => search root out) names before in
  (forall w, w ∈ out -> w ∈ before \/ exists root, root ∈ names /\ write_of root w) /\ (forall w, w ∈ before -> w ∈ out)
  /\ forall root m t, root ∈ names -> rtc (calls reg) root m -> reg !! m = Some t -> writes t ->
       exists w, w ∈ out /\ write_of root w /\ w_Mutation w = m.
Proof.
  intros search. revert before. induction names as [|r names IH]; intros before; cbn [fold_left].
  { split; [auto|]. split; [done|]. set_solver. }
  destruct (walk_writes r before) as (Hs1 & Hb1 & Hc1). fold (search r before) in *.
  destruct (IH (search r before)) as (Hs2 & Hb2 & Hc2). split; [|split].
  - intros w [Hw|(root & ? & ?)]%Hs2; [apply Hs1 in Hw as [?|?]; [by left|right; exists r; set_solver]|].
    right. exists root. set_solver.
  - auto.
  - intros root m t [->|Hr]%elem_of_cons Hm Ht Hw; [|by eapply Hc2].
    destruct (Hc1 m t Hm Ht Hw) as (w & ? & ?). exists w. auto.
Qed.
End Writes.

(** ** Theorems *)

(** ReachesPrompt is reachability in the call graph: it answers a path exactly
    when a prompt is reachable, the path is a chain of calls from the name to a
    prompt, and cycles do not stop it. *)
Theorem ReachesPrompt_exact (reg : Registry) (name : gostring) :
  match ReachesPrompt name reg with
  | Some p => exists path n, p = path ++ [n] /\ leads reg (eq name) path n /\ is_prompt reg n = true
  | None => forall m, rtc (calls reg) name m -> is_prompt reg m = false
  end.
Proof. apply ReachesPrompt_cases. Qed.

(** C27: The loader lets nothing call itself deterministic that can reach a model: a
    step declared deterministic that passes validation reaches no prompt, however
    deep its calls go. *)
Theorem deterministic_reaches_no_prompt (reg : Registry) stepType target derived m :
  DeriveKind stepType target reg = Ok derived -> ValidateDeclaredKind KindDeterministic derived = Ok tt ->
  target <> [] -> rtc (calls reg) target m -> is_prompt reg m = false.
Proof.
  intros Hd Hv Ht%eqs_false Hm. unfold ValidateDeclaredKind in Hv. assert (derived = KindDeterministic) as ->.
  { destruct derived; cbn in Hv; done. }
  unfold DeriveKind in Hd. rewrite Ht in Hd. cbn [negb andb] in Hd. repeat case_match; simplify_eq;
    pose proof (ReachesPrompt_cases reg target) as Hc; case_bool_decide as Hr; try done;
    destruct (ReachesPrompt target reg); try (by destruct Hr; eexists); by apply Hc.
Qed.

Definition sample_registry : Registry :=
  {[ go "nightly" := mkTarget ConstructLogic [go "tidy"; go "nightly"] [] no_footprint None;
     go "tidy" := mkTarget ConstructMutation [] (go "v1:work:run") no_footprint None;
     go "ask" := mkTarget ConstructPrompt [] [] no_footprint None ]}.

Lemma deterministic_reaches_no_prompt_witness : is_prompt sample_registry (go "tidy") = false.
Proof.
  apply (deterministic_reaches_no_prompt sample_registry (go "function") (go "nightly") KindDeterministic);
    [by vm_compute|done|done|].
  apply rtc_once. eexists. split; [by vm_compute|by left].
Defined.

(** A step's footprint is what its calls declare: a name is touched exactly when
    some construct reachable from the step's calls declares it, through any cycle,
    and the concepts are listed once each in order. *)
Theorem UnionFootprint_exact (reg : Registry) (names : list gostring) :
  let out := UnionFootprint names reg in
  (forall e, has out e <-> e <> WritesConcept [] /\
     exists r m, r ∈ names /\ rtc (calls reg) r m /\ has (declared reg m) e)
  /\ StronglySorted (fun a b => str_ltb a b = true) (Concepts out).
Proof. apply UnionFootprint_cases. Qed.

(** The writes of a set of names are the mutations they reach: every write
    reported is one, with a chain of calls from a name as its path; every mutation a
    name reaches is reported for that name; and the list is strictly ordered. *)
Theorem UnionWrites_exact (reg : Registry) (names : list gostring) :
  let out := UnionWrites names reg in
  (forall w, w ∈ out -> exists root, root ∈ names /\ write_of reg root w)
  /\ (forall root m t, root ∈ names -> rtc (calls reg) root m -> reg !! m = Some t -> writes t ->
        exists w, w ∈ out /\ w_Mutation w = m /\ exists path, leads reg (eq root) path m /\ w_Path w = path ++ [m])
  /\ StronglySorted (fun a b => writeLess a b = true) out.
Proof.
  intros out. unfold out, UnionWrites. destruct (fold_writes reg names []) as (Hs & _ & Hc).
  set (all := fold_left _ names []) in *.
  destruct (sort_stable_spec write_sign (fun _ => True) (fun x y _ _ => write_sign_anti x y)
    (fun x y z _ _ _ => write_sign_trans x y z) all) as (Hp & Hsorted & _); [by apply Forall_true|].
  rewrite (sort_stable_ext _ writeLess) in Hp, Hsorted by (intros; symmetry; apply writeLess_sign).
  destruct (dedupe_spec _ None Hsorted) as (Hsub & Hst & _ & Hall); [by apply Forall_true|].
  split; [|split; [|done]].
  - intros w Hw. assert (Hw2 : w ∈ all) by (rewrite <- Hp; by eapply elem_of_sublist). clear Hw. rename Hw2 into Hw. apply Hs in Hw as [[]%not_elem_of_nil|?]. done.
  - intros root m t Hr Hm Ht Hwt. destruct (Hc root m t Hr Hm Ht Hwt) as (w & Hw & (path & t' & Hl & _ & _ & Heq) & <-).
    destruct (Hall w) as [(w' & Hw' & [Hmm Hpp]%write_sign_zero)|[]]; [by rewrite Hp|].
    exists w'. split; [done|]. split; [done|]. exists path. split; [done|]. by rewrite <- Hpp, Heq at 1.
Qed.
