(* ===== verification/Ladder.v ===== *)
(** The certification ladder of a learned procedure: component/work/ladder.go, the
    gate onto it (verdict.go) and the serving decision that reads it (replay.go).

    [Advance] takes the stored state and one event and answers the next state.  A
    reason a person reads is a constructor of [reason] with the numbers it names.
    Counters are unbounded: each rises by one per event.  An instant is its
    nanoseconds since 1970, and the zero time is the first of January of year 1. *)

From S2P Require Import Prelude GoText Strconv Numbers ExprNumbers Times Sha256.

(** ** Rungs, policies and states *)

Inductive Rung : Type :=
| RungNone | RungCandidate | RungShadow | RungCanary | RungTrusted | RungRetired
| RungOther (s : gostring).  (* a stored value this build does not know *)

#[export] Instance Rung_eq_dec : EqDecision Rung.
Proof. solve_decision. Defined.

Definition ParseRung (s : gostring) : Rung * bool :=
  if s =s [] then (RungNone, true)
  else if s =s go "candidate" then (RungCandidate, true)
  else if s =s go "shadow" then (RungShadow, true)
  else if s =s go "canary" then (RungCanary, true)
  else if s =s go "trusted" then (RungTrusted, true)
  else if s =s go "retired" then (RungRetired, true)
  else (RungNone, false).

Definition onLadder (r : Rung) : bool :=
  match r with
  | RungCandidate | RungShadow | RungCanary | RungTrusted | RungRetired => true
  | RungNone | RungOther _ => false
  end.

Record LadderPolicy := mkPolicy {
  p_ShadowMatches : Z;
  p_DistinctBindings : Z;
  p_CanaryMatches : Z;
  p_FailuresToDemote : Z;
  p_InsufficientToDemote : Z;
  p_RetireAfterDays : Z
}.

Definition DefaultLadderPolicy : LadderPolicy := mkPolicy 5 2 5 2 1 30.

Definition positive_or (default n : Z) : Z := if n <=? 0 then default else n.

(** LadderPolicy.Normalize *)
Definition Normalize (p : LadderPolicy) : LadderPolicy :=
  let d := DefaultLadderPolicy in
  mkPolicy (positive_or (p_ShadowMatches d) (p_ShadowMatches p))
    (positive_or (p_DistinctBindings d) (p_DistinctBindings p))
    (positive_or (p_CanaryMatches d) (p_CanaryMatches p))
    (positive_or (p_FailuresToDemote d) (p_FailuresToDemote p))
    (positive_or (p_InsufficientToDemote d) (p_InsufficientToDemote p))
    (positive_or (p_RetireAfterDays d) (p_RetireAfterDays p)).

Definition minBindingsKept : Z := 8.

Record LadderState := mkLadder {
  l_Rung : Rung;
  l_ShadowMatches : Z;
  l_CanaryMatches : Z;
  l_DistinctBindings : gmap gostring (list gostring);
  l_Failures : Z;
  l_Insufficient : Z;
  l_PromotionApprovalId : gostring;
  l_LastReplayAt : Z
}.

Inductive LadderEventKind : Type :=
| EventShadowCompared | EventPromotionDecided | EventReplayed | EventStartRefused | EventSweep
| EventOther (s : gostring).

Record LadderEvent := mkEvent {
  e_Kind : LadderEventKind;
  e_At : Z;
  e_Match : bool;
  e_Approved : bool;
  e_Bindings : gmap gostring gostring;
  e_FreeParameters : list gostring;
  e_Insufficient : bool;
  e_LastUsedAt : Z
}.

Inductive reason : Type :=
| RetiredIsTerminal | NotARung (r : Rung) | NotAnEvent (k : LadderEventKind)
| OnlyShadowCompared | StreakRestarts | ProposalWaiting (matches : Z) | NeedsMatches (matches needed : Z)
| NeedsBindings (matches : Z) (short : list gostring) (needed : Z)
| ProposedNoParameter (matches : Z) | Proposed (matches fewest : Z)
| OnlyShadowPromoted (r : Rung) | NothingOpen | PersonApproved | PersonDeclined
| OnlyServing | CleanTrusted | NowTrusted (matches : Z) | CleanCanary (matches needed : Z)
| DemotedInsufficient (n : Z) | DemotedFailuresDiverging (n : Z) | DemotedFailures (n : Z)
| Diverged (insufficient needed failures failuresNeeded : Z) | ReplayFailed (failures needed : Z)
| OnlyStarted | DemotedRefusals (n : Z) | StartRefused (failures needed : Z)
| SweepDemotedInsufficient (needed n : Z) | SweepDemotedFailures (needed n : Z)
| Unused (idle window : Z) | AlsoUnused (first : reason) (idle window : Z) | NothingToChange
| NoReason.

Record Transition := mkTransition {
  t_From : Rung;
  t_To : Rung;
  t_State : LadderState;
  t_Propose : bool;
  t_Demoted : bool;
  t_Retired : bool;
  t_Reason : reason
}.

(** ** Updates of a transition in place *)

Definition because (why : reason) (t : Transition) : Transition :=
  mkTransition (t_From t) (t_To t) (t_State t) (t_Propose t) (t_Demoted t) (t_Retired t) why.

Definition moved (to : Rung) (t : Transition) : Transition :=
  mkTransition (t_From t) to (t_State t) (t_Propose t) (t_Demoted t) (t_Retired t) (t_Reason t).

Definition with_state (s : LadderState) (t : Transition) : Transition :=
  mkTransition (t_From t) (t_To t) s (t_Propose t) (t_Demoted t) (t_Retired t) (t_Reason t).

Definition proposing (t : Transition) : Transition :=
  mkTransition (t_From t) (t_To t) (t_State t) true (t_Demoted t) (t_Retired t) (t_Reason t).

Definition with_rung (r : Rung) (s : LadderState) : LadderState :=
  mkLadder r (l_ShadowMatches s) (l_CanaryMatches s) (l_DistinctBindings s) (l_Failures s)
    (l_Insufficient s) (l_PromotionApprovalId s) (l_LastReplayAt s).

Definition with_approval (id : gostring) (s : LadderState) : LadderState :=
  mkLadder (l_Rung s) (l_ShadowMatches s) (l_CanaryMatches s) (l_DistinctBindings s) (l_Failures s)
    (l_Insufficient s) id (l_LastReplayAt s).

(** The shadow streak and the bindings seen in it. *)
Definition with_streak (n : Z) (b : gmap gostring (list gostring)) (s : LadderState) : LadderState :=
  mkLadder (l_Rung s) n (l_CanaryMatches s) b (l_Failures s) (l_Insufficient s)
    (l_PromotionApprovalId s) (l_LastReplayAt s).

(** The counters of real replays. *)
Definition with_counts (canary failures insufficient : Z) (s : LadderState) : LadderState :=
  mkLadder (l_Rung s) (l_ShadowMatches s) canary (l_DistinctBindings s) failures insufficient
    (l_PromotionApprovalId s) (l_LastReplayAt s).

Definition replayed_at (t : Z) (s : LadderState) : LadderState :=
  mkLadder (l_Rung s) (l_ShadowMatches s) (l_CanaryMatches s) (l_DistinctBindings s) (l_Failures s)
    (l_Insufficient s) (l_PromotionApprovalId s) t.

(** demote *)
Definition demote (why : reason) (t : Transition) : Transition :=
  let s := with_approval [] (with_counts 0 0 0 (with_streak 0 ∅ (t_State t))) in
  mkTransition (t_From t) RungShadow s (t_Propose t) true (t_Retired t) why.

(** ** Shadow *)

Definition BindingDigest (value : gostring) : gostring := go "sha256:" ++ sha256_hex value.

Definition kept (b : gmap gostring (list gostring)) (id : gostring) : list gostring :=
  match b !! id with Some l => l | None => [] end.

(** One free parameter's binding, recorded if it is new and there is room. *)
Definition record_binding (limit : Z) (bindings : gmap gostring gostring) (b : gmap gostring (list gostring))
    (id : gostring) : gmap gostring (list gostring) :=
  match bindings !! id with
  | Some value =>
      let digest := BindingDigest value in
      if (id =s []) || memS digest (kept b id) || (limit <=? Z.of_nat (length (kept b id))) then b
      else <[id := kept b id ++ [digest]]> b
  | None => b
  end.

Definition record_bindings (limit : Z) (e : LadderEvent) (b : gmap gostring (list gostring))
    : gmap gostring (list gostring) :=
  fold_left (record_binding limit (e_Bindings e)) (e_FreeParameters e) b.

(** The parameters short of [k] bindings, once each, and the fewest bindings. *)
Fixpoint short_of (k : Z) (b : gmap gostring (list gostring)) (ids : list gostring)
    (short : list gostring) (fewest : Z) : list gostring * Z :=
  match ids with
  | [] => (short, fewest)
  | id :: ids' =>
      if id =s [] then short_of k b ids' short fewest
      else
        let n := Z.of_nat (length (kept b id)) in
        short_of k b ids'
          (if (n <? k) && negb (memS id short) then short ++ [id] else short)
          (if (fewest <? 0) || (n <? fewest) then n else fewest)
  end.

Definition advanceShadowCompared (e : LadderEvent) (p : LadderPolicy) (t : Transition) : Transition :=
  if negb (bool_decide (t_From t = RungShadow)) then because OnlyShadowCompared t
  else
    let st := replayed_at (e_At e) (t_State t) in
    if negb (e_Match e) then because StreakRestarts (with_state (with_streak 0 ∅ st) t)
    else
      let n := l_ShadowMatches st + 1 in
      let b := record_bindings (Z.max (p_DistinctBindings p) minBindingsKept) e (l_DistinctBindings st) in
      let t' := with_state (with_streak n b st) t in
      let '(short, fewest) := short_of (p_DistinctBindings p) b (e_FreeParameters e) [] (-1) in
      if negb (l_PromotionApprovalId st =s []) then because (ProposalWaiting n) t'
      else if n <? p_ShadowMatches p then because (NeedsMatches n (p_ShadowMatches p)) t'
      else if negb (bool_decide (short = [])) then because (NeedsBindings n short (p_DistinctBindings p)) t'
      else if fewest <? 0 then because (ProposedNoParameter n) (proposing t')
      else because (Proposed n fewest) (proposing t').

Definition advancePromotionDecided (e : LadderEvent) (t : Transition) : Transition :=
  let st := t_State t in
  if negb (bool_decide (t_From t = RungShadow)) then because (OnlyShadowPromoted (t_From t)) t
  else if l_PromotionApprovalId st =s [] then because NothingOpen t
  else
    let st := with_approval [] st in
    if e_Approved e then because PersonApproved (moved RungCanary (with_state (with_counts 0 0 0 st) t))
    else because PersonDeclined (with_state (with_streak 0 ∅ st) t).

(** ** Canary and trusted *)

Definition serving (r : Rung) : bool := bool_decide (r = RungCanary) || bool_decide (r = RungTrusted).

Definition advanceReplayed (e : LadderEvent) (p : LadderPolicy) (t : Transition) : Transition :=
  if negb (serving (t_From t)) then because OnlyServing t
  else
    let st := replayed_at (e_At e) (t_State t) in
    if e_Match e then
      if bool_decide (t_From t = RungTrusted) then
        because CleanTrusted (with_state (with_counts (l_CanaryMatches st) 0 0 st) t)
      else
        let n := l_CanaryMatches st + 1 in
        if p_CanaryMatches p <=? n
        then because (NowTrusted n) (moved RungTrusted (with_state (with_counts 0 0 0 st) t))
        else because (CleanCanary n (p_CanaryMatches p)) (with_state (with_counts n 0 0 st) t)
    else
      let failures := l_Failures st + 1 in
      let insufficient := l_Insufficient st + (if e_Insufficient e then 1 else 0) in
      let t' := with_state (with_counts 0 failures insufficient st) t in
      if e_Insufficient e && (p_InsufficientToDemote p <=? insufficient) then demote (DemotedInsufficient insufficient) t'
      else if e_Insufficient e && (p_FailuresToDemote p <=? failures) then demote (DemotedFailuresDiverging failures) t'
      else if p_FailuresToDemote p <=? failures then demote (DemotedFailures failures) t'
      else if e_Insufficient e
           then because (Diverged insufficient (p_InsufficientToDemote p) failures (p_FailuresToDemote p)) t'
      else because (ReplayFailed failures (p_FailuresToDemote p)) t'.

Definition advanceStartRefused (p : LadderPolicy) (t : Transition) : Transition :=
  if negb (serving (t_From t)) then because OnlyStarted t
  else
    let st := t_State t in
    let failures := l_Failures st + 1 in
    let t' := with_state (with_counts 0 failures (l_Insufficient st) st) t in
    if p_FailuresToDemote p <=? failures then demote (DemotedRefusals failures) t'
    else because (StartRefused failures (p_FailuresToDemote p)) t'.

(** ** The sweep *)

Definition zero_time : Z := instant 1 1 1 0 0 0 0.

Definition retire (idle window : Z) (t : Transition) : Transition :=
  mkTransition (t_From t) RungRetired (with_approval [] (t_State t)) (t_Propose t) (t_Demoted t) true
    (if t_Demoted t then AlsoUnused (t_Reason t) idle window else Unused idle window).

Definition sweep_demote (p : LadderPolicy) (t : Transition) : Transition :=
  let st := t_State t in
  if serving (t_From t) then
    if p_InsufficientToDemote p <=? l_Insufficient st
    then demote (SweepDemotedInsufficient (p_InsufficientToDemote p) (l_Insufficient st)) t
    else if p_FailuresToDemote p <=? l_Failures st
    then demote (SweepDemotedFailures (p_FailuresToDemote p) (l_Failures st)) t
    else t
  else t.

(** Whether the idle hours are over the window, in float hours. *)
Definition unused (e : LadderEvent) (p : LadderPolicy) : bool :=
  negb (e_LastUsedAt e =? zero_time)
  && f64_ltb (f64_mul (f64_of_Z (p_RetireAfterDays p)) (f64_of_Z 24))
       (duration_Hours (time_Sub (e_At e) (e_LastUsedAt e))).

Definition advanceSweep (e : LadderEvent) (p : LadderPolicy) (t : Transition) : Transition :=
  let t1 := sweep_demote p t in
  let hours := duration_Hours (time_Sub (e_At e) (e_LastUsedAt e)) in
  let t2 := if unused e p then retire (trunc (f64_div hours (f64_of_Z 24))) (p_RetireAfterDays p) t1 else t1 in
  if negb (t_Demoted t2) && negb (t_Retired t2) then because NothingToChange t2 else t2.

(** ** Advance *)

Definition advance_by (e : LadderEvent) (p : LadderPolicy) (t : Transition) : Transition :=
  match e_Kind e with
  | EventShadowCompared => advanceShadowCompared e p t
  | EventPromotionDecided => advancePromotionDecided e t
  | EventReplayed => advanceReplayed e p t
  | EventStartRefused => advanceStartRefused p t
  | EventSweep => advanceSweep e p t
  | EventOther _ => because (NotAnEvent (e_Kind e)) t
  end.

Definition Advance (s : LadderState) (e : LadderEvent) (policy : LadderPolicy) : Transition :=
  let p := Normalize policy in
  let t := mkTransition (l_Rung s) (l_Rung s) s false false false NoReason in
  let t' :=
    if bool_decide (l_Rung s = RungRetired) then because RetiredIsTerminal t
    else if negb (onLadder (l_Rung s)) then because (NotARung (l_Rung s)) t
    else advance_by e p t in
  with_state (with_rung (t_To t') (t_State t')) t'.

(** ** The caller

    integrations/procedure writes what Advance answers and, when it proposes,
    raises one approval first; a raise that fails leaves the id empty. *)
Definition advanceFrom (s : LadderState) (e : LadderEvent) (p : LadderPolicy) (raised : option gostring) : LadderState :=
  let t := Advance s e p in
  match t_Propose t, raised with
  | true, Some id => with_approval id (t_State t)
  | _, _ => t_State t
  end.

(** ** verdict.go *)

Inductive Verdict : Type := VerdictUnseen | VerdictLike | VerdictDislike | VerdictNeutral.

#[export] Instance Verdict_eq_dec : EqDecision Verdict.
Proof. solve_decision. Defined.

Definition ParseVerdict `{UnicodeTables} (s : gostring) : Verdict :=
  let s := ToLower (TrimSpace s) in
  if memS s [go "like"; go "liked"] then VerdictLike
  else if memS s [go "dislike"; go "disliked"] then VerdictDislike
  else if s =s go "neutral" then VerdictNeutral
  else VerdictUnseen.

(** The verdicts on every version of one step, oldest first, as stored. *)
Definition heldByDislike `{UnicodeTables} (verdicts : list gostring) : bool :=
  fold_left (fun held v =>
    match ParseVerdict v with
    | VerdictDislike => true
    | VerdictLike | VerdictNeutral => false
    | VerdictUnseen => held
    end) verdicts false.

Record CandidateEvidence := mkEvidence {
  c_Uses : Z;
  c_UnexplainedHoles : Z;
  c_Instances : list (list (list gostring))
}.

Definition CandidateGate `{UnicodeTables} (e : CandidateEvidence) : bool :=
  if c_Uses e <? 2 then false
  else if 0 <? c_UnexplainedHoles e then false
  else negb (existsb (existsb heldByDislike) (c_Instances e)).

Definition EntryRung `{UnicodeTables} (e : CandidateEvidence) : Rung :=
  if CandidateGate e then RungShadow else RungCandidate.

(** ** replay.go *)

Inductive serve_source : Type := ServeJournal | ServeLive | ServeConstruct.

Record ReplayContext := mkReplay {
  r_Mode : gostring;
  r_ReplayPolicy : gostring;
  r_JournalHit : bool;
  r_SameGoal : bool;
  r_BeforeForkPoint : bool;
  r_ConstructRung : Rung
}.

Record ServeVerdict := mkVerdict { v_Source : serve_source; v_Diverged : bool; v_Shadow : bool; v_Standby : bool }.

Definition serveByRung (r : Rung) : ServeVerdict :=
  match r with
  | RungTrusted => mkVerdict ServeConstruct false false false
  | RungCanary => mkVerdict ServeConstruct false false true
  | RungShadow => mkVerdict ServeLive false true false
  | RungCandidate | RungRetired | RungNone | RungOther _ => mkVerdict ServeLive false false false
  end.

Definition DecideServe (rc : ReplayContext) : ServeVerdict :=
  let hit := r_JournalHit rc && r_SameGoal rc in
  let live := mkVerdict ServeLive false false false in
  if r_Mode rc =s go "replay" then
    if hit then mkVerdict ServeJournal false false false
    else if r_ReplayPolicy rc =s go "permissive" then live
    else mkVerdict ServeLive true false false
  else if r_Mode rc =s go "fork" then
    if hit && r_BeforeForkPoint rc then mkVerdict ServeJournal false false false else live
  else if memS (r_Mode rc) [[]; go "live"] then
    if bool_decide (r_ConstructRung rc = RungNone) then live else serveByRung (r_ConstructRung rc)
  else live.
