(* ===== verification/LadderFacts.v ===== *)
(** What the certification ladder guarantees over every history of events: a
    procedure serves a goal only after it earned a proposal, a person approved it
    and, without the app standing by, after a streak of clean canary replays. *)

From S2P Require Import Prelude GoText Strconv Numbers ExprNumbers Times Sha256 Ladder.

(** ** Histories *)

(** An event, the policy it met and the approval its proposal raised. *)
Record happening := Happened { h_event : LadderEvent; h_policy : LadderPolicy; h_raised : option gostring }.

Definition run (s : LadderState) (hs : list happening) : LadderState :=
  fold_left (fun s h => advanceFrom s (h_event h) (h_policy h) (h_raised h)) hs s.

Lemma run_snoc s hs h : run s (hs ++ [h]) = advanceFrom (run s hs) (h_event h) (h_policy h) (h_raised h).
Proof. unfold run. by rewrite fold_left_app. Qed.

(** A procedure as the lift writes it. *)
Definition entry (r : Rung) : LadderState := mkLadder r 0 0 ∅ 0 0 [] zero_time.

Definition compared (h : happening) : bool :=
  match e_Kind (h_event h) with EventShadowCompared => true | _ => false end.

Definition matching (h : happening) : bool := compared h && e_Match (h_event h).

(** A replay for real that succeeded. *)
Definition clean (h : happening) : bool :=
  match e_Kind (h_event h) with EventReplayed => e_Match (h_event h) | _ => false end.

(** A failed replay or a refused start. *)
Definition failing (h : happening) : bool :=
  match e_Kind (h_event h) with
  | EventReplayed => negb (e_Match (h_event h))
  | EventStartRefused => true
  | _ => false
  end.

Definition count (f : happening -> bool) (hs : list happening) : Z := Z.of_nat (length (List.filter f hs)).

Lemma count_snoc f hs h : count f (hs ++ [h]) = count f hs + (if f h then 1 else 0).
Proof. unfold count. rewrite List.filter_app, length_app. cbn. destruct (f h); cbn; lia. Qed.

(** ** Evidence *)

(** A value a matching comparison of the streak bound to a parameter. *)
Definition bound_in (hs : list happening) (id value : gostring) : Prop :=
  exists h, h ∈ hs /\ matching h = true /\ e_Bindings (h_event h) !! id = Some value.

(** From [b1] on the procedure was in shadow and every comparison of [b2] matched. *)
Definition streak (s0 : LadderState) (b1 b2 : list happening) : Prop :=
  Forall (fun h => compared h = true -> e_Match (h_event h) = true) b2
  /\ forall c1 c2, b2 = c1 ++ c2 -> l_Rung (run s0 (b1 ++ c1)) = RungShadow.

(** The proposal of [h] after [a]: enough matches in one streak, and enough distinct
    values of every free parameter within it. *)
Definition earned (s0 : LadderState) (a : list happening) (h : happening) : Prop :=
  let p := Normalize (h_policy h) in
  matching h = true
  /\ exists b1 b2, a = b1 ++ b2 /\ streak s0 b1 b2
     /\ p_ShadowMatches p <= count matching (b2 ++ [h])
     /\ forall id, id ∈ e_FreeParameters (h_event h) -> id <> [] ->
          exists values, NoDup values /\ p_DistinctBindings p <= Z.of_nat (length values)
            /\ Forall (bound_in (b2 ++ [h]) id) values.

(** [d] is a person's approval of the proposal that is open after [pre]. *)
Definition approved (s0 : LadderState) (pre : list happening) (d : happening) : Prop :=
  e_Kind (h_event d) = EventPromotionDecided /\ e_Approved (h_event d) = true
  /\ l_Rung (run s0 pre) = RungShadow
  /\ exists a pr a', pre = a ++ pr :: a' /\ earned s0 a pr
     /\ h_raised pr = Some (l_PromotionApprovalId (run s0 pre)).

(** Since the approval the procedure was neither demoted nor retired. *)
Definition served (s0 : LadderState) (pre : list happening) (d : happening) (mid : list happening) : Prop :=
  approved s0 pre d /\ forall c1 c2, mid = c1 ++ c2 -> serving (l_Rung (run s0 (pre ++ d :: c1))) = true.

Definition canary_evidence (s0 : LadderState) (hs : list happening) (n : Z) : Prop :=
  exists pre d m1 m2, hs = pre ++ d :: m1 ++ m2 /\ served s0 pre d (m1 ++ m2)
    /\ Forall (fun h => failing h = false) m2 /\ count clean m2 = n.

(** Clean replays in a row, as many as the policy that met the last of them asks. *)
Definition trusted_evidence (s0 : LadderState) (hs : list happening) : Prop :=
  exists pre d m1 m2 h m3, hs = pre ++ d :: m1 ++ m2 ++ h :: m3 /\ served s0 pre d (m1 ++ m2 ++ h :: m3)
    /\ Forall (fun h => failing h = false) (m2 ++ [h])
    /\ p_CanaryMatches (Normalize (h_policy h)) <= count clean (m2 ++ [h]).

(** ** What one event does *)

(** A change of rung and counters, as far as the evidence reads them. *)
Inductive shadow_step (s : LadderState) (h : happening) (t : Transition) : Prop :=
| shadow_quiet : compared h = false -> t_Propose t = false -> l_Rung (t_State t) = RungShadow ->
    l_ShadowMatches (t_State t) = l_ShadowMatches s -> l_DistinctBindings (t_State t) = l_DistinctBindings s ->
    l_PromotionApprovalId (t_State t) = l_PromotionApprovalId s -> shadow_step s h t
| shadow_wiped : t_Propose t = false -> l_Rung (t_State t) = RungShadow -> l_ShadowMatches (t_State t) = 0 ->
    l_DistinctBindings (t_State t) = ∅ ->
    l_PromotionApprovalId (t_State t) = l_PromotionApprovalId s \/ l_PromotionApprovalId (t_State t) = [] ->
    shadow_step s h t
| shadow_matched : matching h = true -> l_Rung (t_State t) = RungShadow ->
    l_ShadowMatches (t_State t) = l_ShadowMatches s + 1 ->
    (exists limit, l_DistinctBindings (t_State t) = record_bindings limit (h_event h) (l_DistinctBindings s)) ->
    l_PromotionApprovalId (t_State t) = l_PromotionApprovalId s ->
    (t_Propose t = true ->
       let p := Normalize (h_policy h) in
       p_ShadowMatches p <= l_ShadowMatches (t_State t)
       /\ (short_of (p_DistinctBindings p) (l_DistinctBindings (t_State t)) (e_FreeParameters (h_event h)) [] (-1)).1 = []) ->
    shadow_step s h t
| shadow_approved : e_Kind (h_event h) = EventPromotionDecided -> e_Approved (h_event h) = true ->
    l_PromotionApprovalId s <> [] -> t_Propose t = false -> l_Rung (t_State t) = RungCanary ->
    l_CanaryMatches (t_State t) = 0 -> l_PromotionApprovalId (t_State t) = [] -> shadow_step s h t
| shadow_retired : t_Propose t = false -> l_Rung (t_State t) = RungRetired ->
    l_PromotionApprovalId (t_State t) = [] -> shadow_step s h t.

Inductive serving_step (s : LadderState) (h : happening) (t : Transition) : Prop :=
| serving_quiet : clean h = false -> failing h = false -> l_Rung (t_State t) = l_Rung s ->
    l_CanaryMatches (t_State t) = l_CanaryMatches s -> serving_step s h t
| serving_clean : clean h = true -> l_Rung (t_State t) = l_Rung s ->
    (l_Rung s = RungCanary -> l_CanaryMatches (t_State t) = l_CanaryMatches s + 1) -> serving_step s h t
| serving_trusted : clean h = true -> l_Rung s = RungCanary -> l_Rung (t_State t) = RungTrusted ->
    p_CanaryMatches (Normalize (h_policy h)) <= l_CanaryMatches s + 1 -> serving_step s h t
| serving_failed : failing h = true -> l_Rung (t_State t) = l_Rung s -> l_CanaryMatches (t_State t) = 0 ->
    serving_step s h t
| serving_demoted : l_Rung (t_State t) = RungShadow -> l_ShadowMatches (t_State t) = 0 ->
    l_DistinctBindings (t_State t) = ∅ -> serving_step s h t
| serving_retired : l_Rung (t_State t) = RungRetired -> serving_step s h t.

Lemma Advance_shadow s h : l_Rung s = RungShadow -> shadow_step s h (Advance s (h_event h) (h_policy h)).
Proof.
  intros Hs. destruct h as [e p r]. unfold Advance, advance_by. cbn [h_event h_policy]. rewrite Hs. cbn.
  destruct (e_Kind e) eqn:Ek.
  - unfold advanceShadowCompared. cbn. destruct (e_Match e) eqn:Em; cbn; [|by eapply shadow_wiped; [..|left]].
    destruct (short_of _ _ _ _ _) as [short fewest] eqn:Eo.
    assert (Hm : matching (Happened e p r) = true) by (unfold matching, compared; cbn; by rewrite Ek, Em).
    repeat case_match; apply shadow_matched; cbn; try done; try (by eexists); intros _;
      (split; [by apply Z.ltb_ge|]); rewrite Eo; cbn; by destruct short.
  - unfold advancePromotionDecided. cbn. destruct (l_PromotionApprovalId s =s []) eqn:Ei.
    { apply shadow_quiet; unfold compared; cbn; by rewrite ?Ek. }
    apply eqs_false in Ei. destruct (e_Approved e) eqn:Ea; cbn; [by apply shadow_approved|].
    by apply shadow_wiped; [..|right].
  - unfold advanceReplayed. cbn. apply shadow_quiet; unfold compared; cbn; by rewrite ?Ek.
  - unfold advanceStartRefused. cbn. apply shadow_quiet; unfold compared; cbn; by rewrite ?Ek.
  - unfold advanceSweep, sweep_demote. cbn. destruct (unused e (Normalize p)); cbn; [by apply shadow_retired|].
    apply shadow_quiet; unfold compared; cbn; by rewrite ?Ek.
  - apply shadow_quiet; unfold compared; cbn; by rewrite ?Ek.
Qed.

Lemma Advance_serving s h : serving (l_Rung s) = true -> let t := Advance s (h_event h) (h_policy h) in
  t_Propose t = false /\ (l_PromotionApprovalId s = [] -> l_PromotionApprovalId (t_State t) = [])
  /\ serving_step s h t.
Proof.
  intros Hs. destruct h as [e p r]. cbn [h_event h_policy].
  assert (Hc : clean (Happened e p r) = match e_Kind e with EventReplayed => e_Match e | _ => false end) by done.
  assert (Hf : failing (Happened e p r) = match e_Kind e with EventReplayed => negb (e_Match e)
     | EventStartRefused => true | _ => false end) by done.
  unfold Advance, advance_by. destruct (l_Rung s) eqn:Er; try done; cbn [onLadder];
    (destruct (e_Kind e) eqn:Ek; cbn [negb bool_decide];
     [unfold advanceShadowCompared|unfold advancePromotionDecided|unfold advanceReplayed|unfold advanceStartRefused
     |unfold advanceSweep, sweep_demote|]; cbn -[f64_ltb duration_Hours]; repeat case_match;
     (split; [done|]); (split; [done|]);
     first [by apply serving_retired|by apply serving_demoted|by apply serving_quiet
           |by apply serving_failed; cbn; rewrite ?Hf
           |by apply serving_trusted; cbn; [..|by apply Z.leb_le]
           |by apply serving_clean; cbn; [rewrite ?Hc|done|rewrite ?Er]]).
Qed.

Lemma Advance_candidate s e p : l_Rung s = RungCandidate -> let t := Advance s e p in
  t_Propose t = false /\ (l_PromotionApprovalId s = [] -> l_PromotionApprovalId (t_State t) = [])
  /\ (l_Rung (t_State t) = RungCandidate \/ l_Rung (t_State t) = RungRetired).
Proof.
  intros Hs. unfold Advance, advance_by. rewrite Hs. cbn. destruct (e_Kind e); cbn; auto.
  unfold advanceSweep, sweep_demote. cbn -[f64_ltb duration_Hours]. destruct (unused e (Normalize p)); cbn; auto.
Qed.

Lemma Advance_off_ladder s e p : l_Rung s = RungRetired \/ onLadder (l_Rung s) = false ->
  t_Propose (Advance s e p) = false /\ t_State (Advance s e p) = s.
Proof.
  intros Hs. unfold Advance. destruct s as [r m c b f i id at'], Hs as [Hs|Hs]; cbn in Hs |- *.
  - by subst.
  - case_bool_decide; [by subst|]. by rewrite Hs.
Qed.

(** ** The bindings kept *)

Definition kept_seen (b : gmap gostring (list gostring)) (hs : list happening) : Prop :=
  forall id, exists values, kept b id = BindingDigest <$> values /\ NoDup (kept b id) /\ Forall (bound_in hs id) values.

Lemma kept_empty id : kept ∅ id = [].
Proof. unfold kept. by rewrite lookup_empty. Qed.

Lemma kept_insert b id l id' : kept (<[id := l]> b) id' = if bool_decide (id = id') then l else kept b id'.
Proof. unfold kept. case_bool_decide; [subst; by rewrite lookup_insert_eq|by rewrite lookup_insert_ne]. Qed.

Lemma record_binding_seen limit h hs b id : h ∈ hs -> matching h = true -> kept_seen b hs ->
  kept_seen (record_binding limit (e_Bindings (h_event h)) b id) hs.
Proof.
  intros Hh Hm Hk. unfold record_binding. destruct (e_Bindings (h_event h) !! id) as [value|] eqn:Ev; [|done].
  destruct (_ || _) eqn:E; [done|]. apply orb_false_iff in E as [[_ Hnew]%orb_false_iff _].
  intros id'. rewrite kept_insert. case_bool_decide; [subst id'|apply Hk].
  destruct (Hk id) as (values & Hv & Hnd & Hall). exists (values ++ [value]). split; [|split].
  - by rewrite fmap_app, Hv.
  - apply NoDup_app. split; [done|]. split; [|apply NoDup_singleton].
    intros x Hx ->%list_elem_of_singleton. apply list_elem_of_In, memS_In in Hx. congruence.
  - apply Forall_app. split; [done|]. constructor; [by exists h|constructor].
Qed.

Lemma record_bindings_seen limit h hs b : h ∈ hs -> matching h = true -> kept_seen b hs ->
  kept_seen (record_bindings limit (h_event h) b) hs.
Proof.
  intros Hh Hm. unfold record_bindings. revert b. induction (e_FreeParameters (h_event h)) as [|id ids IH]; cbn; [done|].
  intros b Hk. by apply IH, record_binding_seen.
Qed.

Lemma kept_seen_app b hs hs' : kept_seen b hs -> kept_seen b (hs ++ hs').
Proof.
  intros Hk id. destruct (Hk id) as (values & ? & ? & Hall). exists values. split; [done|]. split; [done|].
  eapply Forall_impl; [done|]. intros v (h & ? & ?). exists h. by rewrite elem_of_app; auto.
Qed.

Lemma short_of_none k b ids short fewest : (short_of k b ids short fewest).1 = [] ->
  short = [] /\ forall id, id ∈ ids -> id <> [] -> k <= Z.of_nat (length (kept b id)).
Proof.
  revert short fewest. induction ids as [|x ids IH]; intros short fewest; cbn; [set_solver|].
  destruct (x =s []) eqn:Ex; intros [Hs Hids]%IH.
  - apply eqs_true in Ex as ->. split; [done|]. intros id [->|?]%elem_of_cons; [done|by apply Hids].
  - destruct ((Z.of_nat (length (kept b x)) <? k) && negb (memS x short)) eqn:E; [by destruct short|].
    subst short. split; [done|]. intros id [->|?]%elem_of_cons Hne; [|by apply Hids].
    cbn in E. rewrite andb_true_r in E. by apply Z.ltb_ge.
Qed.

(** ** The history invariant *)

Lemma snoc_split {A} (l c1 c2 : list A) x : l ++ [x] = c1 ++ c2 ->
  c1 = l ++ [x] \/ exists c2', l = c1 ++ c2'.
Proof.
  destruct c2 as [|y c2 _] using rev_ind; [rewrite app_nil_r; by left|].
  rewrite app_assoc. intros [? _]%app_inj_tail. right. by exists c2.
Qed.

Section History.
Context (s0 : LadderState).

Lemma streak_nil hs : l_Rung (run s0 hs) = RungShadow -> streak s0 hs [].
Proof.
  intros Hr. split; [constructor|]. intros c1 c2 Hc. symmetry in Hc. apply app_nil in Hc as [-> _]. by rewrite app_nil_r.
Qed.

Lemma streak_snoc b1 b2 h : streak s0 b1 b2 -> (compared h = true -> e_Match (h_event h) = true) ->
  l_Rung (run s0 ((b1 ++ b2) ++ [h])) = RungShadow -> streak s0 b1 (b2 ++ [h]).
Proof.
  intros [Hall Hin] Hh Hr. split; [apply Forall_app; by split; [|constructor]|].
  intros c1 c2 [->|(c2' & ->)]%snoc_split; [by rewrite app_assoc|by eapply Hin].
Qed.

Lemma served_nil pre d : approved s0 pre d -> serving (l_Rung (run s0 (pre ++ [d]))) = true -> served s0 pre d [].
Proof. intros Ha Hr. split; [done|]. intros c1 c2 Hc. symmetry in Hc. by apply app_nil in Hc as [-> _]. Qed.

Lemma served_snoc pre d mid h : served s0 pre d mid ->
  serving (l_Rung (run s0 ((pre ++ d :: mid) ++ [h]))) = true -> served s0 pre d (mid ++ [h]).
Proof.
  intros [Ha Hin] Hr. split; [done|]. intros c1 c2 [->|(c2' & ->)]%snoc_split; [|by eapply Hin].
  by rewrite app_comm_cons, app_assoc.
Qed.

Record explained (hs : list happening) : Prop := {
  ex_shadow : l_Rung (run s0 hs) = RungShadow -> exists b1 b2, hs = b1 ++ b2 /\ streak s0 b1 b2
    /\ l_ShadowMatches (run s0 hs) = count matching b2 /\ kept_seen (l_DistinctBindings (run s0 hs)) b2;
  ex_open : l_PromotionApprovalId (run s0 hs) <> [] -> l_Rung (run s0 hs) = RungShadow
    /\ exists a pr a', hs = a ++ pr :: a' /\ earned s0 a pr
       /\ h_raised pr = Some (l_PromotionApprovalId (run s0 hs));
  ex_canary : l_Rung (run s0 hs) = RungCanary -> canary_evidence s0 hs (l_CanaryMatches (run s0 hs));
  ex_trusted : l_Rung (run s0 hs) = RungTrusted -> trusted_evidence s0 hs
}.

(** The state that is written, but for a raised approval. *)
Lemma run_written hs h : let t := Advance (run s0 hs) (h_event h) (h_policy h) in
  let s' := run s0 (hs ++ [h]) in
  l_Rung s' = l_Rung (t_State t) /\ l_ShadowMatches s' = l_ShadowMatches (t_State t)
  /\ l_DistinctBindings s' = l_DistinctBindings (t_State t) /\ l_CanaryMatches s' = l_CanaryMatches (t_State t)
  /\ (t_Propose t = false -> l_PromotionApprovalId s' = l_PromotionApprovalId (t_State t))
  /\ (l_PromotionApprovalId s' = l_PromotionApprovalId (t_State t)
      \/ t_Propose t = true /\ h_raised h = Some (l_PromotionApprovalId s')).
Proof.
  intros t s'. unfold s'. rewrite run_snoc. unfold advanceFrom. fold t.
  destruct (t_Propose t), (h_raised h); cbn; repeat split; auto; done.
Qed.

Lemma open_snoc hs h : explained hs -> l_PromotionApprovalId (run s0 hs) <> [] ->
  l_PromotionApprovalId (run s0 (hs ++ [h])) = l_PromotionApprovalId (run s0 hs) ->
  exists a pr a', hs ++ [h] = a ++ pr :: a' /\ earned s0 a pr
    /\ h_raised pr = Some (l_PromotionApprovalId (run s0 (hs ++ [h]))).
Proof.
  intros Hx Hne ->. destruct (ex_open _ Hx Hne) as (_ & a & pr & a' & -> & ? & ?).
  exists a, pr, (a' ++ [h]). by rewrite <- app_assoc.
Qed.

(** The proposal a matching comparison makes is earned. *)
Lemma proposal_earned b1 b2 h b n : streak s0 b1 b2 -> matching h = true ->
  n = count matching (b2 ++ [h]) -> kept_seen b (b2 ++ [h]) ->
  p_ShadowMatches (Normalize (h_policy h)) <= n ->
  (short_of (p_DistinctBindings (Normalize (h_policy h))) b (e_FreeParameters (h_event h)) [] (-1)).1 = [] ->
  earned s0 (b1 ++ b2) h.
Proof.
  intros Hst Hm Hn Hk Hp [_ Hs]%short_of_none. split; [done|]. exists b1, b2. split; [done|]. split; [done|].
  split; [lia|]. intros id Hid Hne. destruct (Hk id) as (values & Hv & Hnd & Hall). exists values.
  specialize (Hs id Hid Hne). rewrite Hv in Hs, Hnd. rewrite length_fmap in Hs. split; [|done].
  by apply NoDup_fmap_1 in Hnd.
Qed.

Lemma explained_shadow hs h : explained hs -> l_Rung (run s0 hs) = RungShadow -> explained (hs ++ [h]).
Proof.
  intros Hx Hr. pose proof (Advance_shadow (run s0 hs) h Hr) as Hstep.
  destruct (run_written hs h) as (Er & Em & Eb & Ec & Eid & Eid').
  destruct (ex_shadow _ Hx Hr) as (b1 & b2 & Hhs & Hst & Hn & Hk).
  destruct Hstep as [Hc Hp Hr' Hm' Hb' Hid|Hp Hr' Hm' Hb' Hid|Hm Hr' Hm' [limit Hb'] Hid Hprop|Hk' Ha Hid Hp Hr' Hc' Hid'|Hp Hr' Hid'];
    rewrite Hr' in Er.
  - split; [|intros Hne; split; [done|]; rewrite Eid, Hid in Hne by done; apply open_snoc; [done..|by rewrite Eid]
             |by rewrite Er..].
    intros _. exists b1, (b2 ++ [h]). rewrite Hhs at 1. rewrite app_assoc. split; [done|].
    split; [apply streak_snoc; [done|by rewrite Hc|by rewrite <- Hhs]|].
    assert (Hmf : matching h = false) by (unfold matching; by rewrite Hc).
    rewrite Em, Hm', Eb, Hb', Hn, count_snoc, Hmf. split; [lia|by apply kept_seen_app].
  - split; [|intros Hne; split; [done|]|by rewrite Er..].
    + intros _. exists (hs ++ [h]), []. rewrite app_nil_r. split; [done|]. split; [by apply streak_nil|].
      rewrite Em, Hm', Eb, Hb'. split; [done|]. intros id. exists []. rewrite kept_empty. repeat split; constructor.
    + rewrite Eid in Hne by done. destruct Hid as [Hid|Hid]; [|done]. rewrite Hid in Hne.
      apply open_snoc; [done..|by rewrite Eid].
  - assert (Hcount : l_ShadowMatches (run s0 (hs ++ [h])) = count matching (b2 ++ [h]))
      by (rewrite Em, Hm', Hn, count_snoc, Hm; done).
    assert (Hkept : kept_seen (l_DistinctBindings (run s0 (hs ++ [h]))) (b2 ++ [h])).
    { rewrite Eb, Hb'. apply record_bindings_seen; [set_solver|done|by apply kept_seen_app]. }
    split; [|intros Hne; split; [done|]|by rewrite Er..].
    + intros _. exists b1, (b2 ++ [h]). rewrite Hhs at 1. rewrite app_assoc. split; [done|].
      split; [apply streak_snoc; [done| |by rewrite <- Hhs]|done].
      intros _. apply andb_true_iff in Hm. by destruct Hm.
    + destruct Eid' as [Hsame|[Hpt Hraise]]; [rewrite Hid in Hsame; rewrite Hsame in Hne; by apply open_snoc|].
      destruct (Hprop Hpt) as [Hlen Hshort]. exists hs, h, []. split; [done|]. split; [|done]. rewrite Hhs.
      rewrite <- Em in Hlen. rewrite <- Eb in Hshort. by eapply proposal_earned.
  - split; [by rewrite Er|by rewrite Eid, Hid'| |by rewrite Er]. intros _. rewrite Ec, Hc'.
    exists hs, h, [], []. split; [done|]. split; [|by repeat constructor]. apply served_nil; [|by rewrite Er].
    split; [done|]. split; [done|]. split; [done|]. by apply (ex_open _ Hx).
  - split; [by rewrite Er|by rewrite Eid, Hid'|by rewrite Er..].
Qed.

(** In the other rungs no proposal is open. *)
Lemma closed_proposal hs : explained hs -> l_Rung (run s0 hs) <> RungShadow -> l_PromotionApprovalId (run s0 hs) = [].
Proof.
  intros Hx Hr. destruct (decide (l_PromotionApprovalId (run s0 hs) = [])) as [|Hne]; [done|].
  by apply (ex_open _ Hx) in Hne as [? _].
Qed.

Lemma canary_served hs n h : canary_evidence s0 hs n ->
  serving (l_Rung (run s0 (hs ++ [h]))) = true -> failing h = false ->
  canary_evidence s0 (hs ++ [h]) (n + if clean h then 1 else 0).
Proof.
  intros (pre & d & m1 & m2 & -> & Hs & Hf & Hn) Hr Hh. exists pre, d, m1, (m2 ++ [h]).
  rewrite app_assoc. split; [by rewrite <- app_assoc|]. split; [by apply served_snoc|].
  split; [apply Forall_app; by split; [|constructor]|]. rewrite count_snoc. lia.
Qed.

Lemma canary_restarted hs n h : canary_evidence s0 hs n ->
  serving (l_Rung (run s0 (hs ++ [h]))) = true -> canary_evidence s0 (hs ++ [h]) 0.
Proof.
  intros (pre & d & m1 & m2 & -> & Hs & Hf & Hn) Hr. exists pre, d, ((m1 ++ m2) ++ [h]), [].
  rewrite app_nil_r. split; [by rewrite <- app_assoc|]. split; [by apply served_snoc|]. by repeat constructor.
Qed.

Lemma trusted_earned hs n h : canary_evidence s0 hs n ->
  serving (l_Rung (run s0 (hs ++ [h]))) = true -> clean h = true ->
  p_CanaryMatches (Normalize (h_policy h)) <= n + 1 -> trusted_evidence s0 (hs ++ [h]).
Proof.
  intros (pre & d & m1 & m2 & -> & Hs & Hf & Hn) Hr Hc Hp. exists pre, d, m1, m2, h, [].
  assert (Hm : m1 ++ m2 ++ [h] = (m1 ++ m2) ++ [h]) by by rewrite app_assoc.
  rewrite Hm. split; [by rewrite <- app_assoc|]. split; [by apply served_snoc|].
  assert (failing h = false).
  { unfold clean, failing in *. destruct (e_Kind (h_event h)); try done. by rewrite Hc. }
  split; [apply Forall_app; by split; [|constructor]|]. rewrite count_snoc, Hc. lia.
Qed.

Lemma trusted_kept hs h : trusted_evidence s0 hs ->
  serving (l_Rung (run s0 (hs ++ [h]))) = true -> trusted_evidence s0 (hs ++ [h]).
Proof.
  intros (pre & d & m1 & m2 & h' & m3 & -> & Hs & Hf & Hp) Hr. exists pre, d, m1, m2, h', (m3 ++ [h]).
  assert (Hm : m1 ++ m2 ++ h' :: m3 ++ [h] = (m1 ++ m2 ++ h' :: m3) ++ [h]) by (rewrite <- !app_assoc; done).
  rewrite Hm. split; [by rewrite <- app_assoc|]. split; [by apply served_snoc|done].
Qed.

Lemma clean_not_failing h : clean h = true -> failing h = false.
Proof. unfold clean, failing. destruct (e_Kind (h_event h)); try done. by intros ->. Qed.

Lemma explained_serving hs h : explained hs -> serving (l_Rung (run s0 hs)) = true -> explained (hs ++ [h]).
Proof.
  intros Hx Hr. destruct (Advance_serving (run s0 hs) h Hr) as (Hp & Hid & Hstep).
  destruct (run_written hs h) as (Er & Em & Eb & Ec & Eid & _). rewrite Hid in Eid
    by (apply closed_proposal; [done|]; by destruct (l_Rung (run s0 hs))). specialize (Eid Hp).
  assert (Hopen : l_PromotionApprovalId (run s0 (hs ++ [h])) <> [] -> False) by by rewrite Eid.
  destruct Hstep as [Hc Hf Hr' Hm|Hc Hr' Hm|Hc Hk Hr' Hm|Hf Hr' Hm|Hr' Hm Hb|Hr']; rewrite Hr' in Er;
    try (assert (Hsv : serving (l_Rung (run s0 (hs ++ [h]))) = true) by by rewrite Er).
  - split; [intros E; by rewrite E in Er; rewrite <- Er in Hr|done| |]; intros E.
    + assert (Ek : l_Rung (run s0 hs) = RungCanary) by congruence. rewrite Ec, Hm.
      pose proof (canary_served _ _ h (ex_canary _ Hx Ek) Hsv Hf) as Hev. by rewrite Hc, Z.add_0_r in Hev.
    + apply trusted_kept; [|done]. apply (ex_trusted _ Hx). congruence.
  - split; [intros E; by rewrite E in Er; rewrite <- Er in Hr|done| |]; intros E.
    + assert (Ek : l_Rung (run s0 hs) = RungCanary) by congruence. rewrite Ec, Hm by done.
      pose proof (canary_served _ _ h (ex_canary _ Hx Ek) Hsv (clean_not_failing h Hc)) as Hev. by rewrite Hc in Hev.
    + apply trusted_kept; [|done]. apply (ex_trusted _ Hx). congruence.
  - split; [by rewrite Er|done|by rewrite Er|]. intros _.
    eapply trusted_earned; [apply (ex_canary _ Hx Hk)|done|done|done].
  - split; [intros E; by rewrite E in Er; rewrite <- Er in Hr|done| |]; intros E.
    + assert (Ek : l_Rung (run s0 hs) = RungCanary) by congruence. rewrite Ec, Hm.
      eapply canary_restarted; [apply (ex_canary _ Hx Ek)|done].
    + apply trusted_kept; [|done]. apply (ex_trusted _ Hx). congruence.
  - split; [|done|by rewrite Er..]. intros _. exists (hs ++ [h]), []. rewrite app_nil_r. split; [done|].
    split; [by apply streak_nil|]. rewrite Em, Hm, Eb, Hb. split; [done|].
    intros id. exists []. rewrite kept_empty. repeat split; constructor.
  - split; by rewrite Er.
Qed.

Lemma explained_still hs h : explained hs -> l_Rung (run s0 hs) <> RungShadow ->
  serving (l_Rung (run s0 hs)) = false -> explained (hs ++ [h]).
Proof.
  intros Hx Hsh Hsv. pose proof (closed_proposal _ Hx Hsh) as Hcl.
  destruct (run_written hs h) as (Er & _ & _ & _ & Eid & _).
  assert (Hcase : t_Propose (Advance (run s0 hs) (h_event h) (h_policy h)) = false
    /\ l_PromotionApprovalId (t_State (Advance (run s0 hs) (h_event h) (h_policy h))) = []
    /\ l_Rung (run s0 (hs ++ [h])) <> RungShadow /\ serving (l_Rung (run s0 (hs ++ [h]))) = false).
  { rewrite Er. destruct (decide (l_Rung (run s0 hs) = RungCandidate)) as [Ec|Ec].
    - destruct (Advance_candidate _ (h_event h) (h_policy h) Ec) as (? & ? & [E|E]); rewrite E; auto.
    - destruct (Advance_off_ladder (run s0 hs) (h_event h) (h_policy h)) as [? E]; [|by rewrite E].
      destruct (l_Rung (run s0 hs)); try done; auto. }
  destruct Hcase as (Hp & Hi & Hn & Hs). split; [done|by rewrite Eid, Hi|intros E; by rewrite E in Hs..].
Qed.

Lemma explained_all hs : l_Rung s0 = RungCandidate \/ l_Rung s0 = RungShadow -> s0 = entry (l_Rung s0) -> explained hs.
Proof.
  intros Hr He. induction hs as [|h hs IH] using rev_ind.
  - assert (Hs0 : run s0 [] = s0) by done.
    assert (Hz : l_ShadowMatches s0 = 0 /\ l_DistinctBindings s0 = ∅ /\ l_PromotionApprovalId s0 = []) by by rewrite He.
    destruct Hz as (Hm & Hb & Hid). split; rewrite Hs0.
    + intros Hr'. exists [], []. split; [done|]. split; [by apply streak_nil|]. split; [done|].
      rewrite Hb. intros id. exists []. rewrite kept_empty. repeat split; constructor.
    + done.
    + by destruct Hr as [-> | ->].
    + by destruct Hr as [-> | ->].
  - destruct (decide (l_Rung (run s0 hs) = RungShadow)); [by apply explained_shadow|].
    destruct (serving (l_Rung (run s0 hs))) eqn:E; [by apply explained_serving|by apply explained_still].
Qed.
End History.

(** ** Demotion *)

Lemma failing_step s h : serving (l_Rung s) = true -> failing h = true ->
  let s' := advanceFrom s (h_event h) (h_policy h) (h_raised h) in
  l_Rung s' = RungShadow
  \/ l_Rung s' = l_Rung s /\ l_Failures s' = l_Failures s + 1
     /\ l_Failures s' < p_FailuresToDemote (Normalize (h_policy h)).
Proof.
  intros Hs Hf. destruct (Advance_serving s h Hs) as (Hp & _). unfold advanceFrom. rewrite Hp. cbn zeta. clear Hp.
  destruct h as [e p r]. unfold failing in Hf. cbn [h_event h_policy h_raised] in *. unfold Advance, advance_by.
  destruct (l_Rung s) eqn:Er; try done; destruct (e_Kind e) eqn:Ek; try done; cbn;
    unfold advanceReplayed, advanceStartRefused; cbn; try apply negb_true_iff in Hf as ->; repeat case_match; cbn;
    first [by left|right; bprop; repeat split; lia].
Qed.

Lemma failing_demotes p s hs : serving (l_Rung s) = true ->
  Forall (fun h => failing h = true /\ h_policy h = p) hs -> hs <> [] ->
  p_FailuresToDemote (Normalize p) <= l_Failures s + Z.of_nat (length hs) ->
  exists pre post, hs = pre ++ post /\ l_Rung (run s pre) = RungShadow
    /\ Z.of_nat (length pre) <= Z.max 1 (p_FailuresToDemote (Normalize p) - l_Failures s).
Proof.
  revert s. induction hs as [|h hs IH]; intros s Hs Hall Hne Hlen; [done|]. inversion Hall as [|? ? [Hf Hp] Hall']; subst.
  destruct (failing_step s h Hs Hf) as [Hsh|(Hr & Hn & Hlt)].
  - exists [h], hs. split; [done|]. split; [done|]. cbn [length]. lia.
  - cbn [length] in Hlen.
    destruct (IH (advanceFrom s (h_event h) (h_policy h) (h_raised h))) as (pre & post & -> & Hsh & Hb).
    + by rewrite Hr.
    + done.
    + intros ->. cbn [length] in Hlen. lia.
    + lia.
    + exists (h :: pre), post. split; [done|]. split; [done|]. cbn [length]. lia.
Qed.

(** ** The gate *)

(** The newest verdict a person gave is a dislike. *)
Definition disliked `{UnicodeTables} (verdicts : list gostring) : Prop :=
  exists older v newer, verdicts = older ++ v :: newer /\ ParseVerdict v = VerdictDislike
    /\ Forall (fun u => ParseVerdict u = VerdictUnseen) newer.

Lemma heldByDislike_newest `{UnicodeTables} l : heldByDislike l = true <-> disliked l.
Proof.
  unfold heldByDislike. induction l as [|v l IH] using rev_ind.
  { split; [done|]. intros (older & v & newer & Hl & _). by destruct older. }
  rewrite fold_left_app. cbn [fold_left]. split.
  - intros Hh. destruct (ParseVerdict v) eqn:Ev; try done.
    + apply IH in Hh as (older & u & newer & -> & Hu & Hn). exists older, u, (newer ++ [v]).
      split; [by rewrite <- app_assoc|]. split; [done|]. apply Forall_app. by split; [|constructor].
    + exists l, v, []. by repeat split.
  - intros (older & u & newer & Hl & Hu & Hn). destruct newer as [|w newer _] using rev_ind.
    + apply app_inj_tail in Hl as [_ <-]. by rewrite Hu.
    + rewrite app_comm_cons, app_assoc in Hl. apply app_inj_tail in Hl as [-> <-].
      apply Forall_app in Hn as [Hn [Hw _]%Forall_cons]. rewrite Hw. apply IH. by exists older, u, newer.
Qed.

(** ** Theorems *)

(** C23: A goal is served by a learned procedure only on earned evidence: the run is
    live; the procedure earned a proposal in one shadow streak with enough matches and
    distinct bindings of every free parameter, a person approved that proposal, and it
    has not been demoted or retired since; and where the app does not stand by, enough
    clean canary replays in a row followed the approval. *)
Theorem served_procedure_was_approved `{UnicodeTables} (e : CandidateEvidence) (hs : list happening) (rc : ReplayContext) :
  let s0 := entry (EntryRung e) in
  r_ConstructRung rc = l_Rung (run s0 hs) -> v_Source (DecideServe rc) = ServeConstruct ->
  memS (r_Mode rc) [[]; go "live"] = true
  /\ (exists pre d mid, hs = pre ++ d :: mid /\ served s0 pre d mid)
  /\ (v_Standby (DecideServe rc) = false -> trusted_evidence s0 hs).
Proof.
  intros s0 Hrc Hsrc.
  assert (Hx : explained s0 hs).
  { apply explained_all; [|done]. unfold s0, EntryRung. destruct (CandidateGate e); auto. }
  unfold DecideServe in *. rewrite Hrc in *. clear Hrc.
  destruct (r_Mode rc =s go "replay"); [repeat case_match; done|].
  destruct (r_Mode rc =s go "fork"); [repeat case_match; done|].
  destruct (memS (r_Mode rc) [[]; go "live"]); [|done]. split; [done|]. case_bool_decide; [done|].
  destruct (l_Rung (run s0 hs)) eqn:Er; try done; split; try done.
  - destruct (ex_canary _ _ Hx Er) as (pre & d & m1 & m2 & -> & Hs & _). by exists pre, d, (m1 ++ m2).
  - destruct (ex_trusted _ _ Hx Er) as (pre & d & m1 & m2 & h & m3 & -> & Hs & _). by exists pre, d, (m1 ++ m2 ++ h :: m3).
  - intros _. by apply ex_trusted.
Qed.

Definition brief_policy : LadderPolicy := mkPolicy 1 1 1 1 1 1.

Definition brief_event (k : LadderEventKind) : LadderEvent :=
  mkEvent k 0 true true {[ go "path" := go "a.txt" ]} [go "path"] false 0.

Definition brief_history : list happening :=
  [Happened (brief_event EventShadowCompared) brief_policy (Some (go "approval1"));
   Happened (brief_event EventPromotionDecided) brief_policy None;
   Happened (brief_event EventReplayed) brief_policy None].

Lemma served_procedure_was_approved_witness :
  exists pre d mid, brief_history = pre ++ d :: mid /\ served (entry RungShadow) pre d mid.
Proof.
  apply (@served_procedure_was_approved latin1_tables (mkEvidence 2 0 []) brief_history
           (mkReplay [] [] false false false RungTrusted)); vm_compute; reflexivity.
Defined.

(** C24: A procedure that keeps failing loses its rung: with F the failures the policy
    demotes at, F failed replays or refused starts in a row put a canary or trusted
    procedure back in shadow by the F-th of them at the latest. *)
Theorem failing_procedure_is_demoted (p : LadderPolicy) (s : LadderState) (hs : list happening) :
  serving (l_Rung s) = true -> 0 <= l_Failures s ->
  Forall (fun h => failing h = true /\ h_policy h = p) hs ->
  p_FailuresToDemote (Normalize p) <= Z.of_nat (length hs) ->
  exists pre post, hs = pre ++ post /\ l_Rung (run s pre) = RungShadow
    /\ Z.of_nat (length pre) <= p_FailuresToDemote (Normalize p).
Proof.
  intros Hs Hf Hall Hlen. assert (Hpos : 1 <= p_FailuresToDemote (Normalize p)).
  { cbn. unfold positive_or. destruct (Z.leb_spec (p_FailuresToDemote p) 0); lia. }
  destruct (failing_demotes p s hs Hs Hall) as (pre & post & ? & ? & Hb); [by intros ->; cbn [length] in Hlen; lia|lia|].
  exists pre, post. split; [done|]. split; [done|]. lia.
Qed.

Lemma failing_procedure_is_demoted_witness : exists pre post,
  repeat (Happened (brief_event EventStartRefused) (mkPolicy 0 0 0 0 0 0) None) 2 = pre ++ post
  /\ l_Rung (run (entry RungTrusted) pre) = RungShadow /\ Z.of_nat (length pre) <= 2.
Proof.
  apply (failing_procedure_is_demoted (mkPolicy 0 0 0 0 0 0) (entry RungTrusted));
    [done|done|by repeat constructor|done].
Defined.

(** A lifted procedure enters in shadow exactly when it was used at least twice,
    every hole is classified, and no step of any instance has a dislike as the newest
    verdict a person gave on it. *)
Theorem EntryRung_exact `{UnicodeTables} (e : CandidateEvidence) :
  EntryRung e = RungShadow <-> 2 <= c_Uses e /\ c_UnexplainedHoles e <= 0
    /\ forall instance step, instance ∈ c_Instances e -> step ∈ instance -> ~ disliked step.
Proof.
  assert (Hd : existsb (existsb heldByDislike) (c_Instances e) = false
    <-> forall instance step, instance ∈ c_Instances e -> step ∈ instance -> ~ disliked step).
  { split.
    - intros Hno i st Hi Hst Hd%heldByDislike_newest. apply not_true_iff_false in Hno. apply Hno.
      apply existsb_exists. exists i. split; [by apply list_elem_of_In|]. apply existsb_exists. exists st.
      by rewrite <- list_elem_of_In.
    - intros Hall. apply not_true_iff_false. intros (i & Hi & (st & Hst & Hh)%existsb_exists)%existsb_exists.
      apply heldByDislike_newest in Hh. apply list_elem_of_In in Hi, Hst. by eapply Hall. }
  unfold EntryRung, CandidateGate. rewrite <- Hd.
  destruct (Z.ltb_spec (c_Uses e) 2); [split; [done|lia]|].
  destruct (Z.ltb_spec 0 (c_UnexplainedHoles e)); [split; [done|lia]|].
  destruct (existsb _ _); cbn; split; try done; intros; lia || naive_solver.
Qed.
