(* ===== verification/Heads.v ===== *)
(** A run's head and its steps' versions: component/work/head.go, with the
    idempotency keys of idempotency.go.

    Every version of a step is kept; the head names the current one of each, and a
    version records the head of the earlier steps it was computed from, its basis.
    Maps are finite maps; the steps of a run are in [order]. *)

From S2P Require Import Prelude GoText GoSort Strconv Numbers ExprNumbers Sha256 Values.

Record HeadEntry := mkEntry { he_Version : Z; he_RunId : gostring }.

#[export] Instance HeadEntry_eq_dec : EqDecision HeadEntry.
Proof. solve_decision. Defined.

Abbreviation Head := (gmap gostring HeadEntry).

Inductive head_error : Type :=
| ErrStepNotInRun (key : gostring)
| ErrNestedStep (key : gostring)
| ErrVersionNotFound (key : gostring) (version : Z)
| ErrVersionNotDone (key : gostring) (version : Z) (status : gostring).

(** ** Reading a stored head *)

(** intOf: a decoded number, 0 for what is not a whole number of 32 bits. *)
Definition intOf (v : option value) : Z :=
  match v with
  | Some (GInt n) => n
  | Some (XInt n) => if (2 ^ 31 - 1 <? n) || (n <? - 2 ^ 31) then 0 else n
  | Some (XFloat f) =>
      if negb (f64_eqb f (math_Trunc f)) || f64_ltb (f64_of_Z (2 ^ 31 - 1)) f || f64_ltb f (f64_of_Z (- 2 ^ 31))
      then 0 else trunc f
  | _ => 0
  end.

Definition parse_entry (raw : value) : option HeadEntry :=
  match raw with
  | XMap entry =>
      let version := intOf (map_get entry (go "version")) in
      if version <=? 0 then None
      else Some (mkEntry version (match map_get entry (go "runId") with Some (XStr s) => TrimSpace s | _ => [] end))
  | _ => None
  end.

Definition ParseHead (v : option value) : option Head :=
  match v with
  | Some (XMap m) =>
      let out := list_to_map (omap (fun kv => e ← parse_entry kv.2; Some (kv.1, e)) m) : Head in
      if bool_decide (out = ∅) then None else Some out
  | _ => None
  end.

(** Head.Equal *)
Definition head_equal (h o : Head) : bool :=
  bool_decide (size h = size o) && bool_decide (map_Forall (fun k e => o !! k = Some e) h).

(** ** Bases *)

Fixpoint BasisFor (order : list gostring) (head : Head) (key : gostring) : Head :=
  match order with
  | [] => ∅
  | k :: order' =>
      if k =s key then ∅
      else match head !! k with
           | Some e => <[k := e]> (BasisFor order' head key)
           | None => BasisFor order' head key
           end
  end.

Fixpoint PristineBasis (order : list gostring) (key : gostring) : Head :=
  match order with
  | [] => ∅
  | k :: order' => if k =s key then ∅ else <[k := mkEntry 1 []]> (PristineBasis order' key)
  end.

Definition IsPristine (basis : Head) (order : list gostring) (key : gostring) : bool :=
  head_equal basis (PristineBasis order key).

(** ** Versions *)

Record StepVersion := mkVersion { sv_Key : gostring; sv_Version : Z; sv_Basis : Head; sv_Status : gostring }.

Definition VersionOf (order : list gostring) (key : gostring) (version : Z) (storedBasis : option value)
    (status : gostring) : StepVersion :=
  mkVersion key version
    (match ParseHead storedBasis with Some b => b | None => PristineBasis order key end) status.

Definition finished (v : StepVersion) : bool := (sv_Status v =s go "done") || (sv_Status v =s go "skipped").

(** The recorded versions of each step. *)
Definition versions_of (versions : gmap gostring (list StepVersion)) (k : gostring) : list StepVersion :=
  match versions !! k with Some vs => vs | None => [] end.

Definition maxVersion (vs : list StepVersion) : Z :=
  fold_left (fun m v => if m <? sv_Version v then sv_Version v else m) vs 0.

Fixpoint NewestHead (order : list gostring) (versions : gmap gostring (list StepVersion)) : Head :=
  match order with
  | [] => ∅
  | k :: order' =>
      let v := maxVersion (versions_of versions k) in
      if 0 <? v then <[k := mkEntry v []]> (NewestHead order' versions) else NewestHead order' versions
  end.

Fixpoint findVersion (vs : list StepVersion) (version : Z) : option StepVersion :=
  match vs with
  | [] => None
  | v :: vs' => if sv_Version v =? version then Some v else findVersion vs' version
  end.

Definition newestMatching (vs : list StepVersion) (want : Head) : option StepVersion :=
  List.find (fun v => finished v && head_equal (sv_Basis v) want)
    (sort_stable (fun a b => sv_Version b <? sv_Version a) vs).

(** ** Decisions *)

Fixpoint index_in (order : list gostring) (key : gostring) : option nat :=
  match order with
  | [] => None
  | k :: order' => if k =s key then Some O else S <$> index_in order' key
  end.

Definition indexOfTopLevel (order : list gostring) (key : gostring) : result head_error nat :=
  if ContainsRune key 47 then Err (ErrNestedStep key)
  else match index_in order key with Some i => Ok i | None => Err (ErrStepNotInRun key) end.

Record RerunPlan := mkPlan { rp_From : gostring; rp_Versions : gmap gostring Z; rp_Stale : list gostring }.

Definition PlanRerun (order : list gostring) (versions : gmap gostring (list StepVersion)) (key : gostring)
    : result head_error RerunPlan :=
  idx ← indexOfTopLevel order key;
  let stale := drop idx order in
  Ok (mkPlan key (fold_left (fun m k => <[k := maxVersion (versions_of versions k) + 1]> m) stale ∅) stale).

(** The entries a basis names, for the steps before. *)
Definition restore_basis (basis : Head) (keys : list gostring) (next : Head) : Head :=
  fold_left (fun next k => match basis !! k with Some e => <[k := e]> next | None => next end) keys next.

(** The steps after: restored while a matching version is recorded, stale from the
    first that has none. *)
Fixpoint restore_after (order : list gostring) (versions : gmap gostring (list StepVersion))
    (later : list gostring) (next : Head) : Head * list gostring :=
  match later with
  | [] => (next, [])
  | k :: later' =>
      match newestMatching (versions_of versions k) (BasisFor order next k) with
      | None => (next, later)
      | Some m => restore_after order versions later' (<[k := mkEntry (sv_Version m) []]> next)
      end
  end.

Definition MoveHead (order : list gostring) (head : Head) (versions : gmap gostring (list StepVersion))
    (key : gostring) (version : Z) : result head_error (Head * list gostring) :=
  idx ← indexOfTopLevel order key;
  match findVersion (versions_of versions key) version with
  | None => Err (ErrVersionNotFound key version)
  | Some target =>
      if negb (finished target) then Err (ErrVersionNotDone key version (sv_Status target))
      else
        let next := <[key := mkEntry version []]> (restore_basis (sv_Basis target) (take idx order) head) in
        Ok (restore_after order versions (drop (S idx) order) next)
  end.

Definition ForkAt (order : list gostring) (source : Head) (sourceRunId key : gostring) : result head_error Head :=
  idx ← indexOfTopLevel order key;
  Ok (fold_left (fun out k =>
        match source !! k with
        | Some e => <[k := mkEntry (he_Version e) (if he_RunId e =s [] then sourceRunId else he_RunId e)]> out
        | None => out
        end) (take idx order) ∅).

(** ** idempotency.go *)

Definition IdempotencyKey (runId stepKey : gostring) (attempt : Z) : gostring :=
  runId ++ [58] ++ stepKey ++ [58] ++ FormatInt attempt.

Definition OutboundRequestId (runId stepKey : gostring) (attempt : Z) : gostring :=
  sha256_hex (IdempotencyKey runId stepKey attempt).
