(* ===== verification/HeadFacts.v ===== *)
(** Moving a run's head: what the moved head shows is a run that happened, and going
    back after a re-run restores what was there. *)

From Stdlib Require Import Sorting.Sorted.
From S2P Require Import Prelude GoText GoSort Strconv Numbers ExprNumbers Sha256 Values Heads.

Lemma head_equal_true h o : head_equal h o = true <-> h = o.
Proof.
  unfold head_equal. rewrite andb_true_iff, !bool_decide_eq_true. split; [|intros ->; split; [done|by intros k e]].
  intros [Hs Hf]. apply map_subseteq_size_eq; [by apply map_subseteq_spec|by apply Nat.eq_le_incl].
Qed.

(** ** Positions *)

(** The steps before a key. *)
Fixpoint before (order : list gostring) (key : gostring) : list gostring :=
  match order with
  | [] => []
  | k :: order' => if k =s key then [] else k :: before order' key
  end.

Lemma before_app done key later : key ∉ done -> before (done ++ key :: later) key = done.
Proof.
  induction done as [|x done IH]; intros Hn; cbn; [by rewrite eqs_refl|].
  apply not_elem_of_cons in Hn as [Hne Hn]. destruct (x =s key) eqn:E; [by apply eqs_true in E|]. by rewrite IH.
Qed.

Lemma index_in_split order key i : index_in order key = Some i ->
  order = take i order ++ key :: drop (S i) order /\ key ∉ take i order.
Proof.
  revert i. induction order as [|x order IH]; intros i; cbn [index_in]; [done|].
  destruct (x =s key) eqn:E.
  - intros [= <-]. apply eqs_true in E as ->. cbn. split; [done|set_solver].
  - destruct (index_in order key) as [j|]; [|done]. intros [= <-]. destruct (IH j eq_refl) as [Ho Hn].
    cbn [take drop app]. split; [by rewrite <- Ho|]. apply eqs_false in E. set_solver.
Qed.

Lemma index_split order key i : indexOfTopLevel order key = Ok i ->
  order = take i order ++ key :: drop (S i) order /\ key ∉ take i order.
Proof.
  unfold indexOfTopLevel. case_match; [done|]. destruct (index_in order key) eqn:E; [|done]. intros [= <-].
  by apply index_in_split.
Qed.

(** ** Bases *)

Lemma BasisFor_lookup order head key k :
  BasisFor order head key !! k = if decide (k ∈ before order key) then head !! k else None.
Proof.
  induction order as [|x order IH]; cbn; [by rewrite decide_False by set_solver|].
  destruct (x =s key) eqn:E; [by rewrite decide_False by set_solver|].
  destruct (decide (k = x)) as [->|Hne].
  - rewrite decide_True by by left. destruct (head !! x) eqn:Ex; [by rewrite lookup_insert_eq|].
    rewrite IH. case_decide; [done|done].
  - assert (Hb : BasisFor order head key !! k = if decide (k ∈ x :: before order key) then head !! k else None).
    { rewrite IH. destruct (decide (k ∈ before order key)), (decide (k ∈ x :: before order key)); set_solver. }
    destruct (head !! x); [by rewrite lookup_insert_ne|done].
Qed.

Lemma BasisFor_ext order h h' key : (forall k, k ∈ before order key -> h !! k = h' !! k) ->
  BasisFor order h key = BasisFor order h' key.
Proof. intros Hh. apply map_eq. intros k. rewrite !BasisFor_lookup. case_decide; auto. Qed.

Lemma restore_basis_lookup basis keys next k : NoDup keys ->
  restore_basis basis keys next !! k
  = if decide (k ∈ keys) then match basis !! k with Some e => Some e | None => next !! k end else next !! k.
Proof.
  unfold restore_basis. intros Hnd. revert next. induction Hnd as [|x keys Hx Hnd IH]; intros next; cbn.
  { by rewrite decide_False by set_solver. }
  rewrite IH. destruct (decide (k = x)) as [->|Hne].
  - rewrite decide_False, decide_True by (try done; by left). destruct (basis !! x); [by rewrite lookup_insert_eq|done].
  - destruct (decide (k ∈ keys)); [rewrite decide_True by by right|rewrite decide_False by set_solver];
      destruct (basis !! x); by rewrite ?lookup_insert_ne.
Qed.

(** ** Versions *)

Definition fits (want : Head) (v : StepVersion) : Prop := finished v = true /\ sv_Basis v = want.

(** [m] is the newest version of [vs] that fits. *)
Definition newest (vs : list StepVersion) (want : Head) (m : StepVersion) : Prop :=
  m ∈ vs /\ fits want m /\ forall v, v ∈ vs -> fits want v -> sv_Version v <= sv_Version m.

Lemma fits_true want v : (finished v && head_equal (sv_Basis v) want) = true <-> fits want v.
Proof. by rewrite andb_true_iff, head_equal_true. Qed.

Lemma find_sorted {A} (R : A -> A -> Prop) f (l : list A) m : StronglySorted R l -> List.find f l = Some m ->
  m ∈ l /\ f m = true /\ forall v, v ∈ l -> f v = true -> v = m \/ R m v.
Proof.
  intros Hs. induction Hs as [|x l Hs IH Hx]; cbn; [done|]. destruct (f x) eqn:E.
  - intros [= <-]. split; [by left|]. split; [done|]. intros v [->|Hv]%elem_of_cons _; [by left|].
    right. rewrite Forall_forall in Hx. by apply Hx.
  - intros Hm. destruct (IH Hm) as (Hin & Hf & Hall). split; [by right|]. split; [done|].
    intros v [->|Hv]%elem_of_cons Hfv; [congruence|by apply Hall].
Qed.

Lemma versions_sorted vs : let out := sort_stable (fun a b => sv_Version b <? sv_Version a) vs in
  out ≡ₚ vs /\ StronglySorted (fun a b => sv_Version b <= sv_Version a) out.
Proof.
  pose (cmp := fun a b => sv_Version b - sv_Version a).
  assert (Hext : sort_stable (less cmp) vs = sort_stable (fun a b => sv_Version b <? sv_Version a) vs).
  { apply sort_stable_ext. intros x y. unfold less, cmp. apply eq_bool_prop_intro. rewrite !Is_true_true, !Z.ltb_lt. lia. }
  destruct (sort_stable_spec cmp (fun _ => True)) with (l := vs) as (Hp & Hs & _).
  - intros. unfold cmp. lia.
  - unfold cmp. intros. lia.
  - by apply Forall_true.
  - rewrite Hext in Hp, Hs. split; [done|]. clear Hp Hext. induction Hs as [|x l _ IH Hx]; constructor; [done|].
    eapply Forall_impl; [exact Hx|]. unfold cmp. cbn. intros. lia.
Qed.

Lemma newestMatching_some vs want m : newestMatching vs want = Some m -> newest vs want m.
Proof.
  unfold newestMatching. destruct (versions_sorted vs) as [Hp Hs]. intros Hf.
  destruct (find_sorted _ _ _ _ Hs Hf) as (Hin & Hm & Hall). split; [by rewrite <- Hp|]. split; [by apply fits_true|].
  intros v Hv Hfit. destruct (Hall v) as [->|?]; [by rewrite Hp|by apply fits_true|lia|done].
Qed.

Lemma newestMatching_none vs want : newestMatching vs want = None -> forall v, v ∈ vs -> ~ fits want v.
Proof.
  unfold newestMatching. destruct (versions_sorted vs) as [Hp _]. intros Hf v Hv Hfit%fits_true.
  rewrite <- Hp in Hv. apply list_elem_of_In in Hv. eapply List.find_none in Hf; [|done]. congruence.
Qed.

(** With distinct version numbers the newest is unique, and found. *)
Lemma newestMatching_found vs want m : NoDup (sv_Version <$> vs) -> newest vs want m -> newestMatching vs want = Some m.
Proof.
  intros Hnd (Hin & Hfit & Hmax). destruct (newestMatching vs want) as [m'|] eqn:E.
  - apply newestMatching_some in E as (Hin' & Hfit' & Hmax'). f_equal.
    specialize (Hmax m' Hin' Hfit'). specialize (Hmax' m Hin Hfit).
    assert (Hv : sv_Version m' = sv_Version m) by lia.
    apply list_elem_of_lookup in Hin as [i Hi], Hin' as [j Hj].
    assert (i = j) as -> by (eapply NoDup_lookup; [done|by rewrite list_lookup_fmap, Hi|by rewrite list_lookup_fmap, Hj, <- Hv]).
    congruence.
  - by eapply newestMatching_none in E.
Qed.

Lemma findVersion_some vs n v : findVersion vs n = Some v -> v ∈ vs /\ sv_Version v = n.
Proof.
  induction vs as [|x vs IH]; cbn; [done|]. destruct (Z.eqb_spec (sv_Version x) n); [intros [= <-]; set_solver|].
  intros [? ?]%IH. set_solver.
Qed.

Lemma findVersion_found vs v : NoDup (sv_Version <$> vs) -> v ∈ vs -> findVersion vs (sv_Version v) = Some v.
Proof.
  induction vs as [|x vs IH]; cbn; [set_solver|]. intros [Hx Hnd]%NoDup_cons [->|Hv]%elem_of_cons.
  - by rewrite Z.eqb_refl.
  - destruct (Z.eqb_spec (sv_Version x) (sv_Version v)) as [E|E]; [|by apply IH].
    destruct Hx. rewrite E. by apply list_elem_of_fmap_2.
Qed.

Lemma maxVersion_ge vs v : v ∈ vs -> sv_Version v <= maxVersion vs.
Proof.
  unfold maxVersion. assert (Hg : forall m, m <= fold_left (fun m v => if m <? sv_Version v then sv_Version v else m) vs m
    /\ forall v, v ∈ vs -> sv_Version v <= fold_left (fun m v => if m <? sv_Version v then sv_Version v else m) vs m).
  { induction vs as [|x vs IH]; intros m; cbn; [split; [lia|set_solver]|].
    destruct (IH (if m <? sv_Version x then sv_Version x else m)) as [Hm Hall].
    destruct (Z.ltb_spec m (sv_Version x)); (split; [lia|]); intros u [->|Hu]%elem_of_cons; auto; lia. }
  apply Hg.
Qed.

(** ** The steps after *)

Lemma restore_after_spec order versions done later next next' stale :
  NoDup order -> order = done ++ later -> restore_after order versions later next = (next', stale) ->
  exists restored, later = restored ++ stale
  /\ (forall k, k ∉ restored -> next' !! k = next !! k)
  /\ (forall k, k ∈ restored -> exists m, newest (versions_of versions k) (BasisFor order next' k) m
        /\ next' !! k = Some (mkEntry (sv_Version m) []))
  /\ match stale with
     | [] => True
     | k :: _ => forall v, v ∈ versions_of versions k -> ~ fits (BasisFor order next' k) v
     end.
Proof.
  intros Hnd. revert done next. induction later as [|k later IH]; intros done next Ho; cbn.
  { intros [= <- <-]. exists []. split; [done|]. split; [done|]. split; [set_solver|done]. }
  assert (Hk : k ∉ done) by (subst order; apply NoDup_app in Hnd as (_ & Hd & _); set_solver).
  assert (Hb : before order k = done) by (subst order; by apply before_app).
  destruct (newestMatching (versions_of versions k) (BasisFor order next k)) as [m|] eqn:Em.
  - intros Hr. destruct (IH (done ++ [k]) (<[k := mkEntry (sv_Version m) []]> next)) as (restored & -> & Hsame & Hin & Hst);
      [by rewrite <- app_assoc|done|].
    assert (Hkr : k ∉ restored /\ forall x, x ∈ done -> x ∉ restored).
    { subst order. apply NoDup_app in Hnd as (_ & Hd & [Hn _]%NoDup_cons). split; [set_solver|].
      intros x Hx Hxr. apply (Hd x Hx). set_solver. }
    destruct Hkr as [Hkr Hdr].
    exists (k :: restored). split; [done|]. split; [|split; [|done]].
    + intros x [Hne Hx]%not_elem_of_cons. rewrite Hsame by done. by rewrite lookup_insert_ne.
    + intros x [->|Hx]%elem_of_cons; [|by apply Hin]. exists m. rewrite Hsame, lookup_insert_eq by done. split; [|done].
      apply newestMatching_some in Em. rewrite (BasisFor_ext order next' next); [done|].
      rewrite Hb. intros x Hx. rewrite Hsame by auto. rewrite lookup_insert_ne; [done|]. by intros ->.
  - intros [= <- <-]. exists []. split; [done|]. split; [done|]. split; [set_solver|].
    by apply newestMatching_none.
Qed.

(** ** Going back *)

(** From [keys] on, the head is what the newest matching versions say. *)
Definition coherent (order : list gostring) (versions : gmap gostring (list StepVersion)) (head : Head)
    (keys : list gostring) : Prop :=
  forall k, k ∈ keys -> exists m, newest (versions_of versions k) (BasisFor order head k) m
    /\ head !! k = Some (mkEntry (sv_Version m) []).

Definition distinct_versions (versions : gmap gostring (list StepVersion)) : Prop :=
  forall k, NoDup (sv_Version <$> versions_of versions k).

Lemma restore_after_coherent order versions done later next head :
  NoDup order -> order = done ++ later -> distinct_versions versions -> coherent order versions head later ->
  (forall k, k ∉ later -> next !! k = head !! k) -> restore_after order versions later next = (head, []).
Proof.
  intros Hnd. revert done next. induction later as [|k later IH]; intros done next Ho Hdv Hco Hsame; cbn.
  { f_equal. apply map_eq. intros x. apply Hsame. set_solver. }
  assert (Hk : k ∉ done /\ k ∉ later /\ forall x, x ∈ done -> x ∉ k :: later).
  { subst order. apply NoDup_app in Hnd as (_ & Hd & [Hn _]%NoDup_cons). split; [set_solver|]. split; [done|].
    intros x Hx. by apply Hd. }
  destruct Hk as (Hkd & Hkl & Hdone).
  assert (Hb : before order k = done) by (subst order; by apply before_app).
  destruct (Hco k) as (m & Hm & Hhead); [by left|].
  rewrite (BasisFor_ext order next head) by (rewrite Hb; auto).
  rewrite (newestMatching_found _ _ m) by done.
  apply (IH (done ++ [k])); [by rewrite <- app_assoc|done|intros x Hx; apply Hco; by right|].
  intros x Hx. destruct (decide (x = k)) as [->|Hne]; [by rewrite lookup_insert_eq|].
  rewrite lookup_insert_ne by done. apply Hsame. set_solver.
Qed.

(** Moving to a coherent head's own version answers that head. *)
Lemma MoveHead_coherent_head order versions head head' key i m :
  NoDup order -> indexOfTopLevel order key = Ok i -> distinct_versions versions ->
  m ∈ versions_of versions key -> fits (BasisFor order head key) m ->
  head !! key = Some (mkEntry (sv_Version m) []) -> coherent order versions head (drop (S i) order) ->
  (forall k, k ∉ key :: drop (S i) order -> head' !! k = head !! k) ->
  MoveHead order head' versions key (sv_Version m) = Ok (head, []).
Proof.
  intros Hnd Hi Hdv Hin [Hfin Hbasis] Hhead Hco Hsame. destruct (index_split _ _ _ Hi) as [Ho Hk]. unfold MoveHead. rewrite Hi. cbn.
  rewrite findVersion_found by done. rewrite Hfin. cbn. f_equal.
  assert (Hnt : NoDup (take i order)) by (rewrite Ho in Hnd; by apply NoDup_app in Hnd as (? & _ & _)).
  apply (restore_after_coherent order versions (take i order ++ [key])); [done|by rewrite <- app_assoc|done|done|].
  intros k Hkk. destruct (decide (k = key)) as [->|Hne]; [by rewrite lookup_insert_eq|].
  rewrite lookup_insert_ne, restore_basis_lookup by done.
  rewrite Hbasis, BasisFor_lookup. rewrite (Hsame k) by set_solver.
  case_decide; [|done]. case_decide; [|done]. by destruct (head !! k).
Qed.

(** ** Re-running *)

(** A re-run records a finished version of every step from the key on, computed from
    the new head. *)
Definition rerun_head (plan : RerunPlan) (head : Head) : Head :=
  ((fun n => mkEntry n []) <$> rp_Versions plan) ∪ head.

Definition rerun_versions (order : list gostring) (plan : RerunPlan) (head : Head)
    (versions : gmap gostring (list StepVersion)) : gmap gostring (list StepVersion) :=
  map_imap (fun k n => Some (versions_of versions k
              ++ [mkVersion k n (BasisFor order (rerun_head plan head) k) (go "done")])) (rp_Versions plan) ∪ versions.

Lemma plan_lookup order versions key plan i : NoDup order -> indexOfTopLevel order key = Ok i ->
  PlanRerun order versions key = Ok plan -> forall k,
  rp_Versions plan !! k
  = if decide (k ∈ key :: drop (S i) order) then Some (maxVersion (versions_of versions k) + 1) else None.
Proof.
  intros Hnd Hi. unfold PlanRerun. rewrite Hi. cbn. intros [= <-] k. cbn.
  assert (Hd : drop i order = key :: drop (S i) order).
  { destruct (index_split _ _ _ Hi) as [Ho _]. rewrite Ho at 1. apply drop_app_length'. rewrite length_take.
    apply (f_equal length) in Ho. rewrite length_app, length_take in Ho. cbn in Ho. rewrite length_drop in Ho. lia. }
  rewrite Hd. generalize (key :: drop (S i) order). intros l.
  assert (Hg : forall m : gmap gostring Z, fold_left (fun m k => <[k := maxVersion (versions_of versions k) + 1]> m) l m !! k
    = if decide (k ∈ l) then Some (maxVersion (versions_of versions k) + 1) else m !! k).
  { induction l as [|x l IH]; intros m; cbn; [by rewrite decide_False by set_solver|]. rewrite IH.
    destruct (decide (k = x)) as [->|Hne].
    - rewrite (decide_True (P := x ∈ x :: l)) by by left. case_decide; [done|by rewrite lookup_insert_eq].
    - rewrite lookup_insert_ne by done. destruct (decide (k ∈ l)), (decide (k ∈ x :: l)); set_solver. }
  rewrite Hg, lookup_empty. done.
Qed.

Section Rerun.
Context (order : list gostring) (versions : gmap gostring (list StepVersion)) (head : Head).
Context (key : gostring) (plan : RerunPlan) (i : nat).
Context (Hnd : NoDup order) (Hi : indexOfTopLevel order key = Ok i).
Context (Hplan : PlanRerun order versions key = Ok plan) (Hdv : distinct_versions versions).

Lemma rerun_versions_of k :
  versions_of (rerun_versions order plan head versions) k
  = versions_of versions k ++
    match rp_Versions plan !! k with
    | Some n => [mkVersion k n (BasisFor order (rerun_head plan head) k) (go "done")]
    | None => []
    end.
Proof using Type.
  unfold versions_of at 1, rerun_versions. rewrite lookup_union, map_lookup_imap.
  destruct (rp_Versions plan !! k); cbn -[go]; [by destruct (versions !! k)|]. rewrite app_nil_r.
  unfold versions_of. by destruct (versions !! k).
Qed.

Lemma rerun_head_lookup k :
  rerun_head plan head !! k = match rp_Versions plan !! k with Some n => Some (mkEntry n []) | None => head !! k end.
Proof using Type.
  unfold rerun_head. rewrite lookup_union, lookup_fmap. destruct (rp_Versions plan !! k); cbn; by destruct (head !! k).
Qed.

(** A re-run's version numbers are past every recorded one. *)
Lemma rerun_fresh k n v : rp_Versions plan !! k = Some n -> v ∈ versions_of versions k -> sv_Version v < n.
Proof using Hnd Hi Hplan.
  rewrite (plan_lookup _ _ _ _ _ Hnd Hi Hplan). case_decide; [|done]. intros [= <-] Hv%maxVersion_ge. lia.
Qed.

Lemma rerun_distinct : distinct_versions (rerun_versions order plan head versions).
Proof using Hnd Hi Hplan Hdv.
  intros k. rewrite rerun_versions_of, fmap_app. apply NoDup_app. split; [apply Hdv|].
  destruct (rp_Versions plan !! k) as [n|] eqn:E; cbn; [|split; [set_solver|constructor]].
  split; [|apply NoDup_singleton]. intros x (v & -> & Hv)%list_elem_of_fmap_1 Hx%list_elem_of_singleton.
  pose proof (rerun_fresh k n v E Hv). lia.
Qed.

Lemma rerun_coherent m : m ∈ versions_of versions key -> head !! key = Some (mkEntry (sv_Version m) []) ->
  coherent order versions head (drop (S i) order) ->
  coherent order (rerun_versions order plan head versions) head (drop (S i) order).
Proof using Hnd Hi Hplan Hdv.
  intros Hm Hkey Hco k Hk. destruct (Hco k Hk) as (u & (Hin & Hfit & Hmax) & Hhead). exists u. split; [|done].
  rewrite rerun_versions_of. split; [apply elem_of_app; by left|]. split; [done|].
  intros v [Hv|Hv]%elem_of_app Hfv; [by apply Hmax|]. exfalso.
  destruct (rp_Versions plan !! k) as [n|]; [|set_solver]. apply list_elem_of_singleton in Hv as ->.
  destruct Hfv as [_ Hb]. cbn in Hb. apply (f_equal (fun h : Head => h !! key)) in Hb.
  rewrite !BasisFor_lookup, rerun_head_lookup in Hb.
  assert (Hbk : key ∈ before order k).
  { destruct (index_split _ _ _ Hi) as [Ho Hn]. apply list_elem_of_split in Hk as (d1 & d2 & Hd).
    assert (Hsplit : order = (take i order ++ key :: d1) ++ k :: d2) by (rewrite Ho at 1; rewrite Hd, <- app_assoc; done).
    rewrite Hsplit, before_app; [set_solver|]. rewrite Hsplit in Hnd. apply NoDup_app in Hnd as (_ & Hx & _).
    intros Hkk. apply (Hx k Hkk). by left. }
  rewrite !decide_True in Hb by done.
  destruct (rp_Versions plan !! key) as [nk|] eqn:Ek.
  - rewrite Hkey in Hb. simplify_eq. pose proof (rerun_fresh key (sv_Version m) m Ek Hm). lia.
  - rewrite (plan_lookup _ _ _ _ _ Hnd Hi Hplan), decide_True in Ek by by left. done.
Qed.
End Rerun.

(** ** Idempotency keys *)

Lemma FormatInt_no_colon z : 58 ∉ FormatInt z.
Proof.
  destruct (FormatInt_shape z) as (sg & ds & -> & Hsg & _ & Hd & _). rewrite elem_of_app. intros [Hin|Hin].
  - destruct Hsg as [-> | ->]; set_solver.
  - rewrite Forall_forall in Hd. by apply Hd in Hin.
Qed.

Lemma FormatInt_inj a b : FormatInt a = FormatInt b -> a = b.
Proof.
  destruct (FormatInt_shape a) as (sa & da & -> & Hsa & Hna & Hda & Hva & Hneg).
  destruct (FormatInt_shape b) as (sb & db & -> & Hsb & Hnb & Hdb & Hvb & Hneg').
  assert (Hno : forall ds ds', Forall (fun c => isDigit c = true) ds -> 45 :: ds' <> ds)
    by (intros ds ds' Hd <-; by apply Forall_cons in Hd as [? _]).
  destruct Hsa as [-> | ->], Hsb as [-> | ->]; cbn; intros E.
  - subst db. assert (~ a < 0) by by intros ?%Hneg. assert (~ b < 0) by by intros ?%Hneg'. lia.
  - symmetry in E. by apply Hno in E.
  - by apply Hno in E.
  - injection E as ->. assert (a < 0) by by apply Hneg. assert (b < 0) by by apply Hneg'. lia.
Qed.

Lemma split_last_unique (c : Z) a b x y : c ∉ x -> c ∉ y -> a ++ c :: x = b ++ c :: y -> a = b /\ x = y.
Proof.
  intros Hx Hy. revert b. induction a as [|u a IH]; intros [|v b]; cbn.
  - intros [= ->]. done.
  - intros [= <- ->]. destruct Hx. apply elem_of_app. right. by left.
  - intros [= -> <-]. destruct Hy. apply elem_of_app. right. by left.
  - intros [= -> E]. apply IH in E as [-> ->]. done.
Qed.

(** ** Theorems *)

(** C25: A moved head shows a run that happened: the step is at the version asked for,
    the steps before it are at the versions that one was computed from, every later
    step not reported stale is at its newest finished version computed from exactly
    that upstream, the stale steps are a suffix whose first has no such version, and
    they are left as they were. *)
Theorem MoveHead_shows_a_run order head versions key version next stale :
  NoDup order -> MoveHead order head versions key version = Ok (next, stale) ->
  exists earlier restored target,
    order = earlier ++ key :: restored ++ stale
    /\ target ∈ versions_of versions key /\ sv_Version target = version /\ finished target = true
    /\ next !! key = Some (mkEntry version [])
    /\ (forall k, k ∈ earlier -> next !! k = match sv_Basis target !! k with Some e => Some e | None => head !! k end)
    /\ (forall k, k ∈ restored -> exists m, newest (versions_of versions k) (BasisFor order next k) m
          /\ next !! k = Some (mkEntry (sv_Version m) []))
    /\ (forall k, k ∈ stale -> next !! k = head !! k)
    /\ match stale with
       | [] => True
       | k :: _ => forall v, v ∈ versions_of versions k -> ~ fits (BasisFor order next k) v
       end.
Proof.
  intros Hnd. unfold MoveHead. destruct (indexOfTopLevel order key) as [i|] eqn:Hi; [|done]. cbn.
  destruct (index_split _ _ _ Hi) as [Ho Hk].
  destruct (findVersion (versions_of versions key) version) as [target|] eqn:Ef; [|done].
  apply findVersion_some in Ef as [Hin Hv]. destruct (finished target) eqn:Hfin; [|done]. cbn. intros [= Hr].
  apply (restore_after_spec order versions (take i order ++ [key])) in Hr
    as (restored & Hd & Hsame & Hin' & Hst); [|done|by rewrite <- app_assoc].
  assert (Hall : NoDup (take i order ++ key :: restored ++ stale)) by by rewrite <- Hd, <- Ho.
  apply NoDup_app in Hall as (Hnt & Hearly & [Hkey [_ [Hrs _]]%NoDup_app]%NoDup_cons).
  exists (take i order), restored, target. split; [by rewrite <- Hd|]. do 3 (split; [done|]).
  split; [rewrite Hsame by set_solver; by rewrite lookup_insert_eq|].
  split; [|split; [done|split; [|done]]].
  - intros k Hkk. specialize (Hearly k Hkk). rewrite Hsame by set_solver.
    rewrite lookup_insert_ne by set_solver. by rewrite restore_basis_lookup, decide_True.
  - intros k Hkk. rewrite Hsame by (intros Hx; by apply (Hrs k Hx)). rewrite lookup_insert_ne by set_solver.
    rewrite restore_basis_lookup by done. rewrite decide_False; [done|]. intros Hx. apply (Hearly k Hx). set_solver.
Qed.


(** A re-run never repeats a side effect's key: the version numbers a re-run plans
    are past every recorded one, so within the run the idempotency key of a planned
    version differs from that of every recorded version of every step. *)
Theorem rerun_keys_fresh order versions key plan runId k n k' v :
  NoDup order -> PlanRerun order versions key = Ok plan ->
  rp_Versions plan !! k = Some n -> v ∈ versions_of versions k' ->
  IdempotencyKey runId k n <> IdempotencyKey runId k' (sv_Version v).
Proof.
  intros Hnd Hplan Hn Hv. destruct (indexOfTopLevel order key) as [i|] eqn:Hi;
    [|unfold PlanRerun in Hplan; by rewrite Hi in Hplan].
  unfold IdempotencyKey. intros E. apply app_inv_head in E. injection E as E.
  apply split_last_unique in E as [-> E%FormatInt_inj]; [|apply FormatInt_no_colon..].
  pose proof (rerun_fresh _ _ _ _ _ Hnd Hi Hplan _ _ _ Hn Hv). lia.
Qed.

(** A run of two steps, each with one finished version. *)
Definition sample_order : list gostring := [go "a"; go "b"].

Definition sample_versions : gmap gostring (list StepVersion) :=
  {[ go "a" := [mkVersion (go "a") 1 ∅ (go "done")];
     go "b" := [mkVersion (go "b") 1 (BasisFor sample_order {[ go "a" := mkEntry 1 [] ]} (go "b")) (go "skipped")] ]}.

Definition sample_head : Head := {[ go "a" := mkEntry 1 []; go "b" := mkEntry 1 [] ]}.

Lemma sample_distinct : distinct_versions sample_versions.
Proof.
  intros k. unfold versions_of. destruct (sample_versions !! k) as [vs|] eqn:E; [|constructor].
  unfold sample_versions in E. apply lookup_insert_Some in E as [[_ <-]|[_ [_ <-]%lookup_singleton_Some]]; apply NoDup_singleton.
Qed.

Lemma MoveHead_shows_a_run_witness : exists earlier restored target,
  sample_order = earlier ++ go "a" :: restored ++ []
  /\ target ∈ versions_of sample_versions (go "a") /\ sv_Version target = 1.
Proof.
  destruct (MoveHead_shows_a_run sample_order sample_head sample_versions (go "a") 1 sample_head [])
    as (earlier & restored & target & Ho & Ht & Hv & _);
    [by apply (bool_decide_unpack _); vm_compute|by vm_compute|]. by exists earlier, restored, target.
Defined.

Definition sample_plan : RerunPlan :=
  match PlanRerun sample_order sample_versions (go "a") with Ok p => p | Err _ => mkPlan [] ∅ [] end.

Lemma sample_nodup : NoDup sample_order.
Proof. by apply (bool_decide_unpack _); vm_compute. Qed.

Lemma sample_coherent : coherent sample_order sample_versions sample_head [go "b"].
Proof.
  intros k ->%list_elem_of_singleton.
  exists (mkVersion (go "b") 1 (BasisFor sample_order {[ go "a" := mkEntry 1 [] ]} (go "b")) (go "skipped")).
  split; [|by vm_compute]. apply newestMatching_some. by vm_compute.
Qed.


Lemma rerun_keys_fresh_witness : IdempotencyKey (go "run1") (go "b") 2 <> IdempotencyKey (go "run1") (go "a") 1.
Proof.
  apply (rerun_keys_fresh sample_order sample_versions (go "a") sample_plan (go "run1") (go "b") 2 (go "a")
           (mkVersion (go "a") 1 ∅ (go "done")));
    [apply sample_nodup|by vm_compute|by vm_compute|by left].
Defined.
