(* ===== verification/Budgets.v ===== *)
(** A run's ceilings and what it does about a failure: component/work/budget.go, the
    acts of symptom.go and the terminal failures of terminal.go.

    Token counts, call counts and times are 64-bit integers whose sums wrap; costs
    are float64.  A breach carries the numbers its text names.  The table that
    recognises a symptom in an error's text is not modelled: a symptom is given. *)

From S2P Require Import Prelude GoText Strconv Numbers ExprNumbers Times.

(** ** Spending *)

Inductive served_by : Type :=
| ByLive | ByJournal | ByLocal | BySubscription | ByCache | ByOther (s : gostring).

Record CallSpend := mkCall { cs_Served : served_by; cs_InputTokens : Z; cs_OutputTokens : Z; cs_Cost : float64 }.

Record Ceilings := mkCeilings {
  TokenBudget : Z;
  CostCeiling : float64;
  WallClockMs : Z;
  MaxRetries : Z;
  MaxModelCalls : Z;
  MaxEvents : Z
}.

Record Spent := mkSpent {
  sp_Tokens : Z;
  sp_TokensSubscription : Z;
  sp_TokensLocal : Z;
  sp_Cost : float64;
  sp_ModelCalls : Z;
  sp_Retries : Z;
  sp_Events : Z;
  sp_WallClockMs : Z
}.

Definition AddCall (s : Spent) (c : CallSpend) : Spent :=
  let tokens := wrap64 (cs_InputTokens c + cs_OutputTokens c) in
  let calls := wrap64 (sp_ModelCalls s + 1) in
  let spent metered subscription local cost :=
    mkSpent metered subscription local cost calls (sp_Retries s) (sp_Events s) (sp_WallClockMs s) in
  match cs_Served c with
  | ByLocal => spent (sp_Tokens s) (sp_TokensSubscription s) (wrap64 (sp_TokensLocal s + tokens)) (sp_Cost s)
  | BySubscription => spent (sp_Tokens s) (wrap64 (sp_TokensSubscription s + tokens)) (sp_TokensLocal s) (sp_Cost s)
  | ByJournal | ByCache => spent (sp_Tokens s) (sp_TokensSubscription s) (sp_TokensLocal s) (sp_Cost s)
  | ByLive | ByOther _ =>
      spent (wrap64 (sp_Tokens s + tokens)) (sp_TokensSubscription s) (sp_TokensLocal s)
        (f64_add (sp_Cost s) (cs_Cost c))
  end.

Definition DefaultMaxRetries : Z := 3.

Definition RetryBudget (c : Ceilings) : Z := if 0 <? MaxRetries c then MaxRetries c else DefaultMaxRetries.

(** ** CheckCeilings *)

Inductive CeilingBreach : Type :=
| CeilingTokens (limit spent estimated : Z)
| CeilingCost (limit actual : float64)
| CeilingModelCalls (limit made : Z)
| CeilingRetries (limit used : Z)
| CeilingEvents (limit emitted : Z)
| CeilingWallClock (limit actual : Z)
| CeilingUnevaluated (why : gostring).

Definition UnevaluatedBreach (why : gostring) : CeilingBreach := CeilingUnevaluated why.

Definition CheckCeilings (c : Ceilings) (s : Spent) (estimatedTokens : Z) : option CeilingBreach :=
  if (0 <? TokenBudget c) && (TokenBudget c <? wrap64 (sp_Tokens s + estimatedTokens))
  then Some (CeilingTokens (TokenBudget c) (sp_Tokens s) estimatedTokens)
  else if f64_ltb f64_zero (CostCeiling c) && f64_leb (CostCeiling c) (sp_Cost s)
  then Some (CeilingCost (CostCeiling c) (sp_Cost s))
  else if (0 <? MaxModelCalls c) && (MaxModelCalls c <=? sp_ModelCalls s)
  then Some (CeilingModelCalls (MaxModelCalls c) (sp_ModelCalls s))
  else if (0 <? MaxRetries c) && (MaxRetries c <=? sp_Retries s)
  then Some (CeilingRetries (MaxRetries c) (sp_Retries s))
  else if (0 <? MaxEvents c) && (MaxEvents c <=? sp_Events s)
  then Some (CeilingEvents (MaxEvents c) (sp_Events s))
  else if (0 <? WallClockMs c) && (WallClockMs c <=? sp_WallClockMs s)
  then Some (CeilingWallClock (WallClockMs c) (sp_WallClockMs s))
  else None.

(** ** Deadlines and workloads *)

Inductive deadline_error : Type := NoRunStart | WallClockTooLarge.

(** RunDeadline; [None] is the zero time, of the start and of the answer. *)
Definition RunDeadline (start : option Z) (wallClockMs : Z) : result deadline_error (option Z) :=
  if wallClockMs <=? 0 then Ok None
  else match start with
       | None => Err NoRunStart
       | Some t =>
           if Z.quot int64_max 1000000 <? wallClockMs then Err WallClockTooLarge
           else Ok (Some (t + wrap64 (wallClockMs * 1000000)))
       end.

(** The wall clock, calls and retries a class of work is given. *)
Definition workload_limits (workload : gostring) : option (Z * Z * Z) :=
  if workload =s go "lookup" then Some (600000, 12, 1)
  else if workload =s go "quick" then Some (600000, 3, 1)
  else if workload =s go "research" then Some (2700000, 48, 2)
  else if workload =s go "project" then Some (7200000, 96, 2)
  else None.

Definition tighten (declared limit : Z) : Z :=
  if (declared =? 0) || (limit <? declared) then limit else declared.

Definition EffectiveWorkloadCeilings (c : Ceilings) (workload : gostring) : Ceilings :=
  match workload_limits workload with
  | None => c
  | Some (wall, calls, retries) =>
      mkCeilings (TokenBudget c) (CostCeiling c) (tighten (WallClockMs c) wall) (tighten (MaxRetries c) retries)
        (tighten (MaxModelCalls c) calls) (MaxEvents c)
  end.

(** ** symptom.go: acts *)

Inductive Symptom : Type :=
| SymptomNone | SymptomTransient | SymptomEnvironment | SymptomContract | SymptomPlan | SymptomHuman
| SymptomOther (s : gostring).

#[export] Instance Symptom_eq_dec : EqDecision Symptom.
Proof. solve_decision. Defined.

Definition AllSymptoms : list Symptom :=
  [SymptomNone; SymptomTransient; SymptomEnvironment; SymptomContract; SymptomPlan; SymptomHuman].

(** Symptom.Valid *)
Definition Valid (s : Symptom) : bool := existsb (fun k => bool_decide (k = s)) AllSymptoms.

Inductive Act : Type := ActRetry | ActHeal | ActRepair | ActReplan | ActAsk.

Definition ActFor (sym : Symptom) (retriesSpent maxRetries : Z) : Act :=
  let again := retriesSpent <? maxRetries in
  match sym with
  | SymptomTransient => if again then ActRetry else ActAsk
  | SymptomEnvironment => ActHeal
  | SymptomContract => if again then ActRepair else ActAsk
  | SymptomPlan => if again then ActReplan else ActAsk
  | SymptomNone | SymptomHuman | SymptomOther _ => ActAsk
  end.

Definition SpendsRetry (a : Act) : bool :=
  match a with ActRetry | ActRepair | ActReplan => true | ActHeal | ActAsk => false end.

Definition ActsAgain (sym : Symptom) : bool := SpendsRetry (ActFor sym 0 1).

Inductive approval_kind : Type := ApprovalKindPlanReview | ApprovalKindFeedback.

Definition ApprovalKindFor (a : Act) : option approval_kind :=
  match a with
  | ActHeal => Some ApprovalKindPlanReview
  | ActAsk => Some ApprovalKindFeedback
  | ActRetry | ActRepair | ActReplan => None
  end.

(** ** terminal.go *)

Definition terminalFailureCodes : list gostring :=
  [go "loop_depth_exceeded"; go "composition_failed"; go "self_timeout"].

Definition selfImposedClockMarkers : list gostring := [go "turn wallclock timeout"].

Definition TerminalFailureCode `{UnicodeTables} (errorMessage : gostring) : option gostring :=
  let msg := ToLower errorMessage in
  if msg =s [] then None
  else match List.find (Contains msg) terminalFailureCodes with
       | Some code => Some code
       | None => if existsb (Contains msg) selfImposedClockMarkers then Some (go "self_timeout") else None
       end.

(** ** A run under its ceilings *)

(** The calls of a run: each is checked with its estimate first, and the run is parked
    at the first breach. *)
Fixpoint metered (c : Ceilings) (s : Spent) (calls : list (Z * CallSpend)) : Spent * option CeilingBreach :=
  match calls with
  | [] => (s, None)
  | (estimate, call) :: calls' =>
      match CheckCeilings c s estimate with
      | Some b => (s, Some b)
      | None => metered c (AddCall s call) calls'
      end
  end.

(** The failures of a run: an act that runs the work again spends a retry, any other
    ends the attempts.  The answer counts the attempts made. *)
Fixpoint attempts (maxRetries spent : Z) (failures : list Symptom) : Z * option Act :=
  match failures with
  | [] => (spent, None)
  | sym :: failures' =>
      let a := ActFor sym spent maxRetries in
      if SpendsRetry a then attempts maxRetries (spent + 1) failures' else (spent, Some a)
  end.

(** ** Lemmas *)

Definition limit_ok (limit n : Z) : Prop := 0 < limit -> n <= limit.

Definition small (z : Z) : Prop := 0 <= z < 2 ^ 61.

Lemma wrap64_small a b : small a -> small b -> wrap64 (a + b) = a + b.
Proof. intros Ha Hb. apply wrap64_id, in_int64_range. unfold small in *. lia. Qed.

(** A call used no more tokens than were estimated for it, and the numbers are far
    from the width of an integer. *)
Definition estimated (ec : Z * CallSpend) : Prop :=
  small ec.1 /\ small (cs_InputTokens ec.2) /\ small (cs_OutputTokens ec.2)
  /\ cs_InputTokens ec.2 + cs_OutputTokens ec.2 <= ec.1.

Lemma AddCall_calls s c : small (sp_ModelCalls s) -> sp_ModelCalls (AddCall s c) = sp_ModelCalls s + 1.
Proof.
  intros Hs. assert (wrap64 (sp_ModelCalls s + 1) = sp_ModelCalls s + 1) by (apply wrap64_small; [done|unfold small; lia]).
  unfold AddCall. by destruct (cs_Served c).
Qed.

(** What the caller pays for: an answer of a provider. *)
Definition billed (c : CallSpend) : bool :=
  match cs_Served c with ByLive | ByOther _ => true | _ => false end.

Lemma AddCall_tokens s c : small (sp_Tokens s) -> small (cs_InputTokens c) -> small (cs_OutputTokens c) ->
  sp_Tokens (AddCall s c)
  = if billed c then sp_Tokens s + cs_InputTokens c + cs_OutputTokens c else sp_Tokens s.
Proof.
  intros Hs Hi Ho. unfold AddCall, billed. rewrite (wrap64_small (cs_InputTokens c)) by done.
  assert (wrap64 (sp_Tokens s + (cs_InputTokens c + cs_OutputTokens c)) = sp_Tokens s + cs_InputTokens c + cs_OutputTokens c).
  { rewrite Z.add_assoc. apply wrap64_id, in_int64_range. unfold small in *. lia. }
  by destruct (cs_Served c).
Qed.

Lemma CheckCeilings_none c s n : CheckCeilings c s n = None ->
  (0 < TokenBudget c -> wrap64 (sp_Tokens s + n) <= TokenBudget c)
  /\ (0 < MaxModelCalls c -> sp_ModelCalls s < MaxModelCalls c)
  /\ (0 < MaxRetries c -> sp_Retries s < MaxRetries c).
Proof.
  unfold CheckCeilings. intros H. repeat match type of H with (if ?b then _ else _) = _ => destruct b eqn:?; [done|] end.
  repeat match goal with E : (_ && _) = false |- _ => apply andb_false_iff in E end. bprop.
  rewrite ?Z.ltb_ge, ?Z.leb_gt in *. lia.
Qed.

Lemma RunDeadline_exact t ms : 0 < ms <= Z.quot int64_max 1000000 -> RunDeadline (Some t) ms = Ok (Some (t + ms * 1000000)).
Proof.
  intros Hms. unfold RunDeadline. destruct (Z.leb_spec ms 0); [lia|]. destruct (Z.ltb_spec (Z.quot int64_max 1000000) ms); [lia|].
  rewrite wrap64_id; [done|]. apply in_int64_range.
  assert (Hq : Z.quot int64_max 1000000 = 9223372036854) by done. rewrite Hq in Hms. lia.
Qed.

Lemma tighten_tight declared limit : 0 <= declared -> 0 < limit ->
  0 < tighten declared limit <= limit /\ (0 < declared -> tighten declared limit <= declared).
Proof.
  intros Hd Hl. unfold tighten. destruct (Z.eqb_spec declared 0), (Z.ltb_spec limit declared); cbn; lia.
Qed.

Lemma metered_tokens c s calls : 0 < TokenBudget c < 2 ^ 61 -> Forall estimated calls ->
  0 <= sp_Tokens s <= TokenBudget c -> 0 <= sp_Tokens (metered c s calls).1 <= TokenBudget c.
Proof.
  intros Hb Hall. revert s. induction Hall as [|[est call] calls (He & Hi & Ho & Hle) Hall IH]; intros s Hs; [done|].
  cbn [metered]. destruct (CheckCeilings c s est) eqn:Ec; [done|]. apply CheckCeilings_none in Ec as (Ht & _). cbn [fst snd] in *.
  assert (Hsm : small (sp_Tokens s)) by (unfold small; lia). rewrite wrap64_small in Ht by done.
  apply IH. rewrite AddCall_tokens by done. unfold small in *. destruct (billed call); lia.
Qed.

Lemma metered_calls c s calls : 0 < MaxModelCalls c < 2 ^ 61 ->
  0 <= sp_ModelCalls s <= MaxModelCalls c -> 0 <= sp_ModelCalls (metered c s calls).1 <= MaxModelCalls c.
Proof.
  intros Hb. revert s. induction calls as [|[est call] calls IH]; intros s Hs; [done|].
  cbn [metered]. destruct (CheckCeilings c s est) eqn:Ec; [done|]. apply CheckCeilings_none in Ec as (_ & Hc & _).
  apply IH. rewrite AddCall_calls by (unfold small; lia). lia.
Qed.

(** ** Theorems *)


Lemma attempts_spec maxRetries spent failures : spent <= maxRetries ->
  let '(n, last) := attempts maxRetries spent failures in
  spent <= n <= maxRetries
  /\ match last with
     | None => n = spent + Z.of_nat (length failures)
     | Some a => SpendsRetry a = false /\ ApprovalKindFor a <> None
     end.
Proof.
  revert spent. induction failures as [|sym failures IH]; intros spent Hs; cbn; [lia|].
  destruct (SpendsRetry (ActFor sym spent maxRetries)) eqn:E.
  - assert (spent < maxRetries).
    { unfold ActFor in E. destruct sym; try done; destruct (Z.ltb_spec spent maxRetries); done. }
    specialize (IH (spent + 1)). destruct (attempts maxRetries (spent + 1) failures) as [n last].
    destruct IH as [Hn Hl]; [lia|]. split; [lia|]. destruct last; [done|]. lia.
  - split; [lia|]. split; [done|]. by destruct (ActFor sym spent maxRetries).
Qed.


(** The act and the ceiling agree on the boundary: work runs again exactly while the
    retries ceiling is not reached. *)
Lemma acts_agree_with_ceiling sym c s : ActsAgain sym = true -> 0 < MaxRetries c ->
  SpendsRetry (ActFor sym (sp_Retries s) (MaxRetries c)) = (sp_Retries s <? MaxRetries c).
Proof. intros Ha _. destruct sym; try done; cbn; by destruct (sp_Retries s <? MaxRetries c). Qed.

(** Classified work is bounded and no declared limit is relaxed. *)
Lemma workload_tightens c w wall calls retries : workload_limits w = Some (wall, calls, retries) ->
  0 <= WallClockMs c -> 0 <= MaxModelCalls c -> 0 <= MaxRetries c ->
  let e := EffectiveWorkloadCeilings c w in
  0 < WallClockMs e <= wall /\ 0 < MaxModelCalls e <= calls /\ 0 < MaxRetries e <= retries
  /\ (0 < WallClockMs c -> WallClockMs e <= WallClockMs c)
  /\ (0 < MaxModelCalls c -> MaxModelCalls e <= MaxModelCalls c)
  /\ (0 < MaxRetries c -> MaxRetries e <= MaxRetries c).
Proof.
  intros Hw H1 H2 H3. unfold EffectiveWorkloadCeilings. rewrite Hw.
  assert (Hpos : 0 < wall /\ 0 < calls /\ 0 < retries).
  { unfold workload_limits in Hw. repeat case_match; simplify_eq; lia. }
  cbn. pose proof (tighten_tight (WallClockMs c) wall). pose proof (tighten_tight (MaxModelCalls c) calls).
  pose proof (tighten_tight (MaxRetries c) retries). lia.
Qed.
