(* ===== verification/Compare.v ===== *)
(** How a replayed step is judged: component/work/compare.go.

    An observation is what one execution of a step reported, an expectation what the
    recordings of the step agreed on; a comparison answers every reason they differ.
    A reason is a constructor of [mismatch] with the values its text names.
    InferTextType and the JSON decoder under it are left out. *)

From Stdlib Require Import Sorting.Sorted.
From S2P Require Import Prelude GoText GoSort.

(** ** path.Clean *)

(** The elements kept so far, last first. *)
Definition clean_step (rooted : bool) (kept : list gostring) (part : gostring) : list gostring :=
  if (part =s []) || (part =s go ".") then kept
  else if part =s go ".." then
    match kept with
    | [] => if rooted then [] else [part]
    | top :: kept' => if top =s go ".." then part :: kept else kept'
    end
  else part :: kept.

Definition path_Clean (p : gostring) : gostring :=
  let rooted := HasPrefix p [47] in
  let parts := reverse (fold_left (clean_step rooted) (Split p 47) []) in
  if rooted then [47] ++ Join parts [47]
  else match parts with [] => go "." | _ => Join parts [47] end.

(** ** Observations and expectations *)

Record ContentDigest := mkContent { cd_Op : gostring; cd_Path : gostring; cd_Digest : gostring }.

Definition opWrite : gostring := go "write".

Record StepObservation := mkObservation {
  o_IsError : option bool;
  o_ExitCode : option Z;
  o_ResultType : gostring;
  o_Contents : list ContentDigest
}.

Record StepExpectation := mkExpectation {
  x_NoError : bool;
  x_Error : bool;
  x_ExitCode : option Z;
  x_ResultType : gostring;
  x_Contents : list ContentDigest;
  x_MinWrites : Z;
  x_Exact : bool
}.

Definition holdsNothing (e : StepExpectation) : bool :=
  negb (x_NoError e) && negb (x_Error e) && bool_decide (x_ExitCode e = None) && (x_ResultType e =s [])
  && (match x_Contents e with [] => true | _ => false end) && (x_MinWrites e <=? 0).

Section Work.
Context `{UnicodeTables}.

Definition cleanContentPath (p : gostring) : gostring := if TrimSpace p =s [] then [] else path_Clean p.

Definition normalizeDigest (d : gostring) : gostring := TrimPrefix (ToLower (TrimSpace d)) (go "sha256:").

(** The op and the path. *)
Abbreviation contentKey := (gostring * gostring)%type.

Abbreviation content_index := (gmap (gostring * gostring) gostring).

Definition index_content (out : content_index) (c : ContentDigest) : content_index :=
  let k := (cd_Op c, cleanContentPath (cd_Path c)) in
  let d := normalizeDigest (cd_Digest c) in
  <[k := match out !! k with Some prev => if d =s [] then prev else d | None => d end]> out.

Definition contentIndex (cs : list ContentDigest) : content_index := fold_left index_content cs ∅.

Definition content_less (a b : contentKey) : bool :=
  if negb (a.2 =s b.2) then str_ltb a.2 b.2 else str_ltb a.1 b.1.

Definition sortedContentKeys (idx : content_index) : list contentKey :=
  sort_stable content_less ((map_to_list idx).*1).

Definition is_write (k : contentKey) : bool := k.1 =s opWrite.

Definition writeCount (idx : content_index) : Z := Z.of_nat (length (List.filter is_write ((map_to_list idx).*1))).

(** ** ExpectationFrom *)

(** The value every reporter gave, the number of reporters, and whether they agreed. *)
Definition agreement {A} `{EqDecision A} (reports : list (option A)) : option A * Z * bool :=
  fold_left (fun st r =>
    let '(first, carried, agreed) := st in
    match r with
    | None => st
    | Some v =>
        match first with
        | None => (Some v, carried + 1, agreed)
        | Some w => (first, carried + 1, agreed && bool_decide (v = w))
        end
    end) reports (None, 0, true).

Definition reported_type (t : gostring) : option gostring := if t =s [] then None else Some t.

(** One file of the first recording against the others: whether it is in all, and
    the digest where they have the same bytes. *)
Fixpoint in_every (k : contentKey) (digest : gostring) (others : list content_index) (same : bool) : option bool :=
  match others with
  | [] => Some same
  | idx :: others' =>
      match idx !! k with
      | None => None
      | Some d => in_every k digest others' (same && (d =s digest))
      end
  end.

Fixpoint agreed_contents (keys : list contentKey) (first : content_index) (others : list content_index)
    (exact : bool) : list ContentDigest * bool :=
  match keys with
  | [] => ([], exact)
  | k :: keys' =>
      let digest := match first !! k with Some d => d | None => [] end in
      match in_every k digest others true with
      | None => agreed_contents keys' first others false
      | Some same =>
          let '(cs, ex) := agreed_contents keys' first others (exact && same) in
          (mkContent k.1 k.2 (if same then digest else []) :: cs, ex)
      end
  end.

(** The fewest writes of one recording, and whether any differs from the agreed. *)
Definition write_floor (agreedWrites : Z) (indexes : list content_index) : Z * bool :=
  fold_left (fun st idx =>
    let n := writeCount idx in
    (if (st.1 <? 0) || (n <? st.1) then n else st.1, st.2 || negb (n =? agreedWrites))) indexes (-1, false).

Definition count_true (l : list bool) : Z := Z.of_nat (length (List.filter id l)).

Definition ExpectationFrom (recordings : list StepObservation) : StepExpectation :=
  match contentIndex ∘ o_Contents <$> recordings with
  | [] => mkExpectation false false None [] [] 0 false
  | first :: others =>
      let n := Z.of_nat (length recordings) in
      let flags := omap o_IsError recordings in
      let carried := Z.of_nat (length flags) in
      let errored := count_true flags in
      let exact1 := negb (negb (carried =? 0)
                          && (negb (carried =? n) || (negb (errored =? 0) && negb (errored =? n)))) in
      let '(code, codes, code_ok) := agreement (o_ExitCode <$> recordings) in
      let exact2 := exact1 && negb (negb (codes =? 0) && (negb (codes =? n) || negb code_ok)) in
      let '(typ, types, type_ok) := agreement ((fun r => reported_type (o_ResultType r)) <$> recordings) in
      let exact3 := exact2 && negb (negb (types =? 0) && (negb (types =? n) || negb type_ok)) in
      let exact4 := exact3 && forallb (fun idx =>
                      forallb (fun k => bool_decide (is_Some (first !! k))) ((map_to_list idx).*1)) others in
      let '(contents, exact5) := agreed_contents (sortedContentKeys first) first others exact4 in
      let agreedWrites := Z.of_nat (length (List.filter (fun c => cd_Op c =s opWrite) contents)) in
      let '(fewest, varied) := write_floor agreedWrites (first :: others) in
      mkExpectation ((carried =? n) && (errored =? 0)) ((carried =? n) && (errored =? n))
        (if (codes =? n) && code_ok then code else None)
        (if (types =? n) && type_ok then match typ with Some t => t | None => [] end else [])
        contents (if varied then fewest else 0) exact5
  end.

(** ** Comparing *)

Inductive reference : Type := everyRecording | theApp.

Inductive mismatch : Type :=
| UnverifiableStep
| ErrorNotReported | ErrorWhereNone (who : reference) | NoErrorWhereOne (who : reference)
| ExitNotReported | ExitDiffers (got want : Z) (who : reference)
| TypeNotReported | TypeDiffers (got want : gostring) (who : reference)
| FileMissing (k : gostring * gostring) (who : reference) | DigestNotReported (k : gostring * gostring)
| DigestDiffers (k : gostring * gostring) (got want : gostring) (who : reference)
| FileExtra (k : gostring * gostring) (who : reference)
| TooFewWrites (n floor : Z).

Definition compareErrorFlag (want got : option bool) (who : reference) : list mismatch :=
  match want, got with
  | None, _ => []
  | Some _, None => [ErrorNotReported]
  | Some false, Some true => [ErrorWhereNone who]
  | Some true, Some false => [NoErrorWhereOne who]
  | Some true, Some true | Some false, Some false => []
  end.

Definition compareAgreedErrorFlag (exp : StepExpectation) (got : option bool) : list mismatch :=
  (if x_NoError exp then compareErrorFlag (Some false) got everyRecording else [])
  ++ (if x_Error exp then compareErrorFlag (Some true) got everyRecording else []).

Definition compareExitCode (want got : option Z) (who : reference) : list mismatch :=
  match want, got with
  | None, _ => []
  | Some _, None => [ExitNotReported]
  | Some w, Some g => if g =? w then [] else [ExitDiffers g w who]
  end.

Definition compareResultType (want got : gostring) (who : reference) : list mismatch :=
  if want =s [] then []
  else if got =s [] then [TypeNotReported]
  else if got =s want then [] else [TypeDiffers got want who].

Definition compare_file (digestFor : contentKey -> gostring -> gostring) (refIdx gotIdx : content_index)
    (who : reference) (k : contentKey) : list mismatch :=
  match gotIdx !! k with
  | None => [FileMissing k who]
  | Some d =>
      let want := digestFor k (match refIdx !! k with Some r => r | None => [] end) in
      if want =s [] then []
      else if d =s [] then [DigestNotReported k]
      else if d =s want then [] else [DigestDiffers k d want who]
  end.

Definition compareContents (ref got : list ContentDigest) (digestFor : contentKey -> gostring -> gostring)
    (strict : bool) (who : reference) : list mismatch :=
  let refIdx := contentIndex ref in
  let gotIdx := contentIndex got in
  concat (compare_file digestFor refIdx gotIdx who <$> sortedContentKeys refIdx)
  ++ (if strict then
        concat ((fun k => match refIdx !! k with Some _ => [] | None => [FileExtra k who] end)
                <$> sortedContentKeys gotIdx)
      else []).

Definition compareRecordedContents (exp : StepExpectation) (got : list ContentDigest) : list mismatch :=
  compareContents (x_Contents exp) got (fun _ recorded => recorded) (x_Exact exp) everyRecording.

Definition compareWriteFloor (floor : Z) (got : list ContentDigest) : list mismatch :=
  if floor <=? 0 then []
  else let n := writeCount (contentIndex got) in if n <? floor then [TooFewWrites n floor] else [].

(** The reasons; none is a match. *)
Definition Compare (exp : StepExpectation) (got : StepObservation) : list mismatch :=
  if holdsNothing exp then [UnverifiableStep]
  else compareAgreedErrorFlag exp (o_IsError got)
       ++ compareExitCode (x_ExitCode exp) (o_ExitCode got) everyRecording
       ++ compareResultType (x_ResultType exp) (o_ResultType got) everyRecording
       ++ compareRecordedContents exp (o_Contents got)
       ++ compareWriteFloor (x_MinWrites exp) (o_Contents got).

(** The bytes of a file of the app a replay is held to. *)
Definition shadow_digest (exp : StepExpectation) (recorded : content_index) (k : contentKey) (appDigest : gostring) : gostring :=
  let agreedDigest := match recorded !! k with Some d => d | None => [] end in
  if negb (x_Exact exp) && (agreedDigest =s []) then []
  else if negb (appDigest =s []) then appDigest else agreedDigest.

Definition CompareShadow (exp : StepExpectation) (app replay : StepObservation) : list mismatch :=
  if holdsNothing exp then [UnverifiableStep]
  else (match o_IsError app with
        | Some _ => compareErrorFlag (o_IsError app) (o_IsError replay) theApp
        | None => compareAgreedErrorFlag exp (o_IsError replay)
        end)
       ++ (match o_ExitCode app with
           | Some _ => compareExitCode (o_ExitCode app) (o_ExitCode replay) theApp
           | None => compareExitCode (x_ExitCode exp) (o_ExitCode replay) everyRecording
           end)
       ++ (if negb (o_ResultType app =s []) then compareResultType (o_ResultType app) (o_ResultType replay) theApp
           else compareResultType (x_ResultType exp) (o_ResultType replay) everyRecording)
       ++ (match o_Contents app with
           | [] => compareRecordedContents exp (o_Contents replay)
           | _ => compareContents (o_Contents app) (o_Contents replay)
                    (shadow_digest exp (contentIndex (x_Contents exp))) (x_Exact exp) theApp
           end)
       ++ compareWriteFloor (x_MinWrites exp) (o_Contents replay).
End Work.
