(* ===== verification/CompareFacts.v ===== *)
(** What a comparison of a replayed step certifies. *)

From Stdlib Require Import Sorting.Sorted.
From S2P Require Import Prelude GoText GoSort Compare.

Lemma concat_nil {A B} (f : A -> list B) l : concat (f <$> l) = [] <-> forall x, x ∈ l -> f x = [].
Proof.
  induction l as [|x l IH]; cbn; [set_solver|]. rewrite app_nil, IH. split.
  - intros [Hx Hl] y [->|Hy]%elem_of_cons; auto.
  - intros Hall. split; [apply Hall; by left|]. intros y Hy. apply Hall. by right.
Qed.

Section Facts.
Context `{UnicodeTables}.

Lemma sortedContentKeys_elem idx k : k ∈ sortedContentKeys idx <-> is_Some (idx !! k).
Proof.
  unfold sortedContentKeys. rewrite sort_stable_perm, list_elem_of_fmap. split.
  - intros ([k' d] & -> & Hk). apply elem_of_map_to_list in Hk. by exists d.
  - intros [d Hd]. exists (k, d). split; [done|]. by apply elem_of_map_to_list.
Qed.

Lemma map_keys_elem (idx : gmap (gostring * gostring) gostring) k : k ∈ (map_to_list idx).*1 <-> is_Some (idx !! k).
Proof. rewrite <- sortedContentKeys_elem. unfold sortedContentKeys. by rewrite sort_stable_perm. Qed.

(** ** A match, declaratively *)

(** The files of [ref], with its bytes where [digestFor] names them, and with [strict]
    no others. *)
Definition files_meet (digestFor : gostring * gostring -> gostring -> gostring) (strict : bool)
    (ref got : gmap (gostring * gostring) gostring) : Prop :=
  (forall k r, ref !! k = Some r -> exists d, got !! k = Some d /\ (digestFor k r <> [] -> d = digestFor k r))
  /\ (strict = true -> forall k, is_Some (got !! k) -> is_Some (ref !! k)).

Lemma compareContents_nil ref got digestFor strict who : compareContents ref got digestFor strict who = []
  <-> files_meet digestFor strict (contentIndex ref) (contentIndex got).
Proof.
  unfold compareContents. rewrite app_nil, concat_nil. apply Morphisms_Prop.and_iff_morphism; split; intros Hf.
  - intros k r Hk. specialize (Hf k). rewrite sortedContentKeys_elem in Hf. specialize (Hf (ex_intro _ r Hk)).
    unfold compare_file in Hf. rewrite Hk in Hf. destruct (contentIndex got !! k) as [d|]; [|done].
    exists d. split; [done|]. intros Hw. destruct (digestFor k r =s []) eqn:E1; [by apply eqs_true in E1|].
    destruct (d =s []); [done|]. destruct (d =s digestFor k r) eqn:E2; [by apply eqs_true|done].
  - intros k [r Hr]%sortedContentKeys_elem. destruct (Hf k r Hr) as (d & Hd & Hw). unfold compare_file. rewrite Hd, Hr.
    destruct (digestFor k r =s []) eqn:E1; [done|]. apply eqs_false in E1. rewrite (Hw E1).
    destruct (digestFor k r =s []) eqn:E3; [by apply eqs_true in E3|]. by rewrite eqs_refl.
  - intros -> k Hk. rewrite concat_nil in Hf. specialize (Hf k). rewrite sortedContentKeys_elem in Hf.
    specialize (Hf Hk). destruct (contentIndex ref !! k); [by eexists|done].
  - destruct strict; [|done]. apply concat_nil. intros k Hk%sortedContentKeys_elem.
    destruct (Hf eq_refl k Hk) as [r ->]. done.
Qed.

Lemma compareErrorFlag_nil want got who :
  compareErrorFlag want got who = [] <-> forall w, want = Some w -> got = Some w.
Proof.
  destruct want as [w|]; cbn; [|naive_solver]. split.
  - intros E u [= <-]. destruct got as [g|]; [|by destruct w]. by destruct w, g.
  - intros E. rewrite (E w eq_refl). by destruct w.
Qed.

Lemma compareAgreedErrorFlag_nil exp got : compareAgreedErrorFlag exp got = []
  <-> (x_NoError exp = true -> got = Some false) /\ (x_Error exp = true -> got = Some true).
Proof.
  unfold compareAgreedErrorFlag. rewrite app_nil. apply Morphisms_Prop.and_iff_morphism.
  - destruct (x_NoError exp); [rewrite compareErrorFlag_nil|]; naive_solver.
  - destruct (x_Error exp); [rewrite compareErrorFlag_nil|]; naive_solver.
Qed.

Lemma compareExitCode_nil want got who :
  compareExitCode want got who = [] <-> forall w, want = Some w -> got = Some w.
Proof.
  destruct want as [w|]; cbn; [|naive_solver]. split.
  - intros E u [= <-]. destruct got as [g|]; [|done]. destruct (Z.eqb_spec g w); [by subst|done].
  - intros E. rewrite (E w eq_refl). by rewrite Z.eqb_refl.
Qed.

Lemma compareResultType_nil want got who :
  compareResultType want got who = [] <-> (want <> [] -> got = want).
Proof.
  unfold compareResultType. destruct (want =s []) eqn:E1; [apply eqs_true in E1; naive_solver|]. apply eqs_false in E1.
  destruct (got =s []) eqn:E2; [apply eqs_true in E2; naive_solver|].
  destruct (got =s want) eqn:E3; [apply eqs_true in E3|apply eqs_false in E3]; naive_solver.
Qed.

Lemma compareWriteFloor_nil floor got :
  compareWriteFloor floor got = [] <-> (0 < floor -> floor <= writeCount (contentIndex got)).
Proof.
  unfold compareWriteFloor. destruct (Z.leb_spec floor 0); [split; [lia|done]|].
  destruct (Z.ltb_spec (writeCount (contentIndex got)) floor); split; done || lia.
Qed.

(** The observation reports everything the expectation holds, as it holds it. *)
Definition meets (exp : StepExpectation) (got : StepObservation) : Prop :=
  holdsNothing exp = false
  /\ ((x_NoError exp = true -> o_IsError got = Some false) /\ (x_Error exp = true -> o_IsError got = Some true))
  /\ (forall w, x_ExitCode exp = Some w -> o_ExitCode got = Some w)
  /\ (x_ResultType exp <> [] -> o_ResultType got = x_ResultType exp)
  /\ files_meet (fun _ r => r) (x_Exact exp) (contentIndex (x_Contents exp)) (contentIndex (o_Contents got))
  /\ (0 < x_MinWrites exp -> x_MinWrites exp <= writeCount (contentIndex (o_Contents got))).

Lemma Compare_meets exp got : Compare exp got = [] <-> meets exp got.
Proof.
  unfold Compare, meets. destruct (holdsNothing exp); [by split; [|intros []]|].
  rewrite !app_nil, compareAgreedErrorFlag_nil, compareExitCode_nil, compareResultType_nil, compareWriteFloor_nil.
  unfold compareRecordedContents. rewrite compareContents_nil. naive_solver.
Qed.

(** ** Shadow *)

(** The observation agrees with the app's wherever the app reported, and with the
    recordings where it did not. *)
Definition shadows (exp : StepExpectation) (app replay : StepObservation) : Prop :=
  holdsNothing exp = false
  /\ (match o_IsError app with
      | Some _ => o_IsError replay = o_IsError app
      | None => (x_NoError exp = true -> o_IsError replay = Some false) /\ (x_Error exp = true -> o_IsError replay = Some true)
      end)
  /\ (match o_ExitCode app with
      | Some _ => o_ExitCode replay = o_ExitCode app
      | None => forall w, x_ExitCode exp = Some w -> o_ExitCode replay = Some w
      end)
  /\ (o_ResultType app <> [] -> o_ResultType replay = o_ResultType app)
  /\ (o_ResultType app = [] -> x_ResultType exp <> [] -> o_ResultType replay = x_ResultType exp)
  /\ (match o_Contents app with
      | [] => files_meet (fun _ r => r) (x_Exact exp) (contentIndex (x_Contents exp)) (contentIndex (o_Contents replay))
      | _ => files_meet (shadow_digest exp (contentIndex (x_Contents exp))) (x_Exact exp)
               (contentIndex (o_Contents app)) (contentIndex (o_Contents replay))
      end)
  /\ (0 < x_MinWrites exp -> x_MinWrites exp <= writeCount (contentIndex (o_Contents replay))).

Lemma CompareShadow_shadows exp app replay : CompareShadow exp app replay = [] <-> shadows exp app replay.
Proof.
  unfold CompareShadow, shadows. destruct (holdsNothing exp); [by split; [|intros []]|].
  rewrite !app_nil, compareWriteFloor_nil.
  assert (He : (match o_IsError app with Some _ => compareErrorFlag (o_IsError app) (o_IsError replay) theApp
      | None => compareAgreedErrorFlag exp (o_IsError replay) end) = []
    <-> match o_IsError app with Some _ => o_IsError replay = o_IsError app
      | None => (x_NoError exp = true -> o_IsError replay = Some false) /\ (x_Error exp = true -> o_IsError replay = Some true) end).
  { destruct (o_IsError app); [rewrite compareErrorFlag_nil; naive_solver|apply compareAgreedErrorFlag_nil]. }
  assert (Hx : (match o_ExitCode app with Some _ => compareExitCode (o_ExitCode app) (o_ExitCode replay) theApp
      | None => compareExitCode (x_ExitCode exp) (o_ExitCode replay) everyRecording end) = []
    <-> match o_ExitCode app with Some _ => o_ExitCode replay = o_ExitCode app
      | None => forall w, x_ExitCode exp = Some w -> o_ExitCode replay = Some w end).
  { destruct (o_ExitCode app); rewrite compareExitCode_nil; naive_solver. }
  assert (Ht : (if negb (o_ResultType app =s []) then compareResultType (o_ResultType app) (o_ResultType replay) theApp
      else compareResultType (x_ResultType exp) (o_ResultType replay) everyRecording) = []
    <-> (o_ResultType app <> [] -> o_ResultType replay = o_ResultType app)
        /\ (o_ResultType app = [] -> x_ResultType exp <> [] -> o_ResultType replay = x_ResultType exp)).
  { destruct (o_ResultType app =s []) eqn:E; cbn [negb]; rewrite compareResultType_nil;
      [apply eqs_true in E|apply eqs_false in E]; naive_solver. }
  rewrite He, Hx, Ht. unfold compareRecordedContents.
  destruct (o_Contents app); rewrite compareContents_nil; naive_solver.
Qed.

Lemma shadow_then_meets exp app replay : meets exp app -> shadows exp app replay -> meets exp replay.
Proof.
  intros (Hn & [He1 He2] & Hx & Ht & [Hf Hs] & Hw) (_ & He' & Hx' & Ht1 & Ht2 & Hf' & Hw'). split; [done|].
  split; [destruct (o_IsError app); [rewrite He'; naive_solver|done]|].
  split; [destruct (o_ExitCode app); [rewrite Hx'; naive_solver|done]|].
  split; [destruct (decide (o_ResultType app = [])); [by apply Ht2|intros Hne; rewrite Ht1 by done; by apply Ht]|].
  split; [|done]. destruct (o_Contents app) as [|c cs] eqn:Ec; [exact Hf'|]. rewrite <- Ec in *. clear Ec c cs.
  destruct Hf' as [Hf' Hs']. split.
  - intros k r Hk. destruct (Hf k r Hk) as (a & Ha & Hra). destruct (Hf' k a Ha) as (d & Hd & Hda).
    exists d. split; [done|]. intros Hr. specialize (Hra Hr). subst a. unfold shadow_digest in Hda. rewrite Hk in Hda.
    destruct (r =s []) eqn:E; [by apply eqs_true in E|]. rewrite andb_false_r in Hda. cbn in Hda. auto.
  - intros Hex k Hk. apply (Hs Hex), (Hs' Hex), Hk.
Qed.

(** ** Recordings against their own expectation *)

Definition content_key (c : ContentDigest) : gostring * gostring := (cd_Op c, cleanContentPath (cd_Path c)).

(** The path and the digest as stored are read as they are. *)
Definition stable (c : ContentDigest) : Prop :=
  cleanContentPath (cleanContentPath (cd_Path c)) = cleanContentPath (cd_Path c)
  /\ normalizeDigest (normalizeDigest (cd_Digest c)) = normalizeDigest (cd_Digest c).

Lemma index_content_lookup out c k :
  index_content out c !! k
  = if decide (k = content_key c) then
      Some (match out !! k with
            | Some prev => if normalizeDigest (cd_Digest c) =s [] then prev else normalizeDigest (cd_Digest c)
            | None => normalizeDigest (cd_Digest c)
            end)
    else out !! k.
Proof.
  unfold index_content. fold (content_key c). destruct (decide (k = content_key c)) as [->|Hne].
  - by rewrite lookup_insert_eq.
  - by rewrite lookup_insert_ne.
Qed.

(** What an index holds was reported. *)
Lemma contentIndex_reported cs k d : contentIndex cs !! k = Some d ->
  exists c c', c ∈ cs /\ c' ∈ cs /\ k = content_key c /\ d = normalizeDigest (cd_Digest c').
Proof.
  unfold contentIndex. induction cs as [|c cs IH] using rev_ind; [cbn; by rewrite lookup_empty|].
  rewrite fold_left_app. cbn [fold_left]. rewrite index_content_lookup. case_decide as Hk.
  - intros [= <-]. destruct (fold_left index_content cs ∅ !! k) as [prev|] eqn:Ep.
    + destruct (normalizeDigest (cd_Digest c) =s []).
      * destruct (IH eq_refl) as (a & b & ? & ? & ? & ?). exists c, b. set_solver.
      * exists c, c. set_solver.
    + exists c, c. set_solver.
  - intros Hd. destruct (IH Hd) as (a & b & ? & ? & ? & ?). exists a, b. set_solver.
Qed.

(** The index of a list of distinct files already in stored form. *)
Lemma contentIndex_distinct cs k d :
  NoDup ((fun c => (cd_Op c, cd_Path c)) <$> cs) ->
  (forall c, c ∈ cs -> cleanContentPath (cd_Path c) = cd_Path c /\ normalizeDigest (cd_Digest c) = cd_Digest c) ->
  contentIndex cs !! k = Some d <-> mkContent k.1 k.2 d ∈ cs.
Proof.
  unfold contentIndex. induction cs as [|c cs IH] using rev_ind; intros Hnd Hst.
  { cbn. rewrite lookup_empty. set_solver. }
  rewrite fmap_app in Hnd. apply NoDup_app in Hnd as (Hnd & Hnew & _).
  rewrite fold_left_app. cbn [fold_left]. rewrite index_content_lookup.
  assert (Hst' : forall x, x ∈ cs -> cleanContentPath (cd_Path x) = cd_Path x /\ normalizeDigest (cd_Digest x) = cd_Digest x)
    by (intros x Hx; apply Hst, elem_of_app; by left).
  specialize (IH Hnd Hst'). destruct (Hst c) as [Hp Hd]; [apply elem_of_app; right; by left|].
  unfold content_key. rewrite Hp, Hd, elem_of_app, list_elem_of_singleton. case_decide as Hk.
  - subst k. destruct (fold_left index_content cs ∅ !! (cd_Op c, cd_Path c)) as [prev|] eqn:Ep.
    { apply contentIndex_reported in Ep as (a & _ & Ha & _ & E & _). destruct (Hnew (cd_Op c, cd_Path c)); [|by left].
      apply list_elem_of_fmap. exists a. split; [|done]. rewrite E. unfold content_key. by rewrite (proj1 (Hst' a Ha)). }
    cbn. split; [intros [= <-]; right; by destruct c|]. intros [Hin|Hin].
    + destruct (Hnew (cd_Op c, cd_Path c)); [|by left]. apply list_elem_of_fmap. by exists (mkContent (cd_Op c) (cd_Path c) d).
    + apply (f_equal cd_Digest) in Hin. cbn in Hin. by rewrite Hin.
  - rewrite IH. split; [by left|]. intros [Hin|Hin]; [done|]. subst c. destruct Hk. by destruct k.
Qed.

Lemma in_every_some k digest others same b : in_every k digest others same = Some b ->
  (b = true -> same = true) /\ forall idx, idx ∈ others -> exists d, idx !! k = Some d /\ (b = true -> d = digest).
Proof.
  revert same. induction others as [|idx others IH]; intros same; cbn; [intros [= ->]; set_solver|].
  destruct (idx !! k) as [d|] eqn:Ed; [|done]. intros [Hs Hall]%IH. split.
  - intros Hb. by apply Hs, andb_true_iff in Hb as [? _].
  - intros idx' [->|Hin]%elem_of_cons; [|by apply Hall]. exists d. split; [done|].
    intros Hb. apply Hs, andb_true_iff in Hb as [_ Hb]. by apply eqs_true.
Qed.

Lemma agreed_contents_spec keys first others exact cs ex : NoDup keys ->
  agreed_contents keys first others exact = (cs, ex) ->
  (forall c, c ∈ cs -> exists k same, k ∈ keys /\ in_every k (default [] (first !! k)) others true = Some same
     /\ c = mkContent k.1 k.2 (if same then default [] (first !! k) else []))
  /\ NoDup ((fun c => (cd_Op c, cd_Path c)) <$> cs)
  /\ (ex = true -> exact = true /\ forall k, k ∈ keys -> mkContent k.1 k.2 (default [] (first !! k)) ∈ cs).
Proof.
  intros Hnd. revert exact cs ex. induction Hnd as [|k keys Hk Hnd IH]; intros exact cs ex; cbn [agreed_contents].
  { intros [= <- <-]. split; [set_solver|]. split; [constructor|]. set_solver. }
  change (match first !! k with Some d => d | None => [] end) with (default [] (first !! k)).
  destruct (in_every k (default [] (first !! k)) others true) as [same|] eqn:Ei.
  - destruct (agreed_contents keys first others (exact && same)) as [cs' ex'] eqn:Ea. intros [= <- <-].
    destruct (IH _ _ _ Ea) as (Hin & Hnd' & Hex). split; [|split].
    + intros c [->|Hc]%elem_of_cons; [exists k, same; set_solver|]. destruct (Hin c Hc) as (k' & b & ? & ?). exists k', b. set_solver.
    + cbn. constructor; [|done]. intros (c & E & Hc)%list_elem_of_fmap. destruct (Hin c Hc) as (k' & b & Hk' & _ & ->).
      cbn in E. destruct k, k'. by injection E as -> ->.
    + intros [[-> ->]%andb_true_iff Hall]%Hex. split; [done|]. intros k' [->|Hk']%elem_of_cons; [by left|]. right. by apply Hall.
  - intros Ea. destruct (IH _ _ _ Ea) as (Hin & Hnd' & Hex). split; [|split; [done|by intros [? _]%Hex]].
    intros c Hc. destruct (Hin c Hc) as (k' & b & ? & ?). exists k', b. set_solver.
Qed.

Lemma write_floor_le agreed indexes idx : idx ∈ indexes -> (write_floor agreed indexes).1 <= writeCount idx.
Proof.
  unfold write_floor. assert (Hg : forall l st, 0 <= st.1 \/ st.1 = -1 ->
    let out := fold_left (fun st idx => (if (st.1 <? 0) || (writeCount idx <? st.1) then writeCount idx else st.1,
                 st.2 || negb (writeCount idx =? agreed))) l st in
    (0 <= st.1 -> out.1 <= st.1) /\ forall idx, idx ∈ l -> out.1 <= writeCount idx).
  { induction l as [|x l IH]; intros st Hst; [cbn; set_solver|]. cbn [fold_left].
    assert (0 <= writeCount x) by (unfold writeCount; lia).
    destruct (IH (if (st.1 <? 0) || (writeCount x <? st.1) then writeCount x else st.1,
                 st.2 || negb (writeCount x =? agreed))) as [Hle Hall].
    { cbn. destruct (Z.ltb_spec st.1 0), (Z.ltb_spec (writeCount x) st.1); cbn; lia. }
    cbn [fst] in Hle. destruct (Z.ltb_spec st.1 0), (Z.ltb_spec (writeCount x) st.1); cbn [orb] in *;
      (split; [intros; lia|]); intros y [->|Hy]%elem_of_cons; auto; lia. }
  intros Hin. by apply Hg; [right|].
Qed.

Lemma agreement_spec {A} `{EqDecision A} (reports : list (option A)) first carried agreed :
  agreement reports = (first, carried, agreed) ->
  carried = Z.of_nat (length (omap id reports))
  /\ (agreed = true -> forall v, Some v ∈ reports -> first = Some v)
  /\ (first = None -> carried = 0).
Proof.
  unfold agreement. revert first carried agreed. induction reports as [|r reports IH] using rev_ind; intros first carried agreed.
  { intros [= <- <- <-]. split; [done|]. split; [set_solver|done]. }
  rewrite fold_left_app. cbn [fold_left]. destruct (fold_left _ reports (None, 0, true)) as [[f c] a] eqn:E.
  destruct (IH f c a eq_refl) as (-> & Ha & Hn). rewrite omap_app, length_app. destruct r as [v|].
  - destruct f as [w|]; intros [= <- <- <-]; cbn.
    + split; [lia|]. split; [|done]. intros [-> ->%bool_decide_eq_true]%andb_true_iff u [Hu| ->%list_elem_of_singleton]%elem_of_app; auto.
    + split; [lia|]. split; [|done]. intros -> u [Hu|Hu%list_elem_of_singleton]%elem_of_app; [by apply Ha in Hu|congruence].
  - intros [= <- <- <-]. cbn. split; [lia|]. split; [|done]. intros Ht u [Hu|Hu%list_elem_of_singleton]%elem_of_app; [by apply Ha|done].
Qed.

(** Every report is present when as many were carried as were made. *)
Lemma all_reported {A} (reports : list (option A)) : length (omap id reports) = length reports ->
  forall r, r ∈ reports -> is_Some r.
Proof.
  assert (Hle : forall l : list (option A), (length (omap id l) <= length l)%nat)
    by (induction l as [|[v|] l IHl]; cbn; lia).
  induction reports as [|[v|] l IH]; cbn; intros E r; [set_solver|intros [->|Hr]%elem_of_cons; eauto|].
  specialize (Hle l). lia.
Qed.

Lemma agreement_every {A} `{EqDecision A} (reports : list (option A)) first carried agreed :
  agreement reports = (first, carried, agreed) -> carried = Z.of_nat (length reports) -> agreed = true ->
  forall r, r ∈ reports -> r = first.
Proof.
  intros (E & Ha & _)%agreement_spec Hc Hg r Hr. subst carried.
  destruct (all_reported reports ltac:(lia) r Hr) as [v ->]. symmetry. by apply Ha.
Qed.

(** Flags all carried, none or all of them raised. *)
Lemma flags_all (reports : list (option bool)) (b : bool) : length (omap id reports) = length reports ->
  count_true (omap id reports) = (if b then Z.of_nat (length reports) else 0) ->
  forall r, r ∈ reports -> r = Some b.
Proof.
  intros Hall Hc r Hr. pose proof (all_reported _ Hall) as Hs. unfold count_true in Hc. rewrite <- Hall in Hc.
  destruct (Hs r Hr) as [v ->]. assert (Hin : v ∈ omap id reports) by (apply list_elem_of_omap; eauto).
  revert Hc Hin. clear. generalize (omap id reports). intros l.
  assert (Hle : forall l, (length (List.filter id l) <= length l)%nat) by (induction l0 as [|[] l0 IHl]; cbn; lia).
  induction l as [|x l IH]; cbn; intros Hc; [set_solver|]. specialize (Hle l). intros [<-|Hv]%elem_of_cons.
  - destruct v, b; cbn in Hc; done || lia.
  - apply IH; [|done]. destruct x, b; cbn in Hc; lia.
Qed.

Lemma sortedContentKeys_NoDup idx : NoDup (sortedContentKeys idx).
Proof. unfold sortedContentKeys. rewrite sort_stable_perm. apply NoDup_fst_map_to_list. Qed.

Lemma normalizeDigest_nil : normalizeDigest [] = [].
Proof. reflexivity. Qed.

(** The agreed files are met by every index they were taken from. *)
Lemma agreed_files first others exact cs ex :
  agreed_contents (sortedContentKeys first) first others exact = (cs, ex) ->
  (forall k d, first !! k = Some d -> cleanContentPath k.2 = k.2 /\ normalizeDigest d = d) ->
  (exact = true -> forall idx k, idx ∈ others -> is_Some (idx !! k) -> is_Some (first !! k)) ->
  forall idx, idx ∈ first :: others -> files_meet (fun _ r => r) ex (contentIndex cs) idx.
Proof.
  intros Ea Hst Hsub idx Hidx.
  destruct (agreed_contents_spec _ _ _ _ _ _ (sortedContentKeys_NoDup first) Ea) as (Hin & Hnd & Hex).
  assert (Hidx' : forall k d, contentIndex cs !! k = Some d <-> mkContent k.1 k.2 d ∈ cs).
  { intros k d. apply contentIndex_distinct; [done|]. intros c Hc. destruct (Hin c Hc) as (k' & same & Hk' & _ & ->).
    apply sortedContentKeys_elem in Hk' as [d' Hd']. destruct (Hst _ _ Hd') as [Hp Hd]. rewrite Hd'. cbn.
    split; [done|]. destruct same; [done|apply normalizeDigest_nil]. }
  split.
  - intros k r Hr%Hidx'. destruct (Hin _ Hr) as (k' & same & Hk' & Hev & [= E1 E2 ->]).
    assert (k = k') as <- by (destruct k, k'; cbn in *; congruence). clear E1 E2.
    apply sortedContentKeys_elem in Hk' as [d' Hd']. rewrite Hd' in *. cbn [default] in *.
    apply elem_of_cons in Hidx as [->|Hidx].
    + exists d'. split; [done|]. by destruct same.
    + destruct (in_every_some _ _ _ _ _ Hev) as [_ Hall]. destruct (Hall idx Hidx) as (d & Hd & Hsame).
      exists d. split; [done|]. destruct same; [auto|done].
  - intros [He Hkeys]%Hex k Hk. assert (Hf : is_Some (first !! k)).
    { apply elem_of_cons in Hidx as [->|Hidx]; [done|]. by apply (Hsub He idx). }
    apply sortedContentKeys_elem, Hkeys in Hf. eexists. apply Hidx', Hf.
Qed.

(** What the first recording stored is in stored form. *)
Lemma stored_form cs : Forall stable cs ->
  forall k d, contentIndex cs !! k = Some d -> cleanContentPath k.2 = k.2 /\ normalizeDigest d = d.
Proof.
  intros Hst k d (c & c' & Hc & Hc' & -> & ->)%contentIndex_reported. rewrite Forall_forall in Hst.
  split; [apply (Hst c Hc)|apply (Hst c' Hc')].
Qed.

Lemma omap_fmap_id {A B} (f : A -> option B) (l : list A) : omap f l = omap id (f <$> l).
Proof. induction l as [|x l IH]; cbn; [done|]. by destruct (f x); cbn; rewrite IH. Qed.

Lemma ExpectationFrom_met recordings r : r ∈ recordings -> Forall (fun o => Forall stable (o_Contents o)) recordings ->
  holdsNothing (ExpectationFrom recordings) = false -> meets (ExpectationFrom recordings) r.
Proof.
  intros Hr Hst Hn. split; [exact Hn|]. clear Hn. unfold ExpectationFrom.
  assert (Hi : contentIndex (o_Contents r) ∈ (contentIndex ∘ o_Contents <$> recordings))
    by (apply list_elem_of_fmap; by exists r).
  assert (Hs : forall idx, idx ∈ (contentIndex ∘ o_Contents <$> recordings) ->
    forall k d, idx !! k = Some d -> cleanContentPath k.2 = k.2 /\ normalizeDigest d = d).
  { intros idx (o & -> & Ho)%list_elem_of_fmap. apply stored_form. rewrite Forall_forall in Hst. by apply Hst. }
  destruct (contentIndex ∘ o_Contents <$> recordings) as [|first others]; [by apply not_elem_of_nil in Hi|].
  destruct (agreement (o_ExitCode <$> recordings)) as [[code codes] code_ok] eqn:Ec.
  destruct (agreement ((fun r => reported_type (o_ResultType r)) <$> recordings)) as [[typ types] type_ok] eqn:Et.
  cbv zeta.
  destruct (agreed_contents _ _ _ _) as [cs ex] eqn:Ea. destruct (write_floor _ _) as [fewest varied] eqn:Ew. cbn.
  rewrite omap_fmap_id. split; [split|split; [|split; [|split]]].
  - intros [Hc%Z.eqb_eq He%Z.eqb_eq]%andb_true_iff. apply (flags_all (o_IsError <$> recordings));
      [rewrite length_fmap; lia|done|by apply list_elem_of_fmap_2].
  - intros [Hc%Z.eqb_eq He%Z.eqb_eq]%andb_true_iff. apply (flags_all (o_IsError <$> recordings));
      [rewrite length_fmap; lia|by rewrite length_fmap|by apply list_elem_of_fmap_2].
  - intros w Hw. destruct ((codes =? _) && code_ok) eqn:E; [|done]. apply andb_true_iff in E as [E%Z.eqb_eq ->].
    subst code. apply (agreement_every _ _ _ _ Ec); [by rewrite length_fmap|done|by apply list_elem_of_fmap_2].
  - destruct ((types =? _) && type_ok) eqn:E; [|done]. apply andb_true_iff in E as [E%Z.eqb_eq ->].
    assert (Hty : reported_type (o_ResultType r) = typ).
    { apply (agreement_every _ _ _ _ Et); [by rewrite length_fmap|done|].
      by apply (list_elem_of_fmap_2 (fun r => reported_type (o_ResultType r))). }
    subst typ. unfold reported_type. by destruct (o_ResultType r =s []).
  - apply (agreed_files _ _ _ _ _ Ea); [|intros [_ Hsub]%andb_true_iff idx k Hidx Hk|done].
    + apply Hs. by left.
    + rewrite forallb_forall in Hsub. setoid_rewrite <- list_elem_of_In in Hsub. specialize (Hsub idx Hidx).
      rewrite forallb_forall in Hsub. setoid_rewrite <- list_elem_of_In in Hsub.
      apply map_keys_elem, Hsub in Hk. by apply bool_decide_eq_true in Hk.
  - intros Hpos. destruct varied; [|lia]. change fewest with (fewest, true).1. rewrite <- Ew. by apply write_floor_le.
Qed.
End Facts.

(** Evidence from shadow transfers. When the app's own execution matches what the
    recordings agreed on, and the replay run beside it matches the app under
    CompareShadow, the replay matches the recordings: Compare would accept it alone. *)
Theorem shadow_evidence_transfers `{UnicodeTables} (exp : StepExpectation) (app replay : StepObservation) :
  Compare exp app = [] -> CompareShadow exp app replay = [] -> Compare exp replay = [].
Proof.
  rewrite !Compare_meets, CompareShadow_shadows. apply shadow_then_meets.
Qed.

Definition report (path digest : string) : ContentDigest := mkContent opWrite (go path) (go digest).

Definition done_writing (l : list ContentDigest) : StepObservation := mkObservation (Some false) (Some 0) [] l.

Lemma shadow_evidence_transfers_witness :
  let exp := mkExpectation true false (Some 0) [] [report "out/a" "ab"] 2 false in
  Compare (H := latin1_tables) exp (done_writing [report "./out/b" ""; report "out/a" "AB"]) = [].
Proof.
  intros exp. apply (shadow_evidence_transfers (H := latin1_tables) exp
    (done_writing [report "out/a" "sha256:ab"; report "out/b" "cd"])); reflexivity.
Defined.

(** Whatever several recordings of a step agreed on, each of them meets: if the
    expectation made from them holds anything, Compare accepts every one of the
    recordings it was made from. The files' paths and digests are ones storing
    leaves as they are ([stable]). *)
Theorem recordings_meet_expectation `{UnicodeTables} (recordings : list StepObservation) (r : StepObservation) :
  r ∈ recordings -> Forall (fun o => Forall stable (o_Contents o)) recordings ->
  holdsNothing (ExpectationFrom recordings) = false -> Compare (ExpectationFrom recordings) r = [].
Proof. intros Hr Hst Hn. apply Compare_meets. by apply ExpectationFrom_met. Qed.

Lemma recordings_meet_expectation_witness :
  let recordings := [done_writing [report "out/./a" "AB"];
                     done_writing [report "out/a" "sha256:ab"; report "out/b" "cd"]] in
  x_Contents (ExpectationFrom (H := latin1_tables) recordings) = [report "out/a" "ab"]
  /\ forall r, r ∈ recordings -> Compare (H := latin1_tables) (ExpectationFrom (H := latin1_tables) recordings) r = [].
Proof.
  intros recordings. split; [by vm_compute|]. intros r Hr.
  apply (recordings_meet_expectation (H := latin1_tables)); [done| |by vm_compute].
  by repeat constructor.
Defined.
