(* ===== verification/Catalog.v ===== *)
(** The function catalog: component/language/functions/catalog.go, and the keys
    EvalExpr implements (the dispatch tables of component/memql/expr_eval.go).
    An entry's documentation text is left out. *)

From S2P Require Import Prelude GoText Values.

Inductive type_word : Type :=
| TypeString | TypeNumber | TypeBool | TypeDatetime | TypeDuration | TypeList | TypeMap
| TypeAny | TypeLambda | TypeRow | TypeRows.

#[export] Instance type_word_eq_dec : EqDecision type_word.
Proof. solve_decision. Defined.

Inductive Tier : Type := TierP | TierM.

Record Param := mkParam { p_Name : gostring; p_Type : type_word; p_Optional : bool }.

Record Function := mkFunction {
  f_Name : gostring;
  f_Receiver : option type_word;
  f_Params : list Param;
  f_Returns : type_word;
  f_Tier : Tier
}.

Definition type_text (t : type_word) : gostring :=
  match t with
  | TypeString => go "string" | TypeNumber => go "number" | TypeBool => go "bool"
  | TypeDatetime => go "datetime" | TypeDuration => go "duration" | TypeList => go "list"
  | TypeMap => go "map" | TypeAny => go "any" | TypeLambda => go "lambda" | TypeRow => go "row"
  | TypeRows => go "rows"
  end.

(** Function.Key *)
Definition Key (f : Function) : gostring :=
  match f_Receiver f with
  | None => f_Name f
  | Some t => type_text t ++ [46] ++ f_Name f
  end.

Definition param (name : string) (t : type_word) : Param := mkParam (go name) t false.

Definition traversal (name : string) : Function :=
  mkFunction (go name) None [mkParam (go "label") TypeString true; param "match" TypeLambda] TypeRows TierP.

Definition func (name : string) (ps : list Param) (ret : type_word) : Function :=
  mkFunction (go name) None ps ret TierM.

Definition on_list (name : string) (ps : list Param) (ret : type_word) (t : Tier) : Function :=
  mkFunction (go name) (Some TypeList) ps ret t.

(** The entries in the source's groups. *)
Definition function_entries : list Function :=
  [func "lower" [param "value" TypeString] TypeString;
   func "upper" [param "value" TypeString] TypeString;
   func "trim" [param "value" TypeString] TypeString;
   func "hash" [param "value" TypeString] TypeString;
   func "shortId" [param "value" TypeString] TypeString;
   func "canonicalId" [param "value" TypeString; param "concept" TypeString] TypeString;
   func "toString" [param "value" TypeAny] TypeString;
   func "addDuration" [param "ts" TypeDatetime; param "dur" TypeDuration] TypeDatetime;
   func "daysBetween" [param "a" TypeDatetime; param "b" TypeDatetime] TypeNumber;
   func "error" [param "message" TypeString] TypeAny;
   func "var" [param "name" TypeString] TypeString;
   func "systemVar" [param "name" TypeString] TypeString;
   func "secret" [param "name" TypeString] TypeString;
   func "systemSecret" [param "name" TypeString] TypeString].

Definition traversal_entries : list Function :=
  [traversal "parentOf"; traversal "childOf"; traversal "aliasOf"; traversal "equals";
   traversal "references"; traversal "contains"; traversal "owns"; traversal "createdBy";
   mkFunction (go "ids") None [param "match" TypeLambda] TypeRows TierP].

Definition string_method_entries : list Function :=
  [mkFunction (go "includes") (Some TypeString) [param "sub" TypeString] TypeBool TierP;
   mkFunction (go "count") (Some TypeString) [] TypeNumber TierM].

Definition list_reading_entries : list Function :=
  [on_list "count" [] TypeNumber TierP;
   on_list "any" [param "pred" TypeLambda] TypeBool TierP;
   on_list "all" [param "pred" TypeLambda] TypeBool TierP;
   on_list "where" [param "pred" TypeLambda] TypeList TierM;
   on_list "select" [param "fn" TypeLambda] TypeList TierM;
   on_list "first" [] TypeAny TierM;
   on_list "last" [] TypeAny TierM;
   on_list "single" [] TypeAny TierM;
   on_list "empty" [] TypeBool TierM;
   on_list "sum" [param "fn" TypeLambda] TypeNumber TierM;
   on_list "min" [param "fn" TypeLambda] TypeNumber TierM;
   on_list "max" [param "fn" TypeLambda] TypeNumber TierM;
   on_list "avg" [param "fn" TypeLambda] TypeNumber TierM].

Definition list_shaping_entries : list Function :=
  [on_list "orderBy" [param "key" TypeLambda] TypeList TierM;
   on_list "orderByDesc" [param "key" TypeLambda] TypeList TierM;
   on_list "groupBy" [param "key" TypeLambda] TypeList TierM;
   on_list "distinct" [mkParam (go "key") TypeLambda true] TypeList TierM;
   on_list "take" [param "n" TypeNumber] TypeList TierM;
   on_list "skip" [param "n" TypeNumber] TypeList TierM;
   on_list "reduce" [param "seed" TypeAny; param "fn" TypeLambda] TypeAny TierM;
   on_list "nodes" [] TypeList TierM].

Definition entries : list Function :=
  function_entries ++ traversal_entries ++ string_method_entries ++ list_reading_entries
  ++ list_shaping_entries.

(** The catalog by key. *)
Definition exprCatalog : list (gostring * Function) := (fun f => (Key f, f)) <$> entries.

(** exprMethodEntry: the receiver's own method, else one every receiver has. *)
Definition exprMethodEntry (receiver : type_word) (name : gostring) : option Function :=
  match map_get exprCatalog (type_text receiver ++ [46] ++ name) with
  | Some f => Some f
  | None => map_get exprCatalog (type_text TypeAny ++ [46] ++ name)
  end.

(** ** The dispatch tables *)

Inductive function_impl : Type :=
| FLower | FUpper | FTrim | FHash | FShortId | FToString | FCanonicalId | FAddDuration
| FDaysBetween | FError | FVariable.

Definition exprFunctionImpls : list (gostring * function_impl) :=
  [(go "lower", FLower); (go "upper", FUpper); (go "trim", FTrim); (go "hash", FHash);
   (go "shortId", FShortId); (go "toString", FToString); (go "canonicalId", FCanonicalId);
   (go "addDuration", FAddDuration); (go "daysBetween", FDaysBetween); (go "error", FError);
   (go "var", FVariable); (go "systemVar", FVariable); (go "secret", FVariable);
   (go "systemSecret", FVariable)].

Inductive aggregate : Type := AggSum | AggMin | AggMax | AggAvg.

Inductive method_impl : Type :=
| MIncludes | MStringCount | MListCount | MAny | MAll | MWhere | MSelect | MFirst | MLast | MSingle
| MEmpty | MAggregate (a : aggregate) | MOrderBy (desc : bool) | MGroupBy | MDistinct | MTake | MSkip
| MReduce | MNodes.

Definition exprMethodImpls : list (gostring * method_impl) :=
  [(go "string.includes", MIncludes); (go "string.count", MStringCount); (go "list.count", MListCount);
   (go "list.any", MAny); (go "list.all", MAll); (go "list.where", MWhere); (go "list.select", MSelect);
   (go "list.first", MFirst); (go "list.last", MLast); (go "list.single", MSingle);
   (go "list.empty", MEmpty); (go "list.sum", MAggregate AggSum); (go "list.min", MAggregate AggMin);
   (go "list.max", MAggregate AggMax); (go "list.avg", MAggregate AggAvg);
   (go "list.orderBy", MOrderBy false); (go "list.orderByDesc", MOrderBy true);
   (go "list.groupBy", MGroupBy); (go "list.distinct", MDistinct); (go "list.take", MTake);
   (go "list.skip", MSkip); (go "list.reduce", MReduce); (go "list.nodes", MNodes)].

(** How many parameters a catalog entry's lambda takes. *)
Definition exprLambdaParams (key : gostring) : nat := if key =s go "list.reduce" then 2 else 1.

(** Whether one entry of the catalog has the implementation it should. *)
Definition entry_implemented (kf : gostring * Function) : bool :=
  let by_function := bool_decide (is_Some (map_get exprFunctionImpls kf.1)) in
  if bool_decide (f_Returns kf.2 = TypeRows) then negb by_function
  else by_function || bool_decide (is_Some (map_get exprMethodImpls kf.1)).

Lemma map_get_elem {A} (m : list (gostring * A)) k v : map_get m k = Some v -> (k, v) ∈ m.
Proof.
  induction m as [|[k' v'] m IH]; [done|]. cbn [map_get]. destruct (k =s k') eqn:E.
  - apply bool_decide_eq_true in E as ->. intros [= ->]. by left.
  - intros ?%IH. by right.
Qed.

(** The catalog and the evaluator agree entry for entry: keys are unique, every
    entry but the relationship traversals has an implementation, a traversal has
    none, and every implementation has an entry. *)
Theorem catalog_matches_evaluator :
  NoDup (exprCatalog.*1)
  /\ (forall key f, map_get exprCatalog key = Some f ->
        if bool_decide (f_Returns f = TypeRows) then map_get exprFunctionImpls key = None
        else is_Some (map_get exprFunctionImpls key) \/ is_Some (map_get exprMethodImpls key))
  /\ Forall (fun key => is_Some (map_get exprCatalog key)) (exprFunctionImpls.*1 ++ exprMethodImpls.*1).
Proof.
  split; [|split].
  - by apply (bool_decide_unpack _); vm_compute.
  - intros key f Hf%map_get_elem. assert (Ha : forallb entry_implemented exprCatalog = true) by by vm_compute.
    rewrite List.forallb_forall in Ha. apply list_elem_of_In, Ha in Hf. unfold entry_implemented in Hf. cbn [fst snd] in Hf.
    destruct (bool_decide _), (map_get exprFunctionImpls key), (map_get exprMethodImpls key); naive_solver.
  - by apply (bool_decide_unpack _); vm_compute.
Qed.
