(* ===== verification/Ast.v ===== *)
(** The edition-2026 expression tree: component/language/ast/v1.go,
    v1_kind.go and v1_predicates.go.

    One constructor per Go node type, with the fields the code reads.  [NilNode]
    is the nil interface (an absent child, such as a call with no receiver) and
    [ForeignNode] a node outside the edition-2026 set.  A node's [Span] is the
    source extent an error message quotes; no modelled function branches on it
    and it is left out. *)

From S2P Require Import Prelude GoText Strconv.

(** The dynamic types a [LiteralExpr.Value] holds. *)
Inductive literal : Type :=
| VString (s : gostring)
| VBool (b : bool)
| VInt (z : Z)        (* Go int: only a tree built by hand *)
| VInt64 (z : Z)
| VFloat (f : float64)
| VNull
| VOther.

Inductive expr : Type :=
| NilNode
| IdentExpr (name : gostring)
| MemberExpr (object : expr) (field : gostring) (optional : bool)
| CallExpr (receiver : expr) (name kind : gostring)
    (args : list expr) (named : list (gostring * expr))
| UnaryExpr (op : gostring) (operand : expr)
| BinaryExpr (op : gostring) (left right : expr)
| TernaryExpr (condition thenb elseb : expr)
| LambdaExpr (params : list gostring) (body : expr)
| ListExpr (elems : list expr)
| MapExpr (entries : list (gostring * expr))
| ParenExpr (inner : expr)
| LiteralExpr (value : literal)
| NilExpr
| ForeignNode (gotype : gostring).

(** Induction with hypotheses for the elements of argument, element and entry
    lists. *)
Section ExprInd.
Context (P : expr -> Prop).
Context (HNil : P NilNode).
Context (HIdent : forall n, P (IdentExpr n)).
Context (HMember : forall o f b, P o -> P (MemberExpr o f b)).
Context (HCall : forall r n k args named,
  P r -> Forall P args -> Forall (fun kv => P kv.2) named -> P (CallExpr r n k args named)).
Context (HUnary : forall op x, P x -> P (UnaryExpr op x)).
Context (HBinary : forall op l r, P l -> P r -> P (BinaryExpr op l r)).
Context (HTernary : forall c t e, P c -> P t -> P e -> P (TernaryExpr c t e)).
Context (HLambda : forall ps b, P b -> P (LambdaExpr ps b)).
Context (HList : forall es, Forall P es -> P (ListExpr es)).
Context (HMap : forall es, Forall (fun kv => P kv.2) es -> P (MapExpr es)).
Context (HParen : forall x, P x -> P (ParenExpr x)).
Context (HLit : forall v, P (LiteralExpr v)).
Context (HNilE : P NilExpr).
Context (HForeign : forall t, P (ForeignNode t)).

Fixpoint expr_ind' (e : expr) : P e :=
  let fix all (es : list expr) : Forall P es :=
    match es with
    | [] => List.Forall_nil _
    | x :: xs => List.Forall_cons _ x xs (expr_ind' x) (all xs)
    end in
  let fix allkv (es : list (gostring * expr)) : Forall (fun kv => P kv.2) es :=
    match es with
    | [] => List.Forall_nil _
    | (k, x) :: xs => List.Forall_cons _ (k, x) xs (expr_ind' x) (allkv xs)
    end in
  match e with
  | NilNode => HNil
  | IdentExpr n => HIdent n
  | MemberExpr o f b => HMember o f b (expr_ind' o)
  | CallExpr r n k args named => HCall r n k args named (expr_ind' r) (all args) (allkv named)
  | UnaryExpr op x => HUnary op x (expr_ind' x)
  | BinaryExpr op l r => HBinary op l r (expr_ind' l) (expr_ind' r)
  | TernaryExpr c t f => HTernary c t f (expr_ind' c) (expr_ind' t) (expr_ind' f)
  | LambdaExpr ps b => HLambda ps b (expr_ind' b)
  | ListExpr es => HList es (all es)
  | MapExpr es => HMap es (allkv es)
  | ParenExpr x => HParen x (expr_ind' x)
  | LiteralExpr v => HLit v
  | NilExpr => HNilE
  | ForeignNode t => HForeign t
  end.
End ExprInd.

Definition is_nil_node (e : expr) : bool := match e with NilNode => true | _ => false end.

(** ** v1.go *)

(** Unparen strips any number of ParenExpr wrappers. *)
Fixpoint Unparen (n : expr) : expr :=
  match n with
  | ParenExpr i => Unparen i
  | _ => n
  end.

(** WalkV1 visits [n] and, while the visitor answers true, its children, depth
    first.  The Go visitor is a closure over mutable state; here the state is
    passed through. *)
Section Walk.
Context {S : Type} (visit : expr -> S -> bool * S).

Fixpoint WalkV1 (n : expr) (s : S) : S :=
  match n with
  | NilNode => s
  | _ =>
      let '(descend, s) := visit n s in
      if negb descend then s else
      match n with
      | MemberExpr o _ _ => WalkV1 o s
      | CallExpr r _ _ args named =>
          let s := WalkV1 r s in
          let s := fold_left (fun s a => WalkV1 a s) args s in
          fold_left (fun s a => WalkV1 a.2 s) named s
      | UnaryExpr _ x => WalkV1 x s
      | BinaryExpr _ l r => WalkV1 r (WalkV1 l s)
      | ListExpr es => fold_left (fun s a => WalkV1 a s) es s
      | MapExpr es => fold_left (fun s a => WalkV1 a.2 s) es s
      | ParenExpr i => WalkV1 i s
      | TernaryExpr c t e => WalkV1 e (WalkV1 t (WalkV1 c s))
      | LambdaExpr _ b => WalkV1 b s
      | _ => s
      end
  end.
End Walk.

(** ** v1_kind.go *)

Inductive NodeKind : Type :=
| KindUnknown | KindIdent | KindMember | KindOptionalMember | KindCall
| KindMethodCall | KindConstructCall | KindNot | KindNegate | KindArithmetic
| KindCoalesce | KindComparison | KindIn | KindStartsWith | KindAnd | KindOr
| KindTernary | KindLambda | KindList | KindMap | KindLiteral | KindNil | KindParen.

#[export] Instance NodeKind_eq_dec : EqDecision NodeKind.
Proof. solve_decision. Defined.

Definition AllNodeKinds : list NodeKind :=
  [KindIdent; KindMember; KindOptionalMember; KindCall; KindMethodCall; KindConstructCall;
   KindNot; KindNegate; KindArithmetic; KindCoalesce; KindComparison; KindIn; KindStartsWith;
   KindAnd; KindOr; KindTernary; KindLambda; KindList; KindMap; KindLiteral; KindNil; KindParen].

Definition arithmeticOps : list gostring := go <$> ["+"; "-"; "*"; "/"; "%"]%string.
Definition comparisonOps : list gostring := go <$> ["=="; "!="; "<"; "<="; ">"; ">="]%string.

Definition KindOf (n : expr) : NodeKind :=
  match n with
  | IdentExpr _ => KindIdent
  | MemberExpr _ _ opt => if opt then KindOptionalMember else KindMember
  | CallExpr r _ kind _ _ =>
      if negb (kind =s []) then KindConstructCall
      else if negb (is_nil_node r) then KindMethodCall
      else KindCall
  | UnaryExpr op _ => if op =s go "!" then KindNot else KindNegate
  | BinaryExpr op _ _ =>
      if memS op arithmeticOps then KindArithmetic
      else if memS op comparisonOps then KindComparison
      else if op =s go "??" then KindCoalesce
      else if op =s go "in" then KindIn
      else if op =s go "startsWith" then KindStartsWith
      else if op =s go "&&" then KindAnd
      else if op =s go "||" then KindOr
      else KindUnknown
  | TernaryExpr _ _ _ => KindTernary
  | LambdaExpr _ _ => KindLambda
  | ListExpr _ => KindList
  | MapExpr _ => KindMap
  | LiteralExpr _ => KindLiteral
  | NilExpr => KindNil
  | ParenExpr _ => KindParen
  | NilNode | ForeignNode _ => KindUnknown
  end.

Lemma AllNodeKinds_complete k : k <> KindUnknown <-> In k AllNodeKinds.
Proof. split; [destruct k; intros; cbn; tauto|]. intros Hin ->. cbn in Hin. intuition done. Qed.
