(* ===== verification/Scope.v ===== *)
(** Scopes and what an evaluation is run with: ExprScope, exprLambdaScope,
    EvalOptions and exprEvaluator of component/memql/expr_eval.go, and
    expr_stored.go, which asks whether an expression reads a stored row.

    An evaluation is a function of the steps taken so far and of the state of
    the world its hooks act on. *)

From S2P Require Import Prelude GoText Strconv Numbers ExprNumbers Times Values Ast.

(** ** Evaluations *)

(** The evaluator's step counter and the hooks' world. *)
Record eval_state (W : Type) := mkState { st_steps : Z; st_world : W }.
Arguments mkState {W}.
Arguments st_steps {W}.
Arguments st_world {W}.

Definition eval_m (W A : Type) : Type := eval_state W -> result eval_error A * eval_state W.

#[export] Instance eval_ret W : MRet (eval_m W) := fun _ a st => (Ok a, st).
#[export] Instance eval_bind W : MBind (eval_m W) := fun _ _ k m st =>
  match m st with
  | (Ok a, st') => k a st'
  | (Err e, st') => (Err e, st')
  end.

Definition lift {W A} (r : result eval_error A) : eval_m W A := fun st => (r, st).

Definition refuse {W A} (c : expr_code) : eval_m W A := lift (exprErr c).

(** Run a hook on the world; its errors are the caller's own. *)
Definition hook {W A} (h : W -> result gostring A * W) : eval_m W A := fun st =>
  let '(r, w) := h (st_world st) in
  (match r with Ok a => Ok a | Err e => Err (EHook e) end, mkState (st_steps st) w).

(** exprNormalize, refusing with [c]. *)
Definition normalized {W} (c : expr_code) (v : value) : eval_m W value :=
  match exprNormalize v with Some nv => mret nv | None => refuse c end.

(** ** Options *)

(** EvalOptions; a hook may act on the world. *)
Record EvalOptions (W : Type) := mkOptions {
  o_Now : option Z;
  o_Budget : Z;
  o_Predicates : option (gostring -> option (gostring * expr));
  o_CanonicalID : option (gostring -> gostring -> W -> result gostring gostring * W);
  o_Vars : option (gostring -> gostring -> W -> result gostring gostring * W);
  o_Calls : option (expr -> list (gostring * value) -> W -> result gostring value * W)
}.
Arguments mkOptions {W}.
Arguments o_Now {W}.
Arguments o_Budget {W}.
Arguments o_Predicates {W}.
Arguments o_CanonicalID {W}.
Arguments o_Vars {W}.
Arguments o_Calls {W}.

(** tiers.DefaultStepBudget *)
Definition DefaultStepBudget : Z := 1000000.

Definition exprMaxPredicateDepth : nat := 64.

(** exprEvaluator, less its counters: steps is part of the state, and predDepth,
    which every return restores, an argument.  [ev_ctx] says at which step the
    context is found cancelled. *)
Record exprEvaluator (W : Type) := mkEvaluator {
  ev_ctx : Z -> bool;
  ev_opts : EvalOptions W;
  ev_root : gostring -> option value;
  ev_now : gostring;
  ev_budget : Z
}.
Arguments mkEvaluator {W}.
Arguments ev_ctx {W}.
Arguments ev_opts {W}.
Arguments ev_root {W}.
Arguments ev_now {W}.
Arguments ev_budget {W}.

Definition newExprEvaluator {W} (ctx : Z -> bool) (clock : Z) (root : gostring -> option value)
    (opts : EvalOptions W) : exprEvaluator W :=
  mkEvaluator ctx opts root
    (format_time (match o_Now opts with Some t => t | None => clock end))
    (if o_Budget opts <=? 0 then DefaultStepBudget else o_Budget opts).

(** step: one node against the budget, and every 1024th asks the context. *)
Definition step {W} (ev : exprEvaluator W) : eval_m W unit := fun st =>
  let n := st_steps st + 1 in
  let st' := mkState n (st_world st) in
  if ev_budget ev <? n then (exprErr expression_budget_exceeded, st')
  else if (Z.land n 1023 =? 0) && ev_ctx ev n then (Err EContext, st')
  else (Ok tt, st').

(** ** Scopes *)

(** exprLambdaScope, over the scopes it was opened in. *)
Record frame := mkFrame { fr_names : list gostring; fr_values : list value; fr_stored : list bool }.

(** The innermost frame first; below them all is the caller's scope. *)
Definition scope : Type := list frame.

Fixpoint index_of (name : gostring) (names : list gostring) : option nat :=
  match names with
  | [] => None
  | n :: ns => if n =s name then Some O else S <$> index_of name ns
  end.

(** Lookup *)
Fixpoint Lookup (root : gostring -> option value) (s : scope) (name : gostring) : option value :=
  match s with
  | [] => root name
  | f :: s' =>
      match index_of name (fr_names f) with
      | Some i => Some (nth i (fr_values f) XNil)
      | None => Lookup root s' name
      end
  end.

(** ** expr_stored.go *)

Inductive exprStoredKind : Type := exprNotStored | exprStoredRow | exprStoredElement.

Definition row_kind (v : option value) : exprStoredKind :=
  match v with Some (XRow _ _ _ _ _ _ _) => exprStoredRow | _ => exprNotStored end.

Fixpoint exprStoredRoot (root : gostring -> option value) (s : scope) (name : gostring) : exprStoredKind :=
  match s with
  | [] => row_kind (root name)
  | f :: s' =>
      match index_of name (fr_names f) with
      | Some i => if nth i (fr_stored f) false then exprStoredElement else row_kind (fr_values f !! i)
      | None => exprStoredRoot root s' name
      end
  end.

(** Whether [n] reads a value out of a stored row, [hops] member steps taken. *)
Fixpoint stored_read (root : gostring -> option value) (s : scope) (hops : bool) (n : expr) : bool :=
  match n with
  | ParenExpr i => stored_read root s hops i
  | MemberExpr o _ _ => stored_read root s true o
  | IdentExpr name =>
      match exprStoredRoot root s name with
      | exprStoredRow => hops
      | exprStoredElement => true
      | exprNotStored => false
      end
  | _ => false
  end.

Definition exprStoredRead (root : gostring -> option value) (n : expr) (s : scope) : bool :=
  stored_read root s false n.

Definition exprStoredMismatch (v : value) : bool :=
  match v with XNil | XAbsent | XList _ => false | _ => true end.

Definition exprStoredListAnswer (name : gostring) : option value :=
  if (name =s go "any") || (name =s go "all") then Some (XBool false)
  else if name =s go "count" then Some (XInt 0)
  else None.
