(* ===== verification/Eval.v ===== *)
(** EvalExpr, the in-process evaluator: component/memql/expr_eval.go, with the
    list helpers of collection_method.go (aggregateNumeric, orderByLambda), the
    prefix test of executor_filter.go and coalesceSelect of
    mutation_templates.go.

    The code recurses through eval and evalCondition.  Each operation is written
    over the two as arguments and [eval_fuel] and [cond_fuel] tie the knot;
    every recursive call follows a counted step, so fuel of one more than the
    budget is never used up. *)

From Stdlib Require Import SpecFloat.
From S2P Require Import Prelude GoText GoSort Strconv Numbers ExprNumbers Times Sha256 Ids.
From S2P Require Import Values Catalog Ast Scope.

(** ** Operators on values *)

Definition literal_value (v : literal) : value :=
  match v with
  | VString s => XStr s
  | VBool b => XBool b
  | VInt z => GInt z
  | VInt64 z => XInt z
  | VFloat f => XFloat f
  | VNull => XNil
  | VOther => GOpaque
  end.

Definition arith_of (op : gostring) : option arith_op :=
  if op =s go "+" then Some OpAdd
  else if op =s go "-" then Some OpSub
  else if op =s go "*" then Some OpMul
  else if op =s go "/" then Some OpDiv
  else if op =s go "%" then Some OpMod
  else None.

Definition order_of (op : gostring) : option order_op :=
  if op =s go "<" then Some OpLt
  else if op =s go "<=" then Some OpLe
  else if op =s go ">" then Some OpGt
  else if op =s go ">=" then Some OpGe
  else None.

(** exprIn *)
Definition exprIn (l r : value) : result eval_error value :=
  match r with
  | XNil | XAbsent => Ok (XBool false)
  | XList els => Ok (XBool (existsb (exprEqual l) els))
  | _ => exprErr in_requires_list
  end.

(** normalizePrefixValues, on a list of strings *)
Definition normalizePrefixValues (raw : list gostring) : list gostring :=
  List.filter (fun p => negb (TrimSpace p =s [])) raw.

Definition startsWithAny (s : gostring) (prefixes : list gostring) : bool := existsb (HasPrefix s) prefixes.

(** The strings of a prefix list, absent items left out. *)
Fixpoint prefix_strings (items : list value) : option (list gostring) :=
  match items with
  | [] => Some []
  | i :: items' =>
      match exprNormalize i with
      | Some (XStr s) => cons s <$> prefix_strings items'
      | Some (XNil | XAbsent) => prefix_strings items'
      | _ => None
      end
  end.

(** exprStartsWith *)
Definition exprStartsWith (l r : value) : result eval_error value :=
  let answer raw := XBool (match l with XStr s => startsWithAny s (normalizePrefixValues raw) | _ => false end) in
  match r with
  | XNil | XAbsent => Ok (XBool false)
  | XStr p => Ok (answer [p])
  | XList items => match prefix_strings items with Some raw => Ok (answer raw) | None => exprErr operand_type end
  | _ => exprErr operand_type
  end.

Section Text.
Context `{UnicodeTables, GoFmt}.

(** exprPlus *)
Definition exprPlus (l r : value) : result eval_error value :=
  match exprNumberOf l, exprNumberOf r with
  | Some x, Some y => of_number <$> exprArithmetic OpAdd x y
  | _, _ =>
      match l, r with
      | XStr _, _ | _, XStr _ => Ok (XStr (exprText l ++ exprText r))
      | XList ll, XList rl =>
          if MaxInt - Z.of_nat (length rl) <? Z.of_nat (length ll) then exprErr arithmetic_overflow
          else Ok (XList (ll ++ rl))
      | _, _ => exprErr operand_type
      end
  end.

(** The operators of binary that evaluate both operands; [stored] says that the
    right operand reads a stored row. *)
Definition binary_values (op : gostring) (stored : bool) (l r : value) : result eval_error value :=
  if op =s go "==" then Ok (XBool (exprEqual l r))
  else if op =s go "!=" then Ok (XBool (negb (exprEqual l r)))
  else match order_of op with
  | Some o => Ok (XBool (exprOrdered o l r))
  | None =>
      if op =s go "in" then
        if exprStoredMismatch r && stored then Ok (XBool false) else exprIn l r
      else if op =s go "startsWith" then exprStartsWith l r
      else if op =s go "+" then exprPlus l r
      else match arith_of op with
           | Some o =>
               match exprNumberOf l, exprNumberOf r with
               | Some x, Some y => of_number <$> exprArithmetic o x y
               | _, _ => exprErr operand_type
               end
           | None => exprErr unsupported_node
           end
  end.

(** unary, for an evaluated operand *)
Definition negate (v : value) : result eval_error value :=
  match exprNormalize v with
  | None => exprErr operand_type
  | Some nv =>
      match exprNumberOf nv with
      | None => exprErr operand_type
      | Some (NInt i) => if i =? int64_min then exprErr arithmetic_overflow else Ok (XInt (- i))
      | Some (NFloat f) => Ok (XFloat (f64_opp f))
      end
  end.

(** EvaluateShortId, with no engine *)
Definition EvaluateShortId (s : gostring) : gostring :=
  let v := TrimSpace s in
  if v =s [] then []
  else match ParseNodeId v with
       | Ok (_, short) => if short =s [] then v else short
       | Err _ => v
       end.

(** exprAddDuration *)
Definition exprAddDuration (ts dur : value) : result eval_error value :=
  match ts, dur with
  | XStr ts, XStr dur =>
      match parseDate ts, parseISO8601Duration dur with
      | Some t, Some d => Ok (XStr (format_time (t + d)))
      | _, _ => exprErr invalid_argument
      end
  | _, _ => exprErr invalid_argument
  end.

(** exprDaysBetween *)
Definition exprDaysBetween (a b : value) : result eval_error value :=
  match a, b with
  | XStr from, XStr to =>
      match EvaluateDaysBetween from to with
      | Some days => Ok (XInt days)
      | None => exprErr invalid_argument
      end
  | _, _ => exprErr invalid_argument
  end.

(** exprRaise *)
Definition exprRaise (v : value) : result eval_error value := Err (ERaised (exprText v)).

(** exprCoalesceArm; [XAbsent] stands for the templates' missingValue too.  A
    json.Number is of kind string, so it becomes one. *)
Definition exprCoalesceArm (v : value) : value :=
  let v := exprResolveObject v in
  match v with
  | XAbsent | XNil | XStr _ => v
  | GString s | GNumber s => XStr s
  | _ => if IsAbsent v then XNil else v
  end.

Definition blank (v : value) : bool :=
  match v with
  | XNil | XAbsent => true
  | XStr s => TrimSpace s =s []
  | _ => false
  end.

(** coalesceSelect over its arms *)
Fixpoint coalesceSelect {W} (arms : list (eval_m W value)) : eval_m W value :=
  match arms with
  | [] => mret XNil
  | [arm] => v ← arm; mret (match v with XAbsent => XNil | _ => v end)
  | arm :: arms' => v ← arm; if blank v then coalesceSelect arms' else mret v
  end.

(** ** Calls *)

Definition exprIsLambda (n : expr) : bool := match Unparen n with LambdaExpr _ _ => true | _ => false end.

(** The parameters and the body of argument [i], a lambda once the call's shape
    is checked. *)
Definition lambda_at (args : list expr) (i : nat) : list gostring * expr :=
  match Unparen <$> args !! i with
  | Some (LambdaExpr ps b) => (ps, b)
  | _ => ([], NilNode)
  end.

(** Whether one argument is of the kind its parameter asks. *)
Definition argument_fits (key : gostring) (p : Param) (a : expr) : bool :=
  match Unparen a with
  | LambdaExpr ps _ => bool_decide (p_Type p = TypeLambda) && (length ps =? exprLambdaParams key)%nat
  | _ => negb (bool_decide (p_Type p = TypeLambda))
  end.

(** exprCheckShape; [false] is argument_count. *)
Definition exprCheckShape (args : list expr) (named : list (gostring * expr)) (fn : Function) : bool :=
  let required := length (List.filter (fun p => negb (p_Optional p)) (f_Params fn)) in
  (length named =? 0)%nat && (required <=? length args)%nat && (length args <=? length (f_Params fn))%nat
  && forallb (fun pa => argument_fits (Key fn) pa.1 pa.2) (zip (f_Params fn) args).

Section Evaluator.
Context {W : Type} (ev : exprEvaluator W).

(** canonicalID *)
Definition canonicalID (v concept : value) : eval_m W value :=
  match concept with
  | XStr c =>
      if TrimSpace c =s [] then refuse invalid_argument
      else
        let text := TrimSpace (exprText v) in
        if text =s [] then mret (XStr [])
        else match o_CanonicalID (ev_opts ev) with
             | None => mret (XStr text)
             | Some h => s ← hook (h text (TrimSpace c)); mret (XStr s)
             end
  | _ => refuse invalid_argument
  end.

(** variable *)
Definition variable (kind : gostring) (arg : value) : eval_m W value :=
  match arg with
  | XStr name =>
      if TrimSpace name =s [] then refuse invalid_argument
      else match o_Vars (ev_opts ev) with
           | None => refuse var_not_available
           | Some h => s ← hook (h kind (TrimSpace name)); mret (XStr s)
           end
  | _ => refuse invalid_argument
  end.

Definition apply_function (f : function_impl) (name : gostring) (a : list value) : eval_m W value :=
  let a0 := nth 0 a XNil in
  let a1 := nth 1 a XNil in
  match f with
  | FLower => mret (XStr (ToLower (exprText a0)))
  | FUpper => mret (XStr (ToUpper (exprText a0)))
  | FTrim => mret (XStr (TrimSpace (exprText a0)))
  | FHash => mret (XStr (sha256_hex (exprText a0)))
  | FShortId => mret (XStr (EvaluateShortId (exprText a0)))
  | FToString => mret (XStr (exprText a0))
  | FCanonicalId => canonicalID a0 a1
  | FAddDuration => lift (exprAddDuration a0 a1)
  | FDaysBetween => lift (exprDaysBetween a0 a1)
  | FError => lift (exprRaise a0)
  | FVariable => variable name a0
  end.

(** ident *)
Definition ident (name : gostring) (s : scope) : eval_m W value :=
  match Lookup (ev_root ev) s name with
  | Some v => mret v
  | None => if name =s go "now" then mret (XStr (ev_now ev)) else refuse unknown_name
  end.

(** condition *)
Definition condition (v : value) (n : expr) (s : scope) : eval_m W bool :=
  match exprNormalize v with
  | Some (XBool b) => mret b
  | Some (XNil | XAbsent) => mret false
  | _ => if exprStoredRead (ev_root ev) n s then mret false else refuse condition_not_boolean
  end.

(** Eval and evalCondition, open in their recursive calls; the first argument
    is predDepth. *)
Section Open.
Context (eval : nat -> expr -> scope -> eval_m W value).
Context (evalCondition : nat -> expr -> scope -> eval_m W bool).
Context (depth : nat).

Definition unary (op : gostring) (x : expr) (s : scope) : eval_m W value :=
  if op =s go "!" then b ← evalCondition depth x s; mret (XBool (negb b))
  else
    v ← eval depth x s;
    if op =s go "-" then lift (negate v) else refuse unsupported_node.

Definition binary (op : gostring) (x y : expr) (s : scope) : eval_m W value :=
  if (op =s go "&&") || (op =s go "||") then
    lb ← evalCondition depth x s;
    if (if op =s go "&&" then negb lb else lb) then mret (XBool lb)
    else b ← evalCondition depth y s; mret (XBool b)
  else if op =s go "??" then
    coalesceSelect ((fun arm => v ← eval depth arm s; mret (exprCoalesceArm v)) <$> [x; y])
  else
    lraw ← eval depth x s;
    rraw ← eval depth y s;
    l ← normalized operand_type lraw;
    r ← normalized operand_type rraw;
    lift (binary_values op (exprStoredRead (ev_root ev) y s) l r).

Fixpoint eval_elems (es : list expr) (s : scope) : eval_m W (list value) :=
  match es with
  | [] => mret []
  | e :: es' =>
      v ← eval depth e s;
      vs ← eval_elems es' s;
      mret (match exprResolveObject v with XAbsent => vs | v' => v' :: vs end)
  end.

(** A map literal's entries and a construct call's named arguments. *)
Fixpoint eval_entries (es : list (gostring * expr)) (acc : list (gostring * value)) (s : scope)
    : eval_m W (list (gostring * value)) :=
  match es with
  | [] => mret acc
  | (k, e) :: es' =>
      v ← eval depth e s;
      eval_entries es' (match exprResolveObject v with XAbsent => acc | v' => map_set acc k v' end) s
  end.

Fixpoint eval_args (es : list expr) (s : scope) : eval_m W (list value) :=
  match es with
  | [] => mret []
  | e :: es' =>
      v ← eval depth e s;
      nv ← normalized invalid_argument v;
      vs ← eval_args es' s;
      mret (nv :: vs)
  end.

(** applyPredicate *)
Definition applyPredicate (param : gostring) (body : expr) (args : list expr)
    (named : list (gostring * expr)) (s : scope) : eval_m W value :=
  match args, named with
  | [a], [] =>
      if exprIsLambda a then refuse argument_count
      else
        v ← eval depth a s;
        if (exprMaxPredicateDepth <=? depth)%nat then refuse predicate_depth_exceeded
        else
          b ← evalCondition (S depth) body
                [mkFrame [param] [v] [exprStoredRead (ev_root ev) a s]];
          mret (XBool b)
  | _, _ => refuse argument_count
  end.

(** function *)
Definition function (name : gostring) (args : list expr) (named : list (gostring * expr)) (s : scope)
    : eval_m W value :=
  let predicate :=
    match o_Predicates (ev_opts ev) ≫= (fun p => p name) with
    | Some (param, body) => applyPredicate param body args named s
    | None => refuse unknown_function
    end in
  match map_get exprCatalog name with
  | Some fn =>
      match f_Receiver fn with
      | Some _ => predicate
      | None =>
          match map_get exprFunctionImpls name with
          | None => refuse unknown_function
          | Some impl =>
              if exprCheckShape args named fn then
                a ← eval_args args s; apply_function impl name a
              else refuse argument_count
          end
      end
  | None => predicate
  end.

(** constructCall, of the call node [e] *)
Definition constructCall (e : expr) (args : list expr) (named : list (gostring * expr)) (s : scope)
    : eval_m W value :=
  match o_Calls (ev_opts ev) with
  | None => refuse construct_call_not_allowed
  | Some h =>
      if (0 <? length args)%nat then refuse argument_count
      else m ← eval_entries named [] s; hook (h e m)
  end.

(** *** List methods *)

(** bind and exprBoundLambda: the lambda's body, its parameter bound to [el]. *)
Definition element_scope (recv : expr) (args : list expr) (i : nat) (s : scope) (el : value) : scope :=
  mkFrame (take 1 (lambda_at args i).1) [el] [exprStoredRead (ev_root ev) recv s] :: s.

Definition lam_apply (recv : expr) (args : list expr) (s : scope) (el : value) : eval_m W value :=
  eval depth (lambda_at args 0).2 (element_scope recv args 0 s el).

Definition lam_test (recv : expr) (args : list expr) (s : scope) (el : value) : eval_m W bool :=
  evalCondition depth (lambda_at args 0).2 (element_scope recv args 0 s el).

Fixpoint any_loop (test : value -> eval_m W bool) (coll : list value) : eval_m W bool :=
  match coll with
  | [] => mret false
  | el :: coll' => ok ← test el; if ok : bool then mret true else any_loop test coll'
  end.

Fixpoint all_loop (test : value -> eval_m W bool) (coll : list value) : eval_m W bool :=
  match coll with
  | [] => mret true
  | el :: coll' => ok ← test el; if ok : bool then all_loop test coll' else mret false
  end.

Fixpoint where_loop (test : value -> eval_m W bool) (coll : list value) : eval_m W (list value) :=
  match coll with
  | [] => mret []
  | el :: coll' =>
      ok ← test el;
      out ← where_loop test coll';
      mret (if ok : bool then el :: out else out)
  end.

(** [apply] of each element in turn, what it gave stored under [store]. *)
Fixpoint select_loop (apply : value -> eval_m W value) (store : value -> eval_m W value)
    (coll : list value) : eval_m W (list value) :=
  match coll with
  | [] => mret []
  | el :: coll' =>
      v ← apply el;
      k ← store v;
      out ← select_loop apply store coll';
      mret (k :: out)
  end.

(** aggregateNumeric's loop: the sum, the best so far and the count. *)
Fixpoint aggregate_loop (method : aggregate) (apply : value -> eval_m W value) (coll : list value)
    (sum : float64) (best : option float64) (count : Z) : eval_m W (float64 * option float64 * Z) :=
  match coll with
  | [] => mret (sum, best, count)
  | el :: coll' =>
      v ← apply el;
      nv ← normalized operand_type v;
      match runtimeToFloat64 (exprUnsentinel nv) with
      | None => refuse operand_type
      | Some f =>
          let better := match method, best with
                        | (AggSum | AggAvg), _ => best
                        | _, None => Some f
                        | AggMin, Some b => if f64_ltb f b then Some f else best
                        | AggMax, Some b => if f64_ltb b f then Some f else best
                        end in
          aggregate_loop method apply coll' (f64_add sum f) better (count + 1)
      end
  end.

Definition aggregateNumeric (method : aggregate) (coll : list value) (apply : value -> eval_m W value)
    : eval_m W value :=
  match coll with
  | [] => mret (match method with AggSum => XFloat f64_zero | _ => XNil end)
  | _ =>
      '(sum, best, count) ← aggregate_loop method apply coll f64_zero None 0;
      mret (XFloat (match method with
                    | AggSum => sum
                    | AggAvg => f64_div sum (f64_of_Z count)
                    | _ => match best with Some b => b | None => f64_zero end
                    end))
  end.

(** listAggregate *)
Definition listAggregate (method : aggregate) (coll : list value) (apply : value -> eval_m W value)
    : eval_m W value :=
  v ← aggregateNumeric method coll apply;
  match v with
  | XFloat f => if is_inf f || is_nan f then refuse arithmetic_overflow else mret v
  | _ => mret v
  end.

(** orderByLambda *)
Definition key_less (desc : bool) (a b : value * value) : bool :=
  let c := runtimeCompareValues a.1 b.1 in if desc then 0 <? c else c <? 0.

Definition orderByLambda (desc : bool) (coll : list value) (apply : value -> eval_m W value)
    : eval_m W value :=
  keys ← select_loop apply (fun v => nv ← normalized operand_type v; mret (exprUnsentinel nv)) coll;
  mret (XList ((sort_stable (key_less desc) (zip keys coll)).*2)).

(** groups, keys and order of listGroupBy, as one list in first-seen order *)
Fixpoint group_add (ks : gostring) (k el : value) (groups : list (gostring * (value * list value)))
    : list (gostring * (value * list value)) :=
  match groups with
  | [] => [(ks, (k, [el]))]
  | (ks', (k', items)) :: groups' =>
      if ks =s ks' then (ks', (k', items ++ [el])) :: groups'
      else (ks', (k', items)) :: group_add ks k el groups'
  end.

Fixpoint group_all (kes : list (value * value)) (groups : list (gostring * (value * list value)))
    : list (gostring * (value * list value)) :=
  match kes with
  | [] => groups
  | (k, el) :: kes' => group_all kes' (group_add (exprKey k) k el groups)
  end.

Definition group_value (g : gostring * (value * list value)) : value :=
  XMap [(go "key", g.2.1); (go "items", XList g.2.2)].

Definition unsentinel_m (v : value) : eval_m W value := mret (exprUnsentinel v).

Definition listGroupBy (coll : list value) (apply : value -> eval_m W value) : eval_m W value :=
  keys ← select_loop apply unsentinel_m coll;
  mret (XList (group_value <$> group_all (zip keys coll) [])).

(** The first element of each key. *)
Fixpoint keep_first (kes : list (value * value)) (seen : list gostring) : list value :=
  match kes with
  | [] => []
  | (k, el) :: kes' =>
      if memS (exprKey k) seen then keep_first kes' seen
      else el :: keep_first kes' (exprKey k :: seen)
  end.

Definition listDistinct (coll : list value) (apply : option (value -> eval_m W value)) : eval_m W value :=
  keys ← match apply with Some f => select_loop f unsentinel_m coll | None => mret coll end;
  mret (XList (keep_first (zip keys coll) [])).

(** append([]any(nil), l...): of nothing, a nil slice *)
Definition append_nil (l : list value) : value := match l with [] => GTypedNil | _ => XList l end.

(** listTakeSkip *)
Definition listTakeSkip (is_take : bool) (args : list expr) (coll : list value) (s : scope) : eval_m W value :=
  raw ← eval depth (nth 0 args NilNode) s;
  nv ← normalized invalid_argument raw;
  match exprNumberOf nv with
  | None => refuse invalid_argument
  | Some n =>
      let k := exprClampCount n (length coll) in
      mret (append_nil (if is_take then take k coll else drop k coll))
  end.

(** listReduce *)
Fixpoint reduce_loop (lam : list gostring * expr) (acc : value) (coll : list value) (s : scope)
    : eval_m W value :=
  match coll with
  | [] => mret acc
  | el :: coll' =>
      acc' ← eval depth lam.2 (mkFrame (take 2 lam.1) [acc; el] [] :: s);
      reduce_loop lam acc' coll' s
  end.

Definition listReduce (args : list expr) (coll : list value) (s : scope) : eval_m W value :=
  acc ← eval depth (nth 0 args NilNode) s;
  reduce_loop (lambda_at args 1) acc coll s.

(** includes *)
Definition includes (args : list expr) (recv : value) (s : scope) : eval_m W value :=
  match recv with
  | XList _ => refuse operand_type
  | _ =>
      raw ← eval depth (nth 0 args NilNode) s;
      needle ← normalized invalid_argument raw;
      match needle with
      | XNil | XAbsent => mret (XBool false)
      | XStr sub =>
          mret (XBool (negb (TrimSpace sub =s [])
                       && match recv with XStr s => Contains s sub | _ => false end))
      | _ => refuse invalid_argument
      end
  end.

(** The methods of exprMethodImpls. *)
Definition apply_method (m : method_impl) (recv : expr) (args : list expr) (rv : value) (s : scope)
    : eval_m W value :=
  let coll := match rv with XList l => l | _ => [] end in
  let apply := lam_apply recv args s in
  let test := lam_test recv args s in
  match m with
  | MIncludes => includes args rv s
  | MStringCount => mret (XInt (match rv with XStr t => Z.of_nat (length t) | _ => 0 end))
  | MListCount => mret (XInt (Z.of_nat (length coll)))
  | MAny => b ← any_loop test coll; mret (XBool b)
  | MAll => b ← all_loop test coll; mret (XBool b)
  | MWhere => out ← where_loop test coll; mret (XList out)
  | MSelect => out ← select_loop apply unsentinel_m coll; mret (XList out)
  | MFirst => mret (hd XNil coll)
  | MLast => mret (List.last coll XNil)
  | MSingle => match coll with [x] => mret x | _ => refuse single_requires_one end
  | MEmpty => mret (XBool (length coll =? 0)%nat)
  | MAggregate a => listAggregate a coll apply
  | MOrderBy desc => orderByLambda desc coll apply
  | MGroupBy => listGroupBy coll apply
  | MDistinct => listDistinct coll (if (length args =? 1)%nat then Some apply else None)
  | MTake => listTakeSkip true args coll s
  | MSkip => listTakeSkip false args coll s
  | MReduce => listReduce args coll s
  | MNodes => mret (XList coll)
  end.

(** dispatchMethod *)
Definition dispatchMethod (fn : Function) (recv : expr) (args : list expr) (rv : value) (s : scope)
    : eval_m W value :=
  match map_get exprMethodImpls (Key fn) with
  | Some m => apply_method m recv args rv s
  | None => refuse unknown_method
  end.

(** absentReceiverMethod *)
Definition absentReceiverMethod (name : gostring) (args : list expr) (s : scope) : eval_m W value :=
  let called (n : string) := name =s go n in
  if called "count" then mret (XInt 0)
  else if called "any" then mret (XBool false)
  else if called "all" || called "empty" then mret (XBool true)
  else if called "first" || called "last" then mret XAbsent
  else if called "sum" then mret (XFloat f64_zero)
  else if called "min" || called "max" || called "avg" then mret XNil
  else if called "single" then refuse single_requires_one
  else if called "reduce" then eval depth (nth 0 args NilNode) s
  else mret (XList []).

Definition is_string (v : value) : bool := match v with XStr _ => true | _ => false end.

(** method *)
Definition method (recv : expr) (name : gostring) (args : list expr) (named : list (gostring * expr))
    (s : scope) : eval_m W value :=
  let listFn := exprMethodEntry TypeList name in
  let strFn := exprMethodEntry TypeString name in
  let fits (f : option Function) := match f with Some f => exprCheckShape args named f | None => false end in
  if negb (bool_decide (is_Some listFn) || bool_decide (is_Some strFn)) then refuse unknown_method
  else if negb (fits listFn || fits strFn) then refuse argument_count
  else
    raw ← eval depth recv s;
    rv ← normalized operand_type raw;
    match listFn with
    | None => match strFn with Some f => dispatchMethod f recv args rv s | None => refuse unknown_method end
    | Some lf =>
        let stored :=
          if exprStoredMismatch rv && negb (is_string rv && bool_decide (is_Some strFn))
             && exprStoredRead (ev_root ev) recv s
          then exprStoredListAnswer name else None in
        match stored with
        | Some answer => mret answer
        | None =>
            if is_string rv then
              match strFn with
              | None => refuse operand_type
              | Some f => if exprCheckShape args named f then dispatchMethod f recv args rv s else refuse argument_count
              end
            else if negb (exprCheckShape args named lf) then refuse argument_count
            else match exprCollection rv with
                 | Err _ => refuse operand_type
                 | Ok None => absentReceiverMethod name args s
                 | Ok (Some coll) => dispatchMethod lf recv args (XList coll) s
                 end
        end
    end.

(** What eval does with a node once its step is counted. *)
Definition eval_node (n : expr) (s : scope) : eval_m W value :=
  match n with
  | IdentExpr name => ident name s
  | MemberExpr o field _ => obj ← eval depth o s; lift (exprMember obj field)
  | CallExpr r name kind args named =>
      if negb (kind =s []) then constructCall n args named s
      else if is_nil_node r then function name args named s
      else method r name args named s
  | UnaryExpr op x => unary op x s
  | BinaryExpr op x y => binary op x y s
  | TernaryExpr c t f => ok ← evalCondition depth c s; if ok : bool then eval depth t s else eval depth f s
  | ListExpr es => vs ← eval_elems es s; mret (XList vs)
  | MapExpr es => m ← eval_entries es [] s; mret (XMap m)
  | ParenExpr i => eval depth i s
  | LiteralExpr v => mret (literal_value v)
  | NilExpr => mret XNil
  | LambdaExpr _ _ => refuse lambda_not_callable
  | NilNode | ForeignNode _ => refuse unsupported_node
  end.

(** eval *)
Definition eval_body (n : expr) (s : scope) : eval_m W value := _ ← step ev; eval_node n s.

(** evalCondition *)
Definition cond_body (n : expr) (s : scope) : eval_m W bool :=
  match n with
  | ParenExpr i => _ ← step ev; evalCondition depth i s
  | TernaryExpr c t f =>
      _ ← step ev;
      ok ← evalCondition depth c s;
      if ok : bool then evalCondition depth t s else evalCondition depth f s
  | _ => v ← eval_body n s; condition v n s
  end.
End Open.

Fixpoint eval_fuel (fuel : nat) (depth : nat) (n : expr) (s : scope) {struct fuel} : eval_m W value :=
  match fuel with
  | O => lift (Err EFuel)
  | S f => eval_body (eval_fuel f) (cond_fuel f) depth n s
  end
with cond_fuel (fuel : nat) (depth : nat) (n : expr) (s : scope) {struct fuel} : eval_m W bool :=
  match fuel with
  | O => lift (Err EFuel)
  | S f => cond_body (eval_fuel f) (cond_fuel f) depth n s
  end.

(** One more than the steps the budget allows. *)
Definition ev_fuel : nat := S (Z.to_nat (ev_budget ev)).

Definition eval : expr -> scope -> eval_m W value := eval_fuel ev_fuel 0.
Definition evalCondition : expr -> scope -> eval_m W bool := cond_fuel ev_fuel 0.
End Evaluator.

(** EvalExpr: the answer and the world the hooks leave. *)
Definition EvalExpr {W} (ctx : Z -> bool) (clock : Z) (n : expr) (root : gostring -> option value)
    (opts : EvalOptions W) (w : W) : result eval_error value * W :=
  let '(r, st) := eval (newExprEvaluator ctx clock root opts) n [] (mkState 0 w) in
  (exprResolveObject <$> r, st_world st).

(** EvalCondition *)
Definition EvalCondition {W} (ctx : Z -> bool) (clock : Z) (n : expr) (root : gostring -> option value)
    (opts : EvalOptions W) (w : W) : result eval_error bool * W :=
  let '(r, st) := evalCondition (newExprEvaluator ctx clock root opts) n [] (mkState 0 w) in
  (r, st_world st).
End Text.
