(* ===== verification/ValueFacts.v ===== *)
(** Equality, order and arithmetic of the expression language on data: what a
    decoded payload holds. *)

From Stdlib Require Import SpecFloat.
From S2P Require Import Prelude GoText Strconv Numbers ExprNumbers Values Ast Scope Eval.

(** ** Induction on values *)

Section ValueInd.
Context (P : value -> Prop).
Context (Hleaf : forall v, match v with
  | XNil | XAbsent | XBool _ | XStr _ | XInt _ | XFloat _ | GInt _ | GNumber _ | GTime _ | GString _ | GBool _
  | GTypedNil | GOpaque => True | _ => False end -> P v).
Context (HList : forall l, Forall P l -> P (XList l)).
Context (HSlice : forall l, Forall P l -> P (GSlice l)).
Context (HMap : forall m, Forall (fun kv => P kv.2) m -> P (XMap m)).
Context (HStringMap : forall m, Forall (fun kv => P kv.2) m -> P (GStringMap m)).
Context (HRow : forall i c t u a p m, match p with Some m' => Forall (fun kv => P kv.2) m' | None => True end ->
  Forall (fun kv => P kv.2) m -> P (XRow i c t u a p m)).
Context (HObject : forall member stands, (forall f, match member f with Some x => P x | None => True end) ->
  P stands -> P (XObject member stands)).
Context (HMembers : forall read, (forall f, match read f with Ok x => P x | Err _ => True end) -> P (XMembers read)).
Context (HPtr : forall v, P v -> P (GPtr v)).
Context (HJSON : forall t d, match d with Some v => P v | None => True end -> P (GJSON t d)).

Fixpoint value_ind' (v : value) : P v :=
  let fix all (l : list value) : Forall P l :=
    match l with [] => List.Forall_nil _ | x :: l' => List.Forall_cons _ x l' (value_ind' x) (all l') end in
  let fix allkv (m : list (gostring * value)) : Forall (fun kv => P kv.2) m :=
    match m with
    | [] => List.Forall_nil _
    | (k, x) :: m' => List.Forall_cons _ (k, x) m' (value_ind' x) (allkv m')
    end in
  match v with
  | XList l => HList l (all l)
  | GSlice l => HSlice l (all l)
  | XMap m => HMap m (allkv m)
  | GStringMap m => HStringMap m (allkv m)
  | XRow i c t u a p m =>
      HRow i c t u a p m (match p as p return match p with Some m' => Forall (fun kv => P kv.2) m' | None => True end with
                            | Some m' => allkv m' | None => I end) (allkv m)
  | XObject member stands =>
      HObject member stands (fun f => match member f as o return match o with Some x => P x | None => True end with
                                        | Some x => value_ind' x | None => I end) (value_ind' stands)
  | XMembers read => HMembers read (fun f => match read f as r return match r with Ok x => P x | Err _ => True end with
                                                | Ok x => value_ind' x | Err _ => I end)
  | GPtr p => HPtr p (value_ind' p)
  | GJSON t d => HJSON t d (match d as d return match d with Some x => P x | None => True end with
                               | Some x => value_ind' x | None => I end)
  | XNil => Hleaf XNil I | XAbsent => Hleaf XAbsent I | XBool b => Hleaf (XBool b) I
  | XStr s => Hleaf (XStr s) I | XInt i => Hleaf (XInt i) I | XFloat f => Hleaf (XFloat f) I
  | GInt z => Hleaf (GInt z) I | GNumber s => Hleaf (GNumber s) I | GTime s => Hleaf (GTime s) I
  | GString s => Hleaf (GString s) I | GBool b => Hleaf (GBool b) I | GTypedNil => Hleaf GTypedNil I
  | GOpaque => Hleaf GOpaque I
  end.
End ValueInd.

(** ** Data *)

(** Decoded data: null, booleans, strings, 64-bit integers, finite floats, lists
    and maps of them, and the mark of a missing field. *)
Fixpoint is_data (v : value) : bool :=
  match v with
  | XNil | XAbsent | XBool _ | XStr _ => true
  | XInt i => in_int64 i
  | XFloat f => f64_finite f
  | XList l => forallb is_data l
  | XMap m => bool_decide (NoDup (m.*1)) && forallb (fun kv => is_data kv.2) m
  | _ => false
  end.

Lemma is_data_normal v : is_data v = true -> exprNormalize v = Some v.
Proof. by destruct v. Qed.

Lemma of_number_data n : num_ok n = true <-> is_data (of_number n) = true.
Proof. by destruct n. Qed.

(** ** Numbers *)

Lemma numbers_equal_exact x y : num_ok x = true -> num_ok y = true ->
  numbers_equal x (of_number y) = (num_exact x =? num_exact y).
Proof.
  intros Hx Hy. unfold numbers_equal. replace (exprNumberOf (of_number y)) with (Some y) by by destruct y.
  rewrite compare_numbers_exact by done. destruct (Z.compare_spec (num_exact x) (num_exact y)) as [E|E|E]; cbn; symmetry.
  - by apply Z.eqb_eq.
  - apply Z.eqb_neq. lia.
  - apply Z.eqb_neq. lia.
Qed.

Lemma numbers_equal_other x v : exprNumberOf v = None -> numbers_equal x v = false.
Proof. unfold numbers_equal. by intros ->. Qed.

(** ** Maps as sets of bindings *)

Section MapEq.
Context (eq : value -> value -> bool).

Definition map_eqb (x y : list (gostring * value)) : bool :=
  (length x =? length y)%nat
  && forallb (fun kv => match map_get y kv.1 with Some yv => eq kv.2 yv | None => false end) x.
End MapEq.

Lemma map_get_elem_of {A} (m : list (gostring * A)) k v : NoDup (m.*1) -> (k, v) ∈ m -> map_get m k = Some v.
Proof.
  induction m as [|[k' v'] m IH]; intros Hn Hin; [by apply not_elem_of_nil in Hin|]. cbn in Hn. apply NoDup_cons in Hn as [Hk Hn].
  cbn [map_get]. apply elem_of_cons in Hin as [Hin|Hin].
  - simplify_eq. by rewrite eqs_refl.
  - destruct (k =s k') eqn:E; [|by apply IH]. apply eqs_true in E as ->. exfalso. apply Hk.
    apply list_elem_of_fmap. by exists (k', v).
Qed.

Lemma map_get_Some_elem {A} (m : list (gostring * A)) k v : map_get m k = Some v -> (k, v) ∈ m.
Proof.
  induction m as [|[k' v'] m IH]; [done|]. cbn [map_get]. destruct (k =s k') eqn:E.
  - apply eqs_true in E as ->. intros [= ->]. by left.
  - intros ?%IH. by right.
Qed.

Lemma map_eqb_spec eq x y : NoDup (x.*1) -> NoDup (y.*1) -> map_eqb eq x y = true <->
  length x = length y /\ forall k v, (k, v) ∈ x -> exists v', (k, v') ∈ y /\ eq v v' = true.
Proof.
  intros Hx Hy. unfold map_eqb. rewrite andb_true_iff, Nat.eqb_eq, List.forallb_forall. split.
  - intros [Hl Ha]. split; [done|]. intros k v Hin. specialize (Ha (k, v) (proj1 (list_elem_of_In _ _) Hin)).
    cbn in Ha. destruct (map_get y k) as [v'|] eqn:E; [|done]. exists v'. split; [by apply map_get_Some_elem|done].
  - intros [Hl Ha]. split; [done|]. intros [k v] Hin. destruct (Ha k v) as (v' & Hv' & He); [by apply list_elem_of_In|].
    cbn. by rewrite (map_get_elem_of y k v').
Qed.

(** With as many bindings on both sides, each is matched from the other. *)
Lemma map_eqb_back eq x y k v' : NoDup (x.*1) -> NoDup (y.*1) -> map_eqb eq x y = true -> (k, v') ∈ y ->
  exists v, (k, v) ∈ x /\ eq v v' = true.
Proof.
  intros Hx Hy Heq Hin. pose proof (proj1 (map_eqb_spec eq x y Hx Hy) Heq) as [Hl Ha].
  assert (Hincl : incl (y.*1) (x.*1)).
  { apply NoDup_length_incl; [by apply NoDup_ListNoDup|by rewrite !length_fmap, Hl|].
    intros k' Hk'%list_elem_of_In. apply list_elem_of_fmap in Hk' as ([k'' v] & -> & Hk'). apply Ha in Hk' as (u & Hu & _).
    apply list_elem_of_In, list_elem_of_fmap. by exists (k'', u). }
  assert (Hk : k ∈ x.*1) by (apply list_elem_of_In, Hincl, list_elem_of_In, list_elem_of_fmap; by exists (k, v')).
  apply list_elem_of_fmap in Hk as ([k' v] & Hk & Hv). cbn in Hk. subst k'. exists v. split; [done|].
  destruct (Ha k v Hv) as (u & Hu & He). apply (map_get_elem_of y k u Hy) in Hu. apply (map_get_elem_of y k v' Hy) in Hin.
  congruence.
Qed.

(** ** Strict equality on data *)

Lemma strict_equal_list x y : strict_equal 16 (XList x) (XList y) = all2 (strict_equal 16) x y.
Proof. done. Qed.

Lemma strict_equal_map x y : strict_equal 16 (XMap x) (XMap y) = map_eqb (strict_equal 16) x y.
Proof. done. Qed.

Lemma all2_spec {A B} (f : A -> B -> bool) l k : all2 f l k = true <-> Forall2 (fun x y => f x y = true) l k.
Proof.
  revert k. induction l as [|x l IH]; intros [|y k]; cbn; split; intros Ha; try done; try by inversion Ha.
  - apply andb_true_iff in Ha as [? ?]. constructor; [done|by apply IH].
  - inversion Ha; subst. apply andb_true_iff. split; [done|by apply IH].
Qed.

(** What strict equality asks, by the left side. *)
Lemma strict_data a b : is_data a = true -> is_data b = true ->
  strict_equal 16 a b =
  match a, b with
  | (XNil | XAbsent), _ => IsAbsent b
  | XBool x, XBool y => eqb x y
  | XStr x, XStr y => x =s y
  | XInt i, _ => numbers_equal (NInt i) b
  | XFloat f, _ => numbers_equal (NFloat f) b
  | XList x, XList y => all2 (strict_equal 16) x y
  | XMap x, XMap y => map_eqb (strict_equal 16) x y
  | _, _ => false
  end.
Proof. by destruct a, b. Qed.

Lemma data_list l : is_data (XList l) = true -> Forall (fun v => is_data v = true) l.
Proof. cbn. intros Hl. apply List.Forall_forall. by apply List.forallb_forall. Qed.

Lemma data_map m : is_data (XMap m) = true -> NoDup (m.*1) /\ Forall (fun kv => is_data kv.2 = true) m.
Proof.
  cbn. intros [Hn Hm]%andb_true_iff. apply bool_decide_eq_true in Hn. split; [done|].
  apply List.Forall_forall. by apply List.forallb_forall.
Qed.

Lemma data_map_elem (m : list (gostring * value)) k v :
  Forall (fun kv => is_data kv.2 = true) m -> (k, v) ∈ m -> is_data v = true.
Proof. rewrite Forall_forall. intros Hm Hin. apply (Hm (k, v) Hin). Qed.

Lemma data_num_ok v x : is_data v = true -> exprNumberOf v = Some x -> num_ok x = true.
Proof. destruct v; try done; intros Hv [= <-]; done. Qed.

(** Numbers of data, by their exact value. *)
Lemma strict_num a b x : is_data a = true -> is_data b = true -> exprNumberOf a = Some x ->
  strict_equal 16 a b = match exprNumberOf b with Some y => num_exact x =? num_exact y | None => false end.
Proof.
  intros Ha Hb Hx. pose proof (data_num_ok a x Ha Hx) as Hox. rewrite strict_data by done.
  assert (Hn : numbers_equal x b = match exprNumberOf b with Some y => num_exact x =? num_exact y | None => false end).
  { destruct (exprNumberOf b) as [y|] eqn:Hy; [|by apply numbers_equal_other].
    rewrite <- numbers_equal_exact by (done || by eapply data_num_ok). by destruct b; simplify_eq/=. }
  destruct a; simplify_eq/=; exact Hn.
Qed.

Ltac strict_step Hd1 Hd2 H := rewrite (strict_data _ _ Hd1 Hd2) in H.

Lemma strict_refl v : is_data v = true -> strict_equal 16 v v = true.
Proof.
  induction v as [v Hv|l IH| |m IH| | | | | |] using value_ind'; try done.
  - intros Hd. destruct (exprNumberOf v) as [x|] eqn:Hx.
    { rewrite (strict_num v v x), Hx by done. apply Z.eqb_refl. }
    destruct v; try done; rewrite strict_data by done; [by destruct b|apply eqs_refl].
  - intros Hd. rewrite strict_equal_list. apply all2_spec. apply data_list in Hd.
    clear -IH Hd. induction IH as [|x l Hx IH IHl]; [done|]. inversion Hd; subst. constructor; auto.
  - intros Hd. rewrite strict_equal_map. apply data_map in Hd as [Hn Hd]. apply map_eqb_spec; try done.
    split; [done|]. intros k v Hin. exists v. split; [done|]. rewrite Forall_forall in IH. apply (IH (k, v) Hin).
    by eapply data_map_elem.
Qed.

Lemma strict_sym a : forall b, is_data a = true -> is_data b = true -> strict_equal 16 a b = true -> strict_equal 16 b a = true.
Proof.
  induction a as [a Ha|l IH| |m IH| | | | | |] using value_ind'; try done.
  - intros b Hd1 Hd2 Hs. destruct (exprNumberOf a) as [x|] eqn:Hx.
    { rewrite (strict_num a b x) in Hs by done. destruct (exprNumberOf b) as [y|] eqn:Hy; [|done].
      rewrite (strict_num b a y), Hx by done. by rewrite Z.eqb_sym. }
    destruct a; try done; strict_step Hd1 Hd2 Hs; rewrite strict_data by done; destruct b; try done.
    + by rewrite eqb_true_iff in *.
    + apply eqs_true in Hs as ->. apply eqs_refl.
  - intros b Hd1 Hd2 Hs. strict_step Hd1 Hd2 Hs. destruct b as [| | | | | |k| | | | | | | | | | | | | | |]; try done.
    rewrite strict_equal_list. apply all2_spec in Hs. apply all2_spec. apply data_list in Hd1, Hd2. revert Hd1 Hd2 IH.
    induction Hs as [|x y l k Hx Hs IHs]; intros Hd1 Hd2 IH; [done|]. inversion Hd1; inversion Hd2; inversion IH; subst.
    constructor; auto.
  - intros b Hd1 Hd2 Hs. strict_step Hd1 Hd2 Hs. destruct b as [| | | | | | |k| | | | | | | | | | | | | |]; try done.
    rewrite strict_equal_map. apply data_map in Hd1 as [Hn1 Hd1], Hd2 as [Hn2 Hd2]. apply map_eqb_spec; try done.
    pose proof (proj1 (map_eqb_spec _ m k Hn1 Hn2) Hs) as [Hl _]. split; [done|]. intros x v Hin.
    destruct (map_eqb_back _ m k x v Hn1 Hn2 Hs Hin) as (u & Hu & He). exists u. split; [done|].
    rewrite Forall_forall in IH.
    exact (IH (x, u) Hu v (data_map_elem m x u Hd1 Hu) (data_map_elem k x v Hd2 Hin) He).
Qed.

Lemma strict_trans a : forall b c, is_data a = true -> is_data b = true -> is_data c = true ->
  strict_equal 16 a b = true -> strict_equal 16 b c = true -> strict_equal 16 a c = true.
Proof.
  induction a as [a Ha|l IH| |m IH| | | | | |] using value_ind'; try done.
  - intros b c Hd1 Hd2 Hd3 H1 H2. destruct (exprNumberOf a) as [x|] eqn:Hx.
    { rewrite (strict_num a b x) in H1 by done. rewrite (strict_num a c x) by done. destruct (exprNumberOf b) as [y|] eqn:Hy; [|done].
      rewrite (strict_num b c y) in H2 by done. destruct (exprNumberOf c); [|done].
      apply Z.eqb_eq in H1 as ->. done. }
    strict_step Hd1 Hd2 H1. strict_step Hd2 Hd3 H2. rewrite strict_data by done.
    destruct a; try done; destruct b; try done; destruct c; try done.
    + rewrite eqb_true_iff in *. congruence.
    + rewrite eqs_true in *. congruence.
  - intros b c Hd1 Hd2 Hd3 H1 H2. strict_step Hd1 Hd2 H1. destruct b as [| | | | | |k| | | | | | | | | | | | | | |]; try done.
    strict_step Hd2 Hd3 H2. destruct c as [| | | | | |j| | | | | | | | | | | | | | |]; try done. rewrite strict_equal_list.
    apply all2_spec in H1, H2. apply all2_spec. apply data_list in Hd1, Hd2, Hd3. revert j H2 Hd1 Hd2 Hd3 IH.
    induction H1 as [|x y l k Hx H1 IHs]; intros j H2 Hd1 Hd2 Hd3 IH; inversion H2; subst; [done|].
    inversion Hd1; inversion Hd2; inversion Hd3; inversion IH; subst. constructor; [|by auto].
    match goal with Hi : forall b c, _ |- _ => by apply (Hi y) end.
  - intros b c Hd1 Hd2 Hd3 H1 H2. strict_step Hd1 Hd2 H1. destruct b as [| | | | | | |k| | | | | | | | | | | | | |]; try done.
    strict_step Hd2 Hd3 H2. destruct c as [| | | | | | |j| | | | | | | | | | | | | |]; try done. rewrite strict_equal_map.
    apply data_map in Hd1 as [Hn1 Hd1], Hd2 as [Hn2 Hd2], Hd3 as [Hn3 Hd3].
    apply map_eqb_spec in H1 as [Hl1 H1], H2 as [Hl2 H2]; try done. apply map_eqb_spec; try done. split; [congruence|].
    intros x v Hv. destruct (H1 x v Hv) as (v' & Hv' & He). destruct (H2 x v' Hv') as (v'' & Hv'' & He').
    exists v''. split; [done|]. rewrite Forall_forall in IH.
    exact (IH (x, v) Hv v' v'' (data_map_elem m x v Hd1 Hv) (data_map_elem k x v' Hd2 Hv')
      (data_map_elem j x v'' Hd3 Hv'') He He').
Qed.

(** ** Theorems *)

(** C19: On decoded data `==` is an equivalence relation: every value equals itself
    (absent and null included), the order of the operands does not matter, and
    equals of equals are equal; absent, null and the empty string are one class. *)
Theorem equality_equivalence a b c :
  is_data a = true -> is_data b = true -> is_data c = true ->
  exprEqual a a = true /\ exprEqual a b = exprEqual b a
  /\ (exprEqual a b = true -> exprEqual b c = true -> exprEqual a c = true)
  /\ exprEqual a XNil = exprEqual a XAbsent /\ exprEqual a XNil = exprEqual a (XStr []).
Proof.
  intros Ha Hb Hc. unfold exprEqual, exprStrictEqual. split; [|split; [|split]].
  - destruct (exprIsUnset a) eqn:E; [done|]. by apply strict_refl.
  - destruct (exprIsUnset a), (exprIsUnset b); try done. cbn [orb].
    destruct (strict_equal 16 a b) eqn:E1, (strict_equal 16 b a) eqn:E2; try done;
      [apply strict_sym in E1|apply strict_sym in E2]; congruence.
  - destruct (exprIsUnset a), (exprIsUnset b), (exprIsUnset c); try done. cbn [orb]. by apply strict_trans.
  - by destruct (exprIsUnset a).
Qed.

Lemma equality_equivalence_witness :
  let a := XList [XInt 9007199254740993; XMap [(go "k", XFloat (S754_finite false 4503599627370496 (-52))); (go "j", XNil)]] in
  let b := XList [XInt 9007199254740993; XMap [(go "j", XAbsent); (go "k", XInt 1)]] in
  a <> b /\ exprEqual a b = true /\ exprEqual a b = exprEqual b a.
Proof.
  intros a b. split; [discriminate|]. split; [by vm_compute|].
  apply (equality_equivalence a b b); by vm_compute.
Defined.

(** C20: Numbers compare and equal each other by their exact values, an integer never
    rounded to a float: for 64-bit integers and finite floats in any mixture the
    ordered operators and `==` are those of the rationals. *)
Theorem numeric_order_exact op a b : num_ok a = true -> num_ok b = true ->
  exprOrdered op (of_number a) (of_number b) = order_holds op (sign_of_cmp (num_exact a ?= num_exact b))
  /\ exprEqual (of_number a) (of_number b) = (num_exact a =? num_exact b).
Proof.
  intros Ha Hb. split.
  - unfold exprOrdered. replace (exprNumberOf (of_number a)) with (Some a) by by destruct a.
    replace (exprNumberOf (of_number b)) with (Some b) by by destruct b. by rewrite compare_numbers_exact.
  - pose proof (proj1 (of_number_data a) Ha) as Da. pose proof (proj1 (of_number_data b) Hb) as Db.
    replace (exprEqual (of_number a) (of_number b)) with (strict_equal 16 (of_number a) (of_number b)) by by destruct a, b.
    rewrite (strict_num _ _ a) by (done || by destruct a). by destruct b.
Qed.

Lemma numeric_order_exact_witness :
  exprOrdered OpGt (XInt 9007199254740993) (XFloat (S754_finite false 4503599627370496 1)) = true
  /\ exprEqual (XInt 9007199254740993) (XFloat (S754_finite false 4503599627370496 1)) = false.
Proof.
  destruct (numeric_order_exact OpGt (NInt 9007199254740993) (NFloat (S754_finite false 4503599627370496 1)))
    as [Ho He]; [by vm_compute..|]. cbn [of_number] in Ho, He. rewrite Ho, He. by vm_compute.
Defined.

(** The source spelling of an arithmetic operator. *)
Definition arith_text (op : arith_op) : gostring :=
  match op with OpAdd => go "+" | OpSub => go "-" | OpMul => go "*" | OpDiv => go "/" | OpMod => go "%" end.

(** C21: Integer arithmetic never wraps: on 64-bit integers each operator answers the
    exact result when 64 bits hold it, division_by_zero on a zero divisor, and
    arithmetic_overflow otherwise. *)
Theorem integer_arithmetic_exact `{GoFmt} op stored x y :
  in_int64 x = true -> in_int64 y = true ->
  binary_values (arith_text op) stored (XInt x) (XInt y) = of_number <$> int_spec op x y.
Proof. intros Hx Hy. rewrite <- arith_int_exact by done. by destruct op. Qed.

(** fmt's text of the values the model does not spell out, for examples. *)
Definition plain_fmt : GoFmt := {| sprint_other := fun _ => [] |}.

(** An evaluation with no hooks. *)
Definition no_hooks : EvalOptions unit := mkOptions (Some 0) 1000 None None None None.

Lemma integer_arithmetic_exact_witness :
  @binary_values plain_fmt (go "*") false (XInt (-1)) (XInt (- 2 ^ 63)) = exprErr arithmetic_overflow.
Proof. by rewrite (@integer_arithmetic_exact plain_fmt OpMul). Defined.
