(* ===== verification/EvalRel.v ===== *)
(** One walk over the evaluator for every theorem about it.

    [eval_rel] is what a relation between two computations must offer to be
    carried through every operation: returns, errors, sequencing and hooks.
    [eval_node_rel] carries it through a node, given that the recursive calls
    are related, for expressions related by [E] and values kept within [V]. *)

From Stdlib Require Import SpecFloat.
From S2P Require Import Prelude GoText GoSort Strconv Numbers ExprNumbers Times Ids.
From S2P Require Import Values Catalog Ast Scope Eval.

(** ** Interfaces *)

(** Errors that stop an evaluation from outside: the budget, the context, the
    model's fuel. *)
Definition interrupts (e : eval_error) : bool :=
  match e with EFuel | EContext | ECode expression_budget_exceeded => true | _ => false end.

Definition interrupted {A} (r : result eval_error A) : bool :=
  match r with Err e => interrupts e | Ok _ => false end.

(** A relation between computations that says what their answers satisfy. *)
Class eval_rel {W} (R : forall A, eval_m W A -> eval_m W A -> (A -> Prop) -> Prop) := {
  rel_ret : forall A a (P : A -> Prop), P a -> R A (mret a) (mret a) P;
  rel_err : forall A e (P : A -> Prop), interrupts e = false -> R A (lift (Err e)) (lift (Err e)) P;
  rel_bind : forall A B m1 m2 k1 k2 (P : A -> Prop) (Q : B -> Prop),
    R A m1 m2 P -> (forall a, P a -> R B (k1 a) (k2 a) Q) -> R B (m1 ≫= k1) (m2 ≫= k2) Q;
  rel_hook : forall A h (P : A -> Prop),
    (forall w a, (h w).1 = Ok a -> P a) -> R A (hook h) (hook h) P
}.

(** A property [V] of values the operations keep, and the property [El] of what
    lists and maps hold. *)
Class value_inv `{UnicodeTables} (V El : value -> Prop) := {
  vi_nil : El XNil;
  vi_absent : V XAbsent;
  vi_bool : forall b, El (XBool b);
  vi_str : forall s, El (XStr s);
  vi_int : forall i, El (XInt i);
  vi_float : forall f, El (XFloat f);
  vi_literal : forall l, V (literal_value l);
  vi_nil_slice : V GTypedNil;
  vi_el : forall v, El v -> V v;
  vi_list : forall l, Forall El l -> El (XList l);
  vi_list_inv : forall l, V (XList l) -> Forall El l;
  vi_map : forall m, Forall El (m.*2) -> El (XMap m);
  vi_resolve : forall v, V v -> exprResolveObject v <> XAbsent -> El (exprResolveObject v);
  vi_normal : forall v nv, V v -> exprNormalize v = Some nv -> V nv;
  vi_member : forall v f x, V v -> exprMember v f = Ok x -> V x;
  vi_collection : forall v l, V v -> exprCollection v = Ok (Some l) -> Forall El l
}.

(** Expressions alike one layer down. *)
Definition layer (E : expr -> expr -> Prop) (n1 n2 : expr) : Prop :=
  match n1, n2 with
  | NilNode, NilNode | NilExpr, NilExpr => True
  | IdentExpr x, IdentExpr y => x = y
  | MemberExpr o1 f1 q1, MemberExpr o2 f2 q2 => E o1 o2 /\ f1 = f2 /\ q1 = q2
  | CallExpr r1 x1 k1 a1 m1, CallExpr r2 x2 k2 a2 m2 =>
      E r1 r2 /\ is_nil_node r1 = is_nil_node r2 /\ x1 = x2 /\ k1 = k2 /\ Forall2 E a1 a2
      /\ Forall2 (fun p q => p.1 = q.1 /\ E p.2 q.2) m1 m2
  | UnaryExpr p1 x1, UnaryExpr p2 x2 => p1 = p2 /\ E x1 x2
  | BinaryExpr p1 x1 y1, BinaryExpr p2 x2 y2 => p1 = p2 /\ E x1 x2 /\ E y1 y2
  | TernaryExpr c1 t1 e1, TernaryExpr c2 t2 e2 => E c1 c2 /\ E t1 t2 /\ E e1 e2
  | LambdaExpr p1 b1, LambdaExpr p2 b2 => p1 = p2 /\ E b1 b2
  | ListExpr a1, ListExpr a2 => Forall2 E a1 a2
  | MapExpr m1, MapExpr m2 => Forall2 (fun p q => p.1 = q.1 /\ E p.2 q.2) m1 m2
  | ParenExpr i1, ParenExpr i2 => E i1 i2
  | LiteralExpr v1, LiteralExpr v2 => v1 = v2
  | ForeignNode t1, ForeignNode t2 => t1 = t2
  | _, _ => False
  end.

Definition is_paren (n : expr) : bool := match n with ParenExpr _ => true | _ => false end.

(** A relation of expressions that looks through parentheses the way the
    evaluator does. *)
Class expr_rel (E : expr -> expr -> Prop) := {
  er_nil : E NilNode NilNode;
  er_lambda : forall n1 n2, E n1 n2 ->
    match Unparen n1, Unparen n2 with
    | LambdaExpr ps1 b1, LambdaExpr ps2 b2 => ps1 = ps2 /\ E b1 b2
    | LambdaExpr _ _, _ | _, LambdaExpr _ _ => False
    | _, _ => True
    end;
  er_stored : forall root s hops n1 n2, E n1 n2 -> stored_read root s hops n1 = stored_read root s hops n2
}.

#[export] Instance expr_rel_eq : expr_rel eq.
Proof.
  split.
  - done.
  - intros n ? <-. by destruct (Unparen n).
  - by intros ? ? ? ? ? <-.
Qed.

Lemma layer_refl (E : expr -> expr -> Prop) n : (forall m, E m m) -> layer E n n.
Proof.
  intros HE. assert (HF : forall l, Forall2 E l l) by (induction l; by constructor).
  assert (HM : forall l, Forall2 (fun p q : gostring * expr => p.1 = q.1 /\ E p.2 q.2) l l)
    by (induction l; by constructor). destruct n; cbn; auto 6.
Qed.

Lemma layer_eq n1 n2 : layer eq n1 n2 -> n1 = n2.
Proof.
  assert (HF : forall l k : list expr, Forall2 eq l k -> l = k) by (intros l k; by apply list_eq_Forall2).
  assert (HM : forall l k, Forall2 (fun p q : gostring * expr => p.1 = q.1 /\ p.2 = q.2) l k -> l = k).
  { intros l k Hl. induction Hl as [|[] [] ? ? [? ?] ? IH]; [done|]. cbn in *. by subst. }
  destruct n1, n2; cbn; try done; intros; destruct_and?; f_equal; auto; by subst.
Qed.

(** No property of values at all. *)
#[export] Instance value_inv_true `{UnicodeTables} : value_inv (fun _ => True) (fun _ => True).
Proof. split; intros; try done; by apply Forall_true. Qed.

(** ** Pure operations *)

(** No operation on values interrupts. *)
Definition uninterrupted {A} (r : result eval_error A) : Prop := interrupted r = false.

Lemma uninterrupted_fmap {A B} (f : A -> B) (r : result eval_error A) : uninterrupted r -> uninterrupted (f <$> r).
Proof. destruct r as [|[]]; done. Qed.

Lemma arithmetic_uninterrupted op a b : uninterrupted (exprArithmetic op a b).
Proof.
  unfold uninterrupted, exprArithmetic, arith_int, arith_float, exprErr. destruct a, b, op; repeat case_match; done.
Qed.

Section Pure.
Context `{UnicodeTables, GoFmt}.

Lemma member_uninterrupted v f : uninterrupted (exprMember v f).
Proof.
  assert (Hp : forall v, uninterrupted (plain_member v f)).
  { intros v'. unfold uninterrupted, plain_member, exprErr. repeat case_match; done. }
  unfold exprMember. destruct v; try apply Hp; [|by case_match]. case_match; [done|apply Hp].
Qed.

Lemma plus_uninterrupted l r : uninterrupted (exprPlus l r).
Proof.
  unfold exprPlus, uninterrupted. destruct (exprNumberOf l), (exprNumberOf r);
    try apply uninterrupted_fmap, arithmetic_uninterrupted; unfold exprErr; repeat case_match; done.
Qed.

Lemma binary_values_uninterrupted op b l r : uninterrupted (binary_values op b l r).
Proof.
  unfold binary_values, exprIn, exprStartsWith. do 2 (case_match; [done|]).
  case_match; [done|]. case_match; [unfold uninterrupted, exprErr; repeat case_match; done|].
  case_match; [unfold uninterrupted, exprErr; repeat case_match; done|]. case_match; [apply plus_uninterrupted|].
  case_match; [|done]. destruct (exprNumberOf l), (exprNumberOf r); try done. apply uninterrupted_fmap, arithmetic_uninterrupted.
Qed.

Lemma negate_uninterrupted v : uninterrupted (negate v).
Proof. unfold uninterrupted, negate, exprErr. repeat case_match; done. Qed.

Context {V El : value -> Prop} `{!value_inv V El}.

Lemma vi_of_number n : V (of_number n).
Proof. apply vi_el. destruct n; [apply vi_int|apply vi_float]. Qed.

Lemma vi_unsentinel v : V v -> El (exprUnsentinel v).
Proof.
  intros Hv. unfold exprUnsentinel. pose proof (vi_resolve v Hv) as Hr.
  destruct (exprResolveObject v); try by apply Hr. apply vi_nil.
Qed.

Lemma vi_resolved v : V v -> V (exprResolveObject v).
Proof.
  intros Hv. pose proof (vi_resolve v Hv) as Hr.
  destruct (exprResolveObject v); try (by apply vi_el, Hr). apply vi_absent.
Qed.

Lemma vi_coalesce v : V v -> V (exprCoalesceArm v).
Proof.
  intros Hv%vi_resolved. unfold exprCoalesceArm. destruct (exprResolveObject v); try done;
    try (apply vi_el, vi_str); case_match; try done; apply vi_el, vi_nil.
Qed.

Lemma vi_plus l r v : V l -> V r -> exprPlus l r = Ok v -> V v.
Proof.
  intros Hl Hr. unfold exprPlus. destruct (exprNumberOf l), (exprNumberOf r);
    try (destruct (exprArithmetic OpAdd _ _); [intros [= <-]; apply vi_of_number|done]);
    destruct l, r; try done; try (intros [= <-]; apply vi_el, vi_str);
    (case_match; [done|]); intros [= <-]; apply vi_el, vi_list, Forall_app; split; by apply vi_list_inv.
Qed.

Lemma vi_binary op b l r v : V l -> V r -> binary_values op b l r = Ok v -> V v.
Proof.
  intros Hl Hr. pose proof (fun b => vi_el _ (vi_bool b)) as Hb.
  unfold binary_values, exprIn, exprStartsWith. do 2 (case_match; [by intros [= <-]|]).
  case_match; [by intros [= <-]|]. case_match; [repeat case_match; intros; simplify_eq; apply Hb|].
  case_match; [repeat case_match; intros; simplify_eq; apply Hb|]. case_match; [by apply vi_plus|].
  case_match; [|done]. destruct (exprNumberOf l), (exprNumberOf r); try done.
  destruct (exprArithmetic _ _ _); [|done]. intros [= <-]. apply vi_of_number.
Qed.

Lemma vi_negate v x : negate v = Ok x -> V x.
Proof.
  unfold negate. repeat case_match; intros; simplify_eq; apply vi_el; [apply vi_int|apply vi_float].
Qed.

Lemma vi_map_set m k v : Forall El (m.*2) -> El v -> Forall El ((map_set m k v).*2).
Proof.
  intros Hm Hv. induction m as [|[k' v'] m IH]; cbn; [by constructor|].
  apply Forall_cons in Hm as [? ?]. case_match; constructor; by auto.
Qed.

Lemma group_add_inv ks k el gs : El k -> El el ->
  Forall (fun g => El g.2.1 /\ Forall El g.2.2) gs ->
  Forall (fun g => El g.2.1 /\ Forall El g.2.2) (group_add ks k el gs).
Proof.
  intros Hk He. induction gs as [|[ks' [k' items]] gs IH]; cbn; intros Hg.
  - constructor; [|done]. by repeat constructor.
  - apply Forall_cons in Hg as [[? ?] ?]. case_match; constructor; try done; [|by apply IH].
    split; [done|]. apply Forall_app. split; [done|]. by constructor.
Qed.

Lemma group_all_inv kes gs : Forall (fun ke => El ke.1 /\ El ke.2) kes ->
  Forall (fun g => El g.2.1 /\ Forall El g.2.2) gs -> Forall El (group_value <$> group_all kes gs).
Proof.
  revert gs. induction kes as [|[k el] kes IH]; cbn; intros gs Hk Hg.
  - apply Forall_fmap. eapply Forall_impl; [done|]. intros [ks [k items]] [? ?]. apply vi_map.
    repeat constructor; [done|]. by apply vi_list.
  - apply Forall_cons in Hk as [[? ?] ?]. apply IH; [done|]. by apply group_add_inv.
Qed.

Lemma Forall_zip {A B} (P : A -> Prop) (Q : B -> Prop) l k :
  Forall P l -> Forall Q k -> Forall (fun p => P p.1 /\ Q p.2) (zip l k).
Proof. intros Hl. revert k. induction Hl; intros [|y k] Hk; constructor; inversion Hk; auto. Qed.

Lemma keep_first_inv kes seen : Forall El (kes.*2) -> Forall El (keep_first kes seen).
Proof.
  revert seen. induction kes as [|[k el] kes IH]; cbn; intros seen Hk; [done|].
  apply Forall_cons in Hk as [? ?]. case_match; [by apply IH|]. constructor; [done|]. by apply IH.
Qed.
End Pure.

(** Close a goal about a value an operation answers, or a related return. *)
Ltac el_done :=
  first [done | apply vi_nil | apply vi_bool | apply vi_str | apply vi_int | apply vi_float
        | by apply vi_list | by apply vi_map | by apply vi_unsentinel ].
Ltac v_done :=
  first [done | apply vi_absent | apply vi_literal | apply vi_nil_slice | by apply vi_coalesce
        | apply vi_el; el_done ].
Ltac rel_done := first [apply rel_err; done | apply rel_ret; first [done | v_done | el_done]].

(** ** The walk *)

Section Walk.
Context `{UnicodeTables, GoFmt} {W : Type}.
Context (R : forall A, eval_m W A -> eval_m W A -> (A -> Prop) -> Prop) `{!eval_rel R}.
Context (E : expr -> expr -> Prop) `{!expr_rel E}.
Context (V El : value -> Prop) `{!value_inv V El}.

(** Two evaluators with the same scope and hooks, that keep [V]; the call hook
    does not tell related calls apart. *)
Record same_env (ev1 ev2 : exprEvaluator W) : Prop := {
  se_root : ev_root ev2 = ev_root ev1;
  se_now : ev_now ev2 = ev_now ev1;
  se_predicates : o_Predicates (ev_opts ev2) = o_Predicates (ev_opts ev1);
  se_canonical : o_CanonicalID (ev_opts ev2) = o_CanonicalID (ev_opts ev1);
  se_vars : o_Vars (ev_opts ev2) = o_Vars (ev_opts ev1);
  se_scope : forall x v, ev_root ev1 x = Some v -> V v;
  se_calls :
    match o_Calls (ev_opts ev1), o_Calls (ev_opts ev2) with
    | None, None => True
    | Some h1, Some h2 => forall n1 n2 m, layer E n1 n2 -> Forall El (m.*2) ->
        h2 n2 m = h1 n1 m /\ forall w v, (h1 n1 m w).1 = Ok v -> V v
    | _, _ => False
    end
}.

Definition scope_inv (s : scope) : Prop := Forall (fun f => Forall V (fr_values f)) s.

Context (ev1 ev2 : exprEvaluator W) (Henv : same_env ev1 ev2).
Context (e1 e2 : nat -> expr -> scope -> eval_m W value) (c1 c2 : nat -> expr -> scope -> eval_m W bool).
Context (d : nat).
Context (He : forall n1 n2 s, E n1 n2 -> scope_inv s -> R _ (e1 d n1 s) (e2 d n2 s) V).
Context (Hc : forall n1 n2 s, E n1 n2 -> scope_inv s -> R _ (c1 d n1 s) (c2 d n2 s) (fun _ => True)).
(** A predicate's body, one level deeper. *)
Context (Hp : forall x p body s, o_Predicates (ev_opts ev1) ≫= (fun f => f x) = Some (p, body) ->
  (d < exprMaxPredicateDepth)%nat -> scope_inv s -> R _ (c1 (S d) body s) (c2 (S d) body s) (fun _ => True)).

Lemma rel_lift {A} (r : result eval_error A) (P : A -> Prop) :
  uninterrupted r -> (forall a, r = Ok a -> P a) -> R A (lift r) (lift r) P.
Proof. destruct r as [a|e]; intros Hf HP; [apply rel_ret; by apply HP|by apply rel_err]. Qed.

Lemma rel_normalized c v : c <> expression_budget_exceeded -> V v -> R _ (normalized c v) (normalized c v) V.
Proof.
  intros Hcd Hv. unfold normalized. destruct (exprNormalize v) eqn:En; [|apply rel_err; by destruct c].
  apply rel_ret. by eapply vi_normal.
Qed.

Lemma lookup_inv s x v : scope_inv s -> Lookup (ev_root ev1) s x = Some v -> V v.
Proof.
  intros Hs. induction Hs as [|f s Hf Hs IH]; cbn; [apply (se_scope _ _ Henv)|].
  destruct (index_of x (fr_names f)); [|apply IH]. intros [= <-].
  destruct (nth_in_or_default n (fr_values f) XNil) as [Hi|Hi].
  - apply (proj1 (List.Forall_forall _ _) Hf _ Hi).
  - rewrite Hi. apply vi_el, vi_nil.
Qed.

Lemma stored_eq n1 n2 s : E n1 n2 -> exprStoredRead (ev_root ev2) n2 s = exprStoredRead (ev_root ev1) n1 s.
Proof. intros Hn. rewrite (se_root _ _ Henv). symmetry. by apply er_stored. Qed.

Lemma rel_ident x s : scope_inv s -> R _ (ident ev1 x s) (ident ev2 x s) V.
Proof.
  intros Hs. unfold ident. rewrite (se_root _ _ Henv), (se_now _ _ Henv).
  destruct (Lookup (ev_root ev1) s x) eqn:El'; [apply rel_ret; by eapply lookup_inv|].
  case_match; rel_done.
Qed.

Lemma rel_condition v n1 n2 s : E n1 n2 -> R _ (condition ev1 v n1 s) (condition ev2 v n2 s) (fun _ => True).
Proof.
  intros Hn. unfold condition. rewrite (stored_eq n1 n2) by done.
  destruct (exprNormalize v) as [[]|]; try (case_match); rel_done.
Qed.

Lemma rel_unary op n1 n2 s : E n1 n2 -> scope_inv s -> R _ (unary e1 c1 d op n1 s) (unary e2 c2 d op n2 s) V.
Proof.
  intros Hn Hs. unfold unary. case_match.
  - eapply rel_bind; [by apply Hc|]. intros b _. rel_done.
  - eapply rel_bind; [by apply He|]. intros v Hv. case_match; [|rel_done].
    apply rel_lift; [apply negate_uninterrupted|]. intros x. apply vi_negate.
Qed.

Lemma rel_coalesce (m1 m2 k1 k2 : eval_m W value) :
  R _ m1 m2 V -> R _ k1 k2 V -> R _ (coalesceSelect [m1; k1]) (coalesceSelect [m2; k2]) V.
Proof.
  intros Hm Hk. cbn. eapply rel_bind; [done|]. intros v Hv. case_match; [|rel_done].
  eapply rel_bind; [done|]. intros x Hx. destruct x; rel_done.
Qed.

Lemma rel_binary op x1 x2 y1 y2 s : E x1 x2 -> E y1 y2 -> scope_inv s ->
  R _ (binary ev1 e1 c1 d op x1 y1 s) (binary ev2 e2 c2 d op x2 y2 s) V.
Proof.
  intros Hx Hy Hs. unfold binary. case_match.
  - eapply rel_bind; [by apply Hc|]. intros b _. case_match; [rel_done|].
    eapply rel_bind; [by apply Hc|]. intros b' _. rel_done.
  - case_match.
    + cbn [fmap list_fmap]. apply rel_coalesce; (eapply rel_bind; [by apply He|]; intros v Hv; rel_done).
    + eapply rel_bind; [by apply He|]. intros l Hl. eapply rel_bind; [by apply He|]. intros r Hr.
      eapply rel_bind; [by apply rel_normalized|]. intros l' Hl'. eapply rel_bind; [by apply rel_normalized|].
      intros r' Hr'. rewrite (stored_eq y1 y2) by done. apply rel_lift; [apply binary_values_uninterrupted|].
      intros v. by apply vi_binary.
Qed.

Lemma rel_elems es1 es2 s : Forall2 E es1 es2 -> scope_inv s ->
  R _ (eval_elems e1 d es1 s) (eval_elems e2 d es2 s) (Forall El).
Proof.
  intros Hes Hs. induction Hes as [|n1 n2 es1 es2 Hn Hes IH]; cbn [eval_elems]; [rel_done|].
  eapply rel_bind; [by apply He|]. intros v Hv. eapply rel_bind; [done|]. intros vs Hvs. apply rel_ret.
  pose proof (vi_resolve v Hv). destruct (exprResolveObject v); try (constructor; auto); done.
Qed.

Lemma rel_entries es1 es2 acc s : Forall2 (fun p q => p.1 = q.1 /\ E p.2 q.2) es1 es2 -> scope_inv s ->
  Forall El (acc.*2) -> R _ (eval_entries e1 d es1 acc s) (eval_entries e2 d es2 acc s) (fun m => Forall El (m.*2)).
Proof.
  intros Hes Hs. revert acc. induction Hes as [|[k1 n1] [k2 n2] es1 es2 [Hk Hn] Hes IH]; intros acc Ha.
  - cbn. rel_done.
  - cbn in Hk, Hn. subst k2. cbn [eval_entries]. eapply rel_bind; [by apply He|]. intros v Hv. apply IH.
    pose proof (vi_resolve v Hv). destruct (exprResolveObject v); try (apply vi_map_set; auto); done.
Qed.

Lemma rel_args es1 es2 s : Forall2 E es1 es2 -> scope_inv s ->
  R _ (eval_args e1 d es1 s) (eval_args e2 d es2 s) (Forall V).
Proof.
  intros Hes Hs. induction Hes as [|n1 n2 es1 es2 Hn Hes IH]; cbn [eval_args]; [rel_done|].
  eapply rel_bind; [by apply He|]. intros v Hv. eapply rel_bind; [by apply rel_normalized|]. intros nv Hnv.
  eapply rel_bind; [done|]. intros vs Hvs. apply rel_ret. by constructor.
Qed.

Lemma lambda_shape n1 n2 : E n1 n2 -> exprIsLambda n1 = exprIsLambda n2.
Proof. intros Hn%er_lambda. unfold exprIsLambda. destruct (Unparen n1), (Unparen n2); done. Qed.

Lemma rel_predicate x p body as1 as2 m1 m2 s :
  o_Predicates (ev_opts ev1) ≫= (fun f => f x) = Some (p, body) -> Forall2 E as1 as2 ->
  Forall2 (fun p q => p.1 = q.1 /\ E p.2 q.2) m1 m2 -> scope_inv s ->
  R _ (applyPredicate ev1 e1 c1 d p body as1 m1 s) (applyPredicate ev2 e2 c2 d p body as2 m2 s) V.
Proof.
  intros Hx Ha Hm Hs. unfold applyPredicate.
  destruct Ha as [|a1 a2 ? ? Ha [|]]; [rel_done| |rel_done].
  destruct Hm; [|rel_done]. rewrite (lambda_shape a1 a2) by done. case_match; [rel_done|].
  eapply rel_bind; [by apply He|]. intros v Hv. destruct (Nat.leb_spec exprMaxPredicateDepth d); [rel_done|].
  rewrite (stored_eq a1 a2) by done. eapply rel_bind.
  - eapply Hp; [done..|]. repeat constructor. done.
  - intros b _. rel_done.
Qed.

Lemma shape_eq as1 as2 (m1 m2 : list (gostring * expr)) fn : Forall2 E as1 as2 -> length m1 = length m2 ->
  exprCheckShape as1 m1 fn = exprCheckShape as2 m2 fn.
Proof.
  intros Ha Hm. unfold exprCheckShape. rewrite Hm, (Forall2_length _ _ _ Ha). f_equal.
  generalize (f_Params fn). clear Hm. induction Ha as [|a1 a2 as1 as2 Ha Has IH]; intros [|p ps]; try done.
  cbn [zip zip_with forallb fst snd]. f_equal; [|by apply IH]. unfold argument_fits.
  pose proof (er_lambda _ _ Ha). destruct (Unparen a1), (Unparen a2); naive_solver.
Qed.

Lemma rel_apply_function f x vs : Forall V vs -> R _ (apply_function ev1 f x vs) (apply_function ev2 f x vs) V.
Proof.
  intros Hvs. destruct f; cbn [apply_function]; try rel_done.
  - unfold canonicalID. rewrite (se_canonical _ _ Henv). repeat (case_match; try rel_done).
    eapply rel_bind; [by apply rel_hook with (P := fun _ => True)|]. intros; rel_done.
  - unfold exprAddDuration. repeat case_match; (apply rel_lift; [done|]); intros ? [= <-]; v_done.
  - unfold exprDaysBetween. repeat case_match; (apply rel_lift; [done|]); intros ? [= <-]; v_done.
  - unfold variable. rewrite (se_vars _ _ Henv). repeat (case_match; try rel_done).
    eapply rel_bind; [by apply rel_hook with (P := fun _ => True)|]. intros; rel_done.
Qed.

Lemma rel_function x as1 as2 m1 m2 s : Forall2 E as1 as2 ->
  Forall2 (fun p q => p.1 = q.1 /\ E p.2 q.2) m1 m2 -> scope_inv s ->
  R _ (function ev1 e1 c1 d x as1 m1 s) (function ev2 e2 c2 d x as2 m2 s) V.
Proof.
  intros Ha Hm Hs.
  assert (Hpr : forall o, o_Predicates (ev_opts ev1) ≫= (fun f => f x) = o -> R _
    match o with Some (p, b) => applyPredicate ev1 e1 c1 d p b as1 m1 s | None => refuse unknown_function end
    match o with Some (p, b) => applyPredicate ev2 e2 c2 d p b as2 m2 s | None => refuse unknown_function end V).
  { intros [[p b]|] Ho; [by eapply rel_predicate|rel_done]. }
  unfold function. rewrite (se_predicates _ _ Henv).
  destruct (map_get exprCatalog x) as [fn|]; [|by apply Hpr]. destruct (f_Receiver fn); [by apply Hpr|].
  destruct (map_get exprFunctionImpls x); [|rel_done].
  rewrite (shape_eq as1 as2 m1 m2) by (done || by eapply Forall2_length). case_match; [|rel_done].
  eapply rel_bind; [by apply rel_args|]. intros vs Hvs. by apply rel_apply_function.
Qed.

Lemma rel_construct n1 n2 as1 as2 m1 m2 s : layer E n1 n2 -> Forall2 E as1 as2 ->
  Forall2 (fun p q => p.1 = q.1 /\ E p.2 q.2) m1 m2 -> scope_inv s ->
  R _ (constructCall ev1 e1 d n1 as1 m1 s) (constructCall ev2 e2 d n2 as2 m2 s) V.
Proof.
  intros Hn Ha Hm Hs. unfold constructCall. pose proof (se_calls _ _ Henv) as Hh.
  destruct (o_Calls (ev_opts ev1)) as [h1|], (o_Calls (ev_opts ev2)) as [h2|]; try done; [|rel_done].
  rewrite (Forall2_length _ _ _ Ha). case_match; [rel_done|].
  eapply rel_bind; [by apply rel_entries|]. intros m HM. destruct (Hh n1 n2 m Hn HM) as [-> HV]. by apply rel_hook.
Qed.

(** *** List methods *)

Definition loop_rel {A} (P : A -> Prop) (f1 f2 : value -> eval_m W A) : Prop :=
  forall el, El el -> R A (f1 el) (f2 el) P.

Lemma rel_any f1 f2 l : loop_rel (fun _ => True) f1 f2 -> Forall El l ->
  R _ (any_loop f1 l) (any_loop f2 l) (fun _ => True).
Proof.
  intros Hf Hl. induction Hl as [|el l Hel Hl IH]; cbn [any_loop]; [rel_done|].
  eapply rel_bind; [by apply Hf|]. intros [] _; [rel_done|done].
Qed.

Lemma rel_all f1 f2 l : loop_rel (fun _ => True) f1 f2 -> Forall El l ->
  R _ (all_loop f1 l) (all_loop f2 l) (fun _ => True).
Proof.
  intros Hf Hl. induction Hl as [|el l Hel Hl IH]; cbn [all_loop]; [rel_done|].
  eapply rel_bind; [by apply Hf|]. intros [] _; [done|rel_done].
Qed.

Lemma rel_where f1 f2 l : loop_rel (fun _ => True) f1 f2 -> Forall El l ->
  R _ (where_loop f1 l) (where_loop f2 l) (Forall El).
Proof.
  intros Hf Hl. induction Hl as [|el l Hel Hl IH]; cbn [where_loop]; [rel_done|].
  eapply rel_bind; [by apply Hf|]. intros b _. eapply rel_bind; [done|]. intros out Ho. apply rel_ret.
  destruct b; [by constructor|done].
Qed.

Lemma rel_select f1 f2 st1 st2 l : loop_rel V f1 f2 -> (forall v, V v -> R _ (st1 v) (st2 v) El) -> Forall El l ->
  R _ (select_loop f1 st1 l) (select_loop f2 st2 l) (Forall El).
Proof.
  intros Hf Hst Hl. induction Hl as [|el l Hel Hl IH]; cbn [select_loop]; [rel_done|].
  eapply rel_bind; [by apply Hf|]. intros v Hv. eapply rel_bind; [by apply Hst|]. intros k Hk.
  eapply rel_bind; [done|]. intros out Ho. apply rel_ret. by constructor.
Qed.

Lemma rel_unsentinel v : V v -> R _ (unsentinel_m (W := W) v) (unsentinel_m v) El.
Proof. intros. unfold unsentinel_m. rel_done. Qed.

Lemma rel_aggregate_loop a f1 f2 l sum best n : loop_rel V f1 f2 -> Forall El l ->
  R _ (aggregate_loop a f1 l sum best n) (aggregate_loop a f2 l sum best n) (fun _ => True).
Proof.
  intros Hf Hl. revert sum best n. induction Hl as [|el l Hel Hl IH]; intros sum best n; cbn [aggregate_loop]; [rel_done|].
  eapply rel_bind; [by apply Hf|]. intros v Hv. eapply rel_bind; [by apply rel_normalized|]. intros nv Hnv.
  destruct (runtimeToFloat64 (exprUnsentinel nv)); [apply IH|rel_done].
Qed.

Lemma rel_aggregate a f1 f2 l : loop_rel V f1 f2 -> Forall El l ->
  R _ (listAggregate a l f1) (listAggregate a l f2) V.
Proof.
  intros Hf Hl. unfold listAggregate. eapply rel_bind with (P := V).
  - unfold aggregateNumeric. destruct l; [destruct a; rel_done|].
    eapply rel_bind; [by apply rel_aggregate_loop|]. intros [[sum best] n] _. rel_done.
  - intros v Hv. destruct v; try rel_done. case_match; rel_done.
Qed.

Lemma zip_snd_inv (ks l : list value) : Forall El l -> Forall El ((zip ks l).*2).
Proof.
  intros Hl. revert ks. induction Hl as [|el l Hel Hl IH]; intros [|k ks]; cbn; try constructor; auto.
Qed.

Lemma rel_order desc f1 f2 l : loop_rel V f1 f2 -> Forall El l ->
  R _ (orderByLambda desc l f1) (orderByLambda desc l f2) V.
Proof.
  intros Hf Hl. unfold orderByLambda. eapply rel_bind; [apply rel_select; [done| |done]|].
  - intros v Hv. eapply rel_bind; [by apply rel_normalized|]. intros nv Hnv. rel_done.
  - intros ks Hks. apply rel_ret, vi_el, vi_list. rewrite sort_stable_perm. by apply zip_snd_inv.
Qed.

Lemma rel_group f1 f2 l : loop_rel V f1 f2 -> Forall El l -> R _ (listGroupBy l f1) (listGroupBy l f2) V.
Proof.
  intros Hf Hl. unfold listGroupBy. eapply rel_bind; [apply rel_select; [done|apply rel_unsentinel|done]|].
  intros ks Hks. apply rel_ret, vi_el, vi_list, group_all_inv; [by apply Forall_zip|done].
Qed.

Lemma rel_distinct o1 o2 l :
  match o1, o2 with Some f1, Some f2 => loop_rel V f1 f2 | None, None => True | _, _ => False end -> Forall El l ->
  R _ (listDistinct l o1) (listDistinct l o2) V.
Proof.
  intros Hf Hl. unfold listDistinct. eapply rel_bind with (P := Forall El).
  - destruct o1, o2; try done; [apply rel_select; [done|apply rel_unsentinel|done]|rel_done].
  - intros ks Hks. apply rel_ret, vi_el, vi_list, keep_first_inv. by apply zip_snd_inv.
Qed.

Lemma nth_rel as1 as2 i : Forall2 E as1 as2 -> E (nth i as1 NilNode) (nth i as2 NilNode).
Proof. intros Ha. revert i. induction Ha; intros [|i]; cbn; try apply er_nil; auto. Qed.

Lemma lambda_rel as1 as2 i : Forall2 E as1 as2 ->
  (lambda_at as1 i).1 = (lambda_at as2 i).1 /\ E (lambda_at as1 i).2 (lambda_at as2 i).2.
Proof.
  intros Ha. unfold lambda_at. pose proof (proj1 (Forall2_lookup E as1 as2) Ha i) as Hi.
  destruct Hi as [a1 a2 Hi|]; cbn; [|split; [done|apply er_nil]].
  pose proof (er_lambda _ _ Hi). destruct (Unparen a1), (Unparen a2); cbn; try (by destruct_and?); (split; [done|apply er_nil]).
Qed.

Lemma append_nil_inv l : Forall El l -> V (append_nil l).
Proof. destruct l; intros; cbn; v_done. Qed.

Lemma rel_take_skip b as1 as2 l s : Forall2 E as1 as2 -> Forall El l -> scope_inv s ->
  R _ (listTakeSkip e1 d b as1 l s) (listTakeSkip e2 d b as2 l s) V.
Proof.
  intros Ha Hl Hs. unfold listTakeSkip. eapply rel_bind; [apply He; [by apply nth_rel|done]|]. intros v Hv.
  eapply rel_bind; [by apply rel_normalized|]. intros nv Hnv. destruct (exprNumberOf nv); [|rel_done].
  apply rel_ret, append_nil_inv. case_match; [by apply Forall_take|by apply Forall_drop].
Qed.

Lemma rel_reduce as1 as2 l s : Forall2 E as1 as2 -> Forall El l -> scope_inv s ->
  R _ (listReduce e1 d as1 l s) (listReduce e2 d as2 l s) V.
Proof.
  intros Ha Hl Hs. unfold listReduce. eapply rel_bind; [apply He; [by apply nth_rel|done]|].
  destruct (lambda_rel as1 as2 1 Ha) as [Hps Hb]. destruct (lambda_at as1 1) as [ps1 b1], (lambda_at as2 1) as [ps2 b2].
  cbn [fst snd] in Hps, Hb. subst ps2. induction Hl as [|el l Hel Hl IH]; intros acc Hacc; cbn [reduce_loop]; [rel_done|].
  eapply rel_bind; [|done]. apply He; [done|]. constructor; [|done]. cbn. repeat constructor; [done|]. by apply vi_el.
Qed.

Lemma rel_includes as1 as2 v s : Forall2 E as1 as2 -> scope_inv s ->
  R _ (includes e1 d as1 v s) (includes e2 d as2 v s) V.
Proof.
  intros Ha Hs. unfold includes.
  assert (Hg : forall k, (forall nv, V nv -> R _ (k nv) (k nv) V) ->
    R _ (raw ← e1 d (nth 0 as1 NilNode) s; nv ← normalized invalid_argument raw; k nv)
        (raw ← e2 d (nth 0 as2 NilNode) s; nv ← normalized invalid_argument raw; k nv) V).
  { intros k Hk. eapply rel_bind; [apply He; [by apply nth_rel|done]|]. intros x Hx.
    eapply rel_bind; [by apply rel_normalized|]. done. }
  destruct v; try rel_done; apply Hg; intros nv Hnv; destruct nv; rel_done.
Qed.

(** A bound lambda, over related receivers and arguments. *)
Lemma rel_bound r1 r2 as1 as2 s : E r1 r2 -> Forall2 E as1 as2 -> scope_inv s ->
  loop_rel V (lam_apply ev1 e1 d r1 as1 s) (lam_apply ev2 e2 d r2 as2 s)
  /\ loop_rel (fun _ => True) (lam_test ev1 c1 d r1 as1 s) (lam_test ev2 c2 d r2 as2 s).
Proof.
  intros Hr Ha Hs. destruct (lambda_rel as1 as2 0 Ha) as [Hps Hb].
  assert (Hsc : forall el, El el -> element_scope ev2 r2 as2 0 s el = element_scope ev1 r1 as1 0 s el
    /\ scope_inv (element_scope ev1 r1 as1 0 s el)).
  { intros el Hel. unfold element_scope. rewrite Hps, (stored_eq r1 r2) by done. split; [done|].
    constructor; [|done]. repeat constructor. by apply vi_el. }
  split; intros el Hel; destruct (Hsc el Hel) as [Heq Hok]; unfold lam_apply, lam_test; rewrite Heq;
    [by apply He|by apply Hc].
Qed.

Lemma rel_apply_method m r1 r2 as1 as2 v s : E r1 r2 -> Forall2 E as1 as2 -> V v -> scope_inv s ->
  R _ (apply_method ev1 e1 c1 d m r1 as1 v s) (apply_method ev2 e2 c2 d m r2 as2 v s) V.
Proof.
  intros Hr Ha Hv Hs. destruct (rel_bound r1 r2 as1 as2 s Hr Ha Hs) as [Hap Hte].
  assert (Hl : Forall El (match v with XList l => l | _ => [] end)) by (destruct v; try done; by apply vi_list_inv).
  unfold apply_method. set (l := match v with XList l => l | _ => [] end) in *. destruct m.
  - by apply rel_includes.
  - rel_done.
  - rel_done.
  - eapply rel_bind; [by apply rel_any|]. intros; rel_done.
  - eapply rel_bind; [by apply rel_all|]. intros; rel_done.
  - eapply rel_bind; [by apply rel_where|]. intros; rel_done.
  - eapply rel_bind; [apply rel_select; [done|apply rel_unsentinel|done]|]. intros; rel_done.
  - apply rel_ret, vi_el. destruct Hl; [apply vi_nil|done].
  - apply rel_ret, vi_el. clear -Hl value_inv0. induction Hl as [|x l Hx Hl IH]; [apply vi_nil|]. by destruct l.
  - destruct Hl as [|x ? Hx []]; rel_done.
  - rel_done.
  - by apply rel_aggregate.
  - by apply rel_order.
  - by apply rel_group.
  - apply rel_distinct; [|done]. rewrite (Forall2_length _ _ _ Ha). by destruct (length as2 =? 1)%nat.
  - by apply rel_take_skip.
  - by apply rel_take_skip.
  - by apply rel_reduce.
  - rel_done.
Qed.

Lemma rel_absent_receiver x as1 as2 s : Forall2 E as1 as2 -> scope_inv s ->
  R _ (absentReceiverMethod e1 d x as1 s) (absentReceiverMethod e2 d x as2 s) V.
Proof.
  intros Ha Hs. unfold absentReceiverMethod. repeat (case_match; [rel_done|]).
  case_match; [apply He; [by apply nth_rel|done]|]. rel_done.
Qed.

Lemma rel_dispatch fn r1 r2 as1 as2 v s : E r1 r2 -> Forall2 E as1 as2 -> V v -> scope_inv s ->
  R _ (dispatchMethod ev1 e1 c1 d fn r1 as1 v s) (dispatchMethod ev2 e2 c2 d fn r2 as2 v s) V.
Proof. intros. unfold dispatchMethod. case_match; [by apply rel_apply_method|rel_done]. Qed.

Lemma stored_answer_inv x v : exprStoredListAnswer x = Some v -> V v.
Proof. unfold exprStoredListAnswer. repeat case_match; intros; simplify_eq; v_done. Qed.

Ltac rel_if :=
  match goal with |- R _ (if ?b then _ else _) (if ?b then _ else _) _ => destruct b eqn:? end.

Lemma rel_method r1 r2 x as1 as2 m1 m2 s : E r1 r2 -> Forall2 E as1 as2 ->
  Forall2 (fun p q => p.1 = q.1 /\ E p.2 q.2) m1 m2 -> scope_inv s ->
  R _ (method ev1 e1 c1 d r1 x as1 m1 s) (method ev2 e2 c2 d r2 x as2 m2 s) V.
Proof.
  intros Hr Ha Hm Hs. pose proof (fun fn => shape_eq as1 as2 m1 m2 fn Ha (Forall2_length _ _ _ Hm)) as Hsh.
  unfold method. generalize (exprMethodEntry TypeList x) (exprMethodEntry TypeString x). intros lf sf.
  rel_if; [rel_done|].
  assert (Hfit : forall o, match o with Some f => exprCheckShape as1 m1 f | None => false end
    = match o with Some f => exprCheckShape as2 m2 f | None => false end) by (intros []; auto).
  rewrite !Hfit. rel_if; [rel_done|]. eapply rel_bind; [by apply He|]. intros raw Hraw.
  eapply rel_bind; [by apply rel_normalized|]. intros v Hv. destruct lf as [lf|].
  2:{ destruct sf; [by apply rel_dispatch|rel_done]. }
  rewrite (stored_eq r1 r2) by done. 
  match goal with |- context [if ?b then exprStoredListAnswer x else None] =>
    destruct (if b then exprStoredListAnswer x else None) as [a|] eqn:Ea end.
  { apply rel_ret. revert Ea. match goal with |- (if ?b then _ else _) = _ -> _ => destruct b end; [apply stored_answer_inv|done]. }
  rel_if.
  - destruct sf as [sf|]; [|rel_done]. rewrite Hsh. rel_if; [by apply rel_dispatch|rel_done].
  - rewrite Hsh. rel_if; [rel_done|]. destruct (exprCollection v) as [[l|]|] eqn:Ec; [|by apply rel_absent_receiver|rel_done].
    apply rel_dispatch; try done. apply vi_el, vi_list. by eapply vi_collection.
Qed.

(** A node, its recursive calls related. *)
Lemma eval_node_rel n1 n2 s : layer E n1 n2 -> scope_inv s ->
  R _ (eval_node ev1 e1 c1 d n1 s) (eval_node ev2 e2 c2 d n2 s) V.
Proof.
  intros HE Hs. pose proof HE as Hly. destruct n1, n2; try done; cbn [layer] in Hly;
    destruct_and?; simplify_eq; cbn [eval_node].
  - rel_done.
  - by apply rel_ident.
  - eapply rel_bind; [by apply He|]. intros v Hv. apply rel_lift; [apply member_uninterrupted|]. intros y. by apply vi_member.
  - case_match; [by apply rel_construct|].
    match goal with H : is_nil_node _ = is_nil_node _ |- _ => rewrite H end.
    case_match; [by apply rel_function|by apply rel_method].
  - by apply rel_unary.
  - by apply rel_binary.
  - eapply rel_bind; [by apply Hc|]. intros [] _; by apply He.
  - rel_done.
  - eapply rel_bind; [by apply rel_elems|]. intros; rel_done.
  - eapply rel_bind; [by apply rel_entries|]. intros; rel_done.
  - by apply He.
  - rel_done.
  - rel_done.
  - rel_done.
Qed.
End Walk.
