(* ===== verification/EvalFacts.v ===== *)
(** The evaluator always answers, within its budget; a larger budget changes
    nothing; parentheses mean nothing. *)

From S2P Require Import Prelude GoText Strconv Numbers ExprNumbers.
From S2P Require Import Values Catalog Ast Scope Eval ValueFacts EvalRel.

Section Facts.
Context `{UnicodeTables, GoFmt} {W : Type}.
Implicit Types (ev : exprEvaluator W) (st : eval_state W).

Abbreviation any := (fun _ : value => True).

Lemma same_env_any ev1 ev2 (E : expr -> expr -> Prop) :
  ev_root ev2 = ev_root ev1 -> ev_now ev2 = ev_now ev1 ->
  o_Predicates (ev_opts ev2) = o_Predicates (ev_opts ev1) ->
  o_CanonicalID (ev_opts ev2) = o_CanonicalID (ev_opts ev1) ->
  o_Vars (ev_opts ev2) = o_Vars (ev_opts ev1) ->
  o_Calls (ev_opts ev2) = o_Calls (ev_opts ev1) ->
  (forall h n1 n2, o_Calls (ev_opts ev1) = Some h -> layer E n1 n2 -> h n2 = h n1) ->
  same_env E any any ev1 ev2.
Proof.
  intros Hr Hn Hp Hc Hv Hcalls HE. split; try done. rewrite Hcalls. destruct (o_Calls (ev_opts ev1)) as [h|]; [|done].
  intros n1 n2 m Hn12 _. by rewrite (HE h n1 n2).
Qed.

Lemma same_env_refl ev : same_env eq any any ev ev.
Proof. apply same_env_any; try done. by intros ? ? ? _ ->%layer_eq. Qed.

Lemma scope_any (s : scope) : scope_inv any s.
Proof. apply Forall_true. intros f. by apply Forall_true. Qed.

(** Both bodies at once, over the same expressions: [R'] relates the recursive
    calls, which come after a counted step. *)
Section Bodies.
Context (R R' : forall A, eval_m W A -> eval_m W A -> (A -> Prop) -> Prop) `{!eval_rel R, !eval_rel R'}.
Context (ev1 ev2 : exprEvaluator W) (Henv : same_env eq any any ev1 ev2).
Context (Hstep : forall A m1 m2 P, R' A m1 m2 P -> R A (_ ← step ev1; m1) (_ ← step ev2; m2) P).
Context (e1 e2 : nat -> expr -> scope -> eval_m W value) (c1 c2 : nat -> expr -> scope -> eval_m W bool).

Lemma bodies_rel :
  (forall d n s, R' value (e1 d n s) (e2 d n s) any /\ R' bool (c1 d n s) (c2 d n s) (fun _ => True)) ->
  forall d n s, R value (eval_body ev1 e1 c1 d n s) (eval_body ev2 e2 c2 d n s) any
    /\ R bool (cond_body ev1 e1 c1 d n s) (cond_body ev2 e2 c2 d n s) (fun _ => True).
Proof.
  intros IH d n s.
  assert (Hn : R value (eval_body ev1 e1 c1 d n s) (eval_body ev2 e2 c2 d n s) any).
  { apply Hstep, (eval_node_rel R' eq any any); try done; [| | |by apply layer_refl|apply scope_any].
    - intros ? ? ? -> _. apply IH.
    - intros ? ? ? -> _. apply IH.
    - intros. apply IH. }
  split; [exact Hn|].
  assert (Hd : R bool (v ← eval_body ev1 e1 c1 d n s; condition ev1 v n s)
    (v ← eval_body ev2 e2 c2 d n s; condition ev2 v n s) (fun _ => True)).
  { eapply (rel_bind (R := R)); [exact Hn|]. intros v _. by apply (rel_condition R eq any any). }
  destruct n; try exact Hd; apply Hstep; [|apply IH].
  eapply (rel_bind (R := R')); [apply IH|]. intros [] _; apply IH.
Qed.
End Bodies.

(** ** Termination and the budget *)

Section Budget.
Context (ev : exprEvaluator W).

(** From at least [k] steps taken, the two computations do the same: they end
    without running out of fuel and count at most one step past the budget. *)
Definition bounded (k : Z) A (m m' : eval_m W A) (P : A -> Prop) : Prop :=
  forall st, k <= st_steps st <= ev_budget ev ->
    m' st = m st /\ (m st).1 <> Err EFuel /\ st_steps st <= st_steps (m st).2 <= ev_budget ev + 1
    /\ forall a, (m st).1 = Ok a -> st_steps (m st).2 <= ev_budget ev /\ P a.

#[export] Instance bounded_rel k : eval_rel (bounded k).
Proof.
  split; unfold bounded.
  - intros A a P HP st Hst. cbn. do 2 (split; [done|]). split; [lia|]. intros ? [= <-]. split; [lia|done].
  - intros A e P He st Hst. cbn. split; [done|]. split; [by intros [= ->]|]. split; [lia|]. done.
  - intros A B m1 m2 k1 k2 P Q Hm Hk st Hst. destruct (Hm st Hst) as (Heq & Hf & Hs & Ha).
    unfold mbind, eval_bind. rewrite Heq. destruct (m1 st) as [[a|e] st'] eqn:Em; cbn [fst snd] in *.
    + destruct (Ha a eq_refl) as [Hb HP]. destruct (Hk a HP st' ltac:(lia)) as (Heq' & Hf' & Hs' & Ha').
      do 2 (split; [done|]). split; [lia|done].
    + split; [done|]. split; [congruence|]. split; [lia|done].
  - intros A h P HP st Hst. split; [done|]. unfold hook. destruct (h (st_world st)) as [r w] eqn:Eh. cbn.
    split; [by destruct r|]. split; [lia|]. intros a Ha. split; [lia|]. destruct r; [|done]. simplify_eq.
    apply (HP (st_world st)). by rewrite Eh.
Qed.

(** A counted step, then computations bounded from one step later. *)
Lemma bounded_step {A} k (m m' : eval_m W A) P : bounded (k + 1) A m m' P ->
  bounded k A (_ ← step ev; m) (_ ← step ev; m') P.
Proof.
  intros Hm st Hst. unfold mbind, eval_bind, step. destruct (Z.ltb_spec (ev_budget ev) (st_steps st + 1)).
  { cbn. do 2 (split; [done|]). split; [lia|done]. }
  destruct ((Z.land _ _ =? 0) && _); cbn [fst snd]; [do 2 (split; [done|]); cbn; split; [lia|done]|].
  destruct (Hm (mkState (st_steps st + 1) (st_world st)) ltac:(cbn; lia)) as (Heq & Hf & Hs & Ha). cbn in Hs.
  do 2 (split; [done|]). split; [lia|done].
Qed.

(** Any fuel beyond the steps left gives the same. *)
Lemma bounded_fuel f1 : forall f2 k, ev_budget ev < k + Z.of_nat f1 -> ev_budget ev < k + Z.of_nat f2 -> forall d n s,
  bounded k value (eval_fuel ev f1 d n s) (eval_fuel ev f2 d n s) any
  /\ bounded k bool (cond_fuel ev f1 d n s) (cond_fuel ev f2 d n s) (fun _ => True).
Proof.
  induction f1 as [|f1 IH]; intros [|f2] k Hk1 Hk2 d n s; try (split; intros st Hst; lia).
  apply (bodies_rel (bounded k) (bounded (k + 1))); [apply same_env_refl|intros; by apply bounded_step|].
  apply IH; lia.
Qed.
End Budget.

(** The options with another budget. *)
Definition with_budget (b : Z) (opts : EvalOptions W) : EvalOptions W :=
  mkOptions (o_Now opts) b (o_Predicates opts) (o_CanonicalID opts) (o_Vars opts) (o_Calls opts).

Lemma new_budget_pos ctx clock root (opts : EvalOptions W) : 0 < ev_budget (newExprEvaluator ctx clock root opts).
Proof. cbn. destruct (Z.leb_spec (o_Budget opts) 0); [done|lia]. Qed.

(** What a bounded computation does from the start. *)
Lemma bounded_run {A} ev (m m' : eval_m W A) P w : 0 < ev_budget ev -> bounded ev 0 A m m' P ->
  let x := m (mkState 0 w) in
  x.1 <> Err EFuel /\ 0 <= st_steps x.2 <= ev_budget ev + 1 /\ (is_ok x.1 = true -> st_steps x.2 <= ev_budget ev).
Proof.
  intros Hb Hm. destruct (Hm (mkState 0 w) ltac:(cbn; lia)) as (_ & Hf & Hs & Ha). cbn in Hs |- *.
  split; [done|]. split; [lia|]. intros Hok. destruct (m (mkState 0 w)) as [[a|] st']; [by apply (Ha a)|done].
Qed.

Lemma bounded_start ev n : 0 < ev_budget ev -> bounded ev 0 value (eval ev n []) (eval ev n []) any
  /\ bounded ev 0 bool (evalCondition ev n []) (evalCondition ev n []) (fun _ => True).
Proof. intros Hb. apply bounded_fuel; unfold ev_fuel; lia. Qed.

(** Every evaluation ends, as a value or as a condition: the model's fuel is never
    what stops it.  It counts at most one step past its budget, and when it
    answers it has stayed within the budget. *)
Theorem evaluation_within_budget ctx clock root (opts : EvalOptions W) n w :
  let ev := newExprEvaluator ctx clock root opts in
  let within {A} (x : result eval_error A * eval_state W) :=
    x.1 <> Err EFuel /\ 0 <= st_steps x.2 <= ev_budget ev + 1
    /\ (is_ok x.1 = true -> st_steps x.2 <= ev_budget ev) in
  within (eval ev n [] (mkState 0 w)) /\ within (evalCondition ev n [] (mkState 0 w)).
Proof.
  intros ev within. pose proof (new_budget_pos ctx clock root opts) as Hb. fold ev in Hb. clearbody ev.
  destruct (bounded_start ev n Hb) as [He Hc]. split; by eapply bounded_run.
Qed.

(** ** A larger budget *)

(** Stopped by the budget, or by the model's fuel. *)
Definition out_of_budget {A} (r : result eval_error A) : bool :=
  match r with Err EFuel | Err (ECode expression_budget_exceeded) => true | _ => false end.

(** Whatever the first answers without being stopped, the second answers. *)
Definition extends A (m1 m2 : eval_m W A) (P : A -> Prop) : Prop :=
  forall st, out_of_budget (m1 st).1 = true \/ m2 st = m1 st /\ forall a, (m1 st).1 = Ok a -> P a.

#[export] Instance extends_rel : eval_rel extends.
Proof.
  split; unfold extends.
  - intros A a P HP st. right. split; [done|]. by intros ? [= <-].
  - intros A e P He st. right. done.
  - intros A B m1 m2 k1 k2 P Q Hm Hk st. unfold mbind, eval_bind.
    destruct (Hm st) as [Hs|[-> HP]]; destruct (m1 st) as [[a|e] st']; cbn [fst snd] in *; try done.
    + by left.
    + apply Hk. by apply HP.
    + right. done.
  - intros A h P HP st. right. split; [done|]. unfold hook. pose proof (HP (st_world st)) as Hw.
    destruct (h (st_world st)) as [[a'|] w]; cbn; intros a [= <-]. by apply Hw.
Qed.

Lemma extends_step {A} ev1 ev2 (m1 m2 : eval_m W A) P : ev_ctx ev2 = ev_ctx ev1 -> ev_budget ev1 <= ev_budget ev2 ->
  extends A m1 m2 P -> extends A (_ ← step ev1; m1) (_ ← step ev2; m2) P.
Proof.
  intros Hctx Hb Hm st. unfold mbind, eval_bind, step. rewrite Hctx.
  destruct (Z.ltb_spec (ev_budget ev1) (st_steps st + 1)); [by left|].
  destruct (Z.ltb_spec (ev_budget ev2) (st_steps st + 1)); [lia|].
  destruct ((Z.land _ _ =? 0) && _); [by right|]. apply Hm.
Qed.

Lemma extends_fuel ev1 ev2 : same_env eq any any ev1 ev2 -> ev_ctx ev2 = ev_ctx ev1 -> ev_budget ev1 <= ev_budget ev2 ->
  forall f1 f2, (f1 <= f2)%nat -> forall d n s,
  extends value (eval_fuel ev1 f1 d n s) (eval_fuel ev2 f2 d n s) any
  /\ extends bool (cond_fuel ev1 f1 d n s) (cond_fuel ev2 f2 d n s) (fun _ => True).
Proof.
  intros Henv Hctx Hb. induction f1 as [|f1 IH]; intros [|f2] Hf d n s; try lia; [split; by left..|].
  apply (bodies_rel extends extends); [done|intros; by apply extends_step|]. apply IH. lia.
Qed.

(** A budget that suffices decides the answer: with any larger budget the
    evaluation gives the same answer and leaves the same world. *)
Theorem larger_budget_same_answer ctx clock root (opts : EvalOptions W) n w b :
  0 < o_Budget opts <= b ->
  (EvalExpr ctx clock n root opts w).1 <> exprErr expression_budget_exceeded ->
  EvalExpr ctx clock n root (with_budget b opts) w
  = EvalExpr ctx clock n root opts w.
Proof.
  intros Hb. unfold EvalExpr. set (ev1 := newExprEvaluator ctx clock root opts).
  match goal with |- context [eval ?e] => lazymatch e with ev1 => fail | _ => set (ev2 := e) end end.
  assert (Hle : ev_budget ev1 <= ev_budget ev2).
  { cbn. destruct (Z.leb_spec (o_Budget opts) 0), (Z.leb_spec b 0); lia. }
  assert (Henv : same_env eq any any ev1 ev2) by (apply same_env_any; try done; by intros ? ? ? _ ->%layer_eq).
  destruct (extends_fuel ev1 ev2 Henv eq_refl Hle (ev_fuel ev1) (ev_fuel ev2) ltac:(unfold ev_fuel; lia) 0 n []) as [He _].
  pose proof (bounded_run ev1 _ _ _ w (new_budget_pos _ _ _ _) (proj1 (bounded_start ev1 n (new_budget_pos _ _ _ _)))) as [Hnf _].
  unfold eval in *. destruct (He (mkState 0 w)) as [Hs|[-> _]]; [|done].
  destruct (eval_fuel ev1 (ev_fuel ev1) 0 n [] (mkState 0 w)) as [[a|[[]| | | |]] st]; done.
Qed.

(** ** Parentheses *)

(** The tree without its parentheses; a receiver that is there keeps one pair,
    to tell it from none. *)
Fixpoint strip (n : expr) : expr :=
  match n with
  | ParenExpr i => strip i
  | MemberExpr o f opt => MemberExpr (strip o) f opt
  | CallExpr r x k args named =>
      CallExpr (if is_nil_node r then NilNode else ParenExpr (strip r)) x k (strip <$> args)
        ((fun kv => (kv.1, strip kv.2)) <$> named)
  | UnaryExpr op x => UnaryExpr op (strip x)
  | BinaryExpr op x y => BinaryExpr op (strip x) (strip y)
  | TernaryExpr c t e => TernaryExpr (strip c) (strip t) (strip e)
  | LambdaExpr ps b => LambdaExpr ps (strip b)
  | ListExpr es => ListExpr (strip <$> es)
  | MapExpr es => MapExpr ((fun kv => (kv.1, strip kv.2)) <$> es)
  | _ => n
  end.

(** The same expression but for parentheses. *)
Definition same_but_parens (n1 n2 : expr) : Prop := strip n1 = strip n2.

Lemma strip_fmap_rel l1 l2 : strip <$> l1 = strip <$> l2 -> Forall2 same_but_parens l1 l2.
Proof. revert l2. induction l1 as [|x l1 IH]; intros [|y l2] Hl; try done. simplify_eq. constructor; [done|by apply IH]. Qed.

Lemma strip_entries_rel (l1 l2 : list (gostring * expr)) :
  (fun kv => (kv.1, strip kv.2)) <$> l1 = (fun kv => (kv.1, strip kv.2)) <$> l2 ->
  Forall2 (fun p q => p.1 = q.1 /\ same_but_parens p.2 q.2) l1 l2.
Proof. revert l2. induction l1 as [|x l1 IH]; intros [|y l2] Hl; try done. simplify_eq. constructor; [done|by apply IH]. Qed.

Lemma strip_Unparen n : strip (Unparen n) = strip n.
Proof. induction n using expr_ind'; try done. Qed.

Lemma stored_read_strip root s hops n : stored_read root s hops (strip n) = stored_read root s hops n.
Proof. revert hops. induction n using expr_ind'; intros hops; cbn; auto. Qed.

Lemma same_layer n1 n2 : same_but_parens n1 n2 -> is_paren n1 = is_paren n2 -> layer same_but_parens n1 n2.
Proof.
  unfold same_but_parens. intros Hs Hp. destruct n1, n2; try done; cbn in Hs; simplify_eq; cbn [layer]; try done;
    try (by apply strip_fmap_rel); try (by apply strip_entries_rel).
  repeat split; try done; try (by apply strip_fmap_rel); try (by apply strip_entries_rel);
    match goal with Hr : (if is_nil_node ?a then _ else _) = (if is_nil_node ?b then _ else _) |- _ =>
      destruct (is_nil_node a) eqn:E1, (is_nil_node b) eqn:E2; simplify_eq; try done; by destruct a, b end.
Qed.

Lemma layer_same n1 n2 : layer same_but_parens n1 n2 -> same_but_parens n1 n2.
Proof.
  assert (HF : forall l k, Forall2 same_but_parens l k -> strip <$> l = strip <$> k).
  { intros l k Hl. induction Hl as [|? ? ? ? Hx ? IH]; [done|]. cbn. by rewrite Hx, IH. }
  assert (HM : forall l k, Forall2 (fun p q : gostring * expr => p.1 = q.1 /\ same_but_parens p.2 q.2) l k ->
    (fun kv => (kv.1, strip kv.2)) <$> l = (fun kv => (kv.1, strip kv.2)) <$> k).
  { intros l k Hl. induction Hl as [|? ? ? ? [Hx Hy] ? IH]; [done|]. cbn. by rewrite Hx, Hy, IH. }
  unfold same_but_parens in *. destruct n1, n2; cbn; try done; intros; destruct_and?; subst; f_equal; auto.
  match goal with Hn : is_nil_node _ = is_nil_node _ |- _ => rewrite Hn end. case_match; congruence.
Qed.

#[export] Instance same_but_parens_rel : expr_rel same_but_parens.
Proof.
  split.
  - done.
  - intros n1 n2 Hs. unfold same_but_parens in *. rewrite <- (strip_Unparen n1), <- (strip_Unparen n2) in Hs.
    assert (Hnp : forall n, is_paren (Unparen n) = false) by (intros n; by induction n).
    pose proof (Hnp n1). pose proof (Hnp n2). destruct (Unparen n1), (Unparen n2); cbn in *; simplify_eq; done.
  - intros root s hops n1 n2 Hs. by rewrite <- (stored_read_strip _ _ _ n1), <- (stored_read_strip _ _ _ n2), Hs.
Qed.

(** From the same world, whatever the steps counted so far: the same answer and
    the same world, unless one of the two is interrupted. *)
Definition agree A (m1 m2 : eval_m W A) (P : A -> Prop) : Prop :=
  forall i j w, let x1 := m1 (mkState i w) in let x2 := m2 (mkState j w) in
    interrupted x1.1 = true \/ interrupted x2.1 = true
    \/ x1.1 = x2.1 /\ st_world x1.2 = st_world x2.2 /\ forall a, x1.1 = Ok a -> P a.

#[export] Instance agree_rel : eval_rel agree.
Proof.
  split; unfold agree.
  - intros A a P HP i j w. right. right. do 2 (split; [done|]). by intros ? [= <-].
  - intros A e P He i j w. by right; right.
  - intros A B m1 m2 k1 k2 P Q Hm Hk i j w. cbn. specialize (Hm i j w). unfold mbind, eval_bind.
    destruct (m1 (mkState i w)) as [[a1|e1] [i' w1]], (m2 (mkState j w)) as [[a2|e2] [j' w2]];
      cbn [fst snd st_world] in *; destruct Hm as [Hm|[Hm|(Hm & Hw & HP)]]; try done; simplify_eq; auto.
    by right; right.
  - intros A h P HP i j w. right. right. cbn. unfold hook. cbn [st_world]. pose proof (HP w) as Hw.
    destruct (h w) as [[a'|] w']; cbn; do 2 (split; [done|]); intros a [= <-]. by apply Hw.
Qed.

Lemma agree_step_l {A} ev (m1 m2 : eval_m W A) P : agree A m1 m2 P -> agree A (_ ← step ev; m1) m2 P.
Proof.
  intros Hm i j w. unfold mbind, eval_bind, step. cbn [st_steps st_world].
  destruct (ev_budget ev <? i + 1); [by left|]. destruct ((Z.land _ _ =? 0) && _); [by left|]. apply Hm.
Qed.

Lemma agree_step_r {A} ev (m1 m2 : eval_m W A) P : agree A m1 m2 P -> agree A m1 (_ ← step ev; m2) P.
Proof.
  intros Hm i j w. unfold mbind, eval_bind, step. cbn [st_steps st_world].
  destruct (ev_budget ev <? j + 1); [by right; left|]. destruct ((Z.land _ _ =? 0) && _); [by right; left|]. apply Hm.
Qed.

(** The same expression, whatever the budgets and the fuel. *)
Lemma agree_fuel ev1 ev2 : same_env eq any any ev1 ev2 -> forall f1 f2 d n s,
  agree value (eval_fuel ev1 f1 d n s) (eval_fuel ev2 f2 d n s) any
  /\ agree bool (cond_fuel ev1 f1 d n s) (cond_fuel ev2 f2 d n s) (fun _ => True).
Proof.
  intros Henv. induction f1 as [|f1 IH]; intros [|f2] d n s; try (by split; left); [by split; right; left|].
  apply (bodies_rel agree agree); [done| |done]. intros A m1 m2 P Hm. by apply agree_step_l, agree_step_r.
Qed.

Section Parens.
Context (ev1 ev2 : exprEvaluator W) (Henv : same_env same_but_parens any any ev1 ev2).

Definition fuel_agree (f1 f2 : nat) : Prop := forall d n1 n2 s, same_but_parens n1 n2 ->
  agree value (eval_fuel ev1 f1 d n1 s) (eval_fuel ev2 f2 d n2 s) any
  /\ agree bool (cond_fuel ev1 f1 d n1 s) (cond_fuel ev2 f2 d n2 s) (fun _ => True).

Lemma body_agree f1 f2 d n1 n2 s : fuel_agree f1 f2 -> same_but_parens n1 n2 -> is_paren n1 = is_paren n2 ->
  agree value (eval_fuel ev1 (S f1) d n1 s) (eval_fuel ev2 (S f2) d n2 s) any.
Proof.
  intros IH Hn Hp. apply agree_step_l, agree_step_r.
  apply (eval_node_rel agree same_but_parens any any); try done; [| | |by apply same_layer|apply scope_any];
    intros; by apply IH.
Qed.

Lemma cond_agree f1 f2 d n1 n2 s : fuel_agree f1 f2 -> same_but_parens n1 n2 -> is_paren n1 = is_paren n2 ->
  agree bool (cond_fuel ev1 (S f1) d n1 s) (cond_fuel ev2 (S f2) d n2 s) (fun _ => True).
Proof.
  intros IH Hn Hp. pose proof (same_layer _ _ Hn Hp) as Hly.
  assert (Hd : agree bool (v ← eval_body ev1 (eval_fuel ev1 f1) (cond_fuel ev1 f1) d n1 s; condition ev1 v n1 s)
    (v ← eval_body ev2 (eval_fuel ev2 f2) (cond_fuel ev2 f2) d n2 s; condition ev2 v n2 s) (fun _ => True)).
  { eapply (rel_bind (R := agree)); [by apply (body_agree f1 f2)|]. intros v _.
    by apply (rel_condition agree same_but_parens any any). }
  destruct n1, n2; try done; cbn [layer] in Hly; try exact Hd; apply agree_step_l, agree_step_r; [|by apply IH].
  destruct Hly as (? & ? & ?). eapply (rel_bind (R := agree)); [by apply IH|]. intros [] _; by apply IH.
Qed.

Lemma parens_agree k : forall f1 f2, (f1 + f2 <= k)%nat -> fuel_agree f1 f2.
Proof.
  induction k as [|k IH]; intros f1 f2 Hk d n1 n2 s Hn;
    (destruct f1 as [|f1]; [by split; left|]); (destruct f2 as [|f2]; [by split; right; left|]); [lia|].
  destruct (decide (is_paren n1 = is_paren n2)) as [Hp|Hp].
  { pose proof (IH f1 f2 ltac:(lia)). split; [by apply body_agree|by apply cond_agree]. }
  destruct (is_paren n1) eqn:P1.
  - destruct n1 as [| | | | | | | | | |i1| | |]; try done. destruct (IH f1 (S f2) ltac:(lia) d i1 n2 s Hn) as [He Hc].
    split; apply agree_step_l; [exact He|exact Hc].
  - destruct n2 as [| | | | | | | | | |i2| | |]; try done. destruct (IH (S f1) f2 ltac:(lia) d n1 i2 s Hn) as [He Hc].
    split; apply agree_step_r; [exact He|exact Hc].
Qed.
End Parens.

(** A hook that does not look at a call's parentheses. *)
Definition calls_ignore_parens (opts : EvalOptions W) : Prop :=
  forall h n1 n2, o_Calls opts = Some h -> same_but_parens n1 n2 -> h n1 = h n2.

End Facts.

Lemma larger_budget_same_answer_witness :
  let n := BinaryExpr (go "+") (LiteralExpr (VInt64 2)) (LiteralExpr (VInt64 3)) in
  @EvalExpr latin1_tables plain_fmt unit (fun _ => false) 0 n (fun _ => None) (with_budget 70 (with_budget 3 no_hooks)) tt
  = (Ok (XInt 5), tt).
Proof.
  intros n. rewrite (@larger_budget_same_answer latin1_tables plain_fmt unit (fun _ => false) 0 (fun _ => None) (with_budget 3 no_hooks) n tt 70);
    [by vm_compute|done|by vm_compute].
Defined.
