(* ===== verification/EvalTotal.v ===== *)
(** Evaluation ends by itself: every expression has a finite cost, the number of
    steps it counts when the budget allows it, since predicates nest at most
    [exprMaxPredicateDepth] deep and everything else descends the tree. *)

From S2P Require Import Prelude GoText Strconv Numbers ExprNumbers.
From S2P Require Import Values Catalog Ast Scope Eval EvalRel EvalFacts.

(** ** Size *)

Fixpoint esize (n : expr) : nat :=
  match n with
  | NilNode => 0
  | MemberExpr o _ _ => S (esize o)
  | CallExpr r _ _ args named => S (esize r + list_sum (esize <$> args) + list_sum ((fun kv => esize kv.2) <$> named))
  | UnaryExpr _ x => S (esize x)
  | BinaryExpr _ x y => S (esize x + esize y)
  | TernaryExpr c t e => S (esize c + esize t + esize e)
  | LambdaExpr _ b => S (esize b)
  | ListExpr es => S (list_sum (esize <$> es))
  | MapExpr es => S (list_sum ((fun kv => esize kv.2) <$> es))
  | ParenExpr i => S (esize i)
  | _ => 1
  end.

(** Equal, and smaller than [k]. *)
Definition below (k : nat) (n1 n2 : expr) : Prop := n1 = n2 /\ (esize n1 < k)%nat.

Lemma esize_Unparen n : (esize (Unparen n) <= esize n)%nat.
Proof. induction n; cbn; lia. Qed.

Lemma below_rel k : (0 < k)%nat -> expr_rel (below k).
Proof.
  intros Hk. split.
  - by split.
  - intros n ? [<- Hn]. pose proof (esize_Unparen n) as Hu. destruct (Unparen n); try done. cbn in Hu. split; [done|]. split; [done|lia].
  - by intros ? ? ? ? ? [<- _].
Qed.

Lemma sum_below {A} (f : A -> nat) l k : (list_sum (f <$> l) < k)%nat -> Forall (fun x => (f x < k)%nat) l.
Proof.
  induction l as [|x l IH]; intros Hl; [done|].
  change (list_sum (f <$> x :: l)) with (f x + list_sum (f <$> l))%nat in Hl. constructor; [lia|apply IH; lia].
Qed.

Lemma layer_below n : layer (below (esize n)) n n.
Proof.
  assert (HF : forall k l, (list_sum (esize <$> l) < k)%nat -> Forall2 (below k) l l).
  { intros k l Hl%sum_below. induction Hl; by repeat constructor. }
  assert (HM : forall k (l : list (gostring * expr)), (list_sum ((fun kv => esize kv.2) <$> l) < k)%nat ->
    Forall2 (fun p q => p.1 = q.1 /\ below k p.2 q.2) l l).
  { intros k l Hl%sum_below. induction Hl; by repeat constructor. }
  destruct n; cbn [layer esize]; try done; repeat split; try lia; try (apply HF; lia); try (apply HM; lia).
Qed.

Section Total.
Context `{UnicodeTables, GoFmt} {W : Type} (ev : exprEvaluator W).
Context (Hctx : forall i, ev_ctx ev i = false).

Abbreviation any := (fun _ : value => True).

(** ** Fuel for the steps left *)

Definition fuel_left (st : eval_state W) : nat := S (Z.to_nat (ev_budget ev - st_steps st)).

Definition run_eval (d : nat) (n : expr) (s : scope) : eval_m W value := fun st => eval_fuel ev (fuel_left st) d n s st.
Definition run_cond (d : nat) (n : expr) (s : scope) : eval_m W bool := fun st => cond_fuel ev (fuel_left st) d n s st.

Lemma run_unfold d n s st : st_steps st <= ev_budget ev ->
  run_eval d n s st = eval_body ev run_eval run_cond d n s st
  /\ run_cond d n s st = cond_body ev run_eval run_cond d n s st.
Proof.
  intros Hst. set (f := Z.to_nat (ev_budget ev - st_steps st)).
  pose proof (bodies_rel (bounded ev (st_steps st)) (bounded ev (st_steps st + 1)) ev ev (same_env_refl ev)
    (fun A m1 m2 P Hm => bounded_step ev _ m1 m2 P Hm) (eval_fuel ev f) run_eval (cond_fuel ev f) run_cond) as Hb.
  assert (Hr : forall st', st_steps st + 1 <= st_steps st' <= ev_budget ev ->
    ev_budget ev < st_steps st' + Z.of_nat f /\ ev_budget ev < st_steps st' + Z.of_nat (fuel_left st')).
  { intros st' Hst'. unfold fuel_left. subst f. lia. }
  destruct Hb with (d := d) (n := n) (s := s) as [He Hc].
  { intros d' n' s'. split; intros st' Hst'; destruct (Hr st' Hst') as [H1 H2];
      destruct (bounded_fuel ev f (fuel_left st') (st_steps st') H1 H2 d' n' s') as [He Hc];
      [apply (He st')|apply (Hc st')]; lia. }
  split; [destruct (He st ltac:(lia)) as [-> _]|destruct (Hc st ltac:(lia)) as [-> _]]; done.
Qed.

(** ** Cost *)

(** From any world, a cost, an answer and a world: what the computation does
    whenever the budget has that many steps left. *)
Definition total A (m m' : eval_m W A) (P : A -> Prop) : Prop :=
  forall w, exists c r w', 0 <= c /\ interrupted r = false /\ (forall a, r = Ok a -> P a)
    /\ forall i, i + c <= ev_budget ev -> m (mkState i w) = (r, mkState (i + c) w').

#[local] Instance total_rel : eval_rel total.
Proof.
  split; unfold total.
  - intros A a P HP w. exists 0, (Ok a), w. split; [lia|]. split; [done|]. split; [by intros ? [= <-]|].
    intros i _. by rewrite Z.add_0_r.
  - intros A e P He w. exists 0, (Err e), w. split; [lia|]. split; [done|]. split; [done|].
    intros i _. by rewrite Z.add_0_r.
  - intros A B m1 m2 k1 k2 P Q Hm Hk w. destruct (Hm w) as (c & r & w' & Hc & Hi & HP & Hrun). destruct r as [a|e].
    + destruct (Hk a (HP a eq_refl) w') as (c' & r' & w'' & Hc' & Hi' & HQ & Hrun'). exists (c + c'), r', w''.
      split; [lia|]. split; [done|]. split; [done|]. intros i Hle. unfold mbind, eval_bind. rewrite Hrun by lia.
      rewrite Hrun' by lia. by rewrite Z.add_assoc.
    + exists c, (Err e), w'. split; [lia|]. split; [done|]. split; [done|]. intros i Hle.
      unfold mbind, eval_bind. by rewrite Hrun by lia.
  - intros A h P HP w. pose proof (HP w) as Hw. destruct (h w) as [r w'] eqn:Eh.
    exists 0, (match r with Ok a => Ok a | Err e => Err (EHook e) end), w'. split; [lia|]. split; [by destruct r|].
    split; [destruct r; [intros ? [= <-]; by apply Hw|done]|]. intros i _. unfold hook. cbn. rewrite Eh, Z.add_0_r. done.
Qed.

Lemma total_step {A} (m m' : eval_m W A) P : total A m m P -> total A (_ ← step ev; m) m' P.
Proof.
  intros Hm w. destruct (Hm w) as (c & r & w' & Hc & Hi & HP & Hrun). exists (c + 1), r, w'. split; [lia|].
  split; [done|]. split; [done|]. intros i Hle. unfold mbind, eval_bind, step. cbn [st_steps st_world].
  destruct (Z.ltb_spec (ev_budget ev) (i + 1)); [lia|]. rewrite Hctx, andb_false_r, Hrun by lia. do 2 f_equal. lia.
Qed.

Lemma total_run {A} (m m' m'' : eval_m W A) P : (forall st, st_steps st <= ev_budget ev -> m st = m' st) ->
  total A m' m' P -> total A m m'' P.
Proof.
  intros Heq Hm w. destruct (Hm w) as (c & r & w' & Hc & Hi & HP & Hrun). exists c, r, w'. do 3 (split; [done|]).
  intros i Hle. rewrite Heq by (cbn; lia). by apply Hrun.
Qed.

Definition ends (d : nat) (n : expr) : Prop := forall s m m',
  total value (run_eval d n s) m any /\ total bool (run_cond d n s) m' (fun _ => True).

(** A node ends when the smaller ones do, and the predicates one level deeper. *)
Lemma ends_node d n :
  (forall n', (esize n' < esize n)%nat -> ends d n') ->
  ((d < exprMaxPredicateDepth)%nat -> forall n', ends (S d) n') -> ends d n.
Proof.
  intros IHn IHd s m m'.
  assert (He : total value (eval_body ev run_eval run_cond d n s) (eval_body ev run_eval run_cond d n s) any).
  { apply total_step. destruct (decide (esize n = 0)%nat) as [Hz|Hz].
    { destruct n; cbn in Hz; try lia. by apply rel_err. }
    pose proof (below_rel (esize n) ltac:(lia)) as Hbr.
    assert (Henv : same_env (below (esize n)) any any ev ev).
    { apply same_env_any; try done. intros h n1 n2 _ Hl. f_equal. symmetry. apply layer_eq.
      clear -Hl. destruct n1, n2; cbn in *; try done; destruct_and?; unfold below in *; destruct_and?; subst; try done;
        repeat split; try done; try (eapply Forall2_impl; [eassumption|]; by intros ? ? [? _]);
        (eapply Forall2_impl; [eassumption|]; by intros ? ? [? [? _]]). }
    apply (eval_node_rel total (below (esize n)) any any); try done;
      [| | |apply layer_below|apply scope_any].
    - intros n1 ? s' [<- Hn] _. by apply IHn.
    - intros n1 ? s' [<- Hn] _. by apply IHn.
    - intros x p body s' _ Hd _. by apply IHd. }
  split; (eapply total_run; [intros st Hst; by apply run_unfold|]); [exact He|].
  assert (Hd : total bool (v ← eval_body ev run_eval run_cond d n s; condition ev v n s)
    (v ← eval_body ev run_eval run_cond d n s; condition ev v n s) (fun _ => True)).
  { eapply (rel_bind (R := total)); [exact He|]. intros v _.
    by apply (rel_condition total eq any any ev ev (same_env_refl ev)). }
  destruct n; try exact Hd; cbn [esize] in IHn; apply total_step; [|by apply IHn; [lia|..]].
  eapply (rel_bind (R := total)); [apply IHn; [lia|..]; done|]. intros [] _; apply IHn; lia || done.
Qed.

Lemma ends_all k : forall d n, (exprMaxPredicateDepth - d <= k)%nat -> ends d n.
Proof.
  induction k as [|k IHk]; intros d n Hk; remember (esize n) as z eqn:Hz; revert n Hz;
    induction z as [z IHz] using lt_wf_ind; intros n ->; apply ends_node; try (intros n' Hn'; by eapply IHz).
  - lia.
  - intros Hd n'. apply IHk. lia.
Qed.
End Total.

(** ** Budgets *)

Section Ends.
Context `{UnicodeTables, GoFmt} {W : Type}.

(** The same computation with [delta] more steps behind it. *)
Definition shifted (delta : Z) A (m1 m2 : eval_m W A) (P : A -> Prop) : Prop :=
  forall i w, let x := m1 (mkState i w) in
    m2 (mkState (i + delta) w) = (x.1, mkState (st_steps x.2 + delta) (st_world x.2))
    /\ forall a, x.1 = Ok a -> P a.

#[export] Instance shifted_rel delta : eval_rel (shifted delta).
Proof.
  split; unfold shifted.
  - intros A a P HP i w. split; [done|]. by intros ? [= <-].
  - done.
  - intros A B m1 m2 k1 k2 P Q Hm Hk i w. destruct (Hm i w) as [Heq HP]. cbn. unfold mbind, eval_bind.
    rewrite Heq. destruct (m1 (mkState i w)) as [[a|e] [i' w']]; [|done]. cbn [fst snd st_steps st_world] in *.
    by apply Hk, HP.
  - intros A h P HP i w. pose proof (HP w) as Hw. cbn. unfold hook. cbn. destruct (h w) as [[a|] w']; (split; [done|]); [|done].
    intros ? [= <-]. by apply Hw.
Qed.

Lemma shifted_step {A} delta (ev1 ev2 : exprEvaluator W) (m1 m2 : eval_m W A) P :
  (forall i, ev_ctx ev1 i = false) -> (forall i, ev_ctx ev2 i = false) -> ev_budget ev2 = ev_budget ev1 + delta ->
  shifted delta A m1 m2 P -> shifted delta A (_ ← step ev1; m1) (_ ← step ev2; m2) P.
Proof.
  intros H1 H2 Hb Hm i w. cbn. unfold mbind, eval_bind, step. cbn [st_steps st_world].
  rewrite H1, H2, !andb_false_r, Hb. replace (i + delta + 1) with (i + 1 + delta) by lia.
  destruct (Z.ltb_spec (ev_budget ev1) (i + 1)), (Z.ltb_spec (ev_budget ev1 + delta) (i + 1 + delta)); try lia; [done|apply Hm].
Qed.

Lemma shifted_fuel delta (ev1 ev2 : exprEvaluator W) : same_env eq (fun _ => True) (fun _ => True) ev1 ev2 ->
  (forall i, ev_ctx ev1 i = false) -> (forall i, ev_ctx ev2 i = false) -> ev_budget ev2 = ev_budget ev1 + delta ->
  forall f d n s, shifted delta value (eval_fuel ev1 f d n s) (eval_fuel ev2 f d n s) (fun _ => True)
    /\ shifted delta bool (cond_fuel ev1 f d n s) (cond_fuel ev2 f d n s) (fun _ => True).
Proof.
  intros Henv H1 H2 Hb. induction f as [|f IH]; intros d n s; [done|].
  apply (bodies_rel (shifted delta) (shifted delta)); [done|intros; by apply shifted_step|done].
Qed.

Lemma EvalExpr_ends clock root (opts : EvalOptions W) n w :
  exists b r w', interrupted r = false /\
    forall b', b <= b' -> EvalExpr (fun _ => false) clock n root (with_budget b' opts) w = (r, w').
Proof.
  set (ev b := newExprEvaluator (fun _ => false) clock root (with_budget b opts)).
  destruct (ends_all (ev 1) (fun _ => eq_refl) exprMaxPredicateDepth 0 n ltac:(lia) [] (fun st => (Err EFuel, st)) (fun st => (Err EFuel, st)))
    as [Ht _]. destruct (Ht w) as (c & r & w' & Hc & Hi & _ & Hrun).
  exists (Z.max 1 c), (exprResolveObject <$> r), w'. split; [by destruct r|]. intros b' Hb'. unfold EvalExpr.
  assert (Hbud : ev_budget (ev b') = b') by (cbn; destruct (Z.leb_spec b' 0); lia).
  assert (Henv : same_env eq (fun _ => True) (fun _ => True) (ev 1) (ev b')).
  { apply same_env_any; try done. by intros ? ? ? _ ->%layer_eq. }
  destruct (shifted_fuel (b' - 1) (ev 1) (ev b') Henv) with (f := ev_fuel (ev b')) (d := 0%nat) (n := n) (s := @nil frame)
    as [Hs _]; [done|done|rewrite Hbud; change (ev_budget (ev 1)) with 1; lia|].
  specialize (Hs (1 - b') w). specialize (Hrun (1 - b') ltac:(change (ev_budget (ev 1)) with 1; lia)).
  unfold run_eval, fuel_left in Hrun. cbn [st_steps] in Hrun. change (ev_budget (ev 1)) with 1 in Hrun.
  change (newExprEvaluator _ _ _ _) with (ev b'). unfold eval, ev_fuel in *. rewrite Hbud in *.
  replace (1 - (1 - b')) with b' in Hrun by lia. cbn zeta in Hs. rewrite Hrun in Hs.
  replace (1 - b' + (b' - 1)) with 0 in Hs by lia. by rewrite (proj1 Hs).
Qed.

(** Two expressions that agree unless interrupted have one meaning: from some
    budget on, the same answer and the same world. *)
Lemma EvalExpr_same clock root (opts : EvalOptions W) n1 n2 w :
  (forall b1 b2 f1 f2,
     agree value (eval_fuel (newExprEvaluator (fun _ => false) clock root (with_budget b1 opts)) f1 0 n1 [])
       (eval_fuel (newExprEvaluator (fun _ => false) clock root (with_budget b2 opts)) f2 0 n2 []) (fun _ => True)) ->
  exists b, forall b1 b2, b <= b1 -> b <= b2 ->
    EvalExpr (fun _ => false) clock n1 root (with_budget b1 opts) w
    = EvalExpr (fun _ => false) clock n2 root (with_budget b2 opts) w.
Proof.
  intros Ha. destruct (EvalExpr_ends clock root opts n1 w) as (b & r & w1 & Hi & Hb).
  destruct (EvalExpr_ends clock root opts n2 w) as (b' & r' & w2 & Hi' & Hb').
  exists (Z.max b b'). intros b1 b2 H1 H2. specialize (Hb b1 ltac:(lia)). specialize (Hb' b2 ltac:(lia)).
  unfold EvalExpr, eval in *. specialize (Ha b1 b2 (ev_fuel (newExprEvaluator (fun _ => false) clock root (with_budget b1 opts)))
    (ev_fuel (newExprEvaluator (fun _ => false) clock root (with_budget b2 opts))) 0 0 w). cbn zeta in Ha.
  destruct (eval_fuel _ _ 0 n1 [] _) as [r1 st1], (eval_fuel _ _ 0 n2 [] _) as [r2 st2]. cbn [fst snd] in Ha.
  destruct Ha as [Ha|[Ha|(-> & Hw & _)]]; [by destruct r1; simplify_eq/=; congruence..| |by rewrite Hw].
  destruct r2; simplify_eq/=; congruence.
Qed.

(** C6: Evaluation ends by itself: every expression has an answer that no budget and
    no cancellation had a part in, and every budget from some point on gives it. *)
Theorem every_evaluation_ends clock root (opts : EvalOptions W) n w :
  exists b r w', interrupted r = false /\
    forall b', b <= b' -> EvalExpr (fun _ => false) clock n root (with_budget b' opts) w = (r, w').
Proof. apply EvalExpr_ends. Qed.
End Ends.
