(* ===== verification/EvalClean.v ===== *)
(** What an evaluation answers: the absence mark and the objects of a scope never
    escape into a list, a map or a call's arguments. *)

From S2P Require Import Prelude GoText Strconv Numbers ExprNumbers.
From S2P Require Import Values Catalog Ast Scope Eval ValueFacts EvalRel EvalFacts.

(** ** Plain and clean values *)

Definition all_of {A} (P : A -> Prop) : list A -> Prop := foldr (fun x acc => P x /\ acc) True.

(** An object whose chain of views ends at a value. *)
Definition settles (v : value) : Prop := match exprResolveObject v with XObject _ _ => False | _ => True end.

(** [held true v]: a scope may bind [v]: containers in it hold no absence mark and
    no object, an object's answers do not either, and it settles.  [held false v]:
    a container may hold [v]. *)
Fixpoint held (top : bool) (v : value) : Prop :=
  match v with
  | XAbsent => top = true
  | XObject member stands =>
      top = true /\ settles v /\ (forall f, match member f with Some x => held true x | None => True end)
      /\ held true stands
  | XMembers read => forall f, match read f with Ok x => held true x | Err _ => True end
  | XList l | GSlice l => all_of (held false) l
  | XMap m | GStringMap m => all_of (fun kv => held false kv.2) m
  | XRow _ _ _ _ _ p m =>
      match p with Some m' => all_of (fun kv => held false kv.2) m' | None => True end
      /\ all_of (fun kv => held false kv.2) m
  | GPtr p => held false p
  | GJSON _ d => match d with Some x => held false x | None => True end
  | _ => True
  end.

Definition clean : value -> Prop := held true.
Definition plain : value -> Prop := held false.

Lemma all_of_Forall {A} (P : A -> Prop) l : all_of P l <-> Forall P l.
Proof. induction l as [|x l IH]; cbn; [by split|]. rewrite Forall_cons. by rewrite IH. Qed.

Lemma all_of_values {A} (P : value -> Prop) (m : list (A * value)) : all_of (fun kv => P kv.2) m <-> Forall P (m.*2).
Proof. rewrite all_of_Forall. by rewrite Forall_fmap. Qed.

Lemma plain_clean v : plain v -> clean v.
Proof. destruct v; try done. by intros []. Qed.

Lemma clean_plain v : clean v -> v <> XAbsent -> match v with XObject _ _ => False | _ => True end -> plain v.
Proof. by destruct v. Qed.

Lemma resolve_clean h v : clean v -> clean (resolve_object h v).
Proof. revert v. induction h as [|h IH]; intros v Hv; [done|]. destruct v; try done. apply IH. apply Hv. Qed.

Lemma resolve_plain v : clean v -> exprResolveObject v <> XAbsent -> plain (exprResolveObject v).
Proof.
  intros Hv Hn. apply clean_plain; [by apply resolve_clean|done|]. destruct v; try done. apply Hv.
Qed.

Lemma normalize_clean v : forall h nv, clean v -> normalize h v = Some nv -> clean nv.
Proof.
  induction v as [v Hl|l IH|l IH|m IH|m IH| |member stands Hm IH|read Hr|p IH|t d IH] using value_ind';
    intros h nv Hv Hn; try (cbn [normalize] in Hn; simplify_eq; done).
  - destruct v; try done; destruct h; cbn [normalize] in Hn; simplify_eq; try done;
      first [unfold normal_int; by case_match|unfold normal_number; by repeat case_match].
  - destruct h; [done|]. eapply IH; [|done]. apply Hv.
  - destruct h; (eapply IH; [|done]); by apply plain_clean.
  - destruct h, d; cbn [normalize] in Hn; simplify_eq; by apply plain_clean.
Qed.

Lemma map_get_plain m k v : all_of (fun kv => held false kv.2) m -> map_get m k = Some v -> clean v.
Proof.
  rewrite all_of_Forall, Forall_forall. intros Hm Hg%map_get_Some_elem. apply plain_clean. apply (Hm (k, v) Hg).
Qed.

Lemma or_absent_clean o : (forall v, o = Some v -> clean v) -> clean (or_absent o).
Proof. destruct o; [auto|done]. Qed.

Section Clean.
Context `{UnicodeTables, GoFmt}.

Lemma plain_member_clean v f x : clean v -> plain_member v f = Ok x -> clean x.
Proof.
  intros Hv. unfold plain_member. destruct (exprNormalize v) as [nv|] eqn:En; [|done].
  apply (normalize_clean v) in En; [|done]. destruct nv; intros [= <-]; try done.
  - apply or_absent_clean. intros x Hx. destruct (exprIndexOf f (length l)) as [i|]; [|done]. cbn in Hx.
    apply plain_clean. unfold clean in En. cbn in En. apply all_of_Forall in En. by eapply Forall_lookup_1.
  - apply or_absent_clean. intros x. by apply map_get_plain.
  - destruct En as [Ep Em]. unfold row_member.
    destruct (resolveIntrinsicField f) as [[]|]; try done; apply or_absent_clean; intros x Hx.
    + match type of Hx with XStr <$> ?p = _ => destruct p end; cbn in Hx; [by injection Hx as <-|done].
    + match type of Hx with XMap <$> ?p = _ => destruct p end; cbn in Hx; [by injection Hx as <-|done].
    + by eapply map_get_plain.
Qed.

Lemma member_clean v f x : clean v -> exprMember v f = Ok x -> clean x.
Proof.
  intros Hv. unfold exprMember. destruct v; try by apply plain_member_clean.
  - pose proof Hv as (_ & _ & Hm & _). specialize (Hm f). destruct (member f) as [y|].
    + by intros [= <-].
    + apply plain_member_clean. by apply resolve_clean.
  - pose proof (Hv f) as Hf. cbn beta in Hf. destruct (read f); [by intros [= <-]|done].
Qed.

Lemma collection_clean v : forall h l, clean v -> collection h v = Ok (Some l) -> Forall plain l.
Proof.
  assert (Hmap : forall m0 m, Forall (fun kv => forall h l, clean kv.2 -> collection h kv.2 = Ok (Some l) -> Forall plain l) m ->
    all_of (fun kv => held false kv.2) m0 -> all_of (fun kv => held false kv.2) m -> forall l,
    (fix nodes (l : list (gostring * value)) :=
       match l with
       | [] => Ok (Some [XMap m0])
       | (k, x) :: l' => if k =s go "nodes" then match collection 16 x with Ok None => Ok (Some []) | r => r end else nodes l'
       end) m = (Ok (Some l) : result unit _) -> Forall plain l).
  { intros m0 m IH Hm0 Hm l. induction IH as [|[k x] m Hx IH IHm]; [intros [= <-]; by constructor|]. destruct Hm as [Hk Hm].
    case_match; [|by apply IHm]. destruct (collection 16 x) as [[l'|]|] eqn:Ec; intros [= <-]; [|done].
    eapply Hx; [by apply plain_clean|done]. }
  induction v as [v Hl|l IH|l IH|m IH|m IH| |member stands Hm IH|read Hr|p IH|t d IH] using value_ind';
    intros h l' Hv Hc; cbn in Hc; simplify_eq; try done; try (by apply all_of_Forall).
  - by destruct v.
  - by eapply (Hmap m m).
  - by eapply (Hmap m m).
  - destruct h; [done|]. eapply IH; [|done]. apply Hv.
  - eapply IH; [|done]. by apply plain_clean.
  - destruct d as [d|]; [|done]. destruct d; try done; (eapply IH; [by apply plain_clean|done]).
Qed.

#[export] Instance clean_inv : value_inv clean plain.
Proof.
  split; try done.
  - by intros [].
  - apply plain_clean.
  - intros l Hl. by apply all_of_Forall.
  - intros l Hl. by apply all_of_Forall.
  - intros m Hm. by apply (all_of_values plain).
  - apply resolve_plain.
  - intros v nv. apply normalize_clean.
  - apply member_clean.
  - intros v l. apply collection_clean.
Qed.

(** ** Answers *)

Section Answers.
Context {W : Type}.

Definition answers A (m m' : eval_m W A) (P : A -> Prop) : Prop := forall st a, (m st).1 = Ok a -> P a.

#[export] Instance answers_rel : eval_rel answers.
Proof.
  split; unfold answers.
  - by intros A a P HP st ? [= <-].
  - done.
  - intros A B m1 m2 k1 k2 P Q Hm Hk st b. unfold mbind, eval_bind. specialize (Hm st).
    destruct (m1 st) as [[a|] st']; [|done]. apply Hk. by apply Hm.
  - intros A h P HP st a. unfold hook. pose proof (HP (st_world st)). destruct (h (st_world st)) as [[]]; naive_solver.
Qed.

(** Hooks that answer clean values when they are called with plain ones. *)
Definition hooks_clean (opts : EvalOptions W) : Prop :=
  forall h n m w v, o_Calls opts = Some h -> Forall plain (m.*2) -> (h n m w).1 = Ok v -> clean v.

Lemma eval_answers_clean (ev : exprEvaluator W) : (forall x v, ev_root ev x = Some v -> clean v) ->
  hooks_clean (ev_opts ev) -> forall f d n s, scope_inv clean s ->
  answers value (eval_fuel ev f d n s) (eval_fuel ev f d n s) clean.
Proof.
  intros Hroot Hh. assert (Henv : same_env eq clean plain ev ev).
  { split; try done. destruct (o_Calls (ev_opts ev)) as [h|] eqn:E; [|done]. intros n1 n2 m ->%layer_eq Hm.
    split; [done|]. intros w v. by eapply Hh. }
  induction f as [|f IH]; intros d n s Hs; [done|]. eapply (rel_bind (R := answers)) with (P := fun _ => True); [done|].
  intros _ _. apply (eval_node_rel answers eq clean plain); [done|..|by apply layer_refl|done].
  - intros n1 ? s' -> Hs'. by apply IH.
  - by intros ? ? ? _ _ ? ?.
  - by intros ? ? ? ? _ _ _ ? ?.
Qed.

(** C11: The absence mark and the objects a scope hands out never escape: whatever a
    scope and hooks of clean values lead to, an answer is the absence mark itself
    or a value in which no list and no map holds either, at any depth. *)
Theorem answers_are_plain ctx clock root (opts : EvalOptions W) n w v w' :
  (forall x u, root x = Some u -> clean u) -> hooks_clean opts ->
  EvalExpr ctx clock n root opts w = (Ok v, w') -> v = XAbsent \/ plain v.
Proof.
  intros Hroot Hh. unfold EvalExpr. set (ev := newExprEvaluator ctx clock root opts).
  pose proof (eval_answers_clean ev Hroot Hh (ev_fuel ev) 0 n [] (List.Forall_nil _) (mkState 0 w)) as Ha.
  unfold eval. destruct (eval_fuel ev (ev_fuel ev) 0 n [] (mkState 0 w)) as [[a|] st]; [|done]. intros [= <- _].
  specialize (Ha a eq_refl). destruct (exprResolveObject a) eqn:E; try (right; rewrite <- E; apply resolve_plain; [done|by rewrite E]).
  by left.
Qed.
End Answers.
End Clean.

(** An automation step as a scope hands it out: `.status` is its own answer, and
    everything else is read from the result it stands for. *)
Definition sample_step : value :=
  XObject (fun f => if f =s go "status" then Some (XStr (go "ok")) else None)
    (XMap [(go "total", XInt 3); (go "tags", XList [XStr (go "a")])]).

Definition sample_root (x : gostring) : option value := if x =s go "step" then Some sample_step else None.

(** [step, step.missing, step.status, {t: step.tags}] *)
Definition sample_expr : expr :=
  ListExpr [IdentExpr (go "step"); MemberExpr (IdentExpr (go "step")) (go "missing") false;
            MemberExpr (IdentExpr (go "step")) (go "status") false;
            MapExpr [(go "t", MemberExpr (IdentExpr (go "step")) (go "tags") false)]].

Lemma answers_are_plain_witness :
  let answer := XList [XMap [(go "total", XInt 3); (go "tags", XList [XStr (go "a")])]; XStr (go "ok");
                       XMap [(go "t", XList [XStr (go "a")])]] in
  @EvalExpr latin1_tables plain_fmt unit (fun _ => false) 0 sample_expr sample_root
    (mkOptions (Some 0) 100 None None None None) tt = (Ok answer, tt) /\ (answer = XAbsent \/ plain answer).
Proof.
  intros answer. assert (Hrun : @EvalExpr latin1_tables plain_fmt unit (fun _ => false) 0 sample_expr sample_root
    (mkOptions (Some 0) 100 None None None None) tt = (Ok answer, tt)) by by vm_compute.
  split; [exact Hrun|].
  eapply (@answers_are_plain latin1_tables plain_fmt unit); [| |exact Hrun].
  - intros x u. unfold sample_root. case_match; [|done]. intros [= <-]. split; [done|]. split; [done|].
    split; [|by repeat split]. intros f. by destruct (f =s go "status").
  - by intros h.
Defined.
