(* ===== verification/EvalLaws.v ===== *)
(** Laws of the operators and of the list methods: how a value read from a stored
    row answers, and that any() and all() are dual. *)

From S2P Require Import Prelude GoText Strconv Numbers ExprNumbers.
From S2P Require Import Ids Values Catalog Ast Scope Eval ValueFacts EvalRel EvalFacts EvalTotal.

(** ** Catalog entries *)

Lemma entry_any : exprMethodEntry TypeList (go "any") = Some (on_list "any" [param "pred" TypeLambda] TypeBool TierP)
  /\ exprMethodEntry TypeString (go "any") = None.
Proof. by vm_compute. Qed.

Lemma entry_all : exprMethodEntry TypeList (go "all") = Some (on_list "all" [param "pred" TypeLambda] TypeBool TierP)
  /\ exprMethodEntry TypeString (go "all") = None.
Proof. by vm_compute. Qed.

Lemma entry_count : exprMethodEntry TypeList (go "count") = Some (on_list "count" [] TypeNumber TierP)
  /\ exprMethodEntry TypeString (go "count") = Some (mkFunction (go "count") (Some TypeString) [] TypeNumber TierM).
Proof. by vm_compute. Qed.

(** One lambda of one parameter. *)
Lemma shape_any p b : exprCheckShape [LambdaExpr [p] b] [] (on_list "any" [param "pred" TypeLambda] TypeBool TierP) = true.
Proof. done. Qed.

Lemma shape_all p b : exprCheckShape [LambdaExpr [p] b] [] (on_list "all" [param "pred" TypeLambda] TypeBool TierP) = true.
Proof. done. Qed.

(** ** Stored values *)

(** The rules table of expr_stored.go: what a stored value answers where a list or
    a condition is expected. *)
Definition stored_true (v : value) : bool := match exprNormalize v with Some (XBool b) => b | _ => false end.

Definition stored_member (v x : value) : bool :=
  match x with XList els => existsb (exprEqual v) els | _ => false end.

Definition stored_count (x : value) : Z :=
  match x with XList l => Z.of_nat (length l) | XStr t => Z.of_nat (length t) | _ => 0 end.

Section Stored.
Context `{UnicodeTables, GoFmt} {W : Type} (ev : exprEvaluator W).
Context (e : nat -> expr -> scope -> eval_m W value) (c : nat -> expr -> scope -> eval_m W bool) (d : nat).

(** The receiver or operand [n], normalised. *)
Definition operand (n : expr) (s : scope) : eval_m W value := v ← e d n s; normalized operand_type v.

Lemma stored_in x n s st : exprStoredRead (ev_root ev) n s = true ->
  binary ev e c d (go "in") x n s st
  = (l ← e d x s; r ← e d n s; l' ← normalized operand_type l; r' ← normalized operand_type r;
     mret (XBool (stored_member l' r'))) st.
Proof.
  intros Hs. unfold binary. cbn [eqs]. change ((go "in" =s go "&&") || (go "in" =s go "||")) with false.
  change (go "in" =s go "??") with false. cbv iota. rewrite Hs. unfold mbind, eval_bind.
  destruct (e d x s st) as [[l|] st1]; [|done]. destruct (e d n s st1) as [[r|] st2]; [|done].
  unfold normalized. destruct (exprNormalize l) as [l'|]; [|done]. cbn [mret eval_ret]. unfold mret, eval_ret.
  destruct (exprNormalize r) as [r'|]; [|done].
  change (binary_values (go "in") true l' r') with (if exprStoredMismatch r' && true then Ok (XBool false) else exprIn l' r').
  by destruct r'.
Qed.

Lemma stored_count_method n s st : exprStoredRead (ev_root ev) n s = true ->
  method ev e c d n (go "count") [] [] s st = (x ← operand n s; mret (XInt (stored_count x))) st.
Proof.
  intros Hs. unfold method. destruct entry_count as [-> ->]. cbv beta iota zeta delta [negb orb exprCheckShape].
  rewrite Hs. unfold operand, mbind, eval_bind. cbn -[exprNormalize normalized].
  destruct (e d n s st) as [[v|] st1]; [|done]. unfold normalized. destruct (exprNormalize v) as [x|]; [|done].
  cbn. by destruct x.
Qed.

(** A list method that decides: its answers without a list, and its loop. *)
Definition decide_stored (empty : bool) (loop : list value -> eval_m W bool) (x : value) : eval_m W bool :=
  match x with
  | XList l => loop l
  | XNil | XAbsent => mret empty
  | _ => mret false
  end.

Lemma stored_any n p b s st : exprStoredRead (ev_root ev) n s = true ->
  method ev e c d n (go "any") [LambdaExpr [p] b] [] s st
  = (x ← operand n s;
     ok ← decide_stored false (any_loop (fun el => c d b (mkFrame [p] [el] [true] :: s))) x; mret (XBool ok)) st.
Proof.
  intros Hs. unfold method. destruct entry_any as [-> ->].
  change (bool_decide (is_Some (Some _))) with true. change (bool_decide (is_Some None)) with false.
  rewrite shape_any, Hs. cbn [negb orb andb].
  unfold operand, mbind, eval_bind. destruct (e d n s st) as [[v|] st1]; [|done].
  unfold normalized. destruct (exprNormalize v) as [x|]; [|done]. destruct x; try done.
  cbn [mret eval_ret exprStoredMismatch andb is_string exprCollection collection decide_stored].
  change (exprCollection (XList l)) with (Ok (E := unit) (Some l)). unfold dispatchMethod.
  change (map_get exprMethodImpls _) with (Some MAny). unfold apply_method, lam_test, element_scope. by rewrite Hs.
Qed.

Lemma stored_all n p b s st : exprStoredRead (ev_root ev) n s = true ->
  method ev e c d n (go "all") [LambdaExpr [p] b] [] s st
  = (x ← operand n s;
     ok ← decide_stored true (all_loop (fun el => c d b (mkFrame [p] [el] [true] :: s))) x; mret (XBool ok)) st.
Proof.
  intros Hs. unfold method. destruct entry_all as [-> ->].
  change (bool_decide (is_Some (Some _))) with true. change (bool_decide (is_Some None)) with false.
  rewrite shape_all, Hs. cbn [negb orb andb].
  unfold operand, mbind, eval_bind. destruct (e d n s st) as [[v|] st1]; [|done].
  unfold normalized. destruct (exprNormalize v) as [x|]; [|done]. destruct x; try done.
  cbn [mret eval_ret exprStoredMismatch andb is_string exprCollection collection decide_stored].
  change (exprCollection (XList l)) with (Ok (E := unit) (Some l)). unfold dispatchMethod.
  change (map_get exprMethodImpls _) with (Some MAll). unfold apply_method, lam_test, element_scope. by rewrite Hs.
Qed.
End Stored.

(** C22: A value read from a stored row is never refused where a list or a condition is
    expected, it answers by what it holds: as a condition it is true only when it
    is the boolean true; `in` finds members in a list only; count() counts a list
    or a string and 0 otherwise; any() and all() range over a list, are vacuous
    on null, and false on anything else. *)
Theorem stored_values_answer `{GoFmt} {W : Type} (ev : exprEvaluator W)
    (e : nat -> expr -> scope -> eval_m W value) (c : nat -> expr -> scope -> eval_m W bool) d n s st :
  exprStoredRead (ev_root ev) n s = true ->
  (forall v, condition ev v n s st = (Ok (stored_true v), st))
  /\ (forall x, binary ev e c d (go "in") x n s st
       = (l ← e d x s; r ← e d n s; l' ← normalized operand_type l; r' ← normalized operand_type r;
          mret (XBool (stored_member l' r'))) st)
  /\ method ev e c d n (go "count") [] [] s st
     = (x ← operand e d n s; mret (XInt (stored_count x))) st
  /\ forall p b,
       let test el := c d b (mkFrame [p] [el] [true] :: s) in
       method ev e c d n (go "any") [LambdaExpr [p] b] [] s st
       = (x ← operand e d n s; ok ← decide_stored false (any_loop test) x; mret (XBool ok)) st
       /\ method ev e c d n (go "all") [LambdaExpr [p] b] [] s st
          = (x ← operand e d n s; ok ← decide_stored true (all_loop test) x; mret (XBool ok)) st.
Proof.
  intros Hs. split; [|split; [|split]].
  - intros v. unfold condition, stored_true. rewrite Hs. by destruct (exprNormalize v) as [[]|].
  - intros x. by apply stored_in.
  - by apply stored_count_method.
  - intros p b. split; [by apply stored_any|by apply stored_all].
Qed.

(** A row whose payload holds a string where a list and a boolean are expected. *)
Definition sample_row : value :=
  XRow (go "r1") (go "v1:a:b") (go "b") (go "u1") None None [(go "tags", XStr (go "abc")); (go "flag", XStr (go "yes"))].

Definition row_evaluator : exprEvaluator unit :=
  @newExprEvaluator unit (fun _ => false) 0 (fun x => if x =s go "row" then Some sample_row else None)
    (mkOptions (Some 0) 50 None None None None).

Lemma stored_values_answer_witness :
  let n := MemberExpr (IdentExpr (go "row")) (go "tags") false in
  let e := @eval_fuel latin1_tables plain_fmt unit row_evaluator 10 in
  let c := @cond_fuel latin1_tables plain_fmt unit row_evaluator 10 in
  let st := mkState 0 tt in
  exprStoredRead (ev_root row_evaluator) n [] = true
  /\ (@method plain_fmt unit row_evaluator e c 0 n (go "count") [] [] [] st).1 = Ok (XInt 3)
  /\ (@binary plain_fmt unit row_evaluator e c 0 (go "in") (LiteralExpr (VString (go "a"))) n [] st).1 = Ok (XBool false).
Proof.
  intros n e c st. split; [by vm_compute|].
  destruct (@stored_values_answer plain_fmt unit row_evaluator e c 0 n [] st eq_refl) as (_ & Hin & Hcount & _).
  split; [rewrite Hcount|rewrite Hin]; by vm_compute.
Defined.

(** ** Duality *)

Section Dual.
Context `{UnicodeTables, GoFmt} {W : Type} (ev1 ev2 : exprEvaluator W).
Context (Henv : same_env eq (fun _ => True) (fun _ => True) ev1 ev2).

Lemma agree_ext {A} (m1 m2 m1' m2' : eval_m W A) P :
  (forall st, m1 st = m1' st) -> (forall st, m2 st = m2' st) -> agree A m1' m2' P -> agree A m1 m2 P.
Proof. intros H1 H2 Hm i j w. rewrite H1, H2. apply Hm. Qed.

(** The negation of a body, as a condition. *)
Lemma agree_not f1 f2 d b s :
  agree bool (cond_fuel ev1 f1 d b s) (ok ← cond_fuel ev2 f2 d (UnaryExpr (go "!") b) s; mret (negb ok)) (fun _ => True).
Proof.
  destruct f2 as [|f2]; [intros i j w; by right; left|].
  eapply agree_ext; [done| |apply (agree_step_r ev2), (agree_fuel ev1 ev2 Henv f1 f2)].
  intros st. cbn [cond_fuel cond_body]. unfold eval_body, mbind, eval_bind.
  destruct (step ev2 st) as [[]]; [|done]. cbn [eval_node]. unfold unary. change (go "!" =s go "!") with true. cbv iota.
  unfold mbind, eval_bind. destruct (cond_fuel ev2 f2 d b s e) as [[[]|]]; done.
Qed.

Lemma agree_loops (t1 t2 : value -> eval_m W bool) l : (forall el, agree bool (t1 el) (ok ← t2 el; mret (negb ok)) (fun _ => True)) ->
  agree bool (any_loop t1 l) (ok ← all_loop t2 l; mret (negb ok)) (fun _ => True).
Proof.
  intros Ht. induction l as [|el l IH]; [intros i j w; by right; right|].
  eapply agree_ext with (m1' := ok ← t1 el; if ok : bool then mret true else any_loop t1 l)
    (m2' := ok ← (ok ← t2 el; mret (negb ok)); if ok : bool then mret true else (ok ← all_loop t2 l; mret (negb ok)));
    [done| |].
  - intros st. cbn [all_loop]. unfold mbind, eval_bind. by destruct (t2 el st) as [[[]|]].
  - eapply (rel_bind (R := agree)); [apply Ht|]. intros [] _; [by apply rel_ret|done].
Qed.

(** A list method that decides, on a value the expression computed. *)
Definition decide_computed (empty : bool) (loop : list value -> eval_m W bool) (x : value) : eval_m W bool :=
  if is_string x then refuse operand_type
  else match exprCollection x with
       | Err _ => refuse operand_type
       | Ok None => mret empty
       | Ok (Some l) => loop l
       end.

Section Computed.
Context (ev : exprEvaluator W) (e : nat -> expr -> scope -> eval_m W value) (c : nat -> expr -> scope -> eval_m W bool).
Context (d : nat) (r : expr) (s : scope) (Hs : exprStoredRead (ev_root ev) r s = false).

Lemma computed_any p b st :
  method ev e c d r (go "any") [LambdaExpr [p] b] [] s st
  = (x ← operand e d r s;
     ok ← decide_computed false (any_loop (fun el => c d b (mkFrame [p] [el] [false] :: s))) x; mret (XBool ok)) st.
Proof.
  unfold method. destruct entry_any as [-> ->].
  change (bool_decide (is_Some (Some _))) with true. change (bool_decide (is_Some None)) with false.
  rewrite shape_any, Hs. cbn [negb orb]. unfold operand, mbind, eval_bind. destruct (e d r s st) as [[v|] st1]; [|done].
  unfold normalized. destruct (exprNormalize v) as [x|]; [|done]. unfold mret, eval_ret, decide_computed. cbv beta iota zeta. rewrite andb_false_r.
  destruct (is_string x); [done|]. destruct (exprCollection x) as [[l|]|]; try done. unfold dispatchMethod.
  change (map_get exprMethodImpls _) with (Some MAny). unfold apply_method, lam_test, element_scope. by rewrite Hs.
Qed.

Lemma computed_all p b st :
  method ev e c d r (go "all") [LambdaExpr [p] b] [] s st
  = (x ← operand e d r s;
     ok ← decide_computed true (all_loop (fun el => c d b (mkFrame [p] [el] [false] :: s))) x; mret (XBool ok)) st.
Proof.
  unfold method. destruct entry_all as [-> ->].
  change (bool_decide (is_Some (Some _))) with true. change (bool_decide (is_Some None)) with false.
  rewrite shape_all, Hs. cbn [negb orb]. unfold operand, mbind, eval_bind. destruct (e d r s st) as [[v|] st1]; [|done].
  unfold normalized. destruct (exprNormalize v) as [x|]; [|done]. unfold mret, eval_ret, decide_computed. cbv beta iota zeta. rewrite andb_false_r.
  destruct (is_string x); [done|]. destruct (exprCollection x) as [[l|]|]; try done. unfold dispatchMethod.
  change (map_get exprMethodImpls _) with (Some MAll). unfold apply_method, lam_test, element_scope. by rewrite Hs.
Qed.
End Computed.

Lemma eval_fuel_S (ev : exprEvaluator W) f d n s :
  eval_fuel ev (S f) d n s = eval_body ev (eval_fuel ev f) (cond_fuel ev f) d n s.
Proof. done. Qed.

Lemma cond_fuel_S (ev : exprEvaluator W) f d n s :
  cond_fuel ev (S f) d n s = cond_body ev (eval_fuel ev f) (cond_fuel ev f) d n s.
Proof. done. Qed.

Lemma eval_node_method (ev : exprEvaluator W) e c d r x args named s : is_nil_node r = false ->
  eval_node ev e c d (CallExpr r x [] args named) s = method ev e c d r x args named s.
Proof. by destruct r. Qed.

Definition any_call (r : expr) (p : gostring) (b : expr) : expr := CallExpr r (go "any") [] [LambdaExpr [p] b] [].
Definition all_call (r : expr) (p : gostring) (b : expr) : expr := CallExpr r (go "all") [] [LambdaExpr [p] b] [].
Definition not_expr (b : expr) : expr := UnaryExpr (go "!") b.

Lemma agree_dual f1 f2 d r p b s : is_nil_node r = false -> exprStoredRead (ev_root ev1) r s = false ->
  agree value (eval_fuel ev1 f1 d (any_call r p b) s) (eval_fuel ev2 f2 d (not_expr (all_call r p (not_expr b))) s) (fun _ => True).
Proof.
  intros Hr Hs. assert (Hs2 : exprStoredRead (ev_root ev2) r s = false) by by rewrite (se_root _ _ _ _ _ Henv).
  destruct f1 as [|f1]; [intros i j w; by left|]. destruct f2 as [|[|f2]]; [intros i j w; by right; left| |].
  { apply (agree_step_r ev2). intros i j w. by right; left. }
  set (answer (m : eval_m W bool) := ok ← m; mret (XBool ok)).
  set (t1 el := cond_fuel ev1 f1 d b (mkFrame [p] [el] [false] :: s)).
  set (t2 el := cond_fuel ev2 f2 d (not_expr b) (mkFrame [p] [el] [false] :: s)).
  eapply agree_ext with
    (m1' := _ ← step ev1; x ← operand (eval_fuel ev1 f1) d r s; answer (decide_computed false (any_loop t1) x))
    (m2' := _ ← step ev2; _ ← step ev2; x ← operand (eval_fuel ev2 f2) d r s;
            answer (ok ← decide_computed true (all_loop t2) x; mret (negb ok))).
  - intros st. unfold any_call. rewrite eval_fuel_S. unfold eval_body, mbind, eval_bind.
    destruct (step ev1 st) as [[]]; [|done]. by rewrite eval_node_method, computed_any.
  - intros st. unfold not_expr at 1. rewrite eval_fuel_S. unfold eval_body, mbind, eval_bind.
    destruct (step ev2 st) as [[]]; [|done]. cbn [eval_node]. unfold unary. change (go "!" =s go "!") with true. cbv iota.
    unfold all_call. rewrite cond_fuel_S. cbn [cond_body]. unfold eval_body, mbind, eval_bind.
    destruct (step ev2 e) as [[]]; [|done]. rewrite eval_node_method, computed_all by done. unfold answer, mbind, eval_bind. fold t2.
    destruct (operand (eval_fuel ev2 f2) d r s e0) as [[x|]]; [|done]. by destruct (decide_computed true (all_loop t2) x e1) as [[]].
  - apply agree_step_l, agree_step_r, agree_step_r. eapply (rel_bind (R := agree)) with (P := fun _ => True).
    + unfold operand. eapply (rel_bind (R := agree)); [by apply agree_fuel|]. intros v _.
      by apply (rel_normalized agree (fun _ => True) (fun _ => True)).
    + intros x _. unfold answer. eapply (rel_bind (R := agree)) with (P := fun _ => True); [|intros ok _; by apply rel_ret].
      unfold decide_computed. destruct (is_string x); [intros i j w; by right; right|].
      destruct (exprCollection x) as [[l|]|]; try (intros i j w; by right; right).
      apply agree_loops. intros el. apply agree_not.
Qed.
End Dual.

(** any() and all() are dual: on a receiver the expression computes,
    `r.any(x => b)` and `!r.all(x => !b)` have the same answer, refusals and
    effects included, once the budget covers both. *)
Theorem any_all_dual `{UnicodeTables, GoFmt} {W : Type} clock root (opts : EvalOptions W) r p b w :
  is_nil_node r = false -> exprStoredRead root r [] = false ->
  exists k, forall b1 b2, k <= b1 -> k <= b2 ->
    EvalExpr (fun _ => false) clock (any_call r p b) root (with_budget b1 opts) w
    = EvalExpr (fun _ => false) clock (not_expr (all_call r p (not_expr b))) root (with_budget b2 opts) w.
Proof.
  intros Hr Hs. apply EvalExpr_same. intros b1 b2 f1 f2. apply agree_dual; [|done|done].
  apply same_env_any; try done. by intros ? ? ? _ ->%layer_eq.
Qed.

Lemma any_all_dual_witness :
  let r := ListExpr [LiteralExpr (VInt64 1); LiteralExpr (VInt64 5)] in
  let b := BinaryExpr (go ">") (IdentExpr (go "x")) (LiteralExpr (VInt64 3)) in
  let opts := mkOptions (Some 0) 100 None None None None in
  let run n := @EvalExpr latin1_tables plain_fmt unit (fun _ => false) 0 n (fun _ => None) in
  run (any_call r (go "x") b) opts tt = (Ok (XBool true), tt)
  /\ exists k, forall b1 b2, k <= b1 -> k <= b2 ->
    run (any_call r (go "x") b) (with_budget b1 opts) tt
    = run (not_expr (all_call r (go "x") (not_expr b))) (with_budget b2 opts) tt.
Proof.
  intros r b opts run. split; [by vm_compute|].
  apply (@any_all_dual latin1_tables plain_fmt unit 0 (fun _ => None) opts r (go "x") b tt); by vm_compute.
Defined.

(** ** Ids *)

(** A node id is read back from its parts, and shortId strips the concept that
    BuildNodeId put before a short id, once. *)
Theorem node_id_round_trip `{UnicodeTables} v a b s :
  concept_ok v a b -> trimmed IsSpace s -> s <> [] ->
  let concept := v ++ 58 :: a ++ 58 :: b in
  ParseNodeId (BuildNodeId concept s) = Ok (concept, s) /\ EvaluateShortId (BuildNodeId concept s) = s.
Proof.
  intros Hc Hs Hne. pose proof (parse_built v a b s Hc Hs Hne) as Hp. split; [done|]. unfold EvaluateShortId.
  assert (Hv : v <> []) by (destruct Hc as [Hv _]; by destruct v).
  assert (Htrim : TrimSpace (BuildNodeId (v ++ 58 :: a ++ 58 :: b) s) = BuildNodeId (v ++ 58 :: a ++ 58 :: b) s)
    by by apply build_trimmed.
  rewrite Htrim, Hp. apply eqs_false in Hne as ->.
  assert (Hw : (BuildNodeId (v ++ 58 :: a ++ 58 :: b) s =s []) = false).
  { apply eqs_false. intros E. by rewrite E in Hp. }
  by rewrite Hw.
Qed.

Lemma node_id_round_trip_witness :
  @ParseNodeId latin1_tables (BuildNodeId (go "v1:crm:person") (go "p-7:x"))
  = Ok (go "v1:crm:person", go "p-7:x")
  /\ @EvaluateShortId latin1_tables (BuildNodeId (go "v1:crm:person") (go "p-7:x")) = go "p-7:x".
Proof.
  apply (@node_id_round_trip latin1_tables (go "v1") (go "crm") (go "person") (go "p-7:x")).
  - repeat split; try by vm_compute. all: intros c [= <-]; done.
  - split; intros c [= <-]; done.
  - done.
Defined.

(** ** Where the code departs from its description *)

Definition eval_plain (root : gostring -> option value) (n : expr) : result eval_error value :=
  (@EvalExpr latin1_tables plain_fmt unit (fun _ => false) 0 n root (mkOptions (Some 0) 100 None None None None) tt).1.

Definition list_one : expr := ListExpr [LiteralExpr (VInt64 1)].

(** take(0) answers a nil slice, not an empty list: it equals nil, and joining it
    to a list is refused; an empty list does neither. *)
Lemma take_none_is_nil :
  let none := CallExpr list_one (go "take") [] [LiteralExpr (VInt64 0)] [] in
  eval_plain (fun _ => None) (BinaryExpr (go "==") none NilExpr) = Ok (XBool true)
  /\ eval_plain (fun _ => None) (BinaryExpr (go "+") none list_one) = exprErr operand_type
  /\ eval_plain (fun _ => None) (BinaryExpr (go "==") (ListExpr []) NilExpr) = Ok (XBool false)
  /\ eval_plain (fun _ => None) (BinaryExpr (go "+") (ListExpr []) list_one) = Ok (XList [XInt 1]).
Proof. by vm_compute. Qed.

(** A json.Number that passes through `??` comes out a string: adding one to it
    concatenates. *)
Lemma coalesce_makes_text :
  let root x := if x =s go "x" then Some (GNumber (go "5")) else None in
  let plus_one n := BinaryExpr (go "+") n (LiteralExpr (VInt64 1)) in
  eval_plain root (plus_one (IdentExpr (go "x"))) = Ok (XInt 6)
  /\ eval_plain root (plus_one (ParenExpr (BinaryExpr (go "??") (IdentExpr (go "x")) (LiteralExpr (VInt64 0)))))
     = Ok (XStr (go "51")).
Proof. by vm_compute. Qed.
