(* ===== verification/CollectionFacts.v ===== *)
(** The list methods orderBy, groupBy and distinct: a stable sort, a partition by
    key in first-seen order, and its first elements. *)

From Stdlib Require Import SpecFloat Sorting.Sorted.
From S2P Require Import Prelude GoText GoSort Strconv Numbers ExprNumbers.
From S2P Require Import Values Ast Scope Eval ValueFacts EvalRel.

(** ** The comparison of keys *)

(** A float's place in the order: its class, then exponent and mantissa. *)
Definition float_rank (f : float64) : Z * Z * Z :=
  match f with
  | S754_infinity true => (-2, 0, 0)
  | S754_finite true m e => (-1, - e, - Z.pos m)
  | S754_zero _ | S754_nan => (0, 0, 0)
  | S754_finite false m e => (1, e, Z.pos m)
  | S754_infinity false => (2, 0, 0)
  end.

Definition rank_le (a b : Z * Z * Z) : Prop :=
  let '(a1, a2, a3) := a in let '(b1, b2, b3) := b in
  a1 < b1 \/ a1 = b1 /\ (a2 < b2 \/ a2 = b2 /\ a3 <= b3).

Lemma float_ltb_rank x y : is_nan x = false -> is_nan y = false ->
  f64_ltb x y = true <-> ~ rank_le (float_rank y) (float_rank x).
Proof.
  unfold f64_ltb, SFltb. destruct x as [s|s| |s m e], y as [s'|s'| |s' m' e']; try done; intros _ _;
    repeat match goal with b : bool |- _ => destruct b end; cbn; try (split; [lia|done]); try (split; [done|lia]).
  - destruct (Z.compare_spec e e'); [|split; [done|lia]|split; [lia|done]].
    change (Pos.compare_cont Eq m m') with (m ?= m')%positive.
    destruct (Pos.compare_spec m m'); cbn; split; try done; lia.
  - destruct (Z.compare_spec e e'); [|split; [lia|done]|split; [done|lia]].
    change (Pos.compare_cont Eq m m') with (m ?= m')%positive.
    destruct (Pos.compare_spec m m'); cbn; split; try done; lia.
Qed.

Lemma rank_le_total a b : rank_le a b \/ rank_le b a.
Proof. destruct a as [[]], b as [[]]. cbn. lia. Qed.

Lemma rank_le_trans a b c : rank_le a b -> rank_le b c -> rank_le a c.
Proof. destruct a as [[]], b as [[]], c as [[]]. cbn. lia. Qed.

Lemma rank_le_stable a b : ~ ~ rank_le a b -> rank_le a b.
Proof. destruct a as [[]], b as [[]]. cbn. lia. Qed.

(** Keys that compare with each other: null and numbers, or null and strings. *)
Definition number_key (v : value) : bool :=
  match v with XNil => true | _ => match runtimeToFloat64 v with Some f => negb (is_nan f) | None => false end end.

Definition text_key (v : value) : bool := match v with XNil | XStr _ => true | _ => false end.

Definition comparable (keys : list value) : bool := forallb number_key keys || forallb text_key keys.

Section Keys.
Context `{GoFmt}.

(** The comparison of two floats, as a sign. *)
Definition float_sign (x y : float64) : Z := if f64_ltb x y then -1 else if f64_ltb y x then 1 else 0.

Lemma float_sign_anti x y : is_nan x = false -> is_nan y = false -> float_sign y x = - float_sign x y.
Proof.
  intros Hx Hy. unfold float_sign. pose proof (float_ltb_rank x y Hx Hy) as H1. pose proof (float_ltb_rank y x Hy Hx) as H2.
  destruct (f64_ltb x y), (f64_ltb y x); try done. destruct (rank_le_total (float_rank x) (float_rank y)); naive_solver.
Qed.

Lemma float_sign_le x y : is_nan x = false -> is_nan y = false ->
  float_sign x y <= 0 <-> rank_le (float_rank x) (float_rank y).
Proof.
  intros Hx Hy. unfold float_sign. pose proof (float_ltb_rank x y Hx Hy) as H1. pose proof (float_ltb_rank y x Hy Hx) as H2.
  pose proof (rank_le_total (float_rank x) (float_rank y)) as Ht.
  pose proof (rank_le_stable (float_rank x) (float_rank y)) as Hst.
  destruct H1 as [H1 _], H2 as [H2 H2'], (f64_ltb x y), (f64_ltb y x).
  - destruct Ht; [by destruct (H2 eq_refl)|by destruct (H1 eq_refl)].
  - split; [|done]. intros _. destruct Ht; [done|by destruct (H1 eq_refl)].
  - split; [lia|]. intros Hle. by destruct (H2 eq_refl).
  - split; [|done]. intros _. apply Hst. intros Hn. by apply H2' in Hn.
Qed.

Lemma compare_numbers_keys x y : number_key x = true -> number_key y = true ->
  runtimeCompareValues x y =
  match x, y with
  | XNil, XNil => 0 | XNil, _ => -1 | _, XNil => 1
  | _, _ => match runtimeToFloat64 x, runtimeToFloat64 y with Some fx, Some fy => float_sign fx fy | _, _ => 0 end
  end.
Proof. by destruct x, y. Qed.

Lemma sign_le c : sign_of_cmp c <= 0 <-> c <> Gt.
Proof. by destruct c. Qed.

Lemma compare_keys_anti keys : comparable keys = true -> forall x y, x ∈ keys -> y ∈ keys ->
  runtimeCompareValues y x = - runtimeCompareValues x y.
Proof.
  intros [Hk|Hk]%orb_true_iff x y Hx Hy; rewrite List.forallb_forall in Hk;
    apply list_elem_of_In, Hk in Hx; apply list_elem_of_In, Hk in Hy.
  - rewrite !compare_numbers_keys by done. destruct x; try done; destruct y; try done; cbn in *;
      apply negb_true_iff in Hx, Hy; by apply float_sign_anti.
  - destruct x; try done; destruct y; try done. cbn. rewrite (str_compare_anti s s0). by destruct (str_compare s s0).
Qed.

Lemma compare_keys_trans keys : comparable keys = true -> forall x y z, x ∈ keys -> y ∈ keys -> z ∈ keys ->
  runtimeCompareValues x y <= 0 -> runtimeCompareValues y z <= 0 -> runtimeCompareValues x z <= 0.
Proof.
  intros [Hk|Hk]%orb_true_iff x y z Hx Hy Hz; rewrite List.forallb_forall in Hk;
    apply list_elem_of_In, Hk in Hx; apply list_elem_of_In, Hk in Hy; apply list_elem_of_In, Hk in Hz.
  - rewrite !compare_numbers_keys by done. destruct x; try done; destruct y; try done; destruct z; try done; cbn in *;
      apply negb_true_iff in Hx, Hy, Hz; rewrite !float_sign_le by done; apply rank_le_trans.
  - destruct x; try done; destruct y; try done; destruct z; try done. cbn. rewrite !sign_le. apply str_compare_trans.
Qed.

(** ** Theorems *)

(** The comparison orderBy sorts by, reversed for orderByDesc. *)
Definition key_compare (desc : bool) (a b : value * value) : Z :=
  let c := runtimeCompareValues a.1 b.1 in if desc then - c else c.

(** orderBy and orderByDesc are stable sorts by their keys: over keys that are all
    null or numbers, or all null or strings, the pairs come back each exactly
    once, in order, and those with equal keys in the order they had. *)
Theorem order_by_sorts desc (kes : list (value * value)) :
  comparable (kes.*1) = true ->
  let out := sort_stable (key_less desc) kes in
  out ≡ₚ kes
  /\ StronglySorted (fun a b => key_compare desc a b <= 0) out
  /\ forall a, a ∈ kes ->
       List.filter (fun b => key_compare desc a b =? 0) out = List.filter (fun b => key_compare desc a b =? 0) kes.
Proof.
  intros Hk. cbn zeta. set (ok (a : value * value) := a ∈ kes).
  assert (Hfst : forall a, ok a -> a.1 ∈ kes.*1) by (intros a Ha; apply list_elem_of_fmap; by exists a).
  rewrite (sort_stable_ext _ (less (key_compare desc))).
  2:{ intros x y. unfold less, key_less, key_compare. destruct desc; [|done].
      destruct (Z.ltb_spec 0 (runtimeCompareValues x.1 y.1)), (Z.ltb_spec (- runtimeCompareValues x.1 y.1) 0); lia. }
  apply (sort_stable_spec (key_compare desc) ok).
  - intros x y Hx Hy. unfold key_compare. rewrite (compare_keys_anti _ Hk x.1 y.1) by auto. destruct desc; lia.
  - intros x y z Hx Hy Hz. unfold key_compare. destruct desc.
    + pose proof (compare_keys_trans _ Hk z.1 y.1 x.1) as Ht. rewrite (compare_keys_anti _ Hk x.1 y.1), (compare_keys_anti _ Hk y.1 z.1),
        (compare_keys_anti _ Hk x.1 z.1) in Ht by auto. lia || (intros; apply Ht; auto; lia).
    + apply (compare_keys_trans _ Hk); auto.
  - by apply Forall_forall.
Qed.

(** *** Groups *)

(** The keys in first-seen order. *)
Fixpoint first_seen (seen keys : list gostring) : list gostring :=
  match keys with
  | [] => []
  | k :: keys' => if memS k seen then first_seen seen keys' else k :: first_seen (k :: seen) keys'
  end.

(** The pairs of one key. *)
Definition of_key (kes : list (value * value)) (ks : gostring) : list (value * value) :=
  List.filter (fun ke => exprKey ke.1 =s ks) kes.

Definition group_of (kes : list (value * value)) (ks : gostring) : gostring * (value * list value) :=
  (ks, (hd XNil ((of_key kes ks).*1), (of_key kes ks).*2)).

Definition keys_of (kes : list (value * value)) : list gostring := first_seen [] ((fun ke => exprKey ke.1) <$> kes).

Lemma memS_app s l k : memS s (l ++ k) = memS s l || memS s k.
Proof. unfold memS. apply existsb_app. Qed.

Lemma first_seen_app seen l k :
  first_seen seen (l ++ [k]) = first_seen seen l ++ (if memS k seen || memS k l then [] else [k]).
Proof.
  revert seen. induction l as [|x l IH]; intros seen; cbn [app first_seen].
  - change (memS k []) with false. rewrite orb_false_r. by destruct (memS k seen).
  - destruct (memS x seen) eqn:E.
    + rewrite IH. f_equal. change (memS k (x :: l)) with ((k =s x) || memS k l).
      destruct (k =s x) eqn:Ek; [|done]. apply eqs_true in Ek as ->. by rewrite E.
    + rewrite IH. cbn [app]. f_equal. f_equal. change (memS k (x :: seen)) with ((k =s x) || memS k seen).
      change (memS k (x :: l)) with ((k =s x) || memS k l). by destruct (memS k seen), (k =s x), (memS k l).
Qed.

Lemma first_seen_mem seen l k : memS k (first_seen seen l) = negb (memS k seen) && memS k l.
Proof.
  revert seen. induction l as [|x l IH]; intros seen; cbn [first_seen]; [by rewrite andb_false_r|].
  change (memS k (x :: l)) with ((k =s x) || memS k l). destruct (memS x seen) eqn:E.
  - rewrite IH. destruct (k =s x) eqn:Ek; [|done]. apply eqs_true in Ek as ->. by rewrite E.
  - change (memS k (x :: first_seen (x :: seen) l)) with ((k =s x) || memS k (first_seen (x :: seen) l)).
    rewrite IH. change (memS k (x :: seen)) with ((k =s x) || memS k seen). destruct (k =s x) eqn:Ek; cbn [orb]; [|done].
    apply eqs_true in Ek as ->. by rewrite E.
Qed.

Lemma first_seen_NoDup seen l : NoDup (first_seen seen l).
Proof.
  revert seen. induction l as [|x l IH]; intros seen; cbn [first_seen]; [constructor|]. destruct (memS x seen); [done|].
  constructor; [|done]. intros Hx%list_elem_of_In%memS_In. rewrite first_seen_mem in Hx.
  change (memS x (x :: seen)) with ((x =s x) || memS x seen) in Hx. by rewrite eqs_refl in Hx.
Qed.

Lemma of_key_snoc kes ke ks :
  of_key (kes ++ [ke]) ks = of_key kes ks ++ (if exprKey ke.1 =s ks then [ke] else []).
Proof. unfold of_key. rewrite List.filter_app. cbn. by destruct (_ =s ks). Qed.

(** Adding a pair to the group of its key, or opening one at the end. *)
Lemma group_add_spec kes k el ks : NoDup ks ->
  (forall x, x ∈ ks -> of_key kes x <> []) -> (exprKey k ∉ ks -> of_key kes (exprKey k) = []) ->
  group_add (exprKey k) k el (group_of kes <$> ks)
  = group_of (kes ++ [(k, el)]) <$> (ks ++ (if memS (exprKey k) ks then [] else [exprKey k])).
Proof.
  intros Hn. induction Hn as [|x ks Hx Hn IH]; intros Hne Hnew; cbn [fmap list_fmap group_add].
  - cbn. unfold group_of. rewrite of_key_snoc, Hnew by (by apply not_elem_of_nil). cbn. by rewrite eqs_refl.
  - change (memS (exprKey k) (x :: ks)) with ((exprKey k =s x) || memS (exprKey k) ks). cbn [group_of].
    destruct (exprKey k =s x) eqn:E; cbn [orb].
    + apply eqs_true in E. rewrite app_nil_r. cbn [fmap list_fmap]. f_equal.
      * unfold group_of. rewrite of_key_snoc. cbn [fst]. rewrite E, eqs_refl, !fmap_app. do 2 f_equal.
        pose proof (Hne x ltac:(left)). by destruct (of_key kes x).
      * apply list_fmap_ext. intros i y Hy%list_elem_of_lookup_2. unfold group_of. rewrite of_key_snoc. cbn [fst].
        replace (exprKey k =s y) with false by (symmetry; apply eqs_false; congruence). by rewrite app_nil_r.
    + cbn [app fmap list_fmap]. f_equal.
      * unfold group_of. rewrite of_key_snoc. cbn [fst]. by rewrite E, app_nil_r.
      * apply IH; [intros y Hy; apply Hne; by right|]. intros Hk. apply Hnew. apply eqs_false in E.
        by intros [?|?]%elem_of_cons.
Qed.

Lemma of_key_empty kes ks : of_key kes ks = [] <-> memS ks ((fun ke => exprKey ke.1) <$> kes) = false.
Proof.
  induction kes as [|ke kes IH]; cbn; [done|].
  change (memS ks (exprKey ke.1 :: _)) with ((ks =s exprKey ke.1) || memS ks ((fun ke => exprKey ke.1) <$> kes)).
  replace (ks =s exprKey ke.1) with (exprKey ke.1 =s ks).
  - by destruct (exprKey ke.1 =s ks).
  - destruct (exprKey ke.1 =s ks) eqn:E; symmetry; [apply eqs_true in E; by apply eqs_true|].
    apply eqs_false. apply eqs_false in E. congruence.
Qed.

Lemma keys_of_spec kes : NoDup (keys_of kes) /\ (forall x, x ∈ keys_of kes <-> of_key kes x <> []).
Proof.
  split; [apply first_seen_NoDup|]. intros x. unfold keys_of.
  rewrite list_elem_of_In, <- memS_In, first_seen_mem. cbn. rewrite of_key_empty. by destruct (memS x _).
Qed.

Lemma group_all_app kes1 kes2 gs : group_all (kes1 ++ kes2) gs = group_all kes2 (group_all kes1 gs).
Proof. revert gs. induction kes1 as [|[k el] kes1 IH]; intros gs; cbn; auto. Qed.

Lemma group_all_spec kes : group_all kes [] = group_of kes <$> keys_of kes.
Proof.
  induction kes as [|[k el] kes IH] using rev_ind; [done|]. rewrite group_all_app, IH. cbn [group_all].
  destruct (keys_of_spec kes) as [Hn Hk]. rewrite group_add_spec; [|done|by intros x Hx%Hk|].
  - f_equal. unfold keys_of. rewrite fmap_app. cbn [fmap list_fmap fst]. rewrite first_seen_app. f_equal.
    rewrite first_seen_mem. cbn. done.
  - intros Hx. destruct (of_key kes (exprKey k)) eqn:E; [done|]. destruct Hx. apply Hk. by rewrite E.
Qed.

Lemma keep_first_spec kes seen :
  keep_first kes seen = (fun ks => hd XNil ((of_key kes ks).*2)) <$> first_seen seen ((fun ke => exprKey ke.1) <$> kes).
Proof.
  revert seen. induction kes as [|[k el] kes IH]; intros seen; cbn [keep_first fmap list_fmap first_seen]; [done|]. cbn [fst].
  assert (Hext : forall seen', memS (exprKey k) seen' = true ->
    (fun ks => hd XNil ((of_key kes ks).*2)) <$> first_seen seen' ((fun ke => exprKey ke.1) <$> kes)
    = (fun ks => hd XNil ((of_key ((k, el) :: kes) ks).*2)) <$> first_seen seen' ((fun ke => exprKey ke.1) <$> kes)).
  { intros seen' Hs. apply list_fmap_ext. intros i y Hy%list_elem_of_lookup_2. cbn.
    destruct (exprKey k =s y) eqn:E; [|done]. apply eqs_true in E as <-.
    apply list_elem_of_In, memS_In in Hy. rewrite first_seen_mem, Hs in Hy. done. }
  destruct (memS (exprKey k) seen) eqn:E.
  - rewrite IH. by apply Hext.
  - cbn [fmap list_fmap]. f_equal; [by cbn; rewrite eqs_refl|]. rewrite IH. apply Hext.
    change (memS (exprKey k) (exprKey k :: seen)) with ((exprKey k =s exprKey k) || memS (exprKey k) seen). by rewrite eqs_refl.
Qed.

(** groupBy partitions: one group per key, in the order the keys are first seen,
    the key of a group being the first element's, its items all the elements of
    that key in their order; and distinct keeps exactly the first item of each
    group. *)
Theorem group_by_partitions (kes : list (value * value)) :
  group_all kes [] = group_of kes <$> keys_of kes
  /\ NoDup (keys_of kes) /\ (forall ks, ks ∈ keys_of kes <-> of_key kes ks <> [])
  /\ keep_first kes [] = (fun g => hd XNil g.2.2) <$> group_all kes [].
Proof.
  split; [apply group_all_spec|]. split; [apply keys_of_spec|]. split; [apply keys_of_spec|].
  rewrite group_all_spec, keep_first_spec. unfold keys_of. by rewrite <- list_fmap_compose.
Qed.
End Keys.

Lemma order_by_sorts_witness :
  let kes := (fun v => (v, XMap [(go "k", v)])) <$> [XInt 3; XNil; XFloat (S754_finite false 4503599627370496 (-52)); XInt 1] in
  let out := sort_stable (@key_less plain_fmt false) kes in
  (out.*1 = [XNil; XFloat (S754_finite false 4503599627370496 (-52)); XInt 1; XInt 3]) /\ out ≡ₚ kes.
Proof.
  intros kes out. split; [by vm_compute|]. apply (@order_by_sorts plain_fmt false kes). by vm_compute.
Defined.

(** ** Where the code departs from its description *)

(** The order of keys rounds integers to floats: two integers that `<` tells apart
    tie, and stay as they were. *)
Lemma order_by_rounds :
  let kes := [(XInt 9007199254740993, XNil); (XInt 9007199254740992, XNil)] in
  (sort_stable (@key_less plain_fmt false) kes).*1 = [XInt 9007199254740993; XInt 9007199254740992]
  /\ exprOrdered OpLt (XInt 9007199254740992) (XInt 9007199254740993) = true.
Proof. by vm_compute. Qed.

(** Numbers among strings compare by their text: 10 comes before 9. *)
Lemma order_by_mixed :
  let kes := (fun v => (v, XNil)) <$> [XInt 10; XStr (go "9"); XInt 9] in
  (sort_stable (@key_less plain_fmt false) kes).*1 = [XInt 10; XStr (go "9"); XInt 9].
Proof. by vm_compute. Qed.

(** Equal lists can have different keys: distinct keeps both of them. *)
Lemma key_of_list_negative_zero :
  let a := XList [XInt 0] in let b := XList [XFloat (S754_zero true)] in
  exprStrictEqual a b = true /\ @exprKey plain_fmt a <> @exprKey plain_fmt b.
Proof. by vm_compute. Qed.
