(* ===== verification/TimeFacts.v ===== *)
(** Timestamps read back what they print: the calendar's two directions invert
    each other, and so do the text forms. *)

From S2P Require Import Prelude GoText Strconv Numbers ExprNumbers Times.
From S2P Require Import Values Ast Scope Eval.

(** [lia] reads a division as its equation here. *)
Local Ltac Zify.zify_post_hook ::= Z.to_euclidean_division_equations.

(** ** The calendar *)

Lemma month_cases doy : 0 <= doy <= 365 ->
  let mp := (5 * doy + 2) / 153 in
  0 <= mp <= 11 /\ 0 <= doy - (153 * mp + 2) / 5
  /\ (mp = 11 -> doy - (153 * mp + 2) / 5 <= 28)
  /\ (mp <> 11 -> doy - (153 * mp + 2) / 5 < (if (mp =? 1) || (mp =? 3) || (mp =? 6) || (mp =? 8) then 30 else 31)).
Proof.
  intros Hd mp. assert (Hm : 0 <= mp <= 11) by (subst mp; lia). split; [done|].
  assert (Hdoy : 153 * mp <= 5 * doy + 2 < 153 * mp + 153) by (subst mp; lia). clearbody mp.
  assert (mp = 0 \/ mp = 1 \/ mp = 2 \/ mp = 3 \/ mp = 4 \/ mp = 5 \/ mp = 6 \/ mp = 7 \/ mp = 8 \/ mp = 9 \/ mp = 10 \/ mp = 11)
    as Hc by lia. decompose [or] Hc; subst mp; cbn -[Z.mul Z.div]; lia.
Qed.

(** The cycles of a day count from 1 March of year 0. *)
Lemma year_cycles z :
  let c400 := z / 146097 in let d400 := z mod 146097 in
  let c100 := Z.min 3 (d400 / 36524) in let d100 := d400 - 36524 * c100 in
  let c4 := d100 / 1461 in let d4 := d100 mod 1461 in
  let c1 := Z.min 3 (d4 / 365) in let doy := d4 - 365 * c1 in
  let y := 400 * c400 + 100 * c100 + 4 * c4 + c1 in
  365 * y + y / 4 - y / 100 + y / 400 + doy = z /\ 0 <= doy <= 365 /\ (doy = 365 -> is_leap (y + 1) = true).
Proof.
  intros c400 d400 c100 d100 c4 d4 c1 doy y.
  assert (H400 : z = 146097 * c400 + d400 /\ 0 <= d400 < 146097) by (subst c400 d400; lia).
  assert (H100 : 0 <= c100 <= 3 /\ 0 <= d100 <= 36524 /\ (d100 = 36524 -> c100 = 3) /\ d400 = 36524 * c100 + d100)
    by (subst c100 d100; lia).
  assert (H4 : d100 = 1461 * c4 + d4 /\ 0 <= d4 < 1461 /\ 0 <= c4 <= 24) by (subst c4 d4; lia).
  assert (H1 : 0 <= c1 <= 3 /\ 0 <= doy <= 365 /\ (doy = 365 -> c1 = 3) /\ d4 = 365 * c1 + doy) by (subst c1 doy; lia).
  clearbody doy c1 d4 c4 d100 c100 d400 c400.
  assert (Hy4 : y / 4 = 100 * c400 + 25 * c100 + c4) by (subst y; lia).
  assert (Hy100 : y / 100 = 4 * c400 + c100) by (subst y; lia).
  assert (Hy400 : y / 400 = c400) by (subst y; lia).
  split; [subst y; lia|]. split; [lia|]. intros Hl. assert (c1 = 3) as -> by tauto. unfold is_leap.
  destruct (Z.eq_dec c4 24) as [->|Hc4].
  - assert (c100 = 3) as -> by lia.
    replace (y + 1) with (400 * (c400 + 1)) by (subst y; lia). rewrite (Z.mul_comm 400), Z.mod_mul by lia.
    replace ((c400 + 1) * 400 mod 4) with 0 by (symmetry; lia). by rewrite orb_true_r.
  - assert (Hm4 : (y + 1) mod 4 = 0) by (subst y; lia). assert (Hm100 : (y + 1) mod 100 <> 0) by (subst y; lia).
    apply Z.eqb_neq in Hm100. rewrite Hm4, Hm100. done.
Qed.

Lemma civil_inverse n y m d : civil_from_days n = (y, m, d) ->
  days_from_civil y m d = n /\ 1 <= m <= 12 /\ 1 <= d <= days_in m y.
Proof.
  unfold civil_from_days. pose proof (year_cycles (n + 719468)) as Hc. cbn zeta in *.
  match goal with |- context [(5 * ?x + 2) / 153] => set (doy' := x) in * end.
  match type of Hc with 365 * ?x + _ - _ + _ + _ = _ /\ _ => set (y' := x) in * end.
  destruct Hc as (Hz & Hd & Hl). pose proof (month_cases doy' Hd) as (Hm & Hd0 & Hd11 & Hdm). cbn zeta in *.
  set (mp := (5 * doy' + 2) / 153) in *. clearbody y' doy' mp. intros [= <- <- <-].
  assert (Hmc : mp < 10 \/ mp = 10 \/ mp = 11) by lia.
  unfold days_from_civil, days_in. destruct (Z.ltb_spec mp 10) as [Hlt|Hge].
  - destruct (Z.leb_spec (mp + 3) 2); [lia|]. split; [lia|]. split; [lia|].
    destruct (Z.eqb_spec (mp + 3) 2); [lia|]. specialize (Hdm ltac:(lia)).
    replace (mp + 3 =? 4) with (mp =? 1) by lia. replace (mp + 3 =? 6) with (mp =? 3) by lia.
    replace (mp + 3 =? 9) with (mp =? 6) by lia. replace (mp + 3 =? 11) with (mp =? 8) by lia.
    destruct ((mp =? 1) || (mp =? 3) || (mp =? 6) || (mp =? 8)); lia.
  - destruct (Z.leb_spec (mp - 9) 2); [|lia]. split; [lia|]. split; [lia|]. destruct (Z.eq_dec mp 11) as [->|].
    + change (11 - 9 =? 2) with true. cbv iota. destruct (is_leap (y' + 1)) eqn:E; [lia|].
      assert (doy' <> 365) by (intros Hx; specialize (Hl Hx); congruence). change ((153 * 11 + 2) / 5) with 337 in *. lia.
    + assert (mp = 10) as -> by lia. specialize (Hdm ltac:(lia)). change ((10 =? 1) || (10 =? 3) || (10 =? 6) || (10 =? 8)) with false in Hdm.
      change (10 - 9 =? 2) with false. change ((10 - 9 =? 4) || (10 - 9 =? 6) || (10 - 9 =? 9) || (10 - 9 =? 11)) with false.
      cbv iota in *. change ((153 * 10 + 2) / 5) with 306 in *. lia.
Qed.

(** ** Digits *)

Definition all_digits (ds : gostring) : Prop := Forall (fun c => isDigit c = true) ds.

Lemma dec_digits_length f n acc (k : nat) : 0 <= n < 10 ^ Z.of_nat (S k) -> (length (dec_digits f n acc) <= S k + length acc)%nat.
Proof.
  revert n acc k. induction f as [|f IH]; intros n acc k Hn; cbn [dec_digits]; [lia|].
  destruct (Z.ltb_spec n 10); [cbn; lia|]. destruct k as [|k]; [change (10 ^ Z.of_nat 1) with 10 in Hn; lia|].
  rewrite Nat2Z.inj_succ, Z.pow_succ_r in Hn by lia.
  pose proof (IH (n / 10) (48 + n mod 10 :: acc) k ltac:(lia)) as Hl. cbn in Hl. lia.
Qed.

Lemma dec_value_zeros n ds : dec_value (replicate n 48 ++ ds) = dec_value ds.
Proof. induction n as [|n IH]; [done|]. cbn [replicate app]. rewrite dec_value_cons, IH. lia. Qed.

(** [w] digits of a number that fits them. *)
Lemma pad_spec (w : nat) n : (0 < w)%nat -> 0 <= n < 10 ^ Z.of_nat w ->
  length (pad (Z.of_nat w) n) = w /\ all_digits (pad (Z.of_nat w) n) /\ dec_value (pad (Z.of_nat w) n) = n.
Proof.
  intros Hw Hn. destruct (FormatUint_spec n) as (_ & Hd & Hv); [lia|]. unfold pad, zeros.
  assert (Hl : (length (FormatUint n) <= w)%nat).
  { destruct w as [|w]; [lia|]. pose proof (dec_digits_length (S (Z.to_nat (Z.log2 n))) n [] w Hn) as Hl. cbn in Hl |- *. lia. }
  split; [rewrite length_app, length_replicate; lia|]. split.
  - apply Forall_app. split; [by apply Forall_replicate|done].
  - by rewrite dec_value_zeros.
Qed.

Lemma two_digits n rest : 0 <= n < 100 -> getnum true (pad 2 n ++ rest) = Some (n, rest).
Proof.
  intros Hn. destruct (pad_spec 2 n ltac:(lia) Hn) as (Hl & Hd & Hv). change (Z.of_nat 2) with 2 in *.
  destruct (pad 2 n) as [|a [|b [|]]]; try done. inversion Hd as [|? ? Ha Hd']; inversion Hd' as [|? ? Hb]; subst.
  cbn [app getnum]. rewrite Ha, Hb. cbn [negb]. unfold dec_value in *. cbn [fold_left]. do 2 f_equal.
Qed.

Lemma two_digits_free n rest : 0 <= n < 100 -> getnum false (pad 2 n ++ rest) = Some (n, rest).
Proof.
  intros Hn. destruct (pad_spec 2 n ltac:(lia) Hn) as (Hl & Hd & Hv). change (Z.of_nat 2) with 2 in *.
  destruct (pad 2 n) as [|a [|b [|]]]; try done. inversion Hd as [|? ? Ha Hd']; inversion Hd' as [|? ? Hb]; subst.
  cbn [app getnum]. rewrite Ha, Hb. cbn [negb]. unfold dec_value in *. cbn [fold_left]. do 2 f_equal.
Qed.

Lemma four_digits y rest : 0 <= y <= 9999 -> year4 (appendInt 4 y ++ rest) = Some (y, rest).
Proof.
  intros Hy. unfold appendInt. destruct (Z.ltb_spec y 0); [lia|].
  destruct (pad_spec 4 y ltac:(lia) ltac:(change (10 ^ Z.of_nat 4) with 10000; lia)) as (Hl & Hd & Hv). change (Z.of_nat 4) with 4 in *.
  destruct (pad 4 y) as [|a [|b [|c [|e [|]]]]]; try done. cbn [app year4].
  assert (Ha : forallb isDigit [a; b; c; e] = true).
  { apply List.forallb_forall. by apply List.Forall_forall. }
  by rewrite Ha, Hv.
Qed.

(** ** Fractions *)

Lemma strip_zeros_value ds : all_digits ds ->
  exists n, ds = replicate n 48 ++ strip_zeros ds.
Proof.
  induction 1 as [|c ds Hc Hd IH]; [by exists 0%nat|]. cbn [strip_zeros]. destruct (Z.eqb_spec c 48) as [->|].
  - destruct IH as [n Hn]. exists (S n). cbn. congruence.
  - by exists 0%nat.
Qed.

Lemma dec_value_trailing ds n : dec_value (ds ++ replicate n 48) = dec_value ds * 10 ^ Z.of_nat n.
Proof.
  induction n as [|n IH]; [cbn; rewrite app_nil_r; lia|].
  replace (replicate (S n) 48) with (replicate n 48 ++ [48]) by by rewrite <- replicate_S_end.
  rewrite app_assoc, dec_value_app, IH, Nat2Z.inj_succ, Z.pow_succ_r by lia. lia.
Qed.

Lemma span_digits_app ds rest : all_digits ds -> match rest with c :: _ => isDigit c = false | [] => True end ->
  span isDigit (ds ++ rest) = (ds, rest).
Proof.
  intros Hd Hr. induction Hd as [|c ds Hc Hd IH]; cbn [app].
  - destruct rest as [|c r]; [done|]. cbn. by rewrite Hr.
  - cbn. by rewrite Hc, IH.
Qed.

Lemma fraction_nano ns : 0 <= ns < second_ns -> fraction (nano_text ns ++ [90]) = (ns, [90]).
Proof.
  intros Hn. destruct (pad_spec 9 ns ltac:(lia) Hn) as (Hl & Hd & Hv). change (Z.of_nat 9) with 9 in *.
  unfold nano_text. assert (Hr : all_digits (reverse (pad 9 ns))) by (unfold all_digits; by rewrite reverse_Permutation).
  destruct (strip_zeros_value _ Hr) as [n Hz]. set (z := strip_zeros (reverse (pad 9 ns))) in *.
  assert (Hp : pad 9 ns = reverse z ++ replicate n 48).
  { rewrite <- (reverse_involutive (pad 9 ns)), Hz, reverse_app. f_equal. apply reverse_replicate. }
  assert (Hzd : all_digits (reverse z)) by (rewrite Hp in Hd; by apply Forall_app in Hd as [? _]).
  assert (Hval : ns = dec_value (reverse z) * 10 ^ Z.of_nat n) by (rewrite <- dec_value_trailing, <- Hp; done).
  assert (Hlen : (length (reverse z) + n = 9)%nat) by (rewrite <- Hl, Hp, length_app, length_replicate; done).
  destruct z as [|c z'] eqn:Ez.
  - cbn in Hval. by rewrite Hval.
  - assert (Hne : exists x xs, reverse (c :: z') = x :: xs).
    { destruct (reverse (c :: z')) eqn:E; [|by eauto]. apply (f_equal length) in E. by rewrite length_reverse in E. }
    cbn [app]. unfold fraction. change ((46 =? 46) || (46 =? 44)) with true. cbn [andb].
    assert (Hd0 : digit_at (reverse (c :: z') ++ [90]) 0 = true).
    { destruct Hne as (x & xs & E). rewrite E in *. inversion Hzd; subst. done. }
    rewrite Hd0, span_digits_app by done. f_equal. unfold nanoseconds.
    rewrite take_ge by lia. rewrite Hval. do 2 f_equal. lia.
Qed.

(** ** Round trip *)

(** The year of an instant. *)
Definition year_of (t : Z) : Z := (civil_from_days (t / second_ns / 86400)).1.1.

Lemma day_reads y m d rest : 0 <= y <= 9999 -> 1 <= m <= 12 -> 0 <= d < 100 ->
  parse_day (appendInt 4 y ++ [45] ++ pad 2 m ++ [45] ++ pad 2 d ++ rest) = Some ((y, m, d), rest).
Proof.
  intros Hy Hm Hd. unfold parse_day. rewrite four_digits by done. cbn [mbind option_bind app skip]. rewrite Z.eqb_refl.
  cbn [mbind option_bind]. rewrite two_digits by lia. cbn [mbind option_bind].
  destruct (Z.ltb_spec m 1); [lia|]. destruct (Z.ltb_spec 12 m); [lia|]. cbn [orb skip]. rewrite Z.eqb_refl.
  cbn [mbind option_bind]. by rewrite two_digits by lia.
Qed.

Lemma clock_reads hh mm ss ns : 0 <= hh < 24 -> 0 <= mm < 60 -> 0 <= ss < 60 -> 0 <= ns < second_ns ->
  parse_clock ([84] ++ pad 2 hh ++ [58] ++ pad 2 mm ++ [58] ++ pad 2 ss ++ nano_text ns ++ [90])
  = Some ((hh * 3600 + mm * 60 + ss, ns), [90]).
Proof.
  intros Hh Hm Hs Hn. unfold parse_clock. cbn [app skip]. rewrite Z.eqb_refl. cbn [mbind option_bind].
  rewrite two_digits_free by lia. cbn [mbind option_bind]. destruct (Z.leb_spec 24 hh); [lia|]. cbn [skip].
  rewrite Z.eqb_refl. cbn [mbind option_bind]. rewrite two_digits by lia. cbn [mbind option_bind].
  destruct (Z.leb_spec 60 mm); [lia|]. cbn [skip]. rewrite Z.eqb_refl. cbn [mbind option_bind].
  rewrite two_digits by lia. cbn [mbind option_bind]. destruct (Z.leb_spec 60 ss); [lia|]. by rewrite fraction_nano.
Qed.

Lemma format_time_reads t : 0 <= year_of t <= 9999 -> time_Parse RFC3339 (format_time t) = Some t.
Proof.
  unfold year_of, format_time. set (sec := t / second_ns). destruct (civil_from_days (sec / 86400)) as [[y m] d] eqn:Ec.
  cbn [fst]. intros Hy. destruct (civil_inverse _ _ _ _ Ec) as (Hdays & Hm & Hd).
  assert (Hd31 : days_in m y <= 31) by (unfold days_in; repeat case_match; lia).
  set (s := sec mod 86400). assert (Hs : 0 <= s < 86400) by (subst s; lia).
  set (ns := t mod second_ns). assert (Hns : 0 <= ns < second_ns) by (subst ns; unfold second_ns; lia).
  unfold time_Parse. rewrite day_reads by lia. cbn [mbind option_bind].
  rewrite clock_reads by lia. cbn [mbind option_bind zone]. rewrite Z.eqb_refl. cbn [mbind option_bind].
  change (negb ([] =s [])) with false. cbv iota. destruct (Z.ltb_spec d 1); [lia|].
  destruct (Z.ltb_spec (days_in m y) d); [lia|]. cbn [orb fst snd]. f_equal. unfold instant. rewrite Hdays.
  assert (Hclock : s / 3600 * 3600 + s / 60 mod 60 * 60 + s mod 60 = s) by lia. rewrite Z.sub_0_r, Hclock.
  subst s ns sec. unfold second_ns in *. lia.
Qed.

Lemma parseDate_format t : 0 <= year_of t <= 9999 -> parseDate (format_time t) = Some t.
Proof. intros Hy. unfold parseDate. by rewrite format_time_reads. Qed.

(** Timestamps survive their text: what the clock or addDuration prints parses
    back to the same instant, nanosecond for nanosecond, in the years four digits
    can write, so that addDuration(ts, dur) is a timestamp whose instant is that
    of ts moved by the duration. *)
Theorem timestamps_read_back ts dur t d :
  parseDate ts = Some t -> parseISO8601Duration dur = Some d -> 0 <= year_of (t + d) <= 9999 ->
  exists text, exprAddDuration (XStr ts) (XStr dur) = Ok (XStr text) /\ parseDate text = Some (t + d).
Proof.
  intros Ht Hd Hy. exists (format_time (t + d)). split; [|by apply parseDate_format].
  unfold exprAddDuration. by rewrite Ht, Hd.
Qed.

Lemma timestamps_read_back_witness :
  let ts := go "2024-02-28T23:59:59.25+01:00" in
  exists text, exprAddDuration (XStr ts) (XStr (go "P1DT2H")) = Ok (XStr text)
    /\ text = go "2024-03-01T00:59:59.25Z" /\ parseDate text = Some 1709254799250000000.
Proof.
  intros ts. destruct (timestamps_read_back ts (go "P1DT2H") 1709161199250000000 93600000000000) as (text & He & Hp);
    [by vm_compute|by vm_compute|by vm_compute|]. exists text. split; [exact He|]. split; [|exact Hp].
  assert (Hc : exprAddDuration (XStr ts) (XStr (go "P1DT2H")) = Ok (XStr (go "2024-03-01T00:59:59.25Z"))) by by vm_compute.
  rewrite Hc in He. by injection He as <-.
Defined.

(** ** Where the code departs from its description *)

(** A duration is counted in int64 nanoseconds, which wrap: some 292 years from
    now is in the past. *)
Lemma long_duration_wraps :
  exprAddDuration (XStr (go "2000-01-01T00:00:00Z")) (XStr (go "P106752D"))
  = Ok (XStr (go "1707-09-22T00:25:26.290448384Z")).
Proof. by vm_compute. Qed.

(** Days are counted through a float: one nanosecond short of 200 days is 200. *)
Lemma days_between_rounds_up :
  exprDaysBetween (XStr (go "2024-01-01")) (XStr (go "2024-07-18T23:59:59.999999999Z")) = Ok (XInt 200).
Proof. by vm_compute. Qed.
