(* ===== verification/Predicates.v ===== *)
(** component/language/ast/v1_predicates.go: what the DSL gates ask of a
    predicate -- which fields it reads, what it always applies, and whether
    every row it admits has some property. *)

From S2P Require Import Prelude GoText Strconv Ast.

(** MemberPath decomposes [root.f1.f2] into its root and its field names. *)
Fixpoint member_path_loop (n : expr) (fields : list gostring) : option (gostring * list gostring) :=
  match n with
  | MemberExpr o f _ => member_path_loop o (fields ++ [f])
  | IdentExpr name => Some (name, reverse fields)
  | _ => None
  end.

Definition MemberPath (n : expr) : option (gostring * list gostring) := member_path_loop n [].

(** MemberPaths reports every maximal member chain rooted at an identifier, in
    source order; [fn]'s calls are collected in the list. *)
Definition member_paths_visit (e : expr) (calls : list (gostring * list gostring))
  : bool * list (gostring * list gostring) :=
  match e with
  | MemberExpr _ _ _ =>
      match MemberPath e with
      | Some rf => (false, calls ++ [rf])
      | None => (true, calls)
      end
  | _ => (true, calls)
  end.

Definition MemberPaths (n : expr) : list (gostring * list gostring) :=
  WalkV1 member_paths_visit n [].

Definition maxPredicateDepth : Z := 512.

(** Whether every row a boolean predicate admits satisfies [leaf]. *)
Fixpoint guaranteesAt (leaf : expr -> bool) (n : expr) (depth : Z) : bool :=
  if is_nil_node n || (maxPredicateDepth <? depth) then false else
  match n with
  | ParenExpr i => guaranteesAt leaf i (depth + 1)
  | BinaryExpr op l r =>
      if op =s go "&&" then guaranteesAt leaf l (depth + 1) || guaranteesAt leaf r (depth + 1)
      else if op =s go "||" then guaranteesAt leaf l (depth + 1) && guaranteesAt leaf r (depth + 1)
      else leaf n
  | UnaryExpr op _ => if op =s go "!" then false else leaf n
  | TernaryExpr _ t e => guaranteesAt leaf t (depth + 1) && guaranteesAt leaf e (depth + 1)
  | _ => leaf n
  end.

Definition Guarantees (n : expr) (leaf : expr -> bool) : bool := guaranteesAt leaf n 0.

(** The leaves [fn] is called on, in order. *)
Fixpoint predicateLeavesAt (n : expr) (depth : Z) : list expr :=
  if is_nil_node n || (maxPredicateDepth <? depth) then [] else
  match n with
  | ParenExpr i => predicateLeavesAt i (depth + 1)
  | BinaryExpr op l r =>
      if (op =s go "&&") || (op =s go "||")
      then predicateLeavesAt l (depth + 1) ++ predicateLeavesAt r (depth + 1)
      else [n]
  | UnaryExpr op x => if op =s go "!" then predicateLeavesAt x (depth + 1) else [n]
  | TernaryExpr c t e =>
      predicateLeavesAt c (depth + 1) ++ predicateLeavesAt t (depth + 1)
      ++ predicateLeavesAt e (depth + 1)
  | _ => [n]
  end.

Definition PredicateLeaves (n : expr) : list expr := predicateLeavesAt n 0.

(** The operands of the top-level [&&] chain.  [walk] unparenthesises its
    argument before it looks at it, so a ParenExpr is its inner predicate. *)
Fixpoint Conjuncts (n : expr) : list expr :=
  match n with
  | ParenExpr i => Conjuncts i
  | BinaryExpr op l r => if op =s go "&&" then Conjuncts l ++ Conjuncts r else [n]
  | NilNode => []
  | _ => [n]
  end.

(** ** What a predicate admits

    The reading the gates rely on: [&&], [||], [!], parentheses and the
    conditional are classical, and every other node is a leaf whose truth on
    the row is given by [ev].  An absent predicate filters nothing. *)
Fixpoint admits (ev : expr -> bool) (n : expr) : bool :=
  match n with
  | NilNode => true
  | ParenExpr i => admits ev i
  | BinaryExpr op l r =>
      if op =s go "&&" then admits ev l && admits ev r
      else if op =s go "||" then admits ev l || admits ev r
      else ev n
  | UnaryExpr op x => if op =s go "!" then negb (admits ev x) else ev n
  | TernaryExpr c t e => if admits ev c then admits ev t else admits ev e
  | _ => ev n
  end.

Section Admits.
Context (ev : expr -> bool).

(** A guarantee comes from a leaf that was judged to give it and that holds. *)
Lemma guaranteesAt_leaf leaf n depth :
  guaranteesAt leaf n depth = true -> admits ev n = true ->
  exists l, In l (predicateLeavesAt n depth) /\ leaf l = true /\ ev l = true.
Proof.
  revert depth.
  induction n using expr_ind'; intros d; cbn [guaranteesAt predicateLeavesAt admits is_nil_node orb];
    destruct (maxPredicateDepth <? d); try done;
    try (intros Hl He; eexists; split; [by left | by split]).
  - destruct (op =s go "!"); [done|]. intros Hl He. eexists. split; [by left | done].
  - destruct (op =s go "&&"); cbn [orb]; [|destruct (op =s go "||")].
    + intros [Hg|Hg]%orb_true_iff [Hl Hr]%andb_true_iff.
      * edestruct IHn1 as (l & ? & ?); eauto. exists l. rewrite in_app_iff. eauto.
      * edestruct IHn2 as (l & ? & ?); eauto. exists l. rewrite in_app_iff. eauto.
    + intros [Hg1 Hg2]%andb_true_iff [He|He]%orb_true_iff.
      * edestruct IHn1 as (l & ? & ?); eauto. exists l. rewrite in_app_iff. eauto.
      * edestruct IHn2 as (l & ? & ?); eauto. exists l. rewrite in_app_iff. eauto.
    + intros Hl He. eexists. split; [by left | done].
  - intros [Hg1 Hg2]%andb_true_iff He. destruct (admits ev n1).
    + edestruct IHn2 as (l & ? & ?); eauto. exists l. rewrite !in_app_iff. eauto.
    + edestruct IHn3 as (l & ? & ?); eauto. exists l. rewrite !in_app_iff. eauto.
  - intros Hg He. by apply IHn.
Qed.

Lemma Conjuncts_admits n : admits ev n = forallb (admits ev) (Conjuncts n).
Proof.
  induction n using expr_ind'; cbn [admits Conjuncts forallb]; rewrite ?andb_true_r; try done.
  destruct (op =s go "&&") eqn:Hop; cbn [forallb admits];
    rewrite ?Hop, ?andb_true_r; [|done].
  by rewrite forallb_app, IHn1, IHn2.
Qed.
End Admits.

(** ** Member chains *)

Fixpoint member_chain (o : expr) (fs : list (gostring * bool)) : expr :=
  match fs with
  | [] => o
  | (f, opt) :: fs' => member_chain (MemberExpr o f opt) fs'
  end.

Lemma member_path_loop_chain n acc r fs :
  member_path_loop n acc = Some (r, fs) ->
  exists ch, n = member_chain (IdentExpr r) ch /\ fs = (ch.*1) ++ reverse acc.
Proof.
  revert acc fs. induction n using expr_ind'; intros acc fs; cbn; try done.
  - intros [= -> <-]. by exists [].
  - intros Hp. apply IHn in Hp as (ch & -> & ->). exists (ch ++ [(f, b)]). split.
    + clear. generalize (IdentExpr r). induction ch as [|[g o] ch IH]; intros e; cbn; [done | apply IH].
    + rewrite reverse_app, fmap_app. cbn. by rewrite <- app_assoc.
Qed.

Lemma member_chain_path r ch : MemberPath (member_chain (IdentExpr r) ch) = Some (r, ch.*1).
Proof.
  unfold MemberPath.
  assert (forall o acc, member_path_loop (member_chain o ch) acc
                        = member_path_loop o (acc ++ reverse (ch.*1))) as H.
  { induction ch as [|[f b] ch IH]; intros o acc; [by rewrite app_nil_r|].
    cbn [member_chain].
    rewrite IH. cbn [member_path_loop].
    change ((f, b) :: ch).*1 with (f :: ch.*1). by rewrite reverse_cons, app_assoc. }
  rewrite H. cbn [member_path_loop app]. by rewrite reverse_involutive.
Qed.

Lemma Conjuncts_flat n : Forall (fun c => forall l r, Unparen c <> BinaryExpr (go "&&") l r) (Conjuncts n).
Proof.
  induction n using expr_ind'; cbn [Conjuncts]; try done; try (by repeat constructor).
  destruct (op =s go "&&") eqn:Hop; [by apply Forall_app_2|].
  constructor; [|constructor]. intros l r [= -> _ _]. by rewrite eqs_refl in Hop.
Qed.

(** ** Theorems *)

(** C32: [Guarantees] is sound for access gates: when it answers true for a
    predicate, every row the predicate admits makes true one of the leaves the
    gate was shown ([PredicateLeaves]) and accepted.  [ev] is any reading of the
    leaves on the row; negation, disjunction, the conditional and nesting past
    the depth limit never produce an unsound yes. *)
Theorem Guarantees_sound (ev leaf : expr -> bool) (n : expr) :
  Guarantees n leaf = true -> admits ev n = true ->
  exists l, In l (PredicateLeaves n) /\ leaf l = true /\ ev l = true.
Proof. apply guaranteesAt_leaf. Qed.

Lemma Guarantees_sound_witness :
  let owner := BinaryExpr (go "==") (IdentExpr (go "owner")) (IdentExpr (go "actor")) in
  let pred := BinaryExpr (go "&&") (IdentExpr (go "live"))
                (ParenExpr (BinaryExpr (go "||") owner owner)) in
  let leaf n := match n with BinaryExpr _ _ _ => true | _ => false end in
  exists l, In l (PredicateLeaves pred) /\ leaf l = true /\ (fun _ => true) l = true.
Proof. intros owner pred leaf. apply (Guarantees_sound (fun _ => true)); vm_compute; reflexivity. Defined.

(** [Conjuncts] splits a predicate into the conditions it always applies: a
    row is admitted exactly when every conjunct admits it, and no conjunct is
    itself a conjunction, parenthesised or not, so none is missed. *)
Theorem Conjuncts_exact (ev : expr -> bool) (n : expr) :
  admits ev n = forallb (admits ev) (Conjuncts n)
  /\ Forall (fun c => forall l r, Unparen c <> BinaryExpr (go "&&") l r) (Conjuncts n).
Proof. split; [apply Conjuncts_admits | apply Conjuncts_flat]. Qed.

(** [MemberPath] answers a root and fields exactly for the member chains that
    start at an identifier, in source order and whatever their optional marks. *)
Theorem MemberPath_exact (n : expr) (root : gostring) (fields : list gostring) :
  MemberPath n = Some (root, fields)
  <-> exists chain, n = member_chain (IdentExpr root) chain /\ fields = chain.*1.
Proof.
  split.
  - intros Hp. apply member_path_loop_chain in Hp as (ch & -> & ->). exists ch.
    by rewrite app_nil_r.
  - intros (ch & -> & ->). apply member_chain_path.
Qed.
