(* ===== verification/Lexer.v ===== *)
(** The lexer: component/language/parser/lexer.go.

    The Go lexer holds the input as runes with a position, a line and a column;
    here the part of the input from the position on is kept instead of the
    index, and the three counters are a [cursor].  Comments are skipped with the
    doc-comment side channel the Go lexer keeps.  Position markers of a lowered
    text (position_markers.go) are not modelled: the text is the author's own,
    and the authored coordinates are then the lexed ones. *)

From S2P Require Import Prelude GoText.

Inductive TokenType : Type :=
| TokenEOF | TokenIdentifier | TokenNumber | TokenString | TokenOperator
| TokenParenOpen | TokenParenClose | TokenBraceOpen | TokenBraceClose
| TokenBracketOpen | TokenBracketClose | TokenColon | TokenSemicolon | TokenComma
| TokenDefine | TokenQuestion | TokenQuestionDot | TokenQuestionQuestion
| TokenAt | TokenAmpAmp | TokenPipePipe | TokenBang | TokenDot
| TokenKeywordQuery | TokenKeywordMutation | TokenKeywordAutomation
| TokenKeywordSpec | TokenKeywordTool | TokenKeywordBuiltin
| TokenKeywordFunc | TokenKeywordFor | TokenKeywordRange | TokenKeywordIf
| TokenKeywordElse | TokenKeywordSwitch | TokenKeywordCase | TokenKeywordDefault
| TokenKeywordContinue | TokenKeywordBreak | TokenKeywordReturn | TokenKeywordNil
| TokenKeywordRetry | TokenKeywordWhen | TokenKeywordAs | TokenKeywordWhere
| TokenKeywordUse | TokenKeywordImport | TokenKeywordConcept | TokenKeywordIn
| TokenKeywordHas | TokenKeywordNot | TokenKeywordStartsWith | TokenDotQuestion.

#[export] Instance TokenType_eq_dec : EqDecision TokenType.
Proof. solve_decision. Defined.

Record Token := mkToken {
  tType : TokenType;
  tLiteral : gostring;
  tPos : Z;
  tLine : Z;
  tColumn : Z;
  tEndPos : Z;
  tEndLine : Z;
  tEndCol : Z
}.

(** Go's zero Token: what reading past the end of a token slice yields. *)
Definition zeroToken : Token := mkToken TokenEOF [] 0 0 0 0 0 0.

Inductive unicode_error : Type :=
| UIncomplete
| UInvalidHex (r : rune)
| ULoneHigh (v : Z)
| UNotLow (v low : Z)
| ULoneLow (v : Z).

Inductive lex_error : Type :=
| LexSingleAmp (pos : Z)
| LexSinglePipe (pos : Z)
| LexLeadingDot (line col : Z)
| LexUnterminatedString (pos : Z)
| LexBadEscape (r : rune) (pos : Z)
| LexBadUnicode (e : unicode_error)
| LexUnexpectedChar (r : rune) (pos : Z)
| LexUnterminatedComment (line col : Z)
| LexFuel.

(** ** State *)

Record cursor := Cursor { c_pos : Z; c_line : Z; c_col : Z }.

Record DocCommentBlock := mkDoc {
  d_Lines : list gostring;
  d_StartLine : Z;
  d_EndLine : Z
}.

Record lexer := mkLexer {
  l_rest : gostring;                (* input[pos:] *)
  l_cur : cursor;
  l_docBlocks : list DocCommentBlock;
  l_lastTokenLine : Z;
  l_commentLines : gset Z
}.

Definition NewLexer (input : gostring) : lexer :=
  mkLexer input (Cursor 0 1 1) [] 0 ∅.

(** [advance], [n] times, over runes that are not line ends. *)
Definition adv (n : Z) (c : cursor) : cursor := Cursor (c_pos c + n) (c_line c) (c_col c + n).

(** Past a newline: the line counter moves and the column restarts. *)
Definition adv_nl (c : cursor) : cursor := Cursor (c_pos c + 1) (c_line c + 1) 1.

Definition at_rest (lx : lexer) (rest : gostring) (c : cursor) : lexer :=
  mkLexer rest c (l_docBlocks lx) (l_lastTokenLine lx) (l_commentLines lx).

Definition peekAt (rest : gostring) (k : nat) : rune := nth k rest 0.
Definition peek (rest : gostring) : rune := peekAt rest 0.
Definition peekNext (rest : gostring) : rune := peekAt rest 1.
Definition hasNext (rest : gostring) : bool :=
  match rest with _ :: _ :: _ => true | _ => false end.

(** [l.hasNext() && f(l.peekNext())] *)
Definition nextIs (f : rune -> bool) (rest : gostring) : bool :=
  match rest with _ :: d :: _ => f d | _ => false end.

(** The type, literal, remaining input and cursor after one scanned token. *)
Definition scanned : Type := TokenType * gostring * gostring * cursor.

Definition keywords : list (gostring * TokenType) :=
  [(go "func", TokenKeywordFunc); (go "for", TokenKeywordFor);
   (go "range", TokenKeywordRange); (go "if", TokenKeywordIf);
   (go "else", TokenKeywordElse); (go "switch", TokenKeywordSwitch);
   (go "case", TokenKeywordCase); (go "default", TokenKeywordDefault);
   (go "continue", TokenKeywordContinue); (go "break", TokenKeywordBreak);
   (go "return", TokenKeywordReturn); (go "nil", TokenKeywordNil);
   (go "retry", TokenKeywordRetry); (go "when", TokenKeywordWhen);
   (go "as", TokenKeywordAs); (go "where", TokenKeywordWhere);
   (go "use", TokenKeywordUse); (go "import", TokenKeywordImport);
   (go "in", TokenKeywordIn); (go "has", TokenKeywordHas);
   (go "not", TokenKeywordNot); (go "startsWith", TokenKeywordStartsWith);
   (go "Query", TokenKeywordQuery); (go "Mutation", TokenKeywordMutation);
   (go "Automation", TokenKeywordAutomation); (go "Spec", TokenKeywordSpec);
   (go "Tool", TokenKeywordTool); (go "Builtin", TokenKeywordBuiltin)].

(** The keyword switch at the end of scanIdentifier. *)
Definition keyword_type (lit : gostring) : TokenType :=
  match List.find (fun kw => lit =s kw.1) keywords with
  | Some kw => kw.2
  | None => TokenIdentifier
  end.

(** ** Strings *)

Definition hex_digit (r : rune) : option Z :=
  if between 48 57 r then Some (r - 48)
  else if between 97 102 r then Some (r - 97 + 10)
  else if between 65 70 r then Some (r - 65 + 10)
  else None.

(** scanHex4: the four digits after the [u], and what follows them. *)
Fixpoint hex_value (digits : gostring) (v : Z) : result unicode_error Z :=
  match digits with
  | [] => Ok v
  | d :: ds =>
      match hex_digit d with
      | Some h => hex_value ds (Z.shiftl v 4 + h)
      | None => Err (UInvalidHex d)
      end
  end.

Definition scanHex4 (after_u : gostring) : result unicode_error (Z * gostring) :=
  if (length after_u <? 4)%nat then Err UIncomplete
  else match hex_value (take 4 after_u) 0 with
       | Ok v => Ok (v, drop 4 after_u)
       | Err e => Err e
       end.

(** scanUnicodeEscape: one escape, or a surrogate pair; the decoded rune, the
    rest, and how many runes after the first [u] were consumed. *)
Definition scanUnicodeEscape (after_u : gostring) : result unicode_error (rune * gostring * Z) :=
  match scanHex4 after_u with
  | Err e => Err e
  | Ok (value, t) =>
      if between 0xD800 0xDBFF value then
        if negb (peekAt t 0 =? 92) || negb (peekAt t 1 =? 117) then Err (ULoneHigh value)
        else match scanHex4 (drop 2 t) with
             | Err e => Err e
             | Ok (low, t') =>
                 if (low <? 0xDC00) || (0xDFFF <? low) then Err (UNotLow value low)
                 else Ok (Z.lor (Z.shiftl (value - 0xD800) 10) (low - 0xDC00) + 0x10000, t', 10)
             end
      else if between 0xDC00 0xDFFF value then Err (ULoneLow value)
      else Ok (value, t, 4)
  end.

Definition simple_escape (r : rune) : option rune :=
  if (r =? 34) || (r =? 92) || (r =? 47) then Some r
  else if r =? 98 then Some 8
  else if r =? 102 then Some 12
  else if r =? 110 then Some 10
  else if r =? 114 then Some 13
  else if r =? 116 then Some 9
  else None.

(** The body of a string, the cursor past its opening quote. *)
Fixpoint scan_string_loop (fuel : nat) (start : Z) (rest : gostring) (c : cursor)
    (builder : gostring) : result lex_error scanned :=
  match fuel with
  | O => Err LexFuel
  | S f =>
      match rest with
      | [] => Err (LexUnterminatedString start)
      | ch :: t =>
          if ch =? 34 then Ok (TokenString, builder, t, adv 1 c)
          else if ch =? 92 then
            match t with
            | [] => Err (LexUnterminatedString start)
            | escaped :: t' =>
                match simple_escape escaped with
                | Some r => scan_string_loop f start t' (adv 2 c) (builder ++ [r])
                | None =>
                    if escaped =? 117 then
                      match scanUnicodeEscape t' with
                      | Err e => Err (LexBadUnicode e)
                      | Ok (r, t'', n) => scan_string_loop f start t'' (adv (2 + n) c) (builder ++ [r])
                      end
                    else Err (LexBadEscape escaped (c_pos c + 1))
                end
            end
          else scan_string_loop f start t (if ch =? 10 then adv_nl c else adv 1 c) (builder ++ [ch])
      end
  end.

Definition scanString (rest : gostring) (c : cursor) : result lex_error scanned :=
  scan_string_loop (length rest) (c_pos c) (tail rest) (adv 1 c) [].

(** ** Operators and numbers *)

Definition scanNotEquals (rest : gostring) (c : cursor) : scanned :=
  match tail rest with
  | ch :: t => if ch =? 61 then (TokenOperator, go "!=", t, adv 2 c)
               else (TokenBang, go "!", ch :: t, adv 1 c)
  | [] => (TokenBang, go "!", [], adv 1 c)
  end.

Definition scanOperator (rest : gostring) (c : cursor) : scanned :=
  match tail rest with
  | ch :: t => if ch =? 61 then (TokenOperator, go "==", t, adv 2 c)
               else if ch =? 62 then (TokenOperator, go "=>", t, adv 2 c)
               else (TokenOperator, go "=", ch :: t, adv 1 c)
  | [] => (TokenOperator, go "=", [], adv 1 c)
  end.

(** The text of a number and what follows it. *)
Definition number_sign (s : gostring) : gostring * gostring :=
  match s with
  | ch :: t => if ch =? 45 then ([45], t) else ([], s)
  | [] => ([], [])
  end.

Definition number_fraction (s : gostring) : gostring * gostring :=
  match s with
  | ch :: t =>
      if (ch =? 46) && nextIs isDigit s
      then let '(ds, t') := span isDigit t in (46 :: ds, t')
      else ([], s)
  | [] => ([], [])
  end.

Definition number_exponent (s : gostring) : gostring * gostring :=
  match s with
  | ch :: t =>
      if (ch =? 101) || (ch =? 69) then
        let '(sg, t1) :=
          match t with
          | d :: t' => if (d =? 43) || (d =? 45) then ([d], t') else ([], t)
          | [] => ([], [])
          end in
        let '(ds, t2) := span isDigit t1 in
        (ch :: sg ++ ds, t2)
      else ([], s)
  | [] => ([], [])
  end.

Definition number_text (s : gostring) : gostring * gostring :=
  let '(sg, t0) := number_sign s in
  let '(ip, t1) := span isDigit t0 in
  let '(fp, t2) := number_fraction t1 in
  let '(ep, t3) := number_exponent t2 in
  (sg ++ ip ++ fp ++ ep, t3).

Definition scanNumber (rest : gostring) (c : cursor) : scanned :=
  let '(lit, t) := number_text rest in
  (TokenNumber, lit, t, adv (Z.of_nat (length lit)) c).

Section Lexing.
Context `{UnicodeTables}.

(** ** Identifiers *)

Definition isIdentifierCharNoColon (ch : rune) : bool :=
  IsLetter ch || IsDigit ch || (ch =? 95) || (ch =? 45).

Definition colonValueLiterals : list gostring := go <$> ["true"; "false"; "null"; "nil"]%string.

(** [rest] starts at the colon. *)
Definition wordLiteralFollowsColon (rest : gostring) : bool :=
  let '(word, t) := span IsLetter (tail rest) in
  if negb (memS word colonValueLiterals) then false
  else let next := peek t in
       (next =? 0)
       || (negb (isIdentifierCharNoColon next) && negb (next =? 58) && negb (next =? 46)).

Definition path_char (r : rune) : bool := IsLetter r || IsDigit r || (r =? 95).

Fixpoint ident_loop (builder rest : gostring) : gostring * gostring :=
  match rest with
  | [] => (builder, [])
  | ch :: t =>
      if ch =? 58 then
        if nextIs IsLetter rest then
          if negb (ContainsRune builder 58) && wordLiteralFollowsColon rest
          then (builder, rest)
          else ident_loop (builder ++ [ch]) t
        else (builder, rest)
      else if ch =? 46 then
        if nextIs path_char rest then ident_loop (builder ++ [ch]) t else (builder, rest)
      else if isIdentifierCharNoColon ch then ident_loop (builder ++ [ch]) t
      else (builder, rest)
  end.

Definition scanIdentifier (rest : gostring) (c : cursor) : result lex_error scanned :=
  let '(lit, t) := ident_loop [] rest in
  match lit with
  | [] => Err (LexUnexpectedChar (peek t) (c_pos c))
  | _ => Ok (keyword_type lit, lit, t, adv (Z.of_nat (length lit)) c)
  end.

(** ** Comments and whitespace *)

Definition markCommentLines (lx : lexer) (from to : Z) : lexer :=
  mkLexer (l_rest lx) (l_cur lx) (l_docBlocks lx) (l_lastTokenLine lx)
    (l_commentLines lx ∪ list_to_set (seqZ from (to - from + 1))).

(** One [///] line: it extends the block that ends on the line before, or
    opens a block of its own. *)
Definition add_doc_line (docs : list DocCommentBlock) (line : Z) (content : gostring)
    : list DocCommentBlock :=
  match last docs with
  | Some b =>
      if d_EndLine b =? line - 1
      then take (length docs - 1) docs ++ [mkDoc (d_Lines b ++ [content]) (d_StartLine b) line]
      else docs ++ [mkDoc [content] line line]
  | None => docs ++ [mkDoc [content] line line]
  end.

Definition skipLineComment (lx : lexer) : lexer :=
  let startLine := c_line (l_cur lx) in
  let '(text, t) := span (fun r => negb (r =? 10)) (l_rest lx) in
  let lx' := at_rest lx t (adv (Z.of_nat (length text)) (l_cur lx)) in
  if startLine =? l_lastTokenLine lx then lx'
  else if HasPrefix text (go "///") && negb (HasPrefix text (go "////")) then
    mkLexer (l_rest lx') (l_cur lx') (add_doc_line (l_docBlocks lx) startLine (drop 3 text))
      (l_lastTokenLine lx') (l_commentLines lx')
  else markCommentLines lx' startLine startLine.

(** The body of a block comment up to its [*/]. *)
Fixpoint block_comment_end (rest : gostring) (c : cursor) : option (gostring * cursor) :=
  match rest with
  | [] => None
  | ch :: t =>
      if (ch =? 42) && nextIs (Z.eqb 47) rest then Some (tail t, adv 2 c)
      else block_comment_end t (if ch =? 10 then adv_nl c else adv 1 c)
  end.

Definition skipBlockComment (lx : lexer) : result lex_error lexer :=
  let start := l_cur lx in
  match block_comment_end (drop 2 (l_rest lx)) (adv 2 start) with
  | None => Err (LexUnterminatedComment (c_line start) (c_col start))
  | Some (t, c) =>
      let lx' := at_rest lx t c in
      Ok (if c_line start =? l_lastTokenLine lx then lx'
          else markCommentLines lx' (c_line start) (c_line c))
  end.

Fixpoint skipWhitespace (fuel : nat) (lx : lexer) : result lex_error lexer :=
  match fuel with
  | O => Err LexFuel
  | S f =>
      match l_rest lx with
      | [] => Ok lx
      | ch :: t =>
          if (ch =? 32) || (ch =? 9) || (ch =? 13) then
            skipWhitespace f (at_rest lx t (adv 1 (l_cur lx)))
          else if ch =? 10 then skipWhitespace f (at_rest lx t (adv_nl (l_cur lx)))
          else if (ch =? 47) && nextIs (Z.eqb 47) (l_rest lx) then
            skipWhitespace f (skipLineComment lx)
          else if (ch =? 47) && nextIs (Z.eqb 42) (l_rest lx) then
            lx ← skipBlockComment lx; skipWhitespace f lx
          else Ok lx
      end
  end.

(** ** Tokens *)

(** One character as a token. *)
Definition tok1 (ty : TokenType) (lit : gostring) (rest : gostring) (c : cursor) : scanned :=
  (ty, lit, tail rest, adv 1 c).

Definition tok2 (ty : TokenType) (lit : gostring) (rest : gostring) (c : cursor) : scanned :=
  (ty, lit, drop 2 rest, adv 2 c).

Inductive scan_step : Type :=
| ScanToken (s : scanned)
| ScanAgain (lx : lexer).

(** The switch of NextToken on the first character of a token: first the cases
    from the dot on, with identifiers as the fallback. *)
Definition scan_token_tail (lx : lexer) : result lex_error scan_step :=
  let rest := l_rest lx in
  let c := l_cur lx in
  let ch := peek rest in
  let one ty lit := Ok (ScanToken (tok1 ty lit rest c)) in
  let two ty lit := Ok (ScanToken (tok2 ty lit rest c)) in
  if ch =? 46 then
    if nextIs (Z.eqb 63) rest then two TokenDotQuestion (go ".?")
    else if nextIs isDigit rest then Err (LexLeadingDot (c_line c) (c_col c))
    else if nextIs (fun r => IsLetter r || (r =? 95)) rest
         then s ← scanIdentifier rest c; Ok (ScanToken s)
    else one TokenDot (go ".")
  else if ch =? 34 then s ← scanString rest c; Ok (ScanToken s)
  else if ch =? 33 then Ok (ScanToken (scanNotEquals rest c))
  else if ch =? 61 then Ok (ScanToken (scanOperator rest c))
  else if ch =? 45 then
    if nextIs isDigit rest then Ok (ScanToken (scanNumber rest c)) else one TokenOperator (go "-")
  else if ch =? 47 then
    if nextIs (Z.eqb 47) rest then Ok (ScanAgain (skipLineComment lx))
    else if nextIs (Z.eqb 42) rest then lx' ← skipBlockComment lx; Ok (ScanAgain lx')
    else one TokenOperator (go "/")
  else if ch =? 43 then one TokenOperator (go "+")
  else if ch =? 42 then one TokenOperator (go "*")
  else if ch =? 37 then one TokenOperator (go "%")
  else if isDigit ch then Ok (ScanToken (scanNumber rest c))
  else s ← scanIdentifier rest c; Ok (ScanToken s).

(** The cases before it, in the order of the switch. *)
Definition scan_token (lx : lexer) : result lex_error scan_step :=
  let rest := l_rest lx in
  let c := l_cur lx in
  let ch := peek rest in
  let one ty lit := Ok (ScanToken (tok1 ty lit rest c)) in
  let two ty lit := Ok (ScanToken (tok2 ty lit rest c)) in
  if ch =? 36 then one TokenOperator (go "$")
  else if ch =? 60 then
    if nextIs (Z.eqb 61) rest then two TokenOperator (go "<=") else one TokenOperator (go "<")
  else if ch =? 62 then
    if nextIs (Z.eqb 61) rest then two TokenOperator (go ">=") else one TokenOperator (go ">")
  else if ch =? 40 then one TokenParenOpen (go "(")
  else if ch =? 41 then one TokenParenClose (go ")")
  else if ch =? 59 then one TokenSemicolon (go ";")
  else if ch =? 44 then one TokenComma (go ",")
  else if ch =? 123 then one TokenBraceOpen (go "{")
  else if ch =? 125 then one TokenBraceClose (go "}")
  else if ch =? 91 then one TokenBracketOpen (go "[")
  else if ch =? 93 then one TokenBracketClose (go "]")
  else if ch =? 58 then
    if nextIs (Z.eqb 61) rest then two TokenDefine (go ":=") else one TokenColon (go ":")
  else if ch =? 63 then
    if nextIs (Z.eqb 46) rest then two TokenQuestionDot (go "?.")
    else if nextIs (Z.eqb 63) rest then two TokenQuestionQuestion (go "??")
    else one TokenQuestion (go "?")
  else if ch =? 38 then
    if nextIs (Z.eqb 38) rest then two TokenAmpAmp (go "&&") else Err (LexSingleAmp (c_pos c))
  else if ch =? 124 then
    if nextIs (Z.eqb 124) rest then two TokenPipePipe (go "||") else Err (LexSinglePipe (c_pos c))
  else if ch =? 64 then one TokenAt (go "@")
  else scan_token_tail lx.

Definition makeToken (c : cursor) (ty : TokenType) (lit : gostring) : Token :=
  mkToken ty lit (c_pos c) (c_line c) (c_col c) 0 0 0.

Fixpoint NextToken (fuel : nat) (lx : lexer) : result lex_error (Token * lexer) :=
  match fuel with
  | O => Err LexFuel
  | S f =>
      lx ← skipWhitespace (S (length (l_rest lx))) lx;
      match l_rest lx with
      | [] => Ok (makeToken (l_cur lx) TokenEOF [], lx)
      | _ =>
          step ← scan_token lx;
          match step with
          | ScanToken (ty, lit, t, c) => Ok (makeToken (l_cur lx) ty lit, at_rest lx t c)
          | ScanAgain lx' => NextToken f lx'
          end
      end
  end.

(** The End fields of a token, stamped from the position after its scan. *)
Definition stamp_end (tok : Token) (lx : lexer) : Token :=
  match tType tok with
  | TokenEOF => mkToken (tType tok) (tLiteral tok) (tPos tok) (tLine tok) (tColumn tok)
                  (tPos tok) (tLine tok) (tColumn tok)
  | _ => mkToken (tType tok) (tLiteral tok) (tPos tok) (tLine tok) (tColumn tok)
           (c_pos (l_cur lx)) (c_line (l_cur lx)) (c_col (l_cur lx))
  end.

(** A line that carries a token is code, not a comment line. *)
Definition after_token (tok : Token) (lx : lexer) : lexer :=
  let line := c_line (l_cur lx) in
  mkLexer (l_rest lx) (l_cur lx) (l_docBlocks lx) line
    (l_commentLines lx ∖ list_to_set (seqZ (tLine tok) (line - tLine tok + 1))).

Fixpoint tokenize_loop (fuel : nat) (lx : lexer) : result lex_error (list Token * lexer) :=
  match fuel with
  | O => Err LexFuel
  | S f =>
      '(tok, lx) ← NextToken (S (length (l_rest lx))) lx;
      let tok := stamp_end tok lx in
      match tType tok with
      | TokenEOF => Ok ([tok], lx)
      | _ => '(toks, lx') ← tokenize_loop f (after_token tok lx); Ok (tok :: toks, lx')
      end
  end.

(** Tokenize and, beside it, the doc comments a caller reads afterwards. *)
Definition TokenizeWithDocs (input : gostring) : result lex_error (list Token * lexer) :=
  tokenize_loop (S (length input)) (NewLexer input).

Definition Tokenize (input : gostring) : result lex_error (list Token) :=
  fst <$> TokenizeWithDocs input.

Definition DocComments (lx : lexer) : list DocCommentBlock * gset Z :=
  (l_docBlocks lx, l_commentLines lx).
End Lexing.
