(* ===== verification/Refusals.v ===== *)
(** The spellings edition 2026 retires and the errors that refuse them:
    component/language/parser/v1_refusals.go, with the tables of callable.go,
    parser.go and v1_body_refusals.go the expression parser consults.

    An error is the token it is positioned at and what it says.  The wording is
    left out; the distinctions a caller can make (the retired rule, the chain
    bound's code) and the data a message quotes are kept. *)

From S2P Require Import Prelude GoText Ast Lexer.

(** The rule ids, one per retired form. *)
Inductive rule : Type :=
| ruleWhenGuard | ruleConditionalPrefix | ruleSemicolonConnective | ruleCommaConnective
| ruleHas | ruleNotIn | ruleAndCall | ruleOrCall | ruleNotCall | ruleLtCall | ruleGtCall
| ruleLteCall | ruleGteCall | ruleCondCall | ruleConcatCall | ruleCoalesceCall
| ruleExistsCall | ruleLenCall | ruleCountCall | ruleContainsCall | ruleMeanCall
| ruleFirstCall | ruleLastCall | ruleTimestampCall | ruleNowCall | ruleNull
| ruleDollarArgs | ruleSpecReference | ruleTraitReference | ruleContainsMethod
| ruleKeylessMapEntry | ruleFilterWithoutLambda | ruleSpecReturnBody
| ruleTraitReturnBody | ruleFilterAnnotation.

#[export] Instance rule_eq_dec : EqDecision rule.
Proof. solve_decision. Defined.

Record RetiredForm := mkForm { rf_Spelling : string; rf_Replacement : string; rf_Rule : rule }.

Definition v1RetiredFormTable : list RetiredForm :=
  [mkForm "when(args.x) { ... }" "(args.x == nil || <predicate>)" ruleWhenGuard;
   mkForm "?.<predicate>" "(args.x == nil || <predicate>)" ruleConditionalPrefix;
   mkForm "; as a connective" "&&" ruleSemicolonConnective;
   mkForm ", as a connective" "||" ruleCommaConnective;
   mkForm "has" "<value> in <list>" ruleHas;
   mkForm "not in" "!(<value> in <list>)" ruleNotIn;
   mkForm "and(a, b)" "a && b" ruleAndCall;
   mkForm "or(a, b)" "a || b" ruleOrCall;
   mkForm "not(a)" "!a" ruleNotCall;
   mkForm "lt(a, b)" "a < b" ruleLtCall;
   mkForm "gt(a, b)" "a > b" ruleGtCall;
   mkForm "lte(a, b)" "a <= b" ruleLteCall;
   mkForm "gte(a, b)" "a >= b" ruleGteCall;
   mkForm "cond(p, a, b)" "p ? a : b" ruleCondCall;
   mkForm "concat(a, b)" "a + b" ruleConcatCall;
   mkForm "coalesce(a, b)" "a ?? b" ruleCoalesceCall;
   mkForm "exists(x)" "x != nil" ruleExistsCall;
   mkForm "len(x)" "x.count()" ruleLenCall;
   mkForm "count(x)" "x.count()" ruleCountCall;
   mkForm "contains(s, sub)" "s.includes(sub)" ruleContainsCall;
   mkForm "mean(x)" "x.avg()" ruleMeanCall;
   mkForm "first(x)" "x.first()" ruleFirstCall;
   mkForm "last(x)" "x.last()" ruleLastCall;
   mkForm "timestamp()" "now" ruleTimestampCall;
   mkForm "now()" "now" ruleNowCall;
   mkForm "null" "nil" ruleNull;
   mkForm "$args.x" "args.x" ruleDollarArgs;
   mkForm "spec <name>" "<name>(row)" ruleSpecReference;
   mkForm "trait <name>" "<name>(row)" ruleTraitReference;
   mkForm ".contains(...)" "v in <list> for membership or s.includes(sub) for a substring"
     ruleContainsMethod;
   mkForm "{ args.x.y }" "{ y: args.x.y }" ruleKeylessMapEntry;
   mkForm "filter <predicate>" "filter row => <predicate>" ruleFilterWithoutLambda;
   mkForm "spec <bound> <name> { return <predicate> }" "spec <bound> <name> = row => <predicate>"
     ruleSpecReturnBody;
   mkForm "trait <name> { return <predicate> }" "trait <name> = row => <predicate>"
     ruleTraitReturnBody;
   mkForm "@filter(<predicate>)" "@filter(row => <predicate>)" ruleFilterAnnotation].

Definition v1FormByRule (r : rule) : option RetiredForm :=
  List.find (fun f => bool_decide (rf_Rule f = r)) v1RetiredFormTable.

(** A retired bare-call name, lowercased, and its rule. *)
Definition v1RetiredCalls : list (gostring * rule) :=
  [(go "and", ruleAndCall); (go "or", ruleOrCall); (go "lt", ruleLtCall);
   (go "gt", ruleGtCall); (go "lte", ruleLteCall); (go "gte", ruleGteCall);
   (go "cond", ruleCondCall); (go "concat", ruleConcatCall);
   (go "coalesce", ruleCoalesceCall); (go "exists", ruleExistsCall);
   (go "len", ruleLenCall); (go "count", ruleCountCall); (go "mean", ruleMeanCall);
   (go "first", ruleFirstCall); (go "last", ruleLastCall);
   (go "timestamp", ruleTimestampCall); (go "now", ruleNowCall)].

Definition retired_call (lower : gostring) : option rule :=
  snd <$> List.find (fun p => lower =s p.1) v1RetiredCalls.

(** parser.go: the construct-kind prefixes of [<kind> <name>(args)]. *)
Definition invocationKindKeywords : list gostring :=
  go <$> ["logic"; "query"; "mutation"; "action"; "capability"; "builtin"; "automation"]%string.

Definition isInvocationKindKeyword (name : gostring) : bool := memS name invocationKindKeywords.

(** v1_body_refusals.go: the construct kinds a statement calls. *)
Definition bodyCallKinds : list gostring :=
  go <$> ["query"; "mutation"; "logic"; "builtin"; "automation"; "action"]%string.

(** callable.go: expression builtins retired under the 2026.08 epoch. *)
Definition retiredExprBuiltins : list gostring :=
  go <$> ["memqlversion"; "year"; "quarter"; "month"; "dayofmonth"; "isanniversary";
          "isfirstdayofquarter"; "subtracttimestamps"]%string.

(** callable.go: accessors of the retired step bodies. *)
Definition retiredBodyAccessors : list gostring :=
  go <$> ["error"; "step"; "input"; "item"; "index"]%string.

Definition isRetiredBodyAccessorCall (lower : gostring) (args : list expr)
    (named : list (gostring * expr)) : bool :=
  if negb (memS lower retiredBodyAccessors) || negb (length named =? 0)%nat then false
  else if lower =s go "step" then
    match args with
    | [LiteralExpr (VString _)] => true
    | _ => false
    end
  else (length args =? 0)%nat.

(** args_block_parser.go: names no args block may declare. *)
Definition reservedArgsNames : list gostring :=
  go <$> ["now"; "actor"; "partition"; "config"; "trace"]%string.

(** ** Errors *)

Inductive parse_what : Type :=
| WTooDeep                        (* v1TooDeep *)
| WChainTooLong                   (* expression_chain_too_long *)
| WRetired (r : rule)
| WExpectedOperand (after : gostring)
| WExpected (what : string)
| WUnexpectedEnd                  (* unexpected token after the expression *)
| WComparisonsDoNotChain (op next : gostring)
| WInvalidNumber
| WCanonicalId (lit : gostring)   (* v1ColonError *)
| WKebab (fix_text : gostring)    (* v1KebabError *)
| WMistake (why : string)         (* v1RefuseMistake *)
| WName (why : string)            (* a name that cannot stand where it does *)
| WCallRefused (why : string)
| WDuplicate (name : gostring)
| WReserved (name : gostring)
| WLambdaExpected
| WFuel.

Record parse_error := mkErr { pe_tok : Token; pe_what : parse_what }.

Definition refuse {A} (tok : Token) (w : parse_what) : result parse_error A := Err (mkErr tok w).

(** v1Retired: the refusal of a retired form, at [tok]. *)
Definition v1Retired {A} (tok : Token) (r : rule) : result parse_error A := refuse tok (WRetired r).

Definition v1ColonError {A} (tok : Token) : result parse_error A :=
  refuse tok (WCanonicalId (TrimPrefix (tLiteral tok) (go "."))).

Definition last_index (s : gostring) (c : rune) : option nat :=
  match span (fun d => negb (d =? c)) (reverse s) with
  | (_, []) => None
  | (after, _ :: before) => Some (length before)
  end.

(** v1KebabFix spells the subtraction a hyphen-glued name most likely meant. *)
Definition v1KebabFix (lit : gostring) : gostring :=
  let pieces := Split lit 45 in
  let first := hd [] pieces in
  let prefix := match last_index first 46 with
                | Some (S i) => take (S (S i)) first
                | _ => []
                end in
  let fix_piece piece :=
    if (prefix =s []) || (piece =s []) || ContainsRune piece 46 || isDigit (hd 0 piece)
    then piece else prefix ++ piece in
  TrimSpace (Join (first :: (fix_piece <$> tail pieces)) (go " - ")).

Definition v1KebabError {A} (tok : Token) : result parse_error A :=
  refuse tok (WKebab (v1KebabFix (tLiteral tok))).

(** ** The token stream

    [p.current] and [p.peekAhead] read the tokens from the cursor on; past the
    end they read the zero token, whose type is end of input. *)

Definition cur (ts : list Token) : Token := nth 0 ts zeroToken.
Definition peekAhead (n : nat) (ts : list Token) : Token := nth n ts zeroToken.
Definition isType (ty : TokenType) (t : Token) : bool := bool_decide (tType t = ty).
Definition check (ty : TokenType) (ts : list Token) : bool := isType ty (cur ts).

(** v1Take returns the token at the cursor and moves past it, but never past
    end of input. *)
Definition v1Take (ts : list Token) : list Token :=
  if check TokenEOF ts then ts else tail ts.

Definition isOp (lit : gostring) (t : Token) : bool :=
  isType TokenOperator t && (tLiteral t =s lit).

(** v1RefuseMistake refuses a token that can never continue an expression. *)
Definition v1RefuseMistake (ts : list Token) : result parse_error unit :=
  let tok := cur ts in
  match tType tok with
  | TokenSemicolon =>
      match tType (peekAhead 1 ts) with
      | TokenEOF | TokenBraceClose | TokenParenClose | TokenBracketClose =>
          refuse tok (WMistake "trailing semicolon")
      | _ => v1Retired tok ruleSemicolonConnective
      end
  | TokenKeywordHas => v1Retired tok ruleHas
  | TokenKeywordNot =>
      match tType (peekAhead 1 ts) with
      | TokenKeywordIn => v1Retired tok ruleNotIn
      | TokenKeywordStartsWith => refuse tok (WMistake "not startsWith")
      | _ => refuse tok (WMistake "not is not an operator")
      end
  | TokenQuestionDot => refuse tok (WMistake "optional access is .?")
  | TokenDot => refuse tok (WMistake "no space around the dot")
  | TokenBracketOpen => refuse tok (WMistake "indexing is not an operator")
  | TokenNumber =>
      if HasPrefix (tLiteral tok) (go "-") then refuse tok (WMistake "second number") else Ok tt
  | TokenOperator =>
      if tLiteral tok =s go "=" then refuse tok (WMistake "= is not a comparison")
      else if tLiteral tok =s go "=>" then refuse tok (WMistake "=> follows parameters")
      else if tLiteral tok =s go "$" then v1Retired tok ruleDollarArgs
      else Ok tt
  | _ => Ok tt
  end.

(** v1Expected refuses the token at the cursor where [what] was required. *)
Definition v1Expected {A} (what : string) (ts : list Token) : result parse_error A :=
  match v1RefuseMistake ts with
  | Err e => Err e
  | Ok _ => refuse (cur ts) (WExpected what)
  end.

(** v1ExpectEnd requires the whole input to have been one expression. *)
Definition v1ExpectEnd (ts : list Token) : result parse_error unit :=
  match tType (cur ts) with
  | TokenEOF => Ok tt
  | TokenComma => v1Retired (cur ts) ruleCommaConnective
  | _ =>
      match v1RefuseMistake ts with
      | Err e => Err e
      | Ok _ => refuse (cur ts) WUnexpectedEnd
      end
  end.

(** v1KeylessEntry judges a map entry with no [key:] after it. *)
Definition v1KeylessEntry (tok : Token) (allowPuns : bool) : result parse_error unit :=
  let lit := tLiteral tok in
  if HasPrefix lit (go ".") then Ok tt
  else if ContainsRune lit 45 then v1KebabError tok
  else if allowPuns && negb (ContainsRune lit 46) then Ok tt
  else v1Retired tok ruleKeylessMapEntry.

(** parser.go checkCallArgName: a repeated or a reserved argument name. *)
Definition checkCallArgName (tok : Token) (argName : gostring) (seen : gset gostring)
    : result parse_error unit :=
  if bool_decide (argName ∈ seen) then refuse tok (WDuplicate argName)
  else if memS argName reservedArgsNames then refuse tok (WReserved argName)
  else Ok tt.

(** ** Lemmas *)

(** Every rule constant has a table row, so the fallback of v1Retired is never
    reached. *)
Lemma v1FormByRule_total r : exists f, v1FormByRule r = Some f /\ rf_Rule f = r.
Proof. destruct r; vm_compute; eauto. Qed.
