(* ===== verification/Parser.v ===== *)
(** The edition-2026 expression grammar: component/language/parser/v1_expr.go,
    with chain_bound.go and core/baseparser/numeric.go.

    Each parse function takes the tokens from the cursor on and returns what it
    read with the tokens left.  The depth counter [p.v1Depth] is restored on
    every return, so it is an argument: what is left of [v1MaxDepth], which is
    also what makes the recursion structural.  The loops inside one level run
    under [loop], whose fuel is the number of tokens left plus one; every
    iteration that continues consumes a token, so the fuel is never what stops
    one (ParserFacts).  A node's source extent is left out with [Span]. *)

From S2P Require Import Prelude GoText Strconv Ast Lexer Refusals.

(** A parsed node and the most chain links on any path under it. *)
Record v1Expr := mkV1 { x_n : expr; x_links : Z }.

Abbreviation parser A := (list Token -> result parse_error (A * list Token)) (only parsing).

Definition v1MaxDepth : nat := 256.
Definition MaxExpressionChain : Z := 4096.

(** ** The published precedence table *)

Record PrecedenceLevel := mkLevel { Level : Z; Operators : list gostring; Assoc : gostring }.

(** Level 1 binds tightest.  The parser does not read the table: one function
    per level encodes it. *)
Definition v1Precedence : list PrecedenceLevel :=
  [mkLevel 1 (go <$> [".f"; ".?f"; "f(...)"; ".m(...)"]%string) (go "left");
   mkLevel 2 (go <$> ["!"; "-"]%string) (go "right");
   mkLevel 3 (go <$> ["*"; "/"; "%"]%string) (go "left");
   mkLevel 4 (go <$> ["+"; "-"]%string) (go "left");
   mkLevel 5 (go <$> ["??"]%string) (go "left");
   mkLevel 6 (go <$> ["=="; "!="; "<"; "<="; ">"; ">="; "in"; "startsWith"]%string) (go "none");
   mkLevel 7 (go <$> ["&&"]%string) (go "left");
   mkLevel 8 (go <$> ["||"]%string) (go "left");
   mkLevel 9 (go <$> ["c ? a : b"]%string) (go "right");
   mkLevel 10 (go <$> ["x => body"; "(x, y) => body"]%string) (go "right")].

Definition V1PrecedenceTable : list PrecedenceLevel := v1Precedence.

(** ** chain_bound.go *)

Definition maxLinks (counts : list Z) : Z := fold_left Z.max counts 0.

Definition v1ChainLink (tok : Token) (operands : list Z) : result parse_error Z :=
  let links := maxLinks operands + 1 in
  if MaxExpressionChain <? links then refuse tok WChainTooLong else Ok links.

(** ** core/baseparser/numeric.go *)

Definition ParseNumericLiteral (lit : gostring) : option literal :=
  match (if ContainsAny lit (go ".eE") then None else ParseInt lit) with
  | Some i => Some (VInt64 i)
  | None => VFloat <$> ParseFloat lit
  end.

(** ** Loops *)

Section Loop.
Context {S A : Type}.

Inductive step_result : Type :=
| Continue (s : S) (ts : list Token)
| Done (a : A) (ts : list Token).

Fixpoint iter (fuel : nat) (step : S -> list Token -> result parse_error step_result)
    (s : S) (ts : list Token) : result parse_error (A * list Token) :=
  match fuel with
  | O => refuse (cur ts) WFuel
  | Datatypes.S f =>
      match step s ts with
      | Err e => Err e
      | Ok (Continue s' ts') => iter f step s' ts'
      | Ok (Done a ts') => Ok (a, ts')
      end
  end.

Definition loop step s ts := iter (Datatypes.S (length ts)) step s ts.
End Loop.
Arguments step_result : clear implicits.

(** ** Tokens and names *)

Definition v1CanStartOperand (tok : Token) : bool :=
  match tType tok with
  | TokenNumber | TokenString | TokenIdentifier | TokenKeywordNil
  | TokenParenOpen | TokenBracketOpen | TokenBraceOpen | TokenBang
  | TokenQuestionDot | TokenKeywordWhen | TokenKeywordNot | TokenKeywordHas => true
  | TokenOperator => (tLiteral tok =s go "-") || (tLiteral tok =s go "$")
  | _ => false
  end.

Definition v1ExpectOperand (after : Token) (ts : list Token) : result parse_error unit :=
  if v1CanStartOperand (cur ts) then Ok tt
  else refuse (cur ts) (WExpectedOperand (tLiteral after)).

Definition v1IsNameToken (tok : Token) : bool :=
  match tType tok with
  | TokenIdentifier
  | TokenKeywordQuery | TokenKeywordMutation | TokenKeywordAutomation
  | TokenKeywordSpec | TokenKeywordTool | TokenKeywordBuiltin
  | TokenKeywordFunc | TokenKeywordFor | TokenKeywordRange | TokenKeywordIf
  | TokenKeywordElse | TokenKeywordSwitch | TokenKeywordCase | TokenKeywordDefault
  | TokenKeywordContinue | TokenKeywordBreak | TokenKeywordReturn | TokenKeywordNil
  | TokenKeywordRetry | TokenKeywordWhen | TokenKeywordAs | TokenKeywordWhere
  | TokenKeywordUse | TokenKeywordImport | TokenKeywordConcept | TokenKeywordIn
  | TokenKeywordHas | TokenKeywordNot | TokenKeywordStartsWith => true
  | _ => false
  end.

Definition v1IsArrow (tok : Token) : bool := isOp (go "=>") tok.

Definition v1IsLambda (n : expr) : bool :=
  match Unparen n with LambdaExpr _ _ => true | _ => false end.

Definition v1StartsPostfix (tok : Token) : bool :=
  isType TokenDotQuestion tok
  || (isType TokenIdentifier tok && HasPrefix (tLiteral tok) (go ".")).

Definition v1ComparisonOp (tok : Token) : option gostring :=
  match tType tok with
  | TokenKeywordIn => Some (go "in")
  | TokenKeywordStartsWith => Some (go "startsWith")
  | TokenOperator => if memS (tLiteral tok) comparisonOps then Some (tLiteral tok) else None
  | _ => None
  end.

Definition v1TokenOp (ty : TokenType) (name : gostring) (tok : Token) : option gostring :=
  if isType ty tok then Some name else None.

Definition v1OperatorIn (ops : list gostring) (tok : Token) : option gostring :=
  if isType TokenOperator tok && memS (tLiteral tok) ops then Some (tLiteral tok) else None.

Definition v1Number (tok : Token) (lit : gostring) : result parse_error literal :=
  match ParseNumericLiteral lit with
  | Some v => Ok v
  | None => refuse tok WInvalidNumber
  end.

(** One segment of a fused dotted identifier, with a token of its own. *)
Record v1Seg := mkSeg { sg_text : gostring; sg_tok : Token }.

Definition seg_token (tok : Token) (off : Z) (part : gostring) : Token :=
  let n := Z.of_nat (length part) in
  mkToken TokenIdentifier part (tPos tok + off) (tLine tok) (tColumn tok + off)
    (tPos tok + off + n) (tLine tok) (tColumn tok + off + n).

Fixpoint path_segments (tok : Token) (off : Z) (parts : list gostring)
    : result parse_error (list v1Seg) :=
  match parts with
  | [] => Ok []
  | part :: parts' =>
      if part =s [] then refuse tok (WName "empty member name")
      else match path_segments tok (off + Z.of_nat (length part) + 1) parts' with
           | Err e => Err e
           | Ok segs => Ok (mkSeg part (seg_token tok off part) :: segs)
           end
  end.

(** v1PathSegments splits an identifier token into its segments, refusing a
    glued ':' or '-' in any of them. *)
Definition v1PathSegments (tok : Token) : result parse_error (list v1Seg) :=
  let lit := tLiteral tok in
  if ContainsRune lit 58 then v1ColonError tok
  else if ContainsRune lit 45 then v1KebabError tok
  else if HasPrefix lit (go ".") then path_segments tok 1 (Split (drop 1 lit) 46)
  else path_segments tok 0 (Split lit 46).

(** v1Binary folds two operands under one operator: one link of a chain. *)
Definition v1Binary (opTok : Token) (op : gostring) (l r : v1Expr) : result parse_error v1Expr :=
  links ← v1ChainLink opTok [x_links l; x_links r];
  Ok (mkV1 (BinaryExpr op (x_n l) (x_n r)) links).

(** v1NegateLiteral folds a unary minus over a non-negative number. *)
Definition v1NegateLiteral (n : expr) : option expr :=
  match n with
  | LiteralExpr (VInt64 v) => if 0 <=? v then Some (LiteralExpr (VInt64 (- v))) else None
  | LiteralExpr (VFloat f) =>
      if f64_leb f64_zero f then Some (LiteralExpr (VFloat (f64_opp f))) else None
  | _ => None
  end.

Definition v1CheckParam (tok : Token) : result parse_error unit :=
  if ContainsAny (tLiteral tok) (go ".:-") then refuse tok (WName "lambda parameter")
  else if memS (tLiteral tok) (go <$> ["true"; "false"; "null"]%string)
       then refuse tok (WName "a value, not a parameter name")
  else Ok tt.

(** The parameter tokens of a parenthesised lambda: [for p.check(identifier)]. *)
Fixpoint lambda_params (ts : list Token) : list Token * list Token :=
  match ts with
  | t :: ts1 =>
      if isType TokenIdentifier t then
        match ts1 with
        | c :: ts2 =>
            if isType TokenComma c
            then let '(ps, r) := lambda_params ts2 in (t :: ps, r)
            else let '(ps, r) := lambda_params ts1 in (t :: ps, r)
        | [] => ([t], [])
        end
      else ([], ts)
  | [] => ([], [])
  end.

Fixpoint check_params (seen : gset gostring) (params : list Token)
    : result parse_error (list gostring) :=
  match params with
  | [] => Ok []
  | tok :: params' =>
      match v1CheckParam tok with
      | Err e => Err e
      | Ok _ =>
          if bool_decide (tLiteral tok ∈ seen) then refuse tok (WDuplicate (tLiteral tok))
          else match check_params ({[tLiteral tok]} ∪ seen) params' with
               | Err e => Err e
               | Ok names => Ok (tLiteral tok :: names)
               end
      end
  end.

(** v1LambdaAhead, from the token after the [(] on. *)
Definition close_then_arrow (ts : list Token) : bool :=
  check TokenParenClose ts && v1IsArrow (peekAhead 1 ts).

Fixpoint lambda_ahead_params (ts : list Token) : bool :=
  match ts with
  | t :: ts1 =>
      if isType TokenIdentifier t then
        match ts1 with
        | c :: ts2 =>
            if isType TokenComma c then
              if check TokenParenClose ts2 then close_then_arrow ts2 else lambda_ahead_params ts2
            else close_then_arrow ts1
        | [] => false
        end
      else false
  | [] => false
  end.

Definition v1LambdaAhead (ts : list Token) : bool :=
  if negb (check TokenParenOpen ts) then false
  else let ts1 := tail ts in
       if check TokenParenClose ts1 then v1IsArrow (peekAhead 1 ts1)
       else lambda_ahead_params ts1.

Section Grammar.
Context `{UnicodeTables}.

(** Whether an [asOf] call is outside a query (p.asOfOutsideQuery). *)
Context (asOfOutside : bool).

Definition v1IsCallableName (name : gostring) : bool :=
  match name with
  | [] => false
  | r :: _ => IsLetter r || (r =? 95)
  end.

(** ** Arguments, brackets and lambdas, over the parser of a nested full
    expression. *)

Section Nested.
Context (ternary : parser v1Expr).

(** An argument as it was written. *)
Inductive argument : Type :=
| ArgNamed (name : gostring) (value : expr) (start : Token)
| ArgPositional (value : expr) (start : Token).

Record args_state := mkArgs {
  as_list : list argument;
  as_seen : gset gostring;
  as_links : Z
}.

(** The separator after an argument: a comma continues, a [)] is left for
    the loop's own test. *)
Definition after_argument (st : args_state) (ts : list Token)
    : result parse_error (step_result args_state args_state) :=
  if check TokenComma ts then Ok (Continue st (v1Take ts))
  else if negb (check TokenParenClose ts) then v1Expected "argument separator" ts
  else Ok (Continue st ts).

Definition args_step (st : args_state) (ts : list Token)
    : result parse_error (step_result args_state args_state) :=
  if check TokenParenClose ts then Ok (Done st ts)
  else if check TokenEOF ts then v1Expected "close of argument list" ts
  else
    let tok := cur ts in
    if v1IsNameToken tok && isType TokenColon (peekAhead 1 ts) then
      if ContainsAny (tLiteral tok) (go ".:") then refuse tok (WName "argument name")
      else
        _ ← checkCallArgName tok (tLiteral tok) (as_seen st);
        let seen := {[tLiteral tok]} ∪ as_seen st in
        let ts1 := v1Take ts in
        let colon := cur ts1 in
        let ts2 := v1Take ts1 in
        _ ← v1ExpectOperand colon ts2;
        '(val, ts3) ← ternary ts2;
        after_argument
          (mkArgs (as_list st ++ [ArgNamed (tLiteral tok) (x_n val) tok]) seen
             (maxLinks [as_links st; x_links val])) ts3
    else if isType TokenString tok && isType TokenColon (peekAhead 1 ts) then
      refuse tok (WName "quoted argument name")
    else
      '(val, ts1) ← ternary ts;
      match x_n val with
      | IdentExpr _ =>
          if isOp (go "=") (cur ts1) then refuse (cur ts1) (WMistake "named argument")
          else after_argument
                 (mkArgs (as_list st ++ [ArgPositional (x_n val) tok]) (as_seen st)
                    (maxLinks [as_links st; x_links val])) ts1
      | _ => after_argument
               (mkArgs (as_list st ++ [ArgPositional (x_n val) tok]) (as_seen st)
                  (maxLinks [as_links st; x_links val])) ts1
      end.

(** A construct call's arguments: all named, a bare name puns. *)
Fixpoint construct_args (l : list argument) (seen : gset gostring)
    : result parse_error (list (gostring * expr)) :=
  match l with
  | [] => Ok []
  | ArgNamed name v _ :: l' =>
      match construct_args l' seen with
      | Err e => Err e
      | Ok named => Ok ((name, v) :: named)
      end
  | ArgPositional (IdentExpr name) start :: l' =>
      match checkCallArgName start name seen with
      | Err e => Err e
      | Ok _ =>
          match construct_args l' ({[name]} ∪ seen) with
          | Err e => Err e
          | Ok named => Ok ((name, IdentExpr name) :: named)
          end
      end
  | ArgPositional _ start :: _ => refuse start (WCallRefused "positional on construct call")
  end.

Definition positional_args (l : list argument) : list expr :=
  omap (fun a => match a with ArgPositional v _ => Some v | ArgNamed _ _ _ => None end) l.

Definition named_args (l : list argument) : list (gostring * expr) :=
  omap (fun a => match a with ArgNamed n v _ => Some (n, v) | ArgPositional _ _ => None end) l.

Definition first_positional (l : list argument) : Token :=
  hd zeroToken
    (omap (fun a => match a with ArgPositional _ t => Some t | ArgNamed _ _ _ => None end) l).

(** The object-literal wrapper: one positional map as the only argument. *)
Definition object_literal_args (l : list argument) : option Token :=
  match l with
  | [ArgPositional (MapExpr _) start] => Some start
  | _ => None
  end.

(** parseV1CallArgs, the cursor on the [(]; [kind] is the construct-call
    prefix and [bare] marks a bare [name(...)]. *)
Definition parseV1CallArgs (kind : gostring) (bare : bool)
    : parser (list expr * list (gostring * expr) * Z) := fun ts =>
  '(st, ts1) ← loop args_step (mkArgs [] ∅ 0) (v1Take ts);
  let l := as_list st in
  let ts2 := v1Take ts1 in
  match (if bare || negb (kind =s []) then object_literal_args l else None) with
  | Some start => refuse start (WCallRefused "object-literal args")
  | None =>
      if negb (kind =s []) then
        named ← construct_args l (as_seen st);
        Ok (([], named, as_links st), ts2)
      else
        let args := positional_args l in
        let named := named_args l in
        if (0 <? length args)%nat && (0 <? length named)%nat
        then refuse (first_positional l) (WCallRefused "mixed arguments")
        else Ok ((args, named, as_links st), ts2)
  end.

Definition parseV1MethodCall (recv : v1Expr) (seg : v1Seg) : parser v1Expr := fun ts =>
  if negb (v1IsCallableName (sg_text seg)) then refuse (sg_tok seg) (WName "method name")
  else if sg_text seg =s go "contains" then v1Retired (sg_tok seg) ruleContainsMethod
  else
    '((args, named, argLinks), ts1) ← parseV1CallArgs [] false ts;
    links ← v1ChainLink (sg_tok seg) [x_links recv; argLinks];
    Ok (mkV1 (CallExpr (x_n recv) (sg_text seg) [] args named) links, ts1).

(** v1MemberChain applies segments as members; a [(] after the last makes it
    a method call. *)
Fixpoint v1MemberChain (base : v1Expr) (segs : list v1Seg) (optionalFirst : bool)
    (ts : list Token) : result parse_error (v1Expr * list Token) :=
  match segs with
  | [] => Ok (base, ts)
  | seg :: segs' =>
      match segs', check TokenParenOpen ts with
      | [], true =>
          if optionalFirst then refuse (sg_tok seg) (WName "optional method")
          else parseV1MethodCall base seg ts
      | _, _ =>
          match v1ChainLink (sg_tok seg) [x_links base] with
          | Err e => Err e
          | Ok links =>
              v1MemberChain
                (mkV1 (MemberExpr (x_n base) (sg_text seg) optionalFirst) links)
                segs' false ts
          end
      end
  end.

Definition postfix_step (base : v1Expr) (ts : list Token)
    : result parse_error (step_result v1Expr v1Expr) :=
  let tok := cur ts in
  if isType TokenIdentifier tok && HasPrefix (tLiteral tok) (go ".") then
    segs ← v1PathSegments tok;
    '(base', ts') ← v1MemberChain base segs false (v1Take ts);
    Ok (Continue base' ts')
  else if isType TokenDotQuestion tok then
    let ts1 := v1Take ts in
    let name := cur ts1 in
    if isType TokenNumber name then refuse name (WName "element read with .?")
    else if negb (v1IsNameToken name) || HasPrefix (tLiteral name) (go ".")
         then refuse name (WExpected "field name")
    else
      segs ← v1PathSegments name;
      '(base', ts') ← v1MemberChain base segs true (v1Take ts1);
      Ok (Continue base' ts')
  else Ok (Done base ts).

Definition parseV1PostfixFrom (base : v1Expr) : parser v1Expr := loop postfix_step base.

(** *** Lambdas and brackets *)

Definition parseV1Lambda : parser v1Expr := fun ts =>
  let '(params, ts1) :=
    if check TokenIdentifier ts then ([cur ts], v1Take ts)
    else let '(ps, r) := lambda_params (v1Take ts) in (ps, v1Take r) in
  let arrow := cur ts1 in
  let ts2 := v1Take ts1 in
  names ← check_params ∅ params;
  _ ← v1ExpectOperand arrow ts2;
  '(body, ts3) ← ternary ts2;
  Ok (mkV1 (LambdaExpr names (x_n body)) (x_links body), ts3).

Definition parseV1Paren : parser v1Expr := fun ts =>
  let opener := cur ts in
  let ts1 := v1Take ts in
  if check TokenParenClose ts1 then refuse (cur ts1) (WExpected "an expression in the group")
  else
    _ ← v1ExpectOperand opener ts1;
    '(inner, ts2) ← ternary ts1;
    if check TokenParenClose ts2 then
      Ok (mkV1 (ParenExpr (x_n inner)) (x_links inner), v1Take ts2)
    else if check TokenComma ts2 then v1Retired (cur ts2) ruleCommaConnective
    else v1Expected "close of group" ts2.

Definition list_step (st : list expr * Z) (ts : list Token)
    : result parse_error (step_result (list expr * Z) (list expr * Z)) :=
  if check TokenBracketClose ts then Ok (Done st ts)
  else if check TokenEOF ts then v1Expected "close of list" ts
  else
    '(el, ts1) ← ternary ts;
    let st' := (st.1 ++ [x_n el], maxLinks [st.2; x_links el]) in
    if check TokenComma ts1 then Ok (Continue st' (v1Take ts1))
    else if negb (check TokenBracketClose ts1) then v1Expected "list separator" ts1
    else Ok (Continue st' ts1).

Definition parseV1List : parser v1Expr := fun ts =>
  '(st, ts1) ← loop list_step ([], 0) (v1Take ts);
  Ok (mkV1 (ListExpr st.1) st.2, v1Take ts1).

Record map_state := mkMap {
  ms_entries : list (gostring * expr);
  ms_seen : gset gostring;
  ms_links : Z
}.

Definition map_key_ok (tok : Token) : result parse_error unit :=
  if isType TokenString tok then refuse tok (WName "quoted map key")
  else if negb (v1IsNameToken tok) then refuse tok (WExpected "map key")
  else if ContainsRune (tLiteral tok) 58 then v1ColonError tok
  else Ok tt.

Definition map_step (allowPuns : bool) (st : map_state) (ts : list Token)
    : result parse_error (step_result map_state map_state) :=
  if check TokenBraceClose ts then Ok (Done st ts)
  else
    let keyTok := cur ts in
    let key := tLiteral keyTok in
    if isType TokenEOF keyTok then v1Expected "close of map" ts
    else
      _ ← map_key_ok keyTok;
      let next := peekAhead 1 ts in
      _ ← (if isType TokenIdentifier keyTok
              && (isType TokenComma next || isType TokenBraceClose next)
           then v1KeylessEntry keyTok allowPuns else Ok tt);
      if ContainsRune key 46 then refuse keyTok (WName "dotted map key")
      else if bool_decide (key ∈ ms_seen st) then refuse keyTok (WDuplicate key)
      else
        let seen := {[key]} ∪ ms_seen st in
        let ts1 := v1Take ts in
        if negb (check TokenColon ts1) then
          if allowPuns && isType TokenIdentifier keyTok && negb (ContainsRune key 45)
             && (check TokenComma ts1 || check TokenBraceClose ts1) then
            let st' := mkMap (ms_entries st ++ [(key, IdentExpr key)]) seen (ms_links st) in
            Ok (Continue st' (if check TokenComma ts1 then v1Take ts1 else ts1))
          else if check TokenComma ts1 || check TokenBraceClose ts1 then
            refuse keyTok (WName "map entry without a value")
          else if isOp (go "=") (cur ts1) then refuse (cur ts1) (WMistake "map entry is key: value")
          else v1Expected "colon after map key" ts1
        else
          let colon := cur ts1 in
          let ts2 := v1Take ts1 in
          _ ← v1ExpectOperand colon ts2;
          '(val, ts3) ← ternary ts2;
          let st' := mkMap (ms_entries st ++ [(key, x_n val)]) seen
                       (maxLinks [ms_links st; x_links val]) in
          if check TokenComma ts3 then Ok (Continue st' (v1Take ts3))
          else if negb (check TokenBraceClose ts3) then v1Expected "map separator" ts3
          else Ok (Continue st' ts3).

Definition parseV1MapWith (allowPuns : bool) : parser v1Expr := fun ts =>
  '(st, ts1) ← loop (map_step allowPuns) (mkMap [] ∅ 0) (v1Take ts);
  Ok (mkV1 (MapExpr (ms_entries st)) (ms_links st), v1Take ts1).

Definition parseV1Map : parser v1Expr := parseV1MapWith false.

(** *** Names and calls *)

Definition parseV1FunctionCall : parser v1Expr := fun ts =>
  let nameTok := cur ts in
  let name := tLiteral nameTok in
  let lower := ToLower name in
  if negb (v1IsCallableName name) then refuse nameTok (WName "function name")
  else match retired_call lower with
  | Some r => v1Retired nameTok r
  | None =>
      if memS name bodyCallKinds then refuse nameTok (WCallRefused "construct kind")
      else if memS lower retiredExprBuiltins then refuse nameTok (WCallRefused "retired builtin")
      else if lower =s go "caller" then refuse nameTok (WCallRefused "caller")
      else if (lower =s go "asof") && asOfOutside then refuse nameTok (WCallRefused "asOf")
      else
        '((args, named, argLinks), ts1) ← parseV1CallArgs [] true (v1Take ts);
        if isRetiredBodyAccessorCall lower args named
        then refuse nameTok (WCallRefused "body accessor")
        else if (lower =s go "contains")
                && match args with [_; a] => negb (v1IsLambda a) | _ => false end
             then v1Retired nameTok ruleContainsCall
        else Ok (mkV1 (CallExpr NilNode name [] args named) argLinks, ts1)
  end.

Definition parseV1ConstructCall : parser v1Expr := fun ts =>
  let kindTok := cur ts in
  let ts1 := v1Take ts in
  let nameTok := cur ts1 in
  if ContainsAny (tLiteral nameTok) (go ".:-") then refuse nameTok (WName "construct name")
  else if negb (isType TokenParenOpen (peekAhead 1 ts1))
       then refuse nameTok (WCallRefused "construct call without arguments")
  else
    '((args, named, argLinks), ts2) ← parseV1CallArgs (tLiteral kindTok) false (v1Take ts1);
    Ok (mkV1 (CallExpr NilNode (tLiteral nameTok) (tLiteral kindTok) args named) argLinks, ts2).

(** The node a name token's first segment stands for. *)
Definition name_root (root : gostring) : expr :=
  if root =s go "true" then LiteralExpr (VBool true)
  else if root =s go "false" then LiteralExpr (VBool false)
  else if root =s go "nil" then NilExpr
  else IdentExpr root.

Definition parseV1Name : parser v1Expr := fun ts =>
  let tok := cur ts in
  if HasPrefix (tLiteral tok) (go ".") then refuse tok (WName "member of nothing")
  else
    segs ← v1PathSegments tok;
    match segs with
    | [] => refuse tok (WName "empty name")
    | root :: segs' =>
        let text := sg_text root in
        if text =s go "null" then v1Retired tok ruleNull
        else
          let next := peekAhead 1 ts in
          let wordThenName :=
            isType TokenIdentifier next && (tLine next =? tLine tok)
            && negb (HasPrefix (tLiteral next) (go ".")) in
          let member := v1MemberChain (mkV1 (name_root text) 0) segs' false (v1Take ts) in
          match segs' with
          | [] =>
              if wordThenName && isInvocationKindKeyword text then parseV1ConstructCall ts
              else if wordThenName && (text =s go "spec") then v1Retired tok ruleSpecReference
              else if wordThenName && (text =s go "trait") then v1Retired tok ruleTraitReference
              else if wordThenName && isType TokenParenOpen (peekAhead 2 ts)
                   then refuse tok (WCallRefused "not a construct kind")
              else if isType TokenParenOpen next
                      && negb (text =s go "true") && negb (text =s go "false")
                   then parseV1FunctionCall ts
              else member
          | _ => member
          end
    end.

Definition parseV1Primary : parser v1Expr := fun ts =>
  let tok := cur ts in
  let other := refuse tok (WExpected "an expression") in
  match tType tok with
  | TokenNumber =>
      v ← v1Number tok (tLiteral tok);
      Ok (mkV1 (LiteralExpr v) 0, v1Take ts)
  | TokenString => Ok (mkV1 (LiteralExpr (VString (tLiteral tok))) 0, v1Take ts)
  | TokenKeywordNil => Ok (mkV1 NilExpr 0, v1Take ts)
  | TokenIdentifier =>
      if v1IsArrow (peekAhead 1 ts) then parseV1Lambda ts else parseV1Name ts
  | TokenParenOpen => if v1LambdaAhead ts then parseV1Lambda ts else parseV1Paren ts
  | TokenBracketOpen => parseV1List ts
  | TokenBraceOpen => parseV1Map ts
  | TokenQuestionDot => v1Retired tok ruleConditionalPrefix
  | TokenKeywordWhen => v1Retired tok ruleWhenGuard
  | TokenKeywordNot => v1Retired tok ruleNotCall
  | TokenKeywordHas => v1Retired tok ruleHas
  | TokenOperator => if tLiteral tok =s go "$" then v1Retired tok ruleDollarArgs else other
  | _ => other
  end.

Definition parseV1Postfix : parser v1Expr := fun ts =>
  '(base, ts1) ← parseV1Primary ts;
  match x_n base with
  | LambdaExpr _ _ => Ok (base, ts1)
  | _ => parseV1PostfixFrom base ts1
  end.

Definition parseV1UngluedNegative : parser v1Expr := fun ts =>
  let tok := cur ts in
  magnitude ← v1Number tok (TrimPrefix (tLiteral tok) (go "-"));
  '(operand, ts1) ← parseV1PostfixFrom (mkV1 (LiteralExpr magnitude) 0) (v1Take ts);
  Ok (mkV1 (UnaryExpr (go "-") (x_n operand)) (x_links operand), ts1).

(** parseV1Unary; [prefixed] is the same function one level deeper. *)
Definition unary_body (prefixed : parser v1Expr) : parser v1Expr := fun ts =>
  let tok := cur ts in
  let isMinus := isOp (go "-") tok in
  if isType TokenBang tok || isMinus then prefixed ts
  else if isType TokenNumber tok && HasPrefix (tLiteral tok) (go "-")
          && v1StartsPostfix (peekAhead 1 ts)
       then parseV1UngluedNegative ts
  else parseV1Postfix ts.

(** The prefix branch of parseV1Unary, the depth already counted. *)
Definition prefix_body (unary : parser v1Expr) : parser v1Expr := fun ts =>
  let tok := cur ts in
  let ts1 := v1Take ts in
  _ ← v1ExpectOperand tok ts1;
  '(operand, ts2) ← unary ts1;
  match (if isOp (go "-") tok then v1NegateLiteral (x_n operand) else None) with
  | Some lit => Ok (mkV1 lit 0, ts2)
  | None => Ok (mkV1 (UnaryExpr (tLiteral tok) (x_n operand)) (x_links operand), ts2)
  end.

(** ** The binary levels, over the parser of the unary level. *)

Section Levels.
Context (unary : parser v1Expr).

Definition left_assoc_step (next : parser v1Expr) (op : Token -> option gostring)
    (lhs : v1Expr) (ts : list Token) : result parse_error (step_result v1Expr v1Expr) :=
  let opTok := cur ts in
  match op opTok with
  | None => Ok (Done lhs ts)
  | Some name =>
      let ts1 := v1Take ts in
      _ ← v1ExpectOperand opTok ts1;
      '(rhs, ts2) ← next ts1;
      lhs' ← v1Binary opTok name lhs rhs;
      Ok (Continue lhs' ts2)
  end.

Definition parseV1LeftAssoc (next : parser v1Expr) (op : Token -> option gostring)
    : parser v1Expr := fun ts =>
  '(lhs, ts1) ← next ts;
  loop (left_assoc_step next op) lhs ts1.

Definition op_mul : Token -> option gostring := v1OperatorIn (go <$> ["*"; "/"; "%"]%string).
Definition op_add : Token -> option gostring := v1OperatorIn (go <$> ["+"; "-"]%string).
Definition op_coalesce : Token -> option gostring :=
  v1TokenOp TokenQuestionQuestion (go "??").
Definition op_and : Token -> option gostring := v1TokenOp TokenAmpAmp (go "&&").
Definition op_or : Token -> option gostring := v1TokenOp TokenPipePipe (go "||").

Definition parseV1Multiplicative : parser v1Expr := parseV1LeftAssoc unary op_mul.
Definition parseV1Additive : parser v1Expr := parseV1LeftAssoc parseV1Multiplicative op_add.
Definition parseV1Coalesce : parser v1Expr := parseV1LeftAssoc parseV1Additive op_coalesce.

Definition parseV1Compare : parser v1Expr := fun ts =>
  '(lhs, ts1) ← parseV1Coalesce ts;
  match v1ComparisonOp (cur ts1) with
  | None => Ok (lhs, ts1)
  | Some op =>
      let opTok := cur ts1 in
      let ts2 := v1Take ts1 in
      _ ← v1ExpectOperand opTok ts2;
      '(rhs, ts3) ← parseV1Coalesce ts2;
      match v1ComparisonOp (cur ts3) with
      | Some next => refuse (cur ts3) (WComparisonsDoNotChain op next)
      | None => e ← v1Binary opTok op lhs rhs; Ok (e, ts3)
      end
  end.

Definition parseV1And : parser v1Expr := parseV1LeftAssoc parseV1Compare op_and.
Definition parseV1Or : parser v1Expr := parseV1LeftAssoc parseV1And op_or.

(** parseV1Ternary, the depth already counted. *)
Definition ternary_body : parser v1Expr := fun ts =>
  '(cond, ts1) ← parseV1Or ts;
  if negb (check TokenQuestion ts1) then Ok (cond, ts1)
  else
    let q := cur ts1 in
    let ts2 := v1Take ts1 in
    _ ← v1ExpectOperand q ts2;
    '(then_, ts3) ← ternary ts2;
    if negb (check TokenColon ts3) then v1Expected "colon of the conditional" ts3
    else
      let colon := cur ts3 in
      let ts4 := v1Take ts3 in
      _ ← v1ExpectOperand colon ts4;
      '(els, ts5) ← ternary ts4;
      Ok (mkV1 (TernaryExpr (x_n cond) (x_n then_) (x_n els))
            (maxLinks [x_links cond; x_links then_; x_links els]), ts5).
End Levels.
End Nested.

Definition too_deep : parser v1Expr := fun ts => refuse (cur ts) WTooDeep.

(** parseV1Ternary and parseV1Unary with [budget] depth increments left. *)
Fixpoint parsers (budget : nat) : (parser v1Expr) * (parser v1Expr) :=
  match budget with
  | O => (too_deep, unary_body too_deep too_deep)
  | S b =>
      let '(ternary_b, unary_b) := parsers b in
      let ternary := ternary_body ternary_b unary_b in
      (ternary, unary_body ternary (prefix_body unary_b))
  end.

Definition parseV1Ternary (budget : nat) : parser v1Expr := (parsers budget).1.
Definition parseV1Unary (budget : nat) : parser v1Expr := (parsers budget).2.

(** parseV1Expression: one expression mid-stream, stopping at the first token
    that cannot extend it. *)
Definition parseV1Expression (budget : nat) : parser expr := fun ts =>
  '(e, ts1) ← parseV1Ternary budget ts;
  _ ← v1RefuseMistake ts1;
  Ok (x_n e, ts1).
End Grammar.

(** ** Entry points *)

Inductive v1_error : Type :=
| VLex (e : lex_error)
| VParse (e : parse_error).

Section Entry.
Context `{UnicodeTables}.

(** newV1Parser and the parse of exactly one expression. *)
Definition parse_whole (src : gostring) : result v1_error (v1Expr * Token) :=
  match Tokenize src with
  | Err e => Err (VLex e)
  | Ok tokens =>
      match ('(e, ts) ← parseV1Ternary false v1MaxDepth tokens; _ ← v1ExpectEnd ts; Ok e) with
      | Err e => Err (VParse e)
      | Ok e => Ok (e, cur tokens)
      end
  end.

Definition ParseV1Expression (src : gostring) : result v1_error expr :=
  '(e, _) ← parse_whole src; Ok (x_n e).

(** ParseV1Lambda: exactly one lambda, not in parentheses. *)
Definition ParseV1Lambda (src : gostring) : result v1_error (list gostring * expr) :=
  '(e, first) ← parse_whole src;
  match x_n e with
  | LambdaExpr ps b => Ok (ps, b)
  | _ => Err (VParse (mkErr first WLambdaExpected))
  end.
End Entry.
