(* ===== verification/Printer.v ===== *)
(** The canonical printer: component/language/ast/v1_format.go.

    The Go functions append to a strings.Builder; here each returns the text it
    appends. *)

From S2P Require Import Prelude GoText Strconv Ast.

(** Precedence levels, loosest first. *)
Definition precLambda : Z := 0.
Definition precTernary : Z := 1.
Definition precOr : Z := 2.
Definition precAnd : Z := 3.
Definition precCompare : Z := 4.
Definition precCoalesce : Z := 5.
Definition precAdditive : Z := 6.
Definition precMultiplicative : Z := 7.
Definition precUnary : Z := 8.
Definition precPostfix : Z := 9.

Definition binaryPrec (op : gostring) : Z :=
  if op =s go "||" then precOr
  else if op =s go "&&" then precAnd
  else if memS op (go <$> ["=="; "!="; "<"; "<="; ">"; ">="; "in"; "startsWith"]%string)
       then precCompare
  else if op =s go "??" then precCoalesce
  else if memS op (go <$> ["+"; "-"]%string) then precAdditive
  else if memS op (go <$> ["*"; "/"; "%"]%string) then precMultiplicative
  else precPostfix.

(** Whether a literal is a number below zero. *)
Definition negative_number (v : literal) : bool :=
  match v with
  | VInt64 z | VInt z => z <? 0
  | VFloat f => f64_ltb f f64_zero
  | _ => false
  end.

(** The level a node binds at when it appears as an operand. *)
Definition nodePrec (n : expr) : Z :=
  match n with
  | LambdaExpr _ _ => precLambda
  | TernaryExpr _ _ _ => precTernary
  | BinaryExpr op _ _ => binaryPrec op
  | UnaryExpr _ _ => precUnary
  | LiteralExpr v => if negative_number v then precUnary else precPostfix
  | _ => precPostfix
  end.

(** ** Literals *)

Definition hex_char (d : Z) : rune := if d <? 10 then 48 + d else 87 + d.

(** The [\u00XX] form of QuoteString: four lowercase hexadecimal digits. *)
Definition hex4 (r : rune) : gostring :=
  [hex_char (Z.land (Z.shiftr r 12) 15); hex_char (Z.land (Z.shiftr r 8) 15);
   hex_char (Z.land (Z.shiftr r 4) 15); hex_char (Z.land r 15)].

Definition quote_rune (r : rune) : gostring :=
  if r =? 34 then [92; 34]
  else if r =? 92 then [92; 92]
  else if r =? 8 then [92; 98]
  else if r =? 12 then [92; 102]
  else if r =? 10 then [92; 110]
  else if r =? 13 then [92; 114]
  else if r =? 9 then [92; 116]
  else if (r <? 32) || (r =? 127) || (r =? 65533) then [92; 117] ++ hex4 r
  else [r].

Definition QuoteString (s : gostring) : gostring :=
  [34] ++ concat (quote_rune <$> s) ++ [34].

Definition FormatLiteral (v : literal) : gostring :=
  match v with
  | VString s => QuoteString s
  | VBool b => if b then go "true" else go "false"
  | VInt z | VInt64 z => FormatInt z
  | VFloat f =>
      let s := FormatFloat f in
      if ContainsAny s (go ".eEn") then s else s ++ go ".0"
  | VNull => go "nil"
  | VOther => go "<?literal>"
  end.

(** ** Expressions *)

Definition comma_sep (parts : list gostring) : gostring := Join parts (go ", ").

Definition parens (s : gostring) : gostring := [40] ++ s ++ [41].

Fixpoint FormatExpr (n : expr) : gostring :=
  let child (c : expr) (min : Z) :=
    if nodePrec c <? min then parens (FormatExpr c) else FormatExpr c in
  match n with
  | NilNode => []
  | IdentExpr name => name
  | MemberExpr o f opt => child o precPostfix ++ (if opt then go ".?" else go ".") ++ f
  | CallExpr recv name kind args named =>
      (if kind =s [] then [] else kind ++ go " ")
      ++ (if is_nil_node recv then [] else child recv precPostfix ++ go ".")
      ++ name
      ++ parens (comma_sep ((FormatExpr <$> args)
                            ++ ((fun kv => kv.1 ++ go ": " ++ FormatExpr kv.2) <$> named)))
  | UnaryExpr op x => op ++ child x precUnary
  | BinaryExpr op l r =>
      let p := binaryPrec op in
      if p =? precCompare then
        child l (precCompare + 1) ++ go " " ++ op ++ go " " ++ child r (precCompare + 1)
      else child l p ++ go " " ++ op ++ go " " ++ child r (p + 1)
  | TernaryExpr c t e =>
      child c (precTernary + 1) ++ go " ? " ++ child t (precTernary + 1)
      ++ go " : " ++ child e precTernary
  | LambdaExpr ps b =>
      match ps with
      | [p] => p
      | _ => parens (comma_sep ps)
      end ++ go " => " ++ FormatExpr b
  | ListExpr es => [91] ++ comma_sep (FormatExpr <$> es) ++ [93]
  | MapExpr es => [123] ++ comma_sep ((fun kv => kv.1 ++ go ": " ++ FormatExpr kv.2) <$> es) ++ [125]
  | ParenExpr i => parens (FormatExpr i)
  | LiteralExpr v => FormatLiteral v
  | NilExpr => go "nil"
  | ForeignNode t => go "<?" ++ t ++ go ">"
  end.

(** formatChild, as its callers see it. *)
Definition formatChild (c : expr) (min : Z) : gostring :=
  if nodePrec c <? min then parens (FormatExpr c) else FormatExpr c.
