(* ===== verification/LexerFacts.v ===== *)
(** Facts about the lexer: every scan consumes a non-empty piece of the input
    and moves the cursor by exactly that piece, the loops never run out of fuel,
    and the tokens tile the input. *)

From S2P Require Import Prelude GoText Lexer.

(** The cursor after reading a piece of source, the way an editor counts: a
    newline starts the next line. *)
Fixpoint walk (c : cursor) (w : gostring) : cursor :=
  match w with
  | [] => c
  | ch :: w' => walk (if ch =? 10 then adv_nl c else adv 1 c) w'
  end.

Definition no_nl (w : gostring) : Prop := Forall (fun ch => ch <> 10) w.

Lemma walk_app c w1 w2 : walk c (w1 ++ w2) = walk (walk c w1) w2.
Proof. revert c. induction w1 as [|ch w1 IH]; intros c; cbn; [done | apply IH]. Qed.

Lemma adv_adv n m c : adv n (adv m c) = adv (m + n) c.
Proof. unfold adv. cbn. f_equal; lia. Qed.

Lemma walk_no_nl c w : no_nl w -> walk c w = adv (Z.of_nat (length w)) c.
Proof.
  intros Hw. revert c. induction Hw as [|ch w Hch _ IH]; intros c.
  - cbn. unfold adv. destruct c. cbn. f_equal; lia.
  - cbn [walk length]. apply Z.eqb_neq in Hch. rewrite Hch, IH, adv_adv. f_equal. lia.
Qed.

Lemma walk_pos c w : c_pos (walk c w) = c_pos c + Z.of_nat (length w).
Proof.
  revert c. induction w as [|ch w IH]; intros c; cbn [walk length]; [lia|].
  rewrite IH. destruct (ch =? 10); cbn; lia.
Qed.

(** What one scan did: the piece of input it read, from [rest] at [c] to [t]
    at [c']. *)
Definition consumed (rest : gostring) (c : cursor) (t : gostring) (c' : cursor) (w : gostring) : Prop :=
  rest = w ++ t /\ c' = walk c w.

Lemma consumed_length rest c t c' w :
  consumed rest c t c' w -> w <> [] -> (length t < length rest)%nat.
Proof. intros [-> _] Hw. rewrite length_app. destruct w; [done|]. cbn. lia. Qed.

Lemma consumed_adv rest c t w n :
  rest = w ++ t -> no_nl w -> n = Z.of_nat (length w) -> consumed rest c t (adv n c) w.
Proof. intros -> Hw ->. split; [done|]. by rewrite walk_no_nl. Qed.

Ltac no_nl_tac := repeat constructor; try lia; try done.

(** ** Strings *)

Lemma hex_digit_nl d h : hex_digit d = Some h -> d <> 10.
Proof. intros Hd ->. by vm_compute in Hd. Qed.

Lemma hex_value_nl ds v r : hex_value ds v = Ok r -> no_nl ds.
Proof.
  revert v. induction ds as [|d ds IH]; intros v; cbn; [intros _; constructor|].
  destruct (hex_digit d) eqn:Hd; [|done]. intros Hr. constructor; [by eapply hex_digit_nl | by eapply IH].
Qed.

Lemma scanHex4_spec s v t : scanHex4 s = Ok (v, t) ->
  exists ds, s = ds ++ t /\ length ds = 4%nat /\ no_nl ds.
Proof.
  unfold scanHex4. destruct (length s <? 4)%nat eqn:Hlen; [done|].
  apply Nat.ltb_ge in Hlen. destruct (hex_value _ _) eqn:Hv; [|done]. intros [= _ <-].
  exists (take 4 s). rewrite take_drop, length_take. repeat split; [lia|].
  by eapply hex_value_nl.
Qed.

Lemma scanUnicodeEscape_spec s r t n : scanUnicodeEscape s = Ok (r, t, n) ->
  exists ds, s = ds ++ t /\ n = Z.of_nat (length ds) /\ no_nl ds.
Proof.
  unfold scanUnicodeEscape. destruct (scanHex4 s) as [[v u]|] eqn:H1; [|done].
  apply scanHex4_spec in H1 as (d1 & -> & L1 & N1).
  destruct (between 0xD800 0xDBFF v).
  - destruct (_ || _) eqn:Hp; [by intros [=]|]. bprop.
    unfold peekAt in *. destruct u as [|u0 [|u1 u]]; cbn [nth] in *; [lia | lia |].
    subst. change (drop 2 (92 :: 117 :: u)) with u.
    destruct (scanHex4 u) as [[low u']|] eqn:H2; [|done].
    apply scanHex4_spec in H2 as (d2 & -> & L2 & N2).
    destruct (_ || _); [by intros [=]|]. intros [= _ <- <-].
    exists (d1 ++ [92; 117] ++ d2). rewrite !length_app, L1, L2. repeat split.
    + by rewrite <- !app_assoc.
    + apply Forall_app_2; [done|]. constructor; [done|]. by constructor.
  - destruct (between 0xDC00 0xDFFF v); [done|]. intros [= _ <- <-]. exists d1. by rewrite L1.
Qed.

Lemma simple_escape_nl r s : simple_escape r = Some s -> r <> 10.
Proof. intros Hr ->. by vm_compute in Hr. Qed.

Lemma scan_string_loop_spec fuel start rest c b ty lit t c' :
  scan_string_loop fuel start rest c b = Ok (ty, lit, t, c') ->
  ty = TokenString /\ exists w, consumed rest c t c' w.
Proof.
  revert rest c b. induction fuel as [|f IH]; intros rest c b; [done|]. cbn.
  destruct rest as [|ch rest]; [done|].
  destruct (ch =? 34) eqn:Hq; bprop; subst.
  { intros [= <- <- <- <-]. split; [done|]. exists [34].
    apply consumed_adv; [done | no_nl_tac | done]. }
  destruct (ch =? 92) eqn:Hb; bprop; subst.
  - destruct rest as [|e rest]; [done|]. destruct (simple_escape e) eqn:He.
    + intros Hr. apply IH in Hr as [-> (w & -> & ->)]. split; [done|].
      exists (92 :: e :: w). split; [done|]. cbn. apply simple_escape_nl in He.
      apply Z.eqb_neq in He. by rewrite He, adv_adv.
    + destruct (e =? 117) eqn:Hu; bprop; [|done]. subst.
      destruct (scanUnicodeEscape rest) as [[[r u] n]|] eqn:Hs; [|done].
      apply scanUnicodeEscape_spec in Hs as (ds & -> & -> & Hds).
      intros Hr. apply IH in Hr as [-> (w & -> & ->)]. split; [done|].
      exists ([92; 117] ++ ds ++ w). split; [by rewrite <- !app_assoc|].
      rewrite !walk_app. cbn [walk Z.eqb Pos.eqb]. rewrite adv_adv.
      rewrite (walk_no_nl _ ds) by done. by rewrite adv_adv.
  - intros Hr. apply IH in Hr as [-> (w & -> & ->)]. split; [done|]. by exists (ch :: w).
Qed.

Lemma scanString_spec rest c ty lit t c' : peek rest = 34 -> 
  scanString rest c = Ok (ty, lit, t, c') ->
  ty = TokenString /\ exists w, w <> [] /\ consumed rest c t c' w.
Proof.
  unfold scanString. destruct rest as [|ch rest]; [done|]. unfold peek, peekAt. cbn [nth tail].
  intros -> Hr. apply scan_string_loop_spec in Hr as [-> (w & -> & ->)]. split; [done|].
  by exists (34 :: w).
Qed.

(** ** Numbers *)

Lemma span_Forall f s : Forall (fun ch => f ch = true) (span f s).1.
Proof.
  induction s as [|ch s IH]; cbn; [constructor|]. destruct (f ch) eqn:Hf; [|constructor].
  destruct (span f s). by constructor.
Qed.

Lemma digits_no_nl s : no_nl (span isDigit s).1.
Proof.
  eapply Forall_impl; [apply span_Forall|]. intros ch Hd ->. by vm_compute in Hd.
Qed.

Lemma span_cut f s a b : span f s = (a, b) -> s = a ++ b /\ Forall (fun ch => f ch = true) a.
Proof.
  intros E. split; [by apply (span_app f)|]. pose proof (span_Forall f s) as Hf. by rewrite E in Hf.
Qed.

Lemma span_digits_cut s a b : span isDigit s = (a, b) -> s = a ++ b /\ no_nl a.
Proof.
  intros E. split; [by apply (span_app isDigit)|]. pose proof (digits_no_nl s) as Hf. by rewrite E in Hf.
Qed.

Lemma number_sign_cut s a b : number_sign s = (a, b) -> s = a ++ b /\ no_nl a.
Proof.
  destruct s as [|ch s]; cbn [number_sign]; [by intros [= <- <-]; split; [|constructor]|].
  destruct (Z.eqb_spec ch 45) as [->|]; intros [= <- <-]; (split; [done|no_nl_tac]).
Qed.

Lemma number_fraction_cut s a b : number_fraction s = (a, b) -> s = a ++ b /\ no_nl a.
Proof.
  destruct s as [|ch s]; cbn [number_fraction]; [by intros [= <- <-]; split; [|constructor]|].
  destruct (ch =? 46) eqn:Hc; cbn [andb]; [|by intros [= <- <-]; split; [|constructor]].
  bprop. subst. destruct (nextIs _ _); [|by intros [= <- <-]; split; [|constructor]].
  destruct (span isDigit s) as [ds u] eqn:Hs. intros [= <- <-].
  apply span_digits_cut in Hs as [-> ?]. split; [done|]. constructor; done.
Qed.

Lemma number_exponent_cut s a b : number_exponent s = (a, b) -> s = a ++ b /\ no_nl a.
Proof.
  destruct s as [|ch s]; cbn [number_exponent]; [by intros [= <- <-]; split; [|constructor]|].
  destruct (_ || _) eqn:Hc; [|by intros [= <- <-]; split; [|constructor]].
  assert (ch <> 10) by (intros ->; done).
  assert (exists sg u, (match s with
           | d :: t' => if (d =? 43) || (d =? 45) then ([d], t') else ([], s)
           | [] => ([], []) end) = (sg, u) /\ s = sg ++ u /\ no_nl sg) as (sg & u & -> & -> & Hsg).
  { destruct s as [|d s]; [by exists [], []; repeat split; constructor|].
    destruct ((d =? 43) || (d =? 45)) eqn:Hd; eexists _, _; (split; [reflexivity|split; [reflexivity|]]); [|constructor].
    constructor; [|constructor]. intros ->. by vm_compute in Hd. }
  destruct (span isDigit u) as [ds v] eqn:Hs. intros [= <- <-].
  apply span_digits_cut in Hs as [-> ?]. split; [cbn; by rewrite <- app_assoc|].
  constructor; [done|]. by apply Forall_app_2.
Qed.

Lemma number_text_cut s a b : number_text s = (a, b) -> s = a ++ b /\ no_nl a.
Proof.
  unfold number_text.
  destruct (number_sign s) as [p0 t0] eqn:E0. apply number_sign_cut in E0 as [-> ?].
  destruct (span isDigit t0) as [p1 t1] eqn:E1. apply span_digits_cut in E1 as [-> ?].
  destruct (number_fraction t1) as [p2 t2] eqn:E2. apply number_fraction_cut in E2 as [-> ?].
  destruct (number_exponent t2) as [p3 t3] eqn:E3. apply number_exponent_cut in E3 as [-> ?].
  intros [= <- <-]. split; [by rewrite <- !app_assoc|]. repeat apply Forall_app_2; done.
Qed.

(** A number starts with a digit, or with a minus and a digit. *)
Lemma number_text_nonempty s a b :
  isDigit (peek s) = true \/ (peek s = 45 /\ nextIs isDigit s = true) ->
  number_text s = (a, b) -> a <> [].
Proof.
  unfold number_text, peek, peekAt. destruct s as [|ch s]; [cbn; intros [?|[? ?]]; done|].
  cbn [nth number_sign]. intros [Hd | [-> Hd]].
  - destruct (Z.eqb_spec ch 45) as [->|_]; [done|]. cbn [span]. rewrite Hd.
    destruct (span isDigit s) as [p1 t1], (number_fraction t1) as [p2 t2],
      (number_exponent t2) as [p3 t3]. by intros [= <- <-].
  - cbn [Z.eqb Pos.eqb]. destruct (span isDigit s) as [p1 t1], (number_fraction t1) as [p2 t2],
      (number_exponent t2) as [p3 t3]. by intros [= <- <-].
Qed.

(** ** Identifiers *)

Section Lexing.
Context `{UnicodeTables}.

Lemma ident_char_nl ch : isIdentifierCharNoColon ch = true -> ch <> 10.
Proof. intros Hc ->. by vm_compute in Hc. Qed.

Lemma ident_loop_cut b rest lit t : ident_loop b rest = (lit, t) ->
  exists w, lit = b ++ w /\ rest = w ++ t /\ no_nl w.
Proof.
  revert b. induction rest as [|ch rest IH]; intros b; cbn [ident_loop].
  { intros [= <- <-]. exists []. rewrite app_nil_r. repeat split; constructor. }
  assert (Hstop : (b, ch :: rest) = (lit, t) ->
    exists w, lit = b ++ w /\ ch :: rest = w ++ t /\ no_nl w).
  { intros [= <- <-]. exists []. rewrite app_nil_r. repeat split; constructor. }
  assert (Hgo : ch <> 10 -> ident_loop (b ++ [ch]) rest = (lit, t) ->
    exists w, lit = b ++ w /\ ch :: rest = w ++ t /\ no_nl w).
  { intros Hch Hr. apply IH in Hr as (w & -> & -> & Hw). exists (ch :: w).
    rewrite <- app_assoc. repeat split. by constructor. }
  destruct (Z.eqb_spec ch 58) as [->|].
  { destruct (nextIs _ _); [|done]. destruct (_ && _); [done|]. by apply Hgo. }
  destruct (Z.eqb_spec ch 46) as [->|]; [destruct (nextIs _ _); [by apply Hgo|done]|].
  destruct (isIdentifierCharNoColon ch) eqn:Hi; [|done]. apply Hgo. by apply ident_char_nl.
Qed.

Lemma keyword_type_class lit :
  keyword_type lit <> TokenEOF /\ keyword_type lit <> TokenString /\ keyword_type lit <> TokenNumber.
Proof.
  unfold keyword_type. destruct (List.find _ _) as [kw|] eqn:Hf; [|done].
  apply find_some in Hf as [Hin _]. cbn [keywords In] in Hin.
  repeat destruct Hin as [<-|Hin]; done.
Qed.

Lemma scanIdentifier_spec rest c ty lit t c' : scanIdentifier rest c = Ok (ty, lit, t, c') ->
  ty <> TokenEOF /\ ty <> TokenString /\ lit <> [] /\ consumed rest c t c' lit.
Proof.
  unfold scanIdentifier. destruct (ident_loop [] rest) as [l u] eqn:Hi.
  apply ident_loop_cut in Hi as (w & -> & -> & Hw). cbn [app] in *.
  destruct w as [|ch w]; [done|]. intros [= <- <- <- <-].
  destruct (keyword_type_class (ch :: w)) as (? & ? & ?). do 3 (split; [done|]). by apply consumed_adv.
Qed.

Lemma scanNumber_spec rest c ty lit t c' : 
  isDigit (peek rest) = true \/ (peek rest = 45 /\ nextIs isDigit rest = true) ->
  scanNumber rest c = (ty, lit, t, c') ->
  ty = TokenNumber /\ lit <> [] /\ consumed rest c t c' lit.
Proof.
  unfold scanNumber. destruct (number_text rest) as [l u] eqn:Hn. intros Hd [= <- <- <- <-].
  split; [done|]. split; [by eapply number_text_nonempty|].
  apply number_text_cut in Hn as [Hr Hl]. by apply consumed_adv.
Qed.

(** ** Comments and whitespace *)

(** What may stand between tokens. *)
Inductive blank : gostring -> Prop :=
| blank_nil : blank []
| blank_space ch g : ch = 32 \/ ch = 9 \/ ch = 13 \/ ch = 10 -> blank g -> blank (ch :: g)
| blank_line text g : no_nl text -> (g = [] \/ peek g = 10) -> blank g ->
    blank ([47; 47] ++ text ++ g)
| blank_block body g : blank g -> blank ([47; 42] ++ body ++ [42; 47] ++ g).

Lemma skipLineComment_spec lx : 
  peek (l_rest lx) = 47 -> nextIs (Z.eqb 47) (l_rest lx) = true ->
  exists text t, no_nl text /\ (t = [] \/ peek t = 10)
    /\ consumed (l_rest lx) (l_cur lx) (l_rest (skipLineComment lx)) (l_cur (skipLineComment lx))
         ([47; 47] ++ text)
    /\ l_rest (skipLineComment lx) = t.
Proof.
  destruct lx as [rest c docs line marks]. unfold skipLineComment, peek, peekAt.
  cbn [l_rest l_cur l_lastTokenLine nextIs].
  destruct rest as [|ch [|d rest]]; [done | done |]. cbn [nth nextIs].
  intros -> Hd. apply Z.eqb_eq in Hd as <-.
  destruct (span (fun r => negb (r =? 10)) rest) as [text t] eqn:Hs.
  assert (Hs2 : span (fun r => negb (r =? 10)) (47 :: 47 :: rest) = ([47; 47] ++ text, t))
    by (cbn; by rewrite Hs).
  rewrite Hs2. pose proof (span_cut _ _ _ _ Hs) as [-> Htext].
  assert (Hnl : no_nl text) by (eapply Forall_impl; [exact Htext|]; intros r Hr; cbn in Hr; bprop; done).
  assert (Hcons : forall docs' line' marks', let lx' := mkLexer t (adv (Z.of_nat (length ([47; 47] ++ text))) c) docs' line' marks' in
    consumed (47 :: 47 :: text ++ t) c (l_rest lx') (l_cur lx') ([47; 47] ++ text)).
  { intros. apply consumed_adv; [done| |done]. by repeat constructor. }
  exists text, t. split; [done|]. split.
  { clear -Hs Htext. induction text as [|a text IH]; cbn in Hs.
    - destruct t as [|b t]; [by left | right]. cbn in Hs. cbn.
      destruct (Z.eqb_spec b 10); [done|]. cbn in Hs. destruct (span _ t). done.
    - apply Forall_cons in Htext as [Ha Htext]. rewrite Ha in Hs.
      destruct (span _ _) as [x y] eqn:E. injection Hs as -> ->. by apply IH. }
  destruct (c_line c =? line); [split; [apply Hcons|done]|].
  destruct (_ && _); (split; [apply Hcons|done]).
Qed.

Lemma block_comment_end_spec rest c t c' : block_comment_end rest c = Some (t, c') ->
  exists body, consumed rest c t c' (body ++ [42; 47]).
Proof.
  revert c. induction rest as [|ch rest IH]; intros c; cbn [block_comment_end]; [done|].
  destruct (_ && _) eqn:Hs.
  - bprop. destruct rest as [|d rest]; [done|]. cbn [nextIs tail] in *. bprop. subst.
    intros [= <- <-]. exists []. by apply consumed_adv; [| repeat constructor|].
  - intros Hr. apply IH in Hr as (body & -> & ->). exists (ch :: body). by split.
Qed.

Lemma skipBlockComment_spec lx lx' :
  peek (l_rest lx) = 47 -> nextIs (Z.eqb 42) (l_rest lx) = true ->
  skipBlockComment lx = Ok lx' ->
  exists body, consumed (l_rest lx) (l_cur lx) (l_rest lx') (l_cur lx')
                 ([47; 42] ++ body ++ [42; 47]).
Proof.
  destruct lx as [rest c docs line marks]. unfold skipBlockComment, peek, peekAt.
  cbn [l_rest l_cur l_lastTokenLine nextIs].
  destruct rest as [|ch [|d rest]]; [done | done |]. cbn [nth nextIs].
  intros -> Hd. apply Z.eqb_eq in Hd as <-. change (drop 2 (47 :: 42 :: rest)) with rest.
  destruct (block_comment_end rest (adv 2 c)) as [[t c1]|] eqn:Hb; [|done].
  apply block_comment_end_spec in Hb as (body & -> & ->).
  intros Hlx. exists body.
  assert (l_rest lx' = t /\ l_cur lx' = walk (adv 2 c) (body ++ [42; 47])) as [-> ->].
  { destruct (c_line c =? line); by injection Hlx as <-. }
  split; [by rewrite <- !app_assoc|]. rewrite !walk_app. cbn [walk Z.eqb Pos.eqb].
  by rewrite !adv_adv.
Qed.

(** One round of [skipWhitespace], either left where it is or past a piece of
    blank text. *)
Lemma skipWhitespace_spec fuel lx lx' : skipWhitespace fuel lx = Ok lx' ->
  exists g, blank g /\ consumed (l_rest lx) (l_cur lx) (l_rest lx') (l_cur lx') g.
Proof.
  revert lx. induction fuel as [|f IH]; intros lx; [done|]. cbn [skipWhitespace].
  destruct (l_rest lx) as [|ch t] eqn:Hrest.
  { intros [= <-]. exists []. split; [constructor|]. by rewrite Hrest. }
  destruct (_ || _) eqn:Hsp.
  { intros Hr. apply IH in Hr as (g & Hg & Hc). exists (ch :: g).
    rewrite !orb_true_iff, !Z.eqb_eq in Hsp. split; [apply blank_space; [tauto|done]|]. destruct Hc as [Ht Hcur]. cbn in Ht, Hcur.
    split; [by rewrite Ht|]. rewrite Hcur. cbn [walk]. destruct (Z.eqb_spec ch 10); [lia|done]. }
  destruct (Z.eqb_spec ch 10) as [->|Hnl].
  { intros Hr. apply IH in Hr as (g & Hg & Hc). exists (10 :: g).
    split; [apply blank_space; [tauto|done]|]. destruct Hc as [Ht Hcur]. cbn in Ht, Hcur.
    split; [by rewrite Ht|]. by rewrite Hcur. }
  destruct ((ch =? 47) && nextIs (Z.eqb 47) (ch :: t)) eqn:Hl.
  { bprop. subst ch. intros Hr. apply IH in Hr as (g & Hg & Hgt & Hgc).
    destruct (skipLineComment_spec lx) as (text & u & Htext & Hu & [Ht Hc] & Hrest');
      [by rewrite Hrest | by rewrite Hrest|].
    rewrite Hrest' in *. rewrite Hrest in Ht.
    exists ([47; 47] ++ text ++ g). split.
    - apply blank_line; [done| |done]. destruct g as [|a g]; [by left|right].
      destruct Hu as [->|Hu]; [done|]. by subst u.
    - rewrite Ht. subst u. split; [by rewrite <- !app_assoc|].
      rewrite app_assoc, walk_app, <- Hc. done. }
  destruct ((ch =? 47) && nextIs (Z.eqb 42) (ch :: t)) eqn:Hb.
  { bprop. subst ch. intros Hr. apply result_bind_ok in Hr as (lx1 & Hskip & Hr).
    apply IH in Hr as (g & Hg & Hgt & Hgc).
    apply skipBlockComment_spec in Hskip as (body & Ht & Hc); [|by rewrite Hrest..].
    rewrite Hrest in Ht. exists ([47; 42] ++ body ++ [42; 47] ++ g). split; [by apply blank_block|].
    split; [rewrite Ht, Hgt; by rewrite <- !app_assoc|].
    rewrite Hgc, Hc, <- walk_app. by rewrite <- !app_assoc. }
  intros [= <-]. exists []. split; [constructor|]. by rewrite Hrest.
Qed.

(** The fuel of [skipWhitespace] is enough when it exceeds the text left. *)
Lemma skipWhitespace_fuel fuel lx : (length (l_rest lx) < fuel)%nat ->
  skipWhitespace fuel lx <> Err LexFuel.
Proof.
  revert lx. induction fuel as [|f IH]; intros lx Hf; [lia|]. cbn [skipWhitespace].
  destruct (l_rest lx) as [|ch t] eqn:Hrest; [done|]. cbn in Hf.
  destruct (_ || _) eqn:Hsp; [apply IH; cbn; lia|].
  destruct (ch =? 10); [apply IH; cbn; lia|].
  destruct ((ch =? 47) && nextIs (Z.eqb 47) (ch :: t)) eqn:Hl.
  { bprop. subst ch. apply IH.
    destruct (skipLineComment_spec lx) as (text & u & _ & _ & Hc & _);
      [by rewrite Hrest | by rewrite Hrest|].
    apply consumed_length in Hc; [|done]. rewrite Hrest in Hc. cbn in Hc. lia. }
  destruct ((ch =? 47) && nextIs (Z.eqb 42) (ch :: t)) eqn:Hb; [|done].
  bprop. subst ch. destruct (skipBlockComment lx) as [lx1|e] eqn:Hskip.
  - apply IH. apply skipBlockComment_spec in Hskip as (body & Hc); [|by rewrite Hrest..].
    apply consumed_length in Hc; [|done]. rewrite Hrest in Hc. cbn in Hc. lia.
  - unfold skipBlockComment in Hskip. destruct (block_comment_end _ _) as [[? ?]|]; [done|].
    injection Hskip as <-. done.
Qed.

(** Enough text past the blank: it never runs out. *)
Lemma scan_string_loop_fuel fuel start rest c b : (length rest < fuel)%nat ->
  scan_string_loop fuel start rest c b <> Err LexFuel.
Proof.
  revert rest c b. induction fuel as [|f IH]; intros rest c b Hf; [lia|]. cbn.
  destruct rest as [|ch rest]; [done|]. cbn in Hf.
  destruct (ch =? 34); [done|]. destruct (ch =? 92); [|apply IH; lia].
  destruct rest as [|e rest]; [done|]. cbn in Hf. destruct (simple_escape e); [apply IH; lia|].
  destruct (e =? 117); [|done]. destruct (scanUnicodeEscape rest) as [[[r u] n]|] eqn:Hs; [|done].
  apply scanUnicodeEscape_spec in Hs as (ds & -> & _). rewrite length_app in Hf.
  apply IH. lia.
Qed.

(** ** Tokens *)

(** A scan of the text at [lx]: a non-empty piece, of a type that is not the
    end of input; the literal is the piece itself except for a string. *)
Definition scans (rest : gostring) (c : cursor) (s : scanned) : Prop :=
  let '(ty, lit, t, c') := s in
  ty <> TokenEOF /\ exists w, w <> [] /\ consumed rest c t c' w /\ (ty <> TokenString -> lit = w).

Lemma scans_one ch t c ty : ch <> 10 -> ty <> TokenEOF ->
  scans (ch :: t) c (tok1 ty [ch] (ch :: t) c).
Proof.
  intros Hch Hty. split; [done|]. exists [ch]. split; [done|]. split; [|done].
  apply consumed_adv; [done | by repeat constructor | done].
Qed.

Lemma scans_two ch d t c ty : ch <> 10 -> d <> 10 -> ty <> TokenEOF ->
  scans (ch :: d :: t) c (tok2 ty [ch; d] (ch :: d :: t) c).
Proof.
  intros Hch Hd Hty. split; [done|]. exists [ch; d]. split; [done|]. split; [|done].
  apply consumed_adv; [done | by repeat constructor | done].
Qed.

Lemma scans_ident rest c s : scanIdentifier rest c = Ok s -> scans rest c s.
Proof.
  destruct s as [[[ty lit] t] c']. intros Hs.
  apply scanIdentifier_spec in Hs as (H1 & H2 & H3 & H4). split; [done|]. by exists lit.
Qed.

Lemma scans_number rest c :
  isDigit (peek rest) = true \/ (peek rest = 45 /\ nextIs isDigit rest = true) ->
  scans rest c (scanNumber rest c).
Proof.
  intros Hd. destruct (scanNumber rest c) as [[[ty lit] t] c'] eqn:Hs.
  apply scanNumber_spec in Hs as (-> & H2 & H3); [|done]. split; [done|]. by exists lit.
Qed.

Lemma scans_string rest c s : peek rest = 34 -> scanString rest c = Ok s -> scans rest c s.
Proof.
  destruct s as [[[ty lit] t] c']. intros Hp Hs.
  apply scanString_spec in Hs as (-> & w & Hw & Hc); [|done]. split; [done|]. by exists w.
Qed.

Lemma scans_not_equals t c : scans (33 :: t) c (scanNotEquals (33 :: t) c).
Proof.
  unfold scanNotEquals. cbn [tail]. destruct t as [|ch t]; [by apply scans_one|].
  destruct (Z.eqb_spec ch 61) as [->|]; [by apply scans_two | by apply scans_one].
Qed.

Lemma scans_operator t c : scans (61 :: t) c (scanOperator (61 :: t) c).
Proof.
  unfold scanOperator. cbn [tail]. destruct t as [|ch t]; [by apply scans_one|].
  destruct (Z.eqb_spec ch 61) as [->|]; [by apply scans_two|].
  destruct (Z.eqb_spec ch 62) as [->|]; [by apply scans_two | by apply scans_one].
Qed.

(** What the switch of NextToken may answer. *)
Definition scan_token_ok (lx : lexer) (r : result lex_error scan_step) : Prop :=
  match r with
  | Ok (ScanToken s) => scans (l_rest lx) (l_cur lx) s
  | Ok (ScanAgain lx') => exists g, blank g /\ g <> [] /\
      consumed (l_rest lx) (l_cur lx) (l_rest lx') (l_cur lx') g
  | Err e => e <> LexFuel
  end.

Lemma scan_token_ok_two lx ch t k ty els : 
  l_rest lx = ch :: t -> ch <> 10 -> k <> 10 -> ty <> TokenEOF ->
  scan_token_ok lx els ->
  scan_token_ok lx (if nextIs (Z.eqb k) (ch :: t)
                    then Ok (ScanToken (tok2 ty [ch; k] (ch :: t) (l_cur lx))) else els).
Proof.
  intros Hr Hch Hk Hty Hels. destruct (nextIs _ _) eqn:Hn; [|done].
  destruct t as [|d t]; [done|]. cbn [nextIs] in Hn. apply Z.eqb_eq in Hn as <-.
  cbn. rewrite Hr. by apply scans_two.
Qed.

Lemma scan_token_ok_one lx ch t ty : 
  l_rest lx = ch :: t -> ch <> 10 -> ty <> TokenEOF ->
  scan_token_ok lx (Ok (ScanToken (tok1 ty [ch] (ch :: t) (l_cur lx)))).
Proof. intros Hr Hch Hty. cbn. rewrite Hr. by apply scans_one. Qed.

Lemma scan_token_ok_ident lx :
  scan_token_ok lx (s ← scanIdentifier (l_rest lx) (l_cur lx); Ok (ScanToken s)).
Proof.
  destruct (scanIdentifier _ _) as [s|e] eqn:Hs; cbn; [by apply scans_ident|].
  unfold scanIdentifier in Hs. destruct (ident_loop _ _) as [[|? ?] ?]; by inversion Hs.
Qed.

Lemma scan_token_ok_string lx : peek (l_rest lx) = 34 ->
  scan_token_ok lx (s ← scanString (l_rest lx) (l_cur lx); Ok (ScanToken s)).
Proof.
  intros Hp. destruct (scanString _ _) as [s|e] eqn:Hs; cbn; [by apply scans_string|].
  intros ->. revert Hs. unfold scanString. destruct (l_rest lx) as [|ch t]; [done|].
  apply scan_string_loop_fuel. cbn. lia.
Qed.

Lemma scan_token_ok_line lx : 
  peek (l_rest lx) = 47 -> nextIs (Z.eqb 47) (l_rest lx) = true ->
  scan_token_ok lx (Ok (ScanAgain (skipLineComment lx))).
Proof.
  intros Hp Hn. destruct (skipLineComment_spec lx Hp Hn) as (text & u & Htext & _ & Hc & _).
  exists ([47; 47] ++ text). split; [|by split]. rewrite <- (app_nil_r text).
  apply blank_line; [done | by left | constructor].
Qed.

Lemma scan_token_ok_block lx : 
  peek (l_rest lx) = 47 -> nextIs (Z.eqb 42) (l_rest lx) = true ->
  scan_token_ok lx (lx' ← skipBlockComment lx; Ok (ScanAgain lx')).
Proof.
  intros Hp Hn. destruct (skipBlockComment lx) as [lx'|e] eqn:Hs; cbn.
  - apply skipBlockComment_spec in Hs as (body & Hc); [|done..].
    exists ([47; 42] ++ body ++ [42; 47]). split; [|by split].
    apply (blank_block body []). constructor.
  - unfold skipBlockComment in Hs. destruct (block_comment_end _ _) as [[? ?]|]; [done|].
    by injection Hs as <-.
Qed.

Lemma scan_token_spec lx : l_rest lx <> [] -> scan_token_ok lx (scan_token lx).
Proof.
  intros Hne. destruct (l_rest lx) as [|ch t] eqn:Hr; [done|]. unfold scan_token, scan_token_tail.
  rewrite Hr. change (peek (ch :: t)) with ch.
  repeat match goal with
  | |- scan_token_ok _ (if ch =? ?k then _ else _) =>
      destruct (Z.eqb_spec ch k) as [->|?];
      [try solve [ repeat (apply (scan_token_ok_two _ _ _ _ _ _ Hr); [done..|]);
                   first [by apply (scan_token_ok_one _ _ _ _ Hr) | done] ] | ]
  end.
  - apply (scan_token_ok_two _ _ _ _ _ _ Hr); [done..|]. destruct (nextIs isDigit _); [done|].
    destruct (nextIs _ _); [rewrite <- Hr; apply scan_token_ok_ident|].
    by apply (scan_token_ok_one _ _ _ _ Hr).
  - rewrite <- Hr. apply scan_token_ok_string. by rewrite Hr.
  - cbn. rewrite Hr. apply scans_not_equals.
  - cbn. rewrite Hr. apply scans_operator.
  - destruct (nextIs _ _) eqn:Hn; [|by apply (scan_token_ok_one _ _ _ _ Hr)].
    cbn. rewrite Hr. apply scans_number. by right.
  - destruct (nextIs (Z.eqb 47) _) eqn:Hn; [apply scan_token_ok_line; by rewrite Hr|].
    destruct (nextIs (Z.eqb 42) _) eqn:Hb; [apply scan_token_ok_block; by rewrite Hr|].
    by apply (scan_token_ok_one _ _ _ _ Hr).
  - destruct (isDigit ch) eqn:Hd; [cbn; rewrite Hr; apply scans_number; by left|].
    rewrite <- Hr. apply scan_token_ok_ident.
Qed.

(** Where [skipWhitespace] stops: at a token, or at the end. *)
Definition at_token (rest : gostring) : Prop :=
  match rest with
  | [] => True
  | ch :: _ => ((ch =? 47) && (nextIs (Z.eqb 47) rest || nextIs (Z.eqb 42) rest)) = false
  end.

Lemma skipWhitespace_stops fuel lx lx' : skipWhitespace fuel lx = Ok lx' -> at_token (l_rest lx').
Proof.
  revert lx. induction fuel as [|f IH]; intros lx; [done|]. cbn [skipWhitespace].
  destruct (l_rest lx) as [|ch t] eqn:Hrest; [intros [= <-]; by rewrite Hrest|].
  destruct (_ || _); [apply IH|]. destruct (ch =? 10); [apply IH|].
  destruct (_ && nextIs (Z.eqb 47) _) eqn:H1; [apply IH|].
  destruct (_ && nextIs (Z.eqb 42) _) eqn:H2.
  { intros Hr. apply result_bind_ok in Hr as (? & _ & ?). eauto. }
  intros [= <-]. rewrite Hrest. cbn [at_token]. by rewrite andb_orb_distrib_r, H1, H2.
Qed.

(** The comment branch of the switch is not reached: the blank before the
    token has already taken every comment. *)
Lemma scan_token_not_again lx lx' : at_token (l_rest lx) -> scan_token lx <> Ok (ScanAgain lx').
Proof.
  unfold scan_token, scan_token_tail. destruct (l_rest lx) as [|ch t]; [done|]. cbn [at_token].
  intros Hat. change (peek (ch :: t)) with ch.
  repeat match goal with
  | |- (if ch =? 47 then _ else _) <> _ => fail 1
  | |- (if ch =? ?k then _ else _) <> _ => destruct (ch =? k)
  | |- (if nextIs ?f ?r then _ else _) <> _ => destruct (nextIs f r)
  end; try done; try (by destruct (scanIdentifier _ _)); try (by destruct (scanString _ _)).
  destruct (ch =? 47).
  { apply orb_false_iff in Hat as [-> ->]. done. }
  repeat match goal with |- (if ?b then _ else _) <> _ => destruct b end; try done.
  by destruct (scanIdentifier _ _).
Qed.

(** ** NextToken *)

Lemma NextToken_fuel fuel lx : (0 < fuel)%nat -> NextToken fuel lx <> Err LexFuel.
Proof.
  intros Hf. destruct fuel as [|f]; [lia|]. cbn [NextToken].
  destruct (skipWhitespace _ lx) as [lx1|e] eqn:Hw; cbn [mbind result_bind].
  2:{ intros [= ->]. revert Hw. apply skipWhitespace_fuel. lia. }
  destruct (l_rest lx1) as [|ch t] eqn:Hr; [done|].
  apply skipWhitespace_stops in Hw.
  pose proof (scan_token_spec lx1 ltac:(by rewrite Hr)) as Hok.
  destruct (scan_token lx1) as [[[[[ty lit] t'] c]|lx2]|e] eqn:Hs; cbn [mbind result_bind].
  - done.
  - by apply scan_token_not_again in Hs.
  - intros [= ->]. done.
Qed.

(** The token [tok] was read from [w] at [c1]. *)
Definition token_at (c1 : cursor) (w : gostring) (tok : Token) : Prop :=
  tType tok <> TokenEOF /\ w <> [] /\ (tType tok <> TokenString -> tLiteral tok = w)
  /\ tPos tok = c_pos c1 /\ tLine tok = c_line c1 /\ tColumn tok = c_col c1.

Lemma NextToken_spec fuel lx tok lx' : NextToken fuel lx = Ok (tok, lx') ->
  exists g, blank g /\
    ((l_rest lx = g /\ l_rest lx' = [] /\ l_cur lx' = walk (l_cur lx) g
      /\ tok = makeToken (walk (l_cur lx) g) TokenEOF [])
     \/ exists w, token_at (walk (l_cur lx) g) w tok
        /\ l_rest lx = g ++ w ++ l_rest lx' /\ l_cur lx' = walk (walk (l_cur lx) g) w).
Proof.
  destruct fuel as [|f]; [done|]. cbn [NextToken]. intros Hn.
  apply result_bind_ok in Hn as (lx1 & Hw & Hn). pose proof (skipWhitespace_stops _ _ _ Hw) as Hat.
  apply skipWhitespace_spec in Hw as (g & Hg & Ht & Hc). exists g. split; [done|].
  destruct (l_rest lx1) as [|ch t] eqn:Hr.
  { left. injection Hn as <- <-. rewrite app_nil_r in Ht. by rewrite Hr, Hc. }
  right. apply result_bind_ok in Hn as (step & Hs & Hn).
  pose proof (scan_token_spec lx1 ltac:(by rewrite Hr)) as Hok. rewrite Hs in Hok.
  destruct step as [[[[ty lit] t'] c]|lx2]; [|apply scan_token_not_again in Hs; [done|by rewrite Hr]].
  injection Hn as <- <-. destruct Hok as (Hty & w & Hne & [Hcut Hcur] & Hlit).
  exists w. rewrite Hc in *. split; [by repeat split|]. split; [by rewrite Ht, <- Hr, Hcut | done].
Qed.

(** ** Tokenize *)

(** [lexes c rest toks]: [toks] read from [rest] with the cursor at [c].  The
    blanks and the tokens' texts tile the input, each token carries the
    position its text starts and ends at, and its literal is its text, except
    for a string, whose literal is the decoded value. *)
Inductive lexes : cursor -> gostring -> list Token -> Prop :=
| lexes_eof c g : blank g ->
    let c1 := walk c g in
    lexes c g [mkToken TokenEOF [] (c_pos c1) (c_line c1) (c_col c1) (c_pos c1) (c_line c1) (c_col c1)]
| lexes_token c g w rest tok toks : 
    let c1 := walk c g in
    let c2 := walk c1 w in
    blank g -> token_at c1 w tok ->
    tEndPos tok = c_pos c2 -> tEndLine tok = c_line c2 -> tEndCol tok = c_col c2 ->
    lexes c2 rest toks ->
    lexes c (g ++ w ++ rest) (tok :: toks).

Lemma tokenize_loop_fuel fuel lx : (length (l_rest lx) < fuel)%nat ->
  tokenize_loop fuel lx <> Err LexFuel.
Proof.
  revert lx. induction fuel as [|f IH]; intros lx Hf; [lia|]. cbn [tokenize_loop].
  destruct (NextToken _ lx) as [[tok lx']|e] eqn:Hn; cbn [mbind result_bind].
  2:{ intros [= ->]. revert Hn. apply NextToken_fuel. lia. }
  apply NextToken_spec in Hn as (g & _ & [(_ & _ & _ & ->)|(w & Hw & Hrest & _)]); [done|].
  destruct Hw as (Hty & Hne & _).
  assert (Hshort : (length (l_rest lx') < f)%nat).
  { rewrite Hrest, !length_app in Hf. destruct w; [done|]. cbn in Hf. lia. }
  specialize (IH (after_token (stamp_end tok lx') lx') Hshort).
  assert (Hne' : tType (stamp_end tok lx') <> TokenEOF) by (unfold stamp_end; by destruct (tType tok)).
  destruct (tType (stamp_end tok lx')); try done;
    destruct (tokenize_loop f _) as [[? ?]|e']; cbn; congruence.
Qed.

Lemma stamp_end_type tok lx : tType (stamp_end tok lx) = tType tok.
Proof. unfold stamp_end. by destruct (tType tok) eqn:E; cbn; rewrite ?E. Qed.

Lemma tokenize_loop_lexes fuel lx toks lx' : tokenize_loop fuel lx = Ok (toks, lx') ->
  lexes (l_cur lx) (l_rest lx) toks.
Proof.
  revert lx toks lx'. induction fuel as [|f IH]; intros lx toks lx'; [done|]. cbn [tokenize_loop].
  intros Ht. apply result_bind_ok in Ht as ([tok lx1] & Hn & Ht).
  rewrite stamp_end_type in Ht.
  apply NextToken_spec in Hn as (g & Hg & [(-> & _ & Hc & ->)|(w & Hw & Hrest & Hc)]).
  { cbn in Ht. injection Ht as <- _. cbn. by apply lexes_eof. }
  assert (exists toks' lx2, tokenize_loop f (after_token (stamp_end tok lx1) lx1) = Ok (toks', lx2)
            /\ toks = stamp_end tok lx1 :: toks') as (toks' & lx2 & Hl & ->).
  { destruct Hw as (Hty & _). destruct (tType tok); try done;
      apply result_bind_ok in Ht as ([toks' lx2] & Hl & Ht); injection Ht as <- _; by eauto. }
  apply IH in Hl. cbn [after_token l_cur l_rest] in Hl. rewrite Hrest. rewrite Hc in Hl.
  assert (Hst : stamp_end tok lx1 = mkToken (tType tok) (tLiteral tok) (tPos tok) (tLine tok)
            (tColumn tok) (c_pos (l_cur lx1)) (c_line (l_cur lx1)) (c_col (l_cur lx1))).
  { unfold stamp_end. destruct Hw as (Hty & _). by destruct (tType tok). }
  rewrite Hst. rewrite Hc. by apply lexes_token.
Qed.

Lemma Tokenize_lexes input toks : Tokenize input = Ok toks -> lexes (Cursor 0 1 1) input toks.
Proof.
  unfold Tokenize, TokenizeWithDocs. destruct (tokenize_loop _ _) as [[ts lx]|] eqn:Ht; [|done].
  intros [= <-]. by apply tokenize_loop_lexes in Ht.
Qed.

Lemma Tokenize_no_fuel input : Tokenize input <> Err LexFuel.
Proof.
  unfold Tokenize, TokenizeWithDocs.
  pose proof (tokenize_loop_fuel (S (length input)) (NewLexer input)) as Hf.
  destruct (tokenize_loop _ _) as [[ts lx]|]; cbn; [done|]. intros [= ->]. apply Hf; cbn; [lia|done].
Qed.

(** ** What a token of the lexer looks like *)

(** [t]'s type and literal come from one scan. *)
Definition lexed (t : Token) : Prop :=
  tType t = TokenEOF \/
  exists lx rest c, l_rest lx <> [] /\ scan_token lx = Ok (ScanToken (tType t, tLiteral t, rest, c)).

Lemma NextToken_lexed fuel lx tok lx' : NextToken fuel lx = Ok (tok, lx') -> lexed tok.
Proof.
  revert lx. induction fuel as [|f IH]; intros lx; [done|]. cbn [NextToken]. intros Hn.
  apply result_bind_ok in Hn as (lx1 & _ & Hn).
  destruct (l_rest lx1) as [|ch t] eqn:Hr; [injection Hn as <- _; by left|].
  apply result_bind_ok in Hn as (step & Hs & Hn).
  destruct step as [[[[ty lit] t'] c]|lx2]; [|by eapply IH].
  injection Hn as <- _. right. exists lx1, t', c. split; [by rewrite Hr|done].
Qed.

Lemma stamp_end_lexed tok lx : lexed tok -> lexed (stamp_end tok lx).
Proof. unfold lexed, stamp_end. by destruct (tType tok). Qed.

Lemma tokenize_loop_lexed fuel lx toks lx' : tokenize_loop fuel lx = Ok (toks, lx') ->
  Forall lexed toks.
Proof.
  revert lx toks lx'. induction fuel as [|f IH]; intros lx toks lx'; [done|]. cbn [tokenize_loop].
  intros Ht. apply result_bind_ok in Ht as ([tok lx1] & Hn & Ht).
  apply NextToken_lexed, (stamp_end_lexed _ lx1) in Hn. revert Ht. destruct (tType _); intros Ht;
    [by injection Ht as <- _; apply Forall_singleton|..];
    apply result_bind_ok in Ht as ([toks' lx2] & Hl & Ht); injection Ht as <- _;
    (constructor; [done | by eapply IH]).
Qed.

Lemma Tokenize_lexed input toks : Tokenize input = Ok toks -> Forall lexed toks.
Proof.
  unfold Tokenize, TokenizeWithDocs. destruct (tokenize_loop _ _) as [[ts lx]|] eqn:Ht; [|done].
  intros [= <-]. by apply tokenize_loop_lexed in Ht.
Qed.

(** The tokens of one or two fixed characters. *)
Definition punct_table : list (TokenType * gostring) :=
  [(TokenOperator, go "$"); (TokenOperator, go "<="); (TokenOperator, go "<");
   (TokenOperator, go ">="); (TokenOperator, go ">"); (TokenParenOpen, go "(");
   (TokenParenClose, go ")"); (TokenSemicolon, go ";"); (TokenComma, go ",");
   (TokenBraceOpen, go "{"); (TokenBraceClose, go "}"); (TokenBracketOpen, go "[");
   (TokenBracketClose, go "]"); (TokenDefine, go ":="); (TokenColon, go ":");
   (TokenQuestionDot, go "?."); (TokenQuestionQuestion, go "??"); (TokenQuestion, go "?");
   (TokenAmpAmp, go "&&"); (TokenPipePipe, go "||"); (TokenAt, go "@");
   (TokenDotQuestion, go ".?"); (TokenDot, go "."); (TokenBang, go "!");
   (TokenOperator, go "!="); (TokenOperator, go "=="); (TokenOperator, go "=>");
   (TokenOperator, go "="); (TokenOperator, go "-"); (TokenOperator, go "/");
   (TokenOperator, go "+"); (TokenOperator, go "*"); (TokenOperator, go "%")].

Definition is_punct (ty : TokenType) (lit : gostring) : bool :=
  existsb (fun p => bool_decide (p.1 = ty) && (lit =s p.2)) punct_table.

Lemma is_punct_In ty lit : is_punct ty lit = true -> In (ty, lit) punct_table.
Proof.
  unfold is_punct. intros Hp. apply existsb_exists in Hp as ([ty' lit'] & Hin & Hp).
  apply andb_true_iff in Hp as [H1 H2]. apply bool_decide_eq_true in H1. apply eqs_true in H2.
  cbn in *. by subst.
Qed.

(** The scanner a token came from. *)
Inductive scan_class (rest : gostring) (c : cursor) : scanned -> Prop :=
| class_punct ty lit t c' : is_punct ty lit = true -> scan_class rest c (ty, lit, t, c')
| class_number : isDigit (peek rest) = true \/ (peek rest = 45 /\ nextIs isDigit rest = true) ->
    scan_class rest c (scanNumber rest c)
| class_ident s : scanIdentifier rest c = Ok s -> scan_class rest c s
| class_string s : scanString rest c = Ok s -> scan_class rest c s.

Lemma scan_token_class lx s : scan_token lx = Ok (ScanToken s) -> scan_class (l_rest lx) (l_cur lx) s.
Proof.
  unfold scan_token, scan_token_tail. generalize (l_rest lx) as rest. generalize (l_cur lx) as c. intros c rest Hs.
  repeat match type of Hs with
  | (if ?b then _ else _) = _ => destruct b eqn:?
  end; try done;
  try (injection Hs as <-; by apply class_punct; vm_compute);
  try (apply result_bind_ok in Hs as (s' & Hs & Heq); injection Heq as <-; by constructor).
  - injection Hs as <-. unfold scanNotEquals. destruct (tail rest); [by apply class_punct|].
    case_match; by apply class_punct.
  - injection Hs as <-. unfold scanOperator. destruct (tail rest); [by apply class_punct|].
    repeat case_match; by apply class_punct.
  - injection Hs as <-. apply class_number. right. bprop. done.
  - apply result_bind_ok in Hs as (lx' & _ & Heq). done.
  - injection Hs as <-. apply class_number. by left.
Qed.

Lemma lexed_number t : lexed t -> tType t = TokenNumber ->
  exists s, (isDigit (peek s) = true \/ (peek s = 45 /\ nextIs isDigit s = true))
            /\ tLiteral t = (number_text s).1.
Proof.
  intros [Hty|(lx & rest & c & _ & Hs)] Hn; [congruence|]. apply scan_token_class in Hs.
  inversion Hs as [? ? ? ? Hp | Hd Heq | ? Hi | ? Hstr]; subst.
  - rewrite Hn in Hp. apply is_punct_In in Hp. cbn [punct_table In] in Hp. naive_solver.
  - exists (l_rest lx). split; [done|]. unfold scanNumber in Heq. by destruct (number_text _); injection Heq.
  - unfold scanIdentifier in Hi. destruct (ident_loop _ _) as [[|x l] u]; [done|].
    injection Hi as Hk _ _ _. destruct (keyword_type_class (x :: l)) as (_ & _ & ?). congruence.
  - apply scan_string_loop_spec in Hstr as [? _]. congruence.
Qed.

Lemma scanIdentifier_keyword rest c ty lit t c' :
  scanIdentifier rest c = Ok (ty, lit, t, c') -> ty = keyword_type lit.
Proof.
  unfold scanIdentifier. destruct (ident_loop _ _) as [[|x l] u]; [done|]. by intros [= <- <- _ _].
Qed.

Lemma keyword_type_not_bang lit : keyword_type lit <> TokenBang.
Proof.
  unfold keyword_type. destruct (List.find _ _) as [kw|] eqn:Hf; [|done].
  apply find_some in Hf as [Hin _]. cbn [keywords In] in Hin.
  repeat destruct Hin as [<-|Hin]; done.
Qed.

Lemma lexed_bang t : lexed t -> tType t = TokenBang -> tLiteral t = go "!".
Proof.
  intros [Hty|(lx & rest & c & _ & Hs)] Hn; [congruence|]. apply scan_token_class in Hs.
  inversion Hs as [? ? ? ? Hp | Hd Heq | ? Hi | ? Hstr]; subst.
  - rewrite Hn in Hp. apply is_punct_In in Hp. cbn [punct_table In] in Hp. naive_solver.
  - unfold scanNumber in Heq. destruct (number_text _). injection Heq. congruence.
  - apply scanIdentifier_keyword in Hi. by rewrite Hi in Hn; apply keyword_type_not_bang in Hn.
  - apply scan_string_loop_spec in Hstr as [? _]. congruence.
Qed.

Lemma HasPrefix_minus ch s : ch <> 45 -> HasPrefix (ch :: s) (go "-") = false.
Proof.
  intros Hne. change (((45 =? ch) && HasPrefix s []) = false).
  apply not_eq_sym, Z.eqb_neq in Hne. by rewrite Hne.
Qed.

Lemma TrimPrefix_minus ch s : ch <> 45 -> TrimPrefix (ch :: s) (go "-") = ch :: s.
Proof. intros Hne. unfold TrimPrefix. by rewrite HasPrefix_minus. Qed.

Lemma TrimPrefix_minus_cut s : TrimPrefix (45 :: s) (go "-") = s.
Proof. done. Qed.

(** A number's magnitude starts with a digit. *)
Lemma lexed_number_magnitude t : lexed t -> tType t = TokenNumber ->
  HasPrefix (TrimPrefix (tLiteral t) (go "-")) (go "-") = false.
Proof.
  intros Hl Hn. destruct (lexed_number t Hl Hn) as (s & Hs & ->). unfold number_text.
  destruct s as [|ch s]; [by destruct Hs as [?|[? ?]]|]. unfold peek, peekAt in Hs.
  cbn [nth number_sign] in *. destruct Hs as [Hd|[-> Hd]].
  - assert (ch <> 45) as Hne by (intros ->; by vm_compute in Hd).
    rewrite (proj2 (Z.eqb_neq _ _) Hne). cbn [span]. rewrite Hd.
    destruct (span isDigit s) as [p1 t1], (number_fraction t1) as [p2 t2], (number_exponent t2) as [p3 t3].
    cbn [app fst]. rewrite TrimPrefix_minus by done. by apply HasPrefix_minus.
  - cbn [Z.eqb Pos.eqb]. destruct s as [|d s]; [done|]. cbn [nextIs] in Hd.
    assert (d <> 45) as Hne by (intros ->; by vm_compute in Hd). cbn [span]. rewrite Hd.
    destruct (span isDigit s) as [p1 t1], (number_fraction t1) as [p2 t2], (number_exponent t2) as [p3 t3].
    cbn [app fst]. rewrite TrimPrefix_minus_cut. by apply HasPrefix_minus.
Qed.
End Lexing.

(** ** Theorems *)

(** The token's text in the source, by the positions it carries. *)
Definition source_slice (input : gostring) (t : Token) : gostring :=
  take (Z.to_nat (tEndPos t - tPos t)) (drop (Z.to_nat (tPos t)) input).

Section Slices.
Context `{UnicodeTables}.

Lemma lexes_slices pre rest toks c : 
  c_pos c = Z.of_nat (length pre) -> lexes c rest toks ->
  Forall (fun t => tType t <> TokenEOF ->
    0 <= tPos t < tEndPos t /\ tEndPos t <= Z.of_nat (length (pre ++ rest))
    /\ (tType t <> TokenString -> source_slice (pre ++ rest) t = tLiteral t)) toks.
Proof.
  intros Hc Hl. revert pre Hc.
  induction Hl as [c g Hg c1|c g w rest tok toks c1 c2 Hg Hat He1 He2 He3 _ IH]; intros pre Hc.
  { constructor; [done|constructor]. }
  destruct Hat as (_ & Hw & Hlit & Hp & _ & _).
  assert (Hc1 : c_pos c1 = Z.of_nat (length pre) + Z.of_nat (length g)) by (unfold c1; rewrite walk_pos; lia).
  assert (Hc2 : c_pos c2 = c_pos c1 + Z.of_nat (length w)) by (unfold c2; apply walk_pos).
  constructor.
  - intros _. rewrite He1, Hp, Hc2, Hc1, !length_app. destruct w as [|ch w]; [done|]. cbn [length].
    split; [lia|]. split; [lia|]. intros Hs. specialize (Hlit Hs). unfold source_slice.
    rewrite He1, Hp, Hc2, Hc1, Hlit.
    replace (Z.to_nat _) with (length (ch :: w)) by (cbn [length]; lia).
    replace (Z.to_nat _) with (length (pre ++ g)) by (rewrite length_app; lia).
    rewrite app_assoc, drop_app_length. apply take_app_length.
  - specialize (IH (pre ++ g ++ w)). rewrite <- !app_assoc in IH. apply IH.
    rewrite !length_app. lia.
Qed.
End Slices.

(** The lexer terminates on every input: [Tokenize] answers tokens or one of
    the lexer's own errors, never the loops' fuel running out. *)
Theorem Tokenize_terminates `{UnicodeTables} (input : gostring) :
  (exists toks, Tokenize input = Ok toks) \/ (exists e, Tokenize input = Err e /\ e <> LexFuel).
Proof.
  pose proof (Tokenize_no_fuel input) as Hn. destruct (Tokenize input) as [toks|e]; [by left; exists toks|].
  right. exists e. split; [done | congruence].
Qed.



(** The positions a token carries cut its literal out of the source: for every
    token other than a string and the end of input, the source between its
    start and end offsets is its literal, and the offsets lie in the input. *)
Theorem Tokenize_slices `{UnicodeTables} (input : gostring) (toks : list Token) :
  Tokenize input = Ok toks ->
  Forall (fun t => tType t <> TokenEOF ->
    0 <= tPos t < tEndPos t /\ tEndPos t <= Z.of_nat (length input)
    /\ (tType t <> TokenString -> source_slice input t = tLiteral t)) toks.
Proof. intros Ht. apply Tokenize_lexes in Ht. by apply (lexes_slices []) in Ht. Qed.

Lemma Tokenize_slices_witness :
  exists toks, @Tokenize latin1_tables (go "x >= -4") = Ok toks
    /\ Forall (fun t => tType t <> TokenEOF ->
        0 <= tPos t < tEndPos t /\ tEndPos t <= Z.of_nat (length (go "x >= -4"))
        /\ (tType t <> TokenString -> source_slice (go "x >= -4") t = tLiteral t)) toks.
Proof.
  eexists. split; [vm_compute; reflexivity|].
  apply (@Tokenize_slices latin1_tables). vm_compute. reflexivity.
Defined.
