(* ===== verification/ParserFacts.v ===== *)
(** What the expression parser guarantees about every tree it returns.

    A parse either refuses with an error of the grammar or returns a tree and
    strictly fewer tokens: the loops' fuel never shows.  The tree is well formed
    ([wf]): operands respect the precedence ladder, names are plain, argument,
    key and parameter names do not repeat.  The link count a node carries is the
    tree's own ([links]), within [MaxExpressionChain], and the tree is at most
    its links plus two levels per unit of nesting budget tall. *)

From Stdlib Require Import SpecFloat.
From S2P Require Import Prelude GoText Strconv Ast Lexer LexerFacts Refusals Parser Printer.

(** ** Measures of a tree *)

(** The most chain links (a binary fold, a member read, a method call) on a path
    from the node to a leaf. *)
Fixpoint links (n : expr) : Z :=
  let all := foldr (fun a m => Z.max (links a) m) 0 in
  let allkv := foldr (fun (kv : gostring * expr) m => Z.max (links kv.2) m) 0 in
  match n with
  | MemberExpr o _ _ => links o + 1
  | CallExpr r _ _ args named =>
      let inner := Z.max (all args) (allkv named) in
      if is_nil_node r then inner else Z.max (links r) inner + 1
  | UnaryExpr _ x => links x
  | BinaryExpr _ l r => Z.max (links l) (links r) + 1
  | TernaryExpr c t e => Z.max (links c) (Z.max (links t) (links e))
  | LambdaExpr _ b => links b
  | ListExpr es => all es
  | MapExpr es => allkv es
  | ParenExpr i => links i
  | _ => 0
  end.

(** How tall the tree is: what a recursive reader of it recurses. *)
Fixpoint height (n : expr) : Z :=
  let all := foldr (fun a m => Z.max (height a) m) 0 in
  let allkv := foldr (fun (kv : gostring * expr) m => Z.max (height kv.2) m) 0 in
  match n with
  | NilNode => 0
  | MemberExpr o _ _ => height o + 1
  | CallExpr r _ _ args named => Z.max (height r) (Z.max (all args) (allkv named)) + 1
  | UnaryExpr _ x => height x + 1
  | BinaryExpr _ l r => Z.max (height l) (height r) + 1
  | TernaryExpr c t e => Z.max (height c) (Z.max (height t) (height e)) + 1
  | LambdaExpr _ b => height b + 1
  | ListExpr es => all es + 1
  | MapExpr es => allkv es + 1
  | ParenExpr i => height i + 1
  | _ => 1
  end.

Definition maxOf {A} (f : A -> Z) (l : list A) : Z := foldr (fun a m => Z.max (f a) m) 0 l.

Lemma maxOf_nonneg {A} (f : A -> Z) l : 0 <= maxOf f l.
Proof. unfold maxOf. induction l; cbn; lia. Qed.

Lemma maxOf_app {A} (f : A -> Z) l1 l2 : maxOf f (l1 ++ l2) = Z.max (maxOf f l1) (maxOf f l2).
Proof.
  pose proof (maxOf_nonneg f l2) as Hnn. unfold maxOf in *. induction l1; cbn; lia.
Qed.

Lemma maxOf_le {A} (f g : A -> Z) l h : 0 <= h ->
  Forall (fun a => f a <= g a + h) l -> maxOf f l <= maxOf g l + h.
Proof.
  intros Hh Hl. unfold maxOf. induction Hl; cbn; lia.
Qed.

Lemma maxOf_bound {A} (f : A -> Z) l b : 0 <= b -> Forall (fun a => f a <= b) l -> maxOf f l <= b.
Proof. intros Hb Hl. unfold maxOf. induction Hl; cbn; lia. Qed.

(** ** Well-formed trees *)

(** A name of one segment: no member dot, no glued ':' or '-'. *)
Definition plain_name (s : gostring) : Prop :=
  s <> [] /\ ContainsRune s 46 = false /\ ContainsRune s 58 = false /\ ContainsRune s 45 = false.

Definition is_lambda (n : expr) : bool := match n with LambdaExpr _ _ => true | _ => false end.

(** [n] can stand unparenthesised where level [p] is required: it binds at
    least that tightly, or it is a lambda, which the grammar reads as a primary. *)
Definition fits (p : Z) (n : expr) : Prop := p <= nodePrec n \/ is_lambda n = true.

Definition word_values : list gostring := go <$> ["true"; "false"; "nil"; "null"]%string.

Definition parsed_literal (v : literal) : Prop :=
  match v with VInt _ | VNull | VOther => False | _ => True end.

Inductive wf : expr -> Prop :=
| wf_ident name : plain_name name -> memS name word_values = false -> wf (IdentExpr name)
| wf_member o f opt : wf o -> precPostfix <= nodePrec o -> plain_name f -> wf (MemberExpr o f opt)
| wf_call name args named :
    plain_name name -> Forall wf args -> Forall (fun kv => wf kv.2) named ->
    NoDup (named.*1) -> args = [] \/ named = [] -> wf (CallExpr NilNode name [] args named)
| wf_construct name kind named :
    In kind invocationKindKeywords -> ContainsAny name (go ".:-") = false ->
    Forall (fun kv => wf kv.2) named -> NoDup (named.*1) ->
    wf (CallExpr NilNode name kind [] named)
| wf_method recv name args named :
    wf recv -> precPostfix <= nodePrec recv -> plain_name name -> name <> go "contains" ->
    Forall wf args -> Forall (fun kv => wf kv.2) named ->
    NoDup (named.*1) -> args = [] \/ named = [] -> wf (CallExpr recv name [] args named)
| wf_unary op x : In op (go <$> ["!"; "-"]%string) -> wf x -> fits precUnary x -> wf (UnaryExpr op x)
| wf_compare op l r :
    binaryPrec op = precCompare -> wf l -> wf r -> fits precCoalesce l -> fits precCoalesce r ->
    wf (BinaryExpr op l r)
| wf_binary op l r :
    In (binaryPrec op) [precOr; precAnd; precCoalesce; precAdditive; precMultiplicative] ->
    wf l -> wf r -> fits (binaryPrec op) l -> fits (binaryPrec op + 1) r ->
    wf (BinaryExpr op l r)
| wf_ternary c t e : wf c -> wf t -> wf e -> fits precOr c -> wf (TernaryExpr c t e)
| wf_lambda ps b : NoDup ps -> wf b -> wf (LambdaExpr ps b)
| wf_list es : Forall wf es -> wf (ListExpr es)
| wf_map es : Forall (fun kv => wf kv.2) es -> NoDup (es.*1) -> wf (MapExpr es)
| wf_paren i : wf i -> wf (ParenExpr i)
| wf_literal v : parsed_literal v -> wf (LiteralExpr v)
| wf_nil : wf NilExpr.

Lemma wf_not_nil n : wf n -> is_nil_node n = false.
Proof. by destruct 1. Qed.

Lemma links_nonneg n : 0 <= links n.
Proof.
  induction n using expr_ind'; cbn [links]; try lia;
    try apply (maxOf_nonneg links); try apply (maxOf_nonneg (fun kv : gostring * expr => links kv.2)).
  pose proof (maxOf_nonneg links args). unfold maxOf in *. destruct (is_nil_node n); lia.
Qed.

(** An operator the printer gives a level of its own has a kind. *)
Lemma binaryPrec_kind op l r : binaryPrec op <> precPostfix -> KindOf (BinaryExpr op l r) <> KindUnknown.
Proof.
  unfold binaryPrec. intros Hp.
  repeat match type of Hp with
  | (if ?b then _ else _) <> _ => destruct b eqn:?
  end; try done;
  repeat match goal with H : _ = false |- _ => clear H end;
  match goal with
  | Hb : (_ =s _) = true |- _ => apply eqs_true in Hb as ->; by vm_compute
  | Hb : memS _ _ = true |- _ =>
      apply memS_In in Hb; cbn [fmap list_fmap In] in Hb; by repeat destruct Hb as [<-|Hb]
  end.
Qed.

Lemma wf_kind n : wf n -> KindOf n <> KindUnknown.
Proof.
  destruct 1; try (by apply binaryPrec_kind; lia || (intros Hp; rewrite Hp in *; vm_compute in *; lia));
    cbn [KindOf is_nil_node]; repeat case_match; done.
Qed.

(** ** Postconditions

    [post P r]: [r] is a value satisfying [P] or an error that is not the fuel's. *)

Definition post {A} (P : A -> Prop) (r : result parse_error A) : Prop :=
  match r with Ok a => P a | Err e => pe_what e <> WFuel end.

Lemma post_bind {A B} (Q : A -> Prop) (P : B -> Prop) m (f : A -> result parse_error B) :
  post Q m -> (forall a, Q a -> post P (f a)) -> post P (m ≫= f).
Proof. destruct m; cbn; auto. Qed.

Lemma post_impl {A} (P Q : A -> Prop) r : post P r -> (forall a, P a -> Q a) -> post Q r.
Proof. destruct r; cbn; auto. Qed.

Lemma post_refuse {A} (P : A -> Prop) tok w : w <> WFuel -> post P (refuse tok w).
Proof. done. Qed.

Lemma v1RefuseMistake_post ts : post (fun _ => True) (v1RefuseMistake ts).
Proof. unfold v1RefuseMistake, v1Retired, refuse. repeat case_match; done. Qed.

Lemma v1Expected_post {A} (P : A -> Prop) what ts : post P (v1Expected what ts).
Proof.
  unfold v1Expected. pose proof (v1RefuseMistake_post ts) as Hm.
  destruct (v1RefuseMistake ts); done.
Qed.

Lemma v1ExpectOperand_post after ts :
  post (fun _ => v1CanStartOperand (cur ts) = true) (v1ExpectOperand after ts).
Proof. unfold v1ExpectOperand. by destruct (v1CanStartOperand _). Qed.

Lemma checkCallArgName_post tok name seen :
  post (fun _ => name ∉ seen) (checkCallArgName tok name seen).
Proof.
  unfold checkCallArgName. case_bool_decide; [done|]. by destruct (memS name _).
Qed.

(** ** Tokens left *)

Definition no_more (ts' ts : list Token) : Prop := suffix ts' ts.
Definition fewer (ts' ts : list Token) : Prop := suffix ts' ts /\ (length ts' < length ts)%nat.

Lemma no_more_refl ts : no_more ts ts.
Proof. by exists []. Qed.

Lemma fewer_no_more a b : fewer a b -> no_more a b.
Proof. by intros [? _]. Qed.

Lemma fewer_trans_l a b c : no_more a b -> fewer b c -> fewer a c.
Proof. intros H1 [H2 H3]. split; [by etrans|]. apply suffix_length in H1. lia. Qed.

Lemma fewer_trans_r a b c : fewer a b -> no_more b c -> fewer a c.
Proof. intros [H1 H2] H3. split; [by etrans|]. apply suffix_length in H3. lia. Qed.

Lemma no_more_trans a b c : no_more a b -> no_more b c -> no_more a c.
Proof. intros H1 H2. unfold no_more in *. by etrans. Qed.

Lemma no_more_Forall P a b : no_more a b -> Forall P b -> Forall P a.
Proof. intros [pre ->] Hall. by apply Forall_app in Hall as [_ ?]. Qed.

Lemma take_no_more ts : no_more (v1Take ts) ts.
Proof.
  unfold v1Take. destruct (check _ _); [apply no_more_refl|].
  destruct ts as [|t ts]; [apply no_more_refl | by exists [t]].
Qed.

(** A token whose type is not end of input is really there. *)
Lemma take_tail ts : tType (cur ts) <> TokenEOF -> exists t ts', ts = t :: ts' /\ v1Take ts = ts'.
Proof.
  unfold v1Take, check, isType. intros Hty. rewrite bool_decide_eq_false_2 by done.
  destruct ts as [|t ts]; [done | eauto].
Qed.

Lemma take_fewer ts : tType (cur ts) <> TokenEOF -> fewer (v1Take ts) ts.
Proof.
  intros Hty. destruct (take_tail ts Hty) as (t & ts' & -> & ->). split; [by exists [t] | cbn; lia].
Qed.

#[export] Hint Resolve no_more_refl fewer_no_more take_no_more take_fewer : memql.

Lemma isType_true ty t : isType ty t = true <-> tType t = ty.
Proof. unfold isType. apply bool_decide_eq_true. Qed.

Lemma isType_false ty t : isType ty t = false <-> tType t <> ty.
Proof. unfold isType. apply bool_decide_eq_false. Qed.

Lemma operand_not_eof t : v1CanStartOperand t = true -> tType t <> TokenEOF.
Proof. unfold v1CanStartOperand. intros Ht He. by rewrite He in Ht. Qed.

Lemma name_not_eof t : v1IsNameToken t = true -> tType t <> TokenEOF.
Proof. unfold v1IsNameToken. intros Ht He. by rewrite He in Ht. Qed.

(** ** Loops *)

Section Loop.
Context {S A : Type} (step : S -> list Token -> result parse_error (step_result S A)).
Context (Tok : Token -> Prop) (Inv : S -> Prop) (Done_ok : A -> Prop).

Definition step_post (ts : list Token) (r : step_result S A) : Prop :=
  match r with
  | Continue s' ts' => Inv s' /\ fewer ts' ts
  | Done a ts' => Done_ok a /\ no_more ts' ts
  end.

Context (Hstep : forall s ts, Forall Tok ts -> Inv s -> post (step_post ts) (step s ts)).

Lemma iter_post fuel s ts : (length ts < fuel)%nat -> Forall Tok ts -> Inv s ->
  post (fun '(a, ts') => Done_ok a /\ no_more ts' ts) (iter fuel step s ts).
Proof.
  revert s ts. induction fuel as [|f IH]; intros s ts Hf Hts Hs; [lia|]. cbn.
  specialize (Hstep s ts Hts Hs). destruct (step s ts) as [[s' ts'|a ts']|e]; [|done|done].
  destruct Hstep as [Hs' [Hsuf Hlt]].
  eapply post_impl; [apply IH; [lia| |done]|].
  - by eapply no_more_Forall.
  - intros [a ts2] [? ?]. split; [done|]. by eapply no_more_trans.
Qed.

(** A loop whose every round keeps the invariant and drops a token ends by
    its own exit. *)
Lemma loop_post s ts : Forall Tok ts -> Inv s ->
  post (fun '(a, ts') => Done_ok a /\ no_more ts' ts) (loop step s ts).
Proof. intros Hts Hs. apply iter_post; [lia|done|done]. Qed.
End Loop.

(** ** Numbers *)

Lemma binary_round_aux_sign sx m e l : f64_ltb (binary_round_aux f64_prec f64_emax sx m e l) f64_zero = true -> sx = true.
Proof.
  unfold binary_round_aux. destruct (shr_fexp _ _ m e l) as [m1 e1]. destruct (shr_fexp _ _ _ e1 _) as [m2 e2].
  destruct (shr_m m2); [by destruct sx| |done]. case_match; by destruct sx.
Qed.

Lemma dec_to_float_sign m e10 : f64_ltb (dec_to_float false m e10) f64_zero = false.
Proof.
  unfold dec_to_float. destruct m as [|p|p]; [done| |done].
  destruct (Z.leb_spec 0 e10) as [He|He].
  - unfold cond_Zopp, binary_normalize.
    assert (0 < Z.pos p * 10 ^ e10) as Hp by (apply Z.mul_pos_pos; [done | by apply Z.pow_pos_nonneg]).
    destruct (Z.pos p * 10 ^ e10) as [|q|q]; [done| |done]. unfold binary_round.
    destruct (shl_align q 0 _) as [mz ez].
    destruct (f64_ltb _ _) eqn:Hlt; [|done]. by apply binary_round_aux_sign in Hlt.
  - destruct (SFdiv_core_binary _ _ _ _ _ _) as [[q e'] l].
    destruct (f64_ltb _ _) eqn:Hlt; [|done]. by apply binary_round_aux_sign in Hlt.
Qed.

Lemma read_sign_plus s : HasPrefix s (go "-") = false -> (read_sign s).1 = false.
Proof.
  destruct s as [|c s]; [done|]. unfold read_sign. change (HasPrefix (c :: s) (go "-")) with ((45 =? c) && HasPrefix s []).
  rewrite Z.eqb_sym. destruct (c =? 45); [by destruct s|]. by destruct (c =? 43).
Qed.

(** Only a leading minus makes a number negative. *)
Lemma numeric_sign lit v :
  ParseNumericLiteral lit = Some v -> HasPrefix lit (go "-") = false -> negative_number v = false.
Proof.
  unfold ParseNumericLiteral. intros Hv Hm. apply read_sign_plus in Hm.
  destruct (if ContainsAny lit (go ".eE") then None else ParseInt lit) as [i|] eqn:Hi.
  - injection Hv as <-. destruct (ContainsAny _ _); [done|]. unfold ParseInt in Hi.
    destruct (read_sign lit) as [neg ds]. cbn in Hm. subst neg. destruct ds as [|d ds]; [done|].
    destruct (forallb isDigit (d :: ds)) eqn:Hd; [|done]. destruct (in_int64 _); [|done].
    injection Hi as <-. unfold negative_number. apply Z.ltb_ge. by apply dec_value_nonneg.
  - unfold ParseFloat in Hv. destruct (read_sign lit) as [neg t]. cbn in Hm. subst neg.
    destruct (span isDigit t) as [ip t1].
    match type of Hv with context [let '(_, _) := ?x in _] => destruct x as [fp t2] end.
    destruct (ip ++ fp) as [|z l]; [done|].
    destruct (read_exp t2) as [e|]; [|done].
    pose proof (dec_to_float_sign (dec_value (z :: l)) (e - Z.of_nat (length fp))) as Hs.
    destruct (dec_to_float _ _ _); try done; injection Hv as <-; done.
Qed.

Lemma numeric_parsed lit v : ParseNumericLiteral lit = Some v -> parsed_literal v.
Proof.
  unfold ParseNumericLiteral. destruct (ContainsAny _ _), (ParseInt lit), (ParseFloat lit);
    intros [= <-]; done.
Qed.

(** ** Names *)

Lemma Split_contains s sep c : ContainsRune s c = false ->
  Forall (fun p => ContainsRune p c = false) (Split s sep).
Proof.
  induction s as [|d s IH]; cbn; [by repeat constructor|]. intros Hs.
  apply orb_false_iff in Hs as [Hd Hs]. specialize (IH Hs). destruct (d =? sep); [by constructor|].
  destruct (Split s sep) as [|p ps]; [by repeat constructor; cbn; rewrite Hd|].
  apply Forall_cons in IH as [Hp Hps]. constructor; [cbn; by rewrite Hd | done].
Qed.

Lemma path_segments_post tok off parts :
  Forall (fun p => ContainsRune p 46 = false /\ ContainsRune p 58 = false /\ ContainsRune p 45 = false) parts ->
  post (fun segs => Forall (fun sg => plain_name (sg_text sg)) segs /\ sg_text <$> segs = parts)
    (path_segments tok off parts).
Proof.
  intros Hall. revert off. induction Hall as [|p parts (H1 & H2 & H3) _ IH]; intros off; cbn.
  - by split; [constructor|].
  - destruct (p =s []) eqn:Hp; [done|]. apply eqs_false in Hp.
    specialize (IH (off + Z.of_nat (length p) + 1)). destruct (path_segments _ _ _) as [segs|e]; [|done].
    destruct IH as [Hs Heq]. cbn. split; [by constructor | by rewrite Heq].
Qed.

Lemma v1PathSegments_post tok :
  post (fun segs => Forall (fun sg => plain_name (sg_text sg)) segs
                    /\ (HasPrefix (tLiteral tok) (go ".") = false -> sg_text <$> segs = Split (tLiteral tok) 46))
    (v1PathSegments tok).
Proof.
  unfold v1PathSegments. destruct (ContainsRune _ 58) eqn:H1; [done|].
  destruct (ContainsRune _ 45) eqn:H2; [done|].
  assert (Hparts : forall s, ContainsRune s 58 = false -> ContainsRune s 45 = false ->
    Forall (fun p => ContainsRune p 46 = false /\ ContainsRune p 58 = false /\ ContainsRune p 45 = false) (Split s 46)).
  { intros s Hs1 Hs2. apply Forall_and; split; [apply Split_parts|].
    apply Forall_and; split; by apply Split_contains. }
  destruct (HasPrefix _ _) eqn:Hp.
  - eapply post_impl; [apply path_segments_post, Hparts | by intros segs [? ?]];
      destruct (tLiteral tok); cbn in *; bprop; by rewrite ?drop_0.
  - eapply post_impl; [by apply path_segments_post, Hparts | by intros segs [? ?]].
Qed.

(** ** The invariant of parsed nodes *)

(** A node within the chain bound, at most [h] taller than its links, well formed. *)
Definition goodn (h : Z) (n : expr) : Prop :=
  links n <= MaxExpressionChain /\ height n <= links n + h /\ wf n.

(** A parsed node that fits level [p]: its carried count is its own. *)
Definition good (p h : Z) (e : v1Expr) : Prop :=
  x_links e = links (x_n e) /\ goodn h (x_n e) /\ fits p (x_n e).

(** A parse from [ts] at level [p]. *)
Definition gives (p h : Z) (ts : list Token) (r : result parse_error (v1Expr * list Token)) : Prop :=
  post (fun '(e, ts') => good p h e /\ fewer ts' ts) r.

(** The same without progress of its own: a parse that starts from a node
    already read. *)
Definition extends (p h : Z) (ts : list Token) (r : result parse_error (v1Expr * list Token)) : Prop :=
  post (fun '(e, ts') => good p h e /\ no_more ts' ts) r.

Lemma fits_weaken p q n : q <= p -> fits p n -> fits q n.
Proof. intros Hq [?|?]; [left; lia | by right]. Qed.

Lemma goodn_weaken h h' n : h <= h' -> goodn h n -> goodn h' n.
Proof. intros Hh (? & ? & ?). repeat split; [done|lia|done]. Qed.

Lemma good_weaken p q h h' e : q <= p -> h <= h' -> good p h e -> good q h' e.
Proof.
  intros Hq Hh (H1 & H2 & H3). split; [done|].
  split; [by eapply goodn_weaken | by eapply fits_weaken].
Qed.

Lemma gives_weaken p q h h' ts r : q <= p -> h <= h' -> gives p h ts r -> gives q h' ts r.
Proof.
  intros Hq Hh Hg. eapply post_impl; [exact Hg|]. intros [e ts'] [He Hlt].
  split; [by eapply good_weaken | done].
Qed.

Lemma v1ChainLink_post tok operands :
  post (fun l => l = maxLinks operands + 1 /\ l <= MaxExpressionChain) (v1ChainLink tok operands).
Proof.
  unfold v1ChainLink. destruct (Z.ltb_spec MaxExpressionChain (maxLinks operands + 1)); [done|].
  by split.
Qed.

Lemma maxOf_Forall_links h l : 1 <= h -> Forall (goodn h) l ->
  maxOf links l <= MaxExpressionChain /\ maxOf height l <= maxOf links l + h /\ Forall wf l.
Proof.
  intros Hh Hall. assert (0 <= MaxExpressionChain) by done. repeat split.
  - apply maxOf_bound; [done|]. eapply Forall_impl; [exact Hall|]. by intros ? (? & _).
  - apply maxOf_le; [lia|]. eapply Forall_impl; [exact Hall|]. by intros ? (_ & ? & _).
  - eapply Forall_impl; [exact Hall|]. by intros ? (_ & _ & ?).
Qed.

Definition kv_links (kv : gostring * expr) : Z := links kv.2.

Lemma maxOf_Forall_kv h (l : list (gostring * expr)) : 1 <= h -> Forall (fun kv => goodn h kv.2) l ->
  maxOf kv_links l <= MaxExpressionChain
  /\ maxOf (fun kv => height kv.2) l <= maxOf kv_links l + h /\ Forall (fun kv => wf kv.2) l.
Proof.
  intros Hh Hall. assert (0 <= MaxExpressionChain) by done. repeat split.
  - apply maxOf_bound; [done|]. eapply Forall_impl; [exact Hall|]. by intros ? (? & _).
  - apply maxOf_le; [lia|]. eapply Forall_impl; [exact Hall|]. by intros ? (_ & ? & _).
  - eapply Forall_impl; [exact Hall|]. by intros ? (_ & _ & ?).
Qed.

Ltac take_tac := eauto using fewer_trans_l, fewer_trans_r, no_more_trans with memql.

(** ** Arguments, brackets and names *)

Section Nested.
Context `{UnicodeTables} (asOfOutside : bool) (ternary : list Token -> result parse_error (v1Expr * list Token)).
Context (h : Z) (Hh : 1 <= h).
Context (Hternary : forall ts, Forall lexed ts -> gives precLambda h ts (ternary ts)).

Definition arg_value (a : argument) : expr :=
  match a with ArgNamed _ v _ | ArgPositional v _ => v end.

Definition args_inv (st : args_state) : Prop :=
  Forall (goodn h) (arg_value <$> as_list st)
  /\ as_links st = maxOf links (arg_value <$> as_list st)
  /\ NoDup ((named_args (as_list st)).*1)
  /\ (forall k, k ∈ (named_args (as_list st)).*1 -> k ∈ as_seen st).

Lemma maxLinks_two a b : maxLinks [a; b] = Z.max (Z.max 0 a) b.
Proof. done. Qed.

Lemma maxOf_snoc l n : maxOf links (l ++ [n]) = maxLinks [maxOf links l; links n].
Proof.
  rewrite maxOf_app, maxLinks_two. pose proof (maxOf_nonneg links l). pose proof (links_nonneg n).
  unfold maxOf at 2. cbn. lia.
Qed.

Lemma args_inv_snoc st a v seen :
  args_inv st -> arg_value a = x_n v -> good precLambda h v ->
  NoDup ((named_args (as_list st ++ [a])).*1) ->
  (forall k, k ∈ (named_args (as_list st ++ [a])).*1 -> k ∈ seen) ->
  args_inv (mkArgs (as_list st ++ [a]) seen (maxLinks [as_links st; x_links v])).
Proof.
  intros (H1 & H2 & _ & _) Ha (Hv1 & Hv2 & _) Hnd Hseen. unfold args_inv. cbn [as_list as_seen as_links].
  rewrite fmap_app. cbn [fmap list_fmap]. rewrite Ha.
  repeat split; [by apply Forall_app_2; [|constructor] | | done | done].
  by rewrite maxOf_snoc, H2, Hv1.
Qed.

Lemma named_args_app l1 l2 : named_args (l1 ++ l2) = named_args l1 ++ named_args l2.
Proof. unfold named_args. apply omap_app. Qed.

Lemma args_inv_named st name v tok :
  args_inv st -> name ∉ as_seen st -> good precLambda h v ->
  args_inv (mkArgs (as_list st ++ [ArgNamed name (x_n v) tok]) ({[name]} ∪ as_seen st)
              (maxLinks [as_links st; x_links v])).
Proof.
  intros Hst Hn Hv. pose proof Hst as (_ & _ & Hnd & Hseen). apply args_inv_snoc; try done.
  all: rewrite named_args_app, fmap_app; change ((named_args [ArgNamed name (x_n v) tok]).*1) with [name].
  - apply NoDup_app. split; [done|]. split; [|apply NoDup_singleton].
    intros k Hk Hk2. apply list_elem_of_singleton in Hk2 as ->. auto.
  - intros k Hk. apply elem_of_app in Hk as [Hk|Hk]; [set_solver|].
    apply list_elem_of_singleton in Hk as ->. set_solver.
Qed.

Lemma args_inv_positional st v tok :
  args_inv st -> good precLambda h v ->
  args_inv (mkArgs (as_list st ++ [ArgPositional (x_n v) tok]) (as_seen st)
              (maxLinks [as_links st; x_links v])).
Proof.
  intros Hst Hv. pose proof Hst as (_ & _ & Hnd & Hseen). apply args_inv_snoc; try done.
  all: rewrite named_args_app; change (named_args [ArgPositional (x_n v) tok]) with (@nil (gostring * expr)).
  all: by rewrite app_nil_r.
Qed.

Lemma after_argument_post st ts0 ts : args_inv st -> fewer ts ts0 ->
  post (step_post args_inv args_inv ts0) (after_argument st ts).
Proof.
  intros Hst Hlt. unfold after_argument. destruct (check TokenComma ts) eqn:Hc.
  - split; [done|]. eapply fewer_trans_l; [apply take_no_more | done].
  - destruct (check TokenParenClose ts); [by split | apply v1Expected_post].
Qed.

Lemma args_step_post st ts : Forall lexed ts -> args_inv st ->
  post (step_post args_inv args_inv ts) (args_step ternary st ts).
Proof.
  intros Hts Hst. unfold args_step. destruct (check TokenParenClose ts); [by split; [|apply no_more_refl]|].
  destruct (check TokenEOF ts); [apply v1Expected_post|].
  destruct (_ && isType TokenColon _) eqn:Hn.
  - bprop. destruct (ContainsAny _ _); [done|].
    eapply post_bind; [apply checkCallArgName_post|]. intros [] Hseen.
    eapply post_bind; [apply v1ExpectOperand_post|]. intros [] Hop.
    assert (Hnm : no_more (v1Take (v1Take ts)) ts) by take_tac.
    eapply post_bind; [apply Hternary; by eapply no_more_Forall|]. intros [v ts3] [Hv Hlt].
    apply after_argument_post; [by apply args_inv_named | by eapply fewer_trans_r].
  - destruct (isType TokenString _ && _); [done|].
    eapply post_bind; [by apply Hternary|]. intros [v ts3] [Hv Hlt].
    assert (Hpos := args_inv_positional st v (cur ts) Hst Hv).
    pose proof (after_argument_post _ ts ts3 Hpos Hlt) as Hafter.
    destruct (x_n v); try exact Hafter. by destruct (isOp _ _).
Qed.

Lemma construct_args_post l seen :
  NoDup ((named_args l).*1) -> (forall k, k ∈ (named_args l).*1 -> k ∈ seen) ->
  Forall (goodn h) (arg_value <$> l) ->
  post (fun named => Forall (fun kv => goodn h kv.2) named
         /\ maxOf kv_links named = maxOf links (arg_value <$> l)
         /\ NoDup (named.*1)
         /\ forall k, k ∈ named.*1 -> k ∈ (named_args l).*1 \/ k ∉ seen)
    (construct_args l seen).
Proof.
  revert seen. induction l as [|a l IH]; intros seen Hnd Hseen Hg; cbn [construct_args].
  { repeat split; [constructor | constructor | set_solver]. }
  apply Forall_cons in Hg as [Ha Hg]. destruct a as [name v t|v t].
  - change (named_args (ArgNamed name v t :: l)) with ((name, v) :: named_args l) in *.
    cbn [fmap list_fmap fst] in Hnd, Hseen. apply NoDup_cons in Hnd as [Hn Hnd].
    specialize (IH seen Hnd ltac:(set_solver) Hg).
    destruct (construct_args l seen) as [named|e]; [|done]. destruct IH as (I1 & I2 & I3 & I4).
    cbn [post]. split; [by constructor|]. split; [cbn; unfold maxOf in *; by rewrite I2|]. split.
    + cbn. apply NoDup_cons. split; [|done]. intros Hin. apply I4 in Hin as [Hin|Hin]; [done|].
      apply Hin, Hseen. set_solver.
    + cbn. set_solver.
  - assert (Hseen' : forall k, k ∈ (named_args l).*1 -> k ∈ seen) by exact Hseen. clear Hseen.
    assert (Hnd' : NoDup ((named_args l).*1)) by exact Hnd. clear Hnd.
    destruct v as [|name| | | | | | | | | | | |]; try done.
    pose proof (checkCallArgName_post t name seen) as Hc. destruct (checkCallArgName t name seen); [|done].
    cbn [post] in Hc. specialize (IH ({[name]} ∪ seen) Hnd' ltac:(set_solver) Hg).
    destruct (construct_args l _) as [named|e]; [|done]. destruct IH as (I1 & I2 & I3 & I4).
    cbn [post]. split; [by constructor|]. split; [cbn; unfold maxOf in *; by rewrite I2|]. split.
    + cbn. apply NoDup_cons. split; [|done]. intros Hin. apply I4 in Hin as [Hin|Hin]; [|set_solver].
      by apply Hc, Hseen'.
    + change (named_args (ArgPositional (IdentExpr name) t :: l)) with (named_args l). cbn. set_solver.
Qed.

Lemma maxOf_partition l :
  maxOf links (arg_value <$> l) = Z.max (maxOf links (positional_args l)) (maxOf kv_links (named_args l)).
Proof.
  unfold maxOf, positional_args, named_args. induction l as [|[n v t|v t] l IH]; cbn; [done|..];
    unfold kv_links at 1 in IH; cbn in *; unfold kv_links; cbn; lia.
Qed.

Lemma partition_goodn l : Forall (goodn h) (arg_value <$> l) ->
  Forall (goodn h) (positional_args l) /\ Forall (fun kv => goodn h kv.2) (named_args l).
Proof.
  induction l as [|[n v t|v t] l IH]; intros Hall; [by split; constructor|..];
    apply Forall_cons in Hall as [Hv Hall]; destruct (IH Hall);
    unfold positional_args, named_args; cbn; by split; [try constructor | try constructor].
Qed.

(** What an argument list parses to. *)
Definition args_ok (kind : gostring) (args : list expr) (named : list (gostring * expr)) (lk : Z) : Prop :=
  Forall (goodn h) args /\ Forall (fun kv => goodn h kv.2) named
  /\ lk = Z.max (maxOf links args) (maxOf kv_links named)
  /\ NoDup (named.*1) /\ (args = [] \/ named = []) /\ (kind <> [] -> args = []).

Lemma parseV1CallArgs_post kind bare ts : Forall lexed ts ->
  post (fun '((args, named, lk), ts') => args_ok kind args named lk /\ no_more ts' (v1Take ts))
    (parseV1CallArgs ternary kind bare ts).
Proof.
  intros Hts. unfold parseV1CallArgs.
  assert (Hts1 : Forall lexed (v1Take ts)) by (eapply no_more_Forall; [apply take_no_more|done]).
  eapply post_bind.
  { apply (loop_post _ lexed args_inv args_inv); [apply args_step_post | done |].
    repeat split; [constructor | constructor | set_solver]. }
  intros [st ts1] [(G1 & G2 & G3 & G4) Hnm]. cbn [as_list as_seen as_links].
  assert (Hnm2 : no_more (v1Take ts1) (v1Take ts)) by take_tac.
  destruct (if bare || negb (kind =s []) then object_literal_args (as_list st) else None); [done|].
  destruct (negb (kind =s [])) eqn:Hk.
  - eapply post_bind; [by apply construct_args_post|]. intros named (N1 & N2 & N3 & _).
    cbn [post]. split; [|done]. repeat split; [constructor | done | | done | by left].
    rewrite N2, G2. pose proof (maxOf_nonneg links (arg_value <$> as_list st)) as Hnn.
    unfold maxOf at 2. cbn [foldr]. lia.
  - bprop. apply eqs_true in Hk as ->. apply partition_goodn in G1 as [P1 P2].
    destruct (_ && _) eqn:Hmix; [done|]. cbn [post]. split; [|done].
    repeat split; [done | done | by rewrite G2, maxOf_partition | done | | done].
    bprop. destruct (positional_args _); [by left|]. destruct (named_args _); [by right|].
    destruct Hmix as [Hmix|Hmix]; by vm_compute in Hmix.
Qed.

(** *** Chains *)

(** A node a chain can start from or continue. *)
Definition chain_base (hb : Z) (e : v1Expr) : Prop := good precPostfix hb e /\ is_lambda (x_n e) = false.

Lemma chain_base_prec hb e : chain_base hb e -> precPostfix <= nodePrec (x_n e).
Proof. intros [(_ & _ & [?|Hl]) Hn]; [done | congruence]. Qed.

Lemma args_heights args named lk : args_ok [] args named lk ->
  0 <= lk <= MaxExpressionChain
  /\ Z.max (maxOf height args) (maxOf (fun kv => height kv.2) named) <= lk + h
  /\ Forall wf args /\ Forall (fun kv => wf kv.2) named.
Proof.
  intros (A1 & A2 & -> & _). apply maxOf_Forall_links in A1 as (? & ? & ?); [|done].
  apply maxOf_Forall_kv in A2 as (? & ? & ?); [|done].
  pose proof (maxOf_nonneg links args).
  unfold MaxExpressionChain in *. repeat split; lia || done.
Qed.

Lemma parseV1MethodCall_post hb recv seg ts : h <= hb -> Forall lexed ts ->
  chain_base hb recv -> plain_name (sg_text seg) ->
  post (fun '(e, ts') => chain_base hb e /\ no_more ts' ts) (parseV1MethodCall ternary recv seg ts).
Proof.
  intros Hhb Hts Hr Hn. unfold parseV1MethodCall. destruct (v1IsCallableName _); [|done].
  destruct (_ =s go "contains") eqn:Hc; [done|]. apply eqs_false in Hc.
  eapply post_bind; [by apply parseV1CallArgs_post|]. intros [[[args named] lk] ts1] [Hargs Hnm].
  eapply post_bind; [apply v1ChainLink_post|]. intros l [-> Hl]. cbn [post].
  split; [|take_tac]. pose proof (chain_base_prec _ _ Hr) as Hprec.
  pose proof (args_heights _ _ _ Hargs) as (L1 & L2 & L3 & L4).
  destruct Hargs as (_ & _ & Hlk & Hnd & Hone & _). destruct Hr as [(R1 & (R2 & R3 & R4) & _) _].
  pose proof (wf_not_nil _ R4) as Hnn. pose proof (links_nonneg (x_n recv)).
  rewrite maxLinks_two in *. split; [|done]. split; [|split; [|by left]].
  - cbn [x_n x_links links]. rewrite Hnn. unfold kv_links, maxOf in Hlk. lia.
  - unfold maxOf, kv_links in *. repeat split.
    + cbn [x_n links]. rewrite Hnn. lia.
    + cbn [x_n links height]. rewrite Hnn. lia.
    + by apply wf_method.
Qed.

Lemma member_base hb base seg opt l : chain_base hb base -> plain_name seg ->
  l = maxLinks [x_links base] + 1 -> l <= MaxExpressionChain ->
  chain_base hb (mkV1 (MemberExpr (x_n base) seg opt) l).
Proof.
  intros Hb Hs -> Hl. pose proof (chain_base_prec _ _ Hb) as Hprec.
  destruct Hb as [(R1 & (R2 & R3 & R4) & _) _]. pose proof (links_nonneg (x_n base)).
  change (maxLinks [x_links base]) with (Z.max 0 (x_links base)) in *.
  split; [|done]. split; [cbn; lia|]. split; [|by left].
  repeat split; [cbn; lia | cbn; lia | by apply wf_member].
Qed.

Lemma v1MemberChain_post hb base segs opt ts : h <= hb -> Forall lexed ts ->
  chain_base hb base -> Forall (fun sg => plain_name (sg_text sg)) segs ->
  post (fun '(e, ts') => chain_base hb e /\ no_more ts' ts) (v1MemberChain ternary base segs opt ts).
Proof.
  intros Hhb Hts Hb Hsegs. revert base opt Hb.
  induction Hsegs as [|seg segs Hseg _ IH]; intros base opt Hb; cbn [v1MemberChain].
  { by split; [|apply no_more_refl]. }
  assert (Hmember : post (fun '(e, ts') => chain_base hb e /\ no_more ts' ts)
    (match v1ChainLink (sg_tok seg) [x_links base] with
     | Err e => Err e
     | Ok links => v1MemberChain ternary (mkV1 (MemberExpr (x_n base) (sg_text seg) opt) links) segs false ts
     end)).
  { pose proof (v1ChainLink_post (sg_tok seg) [x_links base]) as Hl.
    destruct (v1ChainLink _ _) as [l|e]; [|done]. destruct Hl as [-> Hl].
    apply IH. by apply member_base. }
  destruct segs; [|done]. destruct (check TokenParenOpen ts); [|done].
  destruct opt; [done|]. by apply parseV1MethodCall_post.
Qed.

Lemma postfix_step_post hb base ts : h <= hb -> Forall lexed ts -> chain_base hb base ->
  post (step_post (chain_base hb) (chain_base hb) ts) (postfix_step ternary base ts).
Proof.
  intros Hhb Hts Hb. unfold postfix_step. destruct (_ && HasPrefix _ _) eqn:Hd.
  - bprop. rename select (isType TokenIdentifier _ = true) into Hty. apply isType_true in Hty.
    assert (Hlt : fewer (v1Take ts) ts) by (apply take_fewer; congruence).
    eapply post_bind; [apply v1PathSegments_post|]. intros segs [Hsegs _].
    eapply post_bind; [apply (v1MemberChain_post hb); [done | by eapply no_more_Forall; [apply take_no_more|]|done|done]|].
    intros [e ts'] [He Hnm]. split; [done | by eapply fewer_trans_l].
  - destruct (isType TokenDotQuestion _) eqn:Hq; [|by split; [|apply no_more_refl]].
    apply isType_true in Hq. assert (Hlt : fewer (v1Take ts) ts) by (apply take_fewer; congruence).
    destruct (isType TokenNumber _); [done|]. destruct (_ || _); [done|].
    eapply post_bind; [apply v1PathSegments_post|]. intros segs [Hsegs _].
    assert (Hnm2 : no_more (v1Take (v1Take ts)) ts) by take_tac.
    eapply post_bind; [apply (v1MemberChain_post hb); [done | by eapply no_more_Forall|done|done]|].
    intros [e ts'] [He Hnm]. split; [done|]. eapply fewer_trans_l; [exact Hnm|]. take_tac.
Qed.

Lemma parseV1PostfixFrom_post hb base ts : h <= hb -> Forall lexed ts -> chain_base hb base ->
  post (fun '(e, ts') => chain_base hb e /\ no_more ts' ts) (parseV1PostfixFrom ternary base ts).
Proof. intros Hhb Hts Hb. apply (loop_post _ lexed (chain_base hb)); [by intros; apply postfix_step_post | done | done]. Qed.

Lemma postfix_stop base ts : v1StartsPostfix (cur ts) = false ->
  parseV1PostfixFrom ternary base ts = Ok (base, ts).
Proof.
  unfold v1StartsPostfix. intros Hs. apply orb_false_iff in Hs as [Hq Hd].
  unfold parseV1PostfixFrom, loop. cbn [iter]. unfold postfix_step. by rewrite Hd, Hq.
Qed.

(** *** Lambdas and brackets *)

Lemma check_params_post seen params :
  post (fun names => NoDup names /\ forall k, k ∈ names -> k ∉ seen) (check_params seen params).
Proof.
  clear -seen params.
  revert seen. induction params as [|tok params IH]; intros seen; cbn [check_params].
  { split; [constructor | set_solver]. }
  assert (Hc : post (fun _ => True) (v1CheckParam tok))
    by (unfold v1CheckParam; destruct (ContainsAny _ _); [done|]; by destruct (memS _ _)).
  destruct (v1CheckParam tok); [|done]. case_bool_decide as Hin; [done|].
  specialize (IH ({[tLiteral tok]} ∪ seen)).
  destruct (check_params _ _) as [names|e]; [|done]. destruct IH as [I1 I2]. split.
  - apply NoDup_cons. split; [|done]. intros Hin2. apply I2 in Hin2. set_solver.
  - intros k Hk. apply elem_of_cons in Hk as [->|Hk]; [done|]. apply I2 in Hk. set_solver.
Qed.

Lemma lambda_params_no_more ts : no_more (lambda_params ts).2 ts.
Proof.
  assert (Hn : forall n ts, (length ts <= n)%nat -> no_more (lambda_params ts).2 ts); [|by eapply Hn].
  clear ts. induction n as [|n IH]; intros ts Hlen.
  { destruct ts; [apply no_more_refl | cbn in Hlen; lia]. }
  destruct ts as [|t ts1]; [apply no_more_refl|]. cbn in Hlen. cbn [lambda_params].
  destruct (isType TokenIdentifier t); [|apply no_more_refl].
  destruct ts1 as [|c ts2]; [by exists [t]|]. cbn in Hlen. destruct (isType TokenComma c).
  - specialize (IH ts2 ltac:(lia)). destruct (lambda_params ts2) as [ps r].
    eapply no_more_trans; [exact IH | by exists [t; c]].
  - specialize (IH (c :: ts2) ltac:(cbn; lia)). destruct (lambda_params (c :: ts2)) as [ps r].
    eapply no_more_trans; [exact IH | by exists [t]].
Qed.

(** A node built over full expressions, one level taller. *)
Lemma good_primary n lk : 
  lk = links n -> links n <= MaxExpressionChain -> height n <= links n + (h + 1) -> wf n ->
  precPostfix <= nodePrec n -> good precPostfix (h + 1) (mkV1 n lk).
Proof. intros -> H1 H2 H3 H4. by repeat split; [..|left]. Qed.

Lemma parseV1Lambda_post ts : Forall lexed ts -> tType (cur ts) <> TokenEOF ->
  post (fun '(e, ts') => good precPostfix (h + 1) e /\ is_lambda (x_n e) = true /\ fewer ts' ts)
    (parseV1Lambda ternary ts).
Proof.
  intros Hts Hty. unfold parseV1Lambda.
  assert (exists params ts1, (if check TokenIdentifier ts then ([cur ts], v1Take ts)
      else let '(ps, r) := lambda_params (v1Take ts) in (ps, v1Take r)) = (params, ts1)
      /\ fewer ts1 ts) as (params & ts1 & -> & Hlt).
  { apply take_fewer in Hty. destruct (check _ _); [by eexists _, _|].
    pose proof (lambda_params_no_more (v1Take ts)) as Hp. destruct (lambda_params _) as [ps r].
    eexists _, _; split; [done|]. eapply fewer_trans_l; [|exact Hty]. cbn in Hp. take_tac. }
  eapply post_bind; [apply check_params_post|]. intros names [Hnd _].
  eapply post_bind; [apply v1ExpectOperand_post|]. intros [] Hop.
  assert (Hnm : no_more (v1Take ts1) ts) by take_tac.
  eapply post_bind; [apply Hternary; by eapply no_more_Forall|].
  intros [body ts3] [(B1 & (B2 & B3 & B4) & _) Hlt3]. cbn [post].
  split; [|split; [done | by eapply fewer_trans_r]].
  repeat split; cbn; try lia; [by apply wf_lambda | by right].
Qed.

Lemma parseV1Paren_post ts : Forall lexed ts -> tType (cur ts) <> TokenEOF ->
  post (fun '(e, ts') => chain_base (h + 1) e /\ fewer ts' ts) (parseV1Paren ternary ts).
Proof.
  intros Hts Hty. unfold parseV1Paren. destruct (check _ _); [done|].
  eapply post_bind; [apply v1ExpectOperand_post|]. intros [] Hop.
  eapply post_bind; [apply Hternary; by eapply no_more_Forall; [apply take_no_more|]|].
  intros [e ts2] [(B1 & (B2 & B3 & B4) & _) Hlt3].
  destruct (check TokenParenClose ts2).
  - cbn [post]. split; [split; [|done]|].
    + apply good_primary; cbn; try lia. by apply wf_paren.
    + eapply fewer_trans_l; [apply take_no_more|]. eapply fewer_trans_r; [exact Hlt3 | apply take_no_more].
  - destruct (check TokenComma ts2); [done | apply v1Expected_post].
Qed.

Definition list_inv (st : list expr * Z) : Prop :=
  Forall (goodn h) st.1 /\ st.2 = maxOf links st.1.

Lemma list_step_post st ts : Forall lexed ts -> list_inv st ->
  post (step_post list_inv list_inv ts) (list_step ternary st ts).
Proof.
  intros Hts Hst. unfold list_step.
  destruct (check TokenBracketClose ts); [by split; [|apply no_more_refl]|].
  destruct (check TokenEOF ts); [apply v1Expected_post|].
  eapply post_bind; [by apply Hternary|]. intros [v ts1] [(V1 & V2 & _) Hlt].
  assert (Hst' : list_inv (st.1 ++ [x_n v], maxLinks [st.2; x_links v])).
  { destruct Hst as [S1 S2]. split; [by apply Forall_app_2; [|constructor]|].
    cbn [fst snd]. by rewrite maxOf_snoc, S2, V1. }
  destruct (check TokenComma ts1).
  - split; [done|]. eapply fewer_trans_l; [apply take_no_more|done].
  - destruct (check TokenBracketClose ts1); [by split | apply v1Expected_post].
Qed.

Lemma parseV1List_post ts : Forall lexed ts -> tType (cur ts) <> TokenEOF ->
  post (fun '(e, ts') => chain_base (h + 1) e /\ fewer ts' ts) (parseV1List ternary ts).
Proof.
  intros Hts Hty. unfold parseV1List. eapply post_bind.
  { apply (loop_post _ lexed list_inv list_inv); [apply list_step_post| |by split; [constructor|]].
    by eapply no_more_Forall; [apply take_no_more|]. }
  intros [st ts1] [[S1 S2] Hnm]. cbn [post].
  apply maxOf_Forall_links in S1 as (M1 & M2 & M3); [|done]. split.
  - split; [|done]. unfold maxOf in *. apply good_primary; cbn; try lia. by apply wf_list.
  - eapply fewer_trans_l; [|by apply take_fewer]. take_tac.
Qed.

Definition map_inv (st : map_state) : Prop :=
  Forall (fun kv => goodn h kv.2) (ms_entries st)
  /\ ms_links st = maxOf kv_links (ms_entries st)
  /\ NoDup ((ms_entries st).*1)
  /\ (forall k, k ∈ (ms_entries st).*1 -> k ∈ ms_seen st).

Lemma map_inv_snoc st key n lk : map_inv st -> key ∉ ms_seen st -> goodn h n -> lk = links n ->
  map_inv (mkMap (ms_entries st ++ [(key, n)]) ({[key]} ∪ ms_seen st) (maxLinks [ms_links st; lk])).
Proof.
  intros (M1 & M2 & M3 & M4) Hk Hn ->. unfold map_inv. cbn [ms_entries ms_seen ms_links].
  rewrite fmap_app. cbn [fmap list_fmap fst]. repeat split.
  - by apply Forall_app_2; [|constructor].
  - rewrite M2, maxOf_app, maxLinks_two.
    change (maxOf kv_links [(key, n)]) with (Z.max (links n) 0).
    pose proof (maxOf_nonneg kv_links (ms_entries st)). pose proof (links_nonneg n). lia.
  - apply NoDup_app. split; [done|]. split; [|apply NoDup_singleton].
    intros k Hk1 Hk2. apply list_elem_of_singleton in Hk2 as ->. auto.
  - intros k Hin. apply elem_of_app in Hin as [Hin|Hin]; [set_solver|].
    apply list_elem_of_singleton in Hin as ->. set_solver.
Qed.

Lemma v1KeylessEntry_post tok puns : post (fun _ => True) (v1KeylessEntry tok puns).
Proof. unfold v1KeylessEntry, v1KebabError, v1Retired. repeat case_match; done. Qed.

Lemma map_step_post st ts : Forall lexed ts -> map_inv st ->
  post (step_post map_inv map_inv ts) (map_step ternary false st ts).
Proof.
  intros Hts Hst. unfold map_step.
  destruct (check TokenBraceClose ts); [by split; [|apply no_more_refl]|].
  destruct (isType TokenEOF (cur ts)) eqn:He; [apply v1Expected_post|]. apply isType_false in He.
  eapply (post_bind (fun _ => True)).
  { unfold map_key_ok, v1ColonError. repeat case_match; done. } intros [] _.
  eapply (post_bind (fun _ => True)).
  { destruct (_ && (_ || _)); [apply v1KeylessEntry_post | done]. } intros [] _.
  destruct (ContainsRune _ 46); [done|]. case_bool_decide as Hin; [done|]. cbn [andb].
  destruct (negb _).
  { destruct (_ || _); [done|]. destruct (isOp _ _); [done | apply v1Expected_post]. }
  eapply post_bind; [apply v1ExpectOperand_post|]. intros [] Hop.
  assert (Hnm : no_more (v1Take (v1Take ts)) ts) by take_tac.
  eapply post_bind; [apply Hternary; by eapply no_more_Forall|]. intros [v ts3] [(V1 & V2 & _) Hlt].
  assert (Hlt2 : fewer ts3 ts) by (by eapply fewer_trans_r).
  assert (Hst' := map_inv_snoc st (tLiteral (cur ts)) (x_n v) (x_links v) Hst Hin V2 V1).
  destruct (check TokenComma ts3).
  - split; [done|]. eapply fewer_trans_l; [apply take_no_more|done].
  - destruct (check TokenBraceClose ts3); [by split | apply v1Expected_post].
Qed.

Lemma parseV1Map_post ts : Forall lexed ts -> tType (cur ts) <> TokenEOF ->
  post (fun '(e, ts') => chain_base (h + 1) e /\ fewer ts' ts) (parseV1Map ternary ts).
Proof.
  intros Hts Hty. unfold parseV1Map, parseV1MapWith. eapply post_bind.
  { apply (loop_post _ lexed map_inv map_inv); [apply map_step_post| |].
    - by eapply no_more_Forall; [apply take_no_more|].
    - repeat split; [constructor | constructor | set_solver]. }
  intros [st ts1] [(S1 & S2 & S3 & _) Hnm]. cbn [post].
  apply maxOf_Forall_kv in S1 as (M1 & M2 & M3); [|done]. split.
  - split; [|done]. unfold maxOf, kv_links in *. apply good_primary; cbn; try lia. by apply wf_map.
  - eapply fewer_trans_l; [|by apply take_fewer]. take_tac.
Qed.

(** *** Names and calls *)

Lemma parseV1FunctionCall_post ts : Forall lexed ts -> tType (cur ts) <> TokenEOF ->
  plain_name (tLiteral (cur ts)) ->
  post (fun '(e, ts') => chain_base (h + 1) e /\ fewer ts' ts) (parseV1FunctionCall asOfOutside ternary ts).
Proof.
  intros Hts Hty Hname. unfold parseV1FunctionCall. destruct (negb _); [done|].
  destruct (retired_call _); [done|]. destruct (memS _ bodyCallKinds); [done|].
  destruct (memS _ retiredExprBuiltins); [done|]. destruct (_ =s go "caller"); [done|].
  destruct (_ && asOfOutside); [done|].
  eapply post_bind; [apply parseV1CallArgs_post; by eapply no_more_Forall; [apply take_no_more|]|].
  intros [[[args named] lk] ts1] [Hargs Hnm].
  destruct (isRetiredBodyAccessorCall _ _ _); [done|]. destruct (_ && _); [done|]. cbn [post].
  pose proof (args_heights _ _ _ Hargs) as (L1 & L2 & L3 & L4).
  destruct Hargs as (_ & _ & Hlk & Hnd & Hone & _). unfold maxOf, kv_links in *. split.
  - split; [|done]. apply good_primary; cbn; try lia. by apply wf_call.
  - eapply fewer_trans_l; [|by apply take_fewer]. take_tac.
Qed.

Lemma args_ok_kind kind args named lk : args_ok kind args named lk -> args_ok [] args named lk.
Proof. intros (H1 & H2 & H3 & H4 & H5 & _). by repeat split. Qed.

Lemma parseV1ConstructCall_post ts : Forall lexed ts -> tType (cur ts) <> TokenEOF ->
  In (tLiteral (cur ts)) invocationKindKeywords ->
  post (fun '(e, ts') => chain_base (h + 1) e /\ fewer ts' ts) (parseV1ConstructCall ternary ts).
Proof.
  intros Hts Hty Hkind. unfold parseV1ConstructCall. destruct (ContainsAny _ _) eqn:Hc; [done|].
  destruct (negb _); [done|].
  assert (Hnm0 : no_more (v1Take (v1Take ts)) ts) by take_tac.
  eapply post_bind; [apply parseV1CallArgs_post; by eapply no_more_Forall|].
  intros [[[args named] lk] ts1] [Hargs Hnm]. cbn [post].
  pose proof (args_heights _ _ _ (args_ok_kind _ _ _ _ Hargs)) as (L1 & L2 & L3 & L4).
  destruct Hargs as (_ & _ & Hlk & Hnd & _ & Hempty).
  assert (Hne : tLiteral (cur ts) <> []).
  { intros He. rewrite He in Hkind. by apply memS_In in Hkind. }
  rewrite (Hempty Hne) in *. unfold maxOf, kv_links in *. cbn [foldr] in *. split.
  - split; [|done]. apply good_primary; cbn; try lia. by apply wf_construct.
  - eapply fewer_trans_l; [|by apply take_fewer]. take_tac.
Qed.

Lemma name_root_base text : plain_name text -> text <> go "null" ->
  chain_base (h + 1) (mkV1 (name_root text) 0).
Proof.
  intros Hp Hnull. unfold name_root.
  destruct (text =s go "true") eqn:E1; [split; [apply good_primary|]; cbn; try lia; by try constructor|].
  destruct (text =s go "false") eqn:E2; [split; [apply good_primary|]; cbn; try lia; by try constructor|].
  destruct (text =s go "nil") eqn:E3; [split; [apply good_primary|]; cbn; try lia; by try constructor|].
  apply eqs_false in E1, E2, E3. split; [|done]. apply good_primary; cbn; try lia; try done.
  apply wf_ident; [done|]. destruct (memS text word_values) eqn:Hm; [|done].
  apply memS_In in Hm. cbn [word_values fmap list_fmap In] in Hm. naive_solver.
Qed.

Lemma parseV1Name_post ts : Forall lexed ts -> tType (cur ts) <> TokenEOF ->
  post (fun '(e, ts') => chain_base (h + 1) e /\ fewer ts' ts) (parseV1Name asOfOutside ternary ts).
Proof.
  intros Hts Hty. unfold parseV1Name. destruct (HasPrefix _ _) eqn:Hdot; [done|].
  eapply post_bind; [apply v1PathSegments_post|]. intros segs [Hsegs Htexts]. specialize (Htexts Hdot).
  destruct segs as [|root segs]; [done|]. apply Forall_cons in Hsegs as [Hroot Hsegs].
  destruct (_ =s go "null") eqn:Hnull; [done|]. apply eqs_false in Hnull.
  assert (Hmember : post (fun '(e, ts') => chain_base (h + 1) e /\ fewer ts' ts)
    (v1MemberChain ternary (mkV1 (name_root (sg_text root)) 0) segs false (v1Take ts))).
  { eapply post_impl.
    - apply (v1MemberChain_post (h + 1)); [lia | by eapply no_more_Forall; [apply take_no_more|] | by apply name_root_base | done].
    - intros [e ts'] [? ?]. split; [done|]. eapply fewer_trans_l; [done | by apply take_fewer]. }
  destruct segs as [|seg segs]; [|done].
  assert (Hlit : tLiteral (cur ts) = sg_text root).
  { cbn [fmap list_fmap] in Htexts. rewrite <- (Join_Split (tLiteral (cur ts)) 46), <- Htexts. done. }
  destruct (_ && isInvocationKindKeyword _) eqn:Hk.
  { bprop. apply parseV1ConstructCall_post; [done | done |]. rewrite Hlit. by apply memS_In. }
  destruct (_ && (_ =s go "spec")); [done|]. destruct (_ && (_ =s go "trait")); [done|].
  destruct (_ && isType TokenParenOpen (peekAhead 2 ts)); [done|].
  destruct (_ && negb (_ =s go "false")); [|done].
  apply parseV1FunctionCall_post; [done|done|]. by rewrite Hlit.
Qed.

Lemma v1Number_post tok lit : 
  post (fun v => parsed_literal v /\ (HasPrefix lit (go "-") = false -> negative_number v = false))
    (v1Number tok lit).
Proof.
  unfold v1Number. destruct (ParseNumericLiteral lit) as [v|] eqn:Hv; [|done].
  split; [by eapply numeric_parsed | by eapply numeric_sign].
Qed.

Lemma literal_good p v : parsed_literal v -> p <= nodePrec (LiteralExpr v) ->
  good p (h + 1) (mkV1 (LiteralExpr v) 0).
Proof. intros Hv Hp. repeat split; cbn; try lia; try done; [by apply wf_literal | by left]. Qed.

(** A primary is a chain base, a lambda, or a negative number whose token is
    the one read. *)
Definition primary_ok (ts : list Token) (r : v1Expr * list Token) : Prop :=
  fewer r.2 ts /\
  (chain_base (h + 1) r.1
   \/ (good precPostfix (h + 1) r.1 /\ is_lambda (x_n r.1) = true)
   \/ (good precUnary (h + 1) r.1 /\ is_lambda (x_n r.1) = false
       /\ isType TokenNumber (cur ts) && HasPrefix (tLiteral (cur ts)) (go "-") = true
       /\ cur r.2 = peekAhead 1 ts)).

Lemma primary_base ts r :
  post (fun '(e, ts') => chain_base (h + 1) e /\ fewer ts' ts) r -> post (primary_ok ts) r.
Proof. intros Hr. eapply post_impl; [exact Hr|]. intros [e ts'] [? ?]. by split; [|left]. Qed.

Lemma primary_lambda ts : Forall lexed ts -> tType (cur ts) <> TokenEOF ->
  post (primary_ok ts) (parseV1Lambda ternary ts).
Proof.
  intros Hts Hty. eapply post_impl; [by apply parseV1Lambda_post|].
  intros [e ts'] (? & ? & ?). split; [done|]. right. by left.
Qed.

Lemma leaf_base n : links n = 0 -> height n = 1 -> wf n -> precPostfix <= nodePrec n ->
  is_lambda n = false -> chain_base (h + 1) (mkV1 n 0).
Proof.
  intros H1 H2 H3 H4 H5. split; [|done]. apply good_primary; try done; [by rewrite H1 | lia].
Qed.

Lemma primary_number ts : Forall lexed ts -> tType (cur ts) = TokenNumber ->
  post (primary_ok ts) (v ← v1Number (cur ts) (tLiteral (cur ts)); Ok (mkV1 (LiteralExpr v) 0, v1Take ts)).
Proof.
  intros Hts Hty. destruct (take_tail ts) as (t & ts' & Heq & Htail); [congruence|].
  assert (Hlt : fewer (v1Take ts) ts) by (apply take_fewer; congruence).
  eapply post_bind; [apply v1Number_post|]. intros v [Hv Hneg]. split; [exact Hlt|]. cbn [fst snd x_n].
  destruct (HasPrefix _ _) eqn:Hm.
  - right. right. split; [apply literal_good; [done|]; cbn; case_match; done|]. split; [done|].
    split; [by rewrite (proj2 (isType_true _ _) Hty)|]. by rewrite Htail, Heq.
  - left. apply leaf_base; try done; [by apply wf_literal|]. cbn. by rewrite Hneg.
Qed.

Lemma parseV1Primary_post ts : Forall lexed ts ->
  post (primary_ok ts) (parseV1Primary asOfOutside ternary ts).
Proof.
  intros Hts. unfold parseV1Primary.
  assert (Hleaf : forall n, tType (cur ts) <> TokenEOF -> chain_base (h + 1) (mkV1 n 0) ->
    post (primary_ok ts) (Ok (mkV1 n 0, v1Take ts))).
  { intros n Hty Hn. apply primary_base. split; [done | by apply take_fewer]. }
  destruct (tType (cur ts)) eqn:Hty; try done.
  - destruct (v1IsArrow _); [apply primary_lambda; [done|congruence]|].
    apply primary_base, parseV1Name_post; [done|congruence].
  - by apply primary_number.
  - apply Hleaf; [congruence|]. apply leaf_base; try done. by apply wf_literal.
  - by destruct (_ =s go "$").
  - destruct (v1LambdaAhead _); [apply primary_lambda; [done|congruence]|].
    apply primary_base, parseV1Paren_post; [done|congruence].
  - apply primary_base, parseV1Map_post; [done|congruence].
  - apply primary_base, parseV1List_post; [done|congruence].
  - apply Hleaf; [congruence|]. apply leaf_base; try done. by apply wf_nil.
Qed.

Lemma parseV1Postfix_post ts : Forall lexed ts ->
  isType TokenNumber (cur ts) && HasPrefix (tLiteral (cur ts)) (go "-")
    && v1StartsPostfix (peekAhead 1 ts) = false ->
  gives precUnary (h + 1) ts (parseV1Postfix asOfOutside ternary ts).
Proof.
  intros Hts Hneg. unfold parseV1Postfix. eapply post_bind; [by apply parseV1Primary_post|].
  intros [e ts1] [Hlt Hcases]. cbn [fst snd] in *.
  assert (Hlam : is_lambda (x_n e) = true \/ is_lambda (x_n e) = false) by (destruct (is_lambda _); auto).
  destruct Hlam as [Hlam|Hlam].
  { assert (good precUnary (h + 1) e).
    { destruct Hcases as [[? ?]|[[? ?]|(_ & ? & _)]]; [congruence| |congruence].
      eapply good_weaken; [| |done]; done. }
    by destruct (x_n e). }
  assert (Hgo : post (fun '(e, ts') => good precUnary (h + 1) e /\ fewer ts' ts)
            (parseV1PostfixFrom ternary e ts1)).
  { destruct Hcases as [Hb|[[? ?]|(Hg & _ & Hn & Hcur)]]; [|congruence|].
    - eapply post_impl; [apply (parseV1PostfixFrom_post (h + 1)); [lia | by eapply no_more_Forall; [apply fewer_no_more|]|done]|].
      intros [e' ts'] [[He _] Hnm]. split; [by eapply good_weaken; [| |done] | by eapply fewer_trans_l].
    - rewrite Hn, <- Hcur in Hneg. cbn in Hneg. by rewrite postfix_stop. }
  by destruct (x_n e).
Qed.

Lemma parseV1UngluedNegative_post ts : Forall lexed ts ->
  isType TokenNumber (cur ts) = true ->
  gives precUnary (h + 1) ts (parseV1UngluedNegative ternary ts).
Proof.
  intros Hts Hty. apply isType_true in Hty. unfold parseV1UngluedNegative.
  assert (Hlt : fewer (v1Take ts) ts) by (apply take_fewer; congruence).
  assert (Hlexed : lexed (cur ts)).
  { destruct ts as [|t ts]; [done|]. by apply Forall_cons in Hts as [? _]. }
  eapply post_bind; [apply v1Number_post|]. intros v [Hv Hneg].
  specialize (Hneg (lexed_number_magnitude _ Hlexed Hty)).
  eapply post_bind.
  { apply (parseV1PostfixFrom_post h); [lia | by eapply no_more_Forall; [apply fewer_no_more|]|].
    split; [|done]. repeat split; cbn; try lia; try done; [by apply wf_literal|].
    left. cbn. by rewrite Hneg. }
  intros [e ts'] [[(E1 & (E2 & E3 & E4) & E5) _] Hnm]. cbn [post].
  split; [|by eapply fewer_trans_l]. repeat split; cbn; try lia; [|by left].
  apply wf_unary; [right; by left | done | by eapply fits_weaken; [|done]].
Qed.

(** *** The unary level *)

Lemma v1NegateLiteral_good n lit : v1NegateLiteral n = Some lit -> good precUnary (h + 1) (mkV1 lit 0).
Proof.
  unfold v1NegateLiteral. destruct n as [| | | | | | | | | | |v| |]; try done.
  destruct v; try done; case_match; try done; intros [= <-]; apply literal_good; try done;
    unfold nodePrec; case_match; done.
Qed.

Lemma prefix_body_post (unary : list Token -> result parse_error (v1Expr * list Token)) ts :
  (forall ts, Forall lexed ts -> gives precUnary h ts (unary ts)) ->
  Forall lexed ts -> isType TokenBang (cur ts) || isOp (go "-") (cur ts) = true ->
  gives precUnary (h + 1) ts (prefix_body unary ts).
Proof.
  intros Hu Hts Htok. unfold prefix_body.
  assert (Hbang : isType TokenBang (cur ts) = true -> tLiteral (cur ts) = go "!").
  { intros Hb. apply isType_true in Hb. destruct ts as [|t ts]; [done|].
    apply Forall_cons in Hts as [Ht _]. by apply lexed_bang. }
  eapply post_bind; [apply v1ExpectOperand_post|]. intros [] Hop.
  eapply post_bind; [apply Hu; by eapply no_more_Forall; [apply take_no_more|]|].
  intros [e ts2] [(E1 & (E2 & E3 & E4) & E5) Hlt].
  assert (Hlt2 : fewer ts2 ts) by take_tac.
  assert (In (tLiteral (cur ts)) (go <$> ["!"; "-"]%string)).
  { apply orb_true_iff in Htok as [Hb|Hm]; [rewrite Hbang by done; by left|].
    unfold isOp in Hm. bprop. rename select ((_ =s _) = true) into Hl. apply eqs_true in Hl.
    rewrite Hl. right. by left. }
  assert (Hplain : good precUnary (h + 1) (mkV1 (UnaryExpr (tLiteral (cur ts)) (x_n e)) (x_links e))).
  { repeat split; cbn; try lia; [|by left]. by apply wf_unary. }
  destruct (if isOp (go "-") (cur ts) then v1NegateLiteral (x_n e) else None) as [lit|] eqn:Hl;
    cbn [post]; (split; [|done]); [|done].
  destruct (isOp _ _); [|done]. by eapply v1NegateLiteral_good.
Qed.
End Nested.

(** ** The binary levels *)

Section Levels.
Context `{UnicodeTables} (hu : Z).

Abbreviation vparser := (list Token -> result parse_error (v1Expr * list Token)) (only parsing).

Definition level (p : Z) (next : vparser) : Prop :=
  forall ts, Forall lexed ts -> gives p hu ts (next ts).

Lemma v1Binary_post tok op l r p :
  good p hu l -> good (p + 1) hu r -> binaryPrec op = p ->
  In p [precOr; precAnd; precCoalesce; precAdditive; precMultiplicative] ->
  post (good p hu) (v1Binary tok op l r).
Proof.
  intros (L1 & (L2 & L3 & L4) & L5) (R1 & (R2 & R3 & R4) & R5) Hop Hp. unfold v1Binary.
  eapply post_bind; [apply v1ChainLink_post|]. intros lk [-> Hlk]. cbn [post].
  pose proof (links_nonneg (x_n l)). rewrite maxLinks_two in *.
  repeat split; cbn [x_n x_links links height]; try lia.
  - apply wf_binary; try done; by rewrite Hop.
  - left. cbn. lia.
Qed.

Lemma v1Binary_compare tok op l r :
  good precCoalesce hu l -> good precCoalesce hu r -> binaryPrec op = precCompare ->
  post (good precCompare hu) (v1Binary tok op l r).
Proof.
  intros (L1 & (L2 & L3 & L4) & L5) (R1 & (R2 & R3 & R4) & R5) Hop. unfold v1Binary.
  eapply post_bind; [apply v1ChainLink_post|]. intros lk [-> Hlk]. cbn [post].
  pose proof (links_nonneg (x_n l)). rewrite maxLinks_two in *.
  repeat split; cbn [x_n x_links links height]; try lia.
  - by apply wf_compare.
  - left. cbn. lia.
Qed.

Lemma parseV1LeftAssoc_post p next op :
  level (p + 1) next ->
  (forall t name, op t = Some name -> binaryPrec name = p /\ tType t <> TokenEOF) ->
  In p [precOr; precAnd; precCoalesce; precAdditive; precMultiplicative] ->
  level p (parseV1LeftAssoc next op).
Proof.
  intros Hnext Hop Hp ts Hts. unfold parseV1LeftAssoc.
  eapply post_bind; [by apply Hnext|]. intros [l ts1] [Hl Hlt].
  eapply post_impl.
  { apply (loop_post _ lexed (good p hu) (good p hu)).
    2: by eapply no_more_Forall; [apply fewer_no_more|].
    2: { eapply good_weaken; [| |exact Hl]; lia. }
    intros lhs us Hus Hlhs. unfold left_assoc_step.
    destruct (op (cur us)) as [name|] eqn:Ho; [|by split; [|apply no_more_refl]].
    destruct (Hop _ _ Ho) as [Hprec Hty].
    eapply post_bind; [apply v1ExpectOperand_post|]. intros [] _.
    eapply post_bind; [apply Hnext; by eapply no_more_Forall; [apply take_no_more|]|].
    intros [r us2] [Hr Hlt2].
    eapply post_bind; [by apply (v1Binary_post _ _ _ _ p)|]. intros e He. cbn [post].
    split; [done|]. eapply fewer_trans_r; [done | apply take_no_more]. }
  intros [e ts2] [He Hnm]. split; [done | by eapply fewer_trans_l].
Qed.

Lemma op_prec_in ops t name p : v1OperatorIn ops t = Some name ->
  Forall (fun o => binaryPrec o = p) ops -> binaryPrec name = p /\ tType t <> TokenEOF.
Proof.
  unfold v1OperatorIn. destruct (_ && _) eqn:Hb; [|done]. intros [= <-] Hall. bprop.
  rename select (isType _ _ = true) into Hty. apply isType_true in Hty.
  rename select (memS _ _ = true) into Hm. apply memS_In in Hm.
  split; [|congruence]. by eapply List.Forall_forall in Hall.
Qed.

Lemma op_prec_token ty s t name p : v1TokenOp ty s t = Some name ->
  binaryPrec s = p -> ty <> TokenEOF -> binaryPrec name = p /\ tType t <> TokenEOF.
Proof.
  unfold v1TokenOp. destruct (isType ty t) eqn:Ht; [|done]. intros [= <-] Hs Hty.
  apply isType_true in Ht. split; [done | congruence].
Qed.

Lemma comparison_prec t op : v1ComparisonOp t = Some op -> binaryPrec op = precCompare /\ tType t <> TokenEOF.
Proof.
  unfold v1ComparisonOp. destruct (tType t) eqn:Ht; try done; [|by intros [= <-]..].
  destruct (memS _ _) eqn:Hm; [|done]. intros [= <-]. split; [|done].
  apply memS_In in Hm. cbn [comparisonOps fmap list_fmap In] in Hm.
  by repeat destruct Hm as [<-|Hm].
Qed.

Context (unary : vparser) (Hunary : level precUnary unary).

Lemma parseV1Coalesce_post : level precCoalesce (parseV1Coalesce unary).
Proof.
  apply (parseV1LeftAssoc_post precCoalesce).
  2: intros t name Ho; by eapply op_prec_token.
  2: by right; right; left.
  apply (parseV1LeftAssoc_post precAdditive).
  2: intros t name Ho; eapply op_prec_in; [exact Ho|]; by repeat constructor.
  2: by right; right; right; left.
  apply (parseV1LeftAssoc_post precMultiplicative); [exact Hunary| |by right; right; right; right; left].
  intros t name Ho. eapply op_prec_in; [exact Ho|]. by repeat constructor.
Qed.

(** Comparisons do not chain: a comparison's operands are no comparisons. *)
Lemma parseV1Compare_post : level precCompare (parseV1Compare unary).
Proof.
  intros ts Hts. unfold parseV1Compare.
  eapply post_bind; [by apply parseV1Coalesce_post|]. intros [l ts1] [Hl Hlt].
  destruct (v1ComparisonOp (cur ts1)) as [op|] eqn:Ho.
  2:{ cbn [post]. split; [|done]. eapply good_weaken; [| |exact Hl]; done. }
  destruct (comparison_prec _ _ Ho) as [Hprec Hty].
  eapply post_bind; [apply v1ExpectOperand_post|]. intros [] _.
  assert (Hnm : no_more (v1Take ts1) ts) by take_tac.
  eapply post_bind; [apply parseV1Coalesce_post; by eapply no_more_Forall|]. intros [r ts3] [Hr Hlt3].
  destruct (v1ComparisonOp (cur ts3)); [done|].
  eapply post_bind; [by apply v1Binary_compare|]. intros e He. cbn [post].
  split; [done|]. by eapply fewer_trans_r.
Qed.

Lemma parseV1Or_post : level precOr (parseV1Or unary).
Proof.
  apply (parseV1LeftAssoc_post precOr); [|intros t name Ho; by eapply op_prec_token | by left].
  apply (parseV1LeftAssoc_post precAnd); [exact parseV1Compare_post| |by right; left].
  intros t name Ho. by eapply op_prec_token.
Qed.
End Levels.

(** ** The whole grammar *)

Section Grammar.
Context `{UnicodeTables} (asOfOutside : bool).
Implicit Types ternary unary : list Token -> result parse_error (v1Expr * list Token).

Lemma ternary_body_post ternary unary h hu :
  (forall ts, Forall lexed ts -> gives precLambda h ts (ternary ts)) ->
  level hu precUnary unary ->
  level (Z.max h hu + 1) precLambda (ternary_body ternary unary).
Proof.
  intros Ht Hu ts Hts. unfold ternary_body.
  eapply post_bind; [by apply (parseV1Or_post hu)|]. intros [c ts1] [Hc Hlt].
  destruct (negb _) eqn:Hq.
  { cbn [post]. split; [|done]. eapply good_weaken; [| |exact Hc]; [done | lia]. }
  bprop. apply isType_true in Hq.
  eapply post_bind; [apply v1ExpectOperand_post|]. intros [] _.
  assert (Hnm2 : no_more (v1Take ts1) ts) by take_tac.
  eapply post_bind; [apply Ht; by eapply no_more_Forall|]. intros [t ts3] [Htt Hlt3].
  destruct (negb _); [apply v1Expected_post|].
  eapply post_bind; [apply v1ExpectOperand_post|]. intros [] _.
  assert (Hnm4 : no_more (v1Take ts3) ts) by take_tac.
  eapply post_bind; [apply Ht; by eapply no_more_Forall|]. intros [e ts5] [He Hlt5]. cbn [post].
  split; [|by eapply fewer_trans_r].
  destruct Hc as (C1 & (C2 & C3 & C4) & C5), Htt as (T1 & (T2 & T3 & T4) & T5), He as (E1 & (E2 & E3 & E4) & E5).
  change (maxLinks [x_links c; x_links t; x_links e]) with (Z.max (Z.max (Z.max 0 (x_links c)) (x_links t)) (x_links e)).
  pose proof (links_nonneg (x_n c)). repeat split; cbn [x_n x_links links height]; try lia.
  - by apply wf_ternary.
  - by left.
Qed.

Lemma unary_body_post ternary prefixed h : 1 <= h ->
  (forall ts, Forall lexed ts -> gives precLambda h ts (ternary ts)) ->
  (forall ts, Forall lexed ts -> isType TokenBang (cur ts) || isOp (go "-") (cur ts) = true ->
     gives precUnary (h + 1) ts (prefixed ts)) ->
  level (h + 1) precUnary (unary_body asOfOutside ternary prefixed).
Proof.
  intros Hh Ht Hp ts Hts. unfold unary_body.
  destruct (isType TokenBang _ || _) eqn:Hpre; [by apply Hp|].
  destruct (_ && v1StartsPostfix _) eqn:Hneg.
  - apply parseV1UngluedNegative_post; try done. by bprop.
  - by apply parseV1Postfix_post.
Qed.

Lemma parsers_post budget :
  (forall ts, Forall lexed ts -> gives precLambda (2 * Z.of_nat budget + 1) ts (parseV1Ternary asOfOutside budget ts))
  /\ level (2 * Z.of_nat budget + 2) precUnary (parseV1Unary asOfOutside budget).
Proof.
  unfold parseV1Ternary, parseV1Unary. induction budget as [|b [IHt IHu]].
  - cbn. split; [done|]. apply (unary_body_post _ _ 1); done.
  - cbn [parsers]. destruct (parsers asOfOutside b) as [tb ub]. cbn [fst snd] in *.
    assert (Ht : level (2 * Z.of_nat (S b) + 1) precLambda (ternary_body tb ub)).
    { replace (2 * Z.of_nat (S b) + 1) with (Z.max (2 * Z.of_nat b + 1) (2 * Z.of_nat b + 2) + 1) by lia.
      by apply ternary_body_post. }
    split; [exact Ht|]. replace (2 * Z.of_nat (S b) + 2) with (2 * Z.of_nat (S b) + 1 + 1) by lia.
    apply unary_body_post; [lia | exact Ht |]. intros ts Hts Hpre.
    apply prefix_body_post; [lia| |done|done]. intros us Hus.
    eapply gives_weaken; [| |by apply IHu]; lia.
Qed.
End Grammar.

Lemma v1ExpectEnd_post ts : post (fun _ => True) (v1ExpectEnd ts).
Proof.
  unfold v1ExpectEnd. pose proof (v1RefuseMistake_post ts) as Hm.
  destruct (tType (cur ts)); try done; by destruct (v1RefuseMistake ts).
Qed.

Lemma parse_whole_post `{UnicodeTables} src :
  match parse_whole src with
  | Ok (e, _) => good precLambda (2 * Z.of_nat v1MaxDepth + 1) e
  | Err (VLex e) => e <> LexFuel
  | Err (VParse e) => pe_what e <> WFuel
  end.
Proof.
  unfold parse_whole. generalize v1MaxDepth as b. intros b. pose proof (Tokenize_no_fuel src) as Hn.
  destruct (Tokenize src) as [toks|e] eqn:Ht; [|congruence]. apply Tokenize_lexed in Ht.
  destruct (parsers_post false b) as [Hp _]. specialize (Hp toks Ht).
  assert (Hall : post (good precLambda (2 * Z.of_nat b + 1))
    ('(e, ts) ← parseV1Ternary false b toks; _ ← v1ExpectEnd ts; Ok e)).
  { eapply post_bind; [exact Hp|]. intros [e ts] [He _].
    eapply post_bind; [apply v1ExpectEnd_post|]. by intros [] _. }
  by destruct (mbind _ _).
Qed.

(** A walk over a well-formed tree shows the visitor only well-formed nodes. *)
Section WalkWf.
Context {S : Type} (visit : expr -> S -> bool * S) (P : S -> Prop).
Context (Hvisit : forall n s, wf n -> P s -> P (visit n s).2).

Lemma fold_walk {A} (f : A -> expr) l s :
  Forall (fun a => forall s, wf (f a) -> P s -> P (WalkV1 visit (f a) s)) l ->
  Forall (fun a => wf (f a)) l -> P s -> P (fold_left (fun s a => WalkV1 visit (f a) s) l s).
Proof.
  intros Hall. revert s. induction Hall as [|a l Ha _ IH]; intros s Hwf Hs; [done|].
  apply Forall_cons in Hwf as [Hwa Hwf]. cbn [fold_left]. apply IH; [done|]. by apply Ha.
Qed.

Lemma WalkV1_wf n s : wf n -> P s -> P (WalkV1 visit n s).
Proof.
  revert s. induction n using expr_ind'; intros s Hwf Hs; cbn [WalkV1]; try done;
    pose proof (Hvisit _ _ Hwf Hs) as Hv; destruct (visit _ s) as [descend s'];
    destruct descend; cbn [negb]; try done; cbn in Hv; inversion Hwf; subst; eauto;
    try (apply (fold_walk (fun a => a)); done); try (apply (fold_walk snd); done).
  all: cbn [WalkV1]; apply (fold_walk snd); [done | done |].
  all: first [done | apply (fold_walk (fun a => a)); auto].
Qed.
End WalkWf.

(** ** Theorems *)

(** C10: Parsing terminates within its bounds on every input: [ParseV1Expression]
    answers a tree or an error of the lexer or the grammar, and no loop of
    either ever runs out of the fuel the model gives it, which is one more than
    the tokens left. *)
Theorem ParseV1Expression_terminates `{UnicodeTables} (src : gostring) :
  match ParseV1Expression src with
  | Ok _ => True
  | Err (VLex e) => e <> LexFuel
  | Err (VParse e) => pe_what e <> WFuel
  end.
Proof.
  unfold ParseV1Expression. pose proof (parse_whole_post src) as Hp.
  destruct (parse_whole src) as [[e t]|]; [exact I | exact Hp].
Qed.

(** C8: Every tree the parser returns is well formed: operands bind at least as
    tightly as their position needs (a lambda apart), comparisons do not chain,
    names have no glued dot, colon or hyphen, the word values are not read as
    identifiers, no call mixes positional and named arguments, and argument
    names, map keys and lambda parameters do not repeat. *)
Theorem ParseV1Expression_wf `{UnicodeTables} (src : gostring) (n : expr) :
  ParseV1Expression src = Ok n -> wf n.
Proof.
  unfold ParseV1Expression. pose proof (parse_whole_post src) as Hp.
  destruct (parse_whole src) as [[e t]|]; [|done]. intros [= <-]. by destruct Hp as (_ & (_ & _ & ?) & _).
Qed.

Definition sample_source : gostring := go "a.b + 2 * f(x, y => y) == c ? [1, {k: v}] : !d.?e".

Lemma ParseV1Expression_wf_witness :
  exists n, @ParseV1Expression latin1_tables sample_source = Ok n /\ wf n.
Proof.
  eexists. split; [vm_compute; reflexivity|].
  apply (@ParseV1Expression_wf latin1_tables sample_source). vm_compute. reflexivity.
Defined.

(** C9: The bound of chain_bound.go holds for every parsed tree: no path carries
    more than [MaxExpressionChain] links, and the tree is at most its links
    plus two levels for each of the [v1MaxDepth] nesting levels tall, so a
    recursive reader of a parsed tree recurses at most 4609 deep. *)
Theorem ParseV1Expression_bounded `{UnicodeTables} (src : gostring) (n : expr) :
  ParseV1Expression src = Ok n ->
  links n <= MaxExpressionChain /\ height n <= links n + (2 * Z.of_nat v1MaxDepth + 1)
  /\ height n <= 4609.
Proof.
  unfold ParseV1Expression. pose proof (parse_whole_post src) as Hp.
  destruct (parse_whole src) as [[e t]|]; [|done]. intros [= <-].
  destruct Hp as (_ & (H1 & H2 & _) & _). unfold MaxExpressionChain in *.
  repeat split; [done|done|]. change (Z.of_nat v1MaxDepth) with 256 in H2. lia.
Qed.

Lemma ParseV1Expression_bounded_witness :
  exists n, @ParseV1Expression latin1_tables sample_source = Ok n
    /\ links n <= MaxExpressionChain /\ height n <= links n + (2 * Z.of_nat v1MaxDepth + 1)
    /\ height n <= 4609.
Proof.
  eexists. split; [vm_compute; reflexivity|].
  apply (@ParseV1Expression_bounded latin1_tables sample_source). vm_compute. reflexivity.
Defined.

(** Every node of a parsed tree has a kind: a walk over the tree the parser
    returned never meets a node [KindOf] calls unknown, so a reader that
    dispatches on [AllNodeKinds] covers all of it. *)
Theorem parsed_kinds_known `{UnicodeTables} (src : gostring) (n : expr) :
  ParseV1Expression src = Ok n ->
  Forall (fun k => In k AllNodeKinds) (WalkV1 (fun e ks => (true, KindOf e :: ks)) n []).
Proof.
  unfold ParseV1Expression. pose proof (parse_whole_post src) as Hp.
  destruct (parse_whole src) as [[e t]|]; [|done]. intros [= <-].
  destruct Hp as (_ & (_ & _ & Hwf) & _).
  apply (WalkV1_wf _ (Forall (fun k => In k AllNodeKinds))); [|done|constructor].
  intros m ks Hm Hks. constructor; [|done]. apply AllNodeKinds_complete. by apply wf_kind.
Qed.

Lemma parsed_kinds_known_witness :
  exists n, @ParseV1Expression latin1_tables sample_source = Ok n
    /\ Forall (fun k => In k AllNodeKinds) (WalkV1 (fun e ks => (true, KindOf e :: ks)) n []).
Proof.
  eexists. split; [vm_compute; reflexivity|].
  apply (@parsed_kinds_known latin1_tables sample_source). vm_compute. reflexivity.
Defined.

(** The binary rows of the published table. *)
Definition binary_rows : list PrecedenceLevel :=
  List.filter (fun lv => between 3 8 (Level lv)) V1PrecedenceTable.

Definition row_of (op : gostring) : option PrecedenceLevel :=
  List.find (fun lv => memS op (Operators lv)) binary_rows.

(** How the table groups [a op1 b op2 c]; [None] where it does not chain. *)
Definition table_grouping (op1 op2 : gostring) : option expr :=
  let a := IdentExpr (go "a") in let b := IdentExpr (go "b") in let c := IdentExpr (go "c") in
  let left_first := BinaryExpr op2 (BinaryExpr op1 a b) c in
  let right_first := BinaryExpr op1 a (BinaryExpr op2 b c) in
  match row_of op1, row_of op2 with
  | Some r1, Some r2 =>
      if Level r1 <? Level r2 then Some left_first
      else if Level r2 <? Level r1 then Some right_first
      else if Assoc r1 =s go "left" then Some left_first else None
  | _, _ => None
  end.

(** The parser reads every pair of binary operators the way the published
    precedence table says: a tighter operator groups first, operators of one
    left-associative row group from the left, and comparisons, which the table
    marks non-associative, are refused when chained. *)
Theorem precedence_table_matches_parser `{UnicodeTables} (op1 op2 : gostring) :
  In op1 (concat (Operators <$> binary_rows)) -> In op2 (concat (Operators <$> binary_rows)) ->
  let src := go "a " ++ op1 ++ go " b " ++ op2 ++ go " c" in
  match table_grouping op1 op2 with
  | Some n => ParseV1Expression src = Ok n
  | None => exists tok o1 o2, ParseV1Expression src = Err (VParse (mkErr tok (WComparisonsDoNotChain o1 o2)))
  end.
Proof.
  intros H1 H2. cbn in H1, H2.
  repeat destruct H1 as [<-|H1]; try done; repeat destruct H2 as [<-|H2]; try done;
    vm_compute; eauto.
Qed.

Lemma precedence_table_matches_parser_witness :
  @ParseV1Expression latin1_tables (go "a ?? b * c")
  = Ok (BinaryExpr (go "??") (IdentExpr (go "a")) (BinaryExpr (go "*") (IdentExpr (go "b")) (IdentExpr (go "c")))).
Proof.
  apply (@precedence_table_matches_parser latin1_tables (go "??") (go "*")); vm_compute; tauto.
Defined.
