(* ===== verification/Canonical.v ===== *)
(** The trees the printer and the parser agree on, and the tokens a printed
    tree is made of.

    [printable] collects the lexical demands on a tree: names the lexer reads as
    one word, literals that read back, calls the parser does not refuse.
    [bracketed] says no operand needs the parentheses formatChild adds, and
    [reparen] is the tree with a ParenExpr wherever it adds them.  [lexemes] is
    the token sequence of the printed text, proved to be what the lexer reads
    in Lexing.v and what the parser builds the tree from in RoundTrip.v. *)

From S2P Require Import Prelude GoText Strconv Ast Lexer Refusals Parser Printer ParserFacts.

#[export] Instance float64_eq_dec : EqDecision float64.
Proof. solve_decision. Defined.

#[export] Instance literal_eq_dec : EqDecision literal.
Proof. solve_decision. Defined.

(** ** Parentheses *)

(** [reparen n] makes the parentheses of the printed text part of the tree. *)
Fixpoint reparen (n : expr) : expr :=
  let child (c : expr) (min : Z) :=
    if nodePrec c <? min then ParenExpr (reparen c) else reparen c in
  match n with
  | MemberExpr o f opt => MemberExpr (child o precPostfix) f opt
  | CallExpr r name kind args named =>
      CallExpr (if is_nil_node r then NilNode else child r precPostfix) name kind
        (reparen <$> args) ((fun kv => (kv.1, reparen kv.2)) <$> named)
  | UnaryExpr op x => UnaryExpr op (child x precUnary)
  | BinaryExpr op l r =>
      let p := binaryPrec op in
      if p =? precCompare
      then BinaryExpr op (child l (precCompare + 1)) (child r (precCompare + 1))
      else BinaryExpr op (child l p) (child r (p + 1))
  | TernaryExpr c t e =>
      TernaryExpr (child c (precTernary + 1)) (child t (precTernary + 1)) (child e precTernary)
  | LambdaExpr ps b => LambdaExpr ps (reparen b)
  | ListExpr es => ListExpr (reparen <$> es)
  | MapExpr es => MapExpr ((fun kv => (kv.1, reparen kv.2)) <$> es)
  | ParenExpr i => ParenExpr (reparen i)
  | _ => n
  end.

(** No operand of [n] binds more loosely than its place allows. *)
Fixpoint bracketed (n : expr) : bool :=
  let child (c : expr) (min : Z) := (min <=? nodePrec c) && bracketed c in
  match n with
  | MemberExpr o _ _ => child o precPostfix
  | CallExpr r _ _ args named =>
      (is_nil_node r || child r precPostfix) && forallb bracketed args
      && forallb (fun kv => bracketed kv.2) named
  | UnaryExpr _ x => child x precUnary
  | BinaryExpr op l r =>
      let p := binaryPrec op in
      if p =? precCompare then child l (precCompare + 1) && child r (precCompare + 1)
      else child l p && child r (p + 1)
  | TernaryExpr c t e =>
      child c (precTernary + 1) && child t (precTernary + 1) && child e precTernary
  | LambdaExpr _ b => bracketed b
  | ListExpr es => forallb bracketed es
  | MapExpr es => forallb (fun kv => bracketed kv.2) es
  | ParenExpr i => bracketed i
  | _ => true
  end.

(** ** Nesting *)

(** The depth budget the parser spends on [n] inside one full expression: one
    unit per prefix operator and per nested full expression. *)
Fixpoint nesting (n : expr) : nat :=
  let all := foldr (fun a m => Nat.max (S (nesting a)) m) 0%nat in
  let allkv := foldr (fun (kv : gostring * expr) m => Nat.max (S (nesting kv.2)) m) 0%nat in
  match n with
  | MemberExpr o _ _ => nesting o
  | CallExpr r _ _ args named => Nat.max (nesting r) (Nat.max (all args) (allkv named))
  | UnaryExpr _ x => S (nesting x)
  | BinaryExpr _ l r => Nat.max (nesting l) (nesting r)
  | TernaryExpr c t e => Nat.max (nesting c) (Nat.max (S (nesting t)) (S (nesting e)))
  | LambdaExpr _ b => S (nesting b)
  | ListExpr es => all es
  | MapExpr es => allkv es
  | ParenExpr i => S (nesting i)
  | _ => 0%nat
  end.

(** ** Lexical demands *)

(** No name repeats. *)
Fixpoint distinct (l : list gostring) : bool :=
  match l with
  | [] => true
  | x :: l' => negb (memS x l') && distinct l'
  end.

(** A literal whose text the lexer reads as one number of that value. *)
Definition number_reads (v : literal) : bool :=
  bool_decide (ParseNumericLiteral (FormatLiteral v) = Some v)
  && bool_decide (number_text (FormatLiteral v) = (FormatLiteral v, []))
  && (isDigit (peek (FormatLiteral v))
      || ((peek (FormatLiteral v) =? 45) && nextIs isDigit (FormatLiteral v))).

Definition literal_ok (v : literal) : bool :=
  match v with
  | VString s => forallb (fun r => 0 <=? r) s
  | VBool _ => true
  | VInt64 z => in_int64 z
  | VFloat _ => number_reads v
  | VInt _ | VNull | VOther => false
  end.

(** A number printed with a minus sign: [-0.0] too, which binds as tightly as
    any primary for nodePrec. *)
Definition minus_literal (n : expr) : bool :=
  match n with
  | LiteralExpr (VString _) => false
  | LiteralExpr v => HasPrefix (FormatLiteral v) (go "-")
  | _ => false
  end.

(** Whether the text of [n] ends in a word a member name is glued to. *)
Definition open_ended (n : expr) : bool :=
  match n with
  | IdentExpr _ | MemberExpr _ _ _ | LiteralExpr (VBool _) | NilExpr => true
  | _ => false
  end.

Section Printable.
Context `{UnicodeTables}.

(** A word the lexer reads as one segment. *)
Definition segment (s : gostring) : bool := negb (s =s []) && forallb path_char s.

(** A segment that a token can start with. *)
Definition word (s : gostring) : bool := segment s && negb (isDigit (hd 0 s)).

(** A segment that starts a member after something other than a word. *)
Definition dot_word (s : gostring) : bool := segment s && v1IsCallableName s.

(** An argument name or a map key: a hyphen may follow the first character. *)
Definition key (s : gostring) : bool :=
  match s with
  | c :: s' => path_char c && negb (isDigit c) && forallb isIdentifierCharNoColon s'
  | [] => false
  end.

Definition plain_word (s : gostring) : bool :=
  word s && bool_decide (keyword_type s = TokenIdentifier).

Definition value_words : list gostring := go <$> ["true"; "false"; "null"]%string.

(** A field of [o]: a number only after a word, and not after [.?]. *)
Definition field_ok (o : expr) (f : gostring) (opt : bool) : bool :=
  if opt then word f else if open_ended o then segment f else dot_word f.

(** A bare call parseV1FunctionCall accepts. *)
Definition call_ok (name : gostring) (args : list expr) (named : list (gostring * expr)) : bool :=
  let lower := ToLower name in
  plain_word name && dot_word name && negb (memS name value_words)
  && bool_decide (retired_call lower = None)
  && negb (memS name bodyCallKinds) && negb (memS lower retiredExprBuiltins)
  && negb (lower =s go "caller")
  && match args, named with [MapExpr _], [] => false | _, _ => true end
  && negb (isRetiredBodyAccessorCall lower args named)
  && negb ((lower =s go "contains")
           && match args with [_; a] => negb (v1IsLambda a) | _ => false end).

Definition names_ok (args : list expr) (named : list (gostring * expr)) : bool :=
  ((length args =? 0)%nat || (length named =? 0)%nat)
  && forallb (fun kv => key kv.1 && negb (memS kv.1 reservedArgsNames)) named
  && distinct (named.*1).

Definition params_ok (ps : list gostring) : bool :=
  forallb (fun p => plain_word p && negb (memS p value_words)) ps && distinct ps.

Definition operators : list gostring :=
  go <$> ["||"; "&&"; "=="; "!="; "<"; "<="; ">"; ">="; "in"; "startsWith"; "??"; "+"; "-"; "*";
          "/"; "%"]%string.

(** [glued] says a member name follows, so the name is not a token of its own. *)
Definition ident_ok (glued : bool) (name : gostring) : bool :=
  word name && negb (memS name word_values)
  && (glued || bool_decide (keyword_type name = TokenIdentifier)).

(** The demands on a tree, those on its literals being [lit_ok]. *)
Fixpoint printable_with (lit_ok : literal -> bool) (glued : bool) (n : expr) : bool :=
  let printable := printable_with lit_ok false in
  match n with
  | IdentExpr name => ident_ok glued name
  | MemberExpr o f opt => printable_with lit_ok (negb opt) o && negb (minus_literal o) && field_ok o f opt
  | CallExpr r name kind args named =>
      forallb printable args && forallb (fun kv => printable kv.2) named && names_ok args named
      && (if negb (kind =s []) then
            is_nil_node r && memS kind invocationKindKeywords && plain_word name
            && (length args =? 0)%nat
          else if is_nil_node r then call_ok name args named
          else printable_with lit_ok true r && negb (minus_literal r) && dot_word name
               && negb (name =s go "contains"))
  | UnaryExpr op x =>
      printable x && ((op =s go "!") || ((op =s go "-") && bool_decide (v1NegateLiteral x = None)))
  | BinaryExpr op l r => printable l && printable r && memS op operators
  | TernaryExpr c t e => printable c && printable t && printable e
  | LambdaExpr ps b => params_ok ps && printable b
  | ListExpr es => forallb printable es
  | MapExpr es =>
      forallb (fun kv => printable kv.2) es && forallb (fun kv => key kv.1) es && distinct (es.*1)
  | ParenExpr i => printable i
  | LiteralExpr v => lit_ok v
  | NilExpr => true
  | NilNode | ForeignNode _ => false
  end.

End Printable.

Abbreviation printable_in := (printable_with literal_ok).
Abbreviation printable := (printable_with literal_ok false).

(** ** The tokens of a printed tree *)

Abbreviation lexeme := (TokenType * gostring)%type (only parsing).

(** Member names glued to what precedes them: [.a.b]. *)
Definition dotted (names : list gostring) : gostring := concat (cons 46 <$> names).

(** The token a word is read as. *)
Definition word_lexeme (s : gostring) : lexeme := (keyword_type s, s).

(** Names after something that is not a word are a token of their own. *)
Definition dotted_lexemes (names : list gostring) : list lexeme :=
  match names with [] => [] | _ => [(TokenIdentifier, dotted names)] end.

Fixpoint separated (parts : list (list lexeme)) : list lexeme :=
  match parts with
  | [] => []
  | [p] => p
  | p :: ps => p ++ (TokenComma, go ",") :: separated ps
  end.

Definition in_parens (ls : list lexeme) : list lexeme :=
  (TokenParenOpen, go "(") :: ls ++ [(TokenParenClose, go ")")].

(** A minus before a number is read with it. *)
Definition minus_lexemes (ls : list lexeme) : list lexeme :=
  match ls with
  | (TokenNumber, d :: lit) :: ls' =>
      if isDigit d then (TokenNumber, 45 :: d :: lit) :: ls'
      else (TokenOperator, go "-") :: ls
  | _ => (TokenOperator, go "-") :: ls
  end.

Definition operator_lexeme (op : gostring) : lexeme :=
  if op =s go "||" then (TokenPipePipe, op)
  else if op =s go "&&" then (TokenAmpAmp, op)
  else if op =s go "??" then (TokenQuestionQuestion, op)
  else if op =s go "in" then (TokenKeywordIn, op)
  else if op =s go "startsWith" then (TokenKeywordStartsWith, op)
  else (TokenOperator, op).

Definition literal_lexeme (v : literal) : lexeme :=
  match v with
  | VString s => (TokenString, s)
  | _ => (TokenNumber, FormatLiteral v)
  end.

Definition params_lexemes (ps : list gostring) : list lexeme :=
  match ps with
  | [p] => [word_lexeme p]
  | _ => in_parens (separated ((fun p => [word_lexeme p]) <$> ps))
  end.

(** The tokens of [n] with member names [names] glued to its end. *)
Fixpoint lexemes (names : list gostring) (n : expr) : list lexeme :=
  let entry (kv : gostring * expr) :=
    word_lexeme kv.1 :: (TokenColon, go ":") :: lexemes [] kv.2 in
  match n with
  | IdentExpr name => [word_lexeme (name ++ dotted names)]
  | MemberExpr o f opt =>
      if opt then lexemes [] o ++ [(TokenDotQuestion, go ".?"); word_lexeme (f ++ dotted names)]
      else lexemes (f :: names) o
  | CallExpr r name kind args named =>
      (if negb (kind =s []) then [word_lexeme kind; word_lexeme name]
       else if is_nil_node r then [word_lexeme name]
       else lexemes [name] r)
      ++ in_parens (separated ((lexemes [] <$> args) ++ (entry <$> named)))
      ++ dotted_lexemes names
  | UnaryExpr op x =>
      if op =s go "!" then (TokenBang, go "!") :: lexemes [] x else minus_lexemes (lexemes [] x)
  | BinaryExpr op l r => lexemes [] l ++ operator_lexeme op :: lexemes [] r
  | TernaryExpr c t e =>
      lexemes [] c ++ (TokenQuestion, go "?") :: lexemes [] t
      ++ (TokenColon, go ":") :: lexemes [] e
  | LambdaExpr ps b => params_lexemes ps ++ (TokenOperator, go "=>") :: lexemes [] b
  | ListExpr es =>
      (TokenBracketOpen, go "[") :: separated (lexemes [] <$> es)
      ++ (TokenBracketClose, go "]") :: dotted_lexemes names
  | MapExpr es =>
      (TokenBraceOpen, go "{") :: separated (entry <$> es)
      ++ (TokenBraceClose, go "}") :: dotted_lexemes names
  | ParenExpr i => in_parens (lexemes [] i) ++ dotted_lexemes names
  | LiteralExpr (VBool b) => [word_lexeme ((if b then go "true" else go "false") ++ dotted names)]
  | LiteralExpr v => literal_lexeme v :: dotted_lexemes names
  | NilExpr => [word_lexeme (go "nil" ++ dotted names)]
  | NilNode | ForeignNode _ => []
  end.
