(* ===== verification/Lexing.v ===== *)
(** The lexer reads a printed tree as the tokens [lexemes] lists.

    [lexto s ls] is the lexing relation the proof composes: the text [s] is read
    as the tokens [ls] up to its end.  Every printer construct adds its own
    tokens in front of what follows it, given that what follows cannot extend
    the last word or number ([cut]). *)

From S2P Require Import Prelude GoText Strconv Ast Lexer LexerFacts Refusals Parser Printer.
From S2P Require Import ParserFacts Canonical.

(** ** What may follow a printed expression *)

(** The text after a word or a number that ends it. *)
Definition cut (s : gostring) : bool :=
  match s with
  | [] => true
  | c :: _ =>
      existsb (Z.eqb c) [32; 41; 93; 125; 44; 40]
      || ((c =? 46) && nextIs (Z.eqb 63) s) || ((c =? 58) && nextIs (Z.eqb 32) s)
  end.

(** A token starts here: neither blank nor comment. *)
Definition starts (s : gostring) : bool :=
  match s with
  | [] => false
  | c :: _ =>
      negb ((c =? 32) || (c =? 9) || (c =? 13)) && negb (c =? 10)
      && negb ((c =? 47) && (nextIs (Z.eqb 47) s || nextIs (Z.eqb 42) s))
  end.

Definition spaces (s : gostring) : Prop := Forall (fun c => c = 32) s.

(** What follows cannot continue a number. *)
Definition number_end (s : gostring) : Prop :=
  match s with
  | [] => True
  | c :: _ => isDigit c = false /\ (c =? 101) || (c =? 69) || (c =? 43) || (c =? 45) = false
              /\ (c =? 46) && nextIs isDigit s = false
  end.

Lemma cut_cases s : cut s = true ->
  s = [] \/ (exists c t, s = c :: t /\ In c [32; 41; 93; 125; 44; 40])
  \/ (exists t, s = 46 :: 63 :: t) \/ (exists t, s = 58 :: 32 :: t).
Proof.
  destruct s as [|c s]; [by left|]. cbn [cut]. intros Hc. right.
  apply orb_true_iff in Hc as [Hc|Hc]; [apply orb_true_iff in Hc as [Hc|Hc]|].
  - left. exists c, s. split; [done|]. apply existsb_exists in Hc as (d & Hin & Hd).
    apply Z.eqb_eq in Hd as ->. done.
  - right. left. bprop. subst. destruct s as [|d s]; [done|]. cbn [nextIs] in *. bprop. subst. eauto.
  - right. right. bprop. subst. destruct s as [|d s]; [done|]. cbn [nextIs] in *. bprop. subst. eauto.
Qed.

Lemma cut_number_end s : cut s = true -> number_end s.
Proof.
  intros [->|[(c & t & -> & Hin)|[(t & ->)|(t & ->)]]]%cut_cases; [done| |done|done].
  cbn [In] in Hin. repeat destruct Hin as [<-|Hin]; done.
Qed.

(** ** Numbers *)

Lemma span_append f a b s : span f a = (b, []) ->
  match s with [] => True | c :: _ => f c = false end -> span f (a ++ s) = (b, s).
Proof.
  intros Ha Hs. apply span_cut in Ha as [-> Hf]. rewrite app_nil_r. by apply span_exact.
Qed.

Lemma span_append_ne f a b c a' s : span f a = (b, c :: a') -> span f (a ++ s) = (b, c :: a' ++ s).
Proof.
  revert b. induction a as [|d a IH]; intros b; cbn [span app]; [done|].
  destruct (f d) eqn:Hd; [|by intros [= <- -> ->]].
  destruct (span f a) as [x y]. intros [= <- ->]. by rewrite (IH _ eq_refl).
Qed.

Lemma number_end_digit s : number_end s -> match s with [] => True | c :: _ => isDigit c = false end.
Proof. destruct s; [done|]. by intros (? & _). Qed.

Lemma number_exponent_append a e s : number_exponent a = (e, []) -> number_end s ->
  number_exponent (a ++ s) = (e, s).
Proof.
  intros Ha Hs. destruct a as [|ch a]; cbn [number_exponent app] in *.
  { injection Ha as <-. destruct s as [|c s]; [done|]. cbn [number_exponent].
    destruct Hs as (_ & Hs & _). repeat (apply orb_false_iff in Hs as [Hs ?]). by rewrite Hs, H1. }
  destruct (_ || _); [|done].
  destruct a as [|d a].
  { cbn [app] in *. cbn [span app] in Ha. injection Ha as <-.
    destruct s as [|c s]; [done|]. destruct Hs as (Hd & Hs & _).
    repeat (apply orb_false_iff in Hs as [Hs ?]). rewrite H, H0. cbn [orb span].
    by rewrite Hd. }
  cbn [app]. destruct ((d =? 43) || (d =? 45)).
  - destruct (span isDigit a) as [ds u] eqn:Hsp. injection Ha as <- ->.
    by rewrite (span_append _ _ _ _ Hsp) by by apply number_end_digit.
  - destruct (span isDigit (d :: a)) as [ds u] eqn:Hsp. injection Ha as <- ->.
    change (d :: a ++ s) with ((d :: a) ++ s).
    by rewrite (span_append _ _ _ _ Hsp) by by apply number_end_digit.
Qed.

Lemma number_fraction_append a fp u s : number_fraction a = (fp, u) -> number_end s ->
  number_fraction (a ++ s) = (fp, u ++ s).
Proof.
  intros Ha Hs. destruct a as [|ch a]; cbn [number_fraction app] in *.
  { injection Ha as <- <-. destruct s as [|c s]; [done|]. cbn [number_fraction app].
    destruct Hs as (_ & _ & Hs). by rewrite Hs. }
  destruct (ch =? 46) eqn:Hc; cbn [andb] in *; [|by injection Ha as <- <-].
  bprop. subst. destruct a as [|d a].
  { cbn [nextIs] in Ha. injection Ha as <- <-. cbn [app].
    destruct s as [|c s]; [done|]. cbn [nextIs]. destruct Hs as (Hd & _). by rewrite Hd. }
  cbn [nextIs app] in *. destruct (isDigit d); [|by injection Ha as <- <-].
  change (d :: a ++ s) with ((d :: a) ++ s).
  destruct (span isDigit (d :: a)) as [ds v] eqn:Hsp. injection Ha as <- <-. destruct v as [|c v].
  - by rewrite (span_append _ _ _ _ Hsp) by by apply number_end_digit.
  - by rewrite (span_append_ne _ _ _ _ _ _ Hsp).
Qed.

(** A number the scanner reads whole is read the same before a [number_end]. *)
Lemma number_text_append lit s : number_text lit = (lit, []) -> number_end s ->
  number_text (lit ++ s) = (lit, s).
Proof.
  intros Hl Hs. destruct lit as [|ch lit].
  { cbn. destruct s as [|c s]; [done|]. destruct Hs as (Hd & Hs & Hf).
    unfold number_text. repeat (apply orb_false_iff in Hs as [Hs ?]). cbn [number_sign].
    rewrite H. cbn [span]. rewrite Hd. cbn [number_fraction]. rewrite Hf. cbn [number_exponent].
    by rewrite Hs, H1. }
  unfold number_text in *.
  destruct (number_sign (ch :: lit)) as [sg t0] eqn:Hsg.
  assert (number_sign ((ch :: lit) ++ s) = (sg, t0 ++ s)) as ->.
  { cbn [number_sign app] in *. destruct (ch =? 45); by injection Hsg as <- <-. }
  destruct (span isDigit t0) as [ip t1] eqn:Hip.
  assert (span isDigit (t0 ++ s) = (ip, t1 ++ s)) as ->.
  { destruct t1; [apply span_append; [done|by apply number_end_digit]|].
    by rewrite (span_append_ne _ _ _ _ _ _ Hip). }
  destruct (number_fraction t1) as [fp t2] eqn:Hfp.
  rewrite (number_fraction_append _ _ _ _ Hfp Hs).
  destruct (number_exponent t2) as [ep t3] eqn:Hep. injection Hl as Hl ->.
  rewrite (number_exponent_append _ _ _ Hep Hs). by rewrite Hl.
Qed.

(** The decimal text of an int64 is one number of that value. *)
Lemma digits_no_mark ds : Forall (fun c => isDigit c = true) ds -> ContainsAny ds (go ".eE") = false.
Proof.
  intros Hd. unfold ContainsAny. induction Hd as [|c ds Hc _ IH]; [done|]. cbn [existsb].
  rewrite IH, orb_false_r. apply isDigit_range in Hc. unfold ContainsRune.
  cbn [go String.list_ascii_of_string fmap list_fmap existsb].
  repeat (apply orb_false_iff; split); try done; apply Z.eqb_neq; vm_compute Z.of_N; lia.
Qed.

Lemma FormatInt_parts z : exists sg d ds, FormatInt z = sg ++ d :: ds /\ (sg = [] \/ sg = [45])
  /\ Forall (fun c => isDigit c = true) (d :: ds).
Proof.
  destruct (FormatInt_shape z) as (sg & ds & E & Hsg & Hne & Hd & _).
  destruct ds as [|d ds]; [done|]. by exists sg, d, ds.
Qed.

Lemma number_reads_int z : in_int64 z = true -> number_reads (VInt64 z) = true.
Proof.
  intros Hz. unfold number_reads. cbn [FormatLiteral].
  assert (Hp : ParseNumericLiteral (FormatInt z) = Some (VInt64 z)).
  { unfold ParseNumericLiteral. rewrite ParseInt_FormatInt by done.
    destruct (FormatInt_parts z) as (sg & d & ds & -> & Hsg & Hd).
    unfold ContainsAny. rewrite existsb_app.
    change (existsb _ (d :: ds)) with (ContainsAny (d :: ds) (go ".eE")).
    rewrite digits_no_mark by done. by destruct Hsg as [-> | ->]. }
  rewrite (bool_decide_eq_true_2 _ Hp). cbn [andb].
  destruct (FormatInt_parts z) as (sg & d & ds & -> & Hsg & Hd).
  assert (Hn : number_text (sg ++ d :: ds) = (sg ++ d :: ds, [])).
  { unfold number_text. pose proof (proj1 (Forall_cons_1 _ _ _ Hd)) as Hd1.
    assert (number_sign (sg ++ d :: ds) = (sg, d :: ds)) as ->.
    { destruct Hsg as [-> | ->]; [|done]. cbn [app number_sign].
      apply isDigit_range in Hd1. by destruct (Z.eqb_spec d 45); [lia|]. }
    rewrite <- (app_nil_r (d :: ds)) at 1. rewrite span_exact by done.
    cbn. by rewrite app_nil_r. }
  rewrite (bool_decide_eq_true_2 _ Hn). apply Forall_cons in Hd as [Hd _].
  destruct Hsg as [-> | ->]; unfold peek, peekAt; cbn [app nth andb nextIs Z.eqb Pos.eqb]; rewrite Hd;
    [done | apply orb_true_r].
Qed.

(** ** Strings *)

Definition unicode_escaped : list rune := 65533 :: 127 :: seqZ 0 32.

Lemma hex4_reads r t : In r unicode_escaped -> scanUnicodeEscape (hex4 r ++ t) = Ok (r, t, 4).
Proof.
  intros Hin. unfold unicode_escaped in Hin.
  change (seqZ 0 32) with [0; 1; 2; 3; 4; 5; 6; 7; 8; 9; 10; 11; 12; 13; 14; 15; 16; 17; 18; 19;
    20; 21; 22; 23; 24; 25; 26; 27; 28; 29; 30; 31] in Hin.
  cbn [In] in Hin. repeat destruct Hin as [<-|Hin]; done || reflexivity.
Qed.

(** What the scanner makes of one quoted character. *)
Lemma quote_rune_reads f start r t c b : 0 <= r -> 
  exists c', scan_string_loop (S f) start (quote_rune r ++ t) c b
             = scan_string_loop f start t c' (b ++ [r]).
Proof.
  intros Hr. unfold quote_rune.
  repeat match goal with
  | |- context [if r =? ?k then _ else _] =>
      destruct (Z.eqb_spec r k) as [->|]; [by eexists|]
  end.
  destruct ((r <? 32) || (r =? 127) || (r =? 65533)) eqn:Hu.
  - assert (Hin : In r unicode_escaped).
    { unfold unicode_escaped. bprop. destruct Hu as [[Hu|Hu]%orb_true_iff|Hu]; bprop; subst; [|cbn; auto..].
      right. right. apply list_elem_of_In, elem_of_seqZ. lia. }
    cbn [app scan_string_loop Z.eqb Pos.eqb]. change (simple_escape 117) with (@None Z).
    rewrite hex4_reads by done. by eexists.
  - cbn [app scan_string_loop]. rewrite !(proj2 (Z.eqb_neq _ _)) by done. by eexists.
Qed.

Lemma hex_char_no_nl x : hex_char (Z.land x 15) <> 10.
Proof.
  assert (0 <= Z.land x 15) by (apply Z.land_nonneg; lia).
  unfold hex_char. destruct (_ <? _) eqn:?; bprop; lia.
Qed.

Lemma quote_rune_no_nl r : no_nl (quote_rune r).
Proof.
  unfold quote_rune, hex4. repeat case_match; repeat constructor; try done; try apply hex_char_no_nl.
  bprop. done.
Qed.

Lemma quote_rune_nonempty r : (0 < length (quote_rune r))%nat.
Proof. unfold quote_rune. repeat case_match; cbn; lia. Qed.

Lemma quoted_reads (s t : gostring) : Forall (fun r => 0 <= r) s ->
  forall fuel start c b, (length (concat (quote_rune <$> s) ++ 34%Z :: t) <= fuel)%nat ->
  exists c', scan_string_loop fuel start (concat (quote_rune <$> s) ++ 34 :: t) c b
             = Ok (TokenString, b ++ s, t, c').
Proof.
  induction 1 as [|r s Hr _ IH]; intros fuel start c b Hf.
  - destruct fuel as [|f]; [cbn in Hf; lia|]. cbn. rewrite app_nil_r. by eexists.
  - cbn [fmap list_fmap concat] in *. rewrite <- app_assoc in *. rewrite length_app in Hf.
    pose proof (quote_rune_nonempty r). destruct fuel as [|f]; [lia|].
    destruct (quote_rune_reads f start r (concat (quote_rune <$> s) ++ 34 :: t) c b Hr) as [c1 ->].
    destruct (IH f start c1 (b ++ [r])) as [c2 ->]; [lia|]. rewrite <- app_assoc. by eexists.
Qed.

Lemma QuoteString_reads s t c : Forall (fun r => 0 <= r) s ->
  exists c', scanString (QuoteString s ++ t) c = Ok (TokenString, s, t, c').
Proof.
  intros Hs. unfold scanString, QuoteString. rewrite <- !app_assoc. cbn [app tail].
  edestruct (quoted_reads s t Hs) as [c' ->]; [|by eexists]. cbn [length]. lia.
Qed.

(** ** Words *)

Section Lexing.
Context `{UnicodeTables}.

Lemma ident_char_path c : path_char c = true -> isIdentifierCharNoColon c = true.
Proof.
  unfold path_char, isIdentifierCharNoColon. intros ->. done.
Qed.

Lemma ident_loop_chars w : forall b t,
  Forall (fun c => isIdentifierCharNoColon c = true) w -> ident_loop b (w ++ t) = ident_loop (b ++ w) t.
Proof.
  induction w as [|c w IH]; intros b t Hw; [by rewrite app_nil_r|].
  apply Forall_cons in Hw as [Hc Hw]. cbn [app ident_loop].
  destruct (Z.eqb_spec c 58) as [->|_]; [by vm_compute in Hc|].
  destruct (Z.eqb_spec c 46) as [->|_]; [by vm_compute in Hc|].
  rewrite Hc, IH by done. by rewrite <- app_assoc.
Qed.

Lemma segment_chars s : segment s = true -> s <> [] /\ Forall (fun c => path_char c = true) s.
Proof.
  unfold segment. intros [Hne Hs]%andb_true_iff. split.
  - by intros ->.
  - by apply forallb_Forall_true.
Qed.

Lemma path_ident s : Forall (fun c => path_char c = true) s ->
  Forall (fun c => isIdentifierCharNoColon c = true) s.
Proof. intros Hs. eapply Forall_impl; [exact Hs|]. intros. by apply ident_char_path. Qed.

Lemma ident_loop_dot b t : nextIs path_char (46 :: t) = true ->
  ident_loop b (46 :: t) = ident_loop (b ++ [46]) t.
Proof. intros Hn. cbn [ident_loop Z.eqb Pos.eqb]. by rewrite Hn. Qed.

Lemma dotted_cons f names : dotted (f :: names) = 46 :: f ++ dotted names.
Proof. done. Qed.

Lemma ident_loop_dotted names : Forall (fun f => segment f = true) names -> forall b t,
  ident_loop b (dotted names ++ t) = ident_loop (b ++ dotted names) t.
Proof.
  induction 1 as [|f names Hf _ IH]; intros b t; [by rewrite app_nil_r|].
  apply segment_chars in Hf as [Hne Hf]. rewrite dotted_cons. cbn [app].
  rewrite ident_loop_dot by (destruct f; [done|]; by apply Forall_cons in Hf as [? _]).
  rewrite <- app_assoc, (ident_loop_chars f), IH by (by apply path_ident).
  f_equal. by rewrite <- !app_assoc.
Qed.

Lemma ident_loop_cut_off b s : cut s = true -> ident_loop b s = (b, s).
Proof.
  intros [->|[(c & t & -> & Hin)|[(t & ->)|(t & ->)]]]%cut_cases; [done| |done|done].
  cbn [In] in Hin. repeat destruct Hin as [<-|Hin]; try done; reflexivity.
Qed.

(** The first character of a word reaches the identifier scanner. *)
Lemma scan_word lx c t : l_rest lx = c :: t -> path_char c = true -> isDigit c = false ->
  scan_token lx = (s ← scanIdentifier (c :: t) (l_cur lx); Ok (ScanToken s)).
Proof.
  intros Hr Hc Hd. unfold scan_token, scan_token_tail. rewrite Hr. change (peek (c :: t)) with c.
  repeat match goal with
  | |- (if c =? ?k then _ else _) = _ =>
      destruct (Z.eqb_spec c k) as [->|_]; [by vm_compute in Hc|]
  end.
  by rewrite Hd.
Qed.

Lemma path_char_starts c t : path_char c = true -> starts (c :: t) = true.
Proof.
  intros Hc. unfold starts.
  repeat match goal with
  | |- context [c =? ?k] => destruct (Z.eqb_spec c k) as [->|_]; [by vm_compute in Hc|]
  end. done.
Qed.

(** ** The lexing relation *)

(** [s] is read as the token [l], whatever the lexer's counters are, and [t]
    is left; the token's text has no newline. *)
Definition reads_token (s : gostring) (l : lexeme) (t : gostring) : Prop :=
  starts s = true /\ (exists w, s = w ++ t /\ no_nl w)
  /\ forall lx, l_rest lx = s -> exists c, scan_token lx = Ok (ScanToken (l.1, l.2, t, c)).

Inductive lexto : gostring -> list lexeme -> Prop :=
| lexto_end sp : spaces sp -> lexto sp []
| lexto_token sp s l t ls : spaces sp -> reads_token s l t -> lexto t ls -> lexto (sp ++ s) (l :: ls).

Lemma lexto_space s ls : lexto s ls -> lexto (32 :: s) ls.
Proof.
  destruct 1 as [sp Hsp|sp s l t ls Hsp Hs Ht].
  - constructor. by constructor.
  - change (32 :: sp ++ s) with ((32 :: sp) ++ s). econstructor; [by constructor|done..].
Qed.

Lemma lexto_scan s l t ls : reads_token s l t -> lexto t ls -> lexto s (l :: ls).
Proof. intros Hs Ht. apply (lexto_token [] s l t ls); [constructor|done..]. Qed.

(** The same, with the first token at the very start. *)
Inductive lexat : gostring -> list lexeme -> Prop :=
| lexat_scan s l t ls : reads_token s l t -> lexto t ls -> lexat s (l :: ls).

Lemma lexat_lexto s ls : lexat s ls -> lexto s ls.
Proof. destruct 1. by eapply lexto_scan. Qed.

Lemma skip_spaces sp s : spaces sp -> (s = [] \/ starts s = true) -> forall fuel lx,
  (length (sp ++ s) < fuel)%nat -> l_rest lx = sp ++ s ->
  exists lx', skipWhitespace fuel lx = Ok lx' /\ l_rest lx' = s.
Proof.
  intros Hsp Hs. induction Hsp as [|c sp -> _ IH]; intros fuel lx Hf Hr;
    (destruct fuel as [|f]; [lia|]); cbn [skipWhitespace]; rewrite Hr.
  - exists lx. cbn [app] in *. split; [|done]. destruct s as [|c s]; [done|].
    destruct Hs as [|Hs]; [done|]. unfold starts in Hs.
    apply andb_true_iff in Hs as [[Hw Hn]%andb_true_iff Hc].
    apply negb_true_iff in Hw, Hn, Hc. rewrite Hw, Hn.
    rewrite andb_orb_distrib_r in Hc. apply orb_false_iff in Hc as [-> ->]. done.
  - cbn [app] in *. apply IH; [cbn in Hf; lia | done].
Qed.

Lemma tokenize_lexto s ls : lexto s ls -> forall fuel lx,
  (length s < fuel)%nat -> l_rest lx = s ->
  exists toks lx', tokenize_loop fuel lx = Ok (toks, lx')
    /\ (fun t => (tType t, tLiteral t)) <$> toks = ls ++ [(TokenEOF, [])].
Proof.
  induction 1 as [sp Hsp|sp s l t ls Hsp (Hst & _ & Hs) _ IH]; intros fuel lx Hf Hr;
    (destruct fuel as [|f]; [lia|]); cbn [tokenize_loop NextToken].
  - destruct (skip_spaces sp [] Hsp ltac:(by left) (S (length (l_rest lx))) lx) as (lx1 & -> & Hr1).
    { rewrite app_nil_r, Hr. lia. }
    { by rewrite app_nil_r. }
    cbn [mbind result_bind]. rewrite Hr1. cbn. by eexists _, _.
  - destruct (skip_spaces sp s Hsp ltac:(by right) (S (length (l_rest lx))) lx) as (lx1 & Hsk & Hr1).
    { rewrite Hr. lia. }
    { done. }
    rewrite Hsk. cbn [mbind result_bind]. destruct (Hs lx1 Hr1) as [c Hc]. destruct l as [ty lit].
    assert (Hne : l_rest lx1 <> []) by (rewrite Hr1; by intros ->).
    pose proof (scan_token_spec lx1 Hne) as Hok. rewrite Hc in Hok.
    destruct Hok as (Hty & w & Hw & Hcons & _). apply consumed_length in Hcons as Hlen; [|done].
    rewrite Hr1 in Hlen. destruct (l_rest lx1) as [|ch u]; [done|]. rewrite Hc. cbn [mbind result_bind].
    rewrite stamp_end_type. cbn [tType makeToken fst].
    edestruct (IH f) as (toks & lx' & Hl & Hp).
    3:{ rewrite Hl. destruct ty; [done|..]; cbn [mbind result_bind]; eexists _, _; (split; [reflexivity|]);
          cbn [fmap list_fmap app]; by rewrite Hp. }
    { rewrite length_app in Hf. cbn [fst] in Hlen. lia. }
    { done. }
Qed.

(** A printed text without newlines is one line of tokens. *)
Lemma lexes_line c s toks : no_nl s -> lexes c s toks -> Forall (fun t => tLine t = c_line c) toks.
Proof.
  intros Hs Hl. induction Hl as [c g Hg c1|c g w rest tok toks c1 c2 Hg Hat He1 He2 He3 Hl IH].
  - constructor; [|constructor]. cbn. unfold c1. by rewrite walk_no_nl.
  - apply Forall_app in Hs as [Hn1 [Hn2 Hn3]%Forall_app].
    assert (c_line c2 = c_line c) as Hc2 by (unfold c2, c1; by rewrite !walk_no_nl).
    constructor.
    + destruct Hat as (_ & _ & _ & _ & -> & _). unfold c1. by rewrite walk_no_nl.
    + rewrite Hc2 in IH. by apply IH.
Qed.

Lemma lexto_no_nl s ls : lexto s ls -> no_nl s.
Proof.
  assert (Hsp : forall sp, spaces sp -> no_nl sp)
    by (intros sp Hsp; eapply Forall_impl; [exact Hsp|]; by intros c ->).
  induction 1 as [sp ?|sp s l t ls ? (_ & (w & -> & Hw) & _) _ IH]; [by apply Hsp|].
  repeat apply Forall_app_2; [by apply Hsp|done..].
Qed.

Lemma Tokenize_lexto s ls : lexto s ls ->
  exists toks, Tokenize s = Ok toks
    /\ Forall2 (fun t l => tType t = l.1 /\ tLiteral t = l.2 /\ tLine t = 1) toks (ls ++ [(TokenEOF, [])]).
Proof.
  intros Hl. pose proof (lexto_no_nl _ _ Hl) as Hn. destruct (tokenize_lexto s ls Hl (S (length s)) (NewLexer s)) as (toks & lx' & Ht & Hp);
    [lia | done |].
  assert (Tokenize s = Ok toks) as Htok by (unfold Tokenize, TokenizeWithDocs; by rewrite Ht).
  exists toks. split; [done|]. apply Tokenize_lexes, lexes_line in Htok; [|done]. cbn in Htok.
  clear Ht. revert Hp. generalize (ls ++ [(TokenEOF, [])]).
  induction Htok as [|t toks Ht _ IH]; intros l Hp; cbn in Hp; subst; constructor; [done|].
  by apply IH.
Qed.
(** ** One token in front of a text *)

Definition brackets : list lexeme :=
  [(TokenParenOpen, go "("); (TokenParenClose, go ")"); (TokenBracketOpen, go "[");
   (TokenBracketClose, go "]"); (TokenBraceOpen, go "{"); (TokenBraceClose, go "}");
   (TokenComma, go ","); (TokenDotQuestion, go ".?")].

Lemma scan_fixed s ty lit t lx : l_rest lx = s -> 
  (forall c docs line marks, scan_token (mkLexer s c docs line marks)
     = Ok (ScanToken (ty, lit, t, adv (Z.of_nat (length lit)) c))) ->
  exists c, scan_token lx = Ok (ScanToken (ty, lit, t, c)).
Proof. destruct lx. cbn. intros -> Hs. eexists. apply Hs. Qed.

Lemma lexat_bracket l t ls : In l brackets -> lexto t ls -> lexat (l.2 ++ t) (l :: ls).
Proof.
  intros Hin Ht. eapply lexat_scan; [|done].
  cbn [brackets In] in Hin. repeat destruct Hin as [<-|Hin]; try done;
    (split; [done|]); (split; [by eexists; split; [reflexivity|repeat constructor]|]);
    intros lx Hr; apply (scan_fixed _ _ _ _ _ Hr); reflexivity.
Qed.

(** Tokens the printer follows with a space. *)
Definition spaced : list lexeme :=
  [(TokenColon, go ":"); (TokenQuestion, go "?"); (TokenOperator, go "=>")]
  ++ (operator_lexeme <$> operators).

Lemma lexat_spaced l t ls : In l spaced -> lexto t ls -> lexat (l.2 ++ 32 :: t) (l :: ls).
Proof.
  intros Hin Ht. eapply lexat_scan; [|by apply lexto_space].
  vm_compute in Hin. repeat destruct Hin as [<-|Hin]; try done;
    (split; [done|]); (split; [by eexists; split; [reflexivity|repeat constructor]|]);
    intros lx Hr; apply (scan_fixed _ _ _ _ _ Hr); reflexivity.
Qed.

Lemma path_no_nl w : Forall (fun c => isIdentifierCharNoColon c = true) w -> no_nl w.
Proof. intros Hw. eapply Forall_impl; [exact Hw|]. intros c Hc. by apply ident_char_nl. Qed.

Lemma dotted_no_nl names : Forall (fun f => segment f = true) names -> no_nl (dotted names).
Proof.
  induction 1 as [|f names Hf _ IH]; [constructor|]. rewrite dotted_cons. constructor; [done|].
  apply segment_chars in Hf as [_ Hf]. apply Forall_app_2; [by apply path_no_nl, path_ident|done].
Qed.

(** A scan by the identifier scanner. *)
Lemma reads_ident w t ty : starts (w ++ t) = true -> no_nl w -> w <> [] -> ty = keyword_type w ->
  ident_loop [] (w ++ t) = (w, t) ->
  (forall lx, l_rest lx = w ++ t -> 
     scan_token lx = (s ← scanIdentifier (w ++ t) (l_cur lx); Ok (ScanToken s))) ->
  reads_token (w ++ t) (ty, w) t.
Proof.
  intros Hs Hn Hne -> Hi Hscan. split; [done|]. split; [by exists w|]. intros lx Hr.
  rewrite (Hscan lx Hr). unfold scanIdentifier. rewrite Hi. destruct w; [done|]. by eexists.
Qed.

Lemma lexat_key k t ls : key k = true -> cut t = true -> lexto t ls ->
  lexat (k ++ t) (word_lexeme k :: ls).
Proof.
  intros Hk Ht Hl. eapply lexat_scan; [|done]. destruct k as [|c k]; [done|]. cbn [key] in Hk.
  apply andb_true_iff in Hk as [[Hc Hd]%andb_true_iff Hk]. apply negb_true_iff in Hd.
  apply forallb_Forall_true in Hk.
  assert (Hall : Forall (fun c => isIdentifierCharNoColon c = true) (c :: k))
    by (constructor; [by apply ident_char_path|done]).
  apply reads_ident; [by apply path_char_starts|by apply path_no_nl|done|done| |].
  - rewrite ident_loop_chars by done. by apply ident_loop_cut_off.
  - intros lx Hr. by apply scan_word.
Qed.

Lemma word_parts w : word w = true ->
  exists c w', w = c :: w' /\ path_char c = true /\ isDigit c = false /\ Forall (fun c => path_char c = true) w.
Proof.
  unfold word. intros [[Hne Hw]%segment_chars Hd]%andb_true_iff. destruct w as [|c w]; [done|].
  exists c, w. apply negb_true_iff in Hd. pose proof (proj1 (Forall_cons_1 _ _ _ Hw)). done.
Qed.

Lemma lexat_word w names t ls : word w = true -> Forall (fun f => segment f = true) names ->
  cut t = true -> lexto t ls ->
  lexat (w ++ dotted names ++ t) (word_lexeme (w ++ dotted names) :: ls).
Proof.
  intros Hw Hn Ht Hl. eapply lexat_scan; [|done].
  apply word_parts in Hw as (c & w' & -> & Hc & Hd & Hall).
  rewrite app_assoc. apply reads_ident; [by apply path_char_starts| |done|done| |].
  - apply Forall_app_2; [by apply path_no_nl, path_ident|by apply dotted_no_nl].
  - rewrite <- app_assoc, ident_loop_chars, ident_loop_dotted by (done || by apply path_ident).
    by apply ident_loop_cut_off.
  - intros lx Hr. by apply scan_word.
Qed.

Lemma keyword_dot s : keyword_type (46 :: s) = TokenIdentifier.
Proof. done. Qed.

Lemma dot_word_parts f : dot_word f = true -> exists c f', f = c :: f' /\ IsLetter c || (c =? 95) = true
  /\ segment f = true.
Proof.
  unfold dot_word. intros [Hs Hc]%andb_true_iff. destruct f as [|c f]; [done|]. by exists c, f.
Qed.

Lemma callable_not_digit c : IsLetter c || (c =? 95) = true -> isDigit c = false /\ c <> 63.
Proof.
  intros Hc. split; [|by intros ->; vm_compute in Hc]. destruct (isDigit c) eqn:Hd; [|done].
  apply isDigit_range in Hd. 
  assert (c = 48 \/ c = 49 \/ c = 50 \/ c = 51 \/ c = 52 \/ c = 53 \/ c = 54 \/ c = 55 \/ c = 56 \/ c = 57)
    as Hin by lia.
  repeat destruct Hin as [->|Hin]; try subst; by vm_compute in Hc.
Qed.

(** Member names after something that is not a word. *)
Lemma lexto_dotted names t ls : Forall (fun f => segment f = true) names ->
  (names <> [] -> dot_word (hd [] names) = true) -> cut t = true -> lexto t ls ->
  lexto (dotted names ++ t) (dotted_lexemes names ++ ls).
Proof.
  intros Hn Hd Ht Hl. destruct names as [|f names]; [done|]. specialize (Hd ltac:(done)).
  apply dot_word_parts in Hd as (c & f' & Hf & Hc & _). cbn in Hf. subst f.
  destruct (callable_not_digit c Hc) as [Hdig Hq].
  cbn [dotted_lexemes app]. eapply lexto_scan; [|done].
  apply reads_ident; [done|by apply dotted_no_nl|done|done| |].
  - rewrite ident_loop_dotted by done. by apply ident_loop_cut_off.
  - intros lx Hr. unfold scan_token, scan_token_tail. rewrite Hr, dotted_cons.
    set (u := (46 :: _) ++ t).
    assert (nextIs (Z.eqb 63) u = false) as H1 by (apply Z.eqb_neq; congruence).
    assert (nextIs isDigit u = false) as H2 by done.
    assert (nextIs (fun r => IsLetter r || (r =? 95)) u = true) as H3 by done.
    rewrite H1, H2, H3. done.
Qed.

Lemma lexat_string str t ls : Forall (fun r => 0 <= r) str -> lexto t ls ->
  lexat (QuoteString str ++ t) ((TokenString, str) :: ls).
Proof.
  intros Hs Ht. eapply lexat_scan; [|done]. split; [done|]. split.
  - exists (QuoteString str). split; [done|]. unfold QuoteString. constructor; [done|].
    apply Forall_app_2; [|by repeat constructor]. apply Forall_concat, Forall_fmap.
    apply List.Forall_forall. intros r _. apply quote_rune_no_nl.
  - intros lx Hr. destruct (QuoteString_reads str t (l_cur lx) Hs) as [c' Hc]. exists c'.
    unfold scan_token, scan_token_tail. rewrite Hr. by rewrite Hc.
Qed.

Definition number_start (s : gostring) : Prop :=
  isDigit (peek s) = true \/ (peek s = 45 /\ nextIs isDigit s = true).

Lemma scan_number lx s : l_rest lx = s -> number_start s ->
  scan_token lx = Ok (ScanToken (scanNumber s (l_cur lx))) /\ starts s = true.
Proof.
  intros Hr Hs. unfold scan_token, scan_token_tail. rewrite Hr. destruct s as [|c s].
  { by destruct Hs as [?|[? _]]. }
  unfold number_start in *. change (peek (c :: s)) with c in *. destruct Hs as [Hd|[-> Hn]].
  - assert (Hk : forall k, isDigit k = false -> (c =? k) = false).
    { intros k Hk. apply Z.eqb_neq. intros ->. congruence. }
    rewrite !Hk by done. rewrite Hd. split; [done|]. unfold starts. by rewrite !Hk by done.
  - rewrite Hn. by split.
Qed.

Lemma lexat_number lit t ls : number_text lit = (lit, []) -> number_start lit -> number_end t ->
  lexto t ls -> lexat (lit ++ t) ((TokenNumber, lit) :: ls).
Proof.
  intros Hl Hs Ht Hls. eapply lexat_scan; [|done].
  pose proof (number_text_append lit t Hl Ht) as Happ.
  assert (number_start (lit ++ t)) as Hst.
  { unfold number_start, peek, peekAt in *. destruct lit as [|c lit]; [by destruct Hs as [?|[? _]]|].
    destruct Hs as [?|[? Hn]]; [by left|right]. split; [done|]. by destruct lit. }
  split; [by apply (scan_number (mkLexer (lit ++ t) (Cursor 0 0 0) [] 0 ∅))|]. split.
  - apply number_text_cut in Hl as [_ ?]. by exists lit.
  - intros lx Hr. destruct (scan_number lx _ Hr Hst) as [-> _]. unfold scanNumber. rewrite Happ.
    by eexists.
Qed.

(** *** Prefix operators *)

(** A token that can start an operand. *)
Definition operand_lexeme (l : lexeme) : bool := v1CanStartOperand (mkToken l.1 l.2 0 0 0 0 0 0).

Lemma lexat_head s l ls : lexat s (l :: ls) -> exists c u, s = c :: u
  /\ (isDigit c = true -> exists lit, l = (TokenNumber, c :: lit))
  /\ (c = 61 -> operand_lexeme l = false).
Proof.
  inversion_clear 1 as [? ? t ? (Hst & _ & Hs) _]. destruct s as [|c u]; [done|]. exists c, u.
  split; [done|]. set (lx := mkLexer (c :: u) (Cursor 0 0 0) [] 0 ∅).
  destruct (Hs lx eq_refl) as [cur Hc]. destruct l as [ty lit]. cbn [fst snd] in *. split.
  - intros Hd. destruct (scan_number lx (c :: u) eq_refl ltac:(by left)) as [Hn _]. rewrite Hn in Hc.
    unfold scanNumber, number_text in Hc.
    assert (number_sign (c :: u) = ([], c :: u)) as Hsg.
    { cbn [number_sign]. by destruct (Z.eqb_spec c 45) as [->|]. }
    rewrite Hsg in Hc. cbn [span] in Hc. rewrite Hd in Hc.
    destruct (span isDigit u) as [ip t1], (number_fraction t1) as [fp t2], (number_exponent t2) as [ep t3].
    injection Hc as <- <- _ _. by eexists.
  - intros ->. unfold scan_token, scan_token_tail in Hc. cbn in Hc. unfold scanOperator in Hc. cbn [tail] in Hc.
    destruct u as [|d u]; [by injection Hc as <- <-|].
    destruct (d =? 61); [by injection Hc as <- <-|]. by destruct (d =? 62); injection Hc as <- <-.
Qed.

Lemma lexat_bang s l ls : lexat s (l :: ls) -> operand_lexeme l = true ->
  lexat (33 :: s) ((TokenBang, go "!") :: l :: ls).
Proof.
  intros Hs Hop. destruct (lexat_head _ _ _ Hs) as (c & u & -> & _ & Heq).
  eapply lexat_scan; [|by apply lexat_lexto]. split; [done|]. split.
  { exists [33]. split; [done|]. by repeat constructor. }
  assert (c <> 61) as Hc by (intros ->; rewrite Heq in Hop; done).
  intros lx Hr. apply (scan_fixed _ _ _ _ _ Hr). intros. 
  change (scan_token _) with (Ok (E := lex_error) (ScanToken (scanNotEquals (33 :: c :: u) c0))).
  unfold scanNotEquals. cbn [tail]. by rewrite (proj2 (Z.eqb_neq c 61) Hc).
Qed.

Lemma is_punct_not_number lit : is_punct TokenNumber lit <> true.
Proof. intros Hp. apply is_punct_In in Hp. cbn [punct_table In] in Hp. by repeat destruct Hp as [[=]|Hp]. Qed.

Lemma lexat_minus_number s d lit ls : lexat s ((TokenNumber, d :: lit) :: ls) -> isDigit d = true ->
  lexat (45 :: s) ((TokenNumber, 45 :: d :: lit) :: ls).
Proof.
  inversion_clear 1 as [? ? t ? (Hst & (w & Hw & Hn) & Hs) Hl]. intros Hd.
  set (lx := mkLexer s (Cursor 0 0 0) [] 0 ∅). destruct (Hs lx eq_refl) as [c Hc]. cbn [fst snd] in Hc.
  apply scan_token_class in Hc. change (l_rest lx) with s in Hc.
  assert (Hnt : number_text s = (d :: lit, t)).
  { inversion Hc as [? ? ? ? Hp | Hnum Heq | ? Hi | ? Hstr]; subst.
    - by apply is_punct_not_number in Hp.
    - unfold scanNumber in Heq. destruct (number_text _). by injection Heq as -> -> _.
    - apply scanIdentifier_keyword in Hi. destruct (keyword_type_class (d :: lit)) as (_ & _ & ?). congruence.
    - apply scan_string_loop_spec in Hstr as [? _]. congruence. }
  pose proof (number_text_cut _ _ _ Hnt) as [-> Hnl].
  eapply lexat_scan; [|exact Hl]. 
  assert (Hst' : number_start (45 :: (d :: lit) ++ t)) by (right; by split).
  split; [by apply (scan_number (mkLexer (45 :: (d :: lit) ++ t) (Cursor 0 0 0) [] 0 ∅))|]. split.
  { exists (45 :: d :: lit). split; [done|]. by constructor. }
  intros lx' Hr. destruct (scan_number lx' _ Hr Hst') as [-> _]. unfold scanNumber.
  assert (number_text (45 :: (d :: lit) ++ t) = (45 :: d :: lit, t)) as ->; [|by eexists].
  unfold number_text in *. cbn [number_sign Z.eqb Pos.eqb].
  assert (number_sign ((d :: lit) ++ t) = ([], (d :: lit) ++ t)) as Hsg.
  { cbn [number_sign app]. by destruct (Z.eqb_spec d 45) as [->|]. }
  rewrite Hsg in Hnt. destruct (span isDigit ((d :: lit) ++ t)) as [ip t1], (number_fraction t1) as [fp t2],
    (number_exponent t2) as [ep t3]. injection Hnt as Hnt ->. cbn [app] in *. by rewrite Hnt.
Qed.

Lemma minus_lexemes_app ls ls' : ls <> [] -> minus_lexemes ls ++ ls' = minus_lexemes (ls ++ ls').
Proof.
  intros Hne. destruct ls as [|[ty lit] ls]; [done|]. cbn [minus_lexemes app].
  destruct ty; try done. destruct lit as [|d lit]; [done|]. by destruct (isDigit d).
Qed.

Lemma lexat_minus s ls : lexat s ls -> lexat (45 :: s) (minus_lexemes ls).
Proof.
  intros Hs. destruct ls as [|l ls]; [inversion Hs|].
  destruct (lexat_head _ _ _ Hs) as (c & u & -> & Hd & _).
  assert (Hop : isDigit c = false -> lexat (45 :: c :: u) ((TokenOperator, go "-") :: l :: ls)).
  { intros Hc. eapply lexat_scan; [|by apply lexat_lexto]. split; [done|]. split.
    { exists [45]. split; [done|]. by repeat constructor. }
    intros lx Hr. apply (scan_fixed _ _ _ _ _ Hr). intros.
    unfold scan_token, scan_token_tail. cbn [l_rest l_cur].
    assert (nextIs isDigit (45 :: c :: u) = false) as -> by done. done. }
  destruct (isDigit c) eqn:Hc.
  - destruct (Hd eq_refl) as [lit ->]. cbn [minus_lexemes]. rewrite Hc. by apply lexat_minus_number.
  - specialize (Hop eq_refl). destruct l as [ty lit]. cbn [minus_lexemes].
    destruct ty; try done. destruct lit as [|d lit]; [done|].
    destruct (isDigit d) eqn:Hdd; [|done]. exfalso.
    inversion_clear Hs as [? ? t ? (_ & _ & Hs') _].
    set (lx := mkLexer (c :: u) (Cursor 0 0 0) [] 0 ∅). destruct (Hs' lx eq_refl) as [cu Hcu].
    pose proof (scan_token_spec lx ltac:(done)) as Hok. rewrite Hcu in Hok.
    destruct Hok as (_ & w & Hw & [Hcons _] & Hlit). specialize (Hlit ltac:(done)). cbn in Hlit, Hcons.
    subst w. injection Hcons as -> _. congruence.
Qed.

(** ** The first token of a printed tree *)

Lemma keyword_no_dot s : ContainsRune s 46 = true -> keyword_type s = TokenIdentifier.
Proof.
  intros Hs. unfold keyword_type. destruct (List.find _ _) as [kw|] eqn:Hf; [|done]. exfalso.
  apply find_some in Hf as [Hin Hk]. apply eqs_true in Hk. subst s. cbn [keywords In] in Hin.
  repeat destruct Hin as [<-|Hin]; by vm_compute in Hs.
Qed.

Definition glued (names : list gostring) : bool := match names with [] => false | _ => true end.

Lemma glued_keyword w names : glued names = true -> keyword_type (w ++ dotted names) = TokenIdentifier.
Proof.
  destruct names as [|f names]; [done|]. intros _. apply keyword_no_dot.
  rewrite ContainsRune_app, dotted_cons. cbn. by rewrite orb_true_r.
Qed.

Lemma ident_ok_keyword names name : ident_ok (glued names) name = true ->
  word name = true /\ memS name word_values = false
  /\ keyword_type (name ++ dotted names) = TokenIdentifier.
Proof.
  unfold ident_ok. intros [[Hw Hv]%andb_true_iff Hk]%andb_true_iff. split; [done|].
  split; [by apply negb_true_iff|]. apply orb_true_iff in Hk as [Hk|Hk]; [by apply glued_keyword|].
  apply bool_decide_eq_true in Hk. destruct names; [by rewrite app_nil_r | by apply glued_keyword].
Qed.

Lemma plain_word_parts s : plain_word s = true -> word s = true /\ keyword_type s = TokenIdentifier.
Proof. unfold plain_word. intros [? ?%bool_decide_eq_true]%andb_true_iff. done. Qed.

Lemma call_ok_parts name args named : call_ok name args named = true ->
  plain_word name = true /\ dot_word name = true /\ memS name value_words = false
  /\ retired_call (ToLower name) = None /\ memS name bodyCallKinds = false
  /\ memS (ToLower name) retiredExprBuiltins = false /\ (ToLower name =s go "caller") = false
  /\ (named = [] -> forall es, args <> [MapExpr es])
  /\ isRetiredBodyAccessorCall (ToLower name) args named = false
  /\ ((ToLower name =s go "contains")
      && match args with [_; a] => negb (v1IsLambda a) | _ => false end) = false.
Proof.
  unfold call_ok. cbv zeta. rewrite !andb_true_iff, !negb_true_iff, bool_decide_eq_true.
  intros [[[[[[[[[? ?] ?] ?] ?] ?] ?] Hm] ?] ?]. repeat split; try done.
  intros -> es ->. done.
Qed.

Lemma minus_lexemes_first l ls : exists l' ls', minus_lexemes (l :: ls) = l' :: ls' /\ operand_lexeme l' = true.
Proof.
  cbn [minus_lexemes]. destruct l as [ty lit].
  destruct ty; try (by eexists _, _). destruct lit as [|d lit]; [by eexists _, _|].
  destruct (isDigit d); by eexists _, _.
Qed.

Lemma lexemes_first n : forall names, printable_in (glued names) n = true ->
  exists l ls, lexemes names n = l :: ls /\ operand_lexeme l = true.
Proof.
  induction n using expr_ind'; intros names Hp; cbn [printable_with lexemes] in *; try done.
  - apply ident_ok_keyword in Hp as (_ & _ & Hk). unfold word_lexeme. rewrite Hk. by eexists _, _.
  - apply andb_true_iff in Hp as [[Hp _]%andb_true_iff _]. destruct b.
    + destruct (IHn [] Hp) as (l & ls & -> & Hl). by eexists _, _.
    + apply (IHn (f :: names) Hp).
  - apply andb_true_iff in Hp as [_ Hp]. destruct (k =s []) eqn:Hk; cbn [negb] in *.
    + destruct (is_nil_node n).
      * apply call_ok_parts in Hp as (Hp & _). apply plain_word_parts in Hp as [_ Hp]. unfold word_lexeme. rewrite Hp. by eexists _, _.
      * rewrite !andb_true_iff in Hp. destruct Hp as [[[Hp _] _] _].
        destruct (IHn [n0] Hp) as (l & ls & -> & Hl). by eexists _, _.
    + apply andb_true_iff in Hp as [[[_ Hp]%andb_true_iff _]%andb_true_iff _].
      apply memS_In in Hp. unfold word_lexeme. eexists _, _. split; [reflexivity|].
      cbn [invocationKindKeywords fmap list_fmap In] in Hp. by repeat destruct Hp as [<-|Hp].
  - apply andb_true_iff in Hp as [Hp _]. destruct (op =s go "!"); [by eexists _, _|].
    destruct (IHn [] Hp) as (l & ls & -> & Hl). apply minus_lexemes_first.
  - apply andb_true_iff in Hp as [[Hp _]%andb_true_iff _].
    destruct (IHn1 [] Hp) as (l & ls & -> & Hl). by eexists _, _.
  - apply andb_true_iff in Hp as [[Hp _]%andb_true_iff _].
    destruct (IHn1 [] Hp) as (l & ls & -> & Hl). by eexists _, _.
  - apply andb_true_iff in Hp as [Hp _]. unfold params_ok in Hp. apply andb_true_iff in Hp as [Hp _].
    destruct ps as [|p [|q ps]]; [by eexists _, _| |by eexists _, _].
    cbn [forallb params_lexemes app] in *. apply andb_true_iff in Hp as [[Hp _]%andb_true_iff _].
    apply plain_word_parts in Hp as [_ Hp]. unfold word_lexeme. rewrite Hp. by eexists _, _.
  - by eexists _, _.
  - by eexists _, _.
  - by eexists _, _.
  - destruct v as [str|[]|z|z|f| |]; try done; eexists _, _; (split; [reflexivity|]); try done;
      (destruct names; [done|]); unfold operand_lexeme, word_lexeme; cbn [fst snd];
      by rewrite glued_keyword.
  - eexists _, _. split; [reflexivity|]. destruct names; [done|].
    unfold operand_lexeme, word_lexeme; cbn [fst snd]. by rewrite glued_keyword.
Qed.

(** ** Composing texts *)

(** [text], before anything that ends a word, is read as [ls]. *)
Definition reads_as (text : gostring) (ls : list lexeme) : Prop :=
  forall s ls', cut s = true -> lexto s ls' -> lexat (text ++ s) (ls ++ ls').

Lemma lexto_join texts lss : Forall2 reads_as texts lss -> forall s ls,
  cut s = true -> lexto s ls -> lexto (comma_sep texts ++ s) (separated lss ++ ls).
Proof.
  unfold comma_sep. induction 1 as [|text l texts lss Ht Hts IH]; intros s ls Hs Hl; [done|].
  destruct Hts as [|text' l' texts lss Ht' Hts].
  { cbn. by apply lexat_lexto, Ht. }
  change (Join (text :: text' :: texts) (go ", ")) with (text ++ 44 :: 32 :: Join (text' :: texts) (go ", ")).
  change (separated (l :: l' :: lss)) with (l ++ (TokenComma, go ",") :: separated (l' :: lss)).
  rewrite <- !app_assoc. cbn [app]. apply lexat_lexto, Ht; [done|].
  apply lexat_lexto, (lexat_bracket (TokenComma, go ",")); [cbn; tauto|].
  apply lexto_space. by apply IH.
Qed.

Lemma lexat_enclosed l1 l2 text ls : In l1 brackets -> In l2 brackets -> cut l2.2 = true -> 
  (forall s ls', cut s = true -> lexto s ls' -> lexto (text ++ s) (ls ++ ls')) ->
  forall s ls', lexto s ls' -> lexat ((l1.2 ++ text ++ l2.2) ++ s) ((l1 :: ls ++ [l2]) ++ ls').
Proof.
  intros H1 H2 Hc Ht s ls' Hs. rewrite <- !app_assoc. cbn [app]. apply lexat_bracket; [done|].
  rewrite <- app_assoc. apply Ht; [|by apply lexat_lexto, lexat_bracket].
  cbn [brackets In] in H2. by repeat destruct H2 as [<-|H2].
Qed.

Lemma lexat_parens text ls : 
  (forall s ls', cut s = true -> lexto s ls' -> lexto (text ++ s) (ls ++ ls')) ->
  forall s ls', lexto s ls' -> lexat (parens text ++ s) (in_parens ls ++ ls').
Proof.
  intros Ht. apply (lexat_enclosed (TokenParenOpen, go "(") (TokenParenClose, go ")")); [cbn; tauto..|done|done].
Qed.

Lemma reads_as_lexto text ls s ls' : reads_as text ls -> cut s = true -> lexto s ls' ->
  lexto (text ++ s) (ls ++ ls').
Proof. intros Ht Hs Hl. by apply lexat_lexto, Ht. Qed.

(** [name: value], an argument or a map entry. *)
Lemma reads_as_entry k text ls : key k = true -> reads_as text ls ->
  reads_as (k ++ go ": " ++ text) (word_lexeme k :: (TokenColon, go ":") :: ls).
Proof.
  intros Hk Ht s ls' Hs Hl. rewrite <- !app_assoc. cbn [app]. apply lexat_key; [done..|].
  apply lexat_lexto, (lexat_spaced (TokenColon, go ":")); [cbn; tauto|]. by apply lexat_lexto, Ht.
Qed.

(** [left op right]. *)
Lemma reads_as_infix l text1 ls1 text2 ls2 : In l spaced -> reads_as text1 ls1 -> reads_as text2 ls2 ->
  reads_as (text1 ++ 32 :: l.2 ++ 32 :: text2) (ls1 ++ l :: ls2).
Proof.
  intros Hl H1 H2 s ls' Hs Hls. rewrite <- !app_assoc. cbn [app]. rewrite <- app_assoc. cbn [app].
  apply H1; [done|]. apply lexto_space, lexat_lexto, lexat_spaced; [done|]. by apply lexat_lexto, H2.
Qed.

(** A closed text with member names after it. *)
Lemma reads_as_closed text ls names : 
  (forall s ls', (cut s = true \/ exists c u, s = 46 :: c :: u /\ IsLetter c || (c =? 95) = true) ->
     lexto s ls' -> lexat (text ++ s) (ls ++ ls')) ->
  Forall (fun f => segment f = true) names -> (names <> [] -> dot_word (hd [] names) = true) ->
  reads_as (text ++ dotted names) (ls ++ dotted_lexemes names).
Proof.
  intros Ht Hn Hd s ls' Hs Hl. rewrite <- !app_assoc. apply Ht; [|by apply lexto_dotted].
  destruct names as [|f names]; [by left|]. right. specialize (Hd ltac:(done)).
  apply dot_word_parts in Hd as (c & f' & Hf & Hc & _). cbn in Hf. subst f.
  rewrite dotted_cons. cbn [app]. by eexists c, _.
Qed.

Lemma closed_number_end s : 
  (cut s = true \/ exists c u, s = 46 :: c :: u /\ IsLetter c || (c =? 95) = true) -> number_end s.
Proof.
  intros [Hs|(c & u & -> & Hc)]; [by apply cut_number_end|].
  repeat split. cbn. by apply callable_not_digit in Hc as [-> _].
Qed.

Lemma operator_spaced op : memS op operators = true -> In (operator_lexeme op) spaced
  /\ (operator_lexeme op).2 = op.
Proof.
  intros Hop. apply memS_In in Hop. split.
  - unfold spaced. apply in_or_app. right. apply in_map_iff. by exists op.
  - unfold operator_lexeme. repeat case_match; done.
Qed.

(** ** The printer *)

Lemma formatChild_bare c min : (min <=? nodePrec c) = true -> formatChild c min = FormatExpr c.
Proof.
  intros Hm. unfold formatChild. by rewrite (proj2 (Z.ltb_ge _ _)) by by apply Z.leb_le.
Qed.

(** The claim of the induction: [n] with [names] glued to it. *)
Definition prints_as (n : expr) : Prop :=
  forall names, printable_in (glued names) n = true -> bracketed n = true ->
  Forall (fun f => segment f = true) names ->
  (names <> [] -> open_ended n = true \/ dot_word (hd [] names) = true) ->
  (names = [] \/ precPostfix <= nodePrec n) ->
  reads_as (FormatExpr n ++ dotted names) (lexemes names n).

Lemma prints_as_bare n : prints_as n -> printable n = true -> bracketed n = true ->
  reads_as (FormatExpr n) (lexemes [] n).
Proof.
  intros Hn Hp Hb. rewrite <- (app_nil_r (FormatExpr n)). change (@nil Z) with (dotted []).
  apply Hn; [done|done|constructor|done|by left].
Qed.

Lemma prints_as_list es : Forall prints_as es -> forallb printable es = true ->
  forallb bracketed es = true -> Forall2 reads_as (FormatExpr <$> es) (lexemes [] <$> es).
Proof.
  induction 1 as [|n es Hn _ IH]; cbn [forallb fmap list_fmap]; [constructor|].
  intros [Hp Hps]%andb_true_iff [Hb Hbs]%andb_true_iff.
  constructor; [by apply prints_as_bare | by apply IH].
Qed.

Definition entry_text (kv : gostring * expr) : gostring := kv.1 ++ go ": " ++ FormatExpr kv.2.
Definition entry_lexemes (kv : gostring * expr) : list lexeme :=
  word_lexeme kv.1 :: (TokenColon, go ":") :: lexemes [] kv.2.

Lemma prints_as_entries es : Forall (fun kv : gostring * expr => prints_as kv.2) es ->
  forallb (fun kv => printable kv.2) es = true -> forallb (fun kv => bracketed kv.2) es = true ->
  forallb (fun kv => key kv.1) es = true ->
  Forall2 reads_as (entry_text <$> es) (entry_lexemes <$> es).
Proof.
  induction 1 as [|[k n] es Hn _ IH]; cbn [forallb fmap list_fmap fst snd]; [constructor|].
  intros [Hp Hps]%andb_true_iff [Hb Hbs]%andb_true_iff [Hk Hks]%andb_true_iff.
  constructor; [apply reads_as_entry; [done|by apply prints_as_bare] | by apply IH].
Qed.

Lemma names_ok_parts args named : names_ok args named = true ->
  (args = [] \/ named = []) /\ forallb (fun kv => key kv.1) named = true
  /\ Forall (fun kv => memS kv.1 reservedArgsNames = false) named /\ distinct (named.*1) = true.
Proof.
  unfold names_ok. rewrite !andb_true_iff, orb_true_iff, !Nat.eqb_eq. intros [[Hl Hk] Hd].
  apply forallb_Forall_true in Hk. repeat split.
  - destruct Hl as [Hl|Hl]; apply nil_length_inv in Hl; auto.
  - apply forallb_Forall_true. eapply Forall_impl; [exact Hk|]. by intros kv [? _]%andb_true_iff.
  - eapply Forall_impl; [exact Hk|]. by intros kv [_ ?%negb_true_iff]%andb_true_iff.
  - done.
Qed.

(** The parenthesised arguments of a call. *)
Lemma prints_as_args args named : Forall prints_as args ->
  Forall (fun kv : gostring * expr => prints_as kv.2) named ->
  forallb printable args = true -> forallb (fun kv => printable kv.2) named = true ->
  forallb bracketed args = true -> forallb (fun kv => bracketed kv.2) named = true ->
  names_ok args named = true ->
  forall s ls', lexto s ls' ->
  lexat (parens (comma_sep ((FormatExpr <$> args) ++ (entry_text <$> named))) ++ s)
    (in_parens (separated ((lexemes [] <$> args) ++ (entry_lexemes <$> named))) ++ ls').
Proof.
  intros Ha Hn Hp1 Hp2 Hb1 Hb2 (_ & Hk & _)%names_ok_parts. apply lexat_parens, lexto_join.
  apply Forall2_app; [by apply prints_as_list | by apply prints_as_entries].
Qed.

Lemma number_reads_parts v : number_reads v = true ->
  ParseNumericLiteral (FormatLiteral v) = Some v
  /\ number_text (FormatLiteral v) = (FormatLiteral v, []) /\ number_start (FormatLiteral v).
Proof.
  unfold number_reads, number_start.
  rewrite !andb_true_iff, orb_true_iff, andb_true_iff, !bool_decide_eq_true, Z.eqb_eq. tauto.
Qed.

Lemma prints_as_literal v : prints_as (LiteralExpr v).
Proof.
  intros names Hp _ Hn Hd _. cbn [printable_with FormatExpr lexemes] in *.
  assert (Hnum : number_reads v = true -> literal_lexeme v = (TokenNumber, FormatLiteral v) ->
    open_ended (LiteralExpr v) = false ->
    reads_as (FormatLiteral v ++ dotted names) ([literal_lexeme v] ++ dotted_lexemes names)).
  { intros (_ & Hl & Hs)%number_reads_parts -> Ho. apply reads_as_closed; [|done|].
    - intros s ls' Hs' Hls. apply lexat_number; [done..|by apply closed_number_end|done].
    - rewrite Ho in Hd. intros Hne. by destruct (Hd Hne). }
  destruct v as [str|b|z|z|f| |]; try done.
  - apply (reads_as_closed _ [(TokenString, str)]); [|done|].
    + intros s ls' _ Hls. apply lexat_string; [|done]. apply forallb_Forall_true in Hp.
      eapply Forall_impl; [exact Hp|]. intros r ?. by apply Z.leb_le.
    + intros Hne. by destruct (Hd Hne).
  - intros s ls' Hs Hl. rewrite <- app_assoc. cbn [app FormatLiteral]. by apply lexat_word; [destruct b|..].
  - apply Hnum; [by apply number_reads_int|done..].
  - by apply Hnum.
Qed.

Lemma plain_word_key w : word w = true -> key w = true.
Proof.
  intros (c & w' & -> & Hc & Hd & Hall)%word_parts. cbn [key]. rewrite Hc, Hd. cbn [negb andb].
  apply Forall_cons in Hall as [_ Hall]. by apply forallb_Forall_true, path_ident.
Qed.

Lemma reads_as_word w : word w = true -> reads_as w [word_lexeme w].
Proof. intros Hw s ls' Hs Hl. apply lexat_key; [by apply plain_word_key|done..]. Qed.

Definition params_text (ps : list gostring) : gostring :=
  match ps with [p] => p | _ => parens (comma_sep ps) end.

Lemma reads_as_params ps : params_ok ps = true -> reads_as (params_text ps) (params_lexemes ps).
Proof.
  unfold params_ok. intros [Hps%forallb_Forall_true _]%andb_true_iff.
  assert (Hw : Forall2 reads_as ps ((fun p => [word_lexeme p]) <$> ps)).
  { induction Hps as [|p ps [[Hp _]%plain_word_parts _]%andb_true_iff _ IH]; constructor; [|done].
    by apply reads_as_word. }
  assert (Hpar : reads_as (parens (comma_sep ps)) (in_parens (separated ((fun p => [word_lexeme p]) <$> ps)))).
  { intros s ls' _ Hl. apply lexat_parens; [|done]. by apply lexto_join. }
  destruct ps as [|p [|q ps]]; [done| |done]. cbn [params_text params_lexemes].
  by apply Forall2_cons in Hw as [? _].
Qed.

Lemma FormatExpr_call r name kind args named : FormatExpr (CallExpr r name kind args named)
  = (if kind =s [] then [] else kind ++ go " ")
    ++ (if is_nil_node r then [] else formatChild r precPostfix ++ go ".") ++ name
    ++ parens (comma_sep ((FormatExpr <$> args) ++ (entry_text <$> named))).
Proof. done. Qed.

Lemma FormatExpr_binary op l r : FormatExpr (BinaryExpr op l r)
  = (if binaryPrec op =? precCompare
     then formatChild l (precCompare + 1) ++ 32 :: op ++ 32 :: formatChild r (precCompare + 1)
     else formatChild l (binaryPrec op) ++ 32 :: op ++ 32 :: formatChild r (binaryPrec op + 1)).
Proof. done. Qed.

Lemma prints_as_call r name kind args named : prints_as r -> Forall prints_as args ->
  Forall (fun kv : gostring * expr => prints_as kv.2) named -> prints_as (CallExpr r name kind args named).
Proof.
  intros Hr Hargs Hnamed names Hp Hb Hn Hd _.
  cbn [printable_with bracketed lexemes] in *.
  apply andb_true_iff in Hp as [[[Hp1 Hp2]%andb_true_iff Hno]%andb_true_iff Hp].
  apply andb_true_iff in Hb as [[Hbr Hb1]%andb_true_iff Hb2].
  rewrite FormatExpr_call.
  assert (Hrest : forall s ls', cut s = true -> lexto s ls' -> lexto
    (parens (comma_sep ((FormatExpr <$> args) ++ (entry_text <$> named))) ++ dotted names ++ s)
    (in_parens (separated ((lexemes [] <$> args) ++ (entry_lexemes <$> named)))
     ++ dotted_lexemes names ++ ls')).
  { intros s ls' Hs Hl. apply lexat_lexto. rewrite !(app_assoc _ _ s), !(app_assoc _ _ ls').
    apply reads_as_closed; [|done|intros Hne; by destruct (Hd Hne)|done..].
    intros s1 ls1 _ Hl1. by apply prints_as_args. }
  change (fun kv => word_lexeme kv.1 :: (TokenColon, go ":") :: lexemes [] kv.2) with entry_lexemes.
  destruct (kind =s []); cbn [negb] in Hp.
  - destruct (is_nil_node r).
    + apply call_ok_parts in Hp as ([Hw _]%plain_word_parts & _).
      intros s ls' Hs Hl. cbn [app negb]. rewrite <- !app_assoc. apply (reads_as_word name Hw); [done|].
      by apply Hrest.
    + apply andb_true_iff in Hp as [[[Hpr _]%andb_true_iff Hdw]%andb_true_iff _].
      cbn [orb] in Hbr. apply andb_true_iff in Hbr as [Hbp Hbr].
      rewrite formatChild_bare by done. apply Z.leb_le in Hbp.
      intros s ls' Hs Hl. rewrite <- !app_assoc. cbn [app negb].
      assert (Hrn : reads_as (FormatExpr r ++ dotted [name]) (lexemes [name] r)).
      { apply Hr; [done|done| |by right|by right].
        constructor; [|constructor]. by apply dot_word_parts in Hdw as (_ & _ & _ & _ & ?). }
      rewrite dotted_cons in Hrn. cbn [dotted fmap list_fmap concat] in Hrn. rewrite app_nil_r in Hrn.
      pose proof (Hrn _ _ (eq_refl : cut (parens _ ++ _) = true) (Hrest s ls' Hs Hl)) as Hx.
      by rewrite <- app_assoc in Hx.
  - apply andb_true_iff in Hp as [[[Hnil Hkind]%andb_true_iff [Hw _]%plain_word_parts]%andb_true_iff _].
    rewrite Hnil. intros s ls' Hs Hl. rewrite <- !app_assoc. cbn [app negb].
    assert (Hkw : word kind = true).
    { apply memS_In in Hkind. cbn [invocationKindKeywords fmap list_fmap In] in Hkind.
      by repeat destruct Hkind as [<-|Hkind]. }
    apply (reads_as_word kind Hkw); [done|]. apply lexto_space, lexat_lexto.
    apply (reads_as_word name Hw); [done|]. by apply Hrest.
Qed.

Lemma prints_as_infix op n1 n2 : prints_as n1 -> prints_as n2 -> prints_as (BinaryExpr op n1 n2).
Proof.
  intros H1 H2 names Hp Hb _ _ Hpost. cbn [printable_with bracketed lexemes] in *.
  apply andb_true_iff in Hp as [[Hp1 Hp2]%andb_true_iff Hop].
  destruct (operator_spaced op Hop) as [Hin Hsnd].
  assert (names = []) as ->.
  { destruct Hpost as [|Hpost]; [done|]. exfalso. apply memS_In in Hop. cbn in Hop.
    by repeat destruct Hop as [<-|Hop]. }
  rewrite app_nil_r. assert (FormatExpr (BinaryExpr op n1 n2) = FormatExpr n1 ++ 32 :: op ++ 32 :: FormatExpr n2
    /\ bracketed n1 = true /\ bracketed n2 = true) as (-> & Hb1 & Hb2).
  { rewrite FormatExpr_binary. destruct (binaryPrec op =? precCompare);
      apply andb_true_iff in Hb as [[Hm1 Hb1]%andb_true_iff [Hm2 Hb2]%andb_true_iff];
      by rewrite !formatChild_bare. }
  rewrite <- Hsnd at 1. apply reads_as_infix; [done|by apply prints_as_bare..].
Qed.

Lemma prints_as_ternary c t e : prints_as c -> prints_as t -> prints_as e -> prints_as (TernaryExpr c t e).
Proof.
  intros Hc Ht He names Hp Hb _ _ Hpost. cbn [printable_with bracketed lexemes] in *.
  destruct Hpost as [->|Hpost]; [|done]. rewrite app_nil_r.
  apply andb_true_iff in Hp as [[Hp1 Hp2]%andb_true_iff Hp3].
  apply andb_true_iff in Hb as [[[Hm1 Hb1]%andb_true_iff [Hm2 Hb2]%andb_true_iff]%andb_true_iff [Hm3 Hb3]%andb_true_iff].
  change (FormatExpr (TernaryExpr c t e)) with
    (formatChild c (precTernary + 1) ++ go " ? " ++ formatChild t (precTernary + 1)
     ++ go " : " ++ formatChild e precTernary).
  rewrite !formatChild_bare by done.
  apply (reads_as_infix (TokenQuestion, go "?")); [cbn; tauto|by apply prints_as_bare|].
  apply (reads_as_infix (TokenColon, go ":")); [cbn; tauto|by apply prints_as_bare..].
Qed.

Lemma prints_as_member o f opt : prints_as o -> prints_as (MemberExpr o f opt).
Proof.
  intros Ho names Hp Hb Hn _ _. cbn [printable_with bracketed lexemes] in *.
  apply andb_true_iff in Hp as [[Hp _]%andb_true_iff Hf]. apply andb_true_iff in Hb as [Hm Hb].
  change (FormatExpr (MemberExpr o f opt)) with
    (formatChild o precPostfix ++ (if opt then go ".?" else go ".") ++ f).
  rewrite formatChild_bare by done. apply Z.leb_le in Hm. unfold field_ok in Hf. destruct opt.
  - intros s ls' Hs Hl. rewrite <- !app_assoc. cbn [app].
    apply (prints_as_bare o Ho Hp Hb); [done|].
    apply lexat_lexto, (lexat_bracket (TokenDotQuestion, go ".?")); [cbn; tauto|].
    by apply lexat_lexto, lexat_word.
  - rewrite <- app_assoc. change ((go "." ++ f) ++ dotted names) with (dotted (f :: names)).
    apply Ho; [done|done| |intros _|by right].
    + constructor; [|done]. destruct (open_ended o); [done|].
      by apply dot_word_parts in Hf as (_ & _ & _ & _ & ?).
    + destruct (open_ended o); auto.
Qed.

Lemma prints_as_unary op x : prints_as x -> prints_as (UnaryExpr op x).
Proof.
  intros Hx names Hp Hb _ _ Hpost. cbn [printable_with bracketed lexemes] in *.
  destruct Hpost as [->|Hpost]; [|done]. rewrite app_nil_r.
  apply andb_true_iff in Hp as [Hp Hop]. apply andb_true_iff in Hb as [Hm Hb].
  change (FormatExpr (UnaryExpr op x)) with (op ++ formatChild x precUnary).
  rewrite formatChild_bare by done. pose proof (prints_as_bare x Hx Hp Hb) as Hr.
  destruct (lexemes_first x [] Hp) as (l & ls & Hfst & Hl). rewrite Hfst in *.
  intros s ls' Hs Hls. specialize (Hr s ls' Hs Hls). destruct (op =s go "!") eqn:Hbang.
  - apply eqs_true in Hbang as ->. by apply lexat_bang.
  - apply orb_true_iff in Hop as [?|[Hop _]%andb_true_iff]; [congruence|]. apply eqs_true in Hop as ->.
    rewrite minus_lexemes_app by done. by apply lexat_minus.
Qed.

Lemma cons_middle_assoc {A} (a b : A) l m : a :: l ++ b :: m = (a :: l ++ [b]) ++ m.
Proof. cbn. by rewrite <- app_assoc. Qed.

(** The printed text of a tree is read as its tokens. *)
Lemma FormatExpr_reads n : prints_as n.
Proof.
  induction n using expr_ind'.
  - by intros names Hp.
  - intros names Hp _ Hn _ _ s ls' Hs Hl. cbn [printable_with] in Hp.
    apply ident_ok_keyword in Hp as (Hw & _). rewrite <- app_assoc. by apply lexat_word.
  - by apply prints_as_member.
  - by apply prints_as_call.
  - by apply prints_as_unary.
  - by apply prints_as_infix.
  - by apply prints_as_ternary.
  - intros names Hp Hb _ _ Hpost. cbn [printable_with bracketed] in *. destruct Hpost as [->|Hpost]; [|done].
    apply andb_true_iff in Hp as [Hps Hp]. rewrite app_nil_r.
    change (FormatExpr (LambdaExpr ps n)) with (params_text ps ++ go " => " ++ FormatExpr n).
    apply (reads_as_infix (TokenOperator, go "=>")); [cbn; tauto|by apply reads_as_params|by apply prints_as_bare].
  - intros names Hp Hb Hn Hd _. cbn [printable_with bracketed lexemes FormatExpr] in *.
    rewrite cons_middle_assoc. apply reads_as_closed; [|done|intros Hne; by destruct (Hd Hne)].
    intros s ls' _. apply (lexat_enclosed (TokenBracketOpen, go "[") (TokenBracketClose, go "]"));
      [cbn; tauto..|done|]. by apply lexto_join, prints_as_list.
  - intros names Hp Hb Hn Hd _. cbn [printable_with bracketed lexemes FormatExpr] in *.
    apply andb_true_iff in Hp as [[Hp Hk]%andb_true_iff _].
    rewrite cons_middle_assoc. apply reads_as_closed; [|done|intros Hne; by destruct (Hd Hne)].
    intros s ls' _. apply (lexat_enclosed (TokenBraceOpen, go "{") (TokenBraceClose, go "}"));
      [cbn; tauto..|done|]. by apply lexto_join, prints_as_entries.
  - intros names Hp Hb Hn Hd _. cbn [printable_with bracketed lexemes] in *.
    apply reads_as_closed; [|done|intros Hne; by destruct (Hd Hne)]. intros s ls' _ Hl.
    apply lexat_parens; [|done]. intros s1 ls1 Hs1 Hl1. by apply lexat_lexto, prints_as_bare.
  - apply prints_as_literal.
  - intros names Hp _ Hn _ _ s ls' Hs Hl. rewrite <- app_assoc. by apply (lexat_word (go "nil")).
  - by intros names Hp.
Qed.

(** A token of a one-line text. *)
Definition like (t : Token) (l : lexeme) : Prop :=
  tType t = l.1 /\ tLiteral t = l.2 /\ tLine t = 1.

Lemma Tokenize_FormatExpr n : printable n = true -> bracketed n = true ->
  exists ts eof, Tokenize (FormatExpr n) = Ok (ts ++ [eof])
    /\ Forall2 like ts (lexemes [] n) /\ tType eof = TokenEOF.
Proof.
  intros Hp Hb. pose proof (prints_as_bare n (FormatExpr_reads n) Hp Hb [] [] eq_refl) as Hr.
  rewrite !app_nil_r in Hr. specialize (Hr ltac:(constructor; constructor)).
  apply lexat_lexto, Tokenize_lexto in Hr as (toks & Ht & Hall).
  apply Forall2_app_inv_r in Hall as (ts & ts1 & Hts & Heof & ->).
  apply Forall2_cons_inv_r in Heof as (eof & ts2 & (He & _) & Hnil & ->).
  apply Forall2_nil_inv_r in Hnil as ->. by exists ts, eof.
Qed.
End Lexing.

(** ** The second token of a printed tree *)

Section Second.
Context `{UnicodeTables}.

(** A token that neither separates nor ends anything. *)
Definition goes_on (l : lexeme) : Prop :=
  l.1 <> TokenColon /\ l.1 <> TokenComma /\ l.1 <> TokenParenClose.

(** The parser's lookahead of one token past a name never mistakes what follows
    it for the end of a name of its own. *)
Definition second_ok (ls : list lexeme) : Prop :=
  match ls with
  | l1 :: l2 :: _ =>
      l2.1 <> TokenColon /\ l2.1 <> TokenComma /\ (l1.1 = TokenIdentifier -> l2.1 <> TokenParenClose)
  | _ => True
  end.

Lemma second_ok_app ls1 l ls2 : second_ok ls1 -> ls1 <> [] -> goes_on l -> second_ok (ls1 ++ l :: ls2).
Proof.
  intros H1 Hne (? & ? & ?). destruct ls1 as [|l1 [|l2 ls1]]; [done| |done]. by repeat split.
Qed.

Lemma goes_on_operand l : operand_lexeme l = true -> goes_on l.
Proof.
  unfold operand_lexeme, v1CanStartOperand, goes_on. cbn. by destruct l.1.
Qed.

Lemma keyword_type_word s : keyword_type s = TokenIdentifier \/ In (keyword_type s) (keywords.*2).
Proof.
  unfold keyword_type. destruct (List.find _ _) as [kw|] eqn:Hf; [right|by left].
  apply find_some in Hf as [Hin _]. by apply in_map.
Qed.

Lemma goes_on_word s : goes_on (word_lexeme s).
Proof.
  unfold word_lexeme, goes_on. cbn [fst]. destruct (keyword_type_word s) as [->|Hin]; [done|].
  cbn [keywords fmap list_fmap snd In] in Hin. by repeat destruct Hin as [<-|Hin].
Qed.

(** After an opening bracket. *)
Lemma second_ok_open l1 l ls : l1.1 <> TokenIdentifier -> l.1 <> TokenColon -> l.1 <> TokenComma ->
  second_ok (l1 :: l :: ls).
Proof. by repeat split. Qed.

Lemma second_ok_separated l1 l2 parts ls : l1.1 <> TokenIdentifier ->
  l2.1 <> TokenColon -> l2.1 <> TokenComma ->
  Forall (fun p => exists l ls, p = l :: ls /\ goes_on l) parts ->
  second_ok (l1 :: separated parts ++ l2 :: ls).
Proof.
  intros H1 H2 H3 Hp. destruct Hp as [|p parts (l & ls' & -> & (? & ? & ?)) _]; [by apply second_ok_open|].
  destruct parts; by apply second_ok_open.
Qed.

Lemma operands_go_on es : forallb printable es = true ->
  Forall (fun p => exists l ls, p = l :: ls /\ goes_on l) (lexemes [] <$> es).
Proof.
  intros Hp%forallb_Forall_true. apply Forall_fmap. eapply Forall_impl; [exact Hp|].
  intros n Hn. destruct (lexemes_first n [] Hn) as (l & ls & Hl & Ho). cbn. exists l, ls.
  split; [done|]. by apply goes_on_operand.
Qed.

Lemma lexemes_second n : forall names, printable_in (glued names) n = true -> second_ok (lexemes names n).
Proof.
  assert (Hne : forall n names, printable_in (glued names) n = true -> lexemes names n <> []).
  { intros m names Hp. by destruct (lexemes_first m names Hp) as (l & ls & -> & _). }
  induction n using expr_ind'; intros names Hp; pose proof Hp as Hp0; cbn [printable_with lexemes] in *; try done.
  - apply andb_true_iff in Hp as [[Hp _]%andb_true_iff _]. destruct b; [|by apply (IHn (f :: names))].
    apply second_ok_app; [by apply (IHn [])|by apply Hne|done].
  - apply andb_true_iff in Hp as [_ Hp]. destruct (k =s []); cbn [negb] in *.
    + destruct (is_nil_node n); [done|].
      apply andb_true_iff in Hp as [[[Hp _]%andb_true_iff _]%andb_true_iff _].
      apply second_ok_app; [by apply (IHn [n0])|by apply (Hne n [n0])|done].
    + destruct (goes_on_word n0) as (? & ? & ?). by repeat split.
  - apply andb_true_iff in Hp as [Hp _]. pose proof (IHn [] Hp) as IH.
    destruct (lexemes_first n [] Hp) as (l & ls & Hl & Ho). rewrite Hl in *.
    destruct (goes_on_operand l Ho) as (? & ? & ?).
    destruct (op =s go "!"); [by apply second_ok_open|]. cbn [minus_lexemes]. destruct l as [ty lit].
    destruct ty; try (by apply second_ok_open).
    destruct lit as [|d lit]; [by apply second_ok_open|]. destruct (isDigit d); [|by apply second_ok_open].
    by destruct ls.
  - apply andb_true_iff in Hp as [[Hp _]%andb_true_iff Hop]. apply second_ok_app; [by apply IHn1|by apply Hne|].
    apply memS_In in Hop. cbn [operators fmap list_fmap In] in Hop. by repeat destruct Hop as [<-|Hop].
  - apply andb_true_iff in Hp as [[Hp _]%andb_true_iff _]. by apply second_ok_app; [apply IHn1|apply Hne|].
  - destruct ps as [|p [|q ps]]; [done..|]. by apply second_ok_open; [|apply goes_on_word..].
  - apply second_ok_separated; [done..|]. by apply operands_go_on.
  - apply second_ok_separated; [done..|]. apply Forall_fmap, List.Forall_forall. intros kv _. cbn.
    eexists _, _. split; [reflexivity|]. apply goes_on_word.
  - destruct (lexemes_first n [] Hp) as (l & ls & -> & Ho%goes_on_operand).
    destruct Ho as (? & ? & ?). by apply second_ok_open.
  - by destruct v as [str|[]|z|z|f| |], names.
Qed.
End Second.
