(* ===== verification/Reparse.v ===== *)
(** The parser rebuilds a tree from the tokens of its printed text.

    The claim is proved level by level.  At the postfix level member names glued
    to what precedes them are carried along; a left-associative level is stated
    for whatever its loop makes of the tokens that follow. *)

From S2P Require Import Prelude GoText Strconv Ast Lexer LexerFacts Refusals Parser Printer.
From S2P Require Import ParserFacts Canonical Lexing.

(** ** Loops *)

Section Loop.
Context {S A : Type} (step : S -> list Token -> result parse_error (step_result S A)).

Lemma iter_more fuel fuel' s ts r : iter fuel step s ts = Ok r -> (fuel <= fuel')%nat ->
  iter fuel' step s ts = Ok r.
Proof.
  revert fuel' s ts. induction fuel as [|f IH]; intros [|f'] s ts Hr Hle; try (done || lia).
  cbn [iter] in *. destruct (step s ts) as [[s' ts'|a ts']|e]; [|done|done]. apply IH; [done|lia].
Qed.

Lemma loop_continue s ts s' ts' r : step s ts = Ok (Continue s' ts') ->
  (length ts' < length ts)%nat -> loop step s' ts' = Ok r -> loop step s ts = Ok r.
Proof.
  intros Hs Hlt Hr. unfold loop in *. cbn [iter]. rewrite Hs. eapply iter_more; [exact Hr | lia].
Qed.

Lemma loop_done s ts a ts' : step s ts = Ok (Done a ts') -> loop step s ts = Ok (a, ts').
Proof. intros Hs. unfold loop. cbn [iter]. by rewrite Hs. Qed.
End Loop.

(** ** Tokens *)

Lemma like_cons ts l ls : Forall2 like ts (l :: ls) -> exists t ts', ts = t :: ts' /\ like t l /\ Forall2 like ts' ls.
Proof. intros (t & ts' & ? & ? & ->)%Forall2_cons_inv_r. eauto. Qed.

Lemma like_app ts ls1 ls2 : Forall2 like ts (ls1 ++ ls2) ->
  exists ts1 ts2, ts = ts1 ++ ts2 /\ Forall2 like ts1 ls1 /\ Forall2 like ts2 ls2.
Proof. intros (ts1 & ts2 & ? & ? & ->)%Forall2_app_inv_r. eauto. Qed.

Lemma like_nil ts : Forall2 like ts [] -> ts = [].
Proof. apply Forall2_nil_inv_r. Qed.

(** Take a list of tokens apart along the lexemes it is like. *)
Ltac like_split :=
  repeat match goal with
  | H : Forall2 like _ (_ :: _) |- _ => apply like_cons in H as (? & ? & -> & ? & H)
  | H : Forall2 like _ (_ ++ _) |- _ =>
      let H2 := fresh H in apply like_app in H as (? & ? & -> & H & H2)
  | H : Forall2 like _ [] |- _ => apply like_nil in H as ->
  end.

Lemma take_cons t ts : tType t <> TokenEOF -> v1Take (t :: ts) = ts.
Proof. intros Ht. unfold v1Take, check. cbn. by rewrite (proj2 (isType_false _ _) Ht). Qed.

Lemma like_type t l ty : like t l -> isType ty t = bool_decide (l.1 = ty).
Proof. intros (H & _). unfold isType. by rewrite H. Qed.

Lemma like_isOp t l lit : like t l -> isOp lit t = bool_decide (l.1 = TokenOperator) && (l.2 =s lit).
Proof. intros (H1 & H2 & _). unfold isOp, isType. by rewrite H1, H2. Qed.

Lemma like_take t l ts : like t l -> l.1 <> TokenEOF -> v1Take (t :: ts) = ts.
Proof. intros (H & _) Hl. apply take_cons. congruence. Qed.

Lemma like_operand t l : like t l -> v1CanStartOperand t = operand_lexeme l.
Proof. intros (H1 & H2 & _). unfold operand_lexeme, v1CanStartOperand. cbn. by rewrite H1, H2. Qed.

(** How tightly a token that follows an expression binds to it: 0 ends it, the
    printer's level for an operator, and 9 for what extends a postfix chain or
    cannot follow at all. *)
Definition token_level (t : Token) : Z :=
  match tType t with
  | TokenEOF | TokenParenClose | TokenBracketClose | TokenBraceClose | TokenComma | TokenColon => 0
  | TokenQuestion => precTernary
  | TokenPipePipe => precOr
  | TokenAmpAmp => precAnd
  | TokenQuestionQuestion => precCoalesce
  | TokenKeywordIn | TokenKeywordStartsWith => precCompare
  | TokenOperator =>
      if memS (tLiteral t) comparisonOps then precCompare
      else if memS (tLiteral t) (go <$> ["+"; "-"]%string) then precAdditive
      else if memS (tLiteral t) (go <$> ["*"; "/"; "%"]%string) then precMultiplicative
      else precPostfix
  | _ => precPostfix
  end.

(** The operator test of each binary level. *)
Definition level_op (p : Z) : Token -> option gostring :=
  if p =? precMultiplicative then op_mul
  else if p =? precAdditive then op_add
  else if p =? precCoalesce then op_coalesce
  else if p =? precCompare then v1ComparisonOp
  else if p =? precAnd then op_and
  else op_or.

Lemma operator_in_level ops p t name : v1OperatorIn ops t = Some name ->
  (forall o, In o ops -> token_level (mkToken TokenOperator o 0 0 0 0 0 0) = p) -> token_level t = p.
Proof.
  unfold v1OperatorIn. destruct (_ && _) eqn:Hb; [|done]. intros _ Hops.
  apply andb_true_iff in Hb as [Hty%isType_true Hm%memS_In]. rewrite <- (Hops _ Hm).
  unfold token_level. by rewrite Hty.
Qed.

Lemma token_op_level ty s t name : v1TokenOp ty s t = Some name -> tType t = ty.
Proof. unfold v1TokenOp. destruct (isType ty t) eqn:Ht; [|done]. intros _. by apply isType_true. Qed.

Lemma comparison_level t name : v1ComparisonOp t = Some name -> token_level t = precCompare.
Proof.
  unfold v1ComparisonOp, token_level. destruct (tType t); try done. by destruct (memS _ comparisonOps).
Qed.

Lemma level_op_level p t name : precOr <= p <= precMultiplicative -> level_op p t = Some name ->
  token_level t = p.
Proof.
  unfold precOr, precMultiplicative. intros Hp.
  assert (p = 2 \/ p = 3 \/ p = 4 \/ p = 5 \/ p = 6 \/ p = 7) as [-> | [-> | [-> | [-> | [-> | ->]]]]] by lia.
  - intros Ht%token_op_level. unfold token_level. by rewrite Ht.
  - intros Ht%token_op_level. unfold token_level. by rewrite Ht.
  - apply comparison_level.
  - intros Ht%token_op_level. unfold token_level. by rewrite Ht.
  - intros Ht. eapply operator_in_level; [exact Ht|]. cbn [In fmap list_fmap].
    by intros o [<-|[<-|[]]].
  - intros Ht. eapply operator_in_level; [exact Ht|]. cbn [In fmap list_fmap].
    by intros o [<-|[<-|[<-|[]]]].
Qed.

Lemma level_op_none p t : token_level t < p -> precOr <= p <= precMultiplicative -> level_op p t = None.
Proof.
  intros Hl Hp. destruct (level_op p t) eqn:Ho; [|done].
  apply level_op_level in Ho; [lia|done].
Qed.

(** An operator's token belongs to the operator's level. *)
Lemma level_op_some op t : memS op operators = true -> like t (operator_lexeme op) ->
  precOr <= binaryPrec op <= precMultiplicative
  /\ token_level t = binaryPrec op /\ level_op (binaryPrec op) t = Some op /\ tType t <> TokenEOF.
Proof.
  destruct t as [ty lit pos line col e1 e2 e3]. intros Hop (Ht & Hl & _). cbn [tType tLiteral] in *.
  subst ty lit. apply memS_In in Hop. cbn [operators fmap list_fmap In] in Hop.
  repeat destruct Hop as [<-|Hop]; try done; repeat split; try (by vm_compute).
Qed.

Lemma low_level t : token_level t < precUnary ->
  isType TokenIdentifier t = false /\ isType TokenDotQuestion t = false
  /\ isType TokenParenOpen t = false /\ v1IsArrow t = false.
Proof.
  unfold token_level, isType, v1IsArrow, isOp, isType. destruct (tType t); try done.
  intros Hl. repeat split; try done. cbn [bool_decide andb].
  destruct (tLiteral t =s go "=>") eqn:He; [|by rewrite andb_false_r].
  apply eqs_true in He. rewrite He in Hl. vm_compute in Hl. done.
Qed.

(** ** The binary levels *)

Section Levels.
Context (unary : list Token -> result parse_error (v1Expr * list Token)).

Definition level_parser (p : Z) : list Token -> result parse_error (v1Expr * list Token) :=
  if p =? precUnary then unary
  else if p =? precMultiplicative then parseV1Multiplicative unary
  else if p =? precAdditive then parseV1Additive unary
  else if p =? precCoalesce then parseV1Coalesce unary
  else if p =? precCompare then parseV1Compare unary
  else if p =? precAnd then parseV1And unary
  else parseV1Or unary.

Definition left_level (p : Z) : Prop :=
  In p [precOr; precAnd; precCoalesce; precAdditive; precMultiplicative].

Lemma level_left p : left_level p ->
  level_parser p = parseV1LeftAssoc (level_parser (p + 1)) (level_op p).
Proof. intros Hp. repeat destruct Hp as [<-|Hp]; done || reflexivity. Qed.

Definition tree (n : expr) : v1Expr := mkV1 n (links n).

(** The tokens of [n] are read as [n] at level [p], before a token that binds
    more loosely. *)
Definition parses_at (p : Z) (n : expr) : Prop :=
  forall ts rest, Forall2 like ts (lexemes [] n) -> token_level (cur rest) < p ->
  level_parser p (ts ++ rest) = Ok (tree n, rest).

(** Before an operator of the level itself, [n] is what its loop goes on with. *)
Definition folds_at (p : Z) (n : expr) : Prop :=
  forall ts rest res, Forall2 like ts (lexemes [] n) -> token_level (cur rest) <= p ->
  loop (left_assoc_step (level_parser (p + 1)) (level_op p)) (tree n) rest = Ok res ->
  level_parser p (ts ++ rest) = Ok res.

Definition starts_operand (n : expr) : Prop :=
  exists l ls, lexemes [] n = l :: ls /\ operand_lexeme l = true.

Lemma left_level_bounds p : left_level p -> precOr <= p <= precMultiplicative.
Proof. intros Hp. by repeat destruct Hp as [<-|Hp]. Qed.

Lemma folds_of_tighter p n : left_level p -> parses_at (p + 1) n -> folds_at p n.
Proof.
  intros Hp Hn ts rest res Hts Hl Hr. rewrite level_left by done. unfold parseV1LeftAssoc.
  rewrite (Hn ts rest Hts) by lia. done.
Qed.

Lemma parses_of_folds p n : left_level p -> folds_at p n -> parses_at p n.
Proof.
  intros Hp Hn ts rest Hts Hl. apply Hn; [done|lia|]. apply loop_done. unfold left_assoc_step.
  rewrite level_op_none; [done|done|]. by apply left_level_bounds.
Qed.

Lemma operand_cur n ts rest : starts_operand n -> Forall2 like ts (lexemes [] n) ->
  v1CanStartOperand (cur (ts ++ rest)) = true.
Proof.
  intros (l & ls & -> & Hl) Hts. like_split. cbn. by erewrite like_operand.
Qed.

Lemma v1ExpectOperand_ok after n ts rest : starts_operand n -> Forall2 like ts (lexemes [] n) ->
  v1ExpectOperand after (ts ++ rest) = Ok tt.
Proof. intros Hn Hts. unfold v1ExpectOperand. by rewrite (operand_cur n). Qed.

Lemma v1ChainLink_ok tok operands : maxLinks operands + 1 <= MaxExpressionChain ->
  v1ChainLink tok operands = Ok (maxLinks operands + 1).
Proof. intros Hb. unfold v1ChainLink. by rewrite (proj2 (Z.ltb_ge _ _) Hb). Qed.

Lemma v1Binary_ok tok op l r : links (BinaryExpr op l r) <= MaxExpressionChain ->
  v1Binary tok op (tree l) (tree r) = Ok (tree (BinaryExpr op l r)).
Proof.
  intros Hb. unfold v1Binary. pose proof (links_nonneg l).
  cbn [tree x_links x_n links] in *. rewrite v1ChainLink_ok; rewrite maxLinks_two; [|lia].
  cbn [mbind result_bind]. unfold tree. cbn [links]. do 3 f_equal. lia.
Qed.

Lemma folds_binary op l r : memS op operators = true -> left_level (binaryPrec op) ->
  folds_at (binaryPrec op) l -> parses_at (binaryPrec op + 1) r -> starts_operand r ->
  links (BinaryExpr op l r) <= MaxExpressionChain -> folds_at (binaryPrec op) (BinaryExpr op l r).
Proof.
  intros Hop Hp Hl Hr Hro Hb ts rest res Hts Hlv Hres. cbn [lexemes] in Hts. like_split.
  rename select (like _ (operator_lexeme op)) into Ht.
  destruct (level_op_some _ _ Hop Ht) as (_ & Htl & Hsome & Heof).
  rewrite <- app_assoc. cbn [app]. apply Hl; [done|cbn; lia|]. eapply loop_continue; [| |exact Hres].
  - unfold left_assoc_step. cbn [cur nth]. rewrite Hsome, take_cons by done.
    rewrite (v1ExpectOperand_ok _ r) by done. cbn [mbind result_bind].
    rewrite Hr by (done || lia). cbn [mbind result_bind]. by rewrite v1Binary_ok.
  - cbn [length]. rewrite length_app. lia.
Qed.

(** A looser level passes what a tighter one read. *)
Lemma level_passes p ts e rest : precOr <= p <= precMultiplicative -> token_level (cur rest) < p ->
  level_parser (p + 1) ts = Ok (e, rest) -> level_parser p ts = Ok (e, rest).
Proof.
  intros Hp Hl He. pose proof (level_op_none p (cur rest) Hl Hp) as Hnone.
  destruct (decide (p = precCompare)) as [->|Hne].
  - change (level_parser precCompare) with (parseV1Compare unary).
    unfold parseV1Compare. change (parseV1Coalesce unary) with (level_parser (precCompare + 1)).
    rewrite He. cbn [mbind result_bind]. change (level_op precCompare) with v1ComparisonOp in Hnone.
    by rewrite Hnone.
  - assert (left_level p) as Hleft.
    { unfold left_level. cbn. unfold precOr, precMultiplicative, precAnd, precCoalesce, precAdditive, precCompare in *. lia. }
    rewrite level_left by done. unfold parseV1LeftAssoc. rewrite He. cbn [mbind result_bind].
    apply loop_done. unfold left_assoc_step. by rewrite Hnone.
Qed.

Lemma levels_pass q ts e rest : precOr <= q <= precUnary -> level_parser q ts = Ok (e, rest) ->
  forall p, precOr <= p <= q -> token_level (cur rest) < p -> level_parser p ts = Ok (e, rest).
Proof.
  intros Hq He p Hp Hl. unfold precOr, precUnary in *.
  remember (Z.to_nat (q - p)) as k eqn:Hk. revert p Hp Hk Hl. induction k as [|k IH]; intros p Hp Hk Hl.
  - by replace p with q by lia.
  - apply level_passes; [unfold precOr, precMultiplicative; lia|done|]. apply IH; lia.
Qed.

Lemma parses_compare op l r : memS op operators = true -> binaryPrec op = precCompare ->
  parses_at (precCompare + 1) l -> parses_at (precCompare + 1) r -> starts_operand r ->
  links (BinaryExpr op l r) <= MaxExpressionChain -> parses_at precCompare (BinaryExpr op l r).
Proof.
  intros Hop Hp Hl Hr Hro Hb ts rest Hts Hlv. cbn [lexemes] in Hts. like_split.
  rename select (like _ (operator_lexeme op)) into Ht.
  destruct (level_op_some _ _ Hop Ht) as (_ & Htl & Hsome & Heof). rewrite Hp in *.
  change (level_op precCompare) with v1ComparisonOp in Hsome.
  change (level_parser precCompare) with (parseV1Compare unary). unfold parseV1Compare.
  change (parseV1Coalesce unary) with (level_parser (precCompare + 1)).
  rewrite <- app_assoc. cbn [app]. rewrite Hl by (done || cbn; lia). cbn [mbind result_bind cur nth].
  rewrite Hsome, take_cons by done. rewrite (v1ExpectOperand_ok _ r) by done. cbn [mbind result_bind].
  rewrite Hr by (done || lia). cbn [mbind result_bind].
  pose proof (level_op_none precCompare (cur rest) Hlv ltac:(done)) as Hnone.
  change (level_op precCompare) with v1ComparisonOp in Hnone. rewrite Hnone. by rewrite v1Binary_ok.
Qed.

(** Every looser level reads a tighter node too. *)
Lemma parses_all q n : precOr <= q <= precUnary -> parses_at q n ->
  forall p, precOr <= p <= q -> parses_at p n.
Proof.
  intros Hq Hn p Hp ts rest Hts Hl. eapply levels_pass; [done| |done|done]. apply Hn; [done|lia].
Qed.
End Levels.

(** ** Separated items *)

Lemma maxOf_cons {A} (f : A -> Z) x l : maxOf f (x :: l) = Z.max (f x) (maxOf f l).
Proof. done. Qed.


(** What separates or ends arguments, elements and entries. *)
Definition separator (ty : TokenType) (t : Token) : Prop := tType t = TokenComma \/ tType t = ty.

Definition closing (ty : TokenType) : Prop :=
  In ty [TokenParenClose; TokenBracketClose; TokenBraceClose].

Lemma separator_level ty t : separator ty t -> closing ty ->
  token_level t = 0 /\ isType TokenColon t = false /\ forall lit, isOp lit t = false.
Proof.
  intros Hs Hty. unfold token_level, isOp, isType.
  assert (tType t = TokenComma \/ tType t = TokenParenClose \/ tType t = TokenBracketClose \/ tType t = TokenBraceClose) as Ht.
  { destruct Hs as [-> | ->]; [by left|right]. cbn in Hty. intuition congruence. }
  by repeat destruct Ht as [->|Ht]; rewrite ?Ht.
Qed.

(** Past the comma after an item; a closing bracket is left. *)
Definition past_comma (ts : list Token) : list Token :=
  if check TokenComma ts then v1Take ts else ts.

Section Separated.
Context {A S : Type} (f : A -> list lexeme) (ty : TokenType).
Context (step : S -> list Token -> result parse_error (step_result S S)).
Context (grow : A -> Token -> S -> S) (Inv : list A -> S -> Prop).

(** The states a loop over [items] can end in; the token is an item's first. *)
Inductive grown : list A -> S -> S -> Prop :=
| grown_nil st : grown [] st st
| grown_cons x items t st st' : grown items (grow x t st) st' -> grown (x :: items) st st'.

Context (Hty : closing ty).
Context (Hdone : forall st ts, check ty ts = true -> step st ts = Ok (Done st ts)).
Context (Hitem : forall x items st ts rest, Inv (x :: items) st -> Forall2 like ts (f x) ->
  separator ty (cur rest) ->
  step st (ts ++ rest) = Ok (Continue (grow x (cur (ts ++ rest)) st) (past_comma rest))
  /\ (0 < length ts)%nat /\ forall t, Inv items (grow x t st)).

Lemma past_comma_close rest : check ty rest = true -> past_comma rest = rest.
Proof.
  unfold past_comma, check. rewrite isType_true. intros Ht. rewrite (proj2 (isType_false _ _)); [done|].
  rewrite Ht. cbn in Hty. intuition congruence.
Qed.

(** A loop over items separated by commas reads them all and stops before the
    closing bracket. *)
Lemma separated_loop items : forall st ts rest, Inv items st ->
  Forall2 like ts (separated (f <$> items)) -> check ty rest = true ->
  exists st', grown items st st' /\ loop step st (ts ++ rest) = Ok (st', rest).
Proof.
  induction items as [|x items IH]; intros st ts rest Hinv Hts Hrest.
  { cbn in Hts. like_split. exists st. split; [constructor|]. by apply loop_done, Hdone. }
  assert (exists tx us, ts ++ rest = tx ++ us /\ Forall2 like tx (f x) /\ separator ty (cur us)
    /\ (length (past_comma us) <= length us)%nat /\ exists ts1, past_comma us = ts1 ++ rest
    /\ Forall2 like ts1 (separated (f <$> items))) as (tx & us & -> & Htx & Hsep & Hlen & ts1 & Hpast & Hts1).
  { destruct items as [|y items].
    - exists ts, rest. rewrite past_comma_close by done. do 2 (split; [done|]).
      split; [right; by apply isType_true|]. split; [done|]. exists []. split; [done|constructor].
    - cbn [fmap list_fmap separated] in Hts. like_split. rename select (like _ (TokenComma, _)) into Hc.
      rewrite <- app_assoc. cbn [app]. eexists _, _. split; [reflexivity|]. split; [done|].
      pose proof Hc as (Hcty & _). split; [by left|]. unfold past_comma, check. cbn [cur nth].
      rewrite (like_type _ _ _ Hc), (like_take _ _ _ Hc) by done.
      cbn [fst]. rewrite bool_decide_eq_true_2 by done. split; [cbn [length]; lia|]. by eexists. }
  destruct (Hitem x items st tx us) as (Hs & Hpos & Hinv'); [done..|].
  destruct (IH (grow x (cur (tx ++ us)) st) ts1 rest) as (st' & Hg & Hl); [done..|].
  exists st'. split; [by econstructor|]. rewrite <- Hpast in Hl.
  eapply loop_continue; [exact Hs| |exact Hl]. rewrite length_app. lia.
Qed.
End Separated.

(** ** Names *)

Section Postfix.
Context `{UnicodeTables}.

Lemma path_no_rune c s : path_char c = false -> Forall (fun d => path_char d = true) s ->
  ContainsRune s c = false.
Proof.
  intros Hc Hs. apply ContainsRune_false. eapply Forall_impl; [exact Hs|]. intros d Hd ->. congruence.
Qed.

Lemma segment_no_rune c s : path_char c = false -> segment s = true -> ContainsRune s c = false.
Proof. intros Hc [_ Hs]%segment_chars. by apply path_no_rune. Qed.

Lemma dotted_no_rune c names : c <> 46 -> path_char c = false ->
  Forall (fun f => segment f = true) names -> ContainsRune (dotted names) c = false.
Proof.
  intros Hne Hc Hn. induction Hn as [|f names Hf _ IH]; [done|]. rewrite dotted_cons. cbn [ContainsRune existsb].
  apply orb_false_iff. split; [by apply Z.eqb_neq|].
  change (ContainsRune (f ++ dotted names) c = false). by rewrite ContainsRune_app, IH, segment_no_rune.
Qed.

Lemma Split_dotted w names : ContainsRune w 46 = false -> Forall (fun f => segment f = true) names ->
  Split (w ++ dotted names) 46 = w :: names.
Proof.
  intros Hw Hn. revert w Hw. induction Hn as [|f names Hf _ IH]; intros w Hw.
  - unfold dotted. cbn. rewrite app_nil_r. by apply Split_none.
  - rewrite dotted_cons, Split_app by done. rewrite IH; [done|]. by apply segment_no_rune.
Qed.

Lemma path_segments_ok tok off parts : Forall (fun p => segment p = true) parts ->
  exists segs, path_segments tok off parts = Ok segs /\ sg_text <$> segs = parts.
Proof.
  intros Hp. revert off. induction Hp as [|p parts Hp _ IH]; intros off; cbn [path_segments]; [by eexists|].
  assert ((p =s []) = false) as ->.
  { apply segment_chars in Hp as [Hne _]. by apply eqs_false. }
  destruct (IH (off + Z.of_nat (length p) + 1)) as (segs & -> & <-). by eexists.
Qed.

Lemma v1PathSegments_word t w names : tLiteral t = w ++ dotted names -> segment w = true ->
  Forall (fun f => segment f = true) names ->
  exists sg segs, v1PathSegments t = Ok (sg :: segs) /\ sg_text sg = w /\ sg_text <$> segs = names.
Proof.
  intros Ht Hw Hn. unfold v1PathSegments. rewrite Ht, !ContainsRune_app.
  rewrite (segment_no_rune 58), (segment_no_rune 45), (dotted_no_rune 58), (dotted_no_rune 45) by done.
  cbn [orb].
  assert (HasPrefix (w ++ dotted names) (go ".") = false) as ->.
  { pose proof Hw as [Hne Hc]%segment_chars. destruct w as [|c w]; [done|].
    apply Forall_cons in Hc as [Hc _]. change ((46 =? c) && HasPrefix (w ++ dotted names) [] = false).
    by destruct (Z.eqb_spec 46 c) as [<-|]. }
  rewrite Split_dotted by (done || by apply segment_no_rune).
  destruct (path_segments_ok t 0 (w :: names)) as (segs & -> & Hs); [by constructor|].
  destruct segs as [|sg segs]; [done|]. cbn [fmap list_fmap] in Hs. injection Hs as <- <-.
  exists sg, segs. split; [done|]. by split.
Qed.

Lemma v1PathSegments_dotted t names : tLiteral t = dotted names -> names <> [] ->
  Forall (fun f => segment f = true) names ->
  exists segs, v1PathSegments t = Ok segs /\ sg_text <$> segs = names.
Proof.
  intros Ht Hne Hn. unfold v1PathSegments. rewrite Ht, (dotted_no_rune 58), (dotted_no_rune 45) by done.
  destruct names as [|f names]; [done|]. rewrite dotted_cons.
  change (HasPrefix _ (go ".")) with true. change (drop 1 (46 :: ?u)) with u.
  apply Forall_cons in Hn as [Hf Hn]. rewrite Split_dotted by (done || by apply segment_no_rune).
  apply path_segments_ok. by constructor.
Qed.

(** ** The postfix level *)

Context (ternary : list Token -> result parse_error (v1Expr * list Token)).

(** Member names applied to [base] before [rest] make [e] and leave [ts]. *)
Definition chained (base : v1Expr) (names : list gostring) (rest : list Token) (e : v1Expr)
    (ts : list Token) : Prop :=
  forall segs, sg_text <$> segs = names -> v1MemberChain ternary base segs false rest = Ok (e, ts).

Lemma chained_nil base rest : chained base [] rest base rest.
Proof. intros segs Hs. apply fmap_nil_inv in Hs as ->. done. Qed.

Lemma chained_inv base rest e ts : chained base [] rest e ts -> e = base /\ ts = rest.
Proof. intros Hc. specialize (Hc [] eq_refl). by injection Hc as -> ->. Qed.

(** One more member in front. *)
Lemma chained_member o f opt names rest e ts segs optf :
  links (MemberExpr o f opt) <= MaxExpressionChain ->
  (names = [] -> check TokenParenOpen rest = false) -> optf = opt ->
  chained (tree (MemberExpr o f opt)) names rest e ts -> sg_text <$> segs = f :: names ->
  v1MemberChain ternary (tree o) segs optf rest = Ok (e, ts).
Proof.
  intros Hb Hrest -> Hc Hs. destruct segs as [|sg segs]; [done|]. injection Hs as Hf Hs.
  cbn [v1MemberChain]. pose proof (links_nonneg o). cbn [links] in Hb.
  assert (Hm : match v1ChainLink (sg_tok sg) [x_links (tree o)] with
    | Ok links => v1MemberChain ternary (mkV1 (MemberExpr (x_n (tree o)) (sg_text sg) opt) links) segs false rest
    | Err e => Err e
    end = Ok (e, ts)).
  { rewrite v1ChainLink_ok by (unfold maxLinks, tree; cbn; lia).
    assert (maxLinks [x_links (tree o)] + 1 = links (MemberExpr o f opt)) as ->
      by (unfold maxLinks, tree; cbn; lia).
    rewrite Hf. by apply Hc. }
  destruct segs as [|sg' segs]; [|exact Hm]. cbn in Hs. subst names. by rewrite Hrest.
Qed.

(** The token of glued member names goes on with the chain. *)
Lemma postfix_dotted n names ts rest e ts' res : Forall (fun f => segment f = true) names ->
  Forall2 like ts (dotted_lexemes names) -> chained (tree n) names rest e ts' ->
  (length ts' <= length rest)%nat ->
  parseV1PostfixFrom ternary e ts' = Ok res -> parseV1PostfixFrom ternary (tree n) (ts ++ rest) = Ok res.
Proof.
  intros Hn Hts Hc Hlen Hres. destruct names as [|f names].
  { apply like_nil in Hts as ->. apply chained_inv in Hc as [-> ->]. done. }
  cbn [dotted_lexemes] in Hts. like_split. rename select (like _ _) into Ht. cbn [app].
  eapply loop_continue; [| |exact Hres]; [|cbn [length]; lia]. unfold postfix_step. cbn [cur nth].
  rewrite (like_type _ _ _ Ht). destruct Ht as (Hty & Hlit & _). cbn [fst snd] in *.
  rewrite Hlit. change (bool_decide _ && HasPrefix (dotted (f :: names)) (go ".")) with true. cbv iota.
  destruct (v1PathSegments_dotted x (f :: names) Hlit) as (segs & -> & Hs); [done..|].
  cbn [mbind result_bind]. rewrite take_cons by congruence. by rewrite (Hc segs Hs).
Qed.

(** After a name: nothing that would make it a call or a construct call. *)
Definition calm (rest : list Token) : Prop :=
  check TokenParenOpen rest = false
  /\ isType TokenIdentifier (cur rest) && negb (HasPrefix (tLiteral (cur rest)) (go ".")) = false.

Lemma segment_no_prefix w s : segment w = true -> HasPrefix (w ++ s) (go ".") = false.
Proof.
  intros [Hne Hc]%segment_chars. destruct w as [|c w]; [done|]. apply Forall_cons in Hc as [Hc _].
  change ((46 =? c) && HasPrefix (w ++ s) [] = false). by destruct (Z.eqb_spec 46 c) as [<-|].
Qed.

Lemma parse_name t w names rest e ts : like t (TokenIdentifier, w ++ dotted names) ->
  segment w = true -> Forall (fun f => segment f = true) names -> w <> go "null" ->
  v1IsArrow (cur rest) = false -> (names = [] -> calm rest) ->
  chained (mkV1 (name_root w) 0) names rest e ts ->
  parseV1Primary false ternary (t :: rest) = Ok (e, ts).
Proof.
  intros (Hty & Hlit & _) Hw Hn Hnull Harrow Hcalm Hc. cbn [fst snd] in *.
  unfold parseV1Primary. cbn [cur nth]. rewrite Hty. change (peekAhead 1 (t :: rest)) with (cur rest).
  rewrite Harrow. unfold parseV1Name. cbn [cur nth]. rewrite Hlit, segment_no_prefix by done.
  destruct (v1PathSegments_word t w names Hlit Hw Hn) as (sg & segs & -> & Hsg & Hsegs).
  cbn [mbind result_bind]. rewrite Hsg, (proj2 (eqs_false _ _) Hnull).
  change (peekAhead 1 (t :: rest)) with (cur rest). rewrite take_cons by congruence.
  rewrite (Hc segs Hsegs). destruct segs as [|sg' segs]; [|done]. cbn in Hsegs. subst names.
  destruct (Hcalm eq_refl) as [Hparen Hid]. unfold check in Hparen. rewrite Hparen.
  destruct (isType TokenIdentifier (cur rest)); cbn [andb] in *; [|done].
  by rewrite Hid, andb_false_r.
Qed.

(** A bare word before member names: the node it stands for. *)
Definition word_node (n : expr) (w : gostring) : Prop :=
  name_root w = n /\ segment w = true /\ w <> go "null" /\ links n = 0.

(** The postfix claim: [n] with [names] glued to it, before [rest]. *)
Definition extends_to (n : expr) : Prop :=
  forall names ts rest e ts' res,
  printable_in (glued names) n = true -> Forall (fun f => segment f = true) names ->
  Forall2 like ts (lexemes names n) ->
  v1IsArrow (cur rest) = false -> (names = [] -> calm rest) ->
  chained (tree n) names rest e ts' -> is_lambda (x_n e) = false -> (length ts' <= length rest)%nat ->
  parseV1PostfixFrom ternary e ts' = Ok res ->
  parseV1Postfix false ternary (ts ++ rest) = Ok res.

Lemma postfix_of_primary ts e ts' res : parseV1Primary false ternary ts = Ok (e, ts') ->
  is_lambda (x_n e) = false -> parseV1PostfixFrom ternary e ts' = Ok res ->
  parseV1Postfix false ternary ts = Ok res.
Proof.
  intros Hp Hl Hr. unfold parseV1Postfix. rewrite Hp. cbn [mbind result_bind]. by destruct (x_n e).
Qed.

(** Words: identifiers, [true], [false] and a [nil] with members. *)
Lemma extends_word n w names ts rest e ts' res : word_node n w ->
  Forall (fun f => segment f = true) names ->
  Forall2 like ts [(TokenIdentifier, w ++ dotted names)] ->
  v1IsArrow (cur rest) = false -> (names = [] -> calm rest) ->
  chained (tree n) names rest e ts' -> is_lambda (x_n e) = false ->
  parseV1PostfixFrom ternary e ts' = Ok res ->
  parseV1Postfix false ternary (ts ++ rest) = Ok res.
Proof.
  intros (<- & Hw & Hnull & Hl) Hn Hts Harrow Hcalm Hc Hlam Hres. like_split. cbn [app].
  eapply postfix_of_primary; [|done|exact Hres]. eapply parse_name; [done..|].
  unfold tree in Hc. by rewrite Hl in Hc.
Qed.

(** A node whose text is closed: its own tokens are a primary, the glued names a
    token of their own. *)
Lemma extends_closed n names ts1 ts2 rest e ts' res :
  parseV1Primary false ternary (ts1 ++ ts2 ++ rest) = Ok (tree n, ts2 ++ rest) -> is_lambda n = false ->
  Forall (fun f => segment f = true) names -> Forall2 like ts2 (dotted_lexemes names) ->
  chained (tree n) names rest e ts' -> (length ts' <= length rest)%nat ->
  parseV1PostfixFrom ternary e ts' = Ok res ->
  parseV1Postfix false ternary (ts1 ++ ts2 ++ rest) = Ok res.
Proof.
  intros Hp Hlam Hn Hts Hc Hlen Hres. eapply postfix_of_primary; [exact Hp|done|].
  by eapply postfix_dotted.
Qed.

(** *** Members *)

Lemma word_is_name t s : like t (word_lexeme s) -> v1IsNameToken t = true /\ isType TokenNumber t = false.
Proof.
  intros (Hty & _). unfold v1IsNameToken, isType. rewrite Hty. cbn [word_lexeme fst].
  destruct (keyword_type_word s) as [->|Hin]; [done|].
  cbn [keywords fmap list_fmap snd In] in Hin. by repeat destruct Hin as [<-|Hin].
Qed.

Lemma extends_member o f opt : extends_to o -> is_lambda o = false -> links (MemberExpr o f opt) <= MaxExpressionChain ->
  extends_to (MemberExpr o f opt).
Proof.
  intros Ho Hlo Hb names ts rest e ts' res Hp Hn Hts Harrow Hcalm Hc Hlam Hlen Hres.
  cbn [printable_with lexemes] in *. apply andb_true_iff in Hp as [[Hp _]%andb_true_iff Hf].
  assert (Hparen : names = [] -> check TokenParenOpen rest = false) by (intros ->; by apply Hcalm).
  unfold field_ok in Hf. destruct opt.
  - like_split. rewrite <- app_assoc. cbn [app].
    rename select (like _ (TokenDotQuestion, _)) into Hq. rename select (like _ (word_lexeme _)) into Hw.
    assert (Hseg : segment f = true) by by apply andb_true_iff in Hf as [? _].
    eapply (Ho []); [done|done|done| | |apply chained_nil| | |].
    + unfold v1IsArrow. cbn [cur nth]. by rewrite (like_isOp _ _ _ Hq).
    + intros _. unfold calm, check. cbn [cur nth]. rewrite !(like_type _ _ _ Hq). done.
    + done.
    + done.
    + eapply loop_continue; [| |exact Hres]; [|cbn [length]; lia]. unfold postfix_step. cbn [cur nth].
      rewrite !(like_type _ _ _ Hq). cbn [bool_decide fst andb]. rewrite (like_take _ _ _ Hq) by done.
      cbn [cur nth]. destruct (word_is_name _ _ Hw) as [Hname Hnum]. rewrite Hname, Hnum.
      pose proof (like_take _ _ rest Hw) as Htake. destruct Hw as (Hty & Hlit & _). cbn [word_lexeme snd] in Hlit.
      rewrite Hlit, segment_no_prefix by done. cbn [negb orb].
      destruct (v1PathSegments_word _ f names Hlit Hseg Hn) as (sg & segs & -> & Hsg & Hsegs).
      cbn [mbind result_bind]. rewrite Htake by (cbn; apply keyword_type_class).
      erewrite chained_member; [done|done|done|reflexivity|exact Hc|]. by rewrite <- Hsg, <- Hsegs.
  - eapply (Ho (f :: names)); [done| |done|done|done| |done|done|done].
    + constructor; [|done]. destruct (open_ended o); [done|].
      by apply dot_word_parts in Hf as (_ & _ & _ & _ & ?).
    + intros segs Hs. by eapply chained_member.
Qed.

(** *** Arguments *)

(** A nested full expression, up to a token that ends it. *)
Definition parses_full (n : expr) : Prop :=
  forall ts rest, Forall2 like ts (lexemes [] n) -> token_level (cur rest) = 0 ->
  ternary (ts ++ rest) = Ok (tree n, rest).

Lemma second_token n ts rest : printable n = true -> Forall2 like ts (lexemes [] n) ->
  isType TokenColon (cur rest) = false -> isType TokenColon (peekAhead 1 (ts ++ rest)) = false.
Proof.
  intros Hp Hts Hr. pose proof (lexemes_second n [] Hp) as Hs.
  destruct (lexemes_first n [] Hp) as (l & ls & Hl & _). rewrite Hl in *.
  destruct ls as [|l2 ls]; like_split; [done|]. cbn. rewrite (like_type _ l2) by done.
  apply bool_decide_eq_false. by destruct Hs.
Qed.

Lemma printable_operand n : printable n = true -> starts_operand n.
Proof. apply (lexemes_first n []). Qed.

Lemma operand_types t : v1CanStartOperand t = true ->
  isType TokenParenClose t = false /\ isType TokenEOF t = false /\ isType TokenBracketClose t = false
  /\ isType TokenBraceClose t = false.
Proof. unfold v1CanStartOperand, isType. by destruct (tType t). Qed.

Definition positional (n : expr) (start : Token) (st : args_state) : args_state :=
  mkArgs (as_list st ++ [ArgPositional n start]) (as_seen st) (maxLinks [as_links st; links n]).

Lemma after_argument_past st rest : separator TokenParenClose (cur rest) ->
  after_argument st rest = Ok (Continue st (past_comma rest)).
Proof.
  intros Hs. unfold after_argument, past_comma. destruct (check TokenComma rest) eqn:Hc; [done|].
  destruct Hs as [Hs|Hs]; unfold check in *; apply isType_true in Hs; [congruence|]. by rewrite Hs.
Qed.

Lemma args_step_positional n st ts rest : parses_full n -> printable n = true ->
  Forall2 like ts (lexemes [] n) -> separator TokenParenClose (cur rest) ->
  args_step ternary st (ts ++ rest)
  = Ok (Continue (positional n (cur (ts ++ rest)) st) (past_comma rest)).
Proof.
  intros Hn Hp Hts Hsep.
  destruct (separator_level _ _ Hsep ltac:(cbn; tauto)) as (Hlv & Hcol & Hop).
  pose proof (operand_cur n ts rest (printable_operand n Hp) Hts) as Ho.
  pose proof (second_token n ts rest Hp Hts Hcol) as H2.
  apply operand_types in Ho as (Hc & He & _). unfold args_step, check. rewrite Hc, He, H2, !andb_false_r.
  rewrite (Hn ts rest) by done. cbn [mbind result_bind tree x_n x_links]. unfold positional.
  destruct n; try (by apply after_argument_past). rewrite Hop. by apply after_argument_past.
Qed.

Lemma like_nonempty n ts : printable n = true -> Forall2 like ts (lexemes [] n) -> (0 < length ts)%nat.
Proof.
  intros Hp Hts. destruct (lexemes_first n [] Hp) as (l & ls & Hl & _). rewrite Hl in Hts.
  like_split. cbn. lia.
Qed.

(** What the parser needs of nested expressions. *)
Definition nested_ok (n : expr) : Prop := parses_full n /\ printable n = true.

Lemma grown_positional args st st' : grown positional args st st' -> 0 <= as_links st ->
  exists l, as_list st' = as_list st ++ l /\ positional_args l = args /\ named_args l = []
    /\ as_links st' = Z.max (as_links st) (maxOf links args).
Proof.
  induction 1 as [st|n args t st st' _ IH]; intros Hl.
  - exists []. rewrite app_nil_r. repeat split. unfold maxOf. cbn. lia.
  - destruct IH as (l & Hlist & Hpos & Hnam & Hlk); [cbn; lia|].
    exists (ArgPositional n t :: l). rewrite Hlist, Hlk. cbn [positional as_list as_links].
    rewrite <- app_assoc, maxLinks_two, maxOf_cons. repeat split; [cbn; by f_equal|done|lia].
Qed.

Lemma args_done st ts : check TokenParenClose ts = true -> args_step ternary st ts = Ok (Done st ts).
Proof. intros Hc. unfold args_step. by rewrite Hc. Qed.

Lemma args_positional args st ts rest : Forall nested_ok args -> 
  Forall2 like ts (separated (lexemes [] <$> args)) -> check TokenParenClose rest = true ->
  exists st', grown positional args st st' /\ loop (args_step ternary) st (ts ++ rest) = Ok (st', rest).
Proof.
  intros Hargs. apply (separated_loop _ _ _ _ (fun items _ => Forall nested_ok items));
    [cbn; tauto|apply args_done| |done].
  intros n items st1 ts1 rest1 Hn Hts1 Hsep. apply Forall_cons in Hn as [[Hf Hp] Hn].
  split; [by apply args_step_positional|]. split; [by eapply like_nonempty|done].
Qed.

(** *** Named arguments *)

Definition named_arg (kv : gostring * expr) (start : Token) (st : args_state) : args_state :=
  mkArgs (as_list st ++ [ArgNamed kv.1 kv.2 start]) ({[kv.1]} ∪ as_seen st)
    (maxLinks [as_links st; links kv.2]).

Lemma key_chars k : key k = true -> Forall (fun c => isIdentifierCharNoColon c = true) k.
Proof.
  destruct k as [|c k]; [done|]. cbn [key]. intros [[Hc _]%andb_true_iff Hk]%andb_true_iff.
  constructor; [by apply ident_char_path|]. by apply forallb_Forall_true.
Qed.

Lemma key_no_rune k c : key k = true -> isIdentifierCharNoColon c = false -> ContainsRune k c = false.
Proof.
  intros Hk%key_chars Hc. apply ContainsRune_false. eapply Forall_impl; [exact Hk|].
  intros d Hd ->. congruence.
Qed.

Lemma key_no_mark k : key k = true -> ContainsAny k (go ".:") = false.
Proof.
  intros Hk%key_chars. unfold ContainsAny. induction Hk as [|c k Hc _ IH]; [done|]. cbn [existsb].
  rewrite IH, orb_false_r. apply ContainsRune_false.
  repeat constructor; intros <-; by vm_compute in Hc.
Qed.

Lemma distinct_cons k l : distinct (k :: l) = true -> k ∉ l /\ distinct l = true.
Proof.
  cbn [distinct]. intros [Hm%negb_true_iff Hd]%andb_true_iff. split; [|done].
  intros Hin%list_elem_of_In%memS_In. congruence.
Qed.

(** Argument names the parser accepts after those in [seen]. *)
Definition entries_ok (seen : gset gostring) (named : list (gostring * expr)) : Prop :=
  Forall (fun kv => nested_ok kv.2 /\ key kv.1 = true /\ kv.1 ∉ seen) named
  /\ distinct (named.*1) = true.

Lemma entries_ok_cons seen kv named : entries_ok seen (kv :: named) ->
  nested_ok kv.2 /\ key kv.1 = true /\ (kv.1 ∉ seen) /\ entries_ok ({[kv.1]} ∪ seen) named.
Proof.
  intros [((? & ? & ?) & Hall)%Forall_cons [Hk Hd]%distinct_cons]. do 3 (split; [done|]). split; [|done].
  apply List.Forall_forall. intros kv' Hin. pose proof Hall as Hall'.
  eapply List.Forall_forall in Hall'; [|exact Hin]. destruct Hall' as (? & ? & ?). do 2 (split; [done|]).
  assert (kv'.1 <> kv.1) by (intros Heq; apply Hk; rewrite <- Heq; by apply list_elem_of_fmap_2, list_elem_of_In).
  set_solver.
Qed.

(** [key: value] up to the value. *)
Lemma entry_tokens kv ts rest : Forall2 like ts (entry_lexemes kv) ->
  exists tk tc tv, ts ++ rest = tk :: tc :: tv ++ rest /\ like tk (word_lexeme kv.1)
    /\ like tc (TokenColon, go ":") /\ Forall2 like tv (lexemes [] kv.2) /\ (0 < length ts)%nat.
Proof.
  intros Hts. unfold entry_lexemes in Hts. like_split.
  eexists _, _, _. do 4 (split; [done|]). cbn [length]. lia.
Qed.

Lemma args_step_named kv st ts rest : nested_ok kv.2 -> key kv.1 = true -> (kv.1 ∉ as_seen st) ->
  memS kv.1 reservedArgsNames = false -> Forall2 like ts (entry_lexemes kv) ->
  separator TokenParenClose (cur rest) ->
  args_step ternary st (ts ++ rest)
  = Ok (Continue (named_arg kv (cur (ts ++ rest)) st) (past_comma rest)).
Proof.
  intros [Hf Hp] Hk Hseen Hres Hts Hsep.
  destruct (separator_level _ _ Hsep ltac:(cbn; tauto)) as (Hlv & _ & _).
  destruct (entry_tokens kv ts rest Hts) as (tk & tc & tv & -> & Htk & Htc & Htv & _).
  destruct (word_is_name _ _ Htk) as [Hname _].
  assert (Htypes : isType TokenParenClose tk = false /\ isType TokenEOF tk = false).
  { unfold v1IsNameToken, isType in *. by destruct (tType tk). }
  destruct Htypes as [Hc He]. unfold args_step, check. cbn [cur nth].
  change (peekAhead 1 (tk :: tc :: tv ++ rest)) with tc.
  rewrite Hc, He, Hname, (like_type _ _ _ Htc). cbn [fst bool_decide andb]. rewrite bool_decide_eq_true_2 by done.
  assert (Htk' : tLiteral tk = kv.1) by (by destruct Htk as (_ & ? & _)). rewrite Htk', key_no_mark by done.
  unfold checkCallArgName. rewrite (bool_decide_eq_false_2 _ Hseen), Hres. cbn [mbind result_bind].
  rewrite (take_cons tk) by (by apply isType_false). cbn [cur nth].
  rewrite (like_take _ _ _ Htc) by done. rewrite (v1ExpectOperand_ok _ kv.2) by (done || by apply printable_operand).
  cbn [mbind result_bind]. rewrite (Hf tv rest) by done. cbn [mbind result_bind tree x_n x_links].
  by apply after_argument_past.
Qed.

Lemma args_named named st ts rest : entries_ok (as_seen st) named ->
  Forall (fun kv => memS kv.1 reservedArgsNames = false) named ->
  Forall2 like ts (separated (entry_lexemes <$> named)) -> check TokenParenClose rest = true ->
  exists st', grown named_arg named st st' /\ loop (args_step ternary) st (ts ++ rest) = Ok (st', rest).
Proof.
  intros Hok Hres. apply (separated_loop _ _ _ _
    (fun items st => entries_ok (as_seen st) items /\ Forall (fun kv => memS kv.1 reservedArgsNames = false) items));
    [cbn; tauto|apply args_done| |done].
  intros kv items st1 ts1 rest1 [(Hn & Hk & Hs & Hok1)%entries_ok_cons [Hr Hr1]%Forall_cons] Hts1 Hsep.
  split; [by apply args_step_named|]. split; [|done].
  by destruct (entry_tokens kv ts1 rest1 Hts1) as (? & ? & ? & _ & _ & _ & _ & ?).
Qed.

Lemma grown_named named st st' : grown named_arg named st st' -> 0 <= as_links st ->
  exists l, as_list st' = as_list st ++ l /\ positional_args l = [] /\ named_args l = named
    /\ as_links st' = Z.max (as_links st) (maxOf kv_links named).
Proof.
  induction 1 as [st|[k n] named t st st' _ IH]; intros Hl.
  - exists []. rewrite app_nil_r. repeat split. unfold maxOf. cbn. lia.
  - destruct IH as (l & Hlist & Hpos & Hnam & Hlk); [cbn; lia|].
    exists (ArgNamed k n t :: l). rewrite Hlist, Hlk. cbn [named_arg as_list as_links fst snd].
    rewrite <- app_assoc, maxLinks_two, maxOf_cons. repeat split; [done|cbn; by f_equal|unfold kv_links; cbn; lia].
Qed.


(** *** Calls *)

Definition call_args_ok (args : list expr) (named : list (gostring * expr)) : Prop :=
  (args = [] \/ named = []) /\ Forall nested_ok args /\ entries_ok ∅ named
  /\ Forall (fun kv => memS kv.1 reservedArgsNames = false) named.

Definition args_lexemes (args : list expr) (named : list (gostring * expr)) : list lexeme :=
  in_parens (separated ((lexemes [] <$> args) ++ (entry_lexemes <$> named))).

Definition args_links (args : list expr) (named : list (gostring * expr)) : Z :=
  Z.max (maxOf links args) (maxOf kv_links named).

(** The loop over the arguments of either kind. *)
Lemma args_loop args named ts rest : call_args_ok args named ->
  Forall2 like ts (separated ((lexemes [] <$> args) ++ (entry_lexemes <$> named))) ->
  check TokenParenClose rest = true ->
  exists st, loop (args_step ternary) (mkArgs [] ∅ 0) (ts ++ rest) = Ok (st, rest)
    /\ positional_args (as_list st) = args /\ named_args (as_list st) = named
    /\ as_links st = args_links args named.
Proof.
  intros (Hone & Hargs & Hnamed & Hres) Hts Hrest. unfold args_links.
  destruct Hone as [-> | ->]; cbn [fmap list_fmap app] in Hts.
  - destruct (args_named named (mkArgs [] ∅ 0) ts rest) as (st & Hg & Hl); [done..|].
    destruct (grown_named _ _ _ Hg ltac:(done)) as (l & Hli & Hp & Hn & Hk).
    exists st. rewrite Hli, Hk. cbn [as_list app] in *. repeat split; try done.
  - rewrite app_nil_r in Hts.
    destruct (args_positional args (mkArgs [] ∅ 0) ts rest) as (st & Hg & Hl); [done..|].
    destruct (grown_positional _ _ _ Hg ltac:(done)) as (l & Hli & Hp & Hn & Hk).
    exists st. rewrite Hli, Hk. cbn [as_list app] in *. repeat split; try done.
    cbn. pose proof (maxOf_nonneg links args). lia.
Qed.

Lemma construct_args_named l seen : positional_args l = [] -> construct_args l seen = Ok (named_args l).
Proof.
  revert seen. induction l as [|[k v t|v t] l IH]; intros seen Hp; [done| |done].
  cbn [construct_args]. cbn in Hp. by rewrite IH.
Qed.

Lemma object_literal_none l : (named_args l = [] -> forall es, positional_args l <> [MapExpr es]) ->
  object_literal_args l = None.
Proof.
  intros Hl. unfold object_literal_args. destruct l as [|[k v t|v t] [|a l]]; try done; destruct v; try done.
  by destruct (Hl eq_refl entries).
Qed.

Lemma parse_call_args kind bare args named ts rest : call_args_ok args named ->
  (kind <> [] -> args = []) -> 
  (bare = true -> named = [] -> forall es, args <> [MapExpr es]) ->
  Forall2 like ts (args_lexemes args named) ->
  parseV1CallArgs ternary kind bare (ts ++ rest) = Ok ((args, named, args_links args named), rest).
Proof.
  intros Hok Hkind Hobj Hts. unfold args_lexemes, in_parens in Hts. like_split.
  rename select (like _ (TokenParenOpen, _)) into Hopen. rename select (like _ (TokenParenClose, _)) into Hclose.
  unfold parseV1CallArgs. cbn [app]. rewrite (like_take _ _ _ Hopen) by done. rewrite <- app_assoc. cbn [app].
  match goal with |- context [?a ++ ?c :: rest] =>
    destruct (args_loop args named a (c :: rest)) as (st & -> & Hpos & Hnam & Hlk);
      [done|done|unfold check; cbn [cur nth]; by rewrite (like_type _ _ _ Hclose)|] end.
  cbn [mbind result_bind]. rewrite (like_take _ _ _ Hclose), Hlk by done.
  assert ((if bare || negb (kind =s []) then object_literal_args (as_list st) else None) = None) as ->.
  { destruct (bare || negb (kind =s [])) eqn:Hb; [|done]. apply object_literal_none. rewrite Hpos, Hnam.
    destruct bare; [by apply Hobj|]. apply negb_true_iff, eqs_false in Hb. by rewrite Hkind. }
  destruct (kind =s []) eqn:Hk; cbn [negb].
  - rewrite Hpos, Hnam. destruct Hok as ([-> | ->] & _); [done|]. by rewrite andb_false_r.
  - apply eqs_false in Hk. rewrite construct_args_named by (rewrite Hpos; auto). cbn [mbind result_bind].
    by rewrite Hnam, (Hkind Hk).
Qed.

Lemma call_links r name kind args named : is_nil_node r = true ->
  links (CallExpr r name kind args named) = args_links args named.
Proof. intros Hr. cbn [links]. by rewrite Hr. Qed.

Lemma lexemes_call r name kind args named names : lexemes names (CallExpr r name kind args named)
  = (if negb (kind =s []) then [word_lexeme kind; word_lexeme name]
     else if is_nil_node r then [word_lexeme name] else lexemes [name] r)
    ++ args_lexemes args named ++ dotted_lexemes names.
Proof. done. Qed.

(** The first token of an argument list. *)
Lemma args_open args named ts rest : Forall2 like ts (args_lexemes args named) ->
  isType TokenParenOpen (cur (ts ++ rest)) = true /\ isType TokenIdentifier (cur (ts ++ rest)) = false
  /\ v1IsArrow (cur (ts ++ rest)) = false.
Proof.
  intros Hts. unfold args_lexemes, in_parens in Hts. like_split.
  rename select (like _ (TokenParenOpen, _)) into Hopen. cbn [app cur nth].
  unfold v1IsArrow. by rewrite !(like_type _ _ _ Hopen), (like_isOp _ _ _ Hopen).
Qed.

(** *** Bare calls *)

Lemma parse_function_call t name args named ts rest : like t (word_lexeme name) ->
  call_ok name args named = true -> call_args_ok args named ->
  Forall2 like ts (args_lexemes args named) ->
  parseV1Primary false ternary (t :: ts ++ rest) = Ok (tree (CallExpr NilNode name [] args named), rest).
Proof.
  intros Ht Hc Hok Hts.
  apply call_ok_parts in Hc as ([Hw Hkw]%plain_word_parts & Hdw & Hval & Hret & Hbody & Hbuiltin & Hcaller
    & Hmap & Hacc & Hcont).
  destruct (args_open _ _ _ rest Hts) as (Hopen & Hid & Harrow).
  pose proof (like_take t _ (ts ++ rest) Ht) as Htake. destruct Ht as (Hty & Hlit & _).
  cbn [word_lexeme fst snd] in *. rewrite Hkw in Hty. specialize (Htake ltac:(by rewrite Hkw)).
  assert (Hseg : segment name = true) by by apply andb_true_iff in Hw as [? _].
  assert (Hcn : v1IsCallableName name = true) by by apply andb_true_iff in Hdw as [_ ?].
  assert (Hne : forall v, In v value_words -> (name =s v) = false).
  { intros v Hv. apply eqs_false. intros ->. apply memS_In in Hv. congruence. }
  unfold parseV1Primary. cbn [cur nth]. rewrite Hty.
  change (peekAhead 1 (t :: ts ++ rest)) with (cur (ts ++ rest)). rewrite Harrow.
  unfold parseV1Name. cbn [cur nth]. rewrite Hlit.
  rewrite <- (app_nil_r name) at 1. rewrite segment_no_prefix by done.
  destruct (v1PathSegments_word t name []) as (sg & segs & -> & Hsg & Hsegs);
    [by rewrite app_nil_r|done|constructor|]. apply fmap_nil_inv in Hsegs as ->.
  cbn [mbind result_bind]. rewrite Hsg, (Hne (go "null")) by (cbn; tauto).
  change (peekAhead 1 (t :: ts ++ rest)) with (cur (ts ++ rest)). rewrite Hid, Hopen. cbn [andb].
  rewrite (Hne (go "true")), (Hne (go "false")) by (cbn; tauto). cbn [negb andb].
  unfold parseV1FunctionCall. cbn [cur nth]. rewrite Hlit, Hcn, Hret, Hbody, Hbuiltin, Hcaller, andb_false_r. cbn [negb].
  rewrite Htake, (parse_call_args [] true args named) by done. cbn [mbind result_bind]. rewrite Hacc, Hcont.
  unfold tree. by rewrite call_links.
Qed.

Lemma word_no_mark s : segment s = true -> ContainsAny s (go ".:-") = false.
Proof.
  intros [_ Hs]%segment_chars. unfold ContainsAny. induction Hs as [|c s Hc _ IH]; [done|]. cbn [existsb].
  rewrite IH, orb_false_r. apply ContainsRune_false. repeat constructor; intros <-; by vm_compute in Hc.
Qed.

Lemma kind_word kind : memS kind invocationKindKeywords = true ->
  keyword_type kind = TokenIdentifier /\ segment kind = true /\ kind <> go "null" /\ kind <> [].
Proof.
  intros Hk. apply memS_In in Hk. cbn [invocationKindKeywords fmap list_fmap In] in Hk.
  by repeat destruct Hk as [<-|Hk].
Qed.

Lemma parse_construct_call t1 t2 kind name named ts rest :
  like t1 (word_lexeme kind) -> like t2 (word_lexeme name) ->
  memS kind invocationKindKeywords = true -> plain_word name = true -> call_args_ok [] named ->
  Forall2 like ts (args_lexemes [] named) ->
  parseV1Primary false ternary (t1 :: t2 :: ts ++ rest)
  = Ok (tree (CallExpr NilNode name kind [] named), rest).
Proof.
  intros Ht1 Ht2 Hkind [Hw Hkw]%plain_word_parts Hok Hts.
  destruct (args_open _ _ _ rest Hts) as (Hopen & _ & _).
  destruct (kind_word kind Hkind) as (Hk1 & Hk2 & Hk3 & Hk4).
  assert (Hseg : segment name = true) by by apply andb_true_iff in Hw as [? _].
  pose proof (like_take t1 _ (t2 :: ts ++ rest) Ht1) as Htake1. specialize (Htake1 ltac:(cbn; by rewrite Hk1)).
  pose proof (like_take t2 _ (ts ++ rest) Ht2) as Htake2. specialize (Htake2 ltac:(cbn; by rewrite Hkw)).
  destruct Ht1 as (Hty1 & Hlit1 & Hl1), Ht2 as (Hty2 & Hlit2 & Hl2). cbn [word_lexeme fst snd] in *.
  rewrite Hk1 in Hty1. rewrite Hkw in Hty2.
  unfold parseV1Primary. cbn [cur nth]. rewrite Hty1.
  change (peekAhead 1 (t1 :: t2 :: ts ++ rest)) with t2.
  assert (v1IsArrow t2 = false) as -> by (unfold v1IsArrow, isOp, isType; by rewrite Hty2).
  unfold parseV1Name. cbn [cur nth]. rewrite Hlit1.
  rewrite <- (app_nil_r kind) at 1. rewrite segment_no_prefix by done.
  destruct (v1PathSegments_word t1 kind []) as (sg & segs & -> & Hsg & Hsegs);
    [by rewrite app_nil_r|done|constructor|]. apply fmap_nil_inv in Hsegs as ->.
  cbn [mbind result_bind]. rewrite Hsg, (proj2 (eqs_false _ _) Hk3).
  change (peekAhead 1 (t1 :: t2 :: ts ++ rest)) with t2.
  rewrite (proj2 (isType_true _ _) Hty2), Hl1, Hl2, Hlit2. rewrite <- (app_nil_r name) at 1.
  rewrite segment_no_prefix by done. unfold isInvocationKindKeyword. rewrite Hkind. cbn [andb negb Z.eqb Pos.eqb].
  unfold parseV1ConstructCall. cbn [cur nth]. rewrite Htake1. cbn [cur nth].
  change (peekAhead 1 (t2 :: ts ++ rest)) with (cur (ts ++ rest)). rewrite Hlit2, Hlit1, Hopen, Htake2.
  rewrite word_no_mark by done.
  cbn [negb]. rewrite (parse_call_args kind false [] named) by done. cbn [mbind result_bind].
  unfold tree. by rewrite call_links.
Qed.

(** *** Method calls *)

Lemma chained_method r name args named ts rest : call_args_ok args named ->
  dot_word name = true -> name <> go "contains" -> is_nil_node r = false ->
  links (CallExpr r name [] args named) <= MaxExpressionChain ->
  Forall2 like ts (args_lexemes args named) ->
  chained (tree r) [name] (ts ++ rest) (tree (CallExpr r name [] args named)) rest.
Proof.
  intros Hok Hdw Hcont Hnil Hb Hts segs Hs. destruct segs as [|sg [|sg' segs]]; [done| |done].
  injection Hs as Hsg. destruct (args_open _ _ _ rest Hts) as (Hopen & _ & _).
  cbn [v1MemberChain]. unfold check. rewrite Hopen. unfold parseV1MethodCall. rewrite Hsg.
  assert (v1IsCallableName name = true) as -> by by apply andb_true_iff in Hdw as [_ ?].
  rewrite (proj2 (eqs_false _ _) Hcont). cbn [negb].
  rewrite (parse_call_args [] false args named) by done. cbn [mbind result_bind tree x_links x_n].
  assert (Hl : links (CallExpr r name [] args named) = maxLinks [links r; args_links args named] + 1).
  { cbn [links]. rewrite Hnil, maxLinks_two. pose proof (links_nonneg r).
    change (Z.max (links r) (args_links args named) + 1 = Z.max (Z.max 0 (links r)) (args_links args named) + 1). lia. }
  rewrite v1ChainLink_ok by (by rewrite <- Hl). cbn [mbind result_bind]. by rewrite <- Hl.
Qed.

Lemma extends_call r name kind args named : (is_nil_node r = false -> extends_to r) ->
  call_args_ok args named -> links (CallExpr r name kind args named) <= MaxExpressionChain ->
  extends_to (CallExpr r name kind args named).
Proof.
  intros Hr Hok Hb names ts rest e ts' res Hp Hn Hts Harrow Hcalm Hc Hlam Hlen Hres.
  cbn [printable_with] in Hp. apply andb_true_iff in Hp as [_ Hp]. rewrite lexemes_call in Hts.
  destruct (kind =s []) eqn:Hk; cbn [negb] in *; [apply eqs_true in Hk; subst kind|].
  - destruct (is_nil_node r) eqn:Hnil.
    + destruct r; try done. apply like_app in Hts as (ts1 & ts2 & -> & Hts1 & Hts2).
      apply like_app in Hts2 as (tsa & tsd & -> & Htsa & Htsd). like_split. rewrite <- !app_assoc.
      rewrite (app_assoc [_] tsa). eapply extends_closed; [| |exact Hn|exact Htsd|exact Hc|exact Hlen|exact Hres]; [|done].
      rewrite <- app_assoc. cbn [app].
      by apply parse_function_call.
    + apply andb_true_iff in Hp as [[[Hpr _]%andb_true_iff Hdw]%andb_true_iff Hcont%negb_true_iff%eqs_false].
      apply like_app in Hts as (tsr & ts2 & -> & Htsr & Hts2).
      apply like_app in Hts2 as (tsa & tsd & -> & Htsa & Htsd). rewrite <- !app_assoc.
      destruct (args_open _ _ _ (tsd ++ rest) Htsa) as (_ & _ & Ha).
      eapply (Hr eq_refl [name]); [done| |done|done|done|by apply chained_method|done| |].
      * constructor; [|constructor]. by apply dot_word_parts in Hdw as (_ & _ & _ & _ & ?).
      * rewrite !length_app. lia.
      * by eapply postfix_dotted.
  - apply andb_true_iff in Hp as [[[Hnil Hkind]%andb_true_iff Hw]%andb_true_iff Hargs%Nat.eqb_eq].
    apply nil_length_inv in Hargs as ->. destruct r; try done.
    apply like_app in Hts as (ts1 & ts2 & -> & Hts1 & Hts2).
    apply like_app in Hts2 as (tsa & tsd & -> & Htsa & Htsd). like_split. rewrite <- !app_assoc.
    rewrite (app_assoc [_; _] tsa). eapply extends_closed; [| |exact Hn|exact Htsd|exact Hc|exact Hlen|exact Hres]; [|done].
      rewrite <- app_assoc. cbn [app].
    by apply parse_construct_call.
Qed.

(** *** Lists, maps and groups *)

Definition list_grow (n : expr) (_ : Token) (st : list expr * Z) : list expr * Z :=
  (st.1 ++ [n], maxLinks [st.2; links n]).

Lemma list_step_item n st ts rest : nested_ok n -> Forall2 like ts (lexemes [] n) ->
  separator TokenBracketClose (cur rest) ->
  list_step ternary st (ts ++ rest) = Ok (Continue (list_grow n (cur (ts ++ rest)) st) (past_comma rest)).
Proof.
  intros [Hf Hp] Hts Hsep.
  destruct (separator_level _ _ Hsep ltac:(cbn; tauto)) as (Hlv & _ & _).
  pose proof (operand_cur n ts rest (printable_operand n Hp) Hts) as Ho.
  apply operand_types in Ho as (_ & He & Hc & _). unfold list_step, check. rewrite Hc, He.
  rewrite (Hf ts rest) by done. cbn [mbind result_bind tree x_n x_links]. unfold past_comma, check.
  destruct (isType TokenComma (cur rest)) eqn:Hcomma; [done|].
  destruct Hsep as [Hs|Hs]; apply isType_true in Hs; [congruence|]. by rewrite Hs.
Qed.

Lemma grown_list es st st' : grown list_grow es st st' -> 0 <= st.2 ->
  st' = (st.1 ++ es, Z.max st.2 (maxOf links es)).
Proof.
  induction 1 as [[l k]|n es t [l k] st' _ IH]; intros Hl; cbn [fst snd list_grow] in *.
  - rewrite app_nil_r. f_equal. unfold maxOf. cbn. lia.
  - rewrite IH by (cbn; lia). rewrite maxOf_cons, maxLinks_two, <- app_assoc. f_equal. lia.
Qed.

Lemma parse_list es t1 ts t2 rest : Forall nested_ok es -> like t1 (TokenBracketOpen, go "[") ->
  Forall2 like ts (separated (lexemes [] <$> es)) -> like t2 (TokenBracketClose, go "]") ->
  parseV1Primary false ternary (t1 :: ts ++ t2 :: rest) = Ok (tree (ListExpr es), rest).
Proof.
  intros Hes Ht1 Hts Ht2. pose proof Ht1 as (Hty & _). unfold parseV1Primary. cbn [cur nth fst] in *. rewrite Hty.
  unfold parseV1List. rewrite (like_take _ _ _ Ht1) by done.
  destruct (separated_loop (lexemes []) TokenBracketClose (list_step ternary) list_grow
    (fun items _ => Forall nested_ok items) ltac:(cbn; tauto)) with (items := es) (st := (@nil expr, 0))
    (ts := ts) (rest := t2 :: rest) as (st' & Hg & ->); [| |done|done| |].
  - intros st us Hc. unfold list_step. by rewrite Hc.
  - intros n items st us rest1 [Hn Hns]%Forall_cons Hus Hsep.
    split; [by apply list_step_item|]. split; [|done]. destruct Hn as [_ Hp]. by eapply like_nonempty.
  - unfold check. cbn [cur nth]. by rewrite (like_type _ _ _ Ht2).
  - cbn [mbind result_bind]. rewrite (like_take _ _ _ Ht2) by done. apply grown_list in Hg as ->; [|done].
    cbn [fst snd app]. unfold tree. cbn [links]. pose proof (maxOf_nonneg links es) as Hnn.
    rewrite Z.max_r by done. done.
Qed.

Definition map_grow (kv : gostring * expr) (_ : Token) (st : map_state) : map_state :=
  mkMap (ms_entries st ++ [kv]) ({[kv.1]} ∪ ms_seen st) (maxLinks [ms_links st; links kv.2]).

Lemma map_step_entry kv st ts rest : nested_ok kv.2 -> key kv.1 = true -> (kv.1 ∉ ms_seen st) ->
  Forall2 like ts (entry_lexemes kv) -> separator TokenBraceClose (cur rest) ->
  map_step ternary false st (ts ++ rest) = Ok (Continue (map_grow kv (cur (ts ++ rest)) st) (past_comma rest)).
Proof.
  intros [Hf Hp] Hk Hseen Hts Hsep.
  destruct (separator_level _ _ Hsep ltac:(cbn; tauto)) as (Hlv & _ & _).
  destruct (entry_tokens kv ts rest Hts) as (tk & tc & tv & -> & Htk & Htc & Htv & _).
  destruct (word_is_name _ _ Htk) as [Hname _].
  assert (Htypes : isType TokenBraceClose tk = false /\ isType TokenEOF tk = false /\ isType TokenString tk = false).
  { unfold v1IsNameToken, isType in *. by destruct (tType tk). }
  destruct Htypes as (Hc & He & Hs). unfold map_step, check. cbn [cur nth].
  change (peekAhead 1 (tk :: tc :: tv ++ rest)) with tc. rewrite Hc, He.
  assert (Htk' : tLiteral tk = kv.1) by (by destruct Htk as (_ & ? & _)).
  unfold map_key_ok. rewrite Hs, Hname, Htk', (key_no_rune kv.1 58) by done. cbn [negb mbind result_bind].
  rewrite !(like_type _ _ _ Htc). cbn [fst]. rewrite !(bool_decide_eq_false_2 (TokenColon = _)) by done.
  cbn [orb]. rewrite andb_false_r. cbn [mbind result_bind].
  rewrite (key_no_rune kv.1 46), (bool_decide_eq_false_2 _ Hseen) by done.
  rewrite (take_cons tk) by (by apply isType_false). cbn [cur nth].
  rewrite (like_type _ _ _ Htc). cbn [fst]. rewrite bool_decide_eq_true_2 by done. cbn [negb].
  rewrite (like_take _ _ _ Htc) by done. rewrite (v1ExpectOperand_ok _ kv.2) by (done || by apply printable_operand).
  cbn [mbind result_bind]. rewrite (Hf tv rest) by done. cbn [mbind result_bind tree x_n x_links].
  unfold map_grow, past_comma, check. rewrite <- surjective_pairing.
  destruct (isType TokenComma (cur rest)) eqn:Hcomma; [done|].
  destruct Hsep as [Hs'|Hs']; apply isType_true in Hs'; [congruence|]. by rewrite Hs'.
Qed.

Lemma grown_map es st st' : grown map_grow es st st' -> 0 <= ms_links st ->
  ms_entries st' = ms_entries st ++ es /\ ms_links st' = Z.max (ms_links st) (maxOf kv_links es).
Proof.
  induction 1 as [st|kv es t st st' _ IH]; intros Hl.
  - rewrite app_nil_r. split; [done|]. unfold maxOf. cbn. lia.
  - destruct IH as [He Hk]; [cbn; lia|]. rewrite He, Hk. cbn [map_grow ms_entries ms_links].
    rewrite maxOf_cons, maxLinks_two, <- app_assoc. split; [done|]. unfold kv_links at 2. lia.
Qed.

Lemma parse_map es t1 ts t2 rest : entries_ok ∅ es -> like t1 (TokenBraceOpen, go "{") ->
  Forall2 like ts (separated (entry_lexemes <$> es)) -> like t2 (TokenBraceClose, go "}") ->
  parseV1Primary false ternary (t1 :: ts ++ t2 :: rest) = Ok (tree (MapExpr es), rest).
Proof.
  intros Hes Ht1 Hts Ht2. pose proof Ht1 as (Hty & _). unfold parseV1Primary. cbn [cur nth fst] in *. rewrite Hty.
  unfold parseV1Map, parseV1MapWith. rewrite (like_take _ _ _ Ht1) by done.
  destruct (separated_loop entry_lexemes TokenBraceClose (map_step ternary false) map_grow
    (fun items st => entries_ok (ms_seen st) items) ltac:(cbn; tauto)) with (items := es) (st := mkMap [] ∅ 0)
    (ts := ts) (rest := t2 :: rest) as (st' & Hg & ->); [| |done|done| |].
  - intros st us Hc. unfold map_step. by rewrite Hc.
  - intros kv items st us rest1 (Hn & Hk & Hs & Hok)%entries_ok_cons Hus Hsep.
    split; [by apply map_step_entry|]. split; [|done].
    by destruct (entry_tokens kv us rest1 Hus) as (? & ? & ? & _ & _ & _ & _ & ?).
  - unfold check. cbn [cur nth]. by rewrite (like_type _ _ _ Ht2).
  - cbn [mbind result_bind]. rewrite (like_take _ _ _ Ht2) by done.
    apply grown_map in Hg as [-> ->]; [|done]. cbn [ms_entries ms_links app].
    unfold tree. cbn [links]. pose proof (maxOf_nonneg kv_links es) as Hnn. by rewrite Z.max_r.
Qed.

Lemma like_arrow t : like t (TokenOperator, go "=>") -> v1IsArrow t = true.
Proof. intros Ht. unfold v1IsArrow. by rewrite (like_isOp _ _ _ Ht). Qed.

(** A group is not taken for the parameters of a lambda. *)
Lemma group_not_lambda i t1 ts t2 rest : printable i = true -> like t1 (TokenParenOpen, go "(") ->
  Forall2 like ts (lexemes [] i) -> like t2 (TokenParenClose, go ")") -> v1IsArrow (cur rest) = false ->
  v1LambdaAhead (t1 :: ts ++ t2 :: rest) = false.
Proof.
  intros Hp Ht1 Hts Ht2 Harrow. unfold v1LambdaAhead, check.
  change (cur (t1 :: ts ++ t2 :: rest)) with t1. change (tail (t1 :: ts ++ t2 :: rest)) with (ts ++ t2 :: rest).
  rewrite (like_type _ _ _ Ht1). cbn [fst]. rewrite bool_decide_eq_true_2 by done. cbn [negb].
  pose proof (operand_cur i ts (t2 :: rest) (printable_operand i Hp) Hts) as (Hc & _)%operand_types.
  rewrite Hc. pose proof (lexemes_second i [] Hp) as Hsec.
  destruct (lexemes_first i [] Hp) as (l & ls & Hl & _). rewrite Hl in *. like_split.
  rename select (like _ l) into Hl1. cbn [app lambda_ahead_params]. rewrite (like_type _ _ _ Hl1).
  destruct (bool_decide_reflect (l.1 = TokenIdentifier)) as [Hid|]; [|done].
  destruct ls as [|l2 ls]; like_split; cbn [app].
  - rewrite (like_type _ _ _ Ht2). cbn [fst]. rewrite bool_decide_eq_false_2 by done.
    unfold close_then_arrow. change (peekAhead 1 (t2 :: rest)) with (cur rest). by rewrite Harrow, andb_false_r.
  - rename select (like _ l2) into Hl2. destruct Hsec as (_ & H2 & H3). specialize (H3 Hid).
    rewrite (like_type _ _ _ Hl2), bool_decide_eq_false_2 by done. unfold close_then_arrow, check. cbn [cur nth].
    by rewrite (like_type _ _ _ Hl2), bool_decide_eq_false_2.
Qed.

Lemma parse_paren i t1 ts t2 rest : nested_ok i -> like t1 (TokenParenOpen, go "(") ->
  Forall2 like ts (lexemes [] i) -> like t2 (TokenParenClose, go ")") -> v1IsArrow (cur rest) = false ->
  parseV1Primary false ternary (t1 :: ts ++ t2 :: rest) = Ok (tree (ParenExpr i), rest).
Proof.
  intros [Hf Hp] Ht1 Hts Ht2 Harrow. unfold parseV1Primary. cbn [cur nth].
  rewrite (group_not_lambda i) by done. pose proof Ht1 as (Hty & _). cbn [fst] in Hty. rewrite Hty.
  unfold parseV1Paren. rewrite (like_take _ _ _ Ht1) by done. unfold check.
  pose proof (operand_cur i ts (t2 :: rest) (printable_operand i Hp) Hts) as (Hc & _)%operand_types. rewrite Hc.
  rewrite (v1ExpectOperand_ok _ i) by (done || by apply printable_operand). cbn [mbind result_bind].
  pose proof Ht2 as (Hty2 & _). cbn [fst] in Hty2.
  rewrite (Hf ts (t2 :: rest)) by (done || unfold token_level; cbn; by rewrite Hty2).
  cbn [mbind result_bind cur nth]. rewrite (proj2 (isType_true _ _) Hty2), (like_take _ _ _ Ht2) by done. done.
Qed.

(** *** Lambdas *)

Definition param_lexemes (p : gostring) : list lexeme := [word_lexeme p].

Lemma params_ok_cons p ps : params_ok (p :: ps) = true ->
  plain_word p = true /\ memS p value_words = false /\ (p ∉ ps) /\ params_ok ps = true.
Proof.
  unfold params_ok. cbn [forallb]. intros [[[Hw Hv%negb_true_iff]%andb_true_iff Hps]%andb_true_iff [? ?]%distinct_cons]%andb_true_iff.
  repeat split; try done. by rewrite Hps.
Qed.

Lemma plain_word_token p t : plain_word p = true -> like t (word_lexeme p) ->
  isType TokenIdentifier t = true /\ tLiteral t = p.
Proof.
  intros [_ Hk]%plain_word_parts (Hty & Hlit & _). cbn [word_lexeme fst snd] in *.
  rewrite Hk in Hty. by rewrite (proj2 (isType_true _ _) Hty).
Qed.

Lemma lambda_params_ok ps : params_ok ps = true -> forall ts t rest,
  Forall2 like ts (separated (param_lexemes <$> ps)) -> like t (TokenParenClose, go ")") ->
  exists pts, lambda_params (ts ++ t :: rest) = (pts, t :: rest) /\ tLiteral <$> pts = ps.
Proof.
  induction ps as [|p ps IH]; intros Hps ts t rest Hts Ht.
  { cbn in Hts. like_split. exists []. cbn [app lambda_params]. by rewrite (like_type _ _ _ Ht). }
  apply params_ok_cons in Hps as (Hw & _ & _ & Hps). destruct ps as [|q ps].
  - cbn [fmap list_fmap separated] in Hts. unfold param_lexemes in Hts. like_split. rename select (like _ (word_lexeme _)) into Hp.
    destruct (plain_word_token _ _ Hw Hp) as [Hid Hlit]. exists [x]. cbn [app lambda_params].
    rewrite Hid, !(like_type _ _ _ Ht). cbn. by rewrite Hlit.
  - cbn [fmap list_fmap separated] in Hts. unfold param_lexemes at 1 in Hts. cbn [app] in Hts.
    apply like_cons in Hts as (tp & ts1 & -> & Hp & Hts).
    apply like_cons in Hts as (tc & ts2 & -> & Hc & Hts).
    destruct (plain_word_token _ _ Hw Hp) as [Hid Hlit]. destruct (IH Hps ts2 t rest Hts Ht) as (pts & Hl & Hpts).
    exists (tp :: pts). cbn [app lambda_params]. rewrite Hid, (like_type _ _ _ Hc). cbn [fst].
    rewrite bool_decide_eq_true_2 by done. rewrite Hl. cbn. by rewrite Hlit, Hpts.
Qed.

Lemma lambda_ahead_ok ps : params_ok ps = true -> ps <> [] -> forall ts t1 t2 rest,
  Forall2 like ts (separated (param_lexemes <$> ps)) -> like t1 (TokenParenClose, go ")") ->
  like t2 (TokenOperator, go "=>") -> lambda_ahead_params (ts ++ t1 :: t2 :: rest) = true.
Proof.
  induction ps as [|p ps IH]; intros Hps Hne ts t1 t2 rest Hts Ht1 Ht2; [done|].
  apply params_ok_cons in Hps as (Hw & _ & _ & Hps). destruct ps as [|q ps].
  - cbn [fmap list_fmap separated] in Hts. unfold param_lexemes in Hts. like_split. rename select (like _ (word_lexeme _)) into Hp.
    destruct (plain_word_token _ _ Hw Hp) as [Hid Hlit]. cbn [app lambda_ahead_params].
    rewrite Hid, (like_type _ _ _ Ht1). cbn [fst]. rewrite bool_decide_eq_false_2 by done.
    unfold close_then_arrow, check. cbn [cur nth]. rewrite (like_type _ _ _ Ht1).
    change (peekAhead 1 (t1 :: t2 :: rest)) with t2. by rewrite like_arrow.
  - cbn [fmap list_fmap separated] in Hts. unfold param_lexemes at 1 in Hts. cbn [app] in Hts.
    apply like_cons in Hts as (tp & ts1 & -> & Hp & Hts).
    apply like_cons in Hts as (tc & ts2 & -> & Hc & Hts).
    destruct (plain_word_token _ _ Hw Hp) as [Hid Hlit]. cbn [app lambda_ahead_params].
    rewrite Hid, (like_type _ _ _ Hc). cbn [fst]. rewrite bool_decide_eq_true_2 by done.
    assert (check TokenParenClose (ts2 ++ t1 :: t2 :: rest) = false) as ->; [|by apply IH].
    apply params_ok_cons in Hps as (Hw' & _). destruct ps; cbn [fmap list_fmap separated] in Hts; unfold param_lexemes at 1 in Hts; cbn [app] in Hts;
      apply like_cons in Hts as (tq & ts3 & -> & Hq & _); destruct (plain_word_token _ _ Hw' Hq) as [Hq1%isType_true _];
      unfold check; cbn; by rewrite (proj2 (isType_false _ _)) by congruence.
Qed.

Lemma check_params_ok ps : params_ok ps = true -> forall seen pts, tLiteral <$> pts = ps ->
  (forall p, p ∈ ps -> p ∉ seen) -> check_params seen pts = Ok ps.
Proof.
  induction ps as [|p ps IH]; intros Hps seen pts Hpts Hseen; [by apply fmap_nil_inv in Hpts as ->|].
  apply params_ok_cons in Hps as ([Hw _]%plain_word_parts & Hv & Hfresh & Hps).
  destruct pts as [|t pts]; [done|]. injection Hpts as Ht Hpts. cbn [check_params]. unfold v1CheckParam.
  rewrite Ht, word_no_mark by by apply andb_true_iff in Hw as [? _].
  change (go <$> ["true"; "false"; "null"]%string) with value_words. rewrite Hv.
  rewrite bool_decide_eq_false_2 by (apply Hseen; left).
  rewrite (IH Hps); [done|done|]. intros q Hq. assert (q <> p) by (by intros ->).
  specialize (Hseen q ltac:(by right)). set_solver.
Qed.

(** From the arrow on. *)
Lemma lambda_tail ps b pts ta ts rest : params_ok ps = true -> nested_ok b -> tLiteral <$> pts = ps ->
  like ta (TokenOperator, go "=>") -> Forall2 like ts (lexemes [] b) -> token_level (cur rest) = 0 ->
  (names ← check_params ∅ pts;
   _ ← v1ExpectOperand (cur (ta :: ts ++ rest)) (v1Take (ta :: ts ++ rest));
   '(body, ts3) ← ternary (v1Take (ta :: ts ++ rest));
   Ok (mkV1 (LambdaExpr names (x_n body)) (x_links body), ts3))
  = Ok (tree (LambdaExpr ps b), rest).
Proof.
  intros Hps [Hf Hp] Hpts Hta Hts Hl. rewrite (check_params_ok ps) by (done || set_solver).
  cbn [mbind result_bind]. rewrite (like_take _ _ _ Hta) by done.
  rewrite (v1ExpectOperand_ok _ b) by (done || by apply printable_operand). cbn [mbind result_bind].
  by rewrite (Hf ts rest).
Qed.

(** The first parameter's token. *)
Lemma params_first p ps ts rest : params_ok (p :: ps) = true ->
  Forall2 like ts (separated (param_lexemes <$> p :: ps)) -> isType TokenParenClose (cur (ts ++ rest)) = false.
Proof.
  intros (Hw & _)%params_ok_cons Hts. destruct ps; cbn [fmap list_fmap separated] in Hts;
    unfold param_lexemes at 1 in Hts; cbn [app] in Hts; apply like_cons in Hts as (tp & ts1 & -> & Hp & _);
    destruct (plain_word_token _ _ Hw Hp) as [Hid%isType_true _]; cbn [app cur nth]; apply isType_false; congruence.
Qed.

Lemma lambda_ahead_group ps t1 ts t2 ta rest : params_ok ps = true ->
  like t1 (TokenParenOpen, go "(") -> Forall2 like ts (separated (param_lexemes <$> ps)) ->
  like t2 (TokenParenClose, go ")") -> like ta (TokenOperator, go "=>") ->
  v1LambdaAhead (t1 :: ts ++ t2 :: ta :: rest) = true.
Proof.
  intros Hps Ht1 Hts Ht2 Hta. unfold v1LambdaAhead, check.
  change (cur (t1 :: ?u)) with t1. change (tail (t1 :: ?u)) with u. rewrite (like_type _ _ _ Ht1). cbn [fst].
  rewrite bool_decide_eq_true_2 by done. cbn [negb]. destruct ps as [|p ps].
  - cbn in Hts. like_split. cbn [app cur nth]. rewrite (like_type _ _ _ Ht2).
    change (peekAhead 1 (t2 :: ta :: rest)) with ta. by rewrite (like_arrow _ Hta).
  - rewrite (params_first p ps) by done. by apply (lambda_ahead_ok (p :: ps)).
Qed.

Lemma parse_lambda_group ps b t1 tps t2 ta ts rest : params_ok ps = true -> nested_ok b ->
  like t1 (TokenParenOpen, go "(") -> Forall2 like tps (separated (param_lexemes <$> ps)) ->
  like t2 (TokenParenClose, go ")") -> like ta (TokenOperator, go "=>") ->
  Forall2 like ts (lexemes [] b) -> token_level (cur rest) = 0 ->
  parseV1Primary false ternary (t1 :: tps ++ t2 :: ta :: ts ++ rest) = Ok (tree (LambdaExpr ps b), rest).
Proof.
  intros Hps Hb Ht1 Htps Ht2 Hta Hts Hl. unfold parseV1Primary. cbn [cur nth].
  rewrite (lambda_ahead_group ps) by done. pose proof Ht1 as (Hty & _). cbn [fst] in Hty. rewrite Hty.
  unfold parseV1Lambda, check. change (cur (t1 :: ?u)) with t1. rewrite (like_type _ _ _ Ht1). cbn [fst].
  rewrite bool_decide_eq_false_2 by done. rewrite (like_take _ _ _ Ht1) by done.
  destruct (lambda_params_ok ps Hps tps t2 (ta :: ts ++ rest) Htps Ht2) as (pts & -> & Hpts).
  rewrite (like_take _ _ _ Ht2) by done. by apply lambda_tail.
Qed.

Lemma parse_lambda_word p b tp ta ts rest : params_ok [p] = true -> nested_ok b ->
  like tp (word_lexeme p) -> like ta (TokenOperator, go "=>") -> Forall2 like ts (lexemes [] b) ->
  token_level (cur rest) = 0 ->
  parseV1Primary false ternary (tp :: ta :: ts ++ rest) = Ok (tree (LambdaExpr [p] b), rest).
Proof.
  intros Hps Hb Htp Hta Hts Hl.
  destruct (plain_word_token p tp) as [Hid Hlit]; [by apply params_ok_cons in Hps as (? & _)|done|].
  unfold parseV1Primary. cbn [app cur nth]. rewrite (proj1 (isType_true _ _) Hid).
  change (peekAhead 1 (tp :: ta :: ts ++ rest)) with ta. rewrite (like_arrow _ Hta).
  unfold parseV1Lambda, check. change (cur (tp :: ta :: ts ++ rest)) with tp. rewrite Hid.
  rewrite (take_cons tp) by (apply isType_true in Hid; congruence).
  apply lambda_tail; [done..| |done|done|done]. cbn. by rewrite Hlit.
Qed.

Lemma parse_lambda ps b ts rest : params_ok ps = true -> nested_ok b ->
  Forall2 like ts (lexemes [] (LambdaExpr ps b)) -> token_level (cur rest) = 0 ->
  parseV1Primary false ternary (ts ++ rest) = Ok (tree (LambdaExpr ps b), rest).
Proof.
  intros Hps Hb Hts Hl. cbn [lexemes] in Hts. apply like_app in Hts as (ts1 & ts2 & -> & Hps1 & Hts).
  apply like_cons in Hts as (ta & tb & -> & Hta & Htb).
  assert (Hgroup : Forall2 like ts1 (in_parens (separated (param_lexemes <$> ps))) ->
    parseV1Primary false ternary ((ts1 ++ ta :: tb) ++ rest) = Ok (tree (LambdaExpr ps b), rest)).
  { intros Hg. unfold in_parens in Hg. apply like_cons in Hg as (t1 & us & -> & Ht1 & Hg).
    apply like_app in Hg as (tps & u & -> & Htps & Hg). like_split. cbn [app].
    rewrite <- !app_assoc. cbn [app]. by apply parse_lambda_group. }
  destruct ps as [|p [|q ps]]; [by apply Hgroup| |by apply Hgroup].
  cbn [params_lexemes] in Hps1. like_split. cbn [app]. by apply parse_lambda_word.
Qed.

(** *** Closed nodes with names after them *)

Lemma extends_list es : Forall nested_ok es -> extends_to (ListExpr es).
Proof.
  intros Hes names ts rest e ts' res Hp Hn Hts Harrow Hcalm Hc Hlam Hlen Hres. cbn [lexemes] in Hts.
  apply like_cons in Hts as (t1 & us & -> & Ht1 & Hts). apply like_app in Hts as (te & u & -> & Hte & Hts).
  apply like_cons in Hts as (t2 & td & -> & Ht2 & Htd). rewrite <- app_comm_cons, <- app_assoc. cbn [app].
  rewrite cons_middle_assoc.
  eapply extends_closed; [| |exact Hn|exact Htd|exact Hc|exact Hlen|exact Hres]; [|done].
  rewrite <- cons_middle_assoc. by apply parse_list.
Qed.

Lemma extends_map es : entries_ok ∅ es -> extends_to (MapExpr es).
Proof.
  intros Hes names ts rest e ts' res Hp Hn Hts Harrow Hcalm Hc Hlam Hlen Hres. cbn [lexemes] in Hts.
  apply like_cons in Hts as (t1 & us & -> & Ht1 & Hts). apply like_app in Hts as (te & u & -> & Hte & Hts).
  apply like_cons in Hts as (t2 & td & -> & Ht2 & Htd). rewrite <- app_comm_cons, <- app_assoc. cbn [app].
  rewrite cons_middle_assoc.
  eapply extends_closed; [| |exact Hn|exact Htd|exact Hc|exact Hlen|exact Hres]; [|done].
  rewrite <- cons_middle_assoc. by apply parse_map.
Qed.

(** The token of glued names is not an arrow. *)
Lemma dotted_not_arrow names ts rest : Forall2 like ts (dotted_lexemes names) ->
  v1IsArrow (cur rest) = false -> v1IsArrow (cur (ts ++ rest)) = false.
Proof.
  intros Hts Hr. destruct names; cbn [dotted_lexemes] in Hts; like_split; [done|]. cbn [app cur nth].
  unfold v1IsArrow. by erewrite like_isOp by done.
Qed.

Lemma extends_paren i : nested_ok i -> extends_to (ParenExpr i).
Proof.
  intros Hi names ts rest e ts' res Hp Hn Hts Harrow Hcalm Hc Hlam Hlen Hres. cbn [lexemes] in Hts.
  unfold in_parens in Hts. rewrite <- app_comm_cons, <- app_assoc in Hts. cbn [app] in Hts.
  apply like_cons in Hts as (t1 & us & -> & Ht1 & Hts). apply like_app in Hts as (te & u & -> & Hte & Hts).
  apply like_cons in Hts as (t2 & td & -> & Ht2 & Htd). rewrite <- app_comm_cons, <- app_assoc. cbn [app].
  rewrite cons_middle_assoc.
  eapply extends_closed; [| |exact Hn|exact Htd|exact Hc|exact Hlen|exact Hres]; [|done].
  rewrite <- cons_middle_assoc. apply parse_paren; [done..|]. by eapply dotted_not_arrow.
Qed.

(** *** Words and literals *)

Lemma extends_ident name : extends_to (IdentExpr name).
Proof.
  intros names ts rest e ts' res Hp Hn Hts Harrow Hcalm Hc Hlam Hlen Hres. cbn [printable_with lexemes] in *.
  apply ident_ok_keyword in Hp as (Hw & Hv & Hk). unfold word_lexeme in Hts. rewrite Hk in Hts.
  eapply extends_word; [|exact Hn|exact Hts|done|done|exact Hc|done|exact Hres].
  assert (Hne : forall v, In v word_values -> name <> v).
  { intros v Hin ->. apply memS_In in Hin. congruence. }
  assert (Hs : segment name = true) by by apply andb_true_iff in Hw as [? _].
  repeat split; [|done|apply Hne; cbn; tauto]. unfold name_root.
  rewrite !(proj2 (eqs_false _ _)) by (apply Hne; cbn; tauto). done.
Qed.

Lemma parse_number t v rest : number_reads v = true -> like t (TokenNumber, FormatLiteral v) ->
  parseV1Primary false ternary (t :: rest) = Ok (tree (LiteralExpr v), rest).
Proof.
  intros (Hv & _)%number_reads_parts Ht. pose proof (like_take _ _ rest Ht) as Htake.
  destruct Ht as (Hty & Hlit & _). cbn [fst snd] in *. unfold parseV1Primary. cbn [cur nth].
  rewrite Hty, Hlit. unfold v1Number. rewrite Hv. cbn [mbind result_bind]. by rewrite Htake.
Qed.

Lemma literal_number v : literal_ok v = true -> (forall s, v <> VString s) -> (forall b, v <> VBool b) ->
  number_reads v = true /\ forall names, lexemes names (LiteralExpr v) = (TokenNumber, FormatLiteral v) :: dotted_lexemes names.
Proof.
  intros Hv Hs Hb. destruct v as [s|b|z|z|f| |]; try done; [by destruct (Hs s)|by destruct (Hb b)|].
  split; [by apply number_reads_int|done].
Qed.

Lemma extends_literal v : extends_to (LiteralExpr v).
Proof.
  intros names ts rest e ts' res Hp Hn Hts Harrow Hcalm Hc Hlam Hlen Hres. cbn [printable_with] in Hp.
  assert (Hnum : (forall s, v <> VString s) -> (forall b, v <> VBool b) ->
    parseV1Postfix false ternary (ts ++ rest) = Ok res).
  { intros Hs Hb. destruct (literal_number v Hp Hs Hb) as [Hread Hlex]. rewrite Hlex in Hts.
    apply like_cons in Hts as (t & td & -> & Ht & Htd). change ((t :: td) ++ rest) with ([t] ++ td ++ rest).
    eapply extends_closed; [| |exact Hn|exact Htd|exact Hc|exact Hlen|exact Hres]; [|done].
    by apply parse_number. }
  destruct v as [s|b|z|z|f| |]; try done; try (by apply Hnum).
  - cbn [lexemes literal_lexeme] in Hts. apply like_cons in Hts as (t & td & -> & Ht & Htd).
    change ((t :: td) ++ rest) with ([t] ++ td ++ rest).
    eapply extends_closed; [| |exact Hn|exact Htd|exact Hc|exact Hlen|exact Hres]; [|done].
    pose proof (like_take _ _ (td ++ rest) Ht) as Htake. destruct Ht as (Hty & Hlit & _). cbn [fst snd app] in *.
    unfold parseV1Primary. cbn [cur nth]. by rewrite Hty, Hlit, Htake.
  - assert (Hk : keyword_type ((if b then go "true" else go "false") ++ dotted names) = TokenIdentifier).
    { destruct names; [by destruct b|by apply glued_keyword]. }
    cbn [lexemes] in Hts. unfold word_lexeme in Hts. rewrite Hk in Hts.
    eapply extends_word; [|exact Hn|exact Hts|done|done|exact Hc|done|exact Hres]. by destruct b.
Qed.

Lemma extends_nil : extends_to NilExpr.
Proof.
  intros names ts rest e ts' res Hp Hn Hts Harrow Hcalm Hc Hlam Hlen Hres. cbn [lexemes] in Hts.
  destruct names as [|f names].
  - like_split. rename select (like _ _) into Ht. apply chained_inv in Hc as [-> ->].
    eapply postfix_of_primary; [|done|exact Hres]. pose proof (like_take _ _ rest Ht) as Htake.
    destruct Ht as (Hty & _). unfold parseV1Primary. cbn [app cur nth] in *.
    change (tType x = TokenKeywordNil) in Hty. rewrite Hty. by rewrite Htake.
  - unfold word_lexeme in Hts. rewrite glued_keyword in Hts by done.
    by eapply (extends_word NilExpr (go "nil")); [|exact Hn|exact Hts|done|done|exact Hc|done|exact Hres].
Qed.

(** ** The unary level *)

Lemma postfix_stops n rest : token_level (cur rest) < precUnary ->
  parseV1PostfixFrom ternary (tree n) rest = Ok (tree n, rest).
Proof.
  intros (Hi & Hq & _)%low_level. apply loop_done. unfold postfix_step. by rewrite Hi, Hq.
Qed.

(** A postfix node alone. *)
Lemma extends_alone n ts rest : extends_to n -> printable n = true -> is_lambda n = false ->
  Forall2 like ts (lexemes [] n) -> token_level (cur rest) < precUnary ->
  parseV1Postfix false ternary (ts ++ rest) = Ok (tree n, rest).
Proof.
  intros Hn Hp Hlam Hts Hl. pose proof (low_level _ Hl) as (Hi & _ & Hparen & Harrow).
  eapply (Hn []); [done|constructor|done|done| |apply chained_nil|done|done|by apply postfix_stops].
  intros _. unfold calm, check. by rewrite Hi, Hparen.
Qed.

(** The first token of a postfix node: no prefix operator, no signed number. *)
Definition unsigned (l : lexeme) : bool :=
  match l.1 with
  | TokenBang => false
  | TokenOperator => negb (l.2 =s go "-")
  | TokenNumber => negb (HasPrefix l.2 (go "-"))
  | _ => true
  end.

Definition dot_lexeme (l : lexeme) : bool :=
  bool_decide (l.1 = TokenDotQuestion)
  || (bool_decide (l.1 = TokenIdentifier) && HasPrefix l.2 (go ".")).

(** What follows a number that starts a postfix node: the rest of the chain. *)
Definition number_first (names : list gostring) (n : expr) (ls : list lexeme) : Prop :=
  match ls with
  | [] => True
  | l :: ls' =>
      unsigned l = true
      /\ (l.1 = TokenNumber -> (names = [] /\ ls' = [] /\ exists v, n = LiteralExpr v)
                              \/ exists l2 ls2, ls' = l2 :: ls2 /\ dot_lexeme l2 = true)
  end.

Lemma number_first_app names names' n m ls l2 ls2 : number_first names n ls -> ls <> [] ->
  (names = [] -> dot_lexeme l2 = true) -> number_first names' m (ls ++ l2 :: ls2).
Proof.
  intros Hf Hne Hd. destruct ls as [|l ls]; [done|]. destruct Hf as [Hu Hn]. split; [done|].
  intros Hnum. right. destruct (Hn Hnum) as [(Hnames & -> & _)|(l3 & ls3 & -> & Hl3)]; [|by eexists _, _].
  eexists _, _. split; [reflexivity|by apply Hd].
Qed.

Lemma unsigned_word s : unsigned (word_lexeme s) = true /\ (word_lexeme s).1 <> TokenNumber.
Proof.
  unfold unsigned, word_lexeme. cbn [fst]. destruct (keyword_type_word s) as [->|Hin]; [done|].
  cbn [keywords fmap list_fmap snd In] in Hin. by repeat destruct Hin as [<-|Hin].
Qed.

Lemma number_first_word names n s ls : number_first names n (word_lexeme s :: ls).
Proof. destruct (unsigned_word s) as [? ?]. by split. Qed.

Lemma binary_not_postfix op l r : memS op operators = true -> nodePrec (BinaryExpr op l r) < precUnary.
Proof. intros Hop%memS_In. cbn in Hop. by repeat destruct Hop as [<-|Hop]. Qed.

Lemma postfix_first n : forall names, printable_in (glued names) n = true -> bracketed n = true ->
  precPostfix <= nodePrec n -> minus_literal n = false -> number_first names n (lexemes names n).
Proof.
  induction n using expr_ind'; intros names Hp Hb Hprec Hm; cbn [printable_with bracketed lexemes] in *; try done;
    try apply number_first_word.
  - apply andb_true_iff in Hp as [[Hp Hmo%negb_true_iff]%andb_true_iff _].
    apply andb_true_iff in Hb as [Hbp%Z.leb_le Hb].
    assert (Hne : forall names, printable_in (glued names) n = true -> lexemes names n <> [])
      by (intros names' Hp'; by destruct (lexemes_first n names' Hp') as (? & ? & -> & _)).
    destruct b.
    + eapply (number_first_app []); [by apply IHn|by apply Hne|done].
    + pose proof (IHn (f :: names) Hp Hb Hbp Hmo) as Hf. specialize (Hne (f :: names) Hp).
      destruct (lexemes (f :: names) n) as [|l ls]; [done|]. destruct Hf as [Hu Hn]. split; [done|].
      intros Hnum. right. by destruct (Hn Hnum) as [(? & _)|?].
  - apply andb_true_iff in Hp as [_ Hp]. destruct (k =s []); cbn [negb] in *; [|apply number_first_word].
    destruct (is_nil_node n) eqn:Hnil; [apply number_first_word|].
    apply andb_true_iff in Hp as [[[Hp Hmr%negb_true_iff]%andb_true_iff _]%andb_true_iff _].
    apply andb_true_iff in Hb as [[Hb _]%andb_true_iff _]. cbn [orb] in Hb. apply andb_true_iff in Hb as [Hbp%Z.leb_le Hb].
    destruct (lexemes_first n [n0] Hp) as (l & ls & Hl & _).
    eapply (number_first_app [n0]); [by apply IHn|by rewrite Hl|done].
  - apply andb_true_iff in Hp as [_ Hop]. pose proof (binary_not_postfix op n1 n2 Hop).
    unfold precUnary, precPostfix in *. lia.
  - destruct v as [str|b|z|z|f| |]; try done; try apply number_first_word;
      cbn [minus_literal] in Hm; (split; [unfold unsigned; cbn [fst snd literal_lexeme]; by rewrite ?Hm|]); intros _;
      (destruct names as [|f1 names]; [left; by eauto|right; by eexists _, _]).
Qed.

Context (prefixed : list Token -> result parse_error (v1Expr * list Token)).

Abbreviation unary := (unary_body false ternary prefixed).

Lemma unary_unsigned l ls ts rest : Forall2 like ts (l :: ls) ->
  unsigned l = true -> unary (ts ++ rest) = parseV1Postfix false ternary (ts ++ rest).
Proof.
  intros Hts Hu. apply like_cons in Hts as (t & ts1 & -> & Ht & _). unfold unary_body. cbn [app].
  change (cur (t :: ts1 ++ rest)) with t. rewrite !(like_type _ _ _ Ht), (like_isOp _ _ _ Ht).
  destruct Ht as (_ & Hlit & _). rewrite Hlit. unfold unsigned in Hu. destruct l as [ty lit]. cbn [fst snd] in *.
  destruct ty; try done; cbn [bool_decide andb orb] in *.
  - apply negb_true_iff in Hu. by rewrite Hu.
  - apply negb_true_iff in Hu. by rewrite Hu.
Qed.

Lemma unary_postfix n : extends_to n -> printable n = true -> bracketed n = true ->
  precPostfix <= nodePrec n -> minus_literal n = false -> parses_at unary precUnary n.
Proof.
  intros Hn Hp Hb Hprec Hm ts rest Hts Hl. change (level_parser unary precUnary) with unary.
  pose proof (postfix_first n [] Hp Hb Hprec Hm) as Hf.
  destruct (lexemes_first n [] Hp) as (l & ls & Hls & _). rewrite Hls in Hf. destruct Hf as [Hu _].
  rewrite (unary_unsigned l ls) by (done || by rewrite <- Hls).
  apply extends_alone; [done..| |done|done]. by destruct n.
Qed.

Lemma unary_minus_literal v : literal_ok v = true -> minus_literal (LiteralExpr v) = true ->
  parses_at unary precUnary (LiteralExpr v).
Proof.
  intros Hv Hm ts rest Hts Hl. change (level_parser unary precUnary) with unary.
  destruct (literal_number v Hv) as [Hread Hlex]; [by intros s ->|by intros b ->; destruct b|].
  rewrite Hlex in Hts. cbn [dotted_lexemes] in Hts. like_split. rename select (like _ _) into Ht.
  unfold unary_body. cbn [app]. change (cur (x :: rest)) with x. change (peekAhead 1 (x :: rest)) with (cur rest).
  rewrite !(like_type _ _ _ Ht), (like_isOp _ _ _ Ht). cbn [fst bool_decide andb orb].
  pose proof (low_level _ Hl) as (Hi & Hq & _). unfold v1StartsPostfix. rewrite Hi, Hq. cbn [orb andb].
  rewrite andb_false_r. eapply postfix_of_primary; [by apply parse_number|done|by apply postfix_stops].
Qed.

(** A prefix operator that is a token of its own. *)
Lemma unary_prefix inner op t x ts rest : prefixed = prefix_body inner ->
  like t (TokenBang, go "!") /\ op = go "!" \/ like t (TokenOperator, go "-") /\ op = go "-" /\ v1NegateLiteral x = None ->
  printable x = true -> parses_at inner precUnary x -> Forall2 like ts (lexemes [] x) ->
  token_level (cur rest) < precUnary ->
  unary (t :: ts ++ rest) = Ok (tree (UnaryExpr op x), rest).
Proof.
  intros Hpre Ht Hp Hx Hts Hl. unfold unary_body. change (cur (t :: ts ++ rest)) with t.
  assert (isType TokenBang t || isOp (go "-") t = true /\ v1Take (t :: ts ++ rest) = ts ++ rest
    /\ tLiteral t = op /\ (if isOp (go "-") t then v1NegateLiteral x else None) = None) as (Hpfx & Htake & Hlit & Hneg).
  { destruct Ht as [[Ht Hop] | (Ht & Hop & Hneg)]; subst op; rewrite (like_type _ _ _ Ht), (like_isOp _ _ _ Ht), (like_take _ _ _ Ht) by done;
      destruct Ht as (_ & -> & _); by repeat split. }
  rewrite Hpfx, Hpre. unfold prefix_body. change (cur (t :: ts ++ rest)) with t. rewrite Htake.
  rewrite (v1ExpectOperand_ok _ x) by (done || by apply printable_operand). cbn [mbind result_bind].
  change inner with (level_parser inner precUnary). rewrite (Hx ts rest) by done. cbn [mbind result_bind tree x_n x_links].
  rewrite Hneg, Hlit. done.
Qed.

Lemma negate_digit v d lit : literal_ok v = true -> literal_lexeme v = (TokenNumber, d :: lit) ->
  isDigit d = true -> v1NegateLiteral (LiteralExpr v) <> None.
Proof.
  intros Hv Hl Hd. destruct v as [s|b|z|z|f| |]; try done; cbn [literal_lexeme FormatLiteral] in Hl; injection Hl as Hl.
  - by destruct b; injection Hl as <- _.
  - cbn [v1NegateLiteral]. destruct (0 <=? z) eqn:Hz; [done|]. bprop. unfold FormatInt in Hl.
    rewrite (proj2 (Z.ltb_lt _ _) Hz) in Hl. injection Hl as <- _. done.
  - cbn [v1NegateLiteral]. destruct f as [s|s| |s m e]; [by destruct s| | |].
    + destruct s; [|done]. vm_compute in Hl. by injection Hl as <- _.
    + vm_compute in Hl. by injection Hl as <- _.
    + destruct s; [|done]. exfalso. unfold FormatFloat in Hl. destruct (shortest_decimal _) as [ds dp].
      cbn [app] in Hl. case_match; injection Hl as <- _; done.
Qed.

Lemma minus_lexemes_unsigned ls d lit ls' : minus_lexemes ls = (TokenNumber, d :: lit) :: ls' -> isDigit d = false.
Proof.
  destruct ls as [|[ty s] ls]; [done|]. cbn [minus_lexemes].
  destruct ty; try done. destruct s as [|c s]; [done|]. destruct (isDigit c); [|done]. by intros [= <- _ _].
Qed.

(** An operand whose text starts with a digit, and that a minus is not folded
    into, is a longer postfix chain. *)
Lemma digit_operand x d lit ls : printable x = true -> bracketed x = true -> precUnary <= nodePrec x ->
  v1NegateLiteral x = None -> lexemes [] x = (TokenNumber, d :: lit) :: ls -> isDigit d = true ->
  precPostfix <= nodePrec x /\ exists l2 ls2, ls = l2 :: ls2 /\ dot_lexeme l2 = true.
Proof.
  intros Hp Hb Hprec Hneg Hlex Hd.
  assert (Hlit : forall v, x <> LiteralExpr v).
  { intros v ->. cbn [printable_with lexemes] in *.
    assert (literal_lexeme v = (TokenNumber, d :: lit)) as Hl.
    { destruct v as [s|b|z|z|f| |]; try done; [by destruct b|by injection Hlex as <- _..]. }
    by eapply negate_digit in Hl. }
  assert (Hun : forall op y, x <> UnaryExpr op y).
  { intros op y ->. cbn [lexemes] in Hlex. destruct (op =s go "!"); [done|].
    apply minus_lexemes_unsigned in Hlex. congruence. }
  assert (Hpost : precPostfix <= nodePrec x).
  { destruct x; try done; [by destruct (Hun op x)| |by destruct (Hlit value)].
    cbn [printable_with] in Hp. apply andb_true_iff in Hp as [_ Hop].
    pose proof (binary_not_postfix op x1 x2 Hop). unfold precUnary, precPostfix in *. lia. }
  split; [done|]. pose proof (postfix_first x [] Hp Hb Hpost) as Hf. rewrite Hlex in Hf.
  destruct Hf as [_ Hf]; [by destruct x; try done; destruct (Hlit value)|].
  destruct (Hf eq_refl) as [(_ & _ & v & Hv)|?]; [by destruct (Hlit v)|done].
Qed.

Lemma dot_lexeme_postfix t l : like t l -> dot_lexeme l = true -> v1StartsPostfix t = true.
Proof.
  intros Ht Hl. unfold v1StartsPostfix. rewrite !(like_type _ _ _ Ht). by destruct Ht as (_ & -> & _).
Qed.

Lemma unary_glued x d lit l2 ls t ts rest : extends_to x -> printable x = true -> is_lambda x = false ->
  lexemes [] x = (TokenNumber, d :: lit) :: l2 :: ls -> dot_lexeme l2 = true -> 
  like t (TokenNumber, 45 :: d :: lit) -> Forall2 like ts (l2 :: ls) -> token_level (cur rest) < precUnary ->
  unary (t :: ts ++ rest) = Ok (tree (UnaryExpr (go "-") x), rest).
Proof.
  intros Hx Hp Hlam Hlex Hdot Ht Hts Hl.
  set (t0 := mkToken TokenNumber (d :: lit) 0 1 0 0 0 0).
  assert (Hpost : parseV1Postfix false ternary ((t0 :: ts) ++ rest) = Ok (tree x, rest)).
  { apply extends_alone; [done..| |done]. rewrite Hlex. by constructor. }
  assert (Hsp : v1StartsPostfix (cur (ts ++ rest)) = true).
  { apply like_cons in Hts as (t2 & ts2 & -> & Ht2 & _). by eapply dot_lexeme_postfix. }
  unfold parseV1Postfix, parseV1Primary in Hpost. cbn [app] in Hpost.
  change (cur (t0 :: ts ++ rest)) with t0 in Hpost. cbn [t0 tType tLiteral] in Hpost.
  rewrite (take_cons t0) in Hpost by done. unfold v1Number in Hpost.
  destruct (ParseNumericLiteral (d :: lit)) as [v|] eqn:Hv; [|done]. cbn [mbind result_bind x_n] in Hpost.
  unfold unary_body. change (cur (t :: ts ++ rest)) with t. change (peekAhead 1 (t :: ts ++ rest)) with (cur (ts ++ rest)).
  rewrite !(like_type _ _ _ Ht), (like_isOp _ _ _ Ht), Hsp. pose proof (like_take _ _ (ts ++ rest) Ht ltac:(done)) as Htake.
  destruct Ht as (_ & Hlit & _). cbn [fst snd] in *. rewrite Hlit. change (HasPrefix (45 :: d :: lit) (go "-")) with true.
  cbn [bool_decide andb orb]. unfold parseV1UngluedNegative. change (cur (t :: ts ++ rest)) with t. rewrite Hlit.
  change (TrimPrefix (45 :: d :: lit) (go "-")) with (d :: lit). unfold v1Number. rewrite Hv. cbn [mbind result_bind].
  rewrite Htake, Hpost. done.
Qed.

Lemma unary_minus inner x : prefixed = prefix_body inner -> printable x = true -> bracketed x = true ->
  precUnary <= nodePrec x -> v1NegateLiteral x = None -> parses_at inner precUnary x ->
  (precPostfix <= nodePrec x -> extends_to x) -> parses_at unary precUnary (UnaryExpr (go "-") x).
Proof.
  intros Hpre Hp Hb Hprec Hneg Hx Hext ts rest Hts Hl. change (level_parser unary precUnary) with unary.
  change (Forall2 like ts (minus_lexemes (lexemes [] x))) in Hts.
  assert (Hop : Forall2 like ts ((TokenOperator, go "-") :: lexemes [] x) ->
    unary (ts ++ rest) = Ok (tree (UnaryExpr (go "-") x), rest)).
  { intros Hts'. apply like_cons in Hts' as (t & ts' & -> & Ht & Hts'). cbn [app]. eapply unary_prefix; eauto. }
  destruct (lexemes [] x) as [|[ty lit] ls] eqn:Hlex; [by apply Hop|]. cbn [minus_lexemes] in Hts.
  destruct ty; try (by apply Hop). destruct lit as [|d lit]; [by apply Hop|].
  destruct (isDigit d) eqn:Hd; [|by apply Hop].
  destruct (digit_operand x d lit ls) as (Hpost & l2 & ls2 & -> & Hdot); [done..|].
  apply like_cons in Hts as (t & ts' & -> & Ht & Hts). cbn [app].
  eapply unary_glued; [by apply Hext|done| |done..]. by destruct x.
Qed.

Lemma unary_bang inner x : prefixed = prefix_body inner -> printable x = true ->
  parses_at inner precUnary x -> parses_at unary precUnary (UnaryExpr (go "!") x).
Proof.
  intros Hpre Hp Hx ts rest Hts Hl. change (level_parser unary precUnary) with unary.
  change (Forall2 like ts ((TokenBang, go "!") :: lexemes [] x)) in Hts.
  apply like_cons in Hts as (t & ts' & -> & Ht & Hts). cbn [app]. eapply unary_prefix; eauto.
Qed.
End Postfix.

(** ** The whole grammar *)

Section Grammar.
Context `{UnicodeTables}.

Abbreviation ternary := (parseV1Ternary false).
Abbreviation unary := (parseV1Unary false).

Lemma ternary_eq b : ternary (S b) = ternary_body (ternary b) (unary b).
Proof. unfold parseV1Ternary, parseV1Unary. cbn [parsers]. by destruct (parsers false b). Qed.

Definition prefix_parser (b : nat) : list Token -> result parse_error (v1Expr * list Token) :=
  match b with O => too_deep | S b' => prefix_body (unary b') end.

Lemma unary_eq b : unary b = unary_body false (ternary b) (prefix_parser b).
Proof.
  destruct b as [|b]; [done|]. rewrite ternary_eq. cbn [prefix_parser].
  unfold parseV1Ternary, parseV1Unary. cbn [parsers]. by destruct (parsers false b).
Qed.

Lemma full_of_or b n : parses_at (unary b) precOr n -> parses_full (ternary (S b)) n.
Proof.
  intros Hn ts rest Hts Hl. rewrite ternary_eq. unfold ternary_body.
  change (parseV1Or (unary b)) with (level_parser (unary b) precOr).
  rewrite (Hn ts rest) by (done || rewrite Hl; done). cbn [mbind result_bind].
  assert (check TokenQuestion rest = false) as ->; [|done].
  unfold check. apply isType_false. intros Hq. unfold token_level in Hl. by rewrite Hq in Hl.
Qed.

Lemma full_ternary b c t e : parses_at (unary b) precOr c -> nested_ok (ternary b) t ->
  nested_ok (ternary b) e -> parses_full (ternary (S b)) (TernaryExpr c t e).
Proof.
  intros Hc [Ht Hpt] [He Hpe] ts rest Hts Hl. cbn [lexemes] in Hts.
  apply like_app in Hts as (tc & ts1 & -> & Htc & Hts). apply like_cons in Hts as (tq & ts2 & -> & Htq & Hts).
  apply like_app in Hts as (tt1 & ts3 & -> & Htt & Hts). apply like_cons in Hts as (tco & te & -> & Htco & Hte).
  rewrite ternary_eq. unfold ternary_body. change (parseV1Or (unary b)) with (level_parser (unary b) precOr).
  rewrite <- !app_assoc. cbn [app]. rewrite <- !app_assoc. cbn [app].
  pose proof Htq as (Hqty & _). pose proof Htco as (Hcty & _). cbn [fst] in Hqty, Hcty.
  rewrite (Hc tc) by (done || unfold token_level; cbn [cur nth]; by rewrite Hqty). cbn [mbind result_bind].
  unfold check. change (cur (tq :: ?u)) with tq. rewrite (proj2 (isType_true _ _) Hqty). cbn [negb].
  rewrite (like_take _ _ _ Htq) by done. rewrite (v1ExpectOperand_ok _ t) by (done || by apply printable_operand).
  cbn [mbind result_bind]. rewrite (Ht tt1) by (done || unfold token_level; cbn [cur nth]; by rewrite Hcty).
  cbn [mbind result_bind]. change (cur (tco :: ?u)) with tco. rewrite (proj2 (isType_true _ _) Hcty). cbn [negb].
  rewrite (like_take _ _ _ Htco) by done. rewrite (v1ExpectOperand_ok _ e) by (done || by apply printable_operand).
  cbn [mbind result_bind]. rewrite (He te rest) by done. cbn [mbind result_bind tree x_n x_links].
  unfold tree. cbn [links]. pose proof (links_nonneg c). do 3 f_equal. unfold maxLinks. cbn. lia.
Qed.

Lemma full_lambda b ps body : params_ok ps = true -> nested_ok (ternary b) body ->
  parses_full (ternary (S b)) (LambdaExpr ps body).
Proof.
  intros Hps Hb ts rest Hts Hl. rewrite ternary_eq. unfold ternary_body.
  change (parseV1Or (unary b)) with (level_parser (unary b) precOr).
  assert (Hu : level_parser (unary b) precUnary (ts ++ rest) = Ok (tree (LambdaExpr ps body), rest)).
  { change (level_parser (unary b) precUnary) with (unary b). rewrite unary_eq.
    assert (exists l ls, lexemes [] (LambdaExpr ps body) = l :: ls /\ unsigned l = true) as (l & ls & Hls & Hu).
    { destruct ps as [|p [|q ps]]; eexists _, _; (split; [reflexivity|]); try done. apply unsigned_word. }
    rewrite (unary_unsigned _ _ l ls) by (done || by rewrite <- Hls). unfold parseV1Postfix.
    by rewrite (parse_lambda _ ps body ts rest). }
  rewrite (levels_pass _ precUnary _ _ _ ltac:(done) Hu precOr) by (done || rewrite Hl; done).
  cbn [mbind result_bind]. assert (check TokenQuestion rest = false) as ->; [|done].
  unfold check. apply isType_false. intros Hq. unfold token_level in Hl. by rewrite Hq in Hl.
Qed.

(** What the induction proves of [n] with [b] units of depth left. *)
Record parsed_back (b : nat) (g : bool) (n : expr) : Prop := {
  pb_postfix : precPostfix <= nodePrec n -> extends_to (ternary b) n;
  pb_level : g = false -> forall p, precOr <= p <= precUnary -> p <= nodePrec n -> parses_at (unary b) p n;
  pb_fold : g = false -> forall p, left_level p -> p <= nodePrec n -> folds_at (unary b) p n;
  pb_full : g = false -> parses_full (ternary (S b)) n
}.

Definition reparses (n : expr) : Prop :=
  forall g b, printable_in g n = true -> bracketed n = true -> links n <= MaxExpressionChain ->
  (nesting n <= b)%nat -> parsed_back b g n.

(** A node of the unary level or tighter. *)
Lemma parsed_back_tight b g n : precUnary <= nodePrec n ->
  (precPostfix <= nodePrec n -> extends_to (ternary b) n) ->
  (g = false -> parses_at (unary b) precUnary n) -> parsed_back b g n.
Proof.
  intros Hprec Hext Hun.
  assert (Hlev : g = false -> forall p, precOr <= p <= precUnary -> parses_at (unary b) p n).
  { intros Hg p Hp. by apply (parses_all _ precUnary); [|apply Hun|]. }
  constructor; [done| | |].
  - intros Hg p Hp _. by apply Hlev.
  - intros Hg p Hp _. apply folds_of_tighter; [done|]. apply Hlev; [done|].
    apply left_level_bounds in Hp. unfold precOr, precMultiplicative, precUnary in *. lia.
  - intros Hg. by apply full_of_or, Hlev.
Qed.

Lemma parsed_back_postfix b g n : precPostfix <= nodePrec n -> bracketed n = true ->
  (g = false -> printable n = true) -> minus_literal n = false ->
  extends_to (ternary b) n -> parsed_back b g n.
Proof.
  intros Hprec Hb Hp Hm Hext. apply parsed_back_tight; [unfold precPostfix, precUnary in *; lia|done|].
  intros Hg. rewrite unary_eq. apply unary_postfix; auto.
Qed.

(** A nested full expression has a unit of depth to spend. *)
Lemma reparses_nested n b : reparses n -> printable n = true -> bracketed n = true ->
  links n <= MaxExpressionChain -> (S (nesting n) <= b)%nat -> nested_ok (ternary b) n.
Proof.
  intros Hn Hp Hb Hl Hd. destruct b as [|b]; [lia|]. split; [|done].
  apply (pb_full b false n); [|done]. apply Hn; [done..|lia].
Qed.

Lemma reparses_list es b : Forall reparses es -> forallb printable es = true ->
  forallb bracketed es = true -> maxOf links es <= MaxExpressionChain ->
  (foldr (fun a m => Nat.max (S (nesting a)) m) 0 es <= b)%nat -> Forall (nested_ok (ternary b)) es.
Proof.
  induction 1 as [|n es Hn _ IH]; cbn [forallb foldr]; [constructor|].
  rewrite maxOf_cons. intros [Hp Hps]%andb_true_iff [Hb Hbs]%andb_true_iff Hl Hd.
  constructor; [apply reparses_nested; (done || lia)|]. apply IH; (done || lia).
Qed.

Lemma reparses_entries (es : list (gostring * expr)) b : Forall (fun kv => reparses kv.2) es ->
  forallb (fun kv => printable kv.2) es = true -> forallb (fun kv => bracketed kv.2) es = true ->
  forallb (fun kv => key kv.1) es = true -> distinct (es.*1) = true ->
  maxOf kv_links es <= MaxExpressionChain ->
  (foldr (fun (kv : gostring * expr) m => Nat.max (S (nesting kv.2)) m) 0 es <= b)%nat ->
  entries_ok (ternary b) ∅ es.
Proof.
  intros Hall Hp Hb Hk Hd Hl Hn. split; [|done]. clear Hd. revert Hp Hb Hk Hl Hn.
  induction Hall as [|kv es Hr _ IH]; cbn [forallb foldr]; [constructor|].
  rewrite maxOf_cons. intros [Hp Hps]%andb_true_iff [Hb Hbs]%andb_true_iff [Hk Hks]%andb_true_iff Hl Hd.
  unfold kv_links in Hl at 1. constructor; [|apply IH; (done || lia)].
  split; [apply reparses_nested; (done || lia)|]. split; [done|set_solver].
Qed.

Lemma reparses_call r name kind args named : reparses r -> Forall reparses args ->
  Forall (fun kv : gostring * expr => reparses kv.2) named -> reparses (CallExpr r name kind args named).
Proof.
  intros Hr Hargs Hnamed g b Hp Hb Hl Hd. pose proof Hp as Hp0.
  apply parsed_back_postfix; [done|done|by intros ->|done|].
  cbn [printable_with bracketed nesting] in *. apply andb_true_iff in Hp as [[[Hp1 Hp2]%andb_true_iff Hno]%andb_true_iff Hp].
  apply andb_true_iff in Hb as [[Hbr Hb1]%andb_true_iff Hb2].
  assert (Hlinks : args_links args named <= MaxExpressionChain /\ (is_nil_node r = false -> links r <= MaxExpressionChain)).
  { cbn [links] in Hl. change (Z.max (foldr _ 0 args) (foldr _ 0 named)) with (args_links args named) in Hl.
    destruct (is_nil_node r); lia. }
  destruct Hlinks as [Hla Hlr]. unfold args_links in Hla.
  apply names_ok_parts in Hno as (Hone & Hk & Hres & Hdist).
  apply extends_call; [|split; [done|split; [|split; [|done]]]|done].
  - intros Hnil. rewrite Hnil in *. cbn [orb] in Hbr. apply andb_true_iff in Hbr as [Hbp%Z.leb_le Hbr].
    destruct (kind =s []); cbn [negb] in Hp.
    + apply andb_true_iff in Hp as [[[Hpr _]%andb_true_iff _]%andb_true_iff _].
      apply (pb_postfix b true r); [|done]. apply Hr; [done|done|by apply Hlr|lia].
    + apply andb_true_iff in Hp as [[[Hp _]%andb_true_iff _]%andb_true_iff _]. congruence.
  - apply reparses_list; (done || lia).
  - apply reparses_entries; (done || lia).
Qed.

Lemma reparses_unary op x : reparses x -> reparses (UnaryExpr op x).
Proof.
  intros Hx g b Hp Hb Hl Hd. apply parsed_back_tight; [done|done|]. intros _.
  cbn [printable_with bracketed nesting links] in *. apply andb_true_iff in Hp as [Hp Hop].
  apply andb_true_iff in Hb as [Hbp%Z.leb_le Hb]. destruct b as [|b]; [lia|]. rewrite unary_eq.
  assert (Hin : parses_at (unary b) precUnary x) by (apply (pb_level b false x); [apply Hx; (done || lia)|done..]).
  apply orb_true_iff in Hop as [->%eqs_true|[->%eqs_true Hneg%bool_decide_eq_true]%andb_true_iff].
  - by apply (unary_bang _ _ (unary b)).
  - apply (unary_minus _ _ (unary b)); [done..|]. apply (pb_postfix (S b) false x), Hx; (done || lia).
Qed.

Lemma reparses_binary op l r : reparses l -> reparses r -> reparses (BinaryExpr op l r).
Proof.
  intros Hl Hr g b Hp Hb Hlk Hd. cbn [printable_with bracketed nesting] in *.
  apply andb_true_iff in Hp as [[Hpl Hpr]%andb_true_iff Hop].
  assert (Hprec : precOr <= binaryPrec op <= precMultiplicative).
  { apply memS_In in Hop. cbn in Hop. by repeat destruct Hop as [<-|Hop]. }
  assert (Hll : links l <= MaxExpressionChain /\ links r <= MaxExpressionChain) by (cbn [links] in Hlk; lia).
  assert (Hro : starts_operand r) by by apply printable_operand.
  assert (Hboth : bracketed l = true -> bracketed r = true -> parsed_back b false l /\ parsed_back b false r).
  { intros. split; [apply Hl|apply Hr]; (done || lia). }
  assert (Hq : parses_at (unary b) (binaryPrec op) (BinaryExpr op l r)
    /\ (left_level (binaryPrec op) -> folds_at (unary b) (binaryPrec op) (BinaryExpr op l r))).
  { destruct (Z.eqb_spec (binaryPrec op) precCompare) as [Hc|Hc];
      apply andb_true_iff in Hb as [[Hbl%Z.leb_le Hb1]%andb_true_iff [Hbr%Z.leb_le Hb2]%andb_true_iff];
      destruct (Hboth Hb1 Hb2) as [Pl Pr].
    - rewrite Hc. split; [apply parses_compare; try done|].
      + by apply (pb_level b false l).
      + by apply (pb_level b false r).
      + intros Hlf. by repeat destruct Hlf as [Hlf|Hlf].
    - assert (left_level (binaryPrec op)) as Hleft.
      { unfold left_level. cbn. unfold precOr, precMultiplicative, precAnd, precCoalesce, precAdditive, precCompare in *. lia. }
      assert (folds_at (unary b) (binaryPrec op) (BinaryExpr op l r)) as Hf.
      { apply folds_binary; [done|done|by apply (pb_fold b false l)| |done|done].
        apply (pb_level b false r); [done|done|unfold precOr, precMultiplicative, precUnary in *; lia|done]. }
      split; [by apply parses_of_folds|done]. }
  destruct Hq as [Hq Hqf].
  assert (Hlev : forall p, precOr <= p <= binaryPrec op -> parses_at (unary b) p (BinaryExpr op l r)).
  { intros p Hp. apply (parses_all _ (binaryPrec op)); [|done|done].
    unfold precMultiplicative, precUnary in *. lia. }
  constructor.
  - pose proof (binary_not_postfix op l r Hop). unfold precPostfix, precUnary in *. lia.
  - intros _ p Hp Hle. apply Hlev. cbn [nodePrec] in Hle. lia.
  - intros _ p Hp Hle. cbn [nodePrec] in Hle. destruct (decide (p = binaryPrec op)) as [->|]; [by apply Hqf|].
    apply folds_of_tighter; [done|]. apply Hlev. apply left_level_bounds in Hp. lia.
  - intros _. apply full_of_or, Hlev. lia.
Qed.

Lemma negative_minus v : literal_ok v = true -> negative_number v = true -> minus_literal (LiteralExpr v) = true.
Proof.
  intros Hv Hn. destruct v as [s|b|z|z|f| |]; try done; cbn [minus_literal negative_number FormatLiteral] in *.
  - unfold FormatInt. by rewrite Hn.
  - destruct f as [s|s| |s m e]; try done; destruct s; try done.
    unfold FormatFloat. destruct (shortest_decimal _) as [ds dp]. cbn [app]. by case_match.
Qed.

Lemma all_reparse n : reparses n.
Proof.
  induction n using expr_ind'; [by intros g b Hp| | |by apply reparses_call|by apply reparses_unary
    |by apply reparses_binary| | | | | | | |by intros g b Hp]; intros g d Hp Hb Hl Hd.
  - apply parsed_back_postfix; [done|done|by intros ->|done|apply extends_ident].
  - apply parsed_back_postfix; [done|done|by intros ->|done|].
    cbn [printable_with bracketed nesting] in *. apply andb_true_iff in Hp as [[Hp _]%andb_true_iff _].
    apply andb_true_iff in Hb as [Hbp%Z.leb_le Hb]. assert (links n <= MaxExpressionChain) by (cbn [links] in Hl; lia).
    apply extends_member; [|by destruct n|done]. by apply (pb_postfix d (negb b) n); [apply IHn|].
  - cbn [printable_with bracketed nesting links] in *. apply andb_true_iff in Hp as [[Hp1 Hp2]%andb_true_iff Hp3].
    apply andb_true_iff in Hb as [[[Hm1%Z.leb_le Hb1]%andb_true_iff [Hm2 Hb2]%andb_true_iff]%andb_true_iff [Hm3 Hb3]%andb_true_iff].
    constructor; [done| | |].
    + intros _ p Hp Hle. unfold precOr in Hp. cbn in Hle. unfold precTernary in Hle. lia.
    + intros _ p Hp Hle. apply left_level_bounds in Hp. unfold precOr in Hp. cbn in Hle. unfold precTernary in Hle. lia.
    + intros _. apply full_ternary; [|apply reparses_nested; (done || lia)..].
      apply (pb_level d false n1); [apply IHn1; (done || lia)|done..].
  - cbn [printable_with bracketed nesting links] in *. apply andb_true_iff in Hp as [Hps Hp].
    constructor; [done| | |].
    + intros _ p Hpp Hle. unfold precOr in Hpp. cbn in Hle. unfold precLambda in Hle. lia.
    + intros _ p Hpp Hle. apply left_level_bounds in Hpp. unfold precOr in Hpp. cbn in Hle. unfold precLambda in Hle. lia.
    + intros _. apply full_lambda; [done|]. by apply reparses_nested.
  - apply parsed_back_postfix; [done|done|by intros ->|done|]. by apply extends_list, reparses_list.
  - apply parsed_back_postfix; [done|done|by intros ->|done|]. cbn [printable_with] in Hp.
    apply andb_true_iff in Hp as [[Hp Hk]%andb_true_iff Hdist]. by apply extends_map, reparses_entries.
  - apply parsed_back_postfix; [done|done|by intros ->|done|]. by apply extends_paren, reparses_nested.
  - destruct (minus_literal (LiteralExpr v)) eqn:Hm.
    + apply parsed_back_tight; [|intros _; apply extends_literal|].
      * cbn [nodePrec]. by destruct (negative_number v).
      * intros _. rewrite unary_eq. by apply unary_minus_literal.
    + apply parsed_back_postfix; [|done|by intros ->|done|apply extends_literal].
      cbn [nodePrec]. destruct (negative_number v) eqn:Hneg; [|done].
      apply negative_minus in Hneg; [congruence|done].
  - apply parsed_back_postfix; [done|done|by intros ->|done|apply extends_nil].
Qed.

(** ** Parsing printed text *)

Lemma parse_printed n : printable n = true -> bracketed n = true ->
  links n <= MaxExpressionChain -> (nesting n < v1MaxDepth)%nat ->
  ParseV1Expression (FormatExpr n) = Ok n.
Proof.
  intros Hp Hb Hl Hd. destruct (Tokenize_FormatExpr n Hp Hb) as (ts & eof & Htok & Hts & Heof).
  unfold ParseV1Expression, parse_whole. rewrite Htok.
  assert (Hfull : parses_full (parseV1Ternary false v1MaxDepth) n).
  { revert Hd. generalize v1MaxDepth as m. intros m Hd. destruct m as [|m]; [lia|].
    apply (pb_full m false n); [|done]. apply all_reparse; (done || lia). }
  rewrite (Hfull ts [eof] Hts) by (unfold token_level; cbn [cur nth]; by rewrite Heof).
  cbn [mbind result_bind]. unfold v1ExpectEnd. cbn [cur nth]. by rewrite Heof.
Qed.
End Grammar.
