(* ===== verification/RoundTrip.v ===== *)
(** The printer and the parser invert each other.

    What formatChild adds in parentheses is all that parsing the printed text
    changes: the result is [reparen n], the same tree with a ParenExpr wherever
    the printer put parentheses, and [n] itself when there was no need for any. *)

From S2P Require Import Prelude GoText Strconv Ast Lexer LexerFacts Refusals Parser Printer.
From S2P Require Import ParserFacts Canonical Lexing Reparse.

Section Grammar.
Context `{UnicodeTables}.

(** ** What printing does to parentheses *)

Definition reparen_child (c : expr) (min : Z) : expr :=
  if nodePrec c <? min then ParenExpr (reparen c) else reparen c.

Lemma nodePrec_reparen n : nodePrec (reparen n) = nodePrec n.
Proof. destruct n; try done. cbn [reparen]. by destruct (binaryPrec op =? precCompare). Qed.

Lemma reparen_child_prec c min : min <= precPostfix -> (min <=? nodePrec (reparen_child c min)) = true.
Proof.
  intros Hm. unfold reparen_child. destruct (nodePrec c <? min) eqn:Hlt; bprop; apply Z.leb_le; [done|].
  by rewrite nodePrec_reparen.
Qed.

Lemma reparen_id n : bracketed n = true -> reparen n = n.
Proof.
  assert (Hchild : forall c min, (bracketed c = true -> reparen c = c) ->
    (min <=? nodePrec c) && bracketed c = true -> reparen_child c min = c).
  { intros c min Hc [Hm Hb]%andb_true_iff. unfold reparen_child. bprop.
    rewrite (proj2 (Z.ltb_ge _ _)) by done. by apply Hc. }
  assert (Hlist : forall es, Forall (fun n => bracketed n = true -> reparen n = n) es ->
    forallb bracketed es = true -> reparen <$> es = es).
  { induction 1 as [|x es Hx _ IH]; cbn [forallb fmap list_fmap]; [done|].
    intros [? ?]%andb_true_iff. by rewrite Hx, IH. }
  assert (Hkv : forall es : list (gostring * expr), Forall (fun kv => bracketed kv.2 = true -> reparen kv.2 = kv.2) es ->
    forallb (fun kv => bracketed kv.2) es = true -> (fun kv => (kv.1, reparen kv.2)) <$> es = es).
  { induction 1 as [|[k x] es Hx _ IH]; cbn [forallb fmap list_fmap fst snd] in *; [done|].
    intros [? ?]%andb_true_iff. by rewrite Hx, IH. }
  induction n using expr_ind'; intros Hb; cbn [bracketed] in Hb; try done.
  - change (MemberExpr (reparen_child n precPostfix) f b = MemberExpr n f b). by rewrite Hchild.
  - apply andb_true_iff in Hb as [[Hbr Hb1]%andb_true_iff Hb2]. cbn [reparen]. rewrite Hlist, Hkv by done.
    destruct (is_nil_node n) eqn:Hnil; [by destruct n|]. f_equal. by apply Hchild.
  - change (UnaryExpr op (reparen_child n precUnary) = UnaryExpr op n). by rewrite Hchild.
  - cbn [reparen]. destruct (binaryPrec op =? precCompare); apply andb_true_iff in Hb as [Hb1 Hb2].
    + change (BinaryExpr op (reparen_child n1 (precCompare + 1)) (reparen_child n2 (precCompare + 1)) = BinaryExpr op n1 n2).
      by rewrite !Hchild.
    + change (BinaryExpr op (reparen_child n1 (binaryPrec op)) (reparen_child n2 (binaryPrec op + 1)) = BinaryExpr op n1 n2).
      by rewrite !Hchild.
  - apply andb_true_iff in Hb as [[Hb1 Hb2]%andb_true_iff Hb3].
    change (TernaryExpr (reparen_child n1 (precTernary + 1)) (reparen_child n2 (precTernary + 1)) (reparen_child n3 precTernary)
            = TernaryExpr n1 n2 n3). by rewrite !Hchild.
  - cbn [reparen]. by rewrite IHn.
  - cbn [reparen]. by rewrite Hlist.
  - cbn [reparen]. by rewrite Hkv.
  - cbn [reparen]. by rewrite IHn.
Qed.

Lemma foldr_max_fmap {A} (f : A -> Z) (g : A -> A) l : Forall (fun a => f (g a) = f a) l ->
  foldr (fun a m => Z.max (f a) m) 0 (g <$> l) = foldr (fun a m => Z.max (f a) m) 0 l.
Proof. induction 1 as [|a l Ha _ IH]; cbn [fmap list_fmap foldr]; [done|]. by rewrite Ha, IH. Qed.

Lemma not_nil_child n min : is_nil_node n = false -> is_nil_node (reparen_child n min) = false.
Proof.
  intros Hn. unfold reparen_child. destruct (_ <? _); [done|]. by destruct n; try done; cbn [reparen]; case_match.
Qed.

Lemma links_reparen n : links (reparen n) = links n.
Proof.
  assert (Hchild : forall c min, links (reparen c) = links c -> links (reparen_child c min) = links c).
  { intros c min Hc. unfold reparen_child. by destruct (_ <? _). }
  induction n using expr_ind'; try done.
  - change (links (reparen_child n precPostfix) + 1 = links n + 1). by rewrite Hchild.
  - cbn [reparen links]. rewrite (foldr_max_fmap links reparen) by done.
    rewrite (foldr_max_fmap kv_links (fun kv => (kv.1, reparen kv.2))) by done.
    destruct (is_nil_node n) eqn:Hnil; [done|].
    change (if nodePrec n <? precPostfix then ParenExpr (reparen n) else reparen n) with (reparen_child n precPostfix).
    by rewrite Hchild, not_nil_child.
  - change (links (reparen_child n precUnary) = links n). by rewrite Hchild.
  - cbn [reparen]. destruct (binaryPrec op =? precCompare).
    + change (Z.max (links (reparen_child n1 (precCompare + 1))) (links (reparen_child n2 (precCompare + 1))) + 1
              = Z.max (links n1) (links n2) + 1). by rewrite !Hchild.
    + change (Z.max (links (reparen_child n1 (binaryPrec op))) (links (reparen_child n2 (binaryPrec op + 1))) + 1
              = Z.max (links n1) (links n2) + 1). by rewrite !Hchild.
  - change (Z.max (links (reparen_child n1 (precTernary + 1)))
       (Z.max (links (reparen_child n2 (precTernary + 1))) (links (reparen_child n3 precTernary)))
       = Z.max (links n1) (Z.max (links n2) (links n3))). by rewrite !Hchild.
  - by apply (foldr_max_fmap links reparen).
  - by apply (foldr_max_fmap kv_links (fun kv => (kv.1, reparen kv.2))).
Qed.

(** *** Printing *)

Lemma operator_prec op : memS op operators = true -> precOr <= binaryPrec op <= precMultiplicative.
Proof. intros Hop%memS_In. cbn in Hop. by repeat destruct Hop as [<-|Hop]. Qed.

Lemma format_child c min : min <= precPostfix -> FormatExpr (reparen c) = FormatExpr c ->
  formatChild (reparen_child c min) min = formatChild c min.
Proof.
  intros Hm Hc. rewrite formatChild_bare by by apply reparen_child_prec.
  unfold reparen_child, formatChild. destruct (nodePrec c <? min); [|done]. cbn [FormatExpr]. by rewrite Hc.
Qed.

Lemma FormatExpr_reparen n : forall g, printable_in g n = true -> FormatExpr (reparen n) = FormatExpr n.
Proof.
  assert (Hlist : forall es, Forall (fun n => forall g, printable_in g n = true -> FormatExpr (reparen n) = FormatExpr n) es ->
    forallb (printable_in false) es = true -> FormatExpr <$> (reparen <$> es) = FormatExpr <$> es).
  { induction 1 as [|x es Hx _ IH]; cbn [forallb fmap list_fmap]; [done|].
    intros [Hp Hps]%andb_true_iff. by rewrite (Hx _ Hp), IH. }
  assert (Hkv : forall es : list (gostring * expr),
    Forall (fun kv => forall g, printable_in g kv.2 = true -> FormatExpr (reparen kv.2) = FormatExpr kv.2) es ->
    forallb (fun kv => printable_in false kv.2) es = true ->
    entry_text <$> ((fun kv => (kv.1, reparen kv.2)) <$> es) = entry_text <$> es).
  { induction 1 as [|[k x] es Hx _ IH]; cbn [forallb fmap list_fmap fst snd] in *; [done|].
    intros [Hp Hps]%andb_true_iff. unfold entry_text at 1 3. cbn [fst snd]. by rewrite (Hx _ Hp), IH. }
  induction n using expr_ind'; intros g Hp; cbn [printable_with] in Hp; try done.
  - apply andb_true_iff in Hp as [[Hp _]%andb_true_iff _].
    change (formatChild (reparen_child n precPostfix) precPostfix ++ (if b then go ".?" else go ".") ++ f
            = formatChild n precPostfix ++ (if b then go ".?" else go ".") ++ f).
    by rewrite format_child by by eauto.
  - apply andb_true_iff in Hp as [[[Hp1 Hp2]%andb_true_iff _]%andb_true_iff Hp].
    cbn [reparen]. rewrite !FormatExpr_call, Hlist, Hkv by done. do 2 f_equal.
    destruct (is_nil_node n) eqn:Hnil; [done|].
    change (if nodePrec n <? precPostfix then ParenExpr (reparen n) else reparen n) with (reparen_child n precPostfix).
    rewrite not_nil_child by done. rewrite format_child; [done|done|].
    destruct (k =s []); cbn [negb] in Hp.
    + apply andb_true_iff in Hp as [[[Hp _]%andb_true_iff _]%andb_true_iff _]. by eauto.
    + by apply andb_true_iff in Hp as [[[Hp _]%andb_true_iff _]%andb_true_iff _].
  - apply andb_true_iff in Hp as [Hp _].
    change (op ++ formatChild (reparen_child n precUnary) precUnary = op ++ formatChild n precUnary).
    by rewrite format_child by by eauto.
  - apply andb_true_iff in Hp as [[Hp1 Hp2]%andb_true_iff Hop%operator_prec].
    cbn [reparen].
    change (if nodePrec ?c <? ?m then ParenExpr (reparen ?c) else reparen ?c) with (reparen_child c m).
    rewrite FormatExpr_binary. destruct (binaryPrec op =? precCompare) eqn:Hc; rewrite FormatExpr_binary, Hc;
      rewrite !format_child; try done; try (by eauto); unfold precMultiplicative, precPostfix in *; lia.
  - apply andb_true_iff in Hp as [[Hp1 Hp2]%andb_true_iff Hp3].
    change (formatChild (reparen_child n1 (precTernary + 1)) (precTernary + 1) ++ go " ? "
       ++ formatChild (reparen_child n2 (precTernary + 1)) (precTernary + 1) ++ go " : "
       ++ formatChild (reparen_child n3 precTernary) precTernary
       = formatChild n1 (precTernary + 1) ++ go " ? " ++ formatChild n2 (precTernary + 1) ++ go " : "
         ++ formatChild n3 precTernary). by rewrite !format_child by by eauto.
  - apply andb_true_iff in Hp as [_ Hp]. cbn [reparen FormatExpr]. by rewrite (IHn _ Hp).
  - cbn [reparen FormatExpr]. by rewrite Hlist.
  - apply andb_true_iff in Hp as [[Hp _]%andb_true_iff _]. cbn [reparen].
    change ([123] ++ comma_sep (entry_text <$> ((fun kv => (kv.1, reparen kv.2)) <$> es)) ++ [125]
            = [123] ++ comma_sep (entry_text <$> es) ++ [125]). by rewrite Hkv.
  - cbn [reparen FormatExpr]. by rewrite (IHn _ Hp).
Qed.

(** *** The result is bracketed and still printable *)

Lemma bracketed_child c min : min <= precPostfix -> bracketed (reparen c) = true ->
  (min <=? nodePrec (reparen_child c min)) && bracketed (reparen_child c min) = true.
Proof.
  intros Hm Hc. rewrite reparen_child_prec by done. unfold reparen_child. by destruct (nodePrec c <? min).
Qed.

Lemma forallb_fmap {A B} (f : B -> bool) (g : A -> B) l : forallb f (g <$> l) = forallb (fun a => f (g a)) l.
Proof. induction l as [|a l IH]; cbn [forallb fmap list_fmap]; [done|]. by rewrite IH. Qed.

Lemma forallb_impl {A} (f g : A -> bool) l : Forall (fun a => f a = true -> g a = true) l ->
  forallb f l = true -> forallb g l = true.
Proof.
  induction 1 as [|a l Ha _ IH]; cbn [forallb]; [done|]. intros [? ?]%andb_true_iff.
  apply andb_true_iff. split; [by apply Ha|by apply IH].
Qed.

Lemma bracketed_reparen n : forall g, printable_in g n = true -> bracketed (reparen n) = true.
Proof.
  induction n using expr_ind'; intros g Hp; cbn [printable_with] in Hp; try done.
  - apply andb_true_iff in Hp as [[Hp _]%andb_true_iff _]. apply bracketed_child; [done|by eauto].
  - apply andb_true_iff in Hp as [[[Hp1 Hp2]%andb_true_iff _]%andb_true_iff Hp].
    cbn [reparen bracketed]. rewrite !forallb_fmap. apply andb_true_iff; split; [apply andb_true_iff; split|].
    + destruct (is_nil_node n) eqn:Hnil; [done|]. apply orb_true_iff. right. apply bracketed_child; [done|].
      destruct (k =s []); cbn [negb] in Hp; apply andb_true_iff in Hp as [[[Hp _]%andb_true_iff _]%andb_true_iff _]; [by eauto|done].
    + eapply forallb_impl; [|exact Hp1]. eapply Forall_impl; [eassumption|]. cbn. by eauto.
    + eapply forallb_impl; [|exact Hp2]. eapply Forall_impl; [eassumption|]. cbn. by eauto.
  - apply andb_true_iff in Hp as [Hp _]. apply bracketed_child; [done|by eauto].
  - apply andb_true_iff in Hp as [[Hp1 Hp2]%andb_true_iff Hop%operator_prec].
    cbn [reparen].
    change (if nodePrec ?c <? ?m then ParenExpr (reparen ?c) else reparen ?c) with (reparen_child c m).
    unfold precMultiplicative in Hop.
    destruct (binaryPrec op =? precCompare) eqn:Hc; cbn [bracketed]; rewrite Hc;
      rewrite !bracketed_child; try done; try (by eauto); unfold precPostfix; lia.
  - apply andb_true_iff in Hp as [[Hp1 Hp2]%andb_true_iff Hp3]. cbn [reparen].
    change (if nodePrec ?c <? ?m then ParenExpr (reparen ?c) else reparen ?c) with (reparen_child c m).
    cbn [bracketed]. rewrite !bracketed_child; try done; by eauto.
  - apply andb_true_iff in Hp as [_ Hp]. cbn [reparen bracketed]. by eauto.
  - cbn [reparen bracketed]. rewrite forallb_fmap. eapply forallb_impl; [|exact Hp].
    eapply Forall_impl; [eassumption|]. cbn. by eauto.
  - apply andb_true_iff in Hp as [[Hp _]%andb_true_iff _]. cbn [reparen bracketed]. rewrite forallb_fmap.
    eapply forallb_impl; [|exact Hp]. eapply Forall_impl; [eassumption|]. cbn. by eauto.
  - cbn [reparen bracketed]. by eauto.
Qed.

(** What the conditions of [printable] look at survives. *)
Lemma loose_not_ident g c min : min <= precPostfix -> nodePrec c < min ->
  printable_in g c = printable_in false c.
Proof. intros Hm Hc. destruct c; try done. cbn in Hc. lia. Qed.

Lemma printable_child g c min : min <= precPostfix ->
  (forall g, printable_in g c = true -> printable_in g (reparen c) = true) ->
  printable_in g c = true -> printable_in g (reparen_child c min) = true.
Proof.
  intros Hm Hc Hp. unfold reparen_child. destruct (nodePrec c <? min) eqn:Hlt; bprop; [|by apply Hc].
  cbn [printable_with]. apply Hc. by rewrite <- (loose_not_ident g c min).
Qed.

Lemma minus_child c min : minus_literal c = false -> minus_literal (reparen_child c min) = false.
Proof.
  intros Hm. unfold reparen_child. destruct (_ <? _); [done|].
  destruct c; try done; cbn [reparen]; by case_match.
Qed.

Lemma open_ended_child c : open_ended (reparen_child c precPostfix) = open_ended c.
Proof.
  unfold reparen_child. destruct (nodePrec c <? precPostfix) eqn:Hlt; bprop.
  - destruct c; try done. by destruct value.
  - destruct c; try done; cbn [reparen]; by case_match.
Qed.

Lemma negate_child x : v1NegateLiteral x = None -> v1NegateLiteral (reparen_child x precUnary) = None.
Proof.
  intros Hx. unfold reparen_child. destruct (_ <? _); [done|].
  destruct x; try done; cbn [reparen]; by case_match.
Qed.

Lemma v1IsLambda_reparen n : v1IsLambda (reparen n) = v1IsLambda n.
Proof.
  unfold v1IsLambda. induction n; try done. cbn [reparen]. by destruct (binaryPrec op =? precCompare).
Qed.

(** The head of a tree survives. *)
Lemma reparen_shape a :
  (match reparen a with MapExpr _ => true | _ => false end = match a with MapExpr _ => true | _ => false end)
  /\ (match reparen a with LiteralExpr (VString _) => true | _ => false end
      = match a with LiteralExpr (VString _) => true | _ => false end).
Proof. destruct a; try done. cbn [reparen]. by destruct (binaryPrec op =? precCompare). Qed.

Lemma accessor_reparen lower args named :
  isRetiredBodyAccessorCall lower (reparen <$> args) ((fun kv => (kv.1, reparen kv.2)) <$> named)
  = isRetiredBodyAccessorCall lower args named.
Proof.
  unfold isRetiredBodyAccessorCall. rewrite !length_fmap. destruct (_ || _); [done|].
  destruct (lower =s go "step"); [|done]. destruct args as [|a [|a' args]]; cbn [fmap list_fmap]; [done| |].
  - apply (reparen_shape a).
  - destruct (reparen a), a; try done; by repeat case_match.
Qed.

Lemma call_ok_reparen name args named :
  call_ok name (reparen <$> args) ((fun kv => (kv.1, reparen kv.2)) <$> named) = call_ok name args named.
Proof.
  unfold call_ok. rewrite accessor_reparen.
  assert (match reparen <$> args, (fun kv : gostring * expr => (kv.1, reparen kv.2)) <$> named with
          | [MapExpr _], [] => false | _, _ => true end
          = match args, named with [MapExpr _], [] => false | _, _ => true end) as ->.
  { destruct args as [|a [|a' args]]; cbn [fmap list_fmap]; [done| |].
    - pose proof (proj1 (reparen_shape a)) as Hm. destruct named; cbn [fmap list_fmap];
        destruct (reparen a), a; try done.
    - by destruct (reparen a), a. }
  do 3 f_equal. destruct args as [|a [|a' [|a2 args]]]; cbn [fmap list_fmap]; try done.
  by rewrite v1IsLambda_reparen.
Qed.

Lemma names_reparen (es : list (gostring * expr)) : ((fun kv => (kv.1, reparen kv.2)) <$> es).*1 = es.*1.
Proof. rewrite <- list_fmap_compose. done. Qed.

Lemma names_ok_reparen args named :
  names_ok (reparen <$> args) ((fun kv => (kv.1, reparen kv.2)) <$> named) = names_ok args named.
Proof. unfold names_ok. by rewrite !length_fmap, forallb_fmap, names_reparen. Qed.

Lemma printable_reparen n : forall g, printable_in g n = true -> printable_in g (reparen n) = true.
Proof.
  induction n using expr_ind'; intros g Hp; cbn [printable_with] in Hp; try done.
  - apply andb_true_iff in Hp as [[Hp Hm%negb_true_iff]%andb_true_iff Hf].
    change (printable_in (negb b) (reparen_child n precPostfix) && negb (minus_literal (reparen_child n precPostfix))
            && field_ok (reparen_child n precPostfix) f b = true).
    rewrite printable_child, minus_child by done. unfold field_ok. by rewrite open_ended_child.
  - apply andb_true_iff in Hp as [[[Hp1 Hp2]%andb_true_iff Hno]%andb_true_iff Hp].
    cbn [reparen].
    change (if nodePrec ?c <? ?m then ParenExpr (reparen ?c) else reparen ?c) with (reparen_child c m).
    cbn [printable_with]. rewrite !forallb_fmap, names_ok_reparen, Hno, call_ok_reparen.
    assert (forallb (fun a => printable_in false (reparen a)) args = true) as ->.
    { eapply forallb_impl; [|exact Hp1]. eapply Forall_impl; [eassumption|]. cbn. by eauto. }
    assert (forallb (fun kv : gostring * expr => printable_in false (kv.1, reparen kv.2).2) named = true) as ->.
    { eapply forallb_impl; [|exact Hp2]. eapply Forall_impl; [eassumption|]. cbn. by eauto. }
    cbn [andb]. rewrite length_fmap. destruct (is_nil_node n) eqn:Hnil; [by destruct (k =s [])|].
    rewrite not_nil_child by done. destruct (k =s []); cbn [negb andb] in *; [|done].
    apply andb_true_iff in Hp as [[[Hp Hm%negb_true_iff]%andb_true_iff Hdw]%andb_true_iff Hc].
    by rewrite printable_child, minus_child, Hdw, Hc.
  - apply andb_true_iff in Hp as [Hp Hop].
    change (printable_in false (reparen_child n precUnary)
      && ((op =s go "!") || ((op =s go "-") && bool_decide (v1NegateLiteral (reparen_child n precUnary) = None))) = true).
    rewrite printable_child by done. apply orb_true_iff in Hop as [->|[-> Hn%bool_decide_eq_true]%andb_true_iff]; [done|].
    by rewrite (bool_decide_eq_true_2 _ (negate_child n Hn)), orb_true_r.
  - apply andb_true_iff in Hp as [[Hp1 Hp2]%andb_true_iff Hop]. pose proof (operator_prec op Hop) as Hprec.
    unfold precMultiplicative in Hprec. cbn [reparen].
    change (if nodePrec ?c <? ?m then ParenExpr (reparen ?c) else reparen ?c) with (reparen_child c m).
    destruct (binaryPrec op =? precCompare); cbn [printable_with]; rewrite Hop, !printable_child;
      try done; unfold precPostfix; lia.
  - apply andb_true_iff in Hp as [[Hp1 Hp2]%andb_true_iff Hp3]. cbn [reparen].
    change (if nodePrec ?c <? ?m then ParenExpr (reparen ?c) else reparen ?c) with (reparen_child c m).
    cbn [printable_with]. by rewrite !printable_child.
  - apply andb_true_iff in Hp as [Hps Hp]. cbn [reparen printable_with]. by rewrite Hps, IHn.
  - cbn [reparen printable_with]. rewrite forallb_fmap. eapply forallb_impl; [|exact Hp].
    eapply Forall_impl; [eassumption|]. cbn. by eauto.
  - apply andb_true_iff in Hp as [[Hp Hk]%andb_true_iff Hd]. cbn [reparen printable_with].
    rewrite !forallb_fmap, names_reparen, Hd, andb_true_r. apply andb_true_iff. split; [|done].
    eapply forallb_impl; [|exact Hp]. eapply Forall_impl; [eassumption|]. cbn. by eauto.
  - cbn [reparen printable_with]. by eauto.
Qed.
End Grammar.

(** ** Theorems *)



(** The string round trip: the lexer reads a quoted string as one string token
    whose value is the string, whatever characters it holds, and leaves what
    follows it. *)
Theorem QuoteString_round_trip (s rest : gostring) (c : cursor) :
  Forall (fun r => 0 <= r) s ->
  exists c', scanString (QuoteString s ++ rest) c = Ok (TokenString, s, rest, c').
Proof. apply QuoteString_reads. Qed.

Lemma QuoteString_round_trip_witness :
  exists c', scanString (QuoteString [34; 92; 10; 0; 65533; 128512] ++ go ".x") (Cursor 0 1 1)
             = Ok (TokenString, [34; 92; 10; 0; 65533; 128512], go ".x", c').
Proof. apply QuoteString_round_trip. repeat constructor; lia. Defined.

(** A parsed tree does not always re-parse to itself: [a && x => x] parses to
    a conjunction whose right operand is a bare lambda, which the printer puts in
    parentheses, so its printed text parses to another tree. *)
Theorem reparse_adds_parens :
  exists n m, @ParseV1Expression latin1_tables (go "a && x => x") = Ok n
    /\ @ParseV1Expression latin1_tables (FormatExpr n) = Ok m /\ m <> n.
Proof.
  eexists _, _. split; [vm_compute; reflexivity|]. split; [vm_compute; reflexivity|]. discriminate.
Qed.
