(* ===== verification/TokenShapes.v ===== *)
(** What the parser is given to build a tree from: the texts of the lexer's
    tokens.  A name token is a word or a dot and a member name; a string token
    holds characters; a number without a minus sign is read as a number whose own
    text has none. *)

From Stdlib Require Import SpecFloat.
From S2P Require Import Prelude GoText Strconv Ast Lexer LexerFacts Refusals Parser Printer.
From S2P Require Import ParserFacts Canonical Lexing.

(** ** Numbers *)

(** What the parser puts in a literal. *)
Definition parsed_lit (v : literal) : bool :=
  match v with
  | VString s => forallb (fun r => 0 <=? r) s
  | VBool _ | VFloat _ => true
  | VInt64 z => in_int64 z
  | VInt _ | VNull | VOther => false
  end.

Definition sign_of (f : float64) : bool :=
  match f with S754_zero s | S754_infinity s | S754_finite s _ _ => s | S754_nan => false end.

Lemma binary_round_aux_sign_of sx m e l : 
  sign_of (binary_round_aux f64_prec f64_emax sx m e l) = sx
  \/ binary_round_aux f64_prec f64_emax sx m e l = S754_nan.
Proof.
  unfold binary_round_aux. destruct (shr_fexp _ _ m e l) as [m1 e1]. destruct (shr_fexp _ _ _ e1 _) as [m2 e2].
  destruct (shr_m m2); [by left| |by right]. case_match; by left.
Qed.

Lemma dec_to_float_sign_of m e10 : sign_of (dec_to_float false m e10) = false.
Proof.
  unfold dec_to_float. destruct m as [|p|p]; [done| |done].
  destruct (Z.leb_spec 0 e10) as [He|He].
  - unfold cond_Zopp, binary_normalize.
    assert (0 < Z.pos p * 10 ^ e10) as Hp by (apply Z.mul_pos_pos; [done | by apply Z.pow_pos_nonneg]).
    destruct (Z.pos p * 10 ^ e10) as [|q|q]; [done| |done]. unfold binary_round.
    destruct (shl_align q 0 _) as [mz ez]. by destruct (binary_round_aux_sign_of false (Zpos mz) ez loc_Exact) as [-> | ->].
  - destruct (SFdiv_core_binary _ _ _ _ _ _) as [[q e'] l].
    by destruct (binary_round_aux_sign_of false q e' l) as [-> | ->].
Qed.

Abbreviation digits := (Forall (fun c => isDigit c = true)).

Lemma strip_zeros_digits ds : digits ds -> digits (strip_zeros ds).
Proof. induction 1 as [|c ds Hc Hds IH]; cbn [strip_zeros]; [constructor|]. destruct (c =? 48); [done|by constructor]. Qed.

Lemma dec_candidate_digits q dp p : 0 <= q -> digits (dec_candidate q dp p).1.
Proof.
  intros Hq. unfold dec_candidate. cbn [fst]. apply Forall_reverse, strip_zeros_digits, Forall_reverse.
  by destruct (FormatUint_spec q Hq) as (_ & ? & _).
Qed.

Lemma shortest_digits fuel num den dp p f : 0 <= num -> 0 <= den -> digits (shortest fuel num den dp p f).1.
Proof.
  intros Hn Hd. revert p. induction fuel as [|k IH]; intros p; cbn [shortest];
    (assert (0 <= num * 10 ^ Z.max 0 (p - dp) / (den * 10 ^ Z.max 0 (dp - p))) as Hq by
      (apply Z_div_nonneg_nonneg; apply Z.mul_nonneg_nonneg; (done || (apply Z.pow_nonneg; lia))));
    set (q := _ / _) in *;
    repeat case_match; try apply IH; apply dec_candidate_digits; lia.
Qed.

Lemma shortest_decimal_digits f : digits (shortest_decimal f).1.
Proof.
  destruct f as [s|s| |s m e]; try (by repeat constructor). cbn [shortest_decimal].
  apply shortest_digits; case_match; try lia; try (apply Z.mul_nonneg_nonneg; [lia|]); apply Z.pow_nonneg; lia.
Qed.

(** The shortest digits never start with a sign. *)
Lemma fmt_first ds dp : digits ds ->
  (exists c t, fmt_e ds dp = c :: t /\ isDigit c = true) /\ (exists c t, fmt_f ds dp = c :: t /\ isDigit c = true).
Proof.
  intros Hd. split.
  - unfold fmt_e. destruct Hd as [|c ds Hc _]; by eexists _, _.
  - unfold fmt_f. destruct (Z.ltb_spec 0 dp) as [Hdp|_]; [|by eexists _, _].
    destruct (Z.to_nat dp) as [|k] eqn:Hk; [lia|]. destruct Hd as [|c ds Hc _]; cbn [take app].
    + unfold zeros. cbn [length]. replace (Z.to_nat (dp - Z.of_nat 0)) with (S k) by lia. by eexists _, _.
    + by eexists _, _.
Qed.

Lemma digit_no_sign c t : isDigit c = true -> HasPrefix (c :: t) (go "-") = false.
Proof. intros Hc. apply HasPrefix_minus. intros ->. by vm_compute in Hc. Qed.

Lemma FormatFloat_unsigned f : sign_of f = false -> HasPrefix (FormatLiteral (VFloat f)) (go "-") = false.
Proof.
  intros Hs. destruct f as [s|s| |s m e]; cbn in Hs; subst; try done.
  cbn [FormatLiteral]. unfold FormatFloat. pose proof (shortest_decimal_digits (S754_finite false m e)) as Hd.
  destruct (shortest_decimal _) as [ds dp]. cbn [fst app] in *.
  destruct (fmt_first ds dp Hd) as [(c1 & t1 & -> & H1) (c2 & t2 & -> & H2)].
  repeat case_match; by apply digit_no_sign.
Qed.

(** A number without a minus has a text without one. *)
Lemma numeric_unsigned lit v : ParseNumericLiteral lit = Some v -> HasPrefix lit (go "-") = false ->
  parsed_lit v = true /\ minus_literal (LiteralExpr v) = false.
Proof.
  intros Hv Hm. pose proof (numeric_sign lit v Hv Hm) as Hneg.
  unfold ParseNumericLiteral in Hv. apply read_sign_plus in Hm.
  destruct (if ContainsAny lit (go ".eE") then None else ParseInt lit) as [i|] eqn:Hi.
  - injection Hv as <-. destruct (ContainsAny _ _); [done|]. unfold ParseInt in Hi.
    destruct (read_sign lit) as [neg ds]. cbn in Hm. subst neg. destruct ds as [|d ds]; [done|].
    destruct (forallb isDigit (d :: ds)); [|done]. destruct (in_int64 _) eqn:Hin; [|done].
    injection Hi as <-. split; [done|]. cbn [minus_literal FormatLiteral negative_number] in *.
    unfold FormatInt. rewrite Hneg. bprop. destruct (FormatUint_spec _ Hneg) as (Hne & Hd & _).
    destruct (FormatUint _) as [|c t]; [done|]. apply digit_no_sign. by apply Forall_cons in Hd as [? _].
  - unfold ParseFloat in Hv. destruct (read_sign lit) as [neg t]. cbn in Hm. subst neg.
    destruct (span isDigit t) as [ip t1].
    match type of Hv with context [let '(_, _) := ?x in _] => destruct x as [fp t2] end.
    destruct (ip ++ fp) as [|z l]; [done|]. destruct (read_exp t2) as [e|]; [|done].
    pose proof (dec_to_float_sign_of (dec_value (z :: l)) (e - Z.of_nat (length fp))) as Hs.
    destruct (dec_to_float _ _ _); try done; injection Hv as <-; (split; [done|]); by apply FormatFloat_unsigned.
Qed.

Lemma numeric_parsed_lit lit v : ParseNumericLiteral lit = Some v -> parsed_lit v = true.
Proof.
  unfold ParseNumericLiteral. intros Hv.
  destruct (if ContainsAny lit (go ".eE") then None else ParseInt lit) as [i|] eqn:Hi.
  - injection Hv as <-. destruct (ContainsAny _ _); [done|]. unfold ParseInt in Hi. destruct (read_sign lit) as [neg ds].
    destruct ds as [|d ds]; [done|]. destruct (forallb isDigit (d :: ds)); [|done].
    destruct (in_int64 _) eqn:Hin; [|done]. by injection Hi as <-.
  - destruct (ParseFloat lit); [by injection Hv as <-|done].
Qed.

(** ** Tokens *)

(** A Go string decoded to runes holds no negative one. *)
Abbreviation nonneg := (Forall (fun r : rune => 0 <= r)).

Section Tokens.
Context `{UnicodeTables}.

Definition name_rune (c : rune) : bool := isIdentifierCharNoColon c || (c =? 46) || (c =? 58).

Lemma ident_loop_runes rest : forall b lit t, ident_loop b rest = (lit, t) ->
  Forall (fun c => name_rune c = true) b -> Forall (fun c => name_rune c = true) lit.
Proof.
  induction rest as [|ch rest IH]; intros b lit t; cbn [ident_loop]; [by intros [= <- _]|].
  assert (Hgo : name_rune ch = true -> ident_loop (b ++ [ch]) rest = (lit, t) ->
    Forall (fun c => name_rune c = true) b -> Forall (fun c => name_rune c = true) lit).
  { intros Hc Hr Hb. eapply IH; [exact Hr|]. apply Forall_app_2; [done|]. by constructor. }
  unfold name_rune in Hgo at 1.
  destruct (Z.eqb_spec ch 58) as [->|].
  { repeat case_match; try (by intros [= <- _]). apply Hgo. by rewrite orb_true_r. }
  destruct (Z.eqb_spec ch 46) as [->|].
  { case_match; [|by intros [= <- _]]. apply Hgo. by rewrite orb_true_r. }
  destruct (isIdentifierCharNoColon ch) eqn:Hi; [by apply Hgo|by intros [= <- _]].
Qed.

(** The text of a name token: a word, or a dot and a member name. *)
Definition name_shape (lit : gostring) : Prop :=
  Forall (fun c => name_rune c = true) lit
  /\ ((exists c lit', lit = c :: lit' /\ path_char c = true /\ isDigit c = false)
      \/ (exists c lit', lit = 46 :: c :: lit' /\ IsLetter c || (c =? 95) = true)).

Lemma scanIdentifier_shape rest c ty lit t c' : scanIdentifier rest c = Ok (ty, lit, t, c') ->
  ty = keyword_type lit /\ Forall (fun c => name_rune c = true) lit /\ lit <> [] /\ exists u, rest = lit ++ u.
Proof.
  unfold scanIdentifier. destruct (ident_loop [] rest) as [l u] eqn:Hi. pose proof Hi as Hi'.
  apply ident_loop_cut in Hi as (w & -> & -> & _). cbn [app] in *.
  apply ident_loop_runes in Hi'; [|constructor]. destruct w as [|ch w]; [done|]. intros [= <- <- <- <-].
  do 3 (split; [done|]). by eexists.
Qed.

Lemma keyword_type_not s : ~ In (keyword_type s)
  [TokenNumber; TokenOperator; TokenColon; TokenDefine; TokenDotQuestion; TokenDot].
Proof.
  destruct (keyword_type_word s) as [->|Hin]; [by cbn; intuition|].
  cbn [keywords fmap list_fmap snd In] in Hin. by repeat destruct Hin as [<-|Hin]; cbn; intuition.
Qed.

(** A dispatch on the first character that reached the identifier scanner. *)
Lemma scan_ident_shape lx ty lit t c : scan_token lx = Ok (ScanToken (ty, lit, t, c)) ->
  scanIdentifier (l_rest lx) (l_cur lx) = Ok (ty, lit, t, c) -> name_shape lit.
Proof.
  intros Hs Hi. pose proof (scanIdentifier_shape _ _ _ _ _ _ Hi) as (Hty & Hall & Hne & u & Hu).
  pose proof (keyword_type_not lit) as Hnot. rewrite <- Hty in Hnot. cbn [In] in Hnot. split; [done|].
  destruct lit as [|ch lit]; [done|]. cbn [app] in Hu. rewrite Hu in *.
  pose proof (proj1 (Forall_cons_1 _ _ _ Hall)) as Hch. unfold name_rune in Hch.
  unfold scan_token, scan_token_tail in Hs. rewrite Hu in Hs. change (peek (ch :: lit ++ u)) with ch in Hs.
  destruct (Z.eqb_spec ch 46) as [->|].
  - right. cbn [Z.eqb Pos.eqb] in Hs. destruct (nextIs (Z.eqb 63) _); [injection Hs as <-; tauto|].
    destruct (nextIs isDigit _); [done|].
    destruct (nextIs (fun r => IsLetter r || (r =? 95)) _) eqn:Hl; [|injection Hs as <-; tauto].
    destruct (lit ++ u) as [|d r] eqn:Hd; [done|]. cbn [nextIs] in Hl. unfold scanIdentifier in Hi.
    assert (path_char d = true) as Hpd.
    { unfold path_char. apply orb_true_iff in Hl as [-> | ->]; [done|apply orb_true_r]. }
    rewrite ident_loop_dot in Hi by done. change (d :: r) with ([d] ++ r) in Hi.
    rewrite ident_loop_chars in Hi by (constructor; [by apply ident_char_path|constructor]).
    destruct (ident_loop _ r) as [l u'] eqn:Hloop. apply ident_loop_cut in Hloop as (w & -> & _).
    cbn [app] in Hi. injection Hi as _ <- _ _. by eexists _, _.
  - left. destruct (Z.eqb_spec ch 58) as [->|].
    { cbn [Z.eqb Pos.eqb] in Hs. destruct (nextIs _ _); injection Hs as <-; tauto. }
    rewrite !orb_false_r in Hch. destruct (Z.eqb_spec ch 45) as [->|].
    { cbn [Z.eqb Pos.eqb] in Hs. destruct (nextIs _ _); [|injection Hs as <-; tauto].
      unfold scanNumber in Hs. destruct (number_text _). injection Hs as <-. tauto. }
    exists ch, lit. split; [done|]. unfold isIdentifierCharNoColon in Hch. unfold path_char.
    rewrite (proj2 (Z.eqb_neq ch 45)), orb_false_r in Hch by done. split; [done|].
    destruct (isDigit ch) eqn:Hdig; [|done]. exfalso.
    assert (Hk : forall k, isDigit k = false -> (ch =? k) = false) by (intros k Hk; apply Z.eqb_neq; congruence).
    rewrite !Hk in Hs by done. unfold scanNumber in Hs. destruct (number_text _). injection Hs as <-. tauto.
Qed.

Lemma lexed_name t : lexed t -> v1IsNameToken t = true ->
  tType t = keyword_type (tLiteral t) /\ name_shape (tLiteral t).
Proof.
  intros [Hty|(lx & rest & c & _ & Hs)] Hn; [unfold v1IsNameToken in Hn; by rewrite Hty in Hn|].
  pose proof (scan_token_class _ _ Hs) as Hc.
  inversion Hc as [? ? ? ? Hp | Hnum Heq | ? Hi | ? Hstr]; subst.
  - exfalso. apply is_punct_In in Hp. unfold v1IsNameToken in Hn. cbn [punct_table In] in Hp.
    repeat destruct Hp as [Hp|Hp]; try done; injection Hp as Hty _; by rewrite <- Hty in Hn.
  - unfold scanNumber in Heq. destruct (number_text _). injection Heq as Hty _ _ _.
    unfold v1IsNameToken in Hn. by rewrite <- Hty in Hn.
  - split; [by apply scanIdentifier_keyword in Hi|]. by eapply scan_ident_shape.
  - apply scan_string_loop_spec in Hstr as [Hty _]. unfold v1IsNameToken in Hn. by rewrite Hty in Hn.
Qed.

(** *** Names *)

Lemma ContainsRune_cons c s d : ContainsRune (c :: s) d = (d =? c) || ContainsRune s d.
Proof. done. Qed.

Lemma Forall_name_rune (P : rune -> bool) s : Forall (fun c => name_rune c = true) s ->
  ContainsRune s 46 = false -> ContainsRune s 58 = false ->
  (forall c, isIdentifierCharNoColon c = true -> c ∈ s -> P c = true) -> forallb P s = true.
Proof.
  intros Hs H46 H58 HP. apply forallb_forall. intros c Hc%list_elem_of_In.
  rewrite Forall_forall in Hs. specialize (Hs c Hc). unfold name_rune in Hs.
  apply ContainsRune_false in H46. rewrite Forall_forall in H46. specialize (H46 c Hc).
  apply ContainsRune_false in H58. rewrite Forall_forall in H58. specialize (H58 c Hc).
  rewrite (proj2 (Z.eqb_neq c 46)), (proj2 (Z.eqb_neq c 58)), !orb_false_r in Hs by done. by apply HP.
Qed.

Lemma ident_char_hyphen c : isIdentifierCharNoColon c = true -> c <> 45 -> path_char c = true.
Proof.
  unfold isIdentifierCharNoColon, path_char. intros Hc Hne. by rewrite (proj2 (Z.eqb_neq c 45)), orb_false_r in Hc.
Qed.

(** A part of a name with nothing glued in it is one segment. *)
Lemma part_segment s : Forall (fun c => name_rune c = true) s -> s <> [] ->
  ContainsRune s 46 = false -> ContainsRune s 58 = false -> ContainsRune s 45 = false -> segment s = true.
Proof.
  intros Hs Hne H46 H58 H45. unfold segment. apply eqs_false in Hne. rewrite Hne. cbn [negb andb].
  apply Forall_name_rune; try done. intros c Hc Hin. apply ident_char_hyphen; [done|].
  apply ContainsRune_false in H45. rewrite Forall_forall in H45. by apply H45.
Qed.

Lemma shape_key s : name_shape s -> ContainsRune s 46 = false -> ContainsRune s 58 = false -> key s = true.
Proof.
  intros [Hs [(c & s' & -> & Hc & Hd)|(c & s' & -> & _)]] H46 H58; [|done].
  cbn [key]. rewrite Hc, Hd. cbn [negb andb].
  rewrite ContainsRune_cons in H46, H58. apply orb_false_iff in H46 as [_ H46], H58 as [_ H58].
  apply Forall_cons in Hs as [_ Hs]. by apply Forall_name_rune.
Qed.

Lemma shape_word s : name_shape s -> ContainsRune s 46 = false -> ContainsRune s 58 = false ->
  ContainsRune s 45 = false -> word s = true.
Proof.
  intros Hshape H46 H58 H45. unfold word.
  destruct Hshape as [Hs [(c & s' & -> & Hc & Hd)|(c & s' & -> & _)]]; [|done].
  rewrite part_segment by done. cbn [hd]. by rewrite Hd.
Qed.

Lemma ContainsAny_runes s chars c : ContainsAny s chars = false -> ContainsRune chars c = true ->
  ContainsRune s c = false.
Proof.
  intros Hs Hc. apply ContainsRune_false, Forall_forall. intros d Hd ->.
  assert (ContainsAny s chars = true); [|congruence]. apply existsb_exists. exists c.
  by split; [apply list_elem_of_In|].
Qed.

Lemma Split_runes (P : rune -> Prop) s sep : Forall P s -> Forall (Forall P) (Split s sep).
Proof.
  induction 1 as [|c s Hc Hs IH]; cbn; [by repeat constructor|].
  destruct (c =? sep); [by constructor|]. destruct (Split s sep) as [|p ps]; [by repeat constructor|].
  apply Forall_cons in IH as [Hp Hps]. by repeat constructor.
Qed.

Lemma Split_head c s sep : c <> sep -> exists p ps, Split (c :: s) sep = (c :: p) :: ps.
Proof.
  intros Hc. cbn. rewrite (proj2 (Z.eqb_neq c sep)) by done. destruct (Split s sep); by eexists _, _.
Qed.

Lemma path_segments_texts tok off parts segs : path_segments tok off parts = Ok segs ->
  sg_text <$> segs = parts /\ Forall (fun p => p <> []) parts.
Proof.
  revert off segs. induction parts as [|p parts IH]; intros off segs; cbn [path_segments].
  - by intros [= <-].
  - destruct (p =s []) eqn:Hp; [done|]. apply eqs_false in Hp.
    destruct (path_segments _ _ parts) as [segs'|] eqn:Hs; [|done]. intros [= <-].
    apply IH in Hs as [<- Hne]. by split; [|constructor].
Qed.

Lemma HasPrefix_dot c s : HasPrefix (c :: s) (go ".") = (46 =? c).
Proof. cbn. by rewrite andb_true_r. Qed.

(** The segments of a name token: words of the language, the first fit for
    where the token stands. *)
Lemma segments_shape t segs : name_shape (tLiteral t) -> v1PathSegments t = Ok segs ->
  exists sg segs', segs = sg :: segs' /\ Forall (fun sg => segment (sg_text sg) = true) segs'
    /\ if HasPrefix (tLiteral t) (go ".") then dot_word (sg_text sg) = true
       else word (sg_text sg) = true /\ (segs' = [] -> sg_text sg = tLiteral t).
Proof.
  intros [Hruns Hfirst]. unfold v1PathSegments.
  destruct (ContainsRune _ 58) eqn:H58; [done|]. destruct (ContainsRune _ 45) eqn:H45; [done|].
  assert (Hseg : forall s off segs, Forall (fun c => name_rune c = true) s -> ContainsRune s 58 = false ->
    ContainsRune s 45 = false -> path_segments t off (Split s 46) = Ok segs ->
    sg_text <$> segs = Split s 46 /\ Forall (fun sg => segment (sg_text sg) = true) segs).
  { intros s off sgs Hs Hs58 Hs45 [Ht Hne]%path_segments_texts. split; [done|].
    apply (Forall_fmap sg_text (fun p => segment p = true)). rewrite Ht.
    rewrite Forall_forall in Hne. rewrite Forall_forall. intros p Hp.
    pose proof (Split_runes _ s 46 Hs) as H1. rewrite Forall_forall in H1.
    pose proof (Split_parts s 46) as H2. rewrite Forall_forall in H2.
    pose proof (Split_contains s 46 58 Hs58) as H3. rewrite Forall_forall in H3.
    pose proof (Split_contains s 46 45 Hs45) as H4. rewrite Forall_forall in H4.
    by apply part_segment; eauto. }
  destruct Hfirst as [(c & s & Hlit & Hc & Hd)|(c & s & Hlit & Hc)]; rewrite Hlit in *.
  - assert (Hdot : HasPrefix (c :: s) (go ".") = false).
    { rewrite HasPrefix_dot. apply Z.eqb_neq. intros <-. by vm_compute in Hc. }
    rewrite Hdot. intros [Ht Hall]%Hseg; try done.
    pose proof (Join_Split (c :: s) 46) as Hj.
    destruct (Split_head c s 46) as (p & ps & Hp); [by intros ->; vm_compute in Hc|].
    rewrite Hp in *. destruct segs as [|sg segs']; [done|]. cbn in Ht. injection Ht as Hsg Hps.
    apply Forall_cons in Hall as [Hsg1 Hall]. eexists _, _. split; [done|]. split; [done|].
    split; [unfold word; rewrite Hsg1, Hsg; cbn [hd]; by rewrite Hd|]. intros ->. cbn in Hps. subst ps. by rewrite Hsg.
  - change (HasPrefix (46 :: c :: s) (go ".")) with true. cbn [drop].
    apply Forall_cons in Hruns as [_ Hruns]. rewrite ContainsRune_cons in H58, H45.
    apply orb_false_iff in H58 as [_ H58], H45 as [_ H45].
    intros [Ht Hall]%Hseg; try done.
    destruct (Split_head c s 46) as (p & ps & Hp); [by intros ->; vm_compute in Hc|].
    rewrite Hp in *. destruct segs as [|sg segs']; [done|]. cbn in Ht. injection Ht as Hsg Hps.
    apply Forall_cons in Hall as [Hsg1 Hall]. eexists _, _. split; [done|]. split; [done|].
    unfold dot_word. rewrite Hsg1, Hsg. done.
Qed.

(** *** Strings *)

Lemma hex_digit_nonneg d v : hex_digit d = Some v -> 0 <= v.
Proof. unfold hex_digit, between. repeat case_match; intros [= <-]; bprop; lia. Qed.

Lemma hex_value_nonneg ds : forall v r, 0 <= v -> hex_value ds v = Ok r -> 0 <= r.
Proof.
  induction ds as [|d ds IH]; intros v r Hv; cbn [hex_value]; [by intros [= <-]|].
  destruct (hex_digit d) as [x|] eqn:Hd; [|done]. apply hex_digit_nonneg in Hd. apply IH.
  pose proof (proj2 (Z.shiftl_nonneg v 4) Hv). lia.
Qed.

Lemma scanHex4_nonneg s v t : scanHex4 s = Ok (v, t) -> 0 <= v.
Proof. unfold scanHex4. repeat case_match; try done. intros [= <- _]. by eapply hex_value_nonneg; [|eassumption]. Qed.

Lemma scanUnicodeEscape_nonneg s r t n : scanUnicodeEscape s = Ok (r, t, n) -> 0 <= r.
Proof.
  unfold scanUnicodeEscape. destruct (scanHex4 s) as [[v u]|] eqn:Hs; [|done]. apply scanHex4_nonneg in Hs.
  destruct (between 0xD800 0xDBFF v) eqn:Hb.
  - destruct (_ || _); [done|]. destruct (scanHex4 _) as [[low t']|]; [|done].
    destruct (_ || _) eqn:Hl; [done|]. intros [= Heq _ _]. subst r. unfold between in Hb. bprop.
    assert (0 <= Z.lor (Z.shiftl (v - 55296) 10) (low - 56320)); [|lia].
    apply Z.lor_nonneg. split; [apply Z.shiftl_nonneg|]; lia.
  - clear Hb. destruct (between _ _ v); [done|]. by intros [= <- _ _].
Qed.

Lemma scan_string_nonneg fuel start rest c b ty lit t c' : nonneg rest -> nonneg b ->
  scan_string_loop fuel start rest c b = Ok (ty, lit, t, c') -> nonneg lit.
Proof.
  revert rest c b. induction fuel as [|f IH]; intros rest c b Hr Hb; [done|]. cbn [scan_string_loop].
  destruct rest as [|ch rest]; [done|]. apply Forall_cons in Hr as [Hch Hr].
  destruct (ch =? 34); [by intros [= _ <- _ _]|]. destruct (ch =? 92).
  - destruct rest as [|e rest]; [done|]. apply Forall_cons in Hr as [He Hr].
    destruct (simple_escape e) as [r|] eqn:Hs.
    + apply IH; [done|]. apply Forall_app_2; [done|]. constructor; [|done].
      unfold simple_escape in Hs. repeat case_match; simplify_eq; lia.
    + destruct (e =? 117); [|done]. destruct (scanUnicodeEscape rest) as [[[r u] n]|] eqn:Hu; [|done].
      pose proof (scanUnicodeEscape_nonneg _ _ _ _ Hu) as Hr0.
      apply scanUnicodeEscape_spec in Hu as (ds & -> & _). apply Forall_app in Hr as [_ Hr].
      apply IH; [done|]. apply Forall_app_2; [done|]. by constructor.
  - apply IH; [done|]. apply Forall_app_2; [done|]. by constructor.
Qed.

(** A token of the lexer over a source of characters. *)
Definition token_ok (t : Token) : Prop := lexed t /\ (tType t = TokenString -> nonneg (tLiteral t)).

Lemma scan_token_string lx ty lit t c : nonneg (l_rest lx) -> 
  scan_token lx = Ok (ScanToken (ty, lit, t, c)) -> ty = TokenString -> nonneg lit.
Proof.
  intros Hr Hs ->. apply scan_token_class in Hs. inversion Hs as [? ? ? ? Hp | Hnum Heq | ? Hi | ? Hstr]; subst.
  - apply is_punct_In in Hp. cbn [punct_table In] in Hp. by repeat destruct Hp as [Hp|Hp].
  - unfold scanNumber in Heq. by destruct (number_text _).
  - apply scanIdentifier_keyword in Hi. destruct (keyword_type_class lit) as (_ & ? & _). congruence.
  - unfold scanString in Hstr. eapply scan_string_nonneg; [| |exact Hstr]; [|constructor].
    destruct Hr; [constructor|done].
Qed.

Lemma NextToken_ok fuel lx tok lx' : nonneg (l_rest lx) -> NextToken fuel lx = Ok (tok, lx') -> token_ok tok.
Proof.
  intros Hr Hn. split; [by eapply NextToken_lexed|]. destruct fuel as [|f]; [done|]. cbn [NextToken] in Hn.
  apply result_bind_ok in Hn as (lx1 & Hw & Hn). pose proof (skipWhitespace_stops _ _ _ Hw) as Hat.
  apply skipWhitespace_spec in Hw as (g & _ & Ht & _). rewrite Ht in Hr. apply Forall_app in Hr as [_ Hr].
  destruct (l_rest lx1) as [|ch t] eqn:Hr1; [by injection Hn as <- _|].
  apply result_bind_ok in Hn as (step & Hs & Hn).
  destruct step as [[[[ty lit] t'] c]|lx2]; [|apply scan_token_not_again in Hs; [done|by rewrite Hr1]].
  injection Hn as <- _. eapply scan_token_string; [|exact Hs]. by rewrite Hr1.
Qed.

Lemma tokenize_loop_ok fuel lx toks lx' : nonneg (l_rest lx) -> tokenize_loop fuel lx = Ok (toks, lx') ->
  Forall token_ok toks.
Proof.
  revert lx toks lx'. induction fuel as [|f IH]; intros lx toks lx' Hr; [done|]. cbn [tokenize_loop].
  intros Ht. apply result_bind_ok in Ht as ([tok lx1] & Hn & Ht). pose proof (NextToken_ok _ _ _ _ Hr Hn) as [H1 H2].
  assert (Hok : token_ok (stamp_end tok lx1)).
  { split; [by apply stamp_end_lexed|]. rewrite stamp_end_type. unfold stamp_end. by destruct (tType tok). }
  assert (Hr1 : nonneg (l_rest lx1)).
  { apply NextToken_spec in Hn as (g & _ & [(_ & -> & _)|(w & _ & Hw & _)]); [constructor|].
    rewrite Hw in Hr. by apply Forall_app in Hr as [_ [_ ?]%Forall_app]. }
  revert Ht. destruct (tType (stamp_end tok lx1)); intros Ht; [by injection Ht as <- _; apply Forall_singleton|..];
    apply result_bind_ok in Ht as ([toks' lx2] & Hl & Ht); injection Ht as <- _;
    (constructor; [done | by eapply IH; [|exact Hl]]).
Qed.

Lemma Tokenize_ok input toks : nonneg input -> Tokenize input = Ok toks -> Forall token_ok toks.
Proof.
  unfold Tokenize, TokenizeWithDocs. intros Hi. destruct (tokenize_loop _ _) as [[ts lx]|] eqn:Ht; [|done].
  intros [= <-]. by eapply tokenize_loop_ok; [|exact Ht].
Qed.
End Tokens.
