(* ===== verification/Printability.v ===== *)
(** Every tree the parser returns can be printed: its names are words of the
    language, its fields, arguments, keys and parameters are spelled the way the
    lexer reads them back, and no call in it is one the parser would refuse.

    With RoundTrip this makes formatting safe for any source the parser accepts. *)

From S2P Require Import Prelude GoText Strconv Ast Lexer LexerFacts Refusals Parser Printer.
From S2P Require Import ParserFacts Canonical Lexing Reparse RoundTrip TokenShapes.

(** ** Literals *)

(** The float64 literals of a tree. *)
Fixpoint float_literals (n : expr) : list float64 :=
  match n with
  | LiteralExpr (VFloat f) => [f]
  | MemberExpr o _ _ => float_literals o
  | CallExpr r _ _ args named =>
      float_literals r ++ concat (float_literals <$> args)
      ++ concat ((fun kv => float_literals kv.2) <$> named)
  | UnaryExpr _ x => float_literals x
  | BinaryExpr _ l r => float_literals l ++ float_literals r
  | TernaryExpr c t e => float_literals c ++ float_literals t ++ float_literals e
  | LambdaExpr _ b => float_literals b
  | ListExpr es => concat (float_literals <$> es)
  | MapExpr es => concat ((fun kv => float_literals kv.2) <$> es)
  | ParenExpr i => float_literals i
  | _ => []
  end.

(** Every float of [n] prints to digits that read back as the same float, as
    strconv documents of its shortest form. *)
Definition floats_read (n : expr) : bool := forallb (fun f => number_reads (VFloat f)) (float_literals n).

Lemma forallb_concat {A} (f : A -> bool) ls : forallb f (concat ls) = forallb (forallb f) ls.
Proof. induction ls as [|l ls IH]; cbn; [done|]. by rewrite forallb_app, IH. Qed.

Lemma forallb_two {A} (f g h : A -> bool) l : Forall (fun a => f a = true -> g a = true -> h a = true) l ->
  forallb f l = true -> forallb g l = true -> forallb h l = true.
Proof.
  induction 1 as [|a l Ha _ IH]; cbn [forallb]; [done|]. intros [? ?]%andb_true_iff [? ?]%andb_true_iff.
  apply andb_true_iff. split; [by apply Ha|by apply IH].
Qed.

Lemma printable_floats `{UnicodeTables} n : forall g, printable_with parsed_lit g n = true -> floats_read n = true ->
  printable_in g n = true.
Proof.
  unfold floats_read.
  induction n using expr_ind'; intros g Hp Hf; cbn [printable_with float_literals] in *; try done;
    rewrite ?forallb_app, ?andb_true_iff in Hf.
  - apply andb_true_iff in Hp as [[Hp ->]%andb_true_iff ->]. by rewrite IHn.
  - destruct Hf as (Hf & Hf1 & Hf2). rewrite forallb_concat, forallb_fmap in Hf1. rewrite forallb_concat, forallb_fmap in Hf2.
    apply andb_true_iff in Hp as [[[Hp1 Hp2]%andb_true_iff ->]%andb_true_iff Hp].
    assert (forallb printable args = true) as ->
      by (eapply forallb_two; [|exact Hp1|exact Hf1]; eapply Forall_impl; [eassumption|]; cbn; by eauto).
    assert (forallb (fun kv => printable kv.2) named = true) as ->
      by (eapply forallb_two; [|exact Hp2|exact Hf2]; eapply Forall_impl; [eassumption|]; cbn; by eauto).
    destruct (negb _); [done|]. destruct (is_nil_node n); [done|].
    apply andb_true_iff in Hp as [[[Hp ->]%andb_true_iff ->]%andb_true_iff ->]. by rewrite IHn.
  - apply andb_true_iff in Hp as [Hp ->]. by rewrite IHn.
  - destruct Hf as [Hf1 Hf2]. apply andb_true_iff in Hp as [[Hp1 Hp2]%andb_true_iff ->]. by rewrite IHn1, IHn2.
  - destruct Hf as (Hf1 & Hf2 & Hf3). apply andb_true_iff in Hp as [[Hp1 Hp2]%andb_true_iff Hp3].
    by rewrite IHn1, IHn2, IHn3.
  - apply andb_true_iff in Hp as [-> Hp]. by rewrite IHn.
  - rewrite forallb_concat, forallb_fmap in Hf. eapply forallb_two; [|exact Hp|exact Hf].
    eapply Forall_impl; [eassumption|]. cbn. by eauto.
  - rewrite forallb_concat, forallb_fmap in Hf. apply andb_true_iff in Hp as [[Hp ->]%andb_true_iff ->].
    rewrite !andb_true_r. eapply forallb_two; [|exact Hp|exact Hf]. eapply Forall_impl; [eassumption|]. cbn. by eauto.
  - by apply IHn.
  - destruct v; try done. cbn in Hf. by rewrite andb_true_r in Hf.
Qed.

(** ** Postconditions of the parser's results

    [okp P r]: the value of [r], if it has one, satisfies [P]. *)

Definition okp {A} (P : A -> Prop) (r : result parse_error A) : Prop :=
  match r with Ok a => P a | Err _ => True end.

Lemma okp_bind {A B} (Q : A -> Prop) (P : B -> Prop) m (f : A -> result parse_error B) :
  okp Q m -> (forall a, Q a -> okp P (f a)) -> okp P (m ≫= f).
Proof. destruct m; cbn; auto. Qed.

Lemma okp_skip {A B} (P : B -> Prop) (m : result parse_error A) f : (forall a, okp P (f a)) -> okp P (m ≫= f).
Proof. destruct m; cbn; auto. Qed.

Lemma okp_expected {A} (P : A -> Prop) what ts : okp P (v1Expected what ts).
Proof. unfold v1Expected. by destruct (v1RefuseMistake ts). Qed.

(** The rounds of a loop, with an invariant on the state and the tokens left. *)
Lemma iter_okp {S A} (step : S -> list Token -> result parse_error (step_result S A))
    (Inv : S -> list Token -> Prop) (Q : A -> list Token -> Prop) fuel s ts :
  (forall s ts, Inv s ts -> okp (fun r => match r with Continue s' ts' => Inv s' ts' | Done a ts' => Q a ts' end)
                                (step s ts)) ->
  Inv s ts -> okp (fun '(a, ts') => Q a ts') (iter fuel step s ts).
Proof.
  intros Hstep. revert s ts. induction fuel as [|f IH]; intros s ts Hs; [done|]. cbn [iter]. specialize (Hstep s ts Hs).
  destruct (step s ts) as [[s' ts'|a ts']|e]; [by apply IH|done|done].
Qed.

Lemma loop_okp {S A} (step : S -> list Token -> result parse_error (step_result S A))
    (Inv : S -> list Token -> Prop) (Q : A -> list Token -> Prop) s ts :
  (forall s ts, Inv s ts -> okp (fun r => match r with Continue s' ts' => Inv s' ts' | Done a ts' => Q a ts' end)
                                (step s ts)) ->
  Inv s ts -> okp (fun '(a, ts') => Q a ts') (loop step s ts).
Proof.
  intros. by apply (iter_okp step Inv Q).
Qed.

Section Parsed.
Context `{UnicodeTables} (asOfOutside : bool).

Abbreviation prints := (printable_with parsed_lit).
Abbreviation tokens := (Forall token_ok).

(** A parse whose tree prints. *)
Definition yields (P : expr -> Prop) (r : result parse_error (v1Expr * list Token)) : Prop :=
  okp (fun '(e, ts) => P (x_n e) /\ tokens ts) r.

Lemma tokens_take ts : tokens ts -> tokens (v1Take ts).
Proof. intros Hts. eapply no_more_Forall; [apply take_no_more|done]. Qed.

Lemma token_ok_zero : token_ok zeroToken.
Proof. split; [by left|done]. Qed.

Lemma tokens_cur ts : tokens ts -> token_ok (cur ts).
Proof. intros [|t us Ht _]; [apply token_ok_zero|exact Ht]. Qed.

Lemma tokens_lexed ts : tokens ts -> lexed (cur ts).
Proof. intros Hts. by destruct (tokens_cur ts Hts). Qed.

#[local] Hint Resolve tokens_take tokens_cur tokens_lexed : core.

Lemma prints_glue g n : prints false n = true -> prints g n = true.
Proof.
  destruct g, n; try done. cbn [printable_with]. unfold ident_ok. intros [-> _]%andb_true_iff. done.
Qed.

Lemma prints_not_nil g n : prints g n = true -> is_nil_node n = false.
Proof. by destruct n. Qed.

Lemma distinct_NoDup l : NoDup l -> distinct l = true.
Proof.
  induction 1 as [|x l Hx _ IH]; [done|]. cbn [distinct]. rewrite IH, andb_true_r. apply negb_true_iff.
  destruct (memS x l) eqn:Hm; [|done]. by apply memS_In, list_elem_of_In in Hm.
Qed.

Section Nested.
Context (ternary : list Token -> result parse_error (v1Expr * list Token)).
Context (Hternary : forall ts, tokens ts -> yields (fun n => prints false n = true) (ternary ts)).

(** *** Arguments *)

Definition arg_name_ok (name : gostring) : Prop := key name = true /\ memS name reservedArgsNames = false.

Definition arg_ok (a : argument) : Prop :=
  prints false (arg_value a) = true /\ match a with ArgNamed name _ _ => arg_name_ok name | _ => True end.

Definition arguments_ok (st : args_state) : Prop :=
  Forall arg_ok (as_list st) /\ NoDup ((named_args (as_list st)).*1)
  /\ (forall k, k ∈ (named_args (as_list st)).*1 -> k ∈ as_seen st).

Lemma arguments_positional st v tok lk : arguments_ok st -> prints false v = true ->
  arguments_ok (mkArgs (as_list st ++ [ArgPositional v tok]) (as_seen st) lk).
Proof.
  intros (H1 & H2 & H3) Hv. unfold arguments_ok. cbn [as_list as_seen]. rewrite named_args_app.
  change (named_args [ArgPositional v tok]) with (@nil (gostring * expr)). rewrite app_nil_r.
  split; [|done]. apply Forall_app_2; [done|]. constructor; [by split|constructor].
Qed.

Lemma arguments_named st name v tok lk : arguments_ok st -> prints false v = true -> arg_name_ok name ->
  name ∉ as_seen st ->
  arguments_ok (mkArgs (as_list st ++ [ArgNamed name v tok]) ({[name]} ∪ as_seen st) lk).
Proof.
  intros (H1 & H2 & H3) Hv Hn Hseen. unfold arguments_ok. cbn [as_list as_seen]. rewrite named_args_app, fmap_app.
  change ((named_args [ArgNamed name v tok]).*1) with [name]. split; [|split].
  - apply Forall_app_2; [done|]. constructor; [by split|constructor].
  - apply NoDup_app. split; [done|]. split; [|apply NoDup_singleton].
    intros k Hk Hk2. apply list_elem_of_singleton in Hk2 as ->. auto.
  - set_solver.
Qed.

Lemma checkCallArgName_ok tok name seen :
  okp (fun _ => name ∉ seen /\ memS name reservedArgsNames = false) (checkCallArgName tok name seen).
Proof. unfold checkCallArgName. case_bool_decide; [done|]. by destruct (memS name _). Qed.

Lemma after_argument_ok st ts : arguments_ok st -> tokens ts ->
  okp (fun r => match r with Continue s' ts' => arguments_ok s' /\ tokens ts'
                | Done s' ts' => arguments_ok s' /\ tokens ts' end) (after_argument st ts).
Proof.
  intros Hst Hts. unfold after_argument. destruct (check TokenComma ts); [by split; auto|].
  destruct (negb _); [apply okp_expected|by split].
Qed.

Lemma args_step_ok st ts : arguments_ok st /\ tokens ts ->
  okp (fun r => match r with Continue s' ts' => arguments_ok s' /\ tokens ts'
                | Done s' ts' => arguments_ok s' /\ tokens ts' end) (args_step ternary st ts).
Proof.
  intros [Hst Hts]. unfold args_step. destruct (check TokenParenClose ts); [by split|].
  destruct (check TokenEOF ts); [apply okp_expected|].
  destruct (v1IsNameToken _ && _) eqn:Hn.
  - apply andb_true_iff in Hn as [Hn _]. destruct (ContainsAny _ _) eqn:Hc; [done|].
    eapply okp_bind; [apply checkCallArgName_ok|]. intros [] [Hseen Hres]. apply okp_skip. intros [].
    eapply okp_bind; [apply Hternary; auto|]. intros [v ts3] [Hv Hts3]. apply after_argument_ok; [|done].
    destruct (lexed_name _ (tokens_lexed ts Hts) Hn) as [_ Hshape]. apply arguments_named; try done.
    split; [|done]. apply shape_key; [done|..]; by eapply ContainsAny_runes.
  - destruct (isType TokenString _ && _); [done|].
    eapply okp_bind; [by apply Hternary|]. intros [v ts1] [Hv Hts1].
    assert (Hpos := after_argument_ok _ ts1 (arguments_positional st (x_n v) (cur ts)
      (maxLinks [as_links st; x_links v]) Hst Hv) Hts1).
    destruct (x_n v); try exact Hpos. by destruct (isOp _ _).
Qed.

Definition named_ok (named : list (gostring * expr)) : Prop :=
  Forall (fun kv => prints false kv.2 = true /\ arg_name_ok kv.1) named /\ NoDup (named.*1).

Lemma prints_name name : prints false (IdentExpr name) = true -> key name = true.
Proof. cbn [printable_with]. unfold ident_ok. intros [[Hw _]%andb_true_iff _]%andb_true_iff. by apply plain_word_key. Qed.

Lemma construct_args_ok l seen : Forall arg_ok l ->
  NoDup ((named_args l).*1) -> (forall k, k ∈ (named_args l).*1 -> k ∈ seen) ->
  okp (fun named => named_ok named /\ forall k, k ∈ named.*1 -> k ∈ (named_args l).*1 \/ k ∉ seen)
    (construct_args l seen).
Proof.
  revert seen. induction l as [|a l IH]; intros seen Hok Hnd Hseen; cbn [construct_args].
  { split; [split; constructor|set_solver]. }
  apply Forall_cons in Hok as [[Hv Ha] Hok]. destruct a as [name v t|v t]; cbn [arg_value] in Hv.
  - change (named_args (ArgNamed name v t :: l)) with ((name, v) :: named_args l) in *.
    cbn [fmap list_fmap fst] in Hnd, Hseen. apply NoDup_cons in Hnd as [Hn Hnd].
    specialize (IH seen Hok Hnd ltac:(set_solver)).
    destruct (construct_args l seen) as [named|e]; [|done]. destruct IH as [[I1 I2] I3].
    cbn [okp]. split; [split|cbn; set_solver]; [by constructor|].
    cbn. apply NoDup_cons. split; [|done]. intros Hin. apply I3 in Hin as [Hin|Hin]; [done|].
    apply Hin, Hseen. set_solver.
  - assert (Hseen' : forall k, k ∈ (named_args l).*1 -> k ∈ seen) by exact Hseen. clear Hseen.
    assert (Hnd' : NoDup ((named_args l).*1)) by exact Hnd. clear Hnd.
    destruct v as [|name| | | | | | | | | | | |]; try done.
    pose proof (checkCallArgName_ok t name seen) as Hc. destruct (checkCallArgName t name seen); [|done].
    destruct Hc as [Hc Hres]. specialize (IH ({[name]} ∪ seen) Hok Hnd' ltac:(set_solver)).
    destruct (construct_args l _) as [named|e]; [|done]. destruct IH as [[I1 I2] I3]. cbn [okp].
    change (named_args (ArgPositional (IdentExpr name) t :: l)) with (named_args l).
    split; [split|cbn; set_solver].
    + constructor; [|done]. split; [done|]. split; [by apply prints_name|done].
    + cbn. apply NoDup_cons. split; [|done]. intros Hin. apply I3 in Hin as [Hin|Hin]; [|set_solver].
      by apply Hc, Hseen'.
Qed.

Lemma arguments_split l : Forall arg_ok l -> NoDup ((named_args l).*1) ->
  Forall (fun v => prints false v = true) (positional_args l) /\ named_ok (named_args l).
Proof.
  intros Hok Hnd. split; [|split; [|done]]; clear Hnd; induction Hok as [|[name v t|v t] l [Hv Ha] Hok IH];
    unfold positional_args, named_args in *; cbn; try done; by constructor.
Qed.

Definition call_args_ok (kind : gostring) (bare : bool) (args : list expr) (named : list (gostring * expr)) : Prop :=
  forallb (prints false) args = true /\ forallb (fun kv => prints false kv.2) named = true
  /\ names_ok args named = true /\ (kind <> [] -> args = [])
  /\ (bare = true -> match args, named with [MapExpr _], [] => false | _, _ => true end = true).

Lemma call_args_intro kind bare args named : Forall (fun v => prints false v = true) args -> named_ok named ->
  args = [] \/ named = [] -> (kind <> [] -> args = []) ->
  (bare = true -> match args, named with [MapExpr _], [] => false | _, _ => true end = true) ->
  call_args_ok kind bare args named.
Proof.
  intros Ha [Hn Hnd] Hmix Hk Hb. split; [by apply forallb_forall, List.Forall_forall|].
  split; [|split; [|done]].
  - apply forallb_forall. intros kv Hkv%list_elem_of_In. rewrite Forall_forall in Hn. by destruct (Hn kv Hkv).
  - unfold names_ok. rewrite distinct_NoDup, andb_true_r by done. apply andb_true_iff. split.
    + by destruct Hmix as [-> | ->]; rewrite ?orb_true_r.
    + apply forallb_forall. intros kv Hkv%list_elem_of_In. rewrite Forall_forall in Hn.
      destruct (Hn kv Hkv) as [_ [-> ->]]. done.
Qed.

(** Only the object-literal wrapper has a map as its one argument. *)
Lemma object_literal_refused l : object_literal_args l = None ->
  match positional_args l, named_args l with [MapExpr _], [] => false | _, _ => true end = true.
Proof.
  destruct l as [|[name v t|v t] l]; [done|..]; unfold positional_args, named_args; cbn.
  - intros _. repeat case_match; done.
  - destruct l as [|[name' v' t'|v' t'] l]; cbn; [|intros _; repeat case_match; done..]. by destruct v.
Qed.

Lemma parseV1CallArgs_ok kind bare ts : tokens ts ->
  okp (fun '((args, named, _), ts') => call_args_ok kind bare args named /\ tokens ts')
    (parseV1CallArgs ternary kind bare ts).
Proof.
  intros Hts. unfold parseV1CallArgs. eapply okp_bind.
  { apply (loop_okp _ (fun st ts => arguments_ok st /\ tokens ts) (fun st ts => arguments_ok st /\ tokens ts));
      [apply args_step_ok|]. split; [|auto]. split; [constructor|]. split; [constructor|set_solver]. }
  intros [st ts1] [(G1 & G2 & G3) Hts1].
  destruct (if bare || negb (kind =s []) then object_literal_args (as_list st) else None) eqn:Hobj; [done|].
  destruct (kind =s []) eqn:Hk; cbn [negb].
  - apply eqs_true in Hk. destruct (_ && _) eqn:Hmix; [done|]. cbn [okp]. split; [|auto].
    destruct (arguments_split _ G1 G2) as [P1 P2]. apply call_args_intro; try done.
    + apply andb_false_iff in Hmix. destruct (positional_args _); [by left|]. destruct (named_args _); [by right|].
      by destruct Hmix as [Hmix|Hmix]; vm_compute in Hmix.
    + intros ->. by apply object_literal_refused.
  - eapply okp_bind; [by apply construct_args_ok|]. intros named [Hn _]. cbn [okp]. split; [|auto].
    apply call_args_intro; try done. by left.
Qed.

(** *** Chains *)

Definition chainable (n : expr) : Prop := prints false n = true /\ minus_literal n = false.

Lemma parseV1MethodCall_ok recv seg ts : prints true (x_n recv) = true -> minus_literal (x_n recv) = false ->
  segment (sg_text seg) = true -> tokens ts -> yields chainable (parseV1MethodCall ternary recv seg ts).
Proof.
  intros Hr Hm Hseg Hts. unfold parseV1MethodCall. destruct (v1IsCallableName _) eqn:Hc; [|done]. cbn [negb].
  destruct (_ =s go "contains") eqn:Hcont; [done|].
  eapply okp_bind; [by apply parseV1CallArgs_ok|]. intros [[[args named] lk] ts1] [(A1 & A2 & A3 & _) Hts1].
  apply okp_skip. intros links. cbn [okp]. split; [|done]. split; [|done]. cbn [x_n printable_with].
  rewrite A1, A2, A3, (prints_not_nil _ _ Hr), Hr, Hm, Hcont. unfold dot_word. by rewrite Hseg, Hc.
Qed.

Lemma v1MemberChain_ok base segs opt ts : prints (negb opt) (x_n base) = true -> minus_literal (x_n base) = false ->
  tokens ts ->
  match segs with
  | [] => prints false (x_n base) = true
  | seg :: segs' => field_ok (x_n base) (sg_text seg) opt = true
                    /\ Forall (fun sg => segment (sg_text sg) = true) segs'
  end ->
  yields chainable (v1MemberChain ternary base segs opt ts).
Proof.
  revert base opt. induction segs as [|seg segs IH]; intros base opt Hb Hm Hts Hsegs; cbn [v1MemberChain]; [done|].
  destruct Hsegs as [Hf Hsegs].
  assert (Hnext : yields chainable (match v1ChainLink (sg_tok seg) [x_links base] with
    | Err e => Err e
    | Ok links => v1MemberChain ternary (mkV1 (MemberExpr (x_n base) (sg_text seg) opt) links) segs false ts
    end)).
  { destruct (v1ChainLink _ _) as [lk|]; [|done].
    assert (Hmem : forall g, prints g (MemberExpr (x_n base) (sg_text seg) opt) = true)
      by (intros g; cbn [printable_with]; by rewrite Hb, Hm, Hf).
    apply IH; try done. destruct segs as [|seg' segs]; [done|]. by apply Forall_cons in Hsegs. }
  destruct segs as [|seg' segs]; [|done]. destruct (check TokenParenOpen ts); [|done].
  destruct opt; [done|]. apply parseV1MethodCall_ok; try done.
  unfold field_ok in Hf. destruct (open_ended _); [done|]. unfold dot_word in Hf. by apply andb_true_iff in Hf as [-> _].
Qed.

Definition chain_inv (n : expr) (ts : list Token) : Prop :=
  prints false n = true /\ (minus_literal n = true -> v1StartsPostfix (cur ts) = false) /\ tokens ts.

Lemma chain_inv_intro e ts : chainable (x_n e) /\ tokens ts -> chain_inv (x_n e) ts.
Proof. intros [[? ?] ?]. split; [done|]. by split; [congruence|]. Qed.

Lemma postfix_step_ok base ts : chain_inv (x_n base) ts ->
  okp (fun r => match r with Continue s' ts' => chain_inv (x_n s') ts'
                | Done e ts' => prints false (x_n e) = true /\ tokens ts' end) (postfix_step ternary base ts).
Proof.
  intros (Hb & Hm & Hts). unfold postfix_step. unfold v1StartsPostfix in Hm. destruct (tokens_cur ts Hts) as [Hlex _].
  destruct (isType TokenIdentifier (cur ts) && HasPrefix _ _) eqn:Hdot.
  - apply andb_true_iff in Hdot as [Hid Hdot]. apply isType_true in Hid.
    destruct (lexed_name _ Hlex) as [_ Hshape]; [unfold v1IsNameToken; by rewrite Hid|].
    destruct (v1PathSegments (cur ts)) as [segs|] eqn:Hsegs; [|done].
    apply segments_shape in Hsegs as (sg & segs' & -> & Hsegs & Hfirst); [|done]. rewrite Hdot in Hfirst.
    cbn [mbind result_bind]. eapply okp_bind; [apply v1MemberChain_ok|intros [e ts'] He; by apply chain_inv_intro].
    + by apply prints_glue.
    + destruct (minus_literal _); [|done]. by rewrite orb_true_r in Hm; specialize (Hm eq_refl).
    + auto.
    + split; [|done]. unfold field_ok. pose proof Hfirst as Hd. unfold dot_word in Hd.
      apply andb_true_iff in Hd as [-> _]. by destruct (open_ended _).
  - destruct (isType TokenDotQuestion (cur ts)) eqn:Hq; [|done]. cbn [orb] in Hm.
    destruct (isType TokenNumber _); [done|]. destruct (negb _ || _) eqn:Hn; [done|].
    apply orb_false_iff in Hn as [Hn%negb_false_iff Hnd].
    destruct (lexed_name _ (tokens_lexed _ (tokens_take _ Hts)) Hn) as [_ Hshape].
    destruct (v1PathSegments (cur (v1Take ts))) as [segs|] eqn:Hsegs; [|done].
    apply segments_shape in Hsegs as (sg & segs' & -> & Hsegs & Hfirst); [|done].
    rewrite Hnd in Hfirst. destruct Hfirst as [Hfirst _].
    cbn [mbind result_bind]. eapply okp_bind; [apply v1MemberChain_ok|intros [e ts'] He; by apply chain_inv_intro].
    + done.
    + destruct (minus_literal _); [|done]. by specialize (Hm eq_refl).
    + auto.
    + done.
Qed.

Lemma parseV1PostfixFrom_ok base ts : chain_inv (x_n base) ts ->
  yields (fun n => prints false n = true) (parseV1PostfixFrom ternary base ts).
Proof.
  intros Hb. apply (loop_okp _ (fun b us => chain_inv (x_n b) us)
    (fun b us => prints false (x_n b) = true /\ tokens us)); [|done].
  intros. by apply postfix_step_ok.
Qed.

(** *** Lambdas and brackets *)

Definition param_token (t : Token) : Prop := tType t = TokenIdentifier /\ token_ok t.

Lemma lambda_params_tokens ts : tokens ts -> Forall param_token (lambda_params ts).1.
Proof.
  assert (Hn : forall n ts, (length ts <= n)%nat -> tokens ts -> Forall param_token (lambda_params ts).1);
    [|by eapply Hn].
  clear ts. induction n as [|n IH]; intros ts Hlen Hts; [by destruct ts; [constructor|cbn in Hlen; lia]|].
  destruct Hts as [|t ts1 Ht Hts1]; [constructor|]. cbn in Hlen. cbn [lambda_params].
  destruct (isType TokenIdentifier t) eqn:Hty; [|constructor]. apply isType_true in Hty.
  destruct Hts1 as [|c ts2 Hc Hts2]; [by constructor; [|constructor]|]. cbn in Hlen. destruct (isType TokenComma c).
  - specialize (IH ts2 ltac:(lia) Hts2). destruct (lambda_params ts2). by constructor.
  - specialize (IH (c :: ts2) ltac:(cbn; lia) (Forall_cons_2 _ _ _ Hc Hts2)).
    destruct (lambda_params (c :: ts2)). by constructor.
Qed.

(** An identifier token with nothing glued in it. *)
Lemma plain_token t : lexed t -> tType t = TokenIdentifier -> ContainsAny (tLiteral t) (go ".:-") = false ->
  plain_word (tLiteral t) = true.
Proof.
  intros Hlex Hty Hc. destruct (lexed_name t Hlex) as [Hk Hshape]; [unfold v1IsNameToken; by rewrite Hty|].
  unfold plain_word. rewrite shape_word by (done || by eapply ContainsAny_runes).
  by rewrite <- Hk, Hty.
Qed.

Lemma params_print params : Forall param_token params -> forall seen,
  okp (fun names => forallb (fun p => plain_word p && negb (memS p value_words)) names = true) (check_params seen params).
Proof.
  induction 1 as [|t params [Hty [Hlex _]] _ IH]; intros seen; [done|]. cbn [check_params]. unfold v1CheckParam.
  destruct (ContainsAny _ _) eqn:Hc; [done|]. destruct (memS (tLiteral t) _) eqn:Hm; [done|].
  case_bool_decide; [done|]. specialize (IH ({[tLiteral t]} ∪ seen)).
  destruct (check_params _ params); [|done]. cbn [okp forallb] in *. rewrite IH, plain_token by done.
  unfold value_words. by rewrite Hm.
Qed.

Lemma parseV1Lambda_ok ts : tokens ts ->
  yields (fun n => prints false n = true /\ is_lambda n = true) (parseV1Lambda ternary ts).
Proof.
  intros Hts. unfold parseV1Lambda.
  assert (exists params ts1, (if check TokenIdentifier ts then ([cur ts], v1Take ts)
      else let '(ps, r) := lambda_params (v1Take ts) in (ps, v1Take r)) = (params, ts1)
      /\ Forall param_token params /\ tokens ts1) as (params & ts1 & -> & Hps & Hts1).
  { destruct (check TokenIdentifier ts) eqn:Hc.
    - eexists _, _. split; [done|]. apply isType_true in Hc. split; [|auto]. constructor; [|constructor]. by split; [|auto].
    - pose proof (lambda_params_tokens _ (tokens_take ts Hts)) as Hp.
      pose proof (lambda_params_no_more (v1Take ts)) as Hn. destruct (lambda_params _) as [ps r].
      eexists _, _. split; [done|]. split; [done|]. eapply tokens_take, no_more_Forall; [exact Hn|auto]. }
  pose proof (check_params_post ∅ params) as Hnd. pose proof (params_print params Hps ∅) as Hok.
  destruct (check_params ∅ params) as [names|]; [|done]. cbn [mbind result_bind post okp] in *.
  apply okp_skip. intros []. eapply okp_bind; [apply Hternary; auto|]. intros [body ts3] [Hb Hts3]. cbn [okp].
  split; [|done]. split; [|done]. cbn [x_n printable_with]. unfold params_ok.
  destruct Hnd as [Hnd _]. by rewrite Hok, distinct_NoDup, Hb.
Qed.

Lemma parseV1Paren_ok ts : tokens ts -> yields chainable (parseV1Paren ternary ts).
Proof.
  intros Hts. unfold parseV1Paren. destruct (check _ _); [done|]. apply okp_skip. intros [].
  eapply okp_bind; [apply Hternary; auto|]. intros [e ts2] [He Hts2].
  destruct (check TokenParenClose ts2); [|destruct (check TokenComma ts2); [done|apply okp_expected]].
  split; [by split|auto].
Qed.

Lemma forallb_snoc {A} (f : A -> bool) l a : forallb f (l ++ [a]) = forallb f l && f a.
Proof. rewrite forallb_app. cbn [forallb]. by rewrite andb_true_r. Qed.

Lemma parseV1List_ok ts : tokens ts -> yields chainable (parseV1List ternary ts).
Proof.
  intros Hts. unfold parseV1List. set (Q := fun (st : list expr * Z) us => forallb (prints false) st.1 = true /\ tokens us).
  eapply okp_bind; [apply (loop_okp _ Q Q)|intros [st ts1] [Hst Hts1]; split; [by split|auto]]; [|by split; auto].
  intros st us [Hst Hus]. unfold list_step. destruct (check TokenBracketClose us); [by split|].
  destruct (check TokenEOF us); [apply okp_expected|]. eapply okp_bind; [by apply Hternary|]. intros [e us1] [He Hus1].
  assert (Hst' : forallb (prints false) (st.1 ++ [x_n e]) = true) by (by rewrite forallb_snoc, Hst, He).
  destruct (check TokenComma us1); [by split; auto|]. destruct (negb _); [apply okp_expected|by split].
Qed.

Definition entries_ok (st : map_state) (ts : list Token) : Prop :=
  forallb (fun kv => prints false kv.2) (ms_entries st) = true
  /\ forallb (fun kv => key kv.1) (ms_entries st) = true
  /\ NoDup ((ms_entries st).*1) /\ (forall k, k ∈ (ms_entries st).*1 -> k ∈ ms_seen st) /\ tokens ts.

Lemma entries_snoc st us k v lk ts : entries_ok st us -> k ∉ ms_seen st -> key k = true -> prints false v = true ->
  tokens ts -> entries_ok (mkMap (ms_entries st ++ [(k, v)]) ({[k]} ∪ ms_seen st) lk) ts.
Proof.
  intros (H1 & H2 & H3 & H4 & _) Hk Hkey Hv Hts. unfold entries_ok. cbn [ms_entries ms_seen].
  rewrite !forallb_snoc, H1, H2, fmap_app. cbn [fst snd fmap list_fmap]. rewrite Hkey, Hv.
  repeat split; [|set_solver|done]. apply NoDup_app. split; [done|]. split; [|apply NoDup_singleton].
  intros x Hx Hx2. apply list_elem_of_singleton in Hx2 as ->. auto.
Qed.

Lemma map_step_ok st ts : entries_ok st ts ->
  okp (fun r => match r with Continue s' ts' | Done s' ts' => entries_ok s' ts' end) (map_step ternary false st ts).
Proof.
  intros Hst. pose proof Hst as (_ & _ & _ & _ & Hts). unfold map_step.
  destruct (check TokenBraceClose ts); [done|]. destruct (isType TokenEOF _); [apply okp_expected|].
  unfold map_key_ok. destruct (isType TokenString _); [done|].
  destruct (v1IsNameToken (cur ts)) eqn:Hn; [|done]. cbn [negb].
  destruct (ContainsRune _ 58) eqn:H58; [done|]. cbn [mbind result_bind]. apply okp_skip. intros [].
  destruct (ContainsRune _ 46) eqn:H46; [done|]. case_bool_decide as Hseen; [done|].
  destruct (lexed_name _ (tokens_lexed ts Hts) Hn) as [_ Hshape].
  assert (Hkey : key (tLiteral (cur ts)) = true) by (by apply shape_key).
  destruct (negb (check TokenColon (v1Take ts))).
  { cbn [andb]. destruct (_ || _); [done|]. destruct (isOp _ _); [done|apply okp_expected]. }
  apply okp_skip. intros []. eapply okp_bind; [apply Hternary; auto|]. intros [v ts3] [Hv Hts3].
  destruct (check TokenComma ts3); [eapply entries_snoc; by eauto|].
  destruct (negb _); [apply okp_expected|eapply entries_snoc; by eauto].
Qed.

Lemma parseV1Map_ok ts : tokens ts -> yields chainable (parseV1Map ternary ts).
Proof.
  intros Hts. unfold parseV1Map, parseV1MapWith.
  eapply okp_bind; [apply (loop_okp _ entries_ok entries_ok); [apply map_step_ok|]|].
  - repeat split; [constructor|set_solver|auto].
  - intros [st ts1] (H1 & H2 & H3 & _ & Hts1). split; [|auto]. split; [|done]. cbn [x_n printable_with].
    by rewrite H1, H2, distinct_NoDup.
Qed.

(** *** Names and calls *)

Lemma plain_word_segment s : plain_word s = true -> segment s = true.
Proof. unfold plain_word, word. by intros [[-> _]%andb_true_iff _]%andb_true_iff. Qed.

Lemma parseV1FunctionCall_ok ts : tokens ts -> plain_word (tLiteral (cur ts)) = true ->
  memS (tLiteral (cur ts)) value_words = false -> yields chainable (parseV1FunctionCall asOfOutside ternary ts).
Proof.
  intros Hts Hw Hv. unfold parseV1FunctionCall. destruct (v1IsCallableName _) eqn:Hc; [|done]. cbn [negb].
  destruct (retired_call _) eqn:Hret; [done|]. destruct (memS _ bodyCallKinds) eqn:Hbody; [done|].
  destruct (memS _ retiredExprBuiltins) eqn:Hold; [done|]. destruct (_ =s go "caller") eqn:Hcaller; [done|].
  destruct (_ && asOfOutside); [done|].
  eapply okp_bind; [apply parseV1CallArgs_ok; auto|].
  intros [[[args named] lk] ts1] [(A1 & A2 & A3 & _ & A5) Hts1].
  destruct (isRetiredBodyAccessorCall _ _ _) eqn:Hacc; [done|].
  destruct (_ && _) eqn:Hcont; [done|]. cbn [okp]. split; [|done]. split; [|done]. cbn [x_n printable_with].
  rewrite A1, A2, A3. change ([] =s []) with true. cbn [negb andb is_nil_node]. unfold call_ok, dot_word.
  rewrite Hw, (plain_word_segment _ Hw), Hc, Hv, Hret, Hbody, Hold, Hcaller, A5, Hacc, Hcont by done. done.
Qed.

Lemma parseV1ConstructCall_ok ts : tokens ts -> memS (tLiteral (cur ts)) invocationKindKeywords = true ->
  tType (cur (v1Take ts)) = TokenIdentifier -> yields chainable (parseV1ConstructCall ternary ts).
Proof.
  intros Hts Hkind Hty. unfold parseV1ConstructCall. destruct (ContainsAny _ _) eqn:Hc; [done|].
  destruct (negb _); [done|].
  eapply okp_bind; [apply parseV1CallArgs_ok; auto|].
  intros [[[args named] lk] ts1] [(A1 & A2 & A3 & A4 & _) Hts1]. cbn [okp]. split; [|done]. split; [|done].
  cbn [x_n printable_with]. rewrite A1, A2, A3.
  destruct (tLiteral (cur ts) =s []) eqn:Hk; [apply eqs_true in Hk; by rewrite Hk in Hkind|].
  apply eqs_false in Hk. rewrite (A4 Hk), Hkind, plain_token by auto. done.
Qed.

Lemma name_root_ok text g : word text = true -> text <> go "null" ->
  (g || bool_decide (keyword_type text = TokenIdentifier)) = true ->
  prints g (name_root text) = true /\ minus_literal (name_root text) = false /\ open_ended (name_root text) = true.
Proof.
  intros Hw Hnull Hk. unfold name_root. destruct (text =s go "true") eqn:E1; [done|].
  destruct (text =s go "false") eqn:E2; [done|]. destruct (text =s go "nil") eqn:E3; [done|].
  cbn [printable_with]. unfold ident_ok. rewrite Hw, Hk. apply eqs_false in Hnull.
  unfold word_values, memS. cbn [fmap list_fmap existsb]. by rewrite E1, E2, E3, Hnull.
Qed.

Lemma cur_take ts : tType (cur ts) <> TokenEOF -> cur (v1Take ts) = peekAhead 1 ts.
Proof. intros Hty. destruct (take_tail ts Hty) as (t & ts' & -> & ->). by destruct ts'. Qed.

Lemma parseV1Name_ok ts : tokens ts -> tType (cur ts) = TokenIdentifier ->
  yields chainable (parseV1Name asOfOutside ternary ts).
Proof.
  intros Hts Hty. unfold parseV1Name. destruct (HasPrefix _ _) eqn:Hdot; [done|].
  destruct (lexed_name _ (tokens_lexed ts Hts)) as [Hkw Hshape]; [unfold v1IsNameToken; by rewrite Hty|].
  destruct (v1PathSegments (cur ts)) as [segs|] eqn:Hsegs; [|done].
  apply segments_shape in Hsegs as (root & segs' & -> & Hsegs & Hfirst); [|done].
  rewrite Hdot in Hfirst. destruct Hfirst as [Hw Hlit]. cbn [mbind result_bind].
  destruct (_ =s go "null") eqn:Hnull; [done|]. apply eqs_false in Hnull.
  assert (Hmember : yields chainable
    (v1MemberChain ternary (mkV1 (name_root (sg_text root)) 0) segs' false (v1Take ts))).
  { destruct (name_root_ok (sg_text root) true Hw Hnull eq_refl) as (P1 & P2 & P3).
    apply v1MemberChain_ok; [done|done|by auto|]. cbn [x_n]. destruct segs' as [|sg segs'].
    - apply name_root_ok; [done|done|]. rewrite Hlit, <- Hkw, Hty by done. done.
    - apply Forall_cons in Hsegs as [Hsg Hsegs]. split; [|done]. unfold field_ok. by rewrite P3. }
  destruct segs' as [|sg segs']; [|done]. specialize (Hlit eq_refl). rewrite Hlit in *.
  assert (Hcur : cur (v1Take ts) = peekAhead 1 ts) by (apply cur_take; congruence).
  destruct (_ && isInvocationKindKeyword _) eqn:Hk.
  { apply andb_true_iff in Hk as [[[Hid _]%andb_true_iff _]%andb_true_iff Hk].
    apply parseV1ConstructCall_ok; [done|done|]. rewrite Hcur. by apply isType_true. }
  destruct (_ && (_ =s go "spec")); [done|]. destruct (_ && (_ =s go "trait")); [done|].
  destruct (_ && isType TokenParenOpen (peekAhead 2 ts)); [done|].
  destruct (_ && negb (_ =s go "false")) eqn:Hcall; [|done].
  apply andb_true_iff in Hcall as [[_ Ht%negb_true_iff]%andb_true_iff Hf%negb_true_iff].
  apply parseV1FunctionCall_ok; [done|..].
  - unfold plain_word. by rewrite Hw, <- Hkw, Hty.
  - apply eqs_false in Hnull. unfold value_words, memS. cbn [fmap list_fmap existsb]. by rewrite Ht, Hf, Hnull.
Qed.

(** *** Primaries *)

Lemma v1Number_ok tok lit :
  okp (fun v => parsed_lit v = true /\ (HasPrefix lit (go "-") = false -> minus_literal (LiteralExpr v) = false))
    (v1Number tok lit).
Proof.
  unfold v1Number. destruct (ParseNumericLiteral lit) as [v|] eqn:Hv; [|done]. cbn [okp].
  split; [by eapply numeric_parsed_lit|]. intros Hm. by apply (numeric_unsigned lit v Hv Hm).
Qed.

(** A primary prints; only a number token with a minus sign gives a literal
    with one. *)
Definition primary_prints (ts : list Token) (r : v1Expr * list Token) : Prop :=
  prints false (x_n r.1) = true /\ tokens r.2
  /\ (minus_literal (x_n r.1) = true ->
      isType TokenNumber (cur ts) && HasPrefix (tLiteral (cur ts)) (go "-") = true /\ cur r.2 = peekAhead 1 ts).

Lemma primary_chainable ts r : yields chainable r -> okp (primary_prints ts) r.
Proof. destruct r as [[e us]|]; [|done]. intros [[H1 H2] H3]. split; [done|]. split; [done|]. cbn [fst]. congruence. Qed.

Lemma primary_lambda_ok ts : tokens ts -> okp (primary_prints ts) (parseV1Lambda ternary ts).
Proof.
  intros Hts. pose proof (parseV1Lambda_ok ts Hts) as Hl. destruct (parseV1Lambda ternary ts) as [[e us]|]; [|done].
  destruct Hl as [[H1 H2] H3]. split; [done|]. split; [done|]. cbn [fst]. by destruct (x_n e).
Qed.

Lemma parseV1Primary_ok ts : tokens ts -> okp (primary_prints ts) (parseV1Primary asOfOutside ternary ts).
Proof.
  intros Hts. unfold parseV1Primary. destruct (tokens_cur ts Hts) as [_ Hstr].
  destruct (tType (cur ts)) eqn:Hty; try done.
  - destruct (v1IsArrow _); [by apply primary_lambda_ok|]. by apply primary_chainable, parseV1Name_ok.
  - eapply okp_bind; [apply v1Number_ok|]. intros v [Hv Hm]. split; [done|]. split; [by apply tokens_take|]. cbn [fst snd x_n].
    intros Hminus. rewrite (proj2 (isType_true _ _) Hty). split; [|apply cur_take; congruence].
    destruct (HasPrefix _ _); [done|]. rewrite (Hm eq_refl) in Hminus. done.
  - split; [|by split; [apply tokens_take|]]. cbn [fst x_n printable_with parsed_lit]. apply forallb_forall. intros r Hr.
    apply Z.leb_le. specialize (Hstr eq_refl). rewrite List.Forall_forall in Hstr. by apply Hstr.
  - by destruct (_ =s go "$").
  - destruct (v1LambdaAhead _); [by apply primary_lambda_ok|]. by apply primary_chainable, parseV1Paren_ok.
  - by apply primary_chainable, parseV1Map_ok.
  - by apply primary_chainable, parseV1List_ok.
  - split; [done|]. by split; [apply tokens_take|].
Qed.

Lemma parseV1Postfix_ok ts : tokens ts ->
  isType TokenNumber (cur ts) && HasPrefix (tLiteral (cur ts)) (go "-")
    && v1StartsPostfix (peekAhead 1 ts) = false ->
  yields (fun n => prints false n = true) (parseV1Postfix asOfOutside ternary ts).
Proof.
  intros Hts Hneg. unfold parseV1Postfix. eapply okp_bind; [by apply parseV1Primary_ok|].
  intros [e ts1] (H1 & H2 & H3). cbn [fst snd] in *.
  assert (Hgo : yields (fun n => prints false n = true) (parseV1PostfixFrom ternary e ts1)).
  { apply parseV1PostfixFrom_ok. split; [done|]. split; [|done]. intros Hm. destruct (H3 Hm) as [Hn ->].
    by rewrite Hn in Hneg. }
  destruct (x_n e) eqn:He; try exact Hgo. by rewrite <- He in H1.
Qed.

(** After a postfix a number is not a literal any more. *)
Definition chained (n : expr) : Prop :=
  match n with MemberExpr _ _ _ | CallExpr _ _ _ _ _ => True | _ => False end.

Lemma v1MemberChain_chained base segs opt ts : segs <> [] \/ chained (x_n base) ->
  okp (fun '(e, _) => chained (x_n e)) (v1MemberChain ternary base segs opt ts).
Proof.
  revert base opt. induction segs as [|seg segs IH]; intros base opt Hb; cbn [v1MemberChain].
  { by destruct Hb. }
  assert (Hnext : okp (fun '(e, _) => chained (x_n e)) (match v1ChainLink (sg_tok seg) [x_links base] with
    | Err e => Err e
    | Ok links => v1MemberChain ternary (mkV1 (MemberExpr (x_n base) (sg_text seg) opt) links) segs false ts
    end)).
  { destruct (v1ChainLink _ _) as [lk|]; [|done]. apply IH. by right. }
  destruct segs; [|done]. destruct (check _ _); [|done]. destruct opt; [done|].
  unfold parseV1MethodCall. destruct (negb _); [done|]. destruct (_ =s go "contains"); [done|].
  apply okp_skip. intros [[[args named] lk] ts1]. by apply okp_skip.
Qed.

Lemma v1PathSegments_some tok : okp (fun segs => segs <> []) (v1PathSegments tok).
Proof.
  unfold v1PathSegments. destruct (ContainsRune _ 58); [done|]. destruct (ContainsRune _ 45); [done|].
  assert (Hs : forall off s, okp (fun segs => segs <> []) (path_segments tok off (Split s 46))).
  { intros off s. destruct (path_segments _ _ _) as [segs|] eqn:Hp; [|done]. apply path_segments_texts in Hp as [Hp _].
    cbn [okp]. intros ->. by destruct (Split_nonempty s 46). }
  by destruct (HasPrefix _ _).
Qed.

Lemma postfix_step_chained base ts : v1StartsPostfix (cur ts) = true \/ chained (x_n base) ->
  okp (fun r => match r with Continue s' _ | Done s' _ => chained (x_n s') end) (postfix_step ternary base ts).
Proof.
  intros Hb. unfold postfix_step, v1StartsPostfix in *.
  destruct (isType TokenIdentifier (cur ts) && HasPrefix _ _).
  { eapply okp_bind; [apply v1PathSegments_some|]. intros segs Hs.
    eapply okp_bind; [apply v1MemberChain_chained; by left|]. by intros [e us]. }
  destruct (isType TokenDotQuestion (cur ts)); [clear Hb|by destruct Hb].
  destruct (isType TokenNumber _); [done|]. destruct (_ || _); [done|].
  eapply okp_bind; [apply v1PathSegments_some|]. intros segs Hs.
  eapply okp_bind; [apply v1MemberChain_chained; by left|]. by intros [e us].
Qed.

Lemma parseV1PostfixFrom_chained base ts : v1StartsPostfix (cur ts) = true ->
  okp (fun '(e, _) => chained (x_n e)) (parseV1PostfixFrom ternary base ts).
Proof.
  intros Hs. unfold parseV1PostfixFrom, loop. cbn [iter].
  pose proof (postfix_step_chained base ts (or_introl Hs)) as H1.
  destruct (postfix_step ternary base ts) as [[s' ts'|e ts']|e]; cbn [okp] in *; [|done|done].
  apply (iter_okp _ (fun s _ => chained (x_n s)) (fun s _ => chained (x_n s))); [|done].
  intros s us Hch. by apply postfix_step_chained; right.
Qed.

Lemma parseV1UngluedNegative_ok ts : tokens ts -> isType TokenNumber (cur ts) = true ->
  v1StartsPostfix (peekAhead 1 ts) = true ->
  yields (fun n => prints false n = true) (parseV1UngluedNegative ternary ts).
Proof.
  intros Hts Hty Hpost. unfold parseV1UngluedNegative. eapply okp_bind; [apply v1Number_ok|]. intros v [Hv Hm].
  apply isType_true in Hty. specialize (Hm (lexed_number_magnitude _ (tokens_lexed ts Hts) Hty)).
  assert (Hcur : cur (v1Take ts) = peekAhead 1 ts) by (apply cur_take; congruence).
  pose proof (parseV1PostfixFrom_chained (mkV1 (LiteralExpr v) 0) (v1Take ts) ltac:(by rewrite Hcur)) as Hch.
  assert (Hp : yields (fun n => prints false n = true) (parseV1PostfixFrom ternary (mkV1 (LiteralExpr v) 0) (v1Take ts))).
  { apply parseV1PostfixFrom_ok. split; [exact Hv|]. split; [|auto]. cbn [x_n]. by rewrite Hm. }
  destruct (parseV1PostfixFrom _ _ _) as [[e ts']|]; [|done]. destruct Hp as [He Hts'].
  cbn [mbind result_bind okp] in *. split; [|done]. cbn [x_n printable_with]. rewrite He. by destruct (x_n e).
Qed.

(** *** The levels *)

Abbreviation prints_all := (fun p : list Token -> result parse_error (v1Expr * list Token) =>
  forall ts, tokens ts -> yields (fun n => prints false n = true) (p ts)).

Lemma v1NegateLiteral_ok n lit : prints false n = true -> v1NegateLiteral n = Some lit -> prints false lit = true.
Proof.
  destruct n as [| | | | | | | | | | |v| |]; try done. destruct v as [| |z|z| | |]; try done; cbn [v1NegateLiteral printable_with parsed_lit].
  - destruct (Z.leb_spec 0 z); [|done]. intros Hin [= <-]. cbn [printable_with parsed_lit].
    unfold in_int64, between, int64_min, int64_max in *. bprop. apply andb_true_iff. split; apply Z.leb_le; lia.
  - destruct (f64_leb _ _); [|done]. by intros _ [= <-].
Qed.

Lemma prefix_body_ok unary ts : prints_all unary -> tokens ts ->
  isType TokenBang (cur ts) || isOp (go "-") (cur ts) = true ->
  yields (fun n => prints false n = true) (prefix_body unary ts).
Proof.
  intros Hu Hts Htok. unfold prefix_body. apply okp_skip. intros [].
  eapply okp_bind; [apply Hu; auto|]. intros [e ts2] [He Hts2].
  destruct (isOp (go "-") (cur ts)) eqn:Hm.
  - destruct (v1NegateLiteral (x_n e)) as [lit|] eqn:Hl; (split; [|done]); [by eapply v1NegateLiteral_ok|].
    unfold isOp in Hm. apply andb_true_iff in Hm as [_ Hm]. apply eqs_true in Hm.
    cbn [x_n printable_with]. by rewrite He, Hm, Hl.
  - split; [|done]. rewrite orb_false_r in Htok. apply isType_true in Htok.
    cbn [x_n printable_with]. by rewrite He, (lexed_bang _ (tokens_lexed ts Hts) Htok).
Qed.

Lemma unary_body_ok prefixed : 
  (forall ts, tokens ts -> isType TokenBang (cur ts) || isOp (go "-") (cur ts) = true ->
     yields (fun n => prints false n = true) (prefixed ts)) ->
  prints_all (unary_body asOfOutside ternary prefixed).
Proof.
  intros Hp ts Hts. unfold unary_body. destruct (isType TokenBang _ || _) eqn:Hpre; [by apply Hp|].
  destruct (_ && v1StartsPostfix _) eqn:Hneg; [|by apply parseV1Postfix_ok].
  apply andb_true_iff in Hneg as [[Hn _]%andb_true_iff Hs]. by apply parseV1UngluedNegative_ok.
Qed.

Lemma v1Binary_prints tok op l r : prints false (x_n l) = true -> prints false (x_n r) = true -> memS op operators = true ->
  okp (fun e => prints false (x_n e) = true) (v1Binary tok op l r).
Proof. intros Hl Hr Hop. apply okp_skip. intros lk. cbn [okp x_n printable_with]. by rewrite Hl, Hr, Hop. Qed.

Lemma parseV1LeftAssoc_ok next op : prints_all next -> (forall t name, op t = Some name -> memS name operators = true) ->
  prints_all (parseV1LeftAssoc next op).
Proof.
  intros Hnext Hop ts Hts. unfold parseV1LeftAssoc. eapply okp_bind; [by apply Hnext|]. intros [l ts1] Hl.
  set (Q := fun (e : v1Expr) us => prints false (x_n e) = true /\ tokens us).
  apply (loop_okp _ Q Q); [|exact Hl]. intros lhs us [Hlhs Hus]. unfold left_assoc_step.
  destruct (op (cur us)) as [name|] eqn:Ho; [|by split]. apply okp_skip. intros [].
  eapply okp_bind; [apply Hnext; auto|]. intros [r us2] [Hr Hus2].
  eapply okp_bind; [apply v1Binary_prints; by eauto|]. intros e He. by split.
Qed.

Lemma operator_in ops : forallb (fun op => memS op operators) ops = true -> forall t name,
  v1OperatorIn ops t = Some name -> memS name operators = true.
Proof.
  intros Hops t name. unfold v1OperatorIn. destruct (_ && _) eqn:Hb; [|done]. intros [= <-].
  apply andb_true_iff in Hb as [_ Hm]. apply memS_In in Hm. rewrite forallb_forall in Hops. by apply Hops.
Qed.

Lemma operator_token ty s : memS s operators = true -> forall t name, v1TokenOp ty s t = Some name -> memS name operators = true.
Proof. intros Hs t name. unfold v1TokenOp. destruct (isType ty t); [|done]. by intros [= <-]. Qed.

Lemma operator_comparison t op : v1ComparisonOp t = Some op -> memS op operators = true.
Proof.
  unfold v1ComparisonOp. destruct (tType t); try done; [|by intros [= <-]..].
  destruct (memS _ _) eqn:Hm; [|done]. intros [= <-]. apply memS_In in Hm.
  cbn [comparisonOps fmap list_fmap In] in Hm. by repeat destruct Hm as [<-|Hm].
Qed.

Lemma ternary_body_ok unary : prints_all unary -> prints_all (ternary_body ternary unary).
Proof.
  intros Hu.
  assert (Hco : prints_all (parseV1Coalesce unary)).
  { do 3 (apply parseV1LeftAssoc_ok; [|by apply operator_in || by apply operator_token]). exact Hu. }
  assert (Hcmp : prints_all (parseV1Compare unary)).
  { intros ts Hts. unfold parseV1Compare. eapply okp_bind; [by apply Hco|]. intros [l ts1] [Hl Hts1].
    destruct (v1ComparisonOp (cur ts1)) as [op|] eqn:Ho; [|by split]. apply okp_skip. intros [].
    eapply okp_bind; [apply Hco; auto|]. intros [r ts3] [Hr Hts3]. destruct (v1ComparisonOp (cur ts3)); [done|].
    eapply okp_bind; [apply v1Binary_prints; by eauto using operator_comparison|]. intros e He. by split. }
  assert (Hor : prints_all (parseV1Or unary)).
  { do 2 (apply parseV1LeftAssoc_ok; [|by apply operator_token]). exact Hcmp. }
  intros ts Hts. unfold ternary_body. eapply okp_bind; [by apply Hor|]. intros [c ts1] [Hc Hts1].
  destruct (negb _); [by split|]. apply okp_skip. intros [].
  eapply okp_bind; [apply Hternary; auto|]. intros [t ts3] [Ht Hts3]. destruct (negb _); [apply okp_expected|].
  apply okp_skip. intros []. eapply okp_bind; [apply Hternary; auto|]. intros [e ts5] [He Hts5].
  split; [|done]. cbn [x_n printable_with]. by rewrite Hc, Ht, He.
Qed.
End Nested.

Lemma parsers_ok budget :
  (forall ts, tokens ts -> yields (fun n => prints false n = true) (parseV1Ternary asOfOutside budget ts))
  /\ (forall ts, tokens ts -> yields (fun n => prints false n = true) (parseV1Unary asOfOutside budget ts)).
Proof.
  unfold parseV1Ternary, parseV1Unary. induction budget as [|b [IHt IHu]].
  - cbn. split; [done|]. by apply unary_body_ok.
  - cbn [parsers]. destruct (parsers asOfOutside b) as [tb ub]. cbn [fst snd] in *.
    assert (Ht : forall ts, tokens ts -> yields (fun n => prints false n = true) (ternary_body tb ub ts))
      by (by apply ternary_body_ok).
    split; [exact Ht|]. apply unary_body_ok; [exact Ht|]. intros ts Hts Hpre. by apply prefix_body_ok.
Qed.
End Parsed.

(** Every tree read from a source of characters prints. *)
Lemma parsed_prints `{UnicodeTables} src n : nonneg src -> ParseV1Expression src = Ok n ->
  printable_with parsed_lit false n = true /\ links n <= MaxExpressionChain.
Proof.
  intros Hsrc Hp. unfold ParseV1Expression in Hp. pose proof (parse_whole_post src) as Hgood.
  unfold parse_whole in *. revert Hp Hgood. generalize v1MaxDepth as b. intros b.
  destruct (Tokenize src) as [toks|] eqn:Ht; [|done]. apply Tokenize_ok in Ht; [|done].
  destruct (parsers_ok false b) as [Hy _]. specialize (Hy toks Ht).
  destruct (parseV1Ternary false b toks) as [[e ts]|]; [|done]. destruct Hy as [Hy _]. cbn [mbind result_bind].
  destruct (v1ExpectEnd ts); [|done]. cbn [mbind result_bind]. intros [= <-] (_ & [Hl _] & _). done.
Qed.

Lemma parsed_reparses `{UnicodeTables} (src : gostring) (n : expr) :
  nonneg src -> ParseV1Expression src = Ok n ->
  floats_read n = true -> (nesting (reparen n) < v1MaxDepth)%nat ->
  ParseV1Expression (FormatExpr n) = Ok (reparen n) /\ FormatExpr (reparen n) = FormatExpr n.
Proof.
  intros Hsrc Hp Hf Hd. destruct (parsed_prints src n Hsrc Hp) as [Hpr Hl].
  apply printable_floats in Hpr; [|done]. pose proof (FormatExpr_reparen n false Hpr) as Heq.
  split; [|done]. rewrite <- Heq. apply parse_printed;
    [by apply printable_reparen|by apply (bracketed_reparen n false)|by rewrite links_reparen|done].
Qed.

(** ** Theorems *)


