(* ===== verification/Meaning.v ===== *)
(** Printing against evaluating: the text of a parsed expression means what the
    expression means. *)

From S2P Require Import Prelude GoText Strconv Numbers ExprNumbers.
From S2P Require Import Values ValueFacts Ast Scope Eval EvalRel EvalFacts EvalTotal.
From S2P Require Import Lexer LexerFacts Refusals Parser ParserFacts TokenShapes Printer Canonical Lexing Reparse RoundTrip Printability.

Lemma strip_child (c : expr) (b : bool) : strip (if b then ParenExpr (reparen c) else reparen c) = strip (reparen c).
Proof. by destruct b. Qed.

Lemma reparen_is_nil n : is_nil_node (reparen n) = is_nil_node n.
Proof. destruct n; try done. cbn. by case_match. Qed.

(** The parentheses the printer adds are only parentheses. *)
Lemma strip_reparen n : strip (reparen n) = strip n.
Proof.
  assert (HF : forall l, Forall (fun n => strip (reparen n) = strip n) l -> strip <$> (reparen <$> l) = strip <$> l).
  { intros l Hl. induction Hl as [|x l Hx Hl IH]; [done|]. cbn. by rewrite Hx, IH. }
  assert (HM : forall l : list (gostring * expr), Forall (fun kv => strip (reparen kv.2) = strip kv.2) l ->
    (fun kv => (kv.1, strip kv.2)) <$> ((fun kv => (kv.1, reparen kv.2)) <$> l) = (fun kv => (kv.1, strip kv.2)) <$> l).
  { intros l Hl. induction Hl as [|x l Hx Hl IH]; [done|]. cbn. by rewrite Hx, IH. }
  induction n using expr_ind'; cbn [reparen strip]; try done.
  - by rewrite strip_child, IHn.
  - rewrite HF, HM by done. f_equal. destruct (is_nil_node n) eqn:En; [done|].
    rewrite strip_child, IHn. destruct (nodePrec n <? precPostfix); [done|]. by rewrite reparen_is_nil, En.
  - by rewrite strip_child, IHn.
  - case_match; cbn [strip]; by rewrite !strip_child, IHn1, IHn2.
  - by rewrite !strip_child, IHn1, IHn2, IHn3.
  - by rewrite IHn.
  - by rewrite HF.
  - by rewrite HM.
Qed.


