(* ===== verification/Topics.v ===== *)
(** Event topics: component/events/pattern.go, with the topic constants of
    event.go and the [path.Match] a pattern segment is matched with.

    [path.Match] steps through the name by bytes and decodes runes where a class
    or a [?] reads one; topics and patterns are ASCII names, on which the two
    agree, and the model steps by characters. *)

From S2P Require Import Prelude GoText.

(** ** path.Match *)

Inductive pattern_error : Type := ErrBadPattern | PatternFuel.

(** scanChunk: leading stars, the chunk up to the next star outside a class,
    and what follows it. *)
Fixpoint scan_stars (p : gostring) : bool * gostring :=
  match p with
  | c :: p' => if c =? 42 then (true, (scan_stars p').2) else (false, p)
  | [] => (false, [])
  end.

Fixpoint scan_chunk_body (inrange : bool) (p : gostring) : gostring * gostring :=
  match p with
  | [] => ([], [])
  | c :: p' =>
      if c =? 92 then
        match p' with
        | d :: p'' => let '(a, b) := scan_chunk_body inrange p'' in (c :: d :: a, b)
        | [] => ([c], [])
        end
      else if (c =? 42) && negb inrange then ([], p)
      else let '(a, b) := scan_chunk_body
                            (if c =? 91 then true else if c =? 93 then false else inrange) p' in
           (c :: a, b)
  end.

Definition scanChunk (p : gostring) : bool * gostring * gostring :=
  let '(star, p1) := scan_stars p in
  let '(chunk, rest) := scan_chunk_body false p1 in
  (star, chunk, rest).

(** getEsc: one character of a class, possibly escaped. *)
Definition getEsc (chunk : gostring) : result pattern_error (rune * gostring) :=
  match chunk with
  | [] => Err ErrBadPattern
  | c :: t =>
      if (c =? 45) || (c =? 93) then Err ErrBadPattern
      else
        match (if c =? 92 then t else chunk) with
        | [] => Err ErrBadPattern
        | r :: [] => Err ErrBadPattern
        | r :: nchunk => Ok (r, nchunk)
        end
  end.

(** The ranges of a class after its [[] and [^]: whether [r] is in one of them,
    and the chunk after the closing bracket.  [first] is [nrange == 0]. *)
Fixpoint class_ranges (fuel : nat) (r : rune) (first matched : bool) (chunk : gostring)
    : result pattern_error (bool * gostring) :=
  match fuel with
  | O => Err PatternFuel
  | S f =>
      match chunk with
      | c :: t =>
          if (c =? 93) && negb first then Ok (matched, t)
          else
            '(lo, t1) ← getEsc chunk;
            '(hi, t2) ← (match t1 with
                         | d :: t1' => if d =? 45 then getEsc t1' else Ok (lo, t1)
                         | [] => Ok (lo, t1)
                         end);
            class_ranges f r false (matched || between lo hi r) t2
      | [] => Err ErrBadPattern
      end
  end.

(** matchChunk on the rest of a chunk: [None] in place of the text once the
    match has failed, after which the chunk is only checked. *)
Fixpoint match_chunk_loop (fuel : nat) (chunk : gostring) (s : option gostring)
    : result pattern_error (option gostring) :=
  match fuel with
  | O => Err PatternFuel
  | S f =>
      match chunk with
      | [] => Ok s
      | c :: t =>
          let s := match s with Some [] => None | _ => s end in
          if c =? 91 then
            let '(r, s1) := match s with Some (d :: s') => (d, Some s') | _ => (0, None) end in
            let '(negated, t1) := match t with
                                  | d :: t' => if d =? 94 then (true, t') else (false, t)
                                  | [] => (false, t)
                                  end in
            '(matched, t2) ← class_ranges (S (length t1)) r true false t1;
            match_chunk_loop f t2 (if Bool.eqb matched negated then None else s1)
          else if c =? 63 then
            match_chunk_loop f t
              (match s with Some (d :: s') => if d =? 47 then None else Some s' | _ => None end)
          else
            match (if c =? 92 then t else chunk) with
            | [] => Err ErrBadPattern
            | e :: t' =>
                match_chunk_loop f t'
                  (match s with Some (d :: s') => if e =? d then Some s' else None | _ => None end)
            end
      end
  end.

(** The rest of the name after the chunk, or no match. *)
Definition matchChunk (chunk s : gostring) : result pattern_error (option gostring) :=
  match_chunk_loop (S (length chunk)) chunk (Some s).

(** The syntax check of the pattern left after a failed match. *)
Fixpoint check_chunks (fuel : nat) (pattern : gostring) : result pattern_error bool :=
  match fuel with
  | O => Err PatternFuel
  | S f =>
      match pattern with
      | [] => Ok false
      | _ =>
          let '(_, chunk, rest) := scanChunk pattern in
          _ ← matchChunk chunk [];
          check_chunks f rest
      end
  end.

(** The search of a starred chunk at later positions: the name after the first
    match that leaves nothing when the pattern ends here. *)
Fixpoint star_search (chunk pattern name : gostring) : result pattern_error (option gostring) :=
  match name with
  | [] => Ok None
  | c :: name' =>
      if c =? 47 then Ok None
      else
        m ← matchChunk chunk name';
        match m with
        | Some t =>
            match pattern, t with
            | [], _ :: _ => star_search chunk pattern name'
            | _, _ => Ok (Some t)
            end
        | None => star_search chunk pattern name'
        end
  end.

Fixpoint path_match (fuel : nat) (pattern name : gostring) : result pattern_error bool :=
  match fuel with
  | O => Err PatternFuel
  | S f =>
      match pattern with
      | [] => Ok (match name with [] => true | _ => false end)
      | _ =>
          let '(star, chunk, rest) := scanChunk pattern in
          if star && (chunk =s []) then Ok (negb (ContainsRune name 47))
          else
            m ← matchChunk chunk name;
            match m, rest with
            | Some [], _ => path_match f rest []
            | Some t, _ :: _ => path_match f rest t
            | _, _ =>
                if star then
                  m ← star_search chunk rest name;
                  match m with
                  | Some t => path_match f rest t
                  | None => check_chunks (S (length rest)) rest
                  end
                else check_chunks (S (length rest)) rest
            end
      end
  end.

(** path.Match *)
Definition PathMatch (pattern name : gostring) : result pattern_error bool :=
  path_match (S (length pattern)) pattern name.

(** ** Match *)

Definition hash : gostring := go "#".
Definition star : gostring := go "*".

(** The default case of matchParts: a literal segment, or a glob inside one. *)
Definition segment_matches (part seg : gostring) : bool :=
  if ContainsAny part (go "*?") then
    match PathMatch part seg with Ok matched => matched | Err _ => false end
  else seg =s part.

Fixpoint matchParts (pattern topic : list gostring) : bool :=
  match pattern with
  | [] => match topic with [] => true | _ => false end
  | part :: pattern' =>
      if part =s hash then
        match pattern' with
        | [] => true
        | _ => existsb (fun skip => matchParts pattern' (drop skip topic)) (seq 0 (S (length topic)))
        end
      else
        match topic with
        | [] => false
        | seg :: topic' =>
            if part =s star then matchParts pattern' topic'
            else segment_matches part seg && matchParts pattern' topic'
        end
  end.

Definition Match (pattern topic : gostring) : bool :=
  if pattern =s hash then true
  else if (pattern =s []) || (topic =s []) then pattern =s topic
  else if pattern =s topic then true
  else matchParts (Split pattern 46) (Split topic 46).

(** ** NormalizePattern *)

(** strings.ReplaceAll(s, "..", ".") *)
Fixpoint replace_dots (s : gostring) : gostring :=
  match s with
  | c :: s' =>
      match s' with
      | d :: s'' => if (c =? 46) && (d =? 46) then 46 :: replace_dots s'' else c :: replace_dots s'
      | [] => [c]
      end
  | [] => []
  end.

(** strings.Contains(s, "..") *)
Fixpoint contains_dots (s : gostring) : bool :=
  match s with
  | c :: s' => match s' with
               | d :: _ => ((c =? 46) && (d =? 46)) || contains_dots s'
               | [] => false
               end
  | [] => false
  end.

Fixpoint collapse_dots (fuel : nat) (s : gostring) : gostring :=
  match fuel with
  | O => s
  | S f => if contains_dots s then collapse_dots f (replace_dots s) else s
  end.

(** strings.Trim(s, ".") *)
Definition trim_dots (s : gostring) : gostring := TrimFunc (Z.eqb 46) s.

Definition NormalizePattern (pattern : gostring) : gostring :=
  let pattern := TrimSpace pattern in
  if pattern =s [] then hash
  else
    let pattern := trim_dots (collapse_dots (length pattern) pattern) in
    if pattern =s [] then hash else pattern.

(** ** Topics *)

Definition TopicGraphNode : gostring := go "graph.node".
Definition TopicGraphNodeCreated : gostring := go "graph.node.created".
Definition TopicGraphNodeDeleted : gostring := go "graph.node.deleted".
Definition TopicGraphNodeUpdated : gostring := go "graph.node.updated".
Definition TopicCacheInvalidate : gostring := go "cache.invalidate".
Definition TopicAuthoringPromote : gostring := go "authoring.promote".
Definition TopicAuthoringDemote : gostring := go "authoring.demote".
Definition TopicAuthoringArm : gostring := go "authoring.arm".
Definition TopicAuthoringDisarm : gostring := go "authoring.disarm".
Definition TopicProvidersReload : gostring := go "providers.reload".

Definition dot : gostring := [46].

Definition GraphSubscriptionPatterns (concept : gostring) (actions : list gostring) : list gostring :=
  let conceptSeg := TrimSpace concept in
  let conceptSeg := if conceptSeg =s [] then hash else conceptSeg in
  match actions with
  | [] => [TopicGraphNode ++ go ".*." ++ conceptSeg]
  | _ => (fun action => TopicGraphNode ++ dot ++ action ++ dot ++ conceptSeg) <$> actions
  end.

Definition BuildTopicWithConcept (baseTopic concept : gostring) : gostring :=
  let concept := TrimSpace concept in
  if concept =s [] then baseTopic else baseTopic ++ dot ++ concept.

Definition TopicNodeCreated : gostring -> gostring := BuildTopicWithConcept TopicGraphNodeCreated.
Definition TopicNodeUpdated : gostring -> gostring := BuildTopicWithConcept TopicGraphNodeUpdated.
Definition TopicNodeDeleted : gostring -> gostring := BuildTopicWithConcept TopicGraphNodeDeleted.

(** bundleFromTopic: the non-empty remainder after [base + "."]. *)
Definition bundleFromTopic (base topic : gostring) : option gostring :=
  let prefix := base ++ dot in
  if negb (HasPrefix topic prefix) then None
  else let rest := TrimSpace (drop (length prefix) topic) in
       if rest =s [] then None else Some rest.

(** The first base that is a prefix decides, with or without a remainder. *)
Fixpoint concept_of_bases (bases : list gostring) (topic : gostring) : option gostring :=
  match bases with
  | [] => None
  | base :: bases' =>
      let prefix := base ++ dot in
      if HasPrefix topic prefix then
        let concept := TrimSpace (drop (length prefix) topic) in
        if concept =s [] then None else Some concept
      else concept_of_bases bases' topic
  end.

Definition ConceptFromGraphNodeTopic (topic : gostring) : option gostring :=
  concept_of_bases [TopicGraphNodeCreated; TopicGraphNodeUpdated; TopicGraphNodeDeleted] topic.

Definition TopicCacheInvalidateForConcept : gostring -> gostring := BuildTopicWithConcept TopicCacheInvalidate.
Definition ConceptFromCacheInvalidateTopic : gostring -> option gostring := bundleFromTopic TopicCacheInvalidate.
Definition TopicAuthoringPromoteForBundle : gostring -> gostring := BuildTopicWithConcept TopicAuthoringPromote.
Definition BundleFromAuthoringPromoteTopic : gostring -> option gostring := bundleFromTopic TopicAuthoringPromote.
Definition TopicAuthoringDemoteForBundle : gostring -> gostring := BuildTopicWithConcept TopicAuthoringDemote.
Definition BundleFromAuthoringDemoteTopic : gostring -> option gostring := bundleFromTopic TopicAuthoringDemote.
Definition TopicAuthoringArmForBundle : gostring -> gostring := BuildTopicWithConcept TopicAuthoringArm.
Definition BundleFromAuthoringArmTopic : gostring -> option gostring := bundleFromTopic TopicAuthoringArm.
Definition TopicAuthoringDisarmForBundle : gostring -> gostring := BuildTopicWithConcept TopicAuthoringDisarm.
Definition BundleFromAuthoringDisarmTopic : gostring -> option gostring := bundleFromTopic TopicAuthoringDisarm.
Definition TopicProvidersReloadFor : gostring -> gostring := BuildTopicWithConcept TopicProvidersReload.
