(* ===== verification/TopicFacts.v ===== *)
(** Facts about topics: segment globs against a declarative reading, [Match]
    against its documented wildcards, and the topic builders with their
    inverses. *)

From S2P Require Import Prelude GoText Topics.

(** ** Segment globs *)

(** A pattern of literals, [?] and [*]: no class and no escape. *)
Definition simple (p : gostring) : Prop := Forall (fun c => c <> 91 /\ c <> 92) p.

Definition no_slash (s : gostring) : Prop := Forall (fun c => c <> 47) s.

(** What a simple pattern means: [*] any run without a slash, [?] one character
    that is not a slash, any other character itself. *)
Inductive glob : gostring -> gostring -> Prop :=
| glob_nil : glob [] []
| glob_star p u s : no_slash u -> glob p s -> glob (42 :: p) (u ++ s)
| glob_any p c s : c <> 47 -> glob p s -> glob (63 :: p) (c :: s)
| glob_char p c s : c <> 42 -> c <> 63 -> glob p s -> glob (c :: p) (c :: s).

Definition char_matches (e d : rune) : bool := if e =? 63 then negb (d =? 47) else e =? d.

(** matchChunk on a simple chunk: character by character. *)
Fixpoint chunk_rest (chunk s : gostring) : option gostring :=
  match chunk, s with
  | [], _ => Some s
  | e :: chunk', d :: s' => if char_matches e d then chunk_rest chunk' s' else None
  | _ :: _, [] => None
  end.

Lemma match_chunk_none fuel chunk : simple chunk -> (length chunk < fuel)%nat ->
  match_chunk_loop fuel chunk None = Ok None.
Proof.
  revert chunk. induction fuel as [|f IH]; intros chunk Hs Hf; [lia|].
  destruct chunk as [|c chunk]; [done|]. apply Forall_cons in Hs as [[H1 H2] Hs].
  cbn [match_chunk_loop length] in *. apply Z.eqb_neq in H1, H2. rewrite H1, H2.
  destruct (c =? 63); apply IH; done || lia.
Qed.

Lemma match_chunk_loop_simple fuel chunk s : simple chunk -> (length chunk < fuel)%nat ->
  match_chunk_loop fuel chunk (Some s) = Ok (chunk_rest chunk s).
Proof.
  revert chunk s. induction fuel as [|f IH]; intros chunk s Hs Hf; [lia|].
  destruct chunk as [|c chunk]; [done|]. apply Forall_cons in Hs as [[H1 H2] Hs].
  cbn [match_chunk_loop length chunk_rest] in *. apply Z.eqb_neq in H1, H2. rewrite H1, H2.
  unfold char_matches. destruct s as [|d s].
  - destruct (c =? 63); (apply match_chunk_none; [done|lia]).
  - destruct (c =? 63).
    + destruct (d =? 47); cbn [negb]; [apply match_chunk_none | apply IH]; done || lia.
    + destruct (c =? d); [apply IH | apply match_chunk_none]; done || lia.
Qed.

Lemma matchChunk_simple chunk s : simple chunk -> matchChunk chunk s = Ok (chunk_rest chunk s).
Proof. intros Hs. apply match_chunk_loop_simple; [done|lia]. Qed.

Lemma chunk_rest_cut chunk s t : chunk_rest chunk s = Some t ->
  exists x, s = x ++ t /\ length x = length chunk.
Proof.
  revert s. induction chunk as [|e chunk IH]; intros s; cbn; [intros [= ->]; by exists []|].
  destruct s as [|d s]; [done|]. destruct (char_matches e d); [|done]. intros Hr.
  apply IH in Hr as (x & -> & Hx). exists (d :: x). cbn. by rewrite Hx.
Qed.

(** A match further right leaves a suffix of what a match further left leaves. *)
Lemma chunk_rest_suffix chunk u v t t' :
  chunk_rest chunk (u ++ v) = Some t -> chunk_rest chunk v = Some t' -> exists k, t = k ++ t'.
Proof.
  intros Ht Ht'. apply chunk_rest_cut in Ht as (x & Heq & Hx). apply chunk_rest_cut in Ht' as (y & -> & Hy).
  rewrite app_assoc in Heq. apply app_eq_app in Heq as (k & [[_ Hk]|[Hk ->]]).
  - exists k. done.
  - assert (Hl : length x = length ((u ++ y) ++ k)) by (by rewrite <- Hk).
    rewrite !length_app in Hl. assert (k = []) as -> by (destruct k; [done|cbn in Hl; lia]). by exists [].
Qed.

Lemma glob_chunk chunk rest s : Forall (fun c => c <> 42) chunk ->
  glob (chunk ++ rest) s <-> exists t, chunk_rest chunk s = Some t /\ glob rest t.
Proof.
  intros Hc. revert s. induction Hc as [|e chunk He _ IH]; intros s; cbn [app chunk_rest].
  { split; [intros Hg; by exists s | by intros (t & [= ->] & Hg)]. }
  unfold char_matches. split.
  - intros Hg. inversion Hg; subst; [done| |].
    + rewrite (proj2 (Z.eqb_neq c 47)) by done. cbn. by apply IH.
    + rewrite (proj2 (Z.eqb_neq e 63)), Z.eqb_refl by done. by apply IH.
  - destruct s as [|d s]; [by intros (? & ? & _)|]. destruct (Z.eqb_spec e 63) as [->|].
    + destruct (Z.eqb_spec d 47); cbn [negb]; [by intros (? & ? & _)|]. intros Hr.
      apply glob_any; [done|]. by apply IH.
    + destruct (Z.eqb_spec e d) as [->|]; [|by intros (? & ? & _)]. intros Hr.
      apply glob_char; [done|done|]. by apply IH.
Qed.

Lemma glob_star_absorb p k s : no_slash k -> glob (42 :: p) s -> glob (42 :: p) (k ++ s).
Proof.
  intros Hk Hg. inversion Hg; subst; [|done]. rewrite app_assoc.
  apply glob_star; [by apply Forall_app_2 | done].
Qed.

Lemma glob_nil_inv s : glob [] s <-> s = [].
Proof. split; [by inversion 1 | intros ->; constructor]. Qed.

(** *** Scanning *)

Definition not_starred (p : gostring) : Prop := match p with c :: _ => c <> 42 | [] => True end.

Lemma scan_stars_spec p : exists k, p = replicate k 42 ++ (scan_stars p).2
  /\ ((scan_stars p).1 = negb (k =? 0)%nat) /\ not_starred (scan_stars p).2.
Proof.
  induction p as [|c p (k & Hp & Hs & Hn)]; [by exists 0%nat|]. cbn [scan_stars].
  destruct (Z.eqb_spec c 42) as [->|].
  - exists (S k). cbn. by rewrite <- Hp.
  - by exists 0%nat.
Qed.

Lemma scan_chunk_simple p : simple p -> 
  let '(chunk, rest) := scan_chunk_body false p in
  p = chunk ++ rest /\ Forall (fun c => c <> 42) chunk /\ (rest = [] \/ exists r, rest = 42 :: r).
Proof.
  intros Hs. induction Hs as [|c p [H1 H2] Hs IH]; cbn [scan_chunk_body]; [by repeat split; [constructor|left]|].
  apply Z.eqb_neq in H1, H2. rewrite H1, H2. destruct (Z.eqb_spec c 42) as [->|Hc]; cbn [andb negb].
  { split; [done|]. split; [constructor|]. right. by exists p. }
  destruct (c =? 93); destruct (scan_chunk_body false p) as [a b]; destruct IH as (-> & Ha & Hb);
    (split; [done|]); (split; [by constructor|done]).
Qed.

Lemma simple_app p1 p2 : simple (p1 ++ p2) <-> simple p1 /\ simple p2.
Proof. apply Forall_app. Qed.

Lemma scanChunk_simple p star chunk rest : simple p -> scanChunk p = (star, chunk, rest) ->
  exists k, p = replicate k 42 ++ chunk ++ rest /\ star = negb (k =? 0)%nat
    /\ Forall (fun c => c <> 42) chunk /\ (rest = [] \/ exists r, rest = 42 :: r)
    /\ simple chunk /\ simple rest /\ (chunk = [] -> rest = [])
    /\ (p <> [] -> (length rest < length p)%nat).
Proof.
  unfold scanChunk. destruct (scan_stars_spec p) as (k & Hp & Hst & Hn).
  destruct (scan_stars p) as [st p1]. cbn [fst snd] in *. intros Hs Hc.
  rewrite Hp in Hs. apply simple_app in Hs as [_ Hs1].
  pose proof (scan_chunk_simple p1 Hs1) as Hb. destruct (scan_chunk_body false p1) as [a b].
  injection Hc as <- <- <-. destruct Hb as (-> & Ha & Hb). apply simple_app in Hs1 as [? ?].
  assert (Hempty : a = [] -> b = []).
  { intros ->. destruct Hb as [->|[r ->]]; [done|]. by cbn in Hn. }
  exists k. do 6 (split; [done|]). split; [done|]. intros Hne. rewrite Hp, !length_app, length_replicate.
  destruct a as [|x a]; [|cbn; lia]. rewrite (Hempty eq_refl) in *. cbn.
  destruct k; [by destruct p | lia].
Qed.

Lemma check_chunks_simple fuel p : simple p -> (length p < fuel)%nat -> check_chunks fuel p = Ok false.
Proof.
  revert p. induction fuel as [|f IH]; intros p Hs Hf; [lia|]. cbn [check_chunks].
  destruct p as [|c p]; [done|]. destruct (scanChunk (c :: p)) as [[st chunk] rest] eqn:Hc.
  apply scanChunk_simple in Hc as (k & _ & _ & _ & _ & Hsc & Hsr & _ & Hlen); [|done].
  specialize (Hlen ltac:(done)). rewrite matchChunk_simple by done. cbn [mbind result_bind].
  apply IH; [done|lia].
Qed.

(** The outcome of a search past the first character of [name]: a remainder as
    good for the rest of the pattern as any other match's, or none is good. *)
Definition search_ok (chunk rest name : gostring) (m : option gostring) : Prop :=
  match m with
  | Some t =>
      (exists u v, name = u ++ v /\ chunk_rest chunk v = Some t)
      /\ (forall u v t', name = u ++ v -> u <> [] -> chunk_rest chunk v = Some t' ->
            glob rest t' -> glob rest t)
  | None => forall u v t', name = u ++ v -> u <> [] -> chunk_rest chunk v = Some t' -> ~ glob rest t'
  end.

(** One position further left whose own match is no good changes nothing. *)
Lemma search_ok_skip chunk rest c name m : 
  (forall t, chunk_rest chunk name = Some t -> ~ glob rest t) ->
  search_ok chunk rest name m -> search_ok chunk rest (c :: name) m.
Proof.
  intros Hhere IH.
  assert (Hlater : forall u v t', c :: name = u ++ v -> u <> [] -> chunk_rest chunk v = Some t' ->
    glob rest t' -> exists u', name = u' ++ v /\ u' <> []).
  { intros u v t' Heq Hu Ht' Hg. destruct u as [|a [|b u]]; [done| |].
    - cbn in Heq. injection Heq as _ <-. by apply Hhere in Ht'.
    - injection Heq as -> Heq. by exists (b :: u). }
  destruct m as [t|].
  - destruct IH as [(u & v & -> & Ht) IH]. split; [by exists (c :: u), v|].
    intros u' v' t' Heq Hu Ht' Hg. destruct (Hlater u' v' t') as (w & ? & ?); [done..|]. by eapply IH.
  - intros u' v' t' Heq Hu Ht' Hg. destruct (Hlater u' v' t') as (w & ? & ?); [done..|]. by eapply IH.
Qed.

Lemma search_ok_found chunk rest c name t : no_slash name ->
  rest = [] \/ (exists r, rest = 42 :: r) ->
  chunk_rest chunk name = Some t -> (rest = [] -> t = []) ->
  search_ok chunk rest (c :: name) (Some t).
Proof.
  intros Hn Hrest Ht Hend. split; [by exists [c], name|].
  intros u v t' Heq Hu Ht' Hg. destruct u as [|a u]; [done|]. injection Heq as -> ->.
  destruct (chunk_rest_suffix chunk u v t t') as (k & Hk); [done|done|].
  destruct Hrest as [->|(r & ->)]; [rewrite (Hend eq_refl) in *; constructor|].
  rewrite Hk. apply glob_star_absorb; [|done].
  apply chunk_rest_cut in Ht as (x & Hx & _). rewrite Hk in Hx.
  unfold no_slash in *. rewrite Hx in Hn. apply Forall_app in Hn as [_ Hn]. by apply Forall_app in Hn as [? _].
Qed.

Lemma star_search_simple chunk rest name : simple chunk -> no_slash name ->
  rest = [] \/ (exists r, rest = 42 :: r) ->
  exists m, star_search chunk rest name = Ok m /\ search_ok chunk rest name m.
Proof.
  intros Hc Hn Hrest. induction Hn as [|c name Hcn Hn (m & Hm & IH)]; cbn [star_search].
  { exists None. split; [done|]. intros u v t' Heq Hu. by destruct u. }
  rewrite (proj2 (Z.eqb_neq c 47)), matchChunk_simple by done. cbn [mbind result_bind].
  assert (Hskip : (forall t, chunk_rest chunk name = Some t -> ~ glob rest t) ->
    exists m', star_search chunk rest name = Ok m' /\ search_ok chunk rest (c :: name) m').
  { intros Hhere. exists m. split; [done | by apply search_ok_skip]. }
  destruct (chunk_rest chunk name) as [t|] eqn:Ht; [|by apply Hskip].
  assert (Hfound : (rest = [] -> t = []) ->
    exists m', Ok (Some t) = @Ok pattern_error _ m' /\ search_ok chunk rest (c :: name) m').
  { intros Hend. eexists. split; [done | by apply search_ok_found]. }
  destruct rest as [|r0 r]; [|by apply Hfound].
  destruct t as [|t0 t]; [by apply Hfound|]. apply Hskip. intros t' [= <-] Hg. inversion Hg.
Qed.

(** *** path.Match *)

Lemma glob_stars k p s : no_slash s -> k <> 0%nat ->
  glob (replicate k 42 ++ p) s <-> exists u v, s = u ++ v /\ glob p v.
Proof.
  revert s. induction k as [|k IH]; intros s Hs Hk; [done|]. cbn [replicate app]. split.
  - intros Hg. inversion Hg; subst; [|done]. destruct k as [|k]; [by eexists _, _|].
    rename select (glob (replicate _ _ ++ _) _) into Hg'.
    apply IH in Hg' as (u' & v & -> & Hv); [|by apply Forall_app in Hs as [_ ?]|done].
    exists (u ++ u'), v. by rewrite app_assoc.
  - intros (u & v & -> & Hv). apply Forall_app in Hs as [Hu Hv'].
    apply glob_star; [done|]. destruct k as [|k]; [done|].
    apply IH; [done|done|]. by exists [], v.
Qed.

(** The boolean [b] decides [P]. *)
Definition decides (r : result pattern_error bool) (P : Prop) : Prop :=
  (r = Ok true /\ P) \/ (r = Ok false /\ ~ P).

Lemma decides_iff r P Q : (P <-> Q) -> decides r P -> decides r Q.
Proof. unfold decides. tauto. Qed.

(** One chunk of the pattern, [next] being the match of what follows it. *)
Section Chunk.
Context (chunk rest name : gostring) (next : gostring -> result pattern_error bool).
Context (Hchunk : simple chunk) (Hck : Forall (fun c => c <> 42) chunk) (Hname : no_slash name).
Context (Hrest : rest = [] \/ exists r, rest = 42 :: r).
Context (Hnext : forall t, no_slash t -> decides (next t) (glob rest t)).

Lemma remainder_no_slash u v t : name = u ++ v -> chunk_rest chunk v = Some t -> no_slash t.
Proof.
  intros Hu Ht. unfold no_slash in *. rewrite Hu in Hname. apply chunk_rest_cut in Ht as (x & -> & _).
  apply Forall_app in Hname as [_ Hs]. by apply Forall_app in Hs as [_ ?].
Qed.

(** A remainder no other match improves on decides the starred chunk. *)
Lemma best_decides t u v : name = u ++ v -> chunk_rest chunk v = Some t ->
  (forall u v t', name = u ++ v -> chunk_rest chunk v = Some t' -> glob rest t' -> glob rest t) ->
  decides (next t) (exists u v, name = u ++ v /\ glob (chunk ++ rest) v).
Proof.
  intros Hu Ht Hbest. eapply decides_iff; [|apply Hnext; by eapply remainder_no_slash]. split.
  - intros Hg. exists u, v. split; [done|]. apply glob_chunk; [done|]. by exists t.
  - intros (u' & v' & Heq & Hg). apply glob_chunk in Hg as (t' & Ht' & Hg); [|done]. by eapply Hbest.
Qed.

Lemma first_decides t : chunk_rest chunk name = Some t -> (rest = [] -> t = []) ->
  decides (next t) (exists u v, name = u ++ v /\ glob (chunk ++ rest) v).
Proof.
  intros Ht Hend. apply (best_decides t [] name); [done|done|]. intros u v t' Heq Ht' Hg.
  destruct (chunk_rest_suffix chunk u v t t') as (j & Hj); [by rewrite <- Heq|done|].
  destruct Hrest as [Hr|(r & Hr)]; rewrite Hr in *; [rewrite (Hend eq_refl); constructor|].
  rewrite Hj. apply glob_star_absorb; [|done].
  pose proof (remainder_no_slash [] name t eq_refl Ht) as Hns.
  rewrite Hj in Hns. by apply Forall_app in Hns as [? _].
Qed.

Lemma search_decides none : none = Ok false ->
  (forall t, chunk_rest chunk name = Some t -> ~ glob rest t) ->
  decides (m ← star_search chunk rest name; match m with Some t => next t | None => none end)
    (exists u v, name = u ++ v /\ glob (chunk ++ rest) v).
Proof.
  intros -> Hhere. destruct (star_search_simple chunk rest name) as (m & -> & Hm); [done|done|done|].
  cbn [mbind result_bind]. destruct m as [t|].
  - destruct Hm as [(u & v & Hu & Ht) Hbest]. eapply best_decides; [done|done|].
    intros u' v' t' Heq Ht' Hg. destruct u' as [|a u']; [by cbn in Heq; subst v'; apply Hhere in Ht'|].
    by eapply (Hbest (a :: u')).
  - right. split; [done|]. intros (u & v & Heq & Hg).
    apply glob_chunk in Hg as (t' & Ht' & Hg); [|done]. destruct u as [|a u].
    + cbn in Heq. subst v. by apply Hhere in Ht'.
    + by eapply (Hm (a :: u)).
Qed.

(** The plain chunk: it matches here or not at all. *)
Lemma plain_decides none : none = Ok false ->
  decides (match chunk_rest chunk name, rest with
           | Some [], _ => next []
           | Some t, _ :: _ => next t
           | _, _ => none
           end) (glob (chunk ++ rest) name).
Proof.
  intros ->. eapply decides_iff; [symmetry; by apply glob_chunk|].
  destruct (chunk_rest chunk name) as [t|] eqn:Ht.
  2:{ right. split; [by destruct rest | naive_solver]. }
  eapply (decides_iff _ (glob rest t)); [naive_solver|].
  destruct t as [|t0 t]; [apply Hnext; constructor|].
  destruct rest; [right; split; [done | by inversion 1]|].
  apply Hnext. by apply (remainder_no_slash [] name).
Qed.

Lemma starred_decides none : none = Ok false ->
  decides (match chunk_rest chunk name, rest with
           | Some [], _ => next []
           | Some t, _ :: _ => next t
           | _, _ => m ← star_search chunk rest name; match m with Some t => next t | None => none end
           end) (exists u v, name = u ++ v /\ glob (chunk ++ rest) v).
Proof.
  intros Hnone. destruct (chunk_rest chunk name) as [t|] eqn:Ht.
  2:{ pose proof (search_decides none Hnone) as Hs. destruct rest; apply Hs; congruence. }
  destruct t as [|t0 t]; [by apply first_decides|].
  destruct Hrest as [Hr|(r & Hr)]; rewrite Hr.
  - rewrite <- Hr. apply search_decides; [done|]. intros t' Ht' Hg. rewrite Hr in Hg.
    rewrite Ht in Ht'. injection Ht' as <-. inversion Hg.
  - rewrite <- Hr. apply first_decides; [done|]. by rewrite Hr.
Qed.
End Chunk.

Lemma path_match_simple fuel p s : simple p -> no_slash s -> (length p < fuel)%nat ->
  decides (path_match fuel p s) (glob p s).
Proof.
  revert p s. induction fuel as [|f IH]; intros p s Hp Hs Hf; [lia|]. cbn [path_match].
  destruct p as [|c p].
  { destruct s; [left; split; [done|constructor] | right; split; [done | by inversion 1]]. }
  destruct (scanChunk (c :: p)) as [[st chunk] rest] eqn:Hc.
  apply scanChunk_simple in Hc as (k & Heq & -> & Hck & Hrest & Hsc & Hsr & Hempty & Hlen); [|done].
  specialize (Hlen ltac:(done)). rewrite Heq, matchChunk_simple by done.
  assert (Hcheck : check_chunks (S (length rest)) rest = Ok false) by (apply check_chunks_simple; [done|lia]).
  assert (Hnext : forall t, no_slash t -> decides (path_match f rest t) (glob rest t)) by (intros; apply IH; done || lia).
  destruct (k =? 0)%nat eqn:Hk; cbn [negb andb mbind result_bind].
  - apply Nat.eqb_eq in Hk as ->. by apply (plain_decides chunk rest s (path_match f rest)).
  - apply Nat.eqb_neq in Hk. eapply decides_iff; [symmetry; by apply glob_stars|].
    destruct (chunk =s []) eqn:Hemp; [|by apply (starred_decides chunk rest s (path_match f rest))].
    apply eqs_true in Hemp. pose proof (Hempty Hemp). subst chunk rest.
    left. split; [|by exists s, []; rewrite app_nil_r; split; [|constructor]].
    f_equal. rewrite (proj2 (ContainsRune_false s 47)); done.
Qed.

(** ** Topics *)

(** The documented reading of a pattern over topic segments: [#] any number of
    segments, [*] exactly one, a glob or a literal one that it matches. *)
Inductive topic_matches : list gostring -> list gostring -> Prop :=
| tm_nil : topic_matches [] []
| tm_hash p skipped topic : topic_matches p topic -> topic_matches (hash :: p) (skipped ++ topic)
| tm_star p seg topic : topic_matches p topic -> topic_matches (star :: p) (seg :: topic)
| tm_segment p part seg topic : part <> hash -> part <> star ->
    segment_matches part seg = true -> topic_matches p topic ->
    topic_matches (part :: p) (seg :: topic).

Lemma matchParts_spec pattern topic : matchParts pattern topic = true <-> topic_matches pattern topic.
Proof.
  revert topic. induction pattern as [|part pattern IH]; intros topic; cbn [matchParts].
  { destruct topic; split; try done; [constructor | by inversion 1]. }
  destruct (part =s hash) eqn:Hh; [apply eqs_true in Hh as ->|apply eqs_false in Hh].
  - destruct pattern as [|q pattern].
    + split; [|done]. intros _. rewrite <- (app_nil_r topic). do 2 constructor.
    + rewrite existsb_exists. split.
      * intros (k & _ & Hk). apply IH in Hk. rewrite <- (take_drop k topic). by constructor.
      * intros Hm. inversion Hm; subst; [|done]. exists (length skipped). split.
        -- apply in_seq. rewrite length_app. lia.
        -- rewrite drop_app_length. by apply IH.
  - destruct topic as [|seg topic]; [split; [done | inversion 1; subst; done]|].
    destruct (part =s star) eqn:Hs; [apply eqs_true in Hs as ->|apply eqs_false in Hs].
    + rewrite IH. split; [by constructor | inversion 1; subst; done].
    + rewrite andb_true_iff, IH. split; [intros [? ?]; by constructor | inversion 1; subst; done].
Qed.

(** A segment with no wildcard matches itself only. *)
Lemma segment_matches_literal part seg : ContainsAny part (go "*?") = false ->
  segment_matches part seg = true <-> seg = part.
Proof. unfold segment_matches. intros ->. apply eqs_true. Qed.

(** *** NormalizePattern *)

Lemma replace_dots_shorter s : contains_dots s = true -> (length (replace_dots s) < length s)%nat.
Proof.
  assert (Hle : forall n s, (length s <= n)%nat -> (length (replace_dots s) <= length s)%nat
    /\ (contains_dots s = true -> (length (replace_dots s) < length s)%nat)); [|by eapply Hle].
  clear s. induction n as [|n IH]; intros s Hn; [destruct s; cbn in *; [done|lia]|].
  destruct s as [|c [|d s]]; [done | cbn; lia | ].
  assert (H1 := IH (d :: s) ltac:(cbn in *; lia)). assert (H2 := IH s ltac:(cbn in *; lia)).
  change (contains_dots (c :: d :: s)) with (((c =? 46) && (d =? 46)) || contains_dots (d :: s)).
  change (replace_dots (c :: d :: s)) with
    (if (c =? 46) && (d =? 46) then 46 :: replace_dots s else c :: replace_dots (d :: s)).
  destruct ((c =? 46) && (d =? 46)); cbn [length orb] in *; [lia|]. destruct H1. split; [lia|].
  intros Hc. specialize (H0 Hc). lia.
Qed.

Lemma collapse_dots_done fuel s : (length s <= fuel)%nat -> contains_dots (collapse_dots fuel s) = false.
Proof.
  revert s. induction fuel as [|f IH]; intros s Hf; cbn; [by destruct s; cbn in Hf; [|lia]|].
  destruct (contains_dots s) eqn:Hc; [|done]. apply IH. pose proof (replace_dots_shorter s Hc). lia.
Qed.

Lemma contains_dots_spec s : contains_dots s = true <-> exists a b, s = a ++ [46; 46] ++ b.
Proof.
  induction s as [|c s IH]; [split; [done | by intros ([|? ?] & ? & ?)]|].
  destruct s as [|d s].
  { split; [done|]. intros ([|? [|? ?]] & ? & ?); done. }
  change (contains_dots (c :: d :: s)) with (((c =? 46) && (d =? 46)) || contains_dots (d :: s)).
  rewrite orb_true_iff, IH, andb_true_iff, !Z.eqb_eq. split.
  - intros [[-> ->]|(a & b & ->)]; [by exists [], s | by exists (c :: a), b].
  - intros ([|x a] & b & Heq); [left; by injection Heq as -> -> _|].
    right. injection Heq as _ Heq. by exists a, b.
Qed.

Lemma Split_parts_nonempty s : s <> [] -> trimmed (Z.eqb 46) s -> contains_dots s = false ->
  Forall (fun p => p <> []) (Split s 46).
Proof.
  intros Hne [Hh Hl] Hd.
  assert (Hin : Forall (fun p => p <> []) (Split s 46) \/ exists ps qs, Split s 46 = ps ++ [] :: qs).
  { destruct (decide (Forall (fun p => p <> []) (Split s 46))) as [|Hn]; [by left|right].
    apply not_Forall_Exists in Hn; [|intros; apply _]. apply Exists_exists in Hn as (p & Hin & Hp).
    apply dec_stable in Hp as ->. apply list_elem_of_split in Hin as (ps & qs & Heq). eauto. }
  destruct Hin as [|(ps & qs & Heq)]; [done|]. exfalso.
  pose proof (Join_Split s 46) as HJ. rewrite Heq in HJ. clear Heq.
  destruct ps as [|p ps].
  - destruct qs as [|q qs]; [by cbn in HJ; subst|].
    change (Join ([] :: q :: qs) [46]) with (46 :: Join (q :: qs) [46]) in HJ.
    cbn [app] in HJ. rewrite <- HJ in Hh. specialize (Hh 46 eq_refl). done.
  - assert (HJ2 : exists u, Join ((p :: ps) ++ [] :: qs) [46] = u ++ 46 :: Join ([] :: qs) [46]).
    { clear. revert p. induction ps as [|p' ps IH]; intros p; [by exists p|].
      destruct (IH p') as (u & Hu). exists (p ++ 46 :: u). cbn [app] in *.
      change (Join (p :: p' :: ps ++ [] :: qs) [46]) with (p ++ 46 :: Join (p' :: ps ++ [] :: qs) [46]).
      rewrite Hu. by rewrite <- app_assoc. }
    destruct HJ2 as (u & Hu). rewrite HJ in Hu. destruct qs as [|q qs].
    + cbn in Hu. rewrite Hu in Hl. rewrite last_snoc in Hl. by specialize (Hl 46 eq_refl).
    + change (Join ([] :: q :: qs) [46]) with (46 :: Join (q :: qs) [46]) in Hu.
      assert (contains_dots s = true) by (apply contains_dots_spec; exists u, (Join (q :: qs) [46]); exact Hu).
      congruence.
Qed.

Lemma trim_dots_nodots s : contains_dots s = false -> contains_dots (trim_dots s) = false.
Proof.
  intros Hd. destruct (contains_dots (trim_dots s)) eqn:Hc; [|done].
  apply contains_dots_spec in Hc as (x & y & Hxy).
  destruct (TrimFunc_spec (Z.eqb 46) s) as (a & b & Hs & _). unfold trim_dots in Hxy. rewrite Hxy in Hs.
  assert (contains_dots s = true); [|congruence].
  apply contains_dots_spec. exists (a ++ x), (y ++ b). rewrite Hs. by rewrite <- !app_assoc.
Qed.

(** *** Builders and extractors *)

Lemma bundleFromTopic_build base id :
  bundleFromTopic base (BuildTopicWithConcept base id)
  = if TrimSpace id =s [] then None else Some (TrimSpace id).
Proof.
  unfold bundleFromTopic, BuildTopicWithConcept. destruct (TrimSpace id =s []) eqn:Hid.
  - destruct (HasPrefix base (base ++ dot)) eqn:Hp; [|done]. apply HasPrefix_inv in Hp as (t & Ht).
    apply (f_equal length) in Ht. rewrite !length_app in Ht. cbn in Ht. lia.
  - rewrite app_assoc, HasPrefix_app. cbn [negb]. rewrite drop_app_length.
    rewrite (TrimFunc_idem IsSpace id : TrimSpace (TrimSpace id) = TrimSpace id). by rewrite Hid.
Qed.

Lemma concept_of_bases_hit base bases concept :
  (forall b, In b bases -> HasPrefix (BuildTopicWithConcept base concept) (b ++ dot) = false) ->
  forall rest, concept_of_bases (bases ++ base :: rest) (BuildTopicWithConcept base concept)
  = concept_of_bases (base :: rest) (BuildTopicWithConcept base concept).
Proof.
  intros Hno rest. induction bases as [|b bases IH]; [done|].
  cbn [app]. rewrite <- IH by (intros b' Hb; apply Hno; by right).
  change (concept_of_bases (b :: bases ++ base :: rest) ?t) with
    (if HasPrefix t (b ++ dot) then
       (let concept := TrimSpace (drop (length (b ++ dot)) t) in if concept =s [] then None else Some concept)
     else concept_of_bases (bases ++ base :: rest) t).
  rewrite Hno by (by left). done.
Qed.

(** *** Graph subscriptions *)

(** A segment that stands for itself in a topic and in a pattern. *)
Definition literal_segment (s : gostring) : Prop :=
  s <> [] /\ s <> hash /\ ContainsRune s 46 = false /\ ContainsAny s (go "*?") = false.

Lemma literal_not_star s : literal_segment s -> s <> star.
Proof. by intros (_ & _ & _ & Hw) ->. Qed.

Lemma matchParts_literal s seg p t : literal_segment s ->
  matchParts (s :: p) (seg :: t) = (seg =s s) && matchParts p t.
Proof.
  intros Hs. pose proof (literal_not_star s Hs). destruct Hs as (_ & Hh & _ & Hw). cbn [matchParts].
  rewrite (proj2 (eqs_false s hash)), (proj2 (eqs_false s star)) by done.
  unfold segment_matches. by rewrite Hw.
Qed.

(** The pattern or topic with these segments under [graph.node]. *)
Definition graph_text (a b : gostring) : gostring := TopicGraphNode ++ dot ++ a ++ dot ++ b.

Lemma Split_graph_text a b : ContainsRune a 46 = false -> ContainsRune b 46 = false ->
  Split (graph_text a b) 46 = [go "graph"; go "node"; a; b].
Proof.
  intros Ha Hb. change (graph_text a b) with (go "graph" ++ 46 :: (go "node" ++ 46 :: (a ++ 46 :: b))).
  rewrite !Split_app by done. by rewrite Split_none.
Qed.

Lemma Match_graph_text a seg verb subject :
  ContainsRune a 46 = false -> ContainsRune seg 46 = false ->
  literal_segment verb -> literal_segment subject ->
  Match (graph_text a seg) (graph_text verb subject) = matchParts [a; seg] [verb; subject].
Proof.
  intros Ha Hseg Hv Hs. unfold Match.
  rewrite (proj2 (eqs_false (graph_text a seg) hash)) by done.
  rewrite (proj2 (eqs_false (graph_text a seg) [])) by done.
  rewrite (proj2 (eqs_false (graph_text verb subject) [])) by done. cbn [orb].
  assert (Hv' := Hv). assert (Hs' := Hs). destruct Hv' as (_ & _ & Hv46 & _), Hs' as (_ & _ & Hs46 & _).
  rewrite !Split_graph_text by done.
  assert (Hlit : forall x, x = go "graph" \/ x = go "node" -> literal_segment x) by (intros x [-> | ->]; done).
  rewrite !(matchParts_literal (go "graph")), !(matchParts_literal (go "node")) by (apply Hlit; auto).
  rewrite !eqs_refl. cbn [andb]. destruct (_ =s _) eqn:Heq; [|done]. apply eqs_true in Heq.
  apply (f_equal (fun s => Split s 46)) in Heq. rewrite !Split_graph_text in Heq by done.
  injection Heq as -> ->. rewrite !matchParts_literal by done. by rewrite !eqs_refl.
Qed.

Lemma matchParts_last_hash a verb subject : literal_segment a ->
  matchParts [a; hash] [verb; subject] = (verb =s a).
Proof. intros Ha. rewrite matchParts_literal by done. by rewrite andb_true_r. Qed.

Lemma existsb_verb f verb actions : (forall a, In a actions -> f a = (verb =s a)) ->
  existsb f actions = memS verb actions.
Proof.
  intros Hf. unfold memS. induction actions as [|a actions IH]; [done|]. cbn [existsb].
  rewrite Hf by (by left). rewrite IH; [done|]. intros b Hb. apply Hf. by right.
Qed.

(** ** Theorems *)

(** Segment globs mean what they say: on a pattern of literals, [?] and [*]
    and a segment without a slash, the chunk-by-chunk search of [path.Match]
    answers, without an error, exactly whether the pattern matches under the
    declarative reading [glob]. *)
Theorem PathMatch_glob (p s : gostring) :
  simple p -> no_slash s ->
  (PathMatch p s = Ok true /\ glob p s) \/ (PathMatch p s = Ok false /\ ~ glob p s).
Proof. intros Hp Hs. apply (path_match_simple (S (length p)) p s Hp Hs). lia. Qed.

Lemma PathMatch_glob_witness :
  (PathMatch (go "v1:*:u?x") (go "v1:cog:utx") = Ok true /\ glob (go "v1:*:u?x") (go "v1:cog:utx"))
  \/ (PathMatch (go "v1:*:u?x") (go "v1:cog:utx") = Ok false /\ ~ glob (go "v1:*:u?x") (go "v1:cog:utx")).
Proof. apply PathMatch_glob; unfold simple, no_slash; vm_compute; repeat constructor; done. Defined.

(** C33: Topic matching implements the documented wildcards: a pattern matches a
    topic exactly when it is "#", when the two are equal, or when neither is
    empty and the segments match one by one, [#] standing for any number of
    segments, [*] for exactly one, and any other segment for one it matches. *)
Theorem Match_exact (pattern topic : gostring) :
  Match pattern topic = true <->
  pattern = hash \/ pattern = topic
  \/ (pattern <> [] /\ topic <> [] /\ topic_matches (Split pattern 46) (Split topic 46)).
Proof.
  unfold Match. destruct (pattern =s hash) eqn:Hh; [apply eqs_true in Hh; tauto|].
  apply eqs_false in Hh. destruct (_ || _) eqn:He.
  - rewrite eqs_true. apply orb_true_iff in He. rewrite !eqs_true in He. naive_solver.
  - apply orb_false_iff in He. rewrite !eqs_false in He.
    destruct (pattern =s topic) eqn:Heq; [apply eqs_true in Heq; tauto|]. apply eqs_false in Heq.
    rewrite matchParts_spec. tauto.
Qed.

(** A normalized pattern is usable: whatever was given, [NormalizePattern]
    answers a non-empty pattern whose every dot-separated segment is non-empty,
    and its loop that collapses consecutive dots ends with none left. *)
Theorem NormalizePattern_segments (p : gostring) :
  NormalizePattern p <> [] /\ contains_dots (NormalizePattern p) = false
  /\ Forall (fun seg => seg <> []) (Split (NormalizePattern p) 46).
Proof.
  unfold NormalizePattern. set (q := TrimSpace p). destruct (q =s []); [by repeat split; [..|repeat constructor]|].
  set (t := trim_dots (collapse_dots (length q) q)).
  assert (Hd : contains_dots t = false) by (by apply trim_dots_nodots, collapse_dots_done).
  destruct (t =s []) eqn:Ht; [by repeat split; [..|repeat constructor]|]. apply eqs_false in Ht.
  split; [done|]. split; [done|]. apply Split_parts_nonempty; [done| |done].
  by destruct (TrimFunc_spec (Z.eqb 46) (collapse_dots (length q) q)) as (_ & _ & _ & _ & _ & ?).
Qed.

(** Every topic builder is inverted by its extractor: from the topic built for
    an id, the extractor of the same family answers the id without its outer
    white space, and answers nothing when the id was blank. *)
Theorem topic_round_trips (id : gostring) :
  let back := if TrimSpace id =s [] then None else Some (TrimSpace id) in
  ConceptFromGraphNodeTopic (TopicNodeCreated id) = back
  /\ ConceptFromGraphNodeTopic (TopicNodeUpdated id) = back
  /\ ConceptFromGraphNodeTopic (TopicNodeDeleted id) = back
  /\ ConceptFromCacheInvalidateTopic (TopicCacheInvalidateForConcept id) = back
  /\ BundleFromAuthoringPromoteTopic (TopicAuthoringPromoteForBundle id) = back
  /\ BundleFromAuthoringDemoteTopic (TopicAuthoringDemoteForBundle id) = back
  /\ BundleFromAuthoringArmTopic (TopicAuthoringArmForBundle id) = back
  /\ BundleFromAuthoringDisarmTopic (TopicAuthoringDisarmForBundle id) = back.
Proof.
  intros back.
  assert (Hhead : forall base rest, concept_of_bases rest (BuildTopicWithConcept base id) = None ->
    concept_of_bases (base :: rest) (BuildTopicWithConcept base id) = back).
  { intros base rest Hrest. unfold back. rewrite <- (bundleFromTopic_build base id).
    unfold bundleFromTopic. cbn [concept_of_bases]. by destruct (HasPrefix _ _). }
  repeat split; try apply bundleFromTopic_build.
  - apply Hhead. unfold BuildTopicWithConcept. by destruct (_ =s []).
  - unfold ConceptFromGraphNodeTopic, TopicNodeUpdated.
    apply (eq_trans (concept_of_bases_hit TopicGraphNodeUpdated [TopicGraphNodeCreated] id ltac:(intros b [<-|[]]; unfold BuildTopicWithConcept; by destruct (_ =s [])) [TopicGraphNodeDeleted])).
    apply Hhead. unfold BuildTopicWithConcept. by destruct (_ =s []).
  - unfold ConceptFromGraphNodeTopic, TopicNodeDeleted.
    apply (eq_trans (concept_of_bases_hit TopicGraphNodeDeleted [TopicGraphNodeCreated; TopicGraphNodeUpdated] id ltac:(intros b [<-|[<-|[]]]; unfold BuildTopicWithConcept; by destruct (_ =s [])) [])).
    apply Hhead. done.
Qed.

(** A structured graph subscription receives exactly the changes it asked for:
    among the topics [graph.node.<verb>.<subject>], one of the composed
    patterns matches just when the verb is one of the actions (any, when none
    is named) and the subject is the concept (any, when it is blank). *)
Theorem GraphSubscriptionPatterns_exact (concept verb subject : gostring) (actions : list gostring) :
  Forall literal_segment actions -> literal_segment verb -> literal_segment subject ->
  TrimSpace concept = [] \/ literal_segment (TrimSpace concept) ->
  existsb (fun p => Match p (graph_text verb subject)) (GraphSubscriptionPatterns concept actions)
  = (match actions with [] => true | _ => memS verb actions end)
    && ((TrimSpace concept =s []) || (subject =s TrimSpace concept)).
Proof.
  intros Hacts Hverb Hsub Hcon. unfold GraphSubscriptionPatterns.
  set (seg := if TrimSpace concept =s [] then hash else TrimSpace concept).
  assert (Hseg46 : ContainsRune seg 46 = false).
  { unfold seg. destruct (_ =s []) eqn:He; [done|]. apply eqs_false in He.
    destruct Hcon as [?|(_ & _ & ? & _)]; [done|done]. }
  assert (Hlast : matchParts [seg] [subject] = (TrimSpace concept =s []) || (subject =s TrimSpace concept)).
  { unfold seg. destruct (_ =s []) eqn:He; [done|]. apply eqs_false in He.
    destruct Hcon as [?|Hc]; [done|]. rewrite matchParts_literal by done. cbn. by rewrite andb_true_r. }
  destruct actions as [|a0 acts].
  - cbn [existsb]. change (TopicGraphNode ++ go ".*." ++ seg) with (graph_text star seg).
    rewrite Match_graph_text by done. rewrite orb_false_r, <- Hlast. done.
  - rewrite <- Hlast. set (acts' := a0 :: acts) in *.
    assert (Hex : existsb (fun p => Match p (graph_text verb subject))
        ((fun action => TopicGraphNode ++ dot ++ action ++ dot ++ seg) <$> acts')
      = existsb (fun a => (verb =s a) && matchParts [seg] [subject]) acts').
    { clearbody acts'. induction Hacts as [|a acts2 Ha _ IH]; [done|]. cbn [fmap list_fmap existsb].
      change (TopicGraphNode ++ dot ++ a ++ dot ++ seg) with (graph_text a seg).
      rewrite Match_graph_text by (done || by destruct Ha as (_ & _ & ? & _)).
      rewrite matchParts_literal by done. f_equal. exact IH. }
    rewrite Hex. destruct (matchParts [seg] [subject]).
    + rewrite andb_true_r. apply existsb_verb. intros a _. apply andb_true_r.
    + rewrite andb_false_r. clear. induction acts'; cbn; [done|]. by rewrite andb_false_r.
Qed.

Lemma GraphSubscriptionPatterns_exact_witness :
  existsb (fun p => Match p (graph_text (go "updated") (go "v1:cognition:agent")))
    (GraphSubscriptionPatterns (go " v1:cognition:agent") [go "created"; go "updated"]) = true.
Proof.
  rewrite (GraphSubscriptionPatterns_exact (go " v1:cognition:agent") (go "updated") (go "v1:cognition:agent")
             [go "created"; go "updated"]).
  - vm_compute. reflexivity.
  - repeat constructor; vm_compute; congruence.
  - repeat split; vm_compute; congruence.
  - repeat split; vm_compute; congruence.
  - right. repeat split; vm_compute; congruence.
Defined.
