(* ===== verification/Events.v ===== *)
(** Events and their causal lineage: component/events/event.go and cause.go,
    with the narrowing core/num (Numbers) gives a decoded depth.

    A Go event is passed by value, its two maps by reference.  The model keeps
    that: an event holds map addresses, and the maps live in a [heap] every copy
    shares.  An element of a payload map is a scalar or a reference to a nested
    map, so copying a map copies the references in it. *)

From Stdlib Require Import SpecFloat.
From S2P Require Import Prelude GoText Strconv Numbers.

(** ** Cause *)

Record Link := mkLink { l_Automation : gostring; l_RunId : gostring }.

Record Cause := mkCause {
  CausationId : gostring;
  CorrelationId : gostring;
  Depth : Z;
  Chain : list Link
}.

Definition zeroCause : Cause := mkCause [] [] 0 [].

Definition IsZero (c : Cause) : bool :=
  (CausationId c =s []) && (CorrelationId c =s []) && (Depth c =? 0) && (length (Chain c) =? 0)%nat.

(** Addition on int wraps around. *)
Definition wrap_int (z : Z) : Z := (z - MinInt) mod 2 ^ 64 + MinInt.

(** The parent's chain plus this run, one deeper. *)
Definition Next (c : Cause) (automation runId correlationId : gostring) : Cause :=
  mkCause runId correlationId (wrap_int (Depth c + 1)) (Chain c ++ [mkLink automation runId]).

(** A context carries at most one cause; WithValue replaces what it carries. *)
Definition ContextWithCause (ctx : option Cause) (c : Cause) : option Cause := Some c.

Definition CauseFromContext (ctx : option Cause) : option Cause :=
  match ctx with
  | Some c => if IsZero c then None else Some c
  | None => None
  end.

(** A decoded JSON value, as [map[string]any] holds it. *)
Inductive decoded : Type :=
| DFloat64 (f : float64)
| DInt (z : Z)
| DInt64 (z : Z)
| DInt32 (z : Z)
| DNumber (s : gostring)              (* json.Number *)
| DString (s : gostring)
| DSlice (l : list decoded)           (* []any *)
| DMaps (l : list (list (gostring * decoded)))  (* []map[string]any *)
| DMap (m : list (gostring * decoded))
| DOther.

Definition field (m : list (gostring * decoded)) (k : gostring) : option decoded :=
  snd <$> List.find (fun kv => kv.1 =s k) m.

Definition field_string (m : list (gostring * decoded)) (k : gostring) : gostring :=
  match field m k with Some (DString s) => s | _ => [] end.

Definition linkFromMap (m : list (gostring * decoded)) : Link :=
  mkLink (field_string m (go "automation")) (field_string m (go "runId")).

Definition causeDepth (v : option decoded) : Z :=
  let d := match v with
           | Some (DFloat64 n) => ClampFloat64 n
           | Some (DInt n) => n
           | Some (DInt64 n) => ClampInt64 n
           | Some (DInt32 n) => n
           | Some (DNumber s) =>
               match ParseInt s with
               | Some i => ClampInt64 i
               | None => match ParseFloat s with Some f => ClampFloat64 f | None => 0 end
               end
           | _ => 0
           end in
  if d <? 0 then 0 else d.

Definition CauseFromMap (m : list (gostring * decoded)) : Cause :=
  match m with
  | [] => zeroCause
  | _ =>
      let chain := match field m (go "chain") with
                   | Some (DSlice entries) =>
                       omap (fun e => match e with DMap l => Some (linkFromMap l) | _ => None end) entries
                   | Some (DMaps links) => linkFromMap <$> links
                   | _ => []
                   end in
      mkCause (field_string m (go "causationId")) (field_string m (go "correlationId"))
        (causeDepth (field m (go "depth"))) chain
  end.

(** ** Event *)

(** The names of the kinds, from KindUnspecified on; two have none of their own. *)
Definition kind_names : list gostring :=
  [go "unspecified"; go "telemetry"; go "message"; go "graph_update"; go "si_event"; go "node_created";
   go "node_deleted"; go "node_updated"; go "query_executed"; go "si_completion_started";
   go "si_completion_finished"; go "si_completion_error"; go "session_opened"; go "session_closed";
   go "automation_started"; go "automation_completed"; go "automation_failed"; go "automation_step_started";
   go "automation_step_completed"; go "automation_step_failed"; go "tool_called"; go "tool_completed";
   go "tool_failed"; go "cluster_node_registered"; go "cluster_node_deregistered";
   go "cluster_node_health_changed"; go "spawn_requested"; go "spawn_completed"; go "spawn_failed";
   go "unspecified"; go "unspecified"; go "cache_invalidate"; go "precondition_missed"; go "authoring_promote";
   go "authoring_demote"; go "providers_reload"; go "automation_run_request"; go "automation_run_trace";
   go "authoring_arm"; go "authoring_disarm"].

(** Kind.String *)
Definition Kind_String (k : Z) : gostring :=
  if k <? 0 then go "unspecified" else default (go "unspecified") (kind_names !! Z.to_nat k).

Inductive any : Type :=
| AScalar (s : gostring)
| ARef (l : positive).   (* a nested map *)

Abbreviation heap := (gmap positive (gmap gostring any)) (only parsing).

Record Event := mkEvent {
  Topic : gostring;
  Kind : Z;
  Timestamp : Z;
  Payload : option positive;
  Metadata : option positive;
  OriginNodeId : gostring;
  Partition : gostring;
  ECause : Cause
}.

Definition alloc (h : heap) (m : gmap gostring any) : positive * heap :=
  let l := fresh (dom h) in (l, <[l := m]> h).

(** Reading a map: a nil map reads as empty. *)
Definition contents (h : heap) (l : option positive) : gmap gostring any :=
  match l with Some l => default ∅ (h !! l) | None => ∅ end.

Definition NewEvent (h : heap) (topic : gostring) (kind now : Z) (payload : option positive)
    : Event * heap :=
  let '(l, h') := alloc h ∅ in
  (mkEvent topic kind now payload (Some l) [] [] zeroCause, h').

(** The map the event holds is written in place. *)
Definition WithMetadata (h : heap) (e : Event) (key value : gostring) : Event * heap :=
  match Metadata e with
  | Some l => (e, <[l := <[key := AScalar value]> (contents h (Some l))]> h)
  | None =>
      let '(l, h') := alloc h {[key := AScalar value]} in
      (mkEvent (Topic e) (Kind e) (Timestamp e) (Payload e) (Some l) (OriginNodeId e)
         (Partition e) (ECause e), h')
  end.

Definition WithPartition (e : Event) (partition : gostring) : Event :=
  mkEvent (Topic e) (Kind e) (Timestamp e) (Payload e) (Metadata e) (OriginNodeId e) partition (ECause e).

Definition WithCause (e : Event) (c : Cause) : Event :=
  mkEvent (Topic e) (Kind e) (Timestamp e) (Payload e) (Metadata e) (OriginNodeId e) (Partition e) c.

Definition IsRemote (e : Event) : bool := negb (OriginNodeId e =s []).

Definition PayloadOmittedFieldsKey : gostring := go "payloadOmittedFields".

Definition PayloadThinned (h : heap) (e : Event) : bool :=
  bool_decide (is_Some (contents h (Payload e) !! PayloadOmittedFieldsKey)).

Definition copy_map (h : heap) (l : option positive) : option positive * heap :=
  match l with
  | Some l => let '(l', h') := alloc h (contents h (Some l)) in (Some l', h')
  | None => (None, h)
  end.

Definition Clone (h : heap) (e : Event) : Event * heap :=
  let '(payload, h1) := copy_map h (Payload e) in
  let '(metadata, h2) := copy_map h1 (Metadata e) in
  (mkEvent (Topic e) (Kind e) (Timestamp e) payload metadata (OriginNodeId e) (Partition e) (ECause e), h2).

(** The maps an event holds, by address. *)
Definition maps (e : Event) : list positive := option_list (Payload e) ++ option_list (Metadata e).

(** The maps an event holds exist. *)
Definition allocated (h : heap) (e : Event) : Prop := Forall (fun l => l ∈ dom h) (maps e).

(** ** Facts *)

Lemma alloc_spec (h : heap) m l h' : alloc h m = (l, h') ->
  (l ∉ dom h) /\ h' !! l = Some m /\ h ⊆ h'.
Proof.
  unfold alloc. intros [= <- <-]. set (l := fresh (dom h)).
  assert (Hl : l ∉ dom h) by apply is_fresh. split; [done|].
  split; [by rewrite lookup_insert_eq|]. apply insert_subseteq. by apply not_elem_of_dom.
Qed.

Lemma subseteq_dom_elem (h h' : heap) (l : positive) : h ⊆ h' -> l ∈ dom h -> l ∈ dom h'.
Proof. intros Hs Hl. by apply (subseteq_dom h h'). Qed.

Lemma contents_grow (h h' : heap) l : h ⊆ h' -> (forall l', l = Some l' -> l' ∈ dom h) ->
  contents h' l = contents h l.
Proof.
  intros Hs Hl. destruct l as [l|]; [|done]. cbn. specialize (Hl l eq_refl).
  apply elem_of_dom in Hl as [m Hm]. rewrite Hm. by rewrite (lookup_weaken _ _ _ _ Hm Hs).
Qed.

Lemma copy_map_spec (h : heap) l l' h' : copy_map h l = (l', h') ->
  h ⊆ h' /\ contents h' l' = contents h l
  /\ Forall (fun x => (x ∉ dom h) /\ x ∈ dom h') (option_list l') /\ NoDup (option_list l').
Proof.
  unfold copy_map. destruct l as [l|].
  - destruct (alloc h _) as [x h1] eqn:Ha. intros [= <- <-]. apply alloc_spec in Ha as (Hx & Hm & Hs).
    split; [done|]. split; [cbn; by rewrite Hm|]. split; [|apply NoDup_singleton].
    constructor; [|constructor]. split; [done|]. by apply elem_of_dom.
  - intros [= <- <-]. split; [done|]. split; [done|]. split; constructor.
Qed.

(** A clone holds fresh maps with the same entries and leaves every existing map
    as it was. *)
Lemma Clone_spec (h : heap) e e' h' : Clone h e = (e', h') -> allocated h e ->
  h ⊆ h' /\ Topic e' = Topic e /\ ECause e' = ECause e
  /\ contents h' (Payload e') = contents h (Payload e)
  /\ contents h' (Metadata e') = contents h (Metadata e)
  /\ Forall (fun l => (l ∉ dom h) /\ l ∈ dom h') (maps e') /\ NoDup (maps e').
Proof.
  unfold Clone, allocated, maps. destruct (copy_map h (Payload e)) as [p h1] eqn:Hp.
  destruct (copy_map h1 (Metadata e)) as [m h2] eqn:Hm. intros [= <- <-] Hall.
  apply Forall_app in Hall as [Hpl Hml].
  apply copy_map_spec in Hp as (S1 & C1 & F1 & N1). apply copy_map_spec in Hm as (S2 & C2 & F2 & N2).
  cbn [Payload Metadata Topic ECause].
  assert (Hs : h ⊆ h2) by (by etrans). split; [done|]. split; [done|]. split; [done|]. split.
  { rewrite <- C1. apply contents_grow; [done|]. intros l ->. by apply Forall_inv in F1 as [_ ?]. }
  split.
  { rewrite C2. apply contents_grow; [done|]. intros l Hl. rewrite Hl in Hml. by apply Forall_inv in Hml. }
  split.
  - apply Forall_app_2.
    + eapply Forall_impl; [exact F1|]. intros l [H1 H2]. split; [done|]. by apply (subseteq_dom_elem h1 h2).
    + eapply Forall_impl; [exact F2|]. intros l [H1 H2]. split; [|done]. intros Hl. apply H1.
      by apply (subseteq_dom_elem h h1).
  - apply NoDup_app. split; [done|]. split; [|done]. intros l Hl1 Hl2.
    rewrite Forall_forall in F1, F2. apply F1 in Hl1 as [_ Hl1]. apply F2 in Hl2 as [Hl2 _]. done.
Qed.

(** ** Theorems *)

(** The lineage of a sequence of runs, each caused by the one before. *)
Definition run_chain (c : Cause) (corr : gostring) (runs : list Link) : Cause :=
  fold_left (fun c r => Next c (l_Automation r) (l_RunId r) corr) runs c.

Lemma IsZero_true c : IsZero c = true -> c = zeroCause.
Proof.
  unfold IsZero. rewrite !andb_true_iff, !eqs_true, Z.eqb_eq, Nat.eqb_eq, length_zero_iff_nil.
  destruct c; cbn. by intros [[[-> ->] ->] ->].
Qed.

Lemma wrap_int_small z : MinInt <= z <= MaxInt -> wrap_int z = z.
Proof. unfold wrap_int, MinInt, MaxInt. intros Hz. rewrite Z.mod_small; lia. Qed.

Lemma run_chain_fields corr runs c : 0 <= Depth c -> Depth c + Z.of_nat (length runs) <= MaxInt ->
  Depth (run_chain c corr runs) = Depth c + Z.of_nat (length runs)
  /\ Chain (run_chain c corr runs) = Chain c ++ runs
  /\ CausationId (run_chain c corr runs) = default (CausationId c) (l_RunId <$> last runs).
Proof.
  revert c. induction runs as [|r runs IH]; intros c Hd Hb; [cbn; rewrite app_nil_r; repeat split; lia|]. cbn [length] in Hb.
  assert (Hn : Depth (Next c (l_Automation r) (l_RunId r) corr) = Depth c + 1) by (apply wrap_int_small; unfold MinInt; lia).
  destruct (IH (Next c (l_Automation r) (l_RunId r) corr)) as (D & C & I); [lia..|].
  change (run_chain c corr (r :: runs)) with (run_chain (Next c (l_Automation r) (l_RunId r) corr) corr runs).
  rewrite D, C, I, Hn. cbn [Next Chain CausationId length].
  assert (Hr : mkLink (l_Automation r) (l_RunId r) = r) by (by destruct r). rewrite Hr.
  split; [lia|]. split; [by rewrite <- app_assoc|].
  destruct runs as [|r' runs]; [done|]. rewrite last_cons_cons.
  destruct (last (r' :: runs)) eqn:Hlast; [done|]. by apply last_None in Hlast.
Qed.

(** A cause counts and names the runs of its chain: after any sequence of runs
    from a root event, the depth is the number of runs, the chain lists them
    oldest first, and the causation id is the last run's. *)
Theorem cause_depth_counts (corr : gostring) (runs : list Link) : Z.of_nat (length runs) <= MaxInt ->
  let c := run_chain zeroCause corr runs in
  Depth c = Z.of_nat (length runs) /\ Chain c = runs
  /\ CausationId c = default [] (l_RunId <$> last runs)
  /\ (runs <> [] -> CauseFromContext (ContextWithCause None c) = Some c).
Proof.
  intros Hb c. destruct (run_chain_fields corr runs zeroCause) as (D & C & I); [done|done|]. fold c in D, C, I.
  split; [done|]. split; [done|]. split; [done|]. intros Hne. cbn.
  unfold IsZero. rewrite D. destruct runs as [|r runs]; [done|].
  replace (Depth zeroCause + Z.of_nat (length (r :: runs)) =? 0) with false.
  - by rewrite andb_false_r.
  - symmetry. apply Z.eqb_neq. cbn. lia.
Qed.

(** The JSON object the cause's struct tags give, as a decoder that keeps
    numbers reads it back. *)
Definition link_json (l : Link) : decoded :=
  DMap [(go "automation", DString (l_Automation l)); (go "runId", DString (l_RunId l))].

Definition cause_json (c : Cause) : list (gostring * decoded) :=
  (if CausationId c =s [] then [] else [(go "causationId", DString (CausationId c))])
  ++ (if CorrelationId c =s [] then [] else [(go "correlationId", DString (CorrelationId c))])
  ++ (if Depth c =? 0 then [] else [(go "depth", DNumber (FormatInt (Depth c)))])
  ++ match Chain c with [] => [] | ls => [(go "chain", DSlice (link_json <$> ls))] end.

Lemma links_back (ls : list Link) :
  omap (fun e => match e with DMap l => Some (linkFromMap l) | _ => None end) (link_json <$> ls) = ls.
Proof. induction ls as [|[a r] ls IH]; [done|]. cbn. f_equal. exact IH. Qed.

Lemma causeDepth_number z : 0 <= z <= MaxInt -> causeDepth (Some (DNumber (FormatInt z))) = z.
Proof.
  intros Hz. unfold causeDepth. rewrite ParseInt_FormatInt.
  - unfold ClampInt64, MaxInt, MinInt in *. destruct (Z.ltb_spec (2 ^ 63 - 1) z); [lia|].
    destruct (Z.ltb_spec z (- 2 ^ 63)); [lia|]. destruct (Z.ltb_spec z 0); [lia|done].
  - unfold in_int64, between, int64_min, int64_max, MaxInt in *. apply andb_true_iff. rewrite !Z.leb_le. lia.
Qed.

(** A cause survives its JSON form: reading back the object its struct tags
    write, empty fields left out, gives the same cause, so a resumed run runs
    at the depth its first attempt did. *)
Theorem CauseFromMap_round_trip (c : Cause) :
  0 <= Depth c <= MaxInt -> CauseFromMap (cause_json c) = c.
Proof.
  intros Hd. destruct c as [ca co d ch]. unfold cause_json.
  cbn [CausationId CorrelationId Depth Chain] in *. pose proof (links_back ch) as Hback.
  pose proof (causeDepth_number d Hd) as Hdep.
  destruct (ca =s []) eqn:Hca; [apply eqs_true in Hca as ->|];
  (destruct (co =s []) eqn:Hco; [apply eqs_true in Hco as ->|]);
  (destruct (d =? 0) eqn:Hd0; [apply Z.eqb_eq in Hd0 as ->|]);
  destruct ch as [|l ch]; cbn [app CauseFromMap]; try done;
  unfold zeroCause; f_equal; try done; exact Hback.
Qed.

Lemma CauseFromMap_round_trip_witness :
  let c := mkCause (go "r2") (go "c1") 2 [mkLink (go "a") (go "r1"); mkLink (go "b") (go "r2")] in
  CauseFromMap (cause_json c) = c.
Proof. intros c. apply CauseFromMap_round_trip. unfold MaxInt, c. cbn. lia. Defined.

(** A cloned event shares no map with the original: the clone reads the same
    topic, payload and metadata, every map that existed reads as before, and
    metadata written through the clone afterwards is not seen through the
    original. *)
Theorem Clone_isolated (h : heap) (e : Event) (key value : gostring) :
  allocated h e ->
  let '(e1, h1) := Clone h e in
  let '(e2, h2) := WithMetadata h1 e1 key value in
  contents h1 (Payload e1) = contents h (Payload e)
  /\ contents h1 (Metadata e1) = contents h (Metadata e)
  /\ contents h2 (Metadata e2) !! key = Some (AScalar value)
  /\ contents h2 (Payload e) = contents h (Payload e)
  /\ contents h2 (Metadata e) = contents h (Metadata e).
Proof.
  intros Hall. destruct (Clone h e) as [e1 h1] eqn:Hc.
  apply Clone_spec in Hc as (Hs & _ & _ & Hp & Hm & Hf & _); [|done].
  assert (Hin : forall l, Payload e = Some l \/ Metadata e = Some l -> l ∈ dom h).
  { intros l Hl. unfold allocated, maps in Hall. rewrite Forall_forall in Hall. apply Hall.
    apply elem_of_app. destruct Hl as [-> | ->]; [left|right]; by apply list_elem_of_singleton. }
  assert (Hkeep : forall h2 x, (forall l, l ∈ dom h -> h2 !! l = h1 !! l) ->
    (x = Payload e \/ x = Metadata e) -> contents h2 x = contents h x).
  { intros h2 x Hsame Hx. destruct x as [l|]; [|done].
    assert (Hl : l ∈ dom h) by (apply Hin; destruct Hx as [<-|<-]; auto).
    cbn. rewrite Hsame by done. apply elem_of_dom in Hl as [m Hlm]. rewrite Hlm.
    by rewrite (lookup_weaken _ _ _ _ Hlm Hs). }
  unfold WithMetadata. destruct (Metadata e1) as [l|] eqn:Hl.
  - assert (Hfresh : l ∉ dom h).
    { unfold maps in Hf. rewrite Hl in Hf. apply Forall_app in Hf as [_ Hf]. by apply Forall_inv in Hf as [? _]. }
    rewrite Hl. split; [done|]. split; [done|]. split.
    { cbn. rewrite lookup_insert_eq. cbn. by rewrite lookup_insert_eq. }
    split; apply Hkeep; auto; intros l' Hl'; apply lookup_insert_ne; intros ->; done.
  - destruct (alloc h1 _) as [l h2] eqn:Ha. apply alloc_spec in Ha as (Hl1 & Hl2 & Hs2). cbn [Metadata].
    split; [done|]. split; [done|]. split; [cbn; rewrite Hl2; cbn; by rewrite lookup_singleton_eq|].
    assert (Hsame : forall l', l' ∈ dom h -> h2 !! l' = h1 !! l').
    { intros l' Hl'. apply (subseteq_dom_elem h h1) in Hl'; [|done]. apply elem_of_dom in Hl' as [m Hm'].
      rewrite Hm'. by eapply lookup_weaken. }
    split; apply Hkeep; auto.
Qed.

Definition sample_heap : heap := {[1%positive := ∅; 2%positive := {[go "k" := AScalar (go "v")]}]}.
Definition sample_event : Event :=
  mkEvent (go "graph.node.created") 5 0 (Some 1%positive) (Some 2%positive) [] [] zeroCause.

Lemma Clone_isolated_witness :
  let '(e1, h1) := Clone sample_heap sample_event in
  let '(e2, h2) := WithMetadata h1 e1 (go "k") (go "w") in
  contents h1 (Payload e1) = contents sample_heap (Payload sample_event)
  /\ contents h1 (Metadata e1) = contents sample_heap (Metadata sample_event)
  /\ contents h2 (Metadata e2) !! go "k" = Some (AScalar (go "w"))
  /\ contents h2 (Payload sample_event) = contents sample_heap (Payload sample_event)
  /\ contents h2 (Metadata sample_event) = contents sample_heap (Metadata sample_event).
Proof.
  apply (Clone_isolated sample_heap sample_event (go "k") (go "w")).
  unfold allocated, sample_event, maps. cbn. repeat constructor; apply elem_of_dom; vm_compute; eauto.
Defined.

(** WithMetadata does not copy: when the event has a metadata map, the entry
    is written into that map, and every other copy of the event that holds the
    map reads it, the one WithMetadata was called on included.  Only an event
    without metadata gets a map of its own. *)
Theorem WithMetadata_shares (h : heap) (e : Event) (key value : gostring) :
  let '(e', h') := WithMetadata h e key value in
  contents h' (Metadata e') !! key = Some (AScalar value)
  /\ match Metadata e with
     | Some _ => e' = e /\ contents h' (Metadata e) !! key = Some (AScalar value)
     | None => contents h' (Metadata e) = ∅
     end.
Proof.
  unfold WithMetadata. destruct (Metadata e) as [l|] eqn:Hl.
  - rewrite Hl. cbn. rewrite lookup_insert_eq. cbn. by rewrite lookup_insert_eq.
  - destruct (alloc h _) as [l h'] eqn:Ha. apply alloc_spec in Ha as (_ & Hm & _). cbn [Metadata contents].
    rewrite Hm. cbn. by rewrite lookup_singleton_eq.
Qed.

(** A clone is one level deep: a payload entry that refers to a nested map
    refers to the same map in the clone, so a write to the nested map through
    either event is seen through both. *)
Theorem Clone_shares_nested (h : heap) (e : Event) (key : gostring) (l : positive) :
  allocated h e -> contents h (Payload e) !! key = Some (ARef l) ->
  let '(e1, h1) := Clone h e in contents h1 (Payload e1) !! key = Some (ARef l).
Proof.
  intros Hall Hk. destruct (Clone h e) as [e1 h1] eqn:Hc.
  apply Clone_spec in Hc as (_ & _ & _ & Hp & _); [|done]. by rewrite Hp.
Qed.

Lemma Clone_shares_nested_witness :
  let h : heap := {[1%positive := {[go "row" := ARef 3]}; 2%positive := ∅; 3%positive := ∅]} in
  let '(e1, h1) := Clone h sample_event in contents h1 (Payload e1) !! go "row" = Some (ARef 3).
Proof.
  intros h. apply (Clone_shares_nested h sample_event (go "row") 3).
  - unfold allocated, sample_event, maps. cbn. repeat constructor; apply elem_of_dom; vm_compute; eauto.
  - vm_compute. reflexivity.
Defined.

(** *** Narrowing *)

(** The float values Go has: at most 53 mantissa bits. *)
Definition float_ok (v : float64) : Prop :=
  match v with S754_finite _ m e => Z.pos m < 2 ^ 53 | _ => True end.

Lemma compare_big (v : float64) m e : v = S754_finite false m e -> Z.pos m < 2 ^ 53 ->
  f64_leb float_MaxInt v = false -> 0 <= trunc v < 2 ^ 63.
Proof.
  intros -> Hm. unfold f64_leb, SFleb, SFcompare, float_MaxInt, trunc.
  destruct (Z.compare_spec 11 e) as [<-|He|He]; intros Hc.
  - change (Pos.compare_cont Eq 4503599627370496 m) with (Pos.compare 4503599627370496 m) in Hc.
    destruct (Pos.compare_spec 4503599627370496 m) as [|Hlt|Hgt]; [discriminate Hc | discriminate Hc |].
    assert (Hm2 : Z.pos m < 2 ^ 52) by exact (Pos2Z.pos_lt_pos m 4503599627370496 Hgt).
    clear Hc Hgt. change (0 <= Z.pos m * 2048 < 2048 * 2 ^ 52). lia.
  - done.
  - destruct (Z.leb_spec 0 e).
    + assert (2 ^ e <= 2 ^ 10) by (apply Z.pow_le_mono_r; lia).
      assert (0 < 2 ^ e) by (by apply Z.pow_pos_nonneg). split; [lia|].
      apply Z.le_lt_trans with (Z.pos m * 2 ^ 10); [apply Z.mul_le_mono_nonneg_l; lia|]. lia.
    + assert (0 < 2 ^ (- e)) by (apply Z.pow_pos_nonneg; lia).
      split; [apply Z.div_pos; lia|]. apply Z.le_lt_trans with (Z.pos m); [|lia].
      apply Z.div_le_upper_bound; [done|]. nia.
Qed.

(** A decoded depth never wraps: whatever number a journal row holds, the
    depth read from it is a non-negative int, and a float at or above 2^63
    reads as the largest int rather than as a small one, so a chain past every
    cap stays past it. *)
Theorem causeDepth_saturates (v : float64) :
  float_ok v ->
  0 <= causeDepth (Some (DFloat64 v)) <= MaxInt
  /\ (f64_leb float_MaxInt v = true -> causeDepth (Some (DFloat64 v)) = MaxInt)
  /\ (f64_leb f64_zero v = true -> f64_leb float_MaxInt v = false ->
      causeDepth (Some (DFloat64 v)) = trunc v).
Proof.
  intros Hok. unfold causeDepth, ClampFloat64. destruct (is_nan v) eqn:Hn.
  { destruct v; try (discriminate Hn). cbn. unfold MaxInt. repeat split; (lia || done). }
  destruct (f64_leb float_MaxInt v) eqn:Hbig.
  { unfold MaxInt. cbn. repeat split; (lia || done). }
  destruct (f64_leb v float_MinInt) eqn:Hsmall.
  { replace (MinInt <? 0) with true by reflexivity. unfold MaxInt. split; [lia|]. split; [done|].
    intros Hz _. destruct v as [[]|[]| |[] m e]; done. }
  destruct v as [s|s| |[] m e]; [|by destruct s|discriminate Hn|..].
  - replace (ClampInt64 (trunc (S754_zero s))) with 0 by reflexivity. change (0 <? 0) with false.
    unfold MaxInt. split; [lia|]. split; [congruence | done].
  - assert (Hneg : ClampInt64 (trunc (S754_finite true m e)) <= 0).
    { assert (trunc (S754_finite true m e) <= 0).
      { cbn. destruct (0 <=? e) eqn:He.
        - assert (0 <= 2 ^ e) by (apply Z.pow_nonneg; lia). lia.
        - apply Z.leb_gt in He. assert (0 < 2 ^ (- e)) by (apply Z.pow_pos_nonneg; lia).
          assert (0 <= Z.pos m / 2 ^ (- e)) by (apply Z.div_pos; lia). lia. }
      unfold ClampInt64, MaxInt, MinInt. destruct (Z.ltb_spec (2 ^ 63 - 1) (trunc (S754_finite true m e))); [lia|].
      destruct (Z.ltb_spec (trunc (S754_finite true m e)) (- 2 ^ 63)); lia. }
    unfold MaxInt in *. destruct (Z.ltb_spec (ClampInt64 (trunc (S754_finite true m e))) 0); repeat split; (lia || done).
  - pose proof (compare_big _ m e eq_refl Hok Hbig) as Ht.
    assert (Hc : ClampInt64 (trunc (S754_finite false m e)) = trunc (S754_finite false m e)).
    { unfold ClampInt64, MaxInt, MinInt. destruct (Z.ltb_spec (2 ^ 63 - 1) (trunc (S754_finite false m e))); [lia|].
      destruct (Z.ltb_spec (trunc (S754_finite false m e)) (- 2 ^ 63)); lia. }
    rewrite Hc. unfold MaxInt. destruct (Z.ltb_spec (trunc (S754_finite false m e)) 0); [lia|].
    repeat split; (lia || done).
Qed.

Lemma causeDepth_saturates_witness :
  let v := S754_finite false 4503599627370497 30 in
  0 <= causeDepth (Some (DFloat64 v)) <= MaxInt
  /\ (f64_leb float_MaxInt v = true -> causeDepth (Some (DFloat64 v)) = MaxInt)
  /\ (f64_leb f64_zero v = true -> f64_leb float_MaxInt v = false ->
      causeDepth (Some (DFloat64 v)) = trunc v).
Proof. intros v. apply (causeDepth_saturates v). unfold float_ok, v. lia. Defined.
