(* ===== verification/Bus.v ===== *)
(** The in-memory bus: component/events/bus.go.

    Every public operation that reads [closed] before it takes the lock is two
    steps, so that others can run in between: Subscribe checks and later
    inserts, Publish checks and later takes its snapshot, Close sets the flag
    and later empties the map.  A delivery is a step of its own, taken by the
    goroutine Publish started.  A subscription object is known by its id
    (generateId never repeats one below 2^64 registrations); [b_dead] holds the
    ids of the objects whose own [closed] flag is set.  Logging is left out. *)

From S2P Require Import Prelude GoText Topics Events.

Record subscription := mkSub {
  s_id : gostring;
  s_name : gostring;
  s_pattern : gostring;
  s_handler : nat
}.

Record Bus := mkBus {
  subscriptions : gmap gostring subscription;
  nextId : Z;
  closed : bool;
  b_dead : gset gostring;
  b_heap : gmap positive (gmap gostring any);
  b_subscribing : list subscription;            (* checked, not yet inserted *)
  b_publishing : list Event;                    (* checked, not yet snapshot *)
  b_closing : bool;                             (* flag set, map not yet emptied *)
  b_pending : list (subscription * Event);      (* goroutines not yet run *)
  b_delivered : list (subscription * Event)     (* handler calls made *)
}.

Definition NewBus (h : gmap positive (gmap gostring any)) : Bus :=
  mkBus ∅ 0 false ∅ h [] [] false [] [].

(** ** Ids *)

(** strconv.FormatUint(n, 36) *)
Definition base36_char (d : Z) : rune := if d <? 10 then 48 + d else 87 + d.

Fixpoint base36_digits (fuel : nat) (n : Z) (acc : gostring) : gostring :=
  match fuel with
  | O => acc
  | S f =>
      let acc' := base36_char (n mod 36) :: acc in
      if n <? 36 then acc' else base36_digits f (n / 36) acc'
  end.

Definition FormatUint36 (n : Z) : gostring := base36_digits (S (Z.to_nat (Z.log2 n))) n [].

(** generateId: the counter after the atomic increment, a uint64. *)
Definition next_counter (b : Bus) : Z := (nextId b + 1) mod 2 ^ 64.

Definition generateId (b : Bus) : gostring := FormatUint36 (next_counter b).

(** ** Operations *)

(** Subscribe up to the lock: [None] is the no-op unsubscribe of a closed bus or
    a nil handler. *)
Definition Subscribe_begin (b : Bus) (pattern name : gostring) (handler : option nat)
    : option gostring * Bus :=
  match handler with
  | Some hd =>
      if closed b then (None, b)
      else
        let id := generateId b in
        let sub := mkSub id name (NormalizePattern pattern) hd in
        (Some id, mkBus (subscriptions b) (next_counter b) (closed b) (b_dead b) (b_heap b)
                    (b_subscribing b ++ [sub]) (b_publishing b) (b_closing b)
                    (b_pending b) (b_delivered b))
  | None => (None, b)
  end.

(** The insertion, under the lock, of the [k]-th waiting Subscribe. *)
Definition Subscribe_insert (b : Bus) (k : nat) : Bus :=
  match b_subscribing b !! k with
  | Some sub =>
      mkBus (<[s_id sub := sub]> (subscriptions b)) (nextId b) (closed b) (b_dead b) (b_heap b)
        (take k (b_subscribing b) ++ drop (S k) (b_subscribing b)) (b_publishing b) (b_closing b)
        (b_pending b) (b_delivered b)
  | None => b
  end.

Definition unsubscribe (b : Bus) (id : gostring) : Bus :=
  if id =s [] then b
  else match subscriptions b !! id with
       | Some _ =>
           mkBus (delete id (subscriptions b)) (nextId b) (closed b) ({[id]} ∪ b_dead b) (b_heap b)
             (b_subscribing b) (b_publishing b) (b_closing b) (b_pending b) (b_delivered b)
       | None => b
       end.

Definition Publish_begin (b : Bus) (e : Event) : Bus :=
  if closed b then b
  else mkBus (subscriptions b) (nextId b) (closed b) (b_dead b) (b_heap b)
         (b_subscribing b) (b_publishing b ++ [e]) (b_closing b) (b_pending b) (b_delivered b).

(** The subscriptions an event reaches. *)
Definition receives (b : Bus) (e : Event) (sub : subscription) : bool :=
  negb (bool_decide (s_id sub ∈ b_dead b)) && Match (s_pattern sub) (Topic e).

Definition snapshot (b : Bus) (e : Event) : list subscription :=
  List.filter (receives b e) ((map_to_list (subscriptions b)).*2).

(** One clone per subscriber. *)
Fixpoint clones (h : gmap positive (gmap gostring any)) (e : Event) (subs : list subscription)
    : list (subscription * Event) * gmap positive (gmap gostring any) :=
  match subs with
  | [] => ([], h)
  | sub :: subs' =>
      let '(e', h1) := Clone h e in
      let '(rest, h2) := clones h1 e subs' in
      ((sub, e') :: rest, h2)
  end.

(** The snapshot and the goroutines of the [k]-th waiting Publish. *)
Definition Publish_snapshot (b : Bus) (k : nat) : Bus :=
  match b_publishing b !! k with
  | Some e =>
      let '(deliveries, h) := clones (b_heap b) e (snapshot b e) in
      mkBus (subscriptions b) (nextId b) (closed b) (b_dead b) h (b_subscribing b)
        (take k (b_publishing b) ++ drop (S k) (b_publishing b)) (b_closing b)
        (b_pending b ++ deliveries) (b_delivered b)
  | None => b
  end.

(** PublishSync's snapshot: one clone for every subscriber. *)
Definition PublishSync_snapshot (b : Bus) (e : Event) : Bus :=
  if closed b then b
  else
    match snapshot b e with
    | [] => b
    | subs =>
        let '(e', h) := Clone (b_heap b) e in
        mkBus (subscriptions b) (nextId b) (closed b) (b_dead b) h (b_subscribing b)
          (b_publishing b) (b_closing b) (b_pending b ++ ((fun sub => (sub, e')) <$> subs)) (b_delivered b)
    end.

(** deliverEvent, run by the [k]-th waiting goroutine: the flag is read again. *)
Definition deliverEvent (b : Bus) (k : nat) : Bus :=
  match b_pending b !! k with
  | Some (sub, e) =>
      mkBus (subscriptions b) (nextId b) (closed b) (b_dead b) (b_heap b) (b_subscribing b)
        (b_publishing b) (b_closing b) (take k (b_pending b) ++ drop (S k) (b_pending b))
        (if bool_decide (s_id sub ∈ b_dead b) then b_delivered b else b_delivered b ++ [(sub, e)])
  | None => b
  end.

(** A handler writes an entry of a map its event holds. *)
Definition handler_write (b : Bus) (k : nat) (l : positive) (key : gostring) (v : any) : Bus :=
  match b_delivered b !! k with
  | Some (_, e) =>
      if bool_decide (l ∈ maps e) then
        mkBus (subscriptions b) (nextId b) (closed b) (b_dead b)
          (<[l := <[key := v]> (contents (b_heap b) (Some l))]> (b_heap b)) (b_subscribing b)
          (b_publishing b) (b_closing b) (b_pending b) (b_delivered b)
      else b
  | None => b
  end.

(** Close: the flag, then the map under the lock. *)
Definition Close_flag (b : Bus) : Bus :=
  if closed b then b
  else mkBus (subscriptions b) (nextId b) true (b_dead b) (b_heap b) (b_subscribing b)
         (b_publishing b) true (b_pending b) (b_delivered b).

Definition Close_clear (b : Bus) : Bus :=
  if b_closing b then
    mkBus ∅ (nextId b) (closed b) (dom (subscriptions b) ∪ b_dead b) (b_heap b) (b_subscribing b)
      (b_publishing b) false (b_pending b) (b_delivered b)
  else b.

Definition SubscriberCount (b : Bus) : nat := size (subscriptions b).

(** ** Runs *)

Inductive step : Bus -> Bus -> Prop :=
| step_subscribe b pattern name hd : step b (Subscribe_begin b pattern name hd).2
| step_insert b k : step b (Subscribe_insert b k)
| step_unsubscribe b id : step b (unsubscribe b id)
| step_publish b e : allocated (b_heap b) e -> step b (Publish_begin b e)
| step_snapshot b k : step b (Publish_snapshot b k)
| step_deliver b k : step b (deliverEvent b k)
| step_handle b k l key v : step b (handler_write b k l key v)
| step_close b : step b (Close_flag b)
| step_clear b : step b (Close_clear b).
