(* ===== verification/BusFacts.v ===== *)
(** Facts about the bus: ids do not repeat, deliveries are sound and isolated,
    and an unsubscribed handler is not called again.  All are invariants of the
    interleaved runs of [step]. *)

From S2P Require Import Prelude GoText Topics Events Bus.

(** ** Ids *)

Definition base36_value (c : rune) : Z := if c <? 58 then c - 48 else c - 87.

Definition read36 (s : gostring) : Z := fold_left (fun v c => v * 36 + base36_value c) s 0.

Lemma base36_char_value d : 0 <= d < 36 -> base36_value (base36_char d) = d.
Proof.
  intros Hd. unfold base36_char, base36_value. destruct (Z.ltb_spec d 10).
  - destruct (Z.ltb_spec (48 + d) 58); lia.
  - destruct (Z.ltb_spec (87 + d) 58); lia.
Qed.

(** The digits before [acc] read as [n]. *)
Lemma base36_digits_read fuel n acc :
  0 <= n < 2 ^ Z.of_nat fuel -> exists ds, base36_digits fuel n acc = ds ++ acc /\ read36 ds = n.
Proof.
  revert n acc. induction fuel as [|f IH]; intros n acc Hn.
  { change (2 ^ Z.of_nat 0) with 1 in Hn. exists []. split; [done|]. cbn. lia. }
  cbn [base36_digits]. destruct (Z.ltb_spec n 36).
  - exists [base36_char (n mod 36)]. split; [done|]. unfold read36. cbn [fold_left].
    rewrite Z.mod_small by lia. rewrite base36_char_value by lia. lia.
  - assert (Hq : 0 <= n / 36 < 2 ^ Z.of_nat f).
    { split; [apply Z.div_pos; lia|]. apply Z.div_lt_upper_bound; [lia|].
      rewrite Nat2Z.inj_succ, Z.pow_succ_r in Hn by lia. lia. }
    destruct (IH (n / 36) (base36_char (n mod 36) :: acc) Hq) as (ds & -> & Hds).
    exists (ds ++ [base36_char (n mod 36)]). split; [by rewrite <- app_assoc|].
    unfold read36. rewrite fold_left_app. fold (read36 ds). rewrite Hds. cbn [fold_left].
    rewrite base36_char_value by (apply Z.mod_pos_bound; lia).
    pose proof (Z.div_mod n 36 ltac:(lia)). lia.
Qed.

Lemma FormatUint36_read n : 0 <= n -> read36 (FormatUint36 n) = n.
Proof.
  intros Hn. unfold FormatUint36.
  destruct (base36_digits_read (S (Z.to_nat (Z.log2 n))) n []) as (ds & -> & Hds); [|by rewrite app_nil_r].
  split; [done|]. rewrite Nat2Z.inj_succ, Z2Nat.id by apply Z.log2_nonneg.
  destruct (Z.eq_dec n 0) as [->|]; [done|]. apply Z.log2_spec. lia.
Qed.

Lemma FormatUint36_inj n m : 0 <= n -> 0 <= m -> FormatUint36 n = FormatUint36 m -> n = m.
Proof. intros Hn Hm Heq. rewrite <- (FormatUint36_read n), <- (FormatUint36_read m) by done. by rewrite Heq. Qed.

(** ** Runs in which the counter does not wrap *)

Inductive reach : Bus -> Prop :=
| reach_new h : reach (NewBus h)
| reach_step b b' : reach b -> step b b' -> nextId b <= nextId b' -> reach b'.

Inductive steps : Bus -> Bus -> Prop :=
| steps_refl b : steps b b
| steps_step b b' b'' : steps b b' -> step b' b'' -> steps b b''.

(** An id that generateId has given out. *)
Definition issued (b : Bus) (id : gostring) : Prop :=
  exists i, 1 <= i <= nextId b /\ id = FormatUint36 i.

(** Every id known anywhere was issued, a subscription is filed under its own
    id, and a subscription not yet inserted has an id nothing else has. *)
Record ids_ok (b : Bus) : Prop := {
  io_count : 0 <= nextId b < 2 ^ 64;
  io_own : forall id s, subscriptions b !! id = Some s -> s_id s = id /\ issued b id;
  io_waiting : Forall (fun s => issued b (s_id s) /\ subscriptions b !! s_id s = None
                                /\ (s_id s ∉ b_dead b)) (b_subscribing b);
  io_distinct : NoDup (s_id <$> b_subscribing b);
  io_dead : forall id, id ∈ b_dead b -> issued b id /\ subscriptions b !! id = None
}.

Lemma issued_mono b b' id : nextId b <= nextId b' -> issued b id -> issued b' id.
Proof. intros Hle (i & Hi & ->). exists i. split; [lia|done]. Qed.

Lemma next_counter_fresh b : 0 <= nextId b < 2 ^ 64 -> nextId b <= next_counter b ->
  next_counter b = nextId b + 1 /\ ~ issued b (generateId b).
Proof.
  intros Hb Hle. unfold next_counter in *.
  assert (Hn : (nextId b + 1) mod 2 ^ 64 = nextId b + 1).
  { destruct (Z.eq_dec (nextId b + 1) (2 ^ 64)) as [Heq|]; [|apply Z.mod_small; lia].
    rewrite Heq, Z.mod_same in Hle by lia. lia. }
  split; [done|]. intros (i & Hi & Heq). unfold generateId, next_counter in Heq. rewrite Hn in Heq.
  apply FormatUint36_inj in Heq; lia.
Qed.

Lemma take_drop_Forall {A} (P : A -> Prop) k (l : list A) : Forall P l -> Forall P (take k l ++ drop (S k) l).
Proof. intros H. apply Forall_app_2; [by apply Forall_take | by apply Forall_drop]. Qed.

Lemma take_drop_middle_perm {A} k (l : list A) x : l !! k = Some x -> l ≡ₚ x :: take k l ++ drop (S k) l.
Proof.
  intros Hx. rewrite <- (take_drop_middle l k x Hx) at 1. symmetry. apply Permutation_middle.
Qed.

(** Steps that touch none of the fields the invariant reads. *)
Lemma ids_ok_same b b' : ids_ok b -> nextId b' = nextId b -> subscriptions b' = subscriptions b ->
  b_subscribing b' = b_subscribing b -> b_dead b' = b_dead b -> ids_ok b'.
Proof.
  intros [H1 H2 H3 H4 H5] E1 E2 E3 E4.
  constructor; unfold issued in *; rewrite ?E1, ?E2, ?E3, ?E4; done.
Qed.

Lemma ids_ok_subscribe b pattern name hd : ids_ok b ->
  nextId b <= nextId (Subscribe_begin b pattern name hd).2 ->
  ids_ok (Subscribe_begin b pattern name hd).2.
Proof.
  intros [H1 H2 H3 H4 H5] Hle. pose proof (Build_ids_ok b H1 H2 H3 H4 H5) as Hb.
  unfold Subscribe_begin in *. destruct hd as [hd|]; [|done]. destruct (closed b) eqn:Hc; [done|].
  cbn [snd nextId] in Hle. destruct (next_counter_fresh b H1 Hle) as [Hn Hfresh].
  set (b' := mkBus _ _ _ _ _ _ _ _ _ _).
  assert (Hm : forall id, issued b id -> issued b' id) by (intros id; apply issued_mono; cbn; lia).
  constructor; cbn [b' snd nextId subscriptions b_subscribing b_dead].
  - pose proof (Z.mod_pos_bound (nextId b + 1) (2 ^ 64)). unfold next_counter. lia.
  - intros id s Hs. apply H2 in Hs as [? ?]. split; [done | by apply Hm].
  - apply Forall_app_2.
    + eapply Forall_impl; [exact H3|]. intros s (? & ? & ?). by split; [apply Hm|].
    + constructor; [|constructor]. cbn. split; [exists (next_counter b); cbn; split; [lia|done]|]. split.
      * destruct (subscriptions b !! generateId b) eqn:He; [|done]. by apply H2 in He as [_ ?].
      * intros Hd. by apply H5 in Hd as [? _].
  - rewrite fmap_app. apply NoDup_app. split; [done|]. split; [|apply NoDup_singleton].
    intros id Hid Hid2. cbn in Hid2. apply list_elem_of_singleton in Hid2 as ->.
    apply list_elem_of_fmap in Hid as (s & Hs & Hin). rewrite Forall_forall in H3.
    apply H3 in Hin as (? & _). by rewrite <- Hs in *.
  - intros id Hid. apply H5 in Hid as [? ?]. split; [by apply Hm|done].
Qed.

Lemma ids_ok_insert b k : ids_ok b -> ids_ok (Subscribe_insert b k).
Proof.
  intros [H1 H2 H3 H4 H5]. pose proof (Build_ids_ok b H1 H2 H3 H4 H5) as Hb.
  unfold Subscribe_insert in *. destruct (b_subscribing b !! k) as [sub|] eqn:Hk; [|done].
  pose proof (take_drop_middle_perm _ _ _ Hk) as Hperm.
  assert (Hsub : issued b (s_id sub) /\ subscriptions b !! s_id sub = None /\ (s_id sub ∉ b_dead b)).
  { rewrite Forall_forall in H3. apply H3. by eapply list_elem_of_lookup_2. }
  rewrite Hperm in H4. cbn in H4. apply NoDup_cons in H4 as [Hnin Hnd].
  constructor; cbn [nextId subscriptions b_subscribing b_dead].
  - done.
  - intros id s Hs. apply lookup_insert_Some in Hs as [[<- <-]|[_ Hs]]; [split; [done | apply Hsub] | by apply H2].
  - apply take_drop_Forall with (k := k) in H3. rewrite Forall_forall in *. intros s Hs.
    destruct (H3 s Hs) as (? & ? & ?). split; [done|]. split; [|done].
    rewrite lookup_insert_ne; [done|]. intros Heq. apply Hnin. rewrite Heq.
    apply list_elem_of_fmap. eauto.
  - done.
  - intros id Hid. pose proof (H5 id Hid) as [? ?]. split; [done|]. rewrite lookup_insert_ne; [done|].
    intros Heq. rewrite Heq in Hsub. by destruct Hsub as (_ & _ & ?).
Qed.

Lemma ids_ok_unsubscribe b id : ids_ok b -> ids_ok (unsubscribe b id).
Proof.
  intros [H1 H2 H3 H4 H5]. pose proof (Build_ids_ok b H1 H2 H3 H4 H5) as Hb.
  unfold unsubscribe in *. destruct (id =s []); [done|].
  destruct (subscriptions b !! id) as [sub|] eqn:Hid; [|done].
  constructor; cbn [nextId subscriptions b_subscribing b_dead].
  - done.
  - intros id' s Hs. apply lookup_delete_Some in Hs as [_ Hs]. by apply H2.
  - rewrite Forall_forall in *. intros s Hs. destruct (H3 s Hs) as (? & ? & ?).
    split; [done|]. split; [apply lookup_delete_None; by right|].
    intros Hin. apply elem_of_union in Hin as [Hin|Hin]; [|done].
    apply elem_of_singleton in Hin. congruence.
  - done.
  - intros id' Hin. apply elem_of_union in Hin as [Hin|Hin].
    + apply elem_of_singleton in Hin as ->. split; [by apply (H2 id sub)|]. apply lookup_delete_eq.
    + apply H5 in Hin as [? ?]. split; [done|]. apply lookup_delete_None. by right.
Qed.

Lemma ids_ok_clear b : ids_ok b -> ids_ok (Close_clear b).
Proof.
  intros [H1 H2 H3 H4 H5]. pose proof (Build_ids_ok b H1 H2 H3 H4 H5) as Hb.
  unfold Close_clear in *. destruct (b_closing b); [|done].
  constructor; cbn [nextId subscriptions b_subscribing b_dead].
  - done.
  - intros id s Hs. by rewrite lookup_empty in Hs.
  - rewrite Forall_forall in *. intros s Hs. destruct (H3 s Hs) as (? & Hnone & ?).
    split; [done|]. split; [apply lookup_empty|]. intros Hin. apply elem_of_union in Hin as [Hin|Hin]; [|done].
    apply elem_of_dom in Hin as [? Hsome]. congruence.
  - done.
  - intros id Hin. split; [|apply lookup_empty]. apply elem_of_union in Hin as [Hin|Hin]; [|by apply H5].
    apply elem_of_dom in Hin as [s Hs]. by apply (H2 id s).
Qed.

Lemma ids_ok_step b b' : ids_ok b -> step b b' -> nextId b <= nextId b' -> ids_ok b'.
Proof.
  intros Hb Hstep Hle. destruct Hstep;
    auto using ids_ok_subscribe, ids_ok_insert, ids_ok_unsubscribe, ids_ok_clear;
    (apply (ids_ok_same b); [done|..]);
    unfold Publish_begin, Publish_snapshot, deliverEvent, handler_write, Close_flag;
    repeat case_match; done.
Qed.

Lemma reach_ids_ok b : reach b -> ids_ok b.
Proof.
  induction 1 as [h|b b' _ IH Hs Hle]; [|by eapply ids_ok_step].
  constructor; cbn; try done; try constructor; set_solver.
Qed.

(** ** Deliveries *)

Definition deliveries (b : Bus) : list (subscription * Event) := b_pending b ++ b_delivered b.

Definition delivery_maps (ds : list (subscription * Event)) : list positive := ds ≫= fun d => maps d.2.

Lemma clones_spec h e subs ds h' : clones h e subs = (ds, h') -> allocated h e ->
  h ⊆ h' /\ ds.*1 = subs
  /\ Forall (fun d => Topic d.2 = Topic e) ds
  /\ Forall (fun d => contents h' (Payload d.2) = contents h (Payload e)
                      /\ contents h' (Metadata d.2) = contents h (Metadata e)) ds
  /\ Forall (fun l => (l ∉ dom h) /\ l ∈ dom h') (delivery_maps ds) /\ NoDup (delivery_maps ds).
Proof.
  revert h ds h'. induction subs as [|sub subs IH]; intros h ds h'; cbn [clones].
  { intros [= <- <-] _. repeat split; try done; constructor. }
  destruct (Clone h e) as [e1 h1] eqn:Hc. destruct (clones h1 e subs) as [rest h2] eqn:Hr.
  intros [= <- <-] Hall. apply Clone_spec in Hc as (S1 & T1 & _ & P1 & M1 & F1 & N1); [|done].
  assert (Hall1 : allocated h1 e).
  { eapply Forall_impl; [exact Hall|]. intros l. by apply subseteq_dom_elem. }
  apply IH in Hr as (S2 & D2 & T2 & C2 & F2 & N2); [|done].
  assert (Hold : forall l, (forall x, l = Some x -> x ∈ maps e1) -> contents h2 l = contents h1 l).
  { intros l Hl. apply contents_grow; [done|]. intros x ->. rewrite Forall_forall in F1. apply F1. by apply Hl. }
  assert (Hsame : forall l, (forall x, l = Some x -> x ∈ maps e) -> contents h1 l = contents h l).
  { intros l Hl. apply contents_grow; [done|]. intros x ->.
    unfold allocated in Hall. rewrite Forall_forall in Hall. by apply Hall, Hl. }
  assert (Hpay : forall ev x, Payload ev = Some x -> x ∈ maps ev).
  { intros ev x Hx. unfold maps. rewrite Hx. apply elem_of_app. left. by apply list_elem_of_singleton. }
  assert (Hmeta : forall ev x, Metadata ev = Some x -> x ∈ maps ev).
  { intros ev x Hx. unfold maps. rewrite Hx. apply elem_of_app. right. by apply list_elem_of_singleton. }
  split; [by etrans|]. split; [cbn; by rewrite D2|]. split; [by constructor|]. split; [|split].
  - constructor.
    + cbn. rewrite !Hold by auto. done.
    + eapply Forall_impl; [exact C2|]. intros d [H1 H2]. rewrite H1, H2, !Hsame by auto. done.
  - cbn. apply Forall_app_2.
    + eapply Forall_impl; [exact F1|]. intros l [? ?]. split; [done|]. by apply (subseteq_dom_elem h1 h2).
    + eapply Forall_impl; [exact F2|]. intros l [Hl ?]. split; [|done]. intros Hin. apply Hl.
      by apply (subseteq_dom_elem h h1).
  - cbn. apply NoDup_app. split; [done|]. split; [|done]. intros l H1 H2.
    rewrite Forall_forall in F1, F2. apply F1 in H1 as [_ ?]. by apply F2 in H2 as [? _].
Qed.

(** Every delivery matches its subscription's pattern and holds maps no other
    delivery holds. *)
Record deliveries_ok (b : Bus) : Prop := {
  do_match : Forall (fun d => Match (s_pattern d.1) (Topic d.2) = true) (deliveries b);
  do_alloc : Forall (fun l => l ∈ dom (b_heap b)) (delivery_maps (deliveries b));
  do_distinct : NoDup (delivery_maps (deliveries b));
  do_publishing : Forall (allocated (b_heap b)) (b_publishing b)
}.

Lemma deliveries_ok_same b b' : deliveries_ok b -> b_pending b' = b_pending b ->
  b_delivered b' = b_delivered b -> b_heap b' = b_heap b -> b_publishing b' = b_publishing b ->
  deliveries_ok b'.
Proof.
  intros [H1 H2 H3 H4] E1 E2 E3 E4. constructor; unfold deliveries in *; rewrite ?E1, ?E2, ?E3, ?E4; done.
Qed.

Lemma delivery_maps_app d1 d2 : delivery_maps (d1 ++ d2) = delivery_maps d1 ++ delivery_maps d2.
Proof. apply bind_app. Qed.

Lemma deliveries_ok_snapshot b k : deliveries_ok b -> deliveries_ok (Publish_snapshot b k).
Proof.
  intros [H1 H2 H3 H4]. pose proof (Build_deliveries_ok b H1 H2 H3 H4) as Hb. unfold Publish_snapshot.
  destruct (b_publishing b !! k) as [e|] eqn:Hk; [|done].
  destruct (clones (b_heap b) e (snapshot b e)) as [ds h] eqn:Hc.
  assert (Hall : allocated (b_heap b) e).
  { rewrite Forall_forall in H4. apply H4. by eapply list_elem_of_lookup_2. }
  apply clones_spec in Hc as (S & D & T & _ & F & N); [|done].
  assert (Hds : Forall (fun d => Match (s_pattern d.1) (Topic d.2) = true) ds).
  { rewrite Forall_forall in *. intros d Hd. rewrite (T d Hd).
    assert (Hin : d.1 ∈ snapshot b e) by (rewrite <- D; apply list_elem_of_fmap; eauto).
    apply list_elem_of_In, filter_In in Hin as [_ Hr]. unfold receives in Hr. by apply andb_true_iff in Hr as [_ ?]. }
  assert (Hgrow : forall l, l ∈ dom (b_heap b) -> l ∈ dom h) by (intros l; by apply subseteq_dom_elem).
  constructor; unfold deliveries in *; cbn [b_pending b_delivered b_heap b_publishing];
    rewrite ?delivery_maps_app in *.
  - apply Forall_app in H1 as [? ?]. repeat apply Forall_app_2; done.
  - apply Forall_app in H2 as [G1 G2]. repeat apply Forall_app_2;
      (eapply Forall_impl; [eassumption|]); [auto | by intros l [_ ?] | auto].
  - assert (Hnew : forall l, l ∈ delivery_maps ds -> l ∉ dom (b_heap b)).
    { intros l Hl. rewrite Forall_forall in F. by apply F in Hl as [? _]. }
    assert (Hperm : (delivery_maps (b_pending b) ++ delivery_maps ds) ++ delivery_maps (b_delivered b)
       ≡ₚ delivery_maps ds ++ delivery_maps (b_pending b) ++ delivery_maps (b_delivered b)).
    { rewrite <- app_assoc. rewrite (Permutation_app_comm (delivery_maps ds) (delivery_maps (b_delivered b))).
      rewrite app_assoc. by rewrite Permutation_app_comm. }
    rewrite Hperm. apply NoDup_app. split; [done|]. split; [|done].
    intros l Hl1 Hl2. apply (Hnew l Hl1). rewrite Forall_forall in H2. by apply H2.
  - apply take_drop_Forall with (k := k) in H4. eapply Forall_impl; [exact H4|]. intros ev Hev.
    eapply Forall_impl; [exact Hev|]. intros l. apply Hgrow.
Qed.

Lemma deliveries_ok_deliver b k : deliveries_ok b -> deliveries_ok (deliverEvent b k).
Proof.
  intros [H1 H2 H3 H4]. pose proof (Build_deliveries_ok b H1 H2 H3 H4) as Hb. unfold deliverEvent.
  destruct (b_pending b !! k) as [[sub e]|] eqn:Hk; [|done].
  pose proof (take_drop_middle_perm _ _ _ Hk) as Hperm. set (rest := take k _ ++ drop _ _) in *.
  assert (Hall : deliveries b ≡ₚ (sub, e) :: rest ++ b_delivered b) by (unfold deliveries; by rewrite Hperm).
  assert (Hsub : exists ds, ((rest ++ (if bool_decide (s_id sub ∈ b_dead b) then b_delivered b
                                       else b_delivered b ++ [(sub, e)])) ++ ds) ≡ₚ deliveries b).
  { case_bool_decide.
    - exists [(sub, e)]. rewrite Hall. by rewrite Permutation_app_comm.
    - exists []. rewrite app_nil_r, Hall, app_assoc. by rewrite Permutation_app_comm. }
  destruct Hsub as (ds & Hds).
  constructor; unfold deliveries in *; cbn [b_pending b_delivered b_heap b_publishing].
  - rewrite <- Hds in H1. by apply Forall_app in H1 as [? _].
  - unfold delivery_maps in *. rewrite <- Hds, bind_app in H2. by apply Forall_app in H2 as [? _].
  - unfold delivery_maps in *. rewrite <- Hds, bind_app in H3. by apply NoDup_app in H3 as [? _].
  - done.
Qed.

Lemma deliveries_ok_write b k l key v : deliveries_ok b -> deliveries_ok (handler_write b k l key v).
Proof.
  intros [H1 H2 H3 H4]. pose proof (Build_deliveries_ok b H1 H2 H3 H4) as Hb. unfold handler_write.
  destruct (b_delivered b !! k) as [[sub e]|]; [|done]. case_bool_decide; [|done].
  assert (Hgrow : forall x, x ∈ dom (b_heap b) ->
    x ∈ dom (<[l := <[key := v]> (contents (b_heap b) (Some l))]> (b_heap b)))
    by (intros x Hx; rewrite dom_insert; set_solver).
  constructor; unfold deliveries in *; cbn [b_pending b_delivered b_heap b_publishing]; try done.
  - eapply Forall_impl; [exact H2|]. auto.
  - eapply Forall_impl; [exact H4|]. intros ev Hev. eapply Forall_impl; [exact Hev|]. auto.
Qed.

Lemma deliveries_ok_step b b' : deliveries_ok b -> step b b' -> deliveries_ok b'.
Proof.
  intros Hb Hstep. destruct Hstep;
    auto using deliveries_ok_snapshot, deliveries_ok_deliver, deliveries_ok_write;
    try (apply (deliveries_ok_same b); [done|..];
         unfold Subscribe_begin, Subscribe_insert, unsubscribe, Close_flag, Close_clear;
         repeat case_match; done).
  unfold Publish_begin. destruct (closed b); [done|]. destruct Hb as [H1 H2 H3 H4].
  constructor; try done. cbn. apply Forall_app_2; [done|]. by constructor.
Qed.

Lemma reach_deliveries_ok b : reach b -> deliveries_ok b.
Proof.
  induction 1 as [h|b b' _ IH Hs _]; [|by eapply deliveries_ok_step].
  constructor; cbn; constructor.
Qed.

(** ** Unsubscribed handlers *)

Lemma dead_mono b b' : step b b' -> b_dead b ⊆ b_dead b'.
Proof.
  destruct 1; unfold Subscribe_begin, Subscribe_insert, unsubscribe, Publish_begin, Publish_snapshot,
    deliverEvent, handler_write, Close_flag, Close_clear; repeat case_match; cbn; set_solver.
Qed.

(** The calls made to the handler of subscription [id]. *)
Definition calls (id : gostring) (b : Bus) : list (subscription * Event) :=
  List.filter (fun d => s_id d.1 =s id) (b_delivered b).

Lemma dead_no_calls id b b' : step b b' -> id ∈ b_dead b -> calls id b' = calls id b.
Proof.
  unfold calls. destruct 1; intros Hdead;
    unfold Subscribe_begin, Subscribe_insert, unsubscribe, Publish_begin, Publish_snapshot,
      deliverEvent, handler_write, Close_flag, Close_clear; repeat case_match; try done.
  cbn [b_delivered]. rewrite List.filter_app. cbn.
  destruct (s_id _ =s id) eqn:Hid; [|by rewrite app_nil_r].
  apply eqs_true in Hid. subst id. bprop. done.
Qed.

Lemma steps_dead id b b' : steps b b' -> id ∈ b_dead b -> id ∈ b_dead b' /\ calls id b' = calls id b.
Proof.
  induction 1 as [b|b b1 b2 _ IH Hs]; intros Hd; [done|]. destruct (IH Hd) as [Hd1 Hc1].
  split; [by apply (dead_mono b1 b2 Hs)|]. rewrite <- Hc1. by apply dead_no_calls.
Qed.

Lemma snapshot_elem b e s :
  s ∈ snapshot b e <-> exists id, subscriptions b !! id = Some s /\ receives b e s = true.
Proof.
  unfold snapshot. rewrite list_elem_of_In, filter_In, <- list_elem_of_In, list_elem_of_fmap. split.
  - intros [([id s'] & -> & Hin) Hr]. exists id. split; [by apply elem_of_map_to_list|done].
  - intros (id & Hin & Hr). split; [|done]. exists (id, s). split; [done|]. by apply elem_of_map_to_list.
Qed.

Lemma snapshot_NoDup b e : ids_ok b -> NoDup (snapshot b e).
Proof.
  intros Hb. unfold snapshot. assert (Hkeys : NoDup ((map_to_list (subscriptions b)).*2)).
  { apply (NoDup_fmap_1 s_id). rewrite <- list_fmap_compose.
    rewrite (list_fmap_ext (s_id ∘ snd) fst).
    - apply NoDup_fst_map_to_list.
    - intros i [id s] Hi. cbn. apply list_elem_of_lookup_2, elem_of_map_to_list in Hi.
      by apply (io_own b Hb) in Hi as [? _]. }
  revert Hkeys. generalize ((map_to_list (subscriptions b)).*2) as l. induction 1 as [|s l Hs _ IH]; [constructor|].
  cbn. destruct (receives b e s); [|done]. constructor; [|done]. intros Hin. apply Hs.
  apply list_elem_of_In, filter_In in Hin as [Hin _]. by apply list_elem_of_In.
Qed.

(** ** Theorems *)

Definition sample_bus (n : nat) : Bus :=
  Nat.iter n (fun b => Subscribe_insert (Subscribe_begin b (go "graph.#") (go "s") (Some 0%nat)).2 0) (NewBus sample_heap).

(** A registration never replaces another: on every run in which the 64-bit
    counter has not wrapped, the id Subscribe gives out names no subscription
    of the bus, so inserting the new one keeps every existing one and adds
    exactly it. *)
Theorem Subscribe_keeps_others (b : Bus) (pattern name : gostring) (hd : nat) :
  reach b -> closed b = false -> nextId b < 2 ^ 64 - 1 ->
  let b1 := (Subscribe_begin b pattern name (Some hd)).2 in
  let b2 := Subscribe_insert b1 (length (b_subscribing b)) in
  subscriptions b2 !! generateId b = Some (mkSub (generateId b) name (NormalizePattern pattern) hd)
  /\ subscriptions b !! generateId b = None
  /\ (forall id s, subscriptions b !! id = Some s -> subscriptions b2 !! id = Some s)
  /\ SubscriberCount b2 = S (SubscriberCount b).
Proof.
  intros Hr Hopen Hwrap. apply reach_ids_ok in Hr. pose proof (io_count b Hr) as Hcount.
  assert (Hnc : next_counter b = nextId b + 1) by (unfold next_counter; apply Z.mod_small; lia).
  destruct (next_counter_fresh b Hcount ltac:(lia)) as [_ Hfresh].
  assert (Hnone : subscriptions b !! generateId b = None).
  { destruct (subscriptions b !! generateId b) eqn:He; [|done]. by apply (io_own b Hr) in He as [_ ?]. }
  unfold Subscribe_begin. rewrite Hopen. unfold Subscribe_insert. cbn [snd b_subscribing].
  rewrite (list_lookup_middle (b_subscribing b) [] _ (length (b_subscribing b))) by done.
  cbn [subscriptions s_id]. split; [apply lookup_insert_eq|]. split; [done|]. split.
  - intros id s Hs. rewrite lookup_insert_ne; [done|]. congruence.
  - unfold SubscriberCount. cbn [subscriptions]. by apply map_size_insert_None.
Qed.

Lemma Subscribe_keeps_others_witness :
  let b := NewBus sample_heap in
  let b1 := (Subscribe_begin b (go "graph.#") (go "n") (Some 7%nat)).2 in
  let b2 := Subscribe_insert b1 (length (b_subscribing b)) in
  subscriptions b2 !! generateId b = Some (mkSub (generateId b) (go "n") (NormalizePattern (go "graph.#")) 7)
  /\ subscriptions b !! generateId b = None
  /\ (forall id s, subscriptions b !! id = Some s -> subscriptions b2 !! id = Some s)
  /\ SubscriberCount b2 = S (SubscriberCount b).
Proof. apply Subscribe_keeps_others; [apply reach_new | reflexivity | cbn; lia]. Defined.

(** Handlers are called only for what they asked for, with maps of their own:
    on every run, each delivery's topic matches its subscription's pattern, and
    no two deliveries, waiting or made, hold a map in common. *)
Theorem deliveries_match_and_isolated (b : Bus) :
  reach b ->
  Forall (fun d => Match (s_pattern d.1) (Topic d.2) = true) (b_delivered b)
  /\ NoDup (delivery_maps (b_pending b ++ b_delivered b)).
Proof.
  intros Hr. apply reach_deliveries_ok in Hr as [H1 _ H3 _].
  unfold deliveries in *. split; [by apply Forall_app in H1 as [_ ?] | done].
Qed.

Lemma deliveries_match_and_isolated_witness :
  Forall (fun d => Match (s_pattern d.1) (Topic d.2) = true) (b_delivered (NewBus sample_heap))
  /\ NoDup (delivery_maps (b_pending (NewBus sample_heap) ++ b_delivered (NewBus sample_heap))).
Proof. apply deliveries_match_and_isolated. apply reach_new. Defined.

(** A handler's writes stay with it: when one handler writes to a map of the
    event it was given, every other delivery, waiting or made, reads the same
    payload and metadata as before. *)
Theorem handler_writes_isolated (b : Bus) (k j : nat) (l : positive) (key : gostring) (v : any)
    (d : subscription * Event) :
  reach b -> b_delivered b !! j = Some d -> k <> j ->
  let b' := handler_write b k l key v in
  contents (b_heap b') (Payload d.2) = contents (b_heap b) (Payload d.2)
  /\ contents (b_heap b') (Metadata d.2) = contents (b_heap b) (Metadata d.2).
Proof.
  intros Hr Hj Hne. apply reach_deliveries_ok in Hr as [_ _ H3 _].
  unfold deliveries in H3. rewrite delivery_maps_app in H3. apply NoDup_app in H3 as (_ & _ & H3).
  unfold handler_write. destruct (b_delivered b !! k) as [[sub e]|] eqn:Hk; [|done].
  case_bool_decide as Hl; [|done]. cbn [b_heap].
  assert (Hdiff : l ∉ maps d.2).
  { intros Hin. pose proof (take_drop_middle_perm _ _ _ Hk) as Hperm.
    unfold delivery_maps in H3. rewrite Hperm in H3. cbn in H3. apply NoDup_app in H3 as (_ & H3 & _).
    apply (H3 l Hl). apply list_elem_of_bind. exists d. split; [done|].
    assert (Hd : d ∈ b_delivered b) by (by eapply list_elem_of_lookup_2).
    rewrite <- (take_drop_middle _ _ _ Hk) in Hj. apply elem_of_app.
    destruct (decide (j < k)%nat) as [Hjk|Hjk].
    - left. rewrite lookup_app_l in Hj; [by eapply list_elem_of_lookup_2|].
      apply lookup_lt_Some in Hk. rewrite length_take. lia.
    - right. apply lookup_lt_Some in Hk. rewrite lookup_app_r in Hj by (rewrite length_take; lia).
      rewrite length_take, Nat.min_l in Hj by lia.
      destruct (j - k)%nat eqn:Hjk2; [lia|]. cbn in Hj. by eapply list_elem_of_lookup_2. }
  assert (Hkeep : forall x, (forall y, x = Some y -> y ∈ maps d.2) ->
    contents (<[l := <[key := v]> (contents (b_heap b) (Some l))]> (b_heap b)) x = contents (b_heap b) x).
  { intros [y|] Hy; [|done]. cbn. rewrite lookup_insert_ne; [done|]. intros ->. by apply Hdiff, Hy. }
  split; apply Hkeep; intros y Hy; unfold maps; rewrite Hy; apply elem_of_app; [left|right];
    by apply list_elem_of_singleton.
Qed.

(** Two subscribers, one published event, both deliveries made. *)
Definition two_heard : Bus :=
  deliverEvent (deliverEvent (Publish_snapshot (Publish_begin (sample_bus 2) sample_event) 0) 0) 0.

Lemma reach_sample n : (n <= 2)%nat -> reach (sample_bus n).
Proof.
  intros Hn. destruct n as [|[|[|n]]]; [apply reach_new| | |lia];
    repeat (eapply reach_step; [|apply step_insert|vm_compute; congruence];
            eapply reach_step; [|apply step_subscribe|vm_compute; congruence]);
    apply reach_new.
Qed.

Lemma reach_two_heard : reach two_heard.
Proof.
  unfold two_heard.
  eapply reach_step; [|apply step_deliver|vm_compute; congruence].
  eapply reach_step; [|apply step_deliver|vm_compute; congruence].
  eapply reach_step; [|apply step_snapshot|vm_compute; congruence].
  eapply reach_step; [|apply step_publish|vm_compute; congruence].
  - apply reach_sample. lia.
  - unfold allocated, maps, sample_event. cbn. repeat constructor; apply elem_of_dom; vm_compute; eauto.
Qed.

Lemma handler_writes_isolated_witness :
  exists d, b_delivered two_heard !! 1%nat = Some d
    /\ contents (b_heap (handler_write two_heard 0 3 (go "k") (AScalar (go "w")))) (Metadata d.2)
       = contents (b_heap two_heard) (Metadata d.2).
Proof.
  destruct (b_delivered two_heard !! 1%nat) as [d|] eqn:Hd; [|by vm_compute in Hd].
  exists d. split; [reflexivity|].
  exact (proj2 (handler_writes_isolated two_heard 0 1 3 (go "k") (AScalar (go "w")) d reach_two_heard Hd ltac:(lia))).
Defined.



(** C30: Publish reaches every live subscription once: the snapshot of a published
    event starts one delivery for each subscription of the map whose flag is
    not set and whose pattern matches the topic, and for no other, each with
    the topic, payload and metadata that were published. *)
Theorem Publish_reaches_all (b : Bus) (k : nat) (e : Event) :
  reach b -> b_publishing b !! k = Some e ->
  exists ds, b_pending (Publish_snapshot b k) = b_pending b ++ ds
    /\ NoDup (ds.*1)
    /\ (forall s, s ∈ ds.*1 <-> exists id, subscriptions b !! id = Some s
          /\ (s_id s ∉ b_dead b) /\ Match (s_pattern s) (Topic e) = true)
    /\ Forall (fun d => Topic d.2 = Topic e
          /\ contents (b_heap (Publish_snapshot b k)) (Payload d.2) = contents (b_heap b) (Payload e)
          /\ contents (b_heap (Publish_snapshot b k)) (Metadata d.2) = contents (b_heap b) (Metadata e)) ds.
Proof.
  intros Hr Hk. pose proof (reach_ids_ok b Hr) as Hids. apply reach_deliveries_ok in Hr as [_ _ _ H4].
  unfold Publish_snapshot. rewrite Hk. destruct (clones (b_heap b) e (snapshot b e)) as [ds h] eqn:Hc.
  apply clones_spec in Hc as (_ & D & T & C & _ & _).
  2:{ rewrite Forall_forall in H4. apply H4. by eapply list_elem_of_lookup_2. }
  exists ds. cbn [b_pending b_heap]. split; [done|]. rewrite D. split; [by apply snapshot_NoDup|]. split.
  - intros s. rewrite snapshot_elem. unfold receives.
    setoid_rewrite andb_true_iff. setoid_rewrite negb_true_iff. setoid_rewrite bool_decide_eq_false. done.
  - apply Forall_and. split; [exact T|]. exact C.
Qed.

Lemma Publish_reaches_all_witness :
  let b := Publish_begin (sample_bus 2) sample_event in
  exists ds, b_pending (Publish_snapshot b 0) = b_pending b ++ ds
    /\ NoDup (ds.*1)
    /\ (forall s, s ∈ ds.*1 <-> exists id, subscriptions b !! id = Some s
          /\ (s_id s ∉ b_dead b) /\ Match (s_pattern s) (Topic sample_event) = true)
    /\ Forall (fun d => Topic d.2 = Topic sample_event
          /\ contents (b_heap (Publish_snapshot b 0)) (Payload d.2) = contents (b_heap b) (Payload sample_event)
          /\ contents (b_heap (Publish_snapshot b 0)) (Metadata d.2) = contents (b_heap b) (Metadata sample_event)) ds.
Proof.
  intros b. apply (Publish_reaches_all b 0 sample_event).
  - unfold b. eapply reach_step; [apply (reach_sample 2); lia | | vm_compute; congruence].
    apply step_publish. unfold allocated, maps, sample_event. cbn.
    repeat constructor; apply elem_of_dom; vm_compute; eauto.
  - vm_compute. reflexivity.
Defined.

(** Close does not always empty the bus: a Subscribe that read the open flag
    before Close set it inserts its subscription after Close emptied the map,
    and the closed bus keeps it.  The run is reachable, the bus is closed with
    nothing left to close, and it holds one subscription. *)
Theorem closed_bus_can_keep_a_subscription :
  exists b, reach b /\ closed b = true /\ b_closing b = false /\ SubscriberCount b = 1%nat.
Proof.
  exists (Subscribe_insert (Close_clear (Close_flag
            (Subscribe_begin (NewBus ∅) (go "#") [] (Some 0%nat)).2)) 0).
  split; [|by vm_compute].
  repeat (eapply reach_step; [|first [apply step_insert | apply step_clear | apply step_close | apply step_subscribe]
                              |vm_compute; congruence]).
  apply reach_new.
Qed.

(** PublishSync hands one clone to all: unlike Publish, its concurrent handlers
    hold the same maps, so what one writes the others read. *)
Theorem PublishSync_shares_one_clone :
  exists b s1 e1 s2 e2,
    b_pending (PublishSync_snapshot b sample_event) = [(s1, e1); (s2, e2)]
    /\ s_id s1 <> s_id s2 /\ maps e1 = maps e2 /\ maps e1 <> [].
Proof.
  exists (sample_bus 2). vm_compute. do 4 eexists. split; [reflexivity|]. repeat split; congruence.
Qed.
