(* ===== verification/Scc.v ===== *)
(** The graph algorithms of the static loop graph:
    component/automations/loop_graph_scc.go, and the search for a representative
    cycle of loop_graph_report.go.

    A node is its index; a graph is the list of the nodes' successor lists.  The
    stacks are lists with the top first. *)

From S2P Require Import Prelude GoSort.

(** ** Arrays *)

(** An entry of an int array; the indices used are in range. *)
Definition at_ (l : list Z) (v : nat) : Z := match l !! v with Some x => x | None => -1 end.

Definition succs (succ : list (list nat)) (v : nat) : list nat := match succ !! v with Some l => l | None => [] end.

Definition memn (v : nat) (l : list nat) : bool := existsb (Nat.eqb v) l.

(** ** tarjan *)

Record tarjan_state := mkTarjan {
  t_index : list Z;
  t_low : list Z;
  t_onStack : list bool;
  t_stack : list nat;
  t_out : list (list nat);       (* in the order they are completed *)
  t_next : Z;
  t_call : list (nat * nat)      (* the frames: a node and its next successor *)
}.

Definition tarjan_start (n : nat) : tarjan_state :=
  mkTarjan (replicate n (-1)) (replicate n 0) (replicate n false) [] [] 0 [].

(** push, and the frame of the node. *)
Definition push (v : nat) (st : tarjan_state) : tarjan_state :=
  mkTarjan (<[v := t_next st]> (t_index st)) (<[v := t_next st]> (t_low st)) (<[v := true]> (t_onStack st))
    (v :: t_stack st) (t_out st) (t_next st + 1) ((v, O) :: t_call st).

Fixpoint pop_until (v : nat) (stack comp : list nat) : list nat * list nat :=
  match stack with
  | [] => (comp, [])
  | w :: rest => if (w =? v)%nat then (comp ++ [w], rest) else pop_until v rest (comp ++ [w])
  end.

Definition sort_ints : list nat -> list nat := sort_stable Nat.ltb.

Definition off_stack (comp : list nat) (onStack : list bool) : list bool :=
  fold_left (fun on w => <[w := false]> on) comp onStack.

(** The component whose first node is [v], when its lowlink is its index. *)
Definition complete (v : nat) (st : tarjan_state) : tarjan_state :=
  if at_ (t_low st) v =? at_ (t_index st) v then
    let '(comp, rest) := pop_until v (t_stack st) [] in
    mkTarjan (t_index st) (t_low st) (off_stack comp (t_onStack st)) rest
      (t_out st ++ [sort_ints comp]) (t_next st) (t_call st)
  else st.

(** The lowlink of a finished node reaches its caller's. *)
Definition raise_low (v : nat) (call : list (nat * nat)) (low : list Z) : list Z :=
  match call with
  | (u, _) :: _ => if at_ low v <? at_ low u then <[u := at_ low v]> low else low
  | [] => low
  end.

(** One round of the inner loop. *)
Definition tarjan_round (succ : list (list nat)) (st : tarjan_state) : tarjan_state :=
  match t_call st with
  | [] => st
  | (v, i) :: call =>
      match succs succ v !! i with
      | Some w =>
          let st1 := mkTarjan (t_index st) (t_low st) (t_onStack st) (t_stack st) (t_out st) (t_next st)
                       ((v, S i) :: call) in
          if at_ (t_index st) w =? -1 then push w st1
          else if match t_onStack st !! w with Some b => b | None => false end
                  && (at_ (t_index st) w <? at_ (t_low st) v)
          then mkTarjan (t_index st) (<[v := at_ (t_index st) w]> (t_low st)) (t_onStack st) (t_stack st)
                 (t_out st) (t_next st) ((v, S i) :: call)
          else st1
      | None =>
          complete v (mkTarjan (t_index st) (raise_low v call (t_low st)) (t_onStack st) (t_stack st)
                        (t_out st) (t_next st) call)
      end
  end.

Fixpoint tarjan_rounds (succ : list (list nat)) (fuel : nat) (st : tarjan_state) : tarjan_state :=
  match fuel with
  | O => st
  | S f => match t_call st with [] => st | _ => tarjan_rounds succ f (tarjan_round succ st) end
  end.

(** A round takes a successor of a node or leaves it. *)
Definition tarjan_fuel (succ : list (list nat)) : nat := (length succ + sum_list (length <$> succ))%nat.

Definition tarjan_root (succ : list (list nat)) (st : tarjan_state) (root : nat) : tarjan_state :=
  if at_ (t_index st) root =? -1 then tarjan_rounds succ (tarjan_fuel succ) (push root st) else st.

Definition tarjan (n : nat) (succ : list (list nat)) : list (list nat) :=
  t_out (fold_left (tarjan_root succ) (seq 0 n) (tarjan_start n)).

Definition hasSelfEdge (succ : list (list nat)) (v : nat) : bool := memn v (succs succ v).

(** ** strata *)

(** The component of a node. *)
Definition comp_at (comp : list nat) (w : nat) : nat := nth w comp O.

Definition raise_level (comp : list nat) (c : nat) (level : list Z) (w : nat) : list Z :=
  let d := comp_at comp w in
  if negb (d =? c)%nat && (at_ level d <? at_ level c + 1) then <[d := at_ level c + 1]> level else level.

Definition raise_from (comp : list nat) (succ : list (list nat)) (c : nat) (members : list nat) (level : list Z) : list Z :=
  fold_left (fun level v => fold_left (raise_level comp c) (succs succ v) level) members level.

Fixpoint levels (comps : list (list nat)) (comp : list nat) (succ : list (list nat)) (c : nat) (level : list Z) : list Z :=
  match c with
  | O => level
  | S c' => levels comps comp succ c' (raise_from comp succ c' (nth c' comps []) level)
  end.

Definition strata (comps : list (list nat)) (comp : list nat) (succ : list (list nat)) : list Z :=
  at_ (levels comps comp succ (length comps) (replicate (length comps) 0)) <$> comp.

(** ** covered *)

(** The position of a node among those kept. *)
Fixpoint local_of (w : nat) (keep : list nat) : option nat :=
  match keep with
  | [] => None
  | v :: keep' => if (v =? w)%nat then Some O else S <$> local_of w keep'
  end.

(** The subgraph on [keep]. *)
Definition induced (keep : list nat) (succ : list (list nat)) : list (list nat) :=
  (fun v => omap (fun w => local_of w keep) (succs succ v)) <$> keep.

Definition cyclic_comp (succ : list (list nat)) (comp : list nat) : bool :=
  (1 <? length comp)%nat || match comp with v :: _ => hasSelfEdge succ v | [] => false end.

Definition covered (members : list nat) (succ : list (list nat)) (isLoop : nat -> bool) : bool :=
  let keep := List.filter (fun m => negb (isLoop m)) members in
  let sub := induced keep succ in
  negb (existsb (cyclic_comp sub) (tarjan (length keep) sub)).

(** ** shortestCycle *)

(** The path back from [v] to [start], [v] first. *)
Fixpoint walk_back (fuel : nat) (parent : gmap nat nat) (start v : nat) : list nat :=
  match fuel with
  | O => []
  | S f => if (v =? start)%nat then [] else v :: walk_back f parent start (match parent !! v with Some u => u | None => O end)
  end.

Definition closed_path (parent : gmap nat nat) (start v : nat) : list nat :=
  [start] ++ reverse (walk_back (S (size parent)) parent start v) ++ [start].

(** The successors of [v]: the cycle one of them closes, or the parents and the
    queue with the new ones. *)
Fixpoint expand (start : nat) (allowed : list nat) (v : nat) (ws : list nat) (parent : gmap nat nat) (queue : list nat)
    : list nat + gmap nat nat * list nat :=
  match ws with
  | [] => inr (parent, queue)
  | w :: ws' =>
      if negb (memn w allowed) then expand start allowed v ws' parent queue
      else if (w =? start)%nat then inl (closed_path parent start v)
      else match parent !! w with
           | Some _ => expand start allowed v ws' parent queue
           | None => expand start allowed v ws' (<[w := v]> parent) (queue ++ [w])
           end
  end.

Fixpoint search (fuel : nat) (succ : list (list nat)) (start : nat) (allowed : list nat) (parent : gmap nat nat)
    (queue : list nat) : option (list nat) :=
  match fuel, queue with
  | S f, v :: queue' =>
      match expand start allowed v (succs succ v) parent queue' with
      | inl path => Some path
      | inr (parent', queue'') => search f succ start allowed parent' queue''
      end
  | _, _ => None
  end.

(** Every node is queued once at most. *)
Definition shortestCycle (start : nat) (succ : list (list nat)) (allowed : list nat) : option (list nat) :=
  match expand start allowed start (succs succ start) ∅ [] with
  | inl path => Some path
  | inr (parent, queue) => search (S (length allowed)) succ start allowed parent queue
  end.

Fixpoint first_cycle (members : list nat) (succ : list (list nat)) (allowed : list nat) : option (list nat) :=
  match members with
  | [] => None
  | start :: members' =>
      if memn start allowed then
        match shortestCycle start succ allowed with
        | Some path => Some path
        | None => first_cycle members' succ allowed
        end
      else first_cycle members' succ allowed
  end.

Definition cyclePath (members : list nat) (succ : list (list nat)) (skip : nat -> bool) : option (list nat) :=
  first_cycle members succ (List.filter (fun m => negb (skip m)) members).

Example tarjan_two : tarjan 4 [[1%nat]; [2%nat; 3%nat]; [1%nat]; []] = [[3%nat]; [1%nat; 2%nat]; [0%nat]].
Proof. by vm_compute. Qed.

Example cycle_back : cyclePath [1%nat; 2%nat; 0%nat] [[1%nat]; [2%nat; 3%nat]; [0%nat; 1%nat]; []] (fun v => (v =? 1)%nat) = None
  /\ cyclePath [0%nat; 1%nat; 2%nat] [[1%nat]; [2%nat; 3%nat]; [0%nat; 1%nat]; []] (fun _ => false) = Some [0%nat; 1%nat; 2%nat; 0%nat].
Proof. by vm_compute. Qed.
