(* ===== verification/SccFacts.v ===== *)
(** What the graph algorithms of the static loop graph compute: the components of
    tarjan are the strongly connected components, after the components they reach;
    covered decides whether every cycle meets a loop. *)

From Stdlib Require Import Sorting.Sorted.
From S2P Require Import Prelude GoSort Scc.

(** ** Arrays *)

Lemma at_insert l v w x : (v < length l)%nat -> at_ (<[v := x]> l) w = if decide (w = v) then x else at_ l w.
Proof.
  intros Hl. unfold at_. destruct (decide (w = v)) as [->|Hn].
  - by rewrite list_lookup_insert_eq.
  - by rewrite list_lookup_insert_ne.
Qed.

Lemma memn_true v l : memn v l = true <-> v ∈ l.
Proof.
  unfold memn. rewrite existsb_exists. setoid_rewrite Nat.eqb_eq. split.
  - intros (x & Hx & ->). by apply list_elem_of_In.
  - intros Hv. exists v. split; [by apply list_elem_of_In|done].
Qed.

(** sort.Ints of distinct integers. *)
Lemma sort_ints_strict l : NoDup l -> StronglySorted lt (sort_ints l).
Proof.
  intros Hnd. set (cmp := fun x y => Z.of_nat x - Z.of_nat y). unfold sort_ints.
  assert (Hs : StronglySorted (fun x y => cmp x y <= 0) (sort_stable Nat.ltb l)).
  { destruct (sort_stable_spec cmp (fun _ => True)) with (l := l) as (_ & Hs & _);
      [unfold cmp; intros; lia|unfold cmp; intros; lia|by apply Forall_true|].
    rewrite (sort_stable_ext _ Nat.ltb) in Hs; [done|]. intros x y. unfold less, cmp.
    destruct (Nat.ltb_spec x y); [apply Z.ltb_lt; lia|apply Z.ltb_ge; lia]. }
  apply (sorted_strict cmp) in Hs; [|unfold cmp; intros; lia|by rewrite sort_stable_perm].
  induction Hs as [|x k _ IH Hx]; constructor; [done|]. eapply Forall_impl; [exact Hx|]. unfold cmp. cbn. lia.
Qed.

Lemma pop_until_split v above rest acc : v ∉ above ->
  pop_until v (above ++ v :: rest) acc = (acc ++ above ++ [v], rest).
Proof.
  revert acc. induction above as [|w above IH]; intros acc Hn; cbn.
  - by rewrite Nat.eqb_refl.
  - destruct (Nat.eqb_spec w v) as [->|]; [set_solver|]. rewrite IH by set_solver. by rewrite <- (assoc_L (++)).
Qed.

Lemma off_stack_length comp on : length (off_stack comp on) = length on.
Proof. unfold off_stack. revert on. induction comp as [|w comp IH]; intros on; cbn; [done|]. by rewrite IH, length_insert. Qed.

Lemma off_stack_lookup comp on v b : on !! v = Some b -> off_stack comp on !! v = Some (b && bool_decide (v ∉ comp)).
Proof.
  unfold off_stack. revert on b. induction comp as [|w comp IH]; intros on b Hv; cbn.
  - rewrite Hv, bool_decide_eq_true_2 by set_solver. by rewrite andb_true_r.
  - destruct (decide (v = w)) as [->|Hne].
    + rewrite (IH _ false) by (apply list_lookup_insert_eq; by eapply lookup_lt_Some).
      rewrite (bool_decide_eq_false_2 (w ∉ w :: comp)) by set_solver. by rewrite andb_false_r.
    + rewrite (IH _ b) by (by rewrite list_lookup_insert_ne). do 2 f_equal. apply bool_decide_ext. set_solver.
Qed.

(** ** Reachability *)

Definition edge (succ : list (list nat)) (v w : nat) : Prop := w ∈ succs succ v.

Definition reach (succ : list (list nat)) : nat -> nat -> Prop := rtc (edge succ).

Definition strongly (succ : list (list nat)) (v w : nat) : Prop := reach succ v w /\ reach succ w v.

(** Every successor is a node. *)
Definition graph_ok (n : nat) (succ : list (list nat)) : Prop :=
  length succ = n /\ forall v w, edge succ v w -> (w < n)%nat.

Section Tarjan.
Context (n : nat) (succ : list (list nat)) (Hg : graph_ok n succ).

Abbreviation edge := (edge succ).
Abbreviation reach := (reach succ).

Lemma edge_src v w : edge v w -> (v < n)%nat.
Proof.
  destruct Hg as [Hl _]. unfold SccFacts.edge, succs. destruct (succ !! v) eqn:E; [|by intros ?%not_elem_of_nil].
  intros _. rewrite <- Hl. by eapply lookup_lt_Some.
Qed.

Lemma edge_dst v w : edge v w -> (w < n)%nat.
Proof. apply Hg. Qed.

(** The edges already taken: all of a finished node's, a frame's up to its position. *)
Definition taken (call : list (nat * nat)) (v w : nat) : Prop :=
  edge v w /\ forall i, (v, i) ∈ call -> exists k, (k < i)%nat /\ succs succ v !! k = Some w.

(** The invariant of the inner loop. *)
Record inv (st : tarjan_state) : Prop := {
  i_lens : length (t_index st) = n /\ length (t_low st) = n /\ length (t_onStack st) = n;
  i_next : 0 <= t_next st;
  i_on : forall v, (v < n)%nat -> t_onStack st !! v = Some (bool_decide (v ∈ t_stack st));
  i_stack : StronglySorted (fun a b => at_ (t_index st) b < at_ (t_index st) a) (t_stack st);
  i_num : forall v, v ∈ t_stack st -> (v < n)%nat /\ 0 <= at_ (t_index st) v < t_next st;
  i_out : forall v, v ∈ concat (t_out st) -> (v < n)%nat /\ 0 <= at_ (t_index st) v /\ v ∉ t_stack st;
  i_seen : forall v, (v < n)%nat -> at_ (t_index st) v = -1 \/ v ∈ t_stack st \/ v ∈ concat (t_out st);
  i_nodup : NoDup (concat (t_out st));
  i_frames : StronglySorted (fun a b => at_ (t_index st) b < at_ (t_index st) a) (t_call st).*1
             /\ (forall v i, (v, i) ∈ t_call st -> v ∈ t_stack st /\ (i <= length (succs succ v))%nat);
  i_below : forall x, x ∈ t_stack st -> exists u, u ∈ (t_call st).*1 /\ at_ (t_index st) u <= at_ (t_index st) x;
  i_taken : forall v w, v ∈ t_stack st -> taken (t_call st) v w -> at_ (t_index st) w <> -1;
  i_low_edge : forall v w, v ∈ t_stack st -> taken (t_call st) v w -> w ∈ t_stack st ->
    at_ (t_low st) v <= at_ (t_index st) w;
  i_low_node : forall v, v ∈ t_stack st -> at_ (t_low st) v <= at_ (t_index st) v
    /\ exists y, y ∈ t_stack st /\ at_ (t_index st) y = at_ (t_low st) v /\ reach v y;
  i_pending : forall v, v ∈ t_stack st -> v ∉ (t_call st).*1 -> at_ (t_low st) v < at_ (t_index st) v;
  i_down : forall u x, u ∈ (t_call st).*1 -> x ∈ t_stack st -> at_ (t_index st) u <= at_ (t_index st) x -> reach u x;
  i_low_frame : forall u x, u ∈ (t_call st).*1 -> x ∈ t_stack st -> at_ (t_index st) u <= at_ (t_index st) x ->
    (forall u', u' ∈ (t_call st).*1 -> at_ (t_index st) u' <= at_ (t_index st) x -> at_ (t_index st) u' <= at_ (t_index st) u) ->
    at_ (t_low st) u <= at_ (t_low st) x;
  i_comps : forall c, c ∈ t_out st -> c <> [] /\ StronglySorted lt c
    /\ forall v, v ∈ c -> forall w, w ∈ c <-> strongly succ v w;
  i_closed : forall pre c post, t_out st = pre ++ c :: post ->
    forall v w, v ∈ c -> edge v w -> w ∈ concat pre \/ w ∈ c
}.

(** *** Numbers on the stacks *)

Lemma sorted_inj (num : nat -> Z) l x y : StronglySorted (fun a b => num b < num a) l -> x ∈ l -> y ∈ l ->
  num x = num y -> x = y.
Proof.
  induction 1 as [|a l Hl IH Ha]; [by intros ?%not_elem_of_nil|]. rewrite Forall_forall in Ha.
  intros [->|Hx]%elem_of_cons [->|Hy]%elem_of_cons E; [done| | |by apply IH].
  - specialize (Ha y Hy). lia.
  - specialize (Ha x Hx). lia.
Qed.

Lemma sorted_NoDup (num : nat -> Z) l : StronglySorted (fun a b => num b < num a) l -> NoDup l.
Proof.
  induction 1 as [|a l Hl IH Ha]; constructor; [|done]. rewrite Forall_forall in Ha. intros Hin. specialize (Ha a Hin). lia.
Qed.

(** The order of a list whose numbers do not change. *)
Lemma sorted_same (num num' : nat -> Z) l : (forall x, x ∈ l -> num' x = num x) ->
  StronglySorted (fun a b => num b < num a) l -> StronglySorted (fun a b => num' b < num' a) l.
Proof.
  intros Hs Hl. induction Hl as [|a l Hl IH Ha]; constructor; [apply IH; set_solver|].
  rewrite Forall_forall in *. intros x Hx. rewrite !Hs by set_solver. auto.
Qed.

Lemma taken_other call v w i x : x <> v -> taken ((v, i) :: call) x w <-> taken call x w.
Proof. intros Hn. unfold taken. set_solver. Qed.

Lemma taken_seen call v w i j : (forall k, (v, k) ∉ call) -> (i <= j)%nat -> taken ((v, i) :: call) v w -> taken ((v, j) :: call) v w.
Proof.
  intros Hc Hij [He Hk]. split; [done|]. intros k [[= ->]|Hin]%elem_of_cons; [|by apply Hc in Hin].
  destruct (Hk i) as (m & ? & ?); [by left|]. exists m. split; [lia|done].
Qed.

Section Step.
Context (st : tarjan_state) (Hi : inv st).

Abbreviation num := (at_ (t_index st)).
Abbreviation low := (at_ (t_low st)).

Lemma frame_stack u : u ∈ (t_call st).*1 -> u ∈ t_stack st.
Proof. intros ([u' i] & -> & Hu)%list_elem_of_fmap. by apply (i_frames _ Hi) in Hu as [? _]. Qed.

Lemma frame_once v i call : t_call st = (v, i) :: call -> v ∉ call.*1 /\ (forall u, u ∈ call.*1 -> num u < num v).
Proof.
  intros E. destruct (i_frames _ Hi) as [Hs _]. rewrite E in Hs. apply StronglySorted_inv in Hs as [_ Hs].
  rewrite Forall_forall in Hs. split; [|done]. intros Hv. specialize (Hs v Hv). cbn in Hs. lia.
Qed.

Lemma frame_top v i call u : t_call st = (v, i) :: call -> u ∈ (t_call st).*1 -> num u <= num v.
Proof.
  intros E. rewrite E. cbn. intros [->|Hu]%elem_of_cons; [lia|]. apply (frame_once _ _ _ E) in Hu. lia.
Qed.

Lemma num_inj x y : x ∈ t_stack st -> y ∈ t_stack st -> num x = num y -> x = y.
Proof. apply sorted_inj, Hi. Qed.

(** Every node of the stack reaches a frame at or below it. *)
Lemma reach_frame x : x ∈ t_stack st -> exists u, u ∈ (t_call st).*1 /\ num u <= num x /\ reach x u.
Proof.
  intros Hx. remember (Z.to_nat (num x)) as m eqn:Em. revert x Hx Em.
  induction m as [m IH] using lt_wf_ind. intros x Hx ->.
  destruct (decide (x ∈ (t_call st).*1)) as [Hf|Hf]; [exists x; split; [done|]; split; [lia|apply rtc_refl]|].
  pose proof (i_pending _ Hi x Hx Hf) as Hlt. destruct (i_low_node _ Hi x Hx) as (_ & y & Hy & Ey & Hr).
  destruct (i_num _ Hi y Hy) as [_ Hy0].
  destruct (IH (Z.to_nat (num y)) ltac:(lia) y Hy eq_refl) as (u & Hu & Hle & Hr').
  exists u. split; [done|]. split; [lia|]. by etrans.
Qed.

(** *** A new node *)

Definition with_call (call : list (nat * nat)) : tarjan_state :=
  mkTarjan (t_index st) (t_low st) (t_onStack st) (t_stack st) (t_out st) (t_next st) call.

Context (w : nat) (Hw : (w < n)%nat) (Hnew : num w = -1).

Lemma new_stack : w ∉ t_stack st.
Proof. intros Hin. apply (i_num _ Hi) in Hin as [_ ?]. lia. Qed.

Lemma new_out : w ∉ concat (t_out st).
Proof. intros Hin. apply (i_out _ Hi) in Hin as (_ & ? & _). lia. Qed.

Lemma push_num x : x <> w -> at_ (<[w := t_next st]> (t_index st)) x = num x.
Proof. intros Hx. rewrite at_insert by (by rewrite (proj1 (i_lens _ Hi))). by rewrite decide_False. Qed.

Lemma push_num_new : at_ (<[w := t_next st]> (t_index st)) w = t_next st.
Proof. rewrite at_insert by (by rewrite (proj1 (i_lens _ Hi))). by rewrite decide_True. Qed.

Lemma push_low x : x <> w -> at_ (<[w := t_next st]> (t_low st)) x = low x.
Proof. intros Hx. rewrite at_insert by (by rewrite (proj1 (proj2 (i_lens _ Hi)))). by rewrite decide_False. Qed.

Lemma push_low_new : at_ (<[w := t_next st]> (t_low st)) w = t_next st.
Proof. rewrite at_insert by (by rewrite (proj1 (proj2 (i_lens _ Hi)))). by rewrite decide_True. Qed.

Lemma inv_push call' : call'.*1 = (t_call st).*1 ->
  (forall v i, (v, i) ∈ call' -> (i <= length (succs succ v))%nat) ->
  (forall u, u ∈ (t_call st).*1 -> reach u w) ->
  (forall x y, x ∈ t_stack st -> taken call' x y -> taken (t_call st) x y \/ y = w) ->
  inv (push w (with_call call')).
Proof.
  intros Hf Hlen Hreach Htk. pose proof new_stack as Hns. pose proof new_out as Hno.
  assert (Hst : forall x, x ∈ t_stack st -> x <> w) by (intros x Hx ->; done).
  assert (Hfr : forall x, x ∈ (t_call st).*1 -> x <> w) by (intros x Hx; by apply Hst, frame_stack).
  pose proof (i_next _ Hi) as Hnx. unfold push, with_call. constructor; cbn [t_index t_low t_onStack t_stack t_out t_next t_call].
  - rewrite !length_insert. apply Hi.
  - lia.
  - intros v Hv. destruct (decide (v = w)) as [->|Hne].
    + rewrite list_lookup_insert_eq by (by rewrite (proj2 (proj2 (i_lens _ Hi)))). f_equal. symmetry. apply bool_decide_eq_true. by left.
    + rewrite list_lookup_insert_ne by done. rewrite (i_on _ Hi v Hv). f_equal. apply bool_decide_ext. set_solver.
  - constructor; [|rewrite Forall_forall; intros x Hx; rewrite push_num_new, push_num by auto; apply (i_num _ Hi) in Hx as [_ ?]; lia].
    apply (sorted_same num); [intros x Hx; apply push_num; auto|apply Hi].
  - intros v [->|Hv]%elem_of_cons; [rewrite push_num_new; split; [done|lia]|]. rewrite push_num by auto.
    apply (i_num _ Hi) in Hv. split; [apply Hv|lia].
  - intros v Hv. destruct (i_out _ Hi v Hv) as (? & ? & ?). rewrite push_num by (by intros ->). set_solver.
  - intros v Hv. destruct (decide (v = w)) as [->|Hne]; [right; left; by left|]. rewrite push_num by done.
    destruct (i_seen _ Hi v Hv) as [?|[?|?]]; [by left|right; left; by right|by right; right].
  - apply Hi.
  - split; [|intros v i [[= -> ->]|Hin]%elem_of_cons; [split; [by left|lia]|]].
    + cbn. rewrite Hf. constructor; [apply (sorted_same num); [intros x Hx; apply push_num; auto|apply (i_frames _ Hi)]|].
      rewrite Forall_forall. intros x Hx. rewrite push_num_new, push_num by auto.
      apply frame_stack, (i_num _ Hi) in Hx as [_ ?]. lia.
    + split; [|by eapply Hlen]. right. apply frame_stack. rewrite <- Hf. apply list_elem_of_fmap. by exists (v, i).
  - cbn. rewrite Hf. intros x [->|Hx]%elem_of_cons; [exists w; split; [by left|lia]|].
    destruct (i_below _ Hi x Hx) as (u & Hu & Hle). exists u. split; [by right|]. rewrite !push_num by auto. done.
  - intros v y [->|Hv]%elem_of_cons; intros Hty.
    { destruct Hty as [_ Hk]. destruct (Hk O) as (k & ? & _); [by left|lia]. }
    apply taken_other in Hty; [|auto]. destruct (Htk v y Hv Hty) as [Ht| ->]; [|rewrite push_num_new; lia].
    pose proof (i_taken _ Hi v y Hv Ht). destruct (decide (y = w)) as [->|]; [done|]. by rewrite push_num.
  - intros v y [->|Hv]%elem_of_cons; intros Hty Hy.
    { destruct Hty as [_ Hk]. destruct (Hk O) as (k & ? & _); [by left|lia]. }
    apply taken_other in Hty; [|auto]. rewrite push_low by auto.
    destruct (decide (y = w)) as [->|Hyw].
    + rewrite push_num_new. pose proof (proj1 (i_low_node _ Hi v Hv)). apply (i_num _ Hi) in Hv as [_ ?]. lia.
    + destruct (Htk v y Hv Hty) as [Ht|]; [|done]. rewrite push_num by done. apply (i_low_edge _ Hi v y Hv Ht). set_solver.
  - intros v [->|Hv]%elem_of_cons.
    + rewrite push_low_new, push_num_new. split; [lia|]. exists w. rewrite push_num_new. split; [by left|]. split; [done|apply rtc_refl].
    + rewrite push_low, push_num by auto. destruct (i_low_node _ Hi v Hv) as (? & y & Hy & ? & ?). split; [done|].
      exists y. rewrite push_num by auto. split; [by right|done].
  - cbn. rewrite Hf. intros v [->|Hv]%elem_of_cons Hnf; [destruct Hnf; by left|].
    rewrite push_low, push_num by auto. apply (i_pending _ Hi v Hv). set_solver.
  - cbn. rewrite Hf. intros u x [->|Hu]%elem_of_cons [->|Hx]%elem_of_cons.
    + intros _. apply rtc_refl.
    + rewrite push_num_new, push_num by auto. apply (i_num _ Hi) in Hx as [_ ?]. lia.
    + intros _. by apply Hreach.
    + rewrite !push_num by auto. by apply Hi.
  - cbn. rewrite Hf. intros u x [->|Hu]%elem_of_cons [->|Hx]%elem_of_cons.
    + lia.
    + rewrite push_num_new, push_num by auto. apply (i_num _ Hi) in Hx as [_ ?]. lia.
    + intros _ Ht. exfalso. specialize (Ht w ltac:(by left)). rewrite push_num_new, push_num in Ht by auto.
      apply frame_stack, (i_num _ Hi) in Hu as [_ ?]. lia.
    + rewrite !push_num, !push_low by auto. intros Hle Ht. apply (i_low_frame _ Hi u x Hu Hx Hle).
      intros u' Hu' Hle'. specialize (Ht u' ltac:(by right)). rewrite push_num in Ht by auto. auto.
  - apply Hi.
  - apply Hi.
Qed.
End Step.

(** *** An edge to a known node *)

Lemma taken_step st v i call w x y : inv st -> t_call st = (v, i) :: call -> succs succ v !! i = Some w ->
  taken ((v, S i) :: call) x y -> taken (t_call st) x y \/ x = v /\ y = w.
Proof.
  intros Hi E Hw [He Hk]. rewrite E. destruct (decide (x = v)) as [->|Hn].
  - destruct (Hk (S i)) as (k & Hlt & Hy); [by left|]. destruct (decide (k = i)) as [->|Hki]; [right; naive_solver|].
    left. split; [done|]. intros j [[= ->]|Hj]%elem_of_cons; [exists k; split; [lia|done]|].
    destruct (proj1 (frame_once _ Hi _ _ _ E)). apply list_elem_of_fmap. by exists (v, j).
  - left. split; [done|]. intros j [[= ->]|Hj]%elem_of_cons; [done|]. apply Hk. by right.
Qed.

Lemma inv_seen st v i call w low' : inv st -> t_call st = (v, i) :: call -> succs succ v !! i = Some w ->
  at_ (t_index st) w <> -1 -> length low' = n ->
  (forall x, x <> v -> at_ low' x = at_ (t_low st) x) ->
  at_ low' v = (if decide (w ∈ t_stack st) then Z.min (at_ (t_low st) v) (at_ (t_index st) w) else at_ (t_low st) v) ->
  inv (mkTarjan (t_index st) low' (t_onStack st) (t_stack st) (t_out st) (t_next st) ((v, S i) :: call)).
Proof.
  intros Hi E Hw Hseen Hlen Hother Hv.
  assert (Hle : forall x, at_ low' x <= at_ (t_low st) x).
  { intros x. destruct (decide (x = v)) as [->|Hn]; [|by rewrite Hother]. rewrite Hv. case_decide; lia. }
  assert (Hvs : v ∈ t_stack st) by (apply (frame_stack st Hi); rewrite E; by left).
  assert (Hf : ((v, S i) :: call).*1 = (t_call st).*1) by (by rewrite E).
  constructor; cbn [t_index t_low t_onStack t_stack t_out t_next t_call]; try rewrite Hf; try apply Hi.
  - split; [apply Hi|]. split; [done|apply Hi].
  - split; [apply Hi|]. intros x j [[= -> ->]|Hj]%elem_of_cons.
    + split; [done|]. apply lookup_lt_Some in Hw. lia.
    + apply (i_frames _ Hi). rewrite E. by right.
  - intros x y Hx Ht. destruct (taken_step st v i call w x y Hi E Hw Ht) as [Ht'|[_ ->]]; [by apply (i_taken _ Hi x y)|done].
  - intros x y Hx Ht Hy. destruct (taken_step st v i call w x y Hi E Hw Ht) as [Ht'|[-> ->]].
    + specialize (Hle x). pose proof (i_low_edge _ Hi x y Hx Ht' Hy). lia.
    + rewrite Hv, decide_True by done. lia.
  - intros x Hx. specialize (Hle x). destruct (i_low_node _ Hi x Hx) as (Hxx & y & Hy & Ey & Hr). split; [lia|].
    destruct (decide (x = v)) as [->|Hn]; [|rewrite Hother by done; by exists y]. rewrite Hv. case_decide as Hws; [|by exists y].
    destruct (Z.min_spec (at_ (t_low st) v) (at_ (t_index st) w)) as [[_ ->]|[_ ->]]; [by exists y|].
    exists w. split; [done|]. split; [done|]. apply rtc_once. by eapply list_elem_of_lookup_2.
  - intros x Hx Hnf. specialize (Hle x). pose proof (i_pending _ Hi x Hx Hnf). lia.
  - intros u x Hu Hx Hux Ht. pose proof (i_low_frame _ Hi u x Hu Hx Hux Ht) as Hl.
    destruct (decide (x = v)) as [->|Hn]; [|rewrite (Hother x) by done; specialize (Hle u); lia].
    assert (u = v) as ->; [|done]. apply (num_inj st Hi); [by apply (frame_stack st Hi)|done|].
    specialize (Ht v ltac:(rewrite E; by left)). lia.
Qed.

(** *** A finished node *)

Lemma taken_finished st v i call x y : inv st -> t_call st = (v, i) :: call -> succs succ v !! i = None ->
  taken call x y -> taken (t_call st) x y.
Proof.
  intros Hi E Hw [He Hk]. rewrite E. split; [done|]. intros j [[= -> ->]|Hj]%elem_of_cons; [|by apply Hk].
  apply list_elem_of_lookup in He as [k Hy]. exists k. split; [|done].
  apply lookup_ge_None in Hw. apply lookup_lt_Some in Hy. lia.
Qed.

Lemma inv_pending st v i u j call low' : inv st -> t_call st = (v, i) :: (u, j) :: call -> succs succ v !! i = None ->
  at_ (t_low st) v < at_ (t_index st) v -> length low' = n ->
  (forall x, x <> u -> at_ low' x = at_ (t_low st) x) ->
  at_ low' u = Z.min (at_ (t_low st) u) (at_ (t_low st) v) ->
  inv (mkTarjan (t_index st) low' (t_onStack st) (t_stack st) (t_out st) (t_next st) ((u, j) :: call)).
Proof.
  intros Hi E Hw Hlow Hlen Hother Hu.
  assert (Hle : forall x, at_ low' x <= at_ (t_low st) x).
  { intros x. destruct (decide (x = u)) as [->|Hn]; [rewrite Hu; lia|by rewrite Hother]. }
  assert (Hf : forall x, x ∈ ((u, j) :: call).*1 -> x ∈ (t_call st).*1) by (intros x Hx; rewrite E; cbn in *; set_solver).
  assert (Hvf : v ∈ (t_call st).*1) by (rewrite E; by left).
  assert (Huf : u ∈ (t_call st).*1) by (rewrite E; right; by left).
  destruct (frame_once _ Hi _ _ _ E) as [Hvn Hbelow]. pose proof (Hbelow u ltac:(by left)) as Huv.
  assert (Htop : forall x, x ∈ ((u, j) :: call).*1 -> at_ (t_index st) x <= at_ (t_index st) u).
  { intros x [->|Hx]%elem_of_cons; [done|]. destruct (i_frames _ Hi) as [Hs _]. rewrite E in Hs.
    apply StronglySorted_inv in Hs as [Hs _]. apply StronglySorted_inv in Hs as [_ Hs]. rewrite Forall_forall in Hs.
    specialize (Hs x Hx). cbn in Hs. lia. }
  constructor; cbn [t_index t_low t_onStack t_stack t_out t_next t_call]; try apply Hi.
  - split; [apply Hi|]. split; [done|apply Hi].
  - split; [|intros x k Hx; apply (i_frames _ Hi); rewrite E; by right].
    destruct (i_frames _ Hi) as [Hs _]. rewrite E in Hs. by apply StronglySorted_inv in Hs as [Hs _].
  - intros x Hx. destruct (i_below _ Hi x Hx) as (u' & Hu' & Hle'). rewrite E in Hu'.
    apply elem_of_cons in Hu' as [->|Hu']; [|by exists u']. exists u. split; [by left|]. cbn in Hle'. lia.
  - intros x y Hx Ht. apply (i_taken _ Hi x y Hx). by eapply taken_finished.
  - intros x y Hx Ht Hy. specialize (Hle x).
    pose proof (i_low_edge _ Hi x y Hx (taken_finished _ _ _ _ _ _ Hi E Hw Ht) Hy). lia.
  - intros x Hx. specialize (Hle x). destruct (i_low_node _ Hi x Hx) as (? & y & Hy & Ey & Hr). split; [lia|].
    destruct (decide (x = u)) as [->|Hn]; [|rewrite Hother by done; by exists y]. rewrite Hu.
    destruct (Z.min_spec (at_ (t_low st) u) (at_ (t_low st) v)) as [[_ ->]|[_ ->]]; [by exists y|].
    destruct (i_low_node _ Hi v) as (_ & z & Hz & Ez & Hrz); [by apply (frame_stack st Hi)|]. exists z.
    split; [done|]. split; [done|]. etrans; [|exact Hrz]. apply (i_down _ Hi); [done|by apply (frame_stack st Hi)|lia].
  - intros x Hx Hnf. specialize (Hle x). destruct (decide (x = v)) as [->|Hn]; [rewrite Hother by (intros ->; lia); done|].
    pose proof (i_pending _ Hi x Hx) as Hp. rewrite E in Hp. cbn in Hp. specialize (Hp ltac:(cbn in Hnf; set_solver)). lia.
  - intros u' x Hu' Hx. apply (i_down _ Hi); [by apply Hf|done].
  - intros u' x Hu' Hx Hux Ht. destruct (decide (x = u)) as [->|Hxu].
    { assert (u' = u) as ->; [|done]. apply (num_inj st Hi); [by apply (frame_stack st Hi), Hf|done|].
      specialize (Ht u ltac:(by left)). lia. }
    rewrite (Hother x) by done. destruct (Z.le_gt_cases (at_ (t_index st) v) (at_ (t_index st) x)) as [Hvx|Hvx].
    + assert (u' = u) as ->.
      { apply (num_inj st Hi); [by apply (frame_stack st Hi), Hf|by apply (frame_stack st Hi)|].
        specialize (Ht u ltac:(by left)). specialize (Htop u' Hu'). lia. }
      rewrite Hu. etrans; [apply Z.le_min_r|]. apply (i_low_frame _ Hi); [done|done|done|].
      intros z Hz _. by apply (frame_top st Hi _ _ _ z E).
    + specialize (Hle u'). pose proof (i_low_frame _ Hi u' x (Hf _ Hu') Hx Hux) as Hl.
      assert (at_ (t_low st) u' <= at_ (t_low st) x); [|lia]. apply Hl. intros z Hz Hzx. rewrite E in Hz.
      apply elem_of_cons in Hz as [->|Hz]; [cbn in Hzx; lia|]. by apply Ht.
Qed.

(** *** A component *)

Section Complete.
Context (st : tarjan_state) (Hi : inv st) (v i : nat) (call : list (nat * nat)).
Context (Ec : t_call st = (v, i) :: call) (Hend : succs succ v !! i = None).
Context (Hroot : at_ (t_low st) v = at_ (t_index st) v).
Context (above rest : list nat) (Es : t_stack st = above ++ v :: rest).

Abbreviation num := (at_ (t_index st)).
Abbreviation low := (at_ (t_low st)).
Abbreviation comp := (above ++ [v]).

Lemma root_stack : v ∈ t_stack st.
Proof. rewrite Es. set_solver. Qed.

Lemma root_frame : v ∈ (t_call st).*1.
Proof. rewrite Ec. by left. Qed.

Lemma rest_below x : x ∈ rest -> num x < num v.
Proof.
  intros Hx. pose proof (i_stack _ Hi) as Hs. rewrite Es in Hs. clear -Hx Hs. induction above as [|a l IH]; cbn in Hs.
  - apply StronglySorted_inv in Hs as [_ Hs]. rewrite Forall_forall in Hs. by apply Hs.
  - apply StronglySorted_inv in Hs as [Hs _]. by apply IH.
Qed.

Lemma comp_above x : x ∈ comp -> x ∈ t_stack st /\ num v <= num x.
Proof.
  intros Hx. split; [rewrite Es; set_solver|]. pose proof (i_stack _ Hi) as Hs. rewrite Es in Hs. clear -Hx Hs.
  induction above as [|a l IH]; cbn in Hs.
  - apply list_elem_of_singleton in Hx as ->. lia.
  - apply StronglySorted_inv in Hs as [Hs Ha]. apply elem_of_cons in Hx as [->|Hx]; [|by apply IH].
    rewrite Forall_forall in Ha. specialize (Ha v ltac:(set_solver)). lia.
Qed.

Lemma stack_parts x : x ∈ t_stack st <-> x ∈ comp \/ x ∈ rest.
Proof. rewrite Es. set_solver. Qed.

Lemma comp_rest x : x ∈ comp -> x ∉ rest.
Proof. intros [_ Hx]%comp_above Hr%rest_below. lia. Qed.

Lemma comp_reach x : x ∈ comp -> reach v x /\ reach x v.
Proof.
  intros [Hx Hle]%comp_above. split; [apply (i_down _ Hi); [apply root_frame|done|done]|].
  destruct (reach_frame st Hi x Hx) as (u & Hu & _ & Hr). etrans; [exact Hr|].
  apply (i_down _ Hi); [done|apply root_stack|by apply (frame_top st Hi _ _ _ u Ec)].
Qed.

(** The component and those before it are closed. *)
Lemma comp_closed x y : x ∈ comp -> edge x y -> y ∈ concat (t_out st) \/ y ∈ comp.
Proof.
  intros Hx He. destruct (comp_above x Hx) as [Hxs Hvx].
  assert (Ht : taken (t_call st) x y).
  { apply (taken_finished _ _ _ _ _ _ Hi Ec Hend). split; [done|]. intros j Hj. exfalso.
    assert (Hxf : x ∈ call.*1) by (apply list_elem_of_fmap; by exists (x, j)).
    apply (frame_once _ Hi _ _ _ Ec) in Hxf. lia. }
  destruct (i_seen _ Hi y (edge_dst _ _ He)) as [Hw|[Hy|Hy]]; [by destruct (i_taken _ Hi x y Hxs Ht)| |by left].
  apply stack_parts in Hy as [Hy|Hy]; [by right|]. exfalso.
  pose proof (i_low_edge _ Hi x y Hxs Ht ltac:(apply stack_parts; by right)) as Hl.
  assert (low v <= low x).
  { apply (i_low_frame _ Hi); [apply root_frame|done|done|]. intros u Hu _. by apply (frame_top st Hi _ _ _ u Ec). }
  apply rest_below in Hy. lia.
Qed.

Lemma out_closed x y : x ∈ concat (t_out st) -> reach x y -> y ∈ concat (t_out st).
Proof.
  intros Hx Hr. induction Hr as [x|x z y He _ IH]; [done|]. apply IH. clear IH.
  apply list_elem_of_In, in_concat in Hx as (c & Hc & Hx). apply list_elem_of_In in Hc, Hx.
  apply list_elem_of_split in Hc as (pre & post & E).
  destruct (i_closed _ Hi _ _ _ E x z Hx He) as [Hz|Hz]; rewrite E, concat_app; cbn; set_solver.
Qed.

Lemma comp_reached x y : x ∈ comp -> reach x y -> y ∈ concat (t_out st) \/ y ∈ comp.
Proof.
  intros Hx Hr. induction Hr as [x|x z y He Hr IH]; [by right|].
  destruct (comp_closed x z Hx He) as [Hz|Hz]; [left; by eapply out_closed|by apply IH].
Qed.

Lemma comp_strong x y : x ∈ comp -> y ∈ comp <-> strongly succ x y.
Proof.
  intros Hx. pose proof (comp_reach x Hx) as [Hvx Hxv]. split.
  - intros [Hvy Hyv]%comp_reach. split; by etrans.
  - intros [Hxy Hyx]. destruct (comp_reached x y Hx Hxy) as [Hy|Hy]; [|done].
    pose proof (out_closed y x Hy Hyx) as Hxo. apply (i_out _ Hi) in Hxo as (_ & _ & Hxo).
    destruct Hxo. by apply comp_above.
Qed.

Lemma comp_sorted x : x ∈ sort_ints comp <-> x ∈ comp.
Proof. unfold sort_ints. by rewrite sort_stable_perm. Qed.

Lemma rest_sorted : StronglySorted (fun a b => num b < num a) rest.
Proof.
  pose proof (i_stack _ Hi) as Hs. rewrite Es in Hs. clear -Hs. induction above as [|a l IH]; cbn in Hs.
  - by apply StronglySorted_inv in Hs as [Hs _].
  - apply StronglySorted_inv in Hs as [Hs _]. by apply IH.
Qed.

Lemma comp_NoDup : NoDup comp.
Proof.
  pose proof (sorted_NoDup num _ (i_stack _ Hi)) as Hn. rewrite Es in Hn. replace (above ++ v :: rest) with (comp ++ rest) in Hn
    by (by rewrite <- (assoc_L (++))). by apply NoDup_app in Hn as [? _].
Qed.

Lemma inv_complete :
  inv (mkTarjan (t_index st) (t_low st) (off_stack comp (t_onStack st)) rest (t_out st ++ [sort_ints comp]) (t_next st) call).
Proof.
  assert (Hrs : forall x, x ∈ rest -> x ∈ t_stack st) by (intros x Hx; apply stack_parts; by right).
  assert (Hfr : forall x, x ∈ call.*1 -> x ∈ (t_call st).*1) by (intros x Hx; rewrite Ec; by right).
  assert (Hrf : forall x, x ∈ (t_call st).*1 -> num x < num v -> x ∈ call.*1).
  { intros x Hx Hlt. rewrite Ec in Hx. apply elem_of_cons in Hx as [->|Hx]; [cbn in Hlt; lia|done]. }
  constructor; cbn [t_index t_low t_onStack t_stack t_out t_next t_call]; try apply Hi.
  - rewrite off_stack_length. apply Hi.
  - intros x Hx. rewrite (off_stack_lookup _ _ _ _ (i_on _ Hi x Hx)). f_equal. rewrite <- bool_decide_and. apply bool_decide_ext.
    rewrite stack_parts. pose proof (comp_rest x). naive_solver.
  - apply rest_sorted.
  - intros x Hx. by apply (i_num _ Hi), Hrs.
  - intros x. rewrite concat_app, elem_of_app. cbn. rewrite app_nil_r, comp_sorted. intros [Hx|Hx].
    + destruct (i_out _ Hi x Hx) as (? & ? & Hn). split; [done|]. split; [done|]. intros Hr. by apply Hn, Hrs.
    + destruct (comp_above x Hx) as [Hs _]. apply (i_num _ Hi) in Hs as [? ?]. split; [done|]. split; [lia|]. by apply comp_rest.
  - intros x Hx. rewrite concat_app, elem_of_app. cbn. rewrite app_nil_r, comp_sorted.
    destruct (i_seen _ Hi x Hx) as [?|[Hs|?]]; [by left| |by right; right; left].
    apply stack_parts in Hs as [?|?]; auto.
  - rewrite concat_app. cbn. rewrite app_nil_r. apply NoDup_app. split; [apply Hi|]. split.
    + intros x Hx Hc. apply comp_sorted, comp_above in Hc as [Hs _]. by apply (i_out _ Hi) in Hx as (_ & _ & ?).
    + unfold sort_ints. rewrite sort_stable_perm. apply comp_NoDup.
  - destruct (i_frames _ Hi) as [Hs Hin]. split; [rewrite Ec in Hs; by apply StronglySorted_inv in Hs as [Hs _]|].
    intros x j Hx. destruct (Hin x j) as [Hxs Hj]; [rewrite Ec; by right|]. split; [|done].
    apply stack_parts in Hxs as [Hc|Hr]; [|done]. apply comp_above in Hc as [_ Hc].
    assert (Hxf : x ∈ call.*1) by (apply list_elem_of_fmap; by exists (x, j)). apply (frame_once _ Hi _ _ _ Ec) in Hxf. lia.
  - intros x Hx. destruct (i_below _ Hi x (Hrs x Hx)) as (u & Hu & Hle). exists u. split; [|done]. apply Hrf; [done|].
    apply rest_below in Hx. lia.
  - intros x y Hx Ht. apply (i_taken _ Hi x y (Hrs x Hx)). by eapply taken_finished.
  - intros x y Hx Ht Hy. apply (i_low_edge _ Hi x y (Hrs x Hx)); [by eapply taken_finished|by apply Hrs].
  - intros x Hx. destruct (i_low_node _ Hi x (Hrs x Hx)) as (Hl & y & Hy & Ey & Hr). split; [done|]. exists y. split; [|done].
    apply stack_parts in Hy as [Hc|?]; [|done]. apply comp_above in Hc as [_ Hc]. apply rest_below in Hx. lia.
  - intros x Hx Hn. apply (i_pending _ Hi x (Hrs x Hx)). intros Hf. apply Hn, Hrf; [done|by apply rest_below].
  - intros u x Hu Hx. apply (i_down _ Hi); auto.
  - intros u x Hu Hx Hux Ht. apply (i_low_frame _ Hi); auto. intros u' Hu' Hle. apply Ht; [|done]. apply Hrf; [done|].
    apply rest_below in Hx. lia.
  - intros c [Hc| ->%list_elem_of_singleton]%elem_of_app; [by apply (i_comps _ Hi)|]. split; [|split].
    + intros E. assert (Hv : v ∈ sort_ints comp) by (apply comp_sorted; set_solver). rewrite E in Hv. by apply not_elem_of_nil in Hv.
    + apply sort_ints_strict, comp_NoDup.
    + intros x Hx%comp_sorted w. rewrite comp_sorted. by apply comp_strong.
  - intros pre c post E x y Hx He. destruct post as [|p post _] using rev_ind.
    + apply app_inj_tail in E as [<- <-]. rewrite comp_sorted in *. by apply (comp_closed x y).
    + rewrite app_comm_cons, (assoc_L (++)) in E. apply app_inj_tail in E as [E _]. by eapply (i_closed _ Hi).
Qed.
End Complete.

(** *** Rounds *)

(** What is left to do: a frame's successors and its end, and all of a new node's. *)
Definition frame_work (f : nat * nat) : nat := (S (length (succs succ f.1)) - f.2)%nat.

Definition node_work (index : list Z) (v : nat) : nat := if at_ index v =? -1 then S (length (succs succ v)) else O.

Definition work (st : tarjan_state) : nat :=
  (sum_list (frame_work <$> t_call st) + sum_list (node_work (t_index st) <$> seq 0 n))%nat.

Lemma sum_remove (f g : nat -> nat) w l : NoDup l -> w ∈ l -> g w = O -> (forall x, x <> w -> g x = f x) ->
  (sum_list (g <$> l) + f w = sum_list (f <$> l))%nat.
Proof.
  intros Hn Hw Hgw Heq. induction Hn as [|x l Hx Hn IH]; [by apply not_elem_of_nil in Hw|]. cbn.
  apply elem_of_cons in Hw as [->|Hw].
  - assert (Hs : g <$> l = f <$> l).
    { apply list_fmap_ext. intros i y Hy. apply Heq. intros ->. apply Hx. by eapply list_elem_of_lookup_2. }
    rewrite Hgw, Hs. lia.
  - specialize (IH Hw). rewrite (Heq x) by (by intros ->). lia.
Qed.

Lemma push_work st w : inv st -> (w < n)%nat -> at_ (t_index st) w = -1 -> work (push w st) = work st.
Proof.
  intros Hi Hw Hnew. unfold work, push. cbn [t_call t_index fmap list_fmap]. cbn [sum_list list_sum].
  pose proof (sum_remove (node_work (t_index st)) (node_work (<[w := t_next st]> (t_index st))) w (seq 0 n)) as Hs.
  rewrite <- Hs.
  - unfold node_work at 3. rewrite Hnew. cbn. unfold frame_work. cbn. lia.
  - apply NoDup_seq.
  - apply elem_of_seq. lia.
  - unfold node_work. rewrite push_num_new by done. pose proof (i_next _ Hi). destruct (Z.eqb_spec (t_next st) (-1)); [lia|done].
  - intros x Hx. unfold node_work. by rewrite push_num.
Qed.

Lemma raise_low_spec st v i u j call : inv st -> t_call st = (v, i) :: (u, j) :: call ->
  length (raise_low v ((u, j) :: call) (t_low st)) = n
  /\ (forall x, x <> u -> at_ (raise_low v ((u, j) :: call) (t_low st)) x = at_ (t_low st) x)
  /\ at_ (raise_low v ((u, j) :: call) (t_low st)) u = Z.min (at_ (t_low st) u) (at_ (t_low st) v).
Proof.
  intros Hi E. destruct (i_lens _ Hi) as (_ & Hl & _).
  assert (Hu : (u < n)%nat) by (apply (i_num _ Hi), (frame_stack st Hi); rewrite E; right; by left).
  cbn. destruct (Z.ltb_spec (at_ (t_low st) v) (at_ (t_low st) u)).
  - rewrite length_insert. split; [done|]. split; [intros x Hx|]; rewrite at_insert by lia; [by rewrite decide_False|].
    rewrite decide_True by done. lia.
  - split; [done|]. split; [done|lia].
Qed.

Lemma complete_inv st v i call : inv st -> t_call st = (v, i) :: call -> succs succ v !! i = None ->
  inv (complete v (mkTarjan (t_index st) (raise_low v call (t_low st)) (t_onStack st) (t_stack st) (t_out st) (t_next st) call)).
Proof.
  intros Hi E Hw. unfold complete. cbn [t_index t_low t_onStack t_stack t_out t_next t_call].
  assert (Hvs : v ∈ t_stack st) by (apply (frame_stack st Hi); rewrite E; by left).
  destruct (i_low_node _ Hi v Hvs) as (Hle & y & Hy & Ey & _).
  assert (Hlv : at_ (raise_low v call (t_low st)) v = at_ (t_low st) v).
  { destruct call as [|[u j] call]; [done|]. apply (raise_low_spec _ _ _ _ _ _ Hi E). intros ->.
    destruct (proj1 (frame_once _ Hi _ _ _ E)). by left. }
  rewrite Hlv. destruct (Z.eqb_spec (at_ (t_low st) v) (at_ (t_index st) v)) as [Hroot|Hne].
  - assert (Hsame : raise_low v call (t_low st) = t_low st).
    { destruct call as [|[u j] call]; [done|]. cbn. pose proof (proj2 (frame_once _ Hi _ _ _ E) u ltac:(by left)).
      assert (Hus : u ∈ t_stack st) by (apply (frame_stack st Hi); rewrite E; right; by left).
      pose proof (proj1 (i_low_node _ Hi u Hus)). destruct (Z.ltb_spec (at_ (t_low st) v) (at_ (t_low st) u)); [lia|done]. }
    rewrite Hsame. apply list_elem_of_split in Hvs as (above & rest & Es).
    assert (Hva : v ∉ above).
    { pose proof (sorted_NoDup _ _ (i_stack _ Hi)) as Hn. rewrite Es in Hn. apply NoDup_app in Hn as (_ & Hn & _).
      intros Hv. by apply (Hn v Hv); left. }
    rewrite Es, pop_until_split by done. cbn [app]. by apply (inv_complete st Hi v i call E Hw Hroot above rest).
  - destruct call as [|[u j] call].
    + destruct (i_below _ Hi y Hy) as (u & Hu & Hu'). rewrite E in Hu. apply list_elem_of_singleton in Hu as ->. cbn in Hu'. lia.
    + destruct (raise_low_spec _ _ _ _ _ _ Hi E) as (Hl & Ho & Hu). apply (inv_pending st v i u j call); auto. lia.
Qed.

Lemma round_inv st : inv st -> t_call st <> [] -> inv (tarjan_round succ st) /\ (work (tarjan_round succ st) < work st)%nat.
Proof.
  intros Hi Hne. destruct (t_call st) as [|[v i] call] eqn:E; [done|]. unfold tarjan_round. rewrite E.
  assert (Hvs : v ∈ t_stack st) by (apply (frame_stack st Hi); rewrite E; by left).
  assert (Hlen : (i <= length (succs succ v))%nat) by (apply (proj2 (i_frames _ Hi) v i); rewrite E; by left).
  destruct (succs succ v !! i) as [w|] eqn:Hw.
  - assert (Hvw : edge v w) by (by eapply list_elem_of_lookup_2). pose proof (edge_dst _ _ Hvw) as Hwn.
    assert (Hilt : (i < length (succs succ v))%nat) by (by eapply lookup_lt_Some).
    assert (Hwork : forall low on stack out next,
      (work (mkTarjan (t_index st) low on stack out next ((v, S i) :: call)) < work st)%nat).
    { intros. unfold work, frame_work. cbn [t_call t_index]. rewrite E. cbn. lia. }
    destruct (Z.eqb_spec (at_ (t_index st) w) (-1)) as [Hnew|Hseen].
    + change (mkTarjan _ _ _ _ _ _ ((v, S i) :: call)) with (with_call st ((v, S i) :: call)). split.
      * apply inv_push; [done|done|done|by rewrite E| | |].
        -- intros x j [[= -> ->]|Hj]%elem_of_cons; [lia|]. apply (i_frames _ Hi). rewrite E. by right.
        -- intros u Hu. apply rtc_r with v; [|done]. apply (i_down _ Hi); [done|done|]. by apply (frame_top st Hi _ _ _ u E).
        -- intros x y Hx Ht. destruct (taken_step st v i call w x y Hi E Hw Ht) as [?|[_ ?]]; auto.
      * specialize (Hwork (t_low st) (t_onStack st) (t_stack st) (t_out st) (t_next st)). unfold with_call.
        eapply Nat.le_lt_trans; [|exact Hwork]. apply Nat.eq_le_incl. unfold work, push. cbn [t_call t_index fmap list_fmap].
        pose proof (push_work st w Hi Hwn Hnew) as Hp. unfold work, push in Hp. cbn in *. lia.
    + rewrite (i_on _ Hi w Hwn). case_bool_decide as Hws; cbn [andb]; [destruct (Z.ltb_spec (at_ (t_index st) w) (at_ (t_low st) v))|].
      * split; [|apply Hwork]. destruct (i_lens _ Hi) as (_ & Hl & _).
        assert (Hvn : (v < length (t_low st))%nat) by (rewrite Hl; by apply (i_num _ Hi)).
        apply (inv_seen st v i call w); [done|done|done|done|by rewrite length_insert| |].
        -- intros x Hx. rewrite at_insert by done. by rewrite decide_False.
        -- rewrite at_insert by done. rewrite !decide_True by done. lia.
      * split; [|apply Hwork]. apply (inv_seen st v i call w); [done|done|done|done|apply (i_lens _ Hi)|done|].
        rewrite decide_True by done. lia.
      * split; [|apply Hwork]. apply (inv_seen st v i call w); [done|done|done|done|apply (i_lens _ Hi)|done|].
        by rewrite decide_False.
  - assert (Hwork : forall low on stack out next, (work (mkTarjan (t_index st) low on stack out next call) < work st)%nat).
    { intros. unfold work, frame_work. cbn [t_call t_index]. rewrite E. cbn. apply lookup_ge_None in Hw. lia. }
    split; [by apply (complete_inv st v i)|]. unfold complete. destruct (_ =? _); [destruct (pop_until _ _ _)|]; apply Hwork.
Qed.

Lemma push_seen st w x : inv st -> at_ (t_index st) x <> -1 -> at_ (t_index (push w st)) x <> -1.
Proof.
  intros Hi Hx. cbn. unfold at_ in *. destruct (decide (x = w)) as [->|Hn]; [|by rewrite list_lookup_insert_ne].
  destruct (t_index st !! w) eqn:E; [|done]. rewrite list_lookup_insert_eq by (by eapply lookup_lt_Some).
  pose proof (i_next _ Hi). lia.
Qed.

Lemma round_seen st x : inv st -> at_ (t_index st) x <> -1 -> at_ (t_index (tarjan_round succ st)) x <> -1.
Proof.
  intros Hi Hx. unfold tarjan_round, complete. destruct (t_call st) as [|[v i] call]; [done|].
  destruct (succs succ v !! i) as [w|].
  - destruct (at_ (t_index st) w =? -1); [|by destruct (_ && _)]. by apply (push_seen st w x Hi).
  - cbn. destruct (_ =? _); [destruct (pop_until _ _ _)|]; done.
Qed.

Lemma rounds_end fuel st : inv st -> (work st <= fuel)%nat ->
  inv (tarjan_rounds succ fuel st) /\ t_call (tarjan_rounds succ fuel st) = []
  /\ forall x, at_ (t_index st) x <> -1 -> at_ (t_index (tarjan_rounds succ fuel st)) x <> -1.
Proof.
  revert st. induction fuel as [|f IH]; intros st Hi Hw; cbn.
  - destruct (t_call st) as [|[v i] call] eqn:E; [done|]. exfalso.
    assert (Hl : (i <= length (succs succ v))%nat) by (apply (proj2 (i_frames _ Hi) v i); rewrite E; by left).
    unfold work, frame_work in Hw. rewrite E in Hw. cbn in Hw. lia.
  - destruct (t_call st) as [|fr call] eqn:E; [done|]. destruct (round_inv st Hi) as [Hi' Hlt]; [by rewrite E|].
    destruct (IH _ Hi' ltac:(lia)) as (? & ? & Hs). split; [done|]. split; [done|]. intros x Hx. by apply Hs, round_seen.
Qed.

Lemma idle_stack st : inv st -> t_call st = [] -> t_stack st = [].
Proof.
  intros Hi E. destruct (t_stack st) as [|x l] eqn:Es; [done|]. destruct (i_below _ Hi x) as (u & Hu & _); [rewrite Es; by left|].
  rewrite E in Hu. by apply not_elem_of_nil in Hu.
Qed.

Lemma node_work_le index v : (node_work index v <= S (length (succs succ v)))%nat.
Proof. unfold node_work. destruct (_ =? _); lia. Qed.

Lemma all_work : (sum_list ((fun v => S (length (succs succ v))) <$> seq 0 n) = tarjan_fuel succ)%nat.
Proof.
  destruct Hg as [<- _]. unfold tarjan_fuel. clear. induction succ as [|l succ' IH]; [done|].
  rewrite length_cons. cbn [seq]. rewrite <- seq_shift. change (List.map S (seq 0 (length succ'))) with (S <$> seq 0 (length succ')).
  rewrite fmap_cons, <- list_fmap_compose.
  cbn [sum_list list_sum fmap list_fmap]. change (sum_list ?l) with (list_sum l) in *. cbn [list_sum]. 
  replace ((fun v => S (length (succs (l :: succ') v))) ∘ S <$> seq 0 (length succ')) with ((fun v => S (length (succs succ' v))) <$> seq 0 (length succ')) by done.
  cbn. lia.
Qed.

Lemma work_le_fuel st : t_call st = [] -> (work st <= tarjan_fuel succ)%nat.
Proof.
  intros E. unfold work. rewrite E, <- all_work. cbn [fmap list_fmap sum_list list_sum Nat.add].
  induction (seq 0 n) as [|v l IH]; cbn; [lia|]. pose proof (node_work_le (t_index st) v). cbn in IH. lia.
Qed.

Lemma root_inv st root : inv st -> t_call st = [] -> (root < n)%nat ->
  inv (tarjan_root succ st root) /\ t_call (tarjan_root succ st root) = []
  /\ at_ (t_index (tarjan_root succ st root)) root <> -1
  /\ forall x, at_ (t_index st) x <> -1 -> at_ (t_index (tarjan_root succ st root)) x <> -1.
Proof.
  intros Hi E Hr. unfold tarjan_root. destruct (Z.eqb_spec (at_ (t_index st) root) (-1)) as [Hnew|]; [|done].
  assert (Hp : inv (push root st)).
  { replace st with (with_call st (t_call st)) by (by destruct st).
    apply inv_push; [done|done|done|done|intros v i Hv; by apply (proj2 (i_frames _ Hi) v i)|by rewrite E; intros ? ?%not_elem_of_nil|auto]. }
  destruct (rounds_end (tarjan_fuel succ) (push root st) Hp) as (Hi' & Hc & Hs).
  { rewrite push_work by done. by apply work_le_fuel. }
  split; [done|]. split; [done|]. split.
  - apply Hs. cbn. rewrite push_num_new by done. pose proof (i_next _ Hi). lia.
  - intros x Hx. apply Hs. by apply push_seen.
Qed.

Lemma start_inv : inv (tarjan_start n).
Proof.
  unfold tarjan_start. constructor; cbn [t_index t_low t_onStack t_stack t_out t_next t_call]; try (by intros ? ?%not_elem_of_nil).
  - by rewrite !length_replicate.
  - done.
  - intros v Hv. rewrite bool_decide_eq_false_2 by apply not_elem_of_nil. by apply lookup_replicate_2.
  - constructor.
  - intros v Hv. left. unfold at_. by rewrite lookup_replicate_2.
  - constructor.
  - split; [constructor|]. by intros v i ?%not_elem_of_nil.
  - by intros ? ? ?%not_elem_of_nil.
  - by intros ? ? ?%not_elem_of_nil.
  - by intros ? ? ?%not_elem_of_nil.
  - by intros ? ? ?%not_elem_of_nil.
  - intros pre c post E. by destruct pre.
Qed.

Lemma tarjan_end : exists st, t_out st = tarjan n succ /\ inv st /\ t_call st = [] /\ forall v, (v < n)%nat -> at_ (t_index st) v <> -1.
Proof.
  exists (fold_left (tarjan_root succ) (seq 0 n) (tarjan_start n)). split; [done|].
  assert (Hf : forall l st, inv st -> t_call st = [] -> (forall v, v ∈ l -> (v < n)%nat) ->
    let st' := fold_left (tarjan_root succ) l st in
    inv st' /\ t_call st' = [] /\ (forall v, v ∈ l -> at_ (t_index st') v <> -1)
    /\ forall v, at_ (t_index st) v <> -1 -> at_ (t_index st') v <> -1).
  { induction l as [|r l IH]; intros st Hi Hc Hl; cbn; [split; [done|]; split; [done|]; split; [by intros ? ?%not_elem_of_nil|done]|].
    destruct (root_inv st r Hi Hc) as (Hi' & Hc' & Hr & Hm); [apply Hl; by left|].
    destruct (IH _ Hi' Hc') as (Hi2 & Hc2 & Hs & Hm2); [intros v Hv; apply Hl; by right|].
    split; [done|]. split; [done|]. split; [intros v [->|Hv]%elem_of_cons; auto|auto]. }
  destruct (Hf (seq 0 n) (tarjan_start n) start_inv eq_refl) as (Hi & Hc & Hs & _); [intros v Hv%elem_of_seq; lia|].
  split; [done|]. split; [done|]. intros v Hv. apply Hs, elem_of_seq. lia.
Qed.

(** What tarjan returns. *)
Lemma tarjan_spec :
  concat (tarjan n succ) ≡ₚ seq 0 n
  /\ (forall c, c ∈ tarjan n succ -> c <> [] /\ StronglySorted lt c /\ forall v, v ∈ c -> forall w, w ∈ c <-> strongly succ v w)
  /\ (forall pre c post, tarjan n succ = pre ++ c :: post -> forall v w, v ∈ c -> edge v w -> w ∈ concat pre \/ w ∈ c).
Proof.
  destruct tarjan_end as (st & <- & Hi & Hc & Hs). split; [|split; [apply Hi|apply Hi]].
  apply NoDup_Permutation; [apply Hi|apply NoDup_seq|]. intros v. rewrite elem_of_seq. split.
  - intros Hv%(i_out _ Hi). lia.
  - intros [_ Hv]. destruct (i_seen _ Hi v Hv) as [Hn|[Hst|]]; [by apply Hs in Hn| |done].
    rewrite (idle_stack st Hi Hc) in Hst. by apply not_elem_of_nil in Hst.
Qed.
End Tarjan.

(** ** Cycles *)

Lemma tc_inv_l {A} (R : A -> A -> Prop) x y : tc R x y -> R x y \/ exists z, R x z /\ tc R z y.
Proof. destruct 1 as [x y HR|x y z HR Ht]; [by left|right; eauto]. Qed.

Lemma two_members (c : list nat) v w : v ∈ c -> w ∈ c -> v <> w -> (1 < length c)%nat.
Proof. intros Hv Hw Hn. destruct c as [|a [|b c]]; cbn; [set_solver|set_solver|lia]. Qed.

Lemma other_member (c : list nat) : NoDup c -> (1 < length c)%nat -> exists v w, v ∈ c /\ w ∈ c /\ v <> w.
Proof. destruct c as [|a [|b c]]; cbn; [lia|lia|]. intros Hn _. exists a, b. apply NoDup_cons in Hn as [Hn _]. set_solver. Qed.

Lemma comp_of n succ v : graph_ok n succ -> (v < n)%nat -> exists c, c ∈ tarjan n succ /\ v ∈ c.
Proof.
  intros Hg Hv. destruct (tarjan_spec n succ Hg) as (Hp & _). assert (Hin : v ∈ concat (tarjan n succ)).
  { rewrite Hp. apply elem_of_seq. lia. }
  apply list_elem_of_In, in_concat in Hin as (c & Hc & Hvc). exists c. by rewrite !list_elem_of_In.
Qed.

(** A component counts as cyclic when a cycle passes through one of its nodes. *)
Lemma cyclic_comp_true n succ c : graph_ok n succ -> c ∈ tarjan n succ ->
  cyclic_comp succ c = true <-> exists v, v ∈ c /\ tc (edge succ) v v.
Proof.
  intros Hg Hc. destruct (tarjan_spec n succ Hg) as (_ & Hs & _). destruct (Hs c Hc) as (Hne & Hsort & Hscc).
  unfold cyclic_comp. rewrite orb_true_iff, Nat.ltb_lt. split.
  - intros [Hl|Hl].
    + destruct (other_member c) as (v & w & Hv & Hw & Hn); [|done|].
      { clear -Hsort. induction Hsort as [|a l _ IH Ha]; constructor; [|done]. rewrite Forall_forall in Ha.
        intros Hin. specialize (Ha a Hin). lia. }
      exists v. split; [done|]. destruct (Hscc v Hv w) as [Hvw _]. destruct (Hvw Hw) as [Hvw' Hwv].
      apply rtc_tc in Hvw' as [->|Hvw']; [done|]. by eapply tc_rtc_r.
    + destruct c as [|v c]; [done|]. exists v. split; [by left|]. apply tc_once. by apply memn_true in Hl.
  - intros (v & Hv & Ht). apply tc_inv_l in Ht as [He|(u & He & Ht)].
    + destruct c as [|a [|b c]]; [by apply not_elem_of_nil in Hv| |left; cbn; lia].
      apply list_elem_of_singleton in Hv as ->. right. by apply memn_true.
    + destruct (decide (u = v)) as [->|Hn].
      * destruct c as [|a [|b c]]; [by apply not_elem_of_nil in Hv| |left; cbn; lia].
        apply list_elem_of_singleton in Hv as ->. right. by apply memn_true.
      * left. apply (two_members c v u); [done| |done]. apply (Hscc v Hv). split; [by apply rtc_once|by apply tc_rtc].
Qed.

Lemma tarjan_cyclic n succ : graph_ok n succ ->
  existsb (cyclic_comp succ) (tarjan n succ) = true <-> exists v, tc (edge succ) v v.
Proof.
  intros Hg. rewrite existsb_exists. split.
  - intros (c & Hc & Ht). apply list_elem_of_In in Hc. apply (cyclic_comp_true n) in Ht as (v & _ & Hv); [by exists v|done|done].
  - intros (v & Ht). assert (Hv : (v < n)%nat).
    { apply tc_inv_l in Ht as [He|(u & He & _)]; by eapply edge_src. }
    destruct (comp_of n succ v Hg Hv) as (c & Hc & Hvc). exists c. split; [by apply list_elem_of_In|].
    apply (cyclic_comp_true n); [done|done|by exists v].
Qed.

(** The edges between the nodes of [keep]. *)
Definition edge_in (keep : list nat) (succ : list (list nat)) (v w : nat) : Prop := v ∈ keep /\ w ∈ keep /\ edge succ v w.

Lemma local_of_lookup keep w i : NoDup keep -> local_of w keep = Some i <-> keep !! i = Some w.
Proof.
  intros Hn. revert i. induction Hn as [|v keep Hv Hn IH]; intros i; cbn; [done|].
  destruct (Nat.eqb_spec v w) as [->|Hne].
  - destruct i as [|i]; cbn; [naive_solver|]. split; [done|]. intros Hi. destruct Hv. by eapply list_elem_of_lookup_2.
  - destruct i as [|i]; cbn; [destruct (local_of w keep); cbn; naive_solver|]. rewrite <- IH. destruct (local_of w keep); cbn; naive_solver.
Qed.

Lemma induced_edge keep succ i j : NoDup keep ->
  edge (induced keep succ) i j <-> exists v w, keep !! i = Some v /\ keep !! j = Some w /\ edge succ v w.
Proof.
  intros Hn. unfold edge at 1, succs at 1, induced. rewrite list_lookup_fmap. destruct (keep !! i) as [v|]; cbn.
  - rewrite list_elem_of_omap. split.
    + intros (w & Hw & Hl). apply local_of_lookup in Hl; [|done]. by exists v, w.
    + intros (v' & w & [= <-] & Hj & He). exists w. split; [done|]. by apply local_of_lookup.
  - split; [by intros ?%not_elem_of_nil|]. by intros (? & ? & ? & _).
Qed.

Lemma induced_ok keep succ : NoDup keep -> graph_ok (length keep) (induced keep succ).
Proof.
  intros Hn. split; [by apply length_fmap|]. intros v w (a & b & _ & Hw & _)%induced_edge; [|done]. by eapply lookup_lt_Some.
Qed.

Lemma induced_tc keep succ i j : NoDup keep -> tc (edge (induced keep succ)) i j ->
  exists v w, keep !! i = Some v /\ keep !! j = Some w /\ tc (edge_in keep succ) v w.
Proof.
  intros Hn Ht. induction Ht as [i j He|i j k He Ht IH].
  - apply induced_edge in He as (v & w & Hv & Hw & He); [|done]. exists v, w. split; [done|]. split; [done|]. apply tc_once.
    split; [by eapply list_elem_of_lookup_2|]. split; [by eapply list_elem_of_lookup_2|done].
  - apply induced_edge in He as (v & w & Hv & Hw & He); [|done]. destruct IH as (w' & x & Hw' & Hx & IH).
    simplify_eq. exists v, x. split; [done|]. split; [done|]. eapply tc_l; [|exact IH].
    split; [by eapply list_elem_of_lookup_2|]. split; [by eapply list_elem_of_lookup_2|done].
Qed.

Lemma tc_induced keep succ v w : NoDup keep -> tc (edge_in keep succ) v w ->
  exists i j, keep !! i = Some v /\ keep !! j = Some w /\ tc (edge (induced keep succ)) i j.
Proof.
  intros Hn Ht. induction Ht as [v w (Hv & Hw & He)|v w x (Hv & Hw & He) Ht IH].
  - apply list_elem_of_lookup in Hv as [i Hi], Hw as [j Hj]. exists i, j. split; [done|]. split; [done|].
    apply tc_once, induced_edge; [done|by exists v, w].
  - destruct IH as (j & k & Hj & Hk & IH). apply list_elem_of_lookup in Hv as [i Hi]. exists i, k. split; [done|]. split; [done|].
    eapply tc_l; [|exact IH]. apply induced_edge; [done|by exists v, w].
Qed.

Definition outside (isLoop : nat -> bool) (members : list nat) : list nat := List.filter (fun m => negb (isLoop m)) members.

Lemma outside_elem isLoop members v : v ∈ outside isLoop members <-> v ∈ members /\ isLoop v = false.
Proof. unfold outside. rewrite !list_elem_of_In, filter_In, negb_true_iff. done. Qed.

Lemma NoDup_outside isLoop members : NoDup members -> NoDup (outside isLoop members).
Proof. rewrite !NoDup_ListNoDup. apply List.NoDup_filter. Qed.

Lemma covered_spec members succ isLoop : NoDup members ->
  covered members succ isLoop = true <-> forall v, ~ tc (edge_in (outside isLoop members) succ) v v.
Proof.
  intros Hn. pose proof (NoDup_outside isLoop members Hn) as Hk. unfold covered. fold (outside isLoop members).
  rewrite negb_true_iff, <- not_true_iff_false, tarjan_cyclic by (by apply induced_ok). split.
  - intros Hc v (i & j & Hi & Hj & Ht)%tc_induced; [|done]. apply Hc. exists i.
    assert (i = j) as <- by (by eapply NoDup_lookup). done.
  - intros Hc (i & Ht). apply induced_tc in Ht as (v & w & Hv & Hw & Ht); [|done]. simplify_eq. by apply (Hc v).
Qed.

(** ** The representative cycle *)

(** Consecutive nodes are related. *)
Fixpoint walks (R : nat -> nat -> Prop) (l : list nat) : Prop :=
  match l with
  | x :: ((y :: _) as l') => R x y /\ walks R l'
  | _ => True
  end.

Lemma walks_app R l x k : walks R (l ++ [x]) -> walks R (x :: k) -> walks R (l ++ x :: k).
Proof.
  induction l as [|y l IH]; [done|]. intros Hl Hk. destruct l as [|z l]; cbn in *; [naive_solver|].
  destruct Hl as [? Hl]. split; [done|]. by apply IH.
Qed.

Lemma walks_tc R x l y : walks R (x :: l ++ [y]) -> tc R x y.
Proof.
  revert x. induction l as [|z l IH]; intros x; cbn; [intros [? _]; by apply tc_once|].
  intros [Hx Hl]. eapply tc_l; [exact Hx|]. by apply IH.
Qed.

Section Search.
Context (succ : list (list nat)) (start : nat) (allowed : list nat) (Hstart : start ∈ allowed) (Hnd : NoDup allowed).

Abbreviation step := (edge_in allowed succ).

(** The parents from [x] back to the start. *)
Inductive anc (parent : gmap nat nat) : nat -> list nat -> Prop :=
| anc_start : anc parent start []
| anc_step x u l : x <> start -> parent !! x = Some u -> step u x -> anc parent u l -> anc parent x (x :: l).

Lemma anc_walk parent x l : anc parent x l -> forall k, walks step (x :: k) -> walks step ([start] ++ reverse l ++ tail (x :: k)).
Proof.
  induction 1 as [|x u l Hx Hp Hs Ha IH]; intros k Hk; [done|]. rewrite reverse_cons, <- (assoc_L (++)).
  apply (IH (x :: k)). done.
Qed.

Lemma walk_back_anc parent x l fuel : anc parent x l -> (length l < fuel)%nat -> walk_back fuel parent start x = l.
Proof.
  intros Ha. revert fuel. induction Ha as [|x u l Hx Hp _ _ IH]; intros [|f] Hf; cbn in *; try lia.
  - by rewrite Nat.eqb_refl.
  - rewrite (proj2 (Nat.eqb_neq x start) Hx), Hp. f_equal. apply IH. lia.
Qed.

Lemma anc_grow parent w v x l : parent !! w = None -> anc parent x l -> anc (<[w := v]> parent) x l.
Proof.
  intros Hw. induction 1 as [|x u l Hx Hp Hs Ha IH]; [constructor|]. econstructor; [done| |done|done].
  by rewrite lookup_insert_ne by (intros ->; congruence).
Qed.

(** A cycle through the start. *)
Definition closes (path : list nat) : Prop := exists mid, path = start :: mid ++ [start] /\ walks step path.

(** [keys] have a parent. *)
Record found (parent : gmap nat nat) (keys : list nat) : Prop := {
  f_keys : NoDup keys /\ forall x, x ∈ keys <-> is_Some (parent !! x);
  f_ok : forall x, x ∈ keys -> x ∈ allowed /\ x <> start;
  f_anc : forall x, x ∈ keys -> exists l, anc parent x l /\ (length l <= size parent)%nat
}.

Lemma found_anc parent keys v : found parent keys -> v = start \/ v ∈ keys -> exists l, anc parent v l /\ (length l <= size parent)%nat.
Proof. intros Hf [->|Hv]; [exists []; split; [constructor|cbn; lia]|by apply (f_anc _ _ Hf)]. Qed.

Lemma found_new parent keys v w : found parent keys -> v = start \/ v ∈ keys -> step v w -> w <> start -> parent !! w = None ->
  found (<[w := v]> parent) (keys ++ [w]).
Proof.
  intros Hf Hv Hs Hw Hn. assert (Hwk : w ∉ keys) by (intros Hk%(proj2 (f_keys _ _ Hf)); rewrite Hn in Hk; by destruct Hk).
  destruct (found_anc _ _ _ Hf Hv) as (l & Hl & Hlen).
  assert (Hsize : size (<[w := v]> parent) = S (size parent)) by (by apply map_size_insert_None). split.
  - split; [apply NoDup_app; split; [apply Hf|]; split; [set_solver|apply NoDup_singleton]|].
    intros x. rewrite elem_of_app, list_elem_of_singleton, (proj2 (f_keys _ _ Hf) x). destruct (decide (x = w)) as [->|Hne].
    + rewrite lookup_insert_eq. naive_solver.
    + rewrite lookup_insert_ne by done. naive_solver.
  - intros x [Hx| ->%list_elem_of_singleton]%elem_of_app; [by apply (f_ok _ _ Hf)|]. split; [apply Hs|done].
  - rewrite Hsize. intros x [Hx| ->%list_elem_of_singleton]%elem_of_app.
    + destruct (f_anc _ _ Hf x Hx) as (k & Hk & ?). exists k. split; [by apply anc_grow|lia].
    + exists (w :: l). split; [|cbn; lia]. econstructor; [done|by rewrite lookup_insert_eq|done|by apply anc_grow].
Qed.

Lemma expand_spec v ws parent queue keys : found parent keys -> v = start \/ v ∈ keys ->
  (forall w, w ∈ ws -> edge succ v w) ->
  match expand start allowed v ws parent queue with
  | inl path => closes path
  | inr (parent', queue') => exists new, queue' = queue ++ new /\ found parent' (keys ++ new)
      /\ forall w, w ∈ ws -> w ∈ allowed -> w <> start /\ w ∈ keys ++ new
  end.
Proof.
  intros Hf Hv. assert (Hva : v ∈ allowed) by (destruct Hv as [->|Hv]; [done|by apply (f_ok _ _ Hf)]).
  revert parent queue keys Hf Hv. induction ws as [|w ws IH]; intros parent queue keys Hf Hv Hws; cbn [expand].
  { exists []. rewrite !app_nil_r. split; [done|]. split; [done|]. by intros ? ?%not_elem_of_nil. }
  destruct (memn w allowed) eqn:Ew; cbn [negb].
  - apply memn_true in Ew. assert (Hs : step v w) by (split; [done|]; split; [done|]; apply Hws; by left).
    destruct (Nat.eqb_spec w start) as [->|Hne].
    + destruct (found_anc _ _ _ Hf Hv) as (l & Hl & Hlen). unfold closed_path. rewrite (walk_back_anc parent v l (S (size parent)) Hl) by lia.
      exists (reverse l). split; [done|]. apply (anc_walk parent v l Hl [start]). by split.
    + destruct (parent !! w) as [u|] eqn:Ep.
      * specialize (IH parent queue keys Hf Hv ltac:(set_solver)). destruct (expand _ _ _ _ _ _) as [|[p' q']]; [done|].
        destruct IH as (new & ? & ? & Hall). exists new. split; [done|]. split; [done|].
        intros x [->|Hx]%elem_of_cons; [|by apply Hall]. intros _. split; [done|]. apply elem_of_app. left.
        apply (f_keys _ _ Hf). by exists u.
      * pose proof (found_new parent keys v w Hf Hv Hs Hne Ep) as Hf'.
        specialize (IH _ (queue ++ [w]) _ Hf' ltac:(destruct Hv; [by left|right; set_solver]) ltac:(set_solver)).
        destruct (expand _ _ _ _ _ _) as [|[p' q']]; [done|]. destruct IH as (new & -> & Hf2 & Hall). exists (w :: new).
        rewrite <- !(assoc_L (++)) in *. split; [done|]. split; [done|].
        intros x [->|Hx]%elem_of_cons; [|by apply Hall]. intros _. split; [done|]. set_solver.
  - specialize (IH parent queue keys Hf Hv ltac:(set_solver)). destruct (expand _ _ _ _ _ _) as [|[p' q']]; [done|].
    destruct IH as (new & ? & ? & Hall). exists new. split; [done|]. split; [done|].
    intros x [->|Hx]%elem_of_cons Hxa; [|by apply Hall]. apply memn_true in Hxa. congruence.
Qed.

(** The successors of the expanded nodes are known, and none closes a cycle. *)
Definition expanded (done keys : list nat) : Prop :=
  forall x w, x = start \/ x ∈ done -> edge succ x w -> w ∈ allowed -> w <> start /\ w ∈ keys.

Lemma expanded_end done x y : (forall z, z ∈ done -> z <> start) -> expanded done done -> x = start \/ x ∈ done ->
  tc step x y -> y <> start.
Proof.
  intros Hne He Hx Ht. induction Ht as [x y (_ & Hy & Hxy)|x y z (_ & Hy & Hxy) _ IH]; [by apply (He x y)|].
  apply IH. right. by apply (He x y).
Qed.

Lemma search_spec fuel parent done queue : found parent (done ++ queue) -> expanded done (done ++ queue) ->
  (length allowed < fuel + length done)%nat ->
  match search fuel succ start allowed parent queue with
  | Some path => closes path
  | None => ~ tc step start start
  end.
Proof.
  revert parent done queue. induction fuel as [|f IH]; intros parent done queue Hf He Hlen.
  - exfalso. destruct (f_keys _ _ Hf) as [Hn _]. apply NoDup_app in Hn as [Hn _].
    assert (Hs : done ⊆+ allowed) by (apply NoDup_submseteq; [done|]; intros x Hx; apply (f_ok _ _ Hf); set_solver).
    apply submseteq_length in Hs. lia.
  - cbn [search]. destruct queue as [|v queue].
    { rewrite app_nil_r in *. intros Ht. apply (expanded_end done start start) in Ht; [done| |done|by left].
      intros z Hz. by apply (f_ok _ _ Hf). }
    pose proof (expand_spec v (succs succ v) parent queue (done ++ v :: queue) Hf ltac:(right; set_solver) ltac:(done)) as Hx.
    destruct (expand _ _ _ _ _ _) as [|[p' q']]; [done|]. destruct Hx as (new & -> & Hf' & Hall).
    assert (Hk : (done ++ v :: queue) ++ new = (done ++ [v]) ++ queue ++ new) by (by rewrite <- !(assoc_L (++))).
    rewrite Hk in *. apply (IH _ (done ++ [v]) _ Hf'); [|rewrite length_app; cbn; lia].
    intros x w [->|[Hx| ->%list_elem_of_singleton]%elem_of_app]; intros Hw Hwa; [| |by apply Hall].
    + destruct (He start w ltac:(by left) Hw Hwa) as [? Hin]. split; [done|]. rewrite <- Hk. set_solver.
    + destruct (He x w ltac:(by right) Hw Hwa) as [? Hin]. split; [done|]. rewrite <- Hk. set_solver.
Qed.

Lemma shortestCycle_spec :
  match shortestCycle start succ allowed with
  | Some path => closes path
  | None => ~ tc step start start
  end.
Proof.
  assert (Hf : found ∅ []).
  { split; [split; [constructor|]|by intros ? ?%not_elem_of_nil..]. intros x. rewrite lookup_empty. split; [by intros ?%not_elem_of_nil|by intros [? ?]]. }
  unfold shortestCycle. pose proof (expand_spec start (succs succ start) ∅ [] [] Hf ltac:(by left) ltac:(done)) as Hx.
  destruct (expand _ _ _ _ _ _) as [|[p' q']]; [done|]. destruct Hx as (new & -> & Hf' & Hall).
  apply (search_spec _ _ []); [done| |cbn; lia]. intros x w [->|Hx%not_elem_of_nil]; [|done]. apply Hall.
Qed.
End Search.

(** A cycle among the members outside [skip] is found whenever there is one. *)
Lemma cyclePath_spec members succ skip : NoDup members ->
  match cyclePath members succ skip with
  | Some path => exists v mid, path = v :: mid ++ [v] /\ walks (edge_in (outside skip members) succ) path
  | None => forall v, ~ tc (edge_in (outside skip members) succ) v v
  end.
Proof.
  intros Hn. unfold cyclePath. fold (outside skip members). set (allowed := outside skip members).
  assert (Hna : NoDup allowed) by (by apply NoDup_outside).
  assert (Hf : forall l, match first_cycle l succ allowed with
    | Some path => exists v mid, path = v :: mid ++ [v] /\ walks (edge_in allowed succ) path
    | None => forall v, v ∈ l -> ~ tc (edge_in allowed succ) v v end).
  { induction l as [|v l IH]; cbn; [by intros ? ?%not_elem_of_nil|]. destruct (memn v allowed) eqn:Ev.
    - apply memn_true in Ev. pose proof (shortestCycle_spec succ v allowed Ev Hna) as Hs.
      destruct (shortestCycle v succ allowed) as [path|]; [destruct Hs as (mid & ? & ?); by exists v, mid|].
      destruct (first_cycle l succ allowed); [done|]. intros w [->|Hw]%elem_of_cons; [done|by apply IH].
    - destruct (first_cycle l succ allowed); [done|]. intros w [->|Hw]%elem_of_cons; [|by apply IH].
      intros [(Hv & _)|(? & (Hv & _) & _)]%tc_inv_l; apply memn_true in Hv; congruence. }
  specialize (Hf members). destruct (first_cycle members succ allowed); [done|]. intros v Ht. apply (Hf v); [|done].
  apply tc_inv_l in Ht as [(Hv & _)|(? & (Hv & _) & _)]; by apply outside_elem in Hv as [? _].
Qed.

(** ** Strata *)

Section Strata.
Context (n : nat) (succ : list (list nat)) (Hg : graph_ok n succ) (comp : list nat).
Context (Hcomp : length comp = n /\ forall c members m, tarjan n succ !! c = Some members -> m ∈ members -> comp !! m = Some c).

Abbreviation comps := (tarjan n succ).
Abbreviation cof := (comp_at comp).

Lemma of_node v : (v < n)%nat -> exists members, comps !! (cof v) = Some members /\ v ∈ members.
Proof.
  intros Hv. destruct (comp_of n succ v Hg Hv) as (c & Hc & Hvc). apply list_elem_of_lookup in Hc as [i Hi].
  pose proof (proj2 Hcomp i c v Hi Hvc) as Ho. exists c. split; [|done]. unfold comp_at. by rewrite (nth_lookup_Some _ _ _ _ Ho).
Qed.

Lemma of_member c members v : comps !! c = Some members -> v ∈ members -> cof v = c.
Proof. intros Hc Hv. apply nth_lookup_Some. by apply (proj2 Hcomp _ members). Qed.

(** Edges lead to components completed before. *)
Lemma of_edge c members v w : comps !! c = Some members -> v ∈ members -> edge succ v w -> (cof w <= c)%nat.
Proof.
  intros Hc Hv He. destruct (tarjan_spec n succ Hg) as (_ & _ & Ht).
  pose proof (take_drop_middle _ _ _ Hc) as Es. symmetry in Es. destruct (Ht _ _ _ Es v w Hv He) as [Hw|Hw].
  - apply list_elem_of_In, in_concat in Hw as (d & Hd & Hw). apply list_elem_of_In in Hd, Hw.
    apply list_elem_of_lookup in Hd as [i Hi]. rewrite lookup_take_Some in Hi. destruct Hi as [Hi Hlt].
    rewrite (of_member i d w Hi Hw). lia.
  - by rewrite (of_member c members w Hc Hw).
Qed.

Lemma of_lt w : (w < n)%nat -> (cof w < length comps)%nat.
Proof. intros Hw. destruct (of_node w Hw) as (m & Hm & _). by eapply lookup_lt_Some. Qed.

Lemma raise_fold c ws level : length level = length comps -> (forall w, w ∈ ws -> (w < n)%nat) ->
  let level' := fold_left (raise_level comp c) ws level in
  length level' = length comps /\ at_ level' c = at_ level c
  /\ (forall d, at_ level d <= at_ level' d)
  /\ (forall d, at_ level' d = at_ level d \/ at_ level' d = at_ level c + 1 /\ exists w, w ∈ ws /\ cof w = d /\ d <> c)
  /\ (forall w, w ∈ ws -> cof w <> c -> at_ level c + 1 <= at_ level' (cof w)).
Proof.
  revert level. induction ws as [|w ws IH]; intros level Hl Hws; cbn [fold_left].
  { split; [done|]. split; [done|]. split; [lia|]. split; [by left|by intros ? ?%not_elem_of_nil]. }
  pose proof (of_lt w (Hws w ltac:(by left))) as Hw. set (level1 := raise_level comp c level w).
  assert (Hr : length level1 = length comps /\ forall d, at_ level1 d
    = if decide (d = cof w /\ d <> c /\ at_ level d < at_ level c + 1) then at_ level c + 1 else at_ level d).
  { unfold level1, raise_level. destruct (Nat.eqb_spec (cof w) c) as [Hc|Hc]; cbn [negb andb].
    - split; [done|]. intros d. rewrite decide_False; [done|]. intros (-> & Hd & _). done.
    - destruct (Z.ltb_spec (at_ level (cof w)) (at_ level c + 1)) as [Hlt|Hge].
      + split; [by rewrite length_insert|]. intros d. rewrite at_insert by lia.
        destruct (decide (d = cof w)) as [->|Hd]; [by rewrite decide_True|]. rewrite decide_False; [done|]. naive_solver.
      + split; [done|]. intros d. rewrite decide_False; [done|]. intros (-> & _ & ?). lia. }
  destruct Hr as [Hl1 Hr]. assert (Hc1 : at_ level1 c = at_ level c) by (rewrite Hr, decide_False; naive_solver).
  destruct (IH level1 Hl1 ltac:(set_solver)) as (Hl' & Hc' & Hm & Hx & Ha). rewrite Hc1 in *.
  split; [done|]. split; [done|]. split; [|split].
  - intros d. specialize (Hm d). rewrite Hr in Hm. case_decide; lia.
  - intros d. destruct (Hx d) as [->|(-> & w' & ? & ? & ?)]; [|right; split; [done|]; exists w'; set_solver].
    rewrite Hr. case_decide as Hd; [right|by left]. destruct Hd as (-> & ? & _). split; [done|]. exists w. set_solver.
  - intros w' [->|Hw']%elem_of_cons Hne; [|by apply Ha]. specialize (Hm (cof w)). rewrite Hr in Hm. case_decide as Hd; [lia|].
    assert (~ at_ level (cof w) < at_ level c + 1) by naive_solver. lia.
Qed.

Lemma raise_from_fold c members level :
  raise_from comp succ c members level = fold_left (raise_level comp c) (concat (succs succ <$> members)) level.
Proof.
  unfold raise_from. revert level. induction members as [|v members IH]; intros level; cbn; [done|]. by rewrite IH, fold_left_app.
Qed.

(** The components from [c] on are layered. *)
Definition layered (c : nat) (level : list Z) : Prop :=
  length level = length comps
  /\ (forall v w, edge succ v w -> (c <= cof v)%nat -> cof w <> cof v -> at_ level (cof v) < at_ level (cof w))
  /\ (forall d, (d < length comps)%nat -> at_ level d = 0
        \/ exists v w, edge succ v w /\ cof w = d /\ cof v <> d /\ at_ level d = at_ level (cof v) + 1 /\ (c <= cof v)%nat).

Lemma layered_step c level : (c < length comps)%nat -> layered (S c) level ->
  layered c (raise_from comp succ c (nth c comps []) level).
Proof.
  intros Hc (Hl & Hup & Hex). rewrite raise_from_fold. destruct (lookup_lt_is_Some_2 _ _ Hc) as [members Hm].
  rewrite (nth_lookup_Some _ _ _ _ Hm). set (ws := concat (succs succ <$> members)).
  assert (Hws : forall w, w ∈ ws <-> exists v, v ∈ members /\ edge succ v w).
  { intros w. unfold ws. rewrite list_elem_of_In, in_concat. setoid_rewrite <- list_elem_of_In. split.
    - intros (l & (v & -> & Hv)%list_elem_of_fmap & Hw). by exists v.
    - intros (v & Hv & He). exists (succs succ v). split; [|done]. apply list_elem_of_fmap. by exists v. }
  destruct (raise_fold c ws level Hl) as (Hl' & Hsame & Hmono & Hx & Ha).
  { intros w (v & _ & He)%Hws. by apply (proj2 Hg v). }
  set (level' := fold_left _ ws level) in *.
  assert (Hkeep : forall d, (c <= d)%nat -> at_ level' d = at_ level d).
  { intros d Hd. destruct (Hx d) as [?|(_ & w & Hw & Ew & Hne)]; [done|]. apply Hws in Hw as (v & Hv & He).
    pose proof (of_edge c members v w Hm Hv He). lia. }
  split; [done|]. split.
  - intros v w He Hv Hne. rewrite (Hkeep (cof v) Hv). destruct (decide (cof v = c)) as [E|E].
    + destruct (of_node v (edge_src n succ Hg v w He)) as (m' & Hm' & Hvm). rewrite E, Hm in Hm'. injection Hm' as <-.
      specialize (Ha w ltac:(apply Hws; by exists v) ltac:(congruence)). rewrite E. lia.
    + specialize (Hup v w He ltac:(lia) Hne). specialize (Hmono (cof w)). lia.
  - intros d Hd. destruct (Hx d) as [->|(-> & w & Hw & Ew & Hne)].
    + destruct (Hex d Hd) as [?|(v & w & He & Ew & Hne & Hlv & Hle)]; [by left|]. right. exists v, w.
      split; [done|]. split; [done|]. split; [done|]. split; [|lia]. rewrite Hlv, (Hkeep (cof v)) by lia. done.
    + right. apply Hws in Hw as (v & Hv & He). exists v, w. pose proof (of_member c members v Hm Hv) as Ev. cbn in Ev.
      split; [done|]. split; [done|]. rewrite Ev. split; [done|]. split; [by rewrite Hsame|done].
Qed.

Lemma levels_layered c level : (c <= length comps)%nat -> layered c level -> layered 0 (levels comps comp succ c level).
Proof. revert level. induction c as [|c IH]; intros level Hc Hl; cbn; [done|]. apply IH; [lia|]. by apply layered_step. Qed.

Lemma strata_layered : exists level, layered 0 level /\ forall v, (v < n)%nat -> at_ (strata comps comp succ) v = at_ level (cof v).
Proof.
  exists (levels comps comp succ (length comps) (replicate (length comps) 0)). split.
  - apply levels_layered; [done|]. split; [by apply length_replicate|]. split.
    + intros v w He Hv. pose proof (of_lt v (edge_src n succ Hg v w He)). lia.
    + intros d Hd. left. unfold at_. by rewrite lookup_replicate_2.
  - intros v Hv. unfold strata. unfold at_ at 1. rewrite list_lookup_fmap.
    destruct (lookup_lt_is_Some_2 comp v) as [c Hc]; [by rewrite (proj1 Hcomp)|]. rewrite Hc. cbn. unfold comp_at. by rewrite (nth_lookup_Some _ _ _ _ Hc).
Qed.
End Strata.

(** ** Theorem *)

(** C34: The iterative tarjan computes the strongly connected components.  On a graph
    whose successors are nodes, the components it returns hold every node once;
    each is non-empty, in ascending order, and holds exactly the nodes that reach
    its members and are reached by them; and an edge out of a component leads to one
    returned before it. *)
Theorem tarjan_components (n : nat) (succ : list (list nat)) :
  length succ = n /\ (forall v w, w ∈ succs succ v -> (w < n)%nat) ->
  concat (tarjan n succ) ≡ₚ seq 0 n
  /\ (forall c, c ∈ tarjan n succ -> c <> [] /\ StronglySorted lt c
        /\ forall v, v ∈ c -> forall w, w ∈ c <-> rtc (fun x y => y ∈ succs succ x) v w /\ rtc (fun x y => y ∈ succs succ x) w v)
  /\ (forall pre c post, tarjan n succ = pre ++ c :: post -> forall v w, v ∈ c -> w ∈ succs succ v -> w ∈ concat pre \/ w ∈ c).
Proof. exact (tarjan_spec n succ). Qed.

Lemma tarjan_components_witness :
  concat (tarjan 4 [[1%nat]; [2%nat; 3%nat]; [1%nat]; []]) ≡ₚ seq 0 4
  /\ StronglySorted lt [1%nat; 2%nat].
Proof.
  destruct (tarjan_components 4 [[1%nat]; [2%nat; 3%nat]; [1%nat]; []]) as (Hp & Hc & _).
  - split; [done|]. intros v w Hw. destruct v as [|[|[|[|v]]]]; unfold succs in Hw; cbn in Hw;
      repeat (apply elem_of_cons in Hw as [->|Hw]; [lia|]); by apply not_elem_of_nil in Hw.
  - split; [exact Hp|]. apply Hc. rewrite tarjan_two. right. by left.
Defined.
