(* ===== verification/LoopFilter.v ===== *)
(** Deciding a trigger filter against what a write is known to set:
    component/automations/loop_graph_filter.go.

    A Go value is a [value]; a reason an answer is unknown is a constructor with
    what its text names.  cond and value call each other on one node, so [judge]
    computes both at once, with the elements of a list literal. *)

From Stdlib Require Import SpecFloat.
From S2P Require Import Prelude GoText Strconv Numbers ExprNumbers Values Ast Scope Eval Predicates.

Inductive tri : Type := triFalse | triTrue | triUnknown.

#[export] Instance tri_eq_dec : EqDecision tri.
Proof. solve_decision. Defined.

Definition triOf (b : bool) : tri := if b then triTrue else triFalse.

Record knownRow := mkKnown {
  k_Concept : gostring;
  k_Fields : gmap gostring value;
  k_Absent : gset gostring;
  k_OthersKnown : bool;
  k_FirstVersion : tri;
  k_Unknown : gset gostring
}.

(** Why an answer is unknown. *)
Inductive unknown_why : Type :=
| WhyField (f : gostring)        (* what the write does to it *)
| WhyColumn (f : gostring)       (* a column of the row *)
| WhyEnvelope (f : gostring)     (* a key of the event *)
| WhyNode (n : expr)             (* not evaluated at load *)
| WhyParams (n : expr).          (* not a one-parameter lambda *)

Inductive pval : Type :=
| pKnown (v : value)
| pAbsent
| pUnknown (why : unknown_why).

(** A decision: an unknown one has a reason. *)
Definition decision : Type := tri * option unknown_why.

Definition decided (b : bool) : decision := (triOf b, None).
Definition unknown (why : unknown_why) : decision := (triUnknown, Some why).

(** ** Values *)

Definition normalizeLoopValue (v : value) : value := match v with GInt z => normal_int z | _ => v end.

Definition loopUnset (p : pval) : bool :=
  match p with
  | pAbsent => true
  | pKnown v => match v with XNil => true | XStr s => s =s [] | _ => false end
  | pUnknown _ => true
  end.

Definition loopFloat (v : value) : option float64 :=
  match v with XInt i => Some (f64_of_Z i) | XFloat f => Some f | _ => None end.

Definition loopCompareNumbers (a b : value) : option Z :=
  match a, b with
  | XInt x, XInt y => Some (if x <? y then -1 else if y <? x then 1 else 0)
  | _, _ =>
      match loopFloat a, loopFloat b with
      | Some x, Some y =>
          if is_nan x || is_nan y then None
          else Some (if f64_ltb x y then -1 else if f64_ltb y x then 1 else 0)
      | _, _ => None
      end
  end.

Definition loop_numbers_equal (a b : value) : bool :=
  match loopCompareNumbers a b with Some c => c =? 0 | None => false end.

Fixpoint loopStrictEqual (a b : value) : bool :=
  let b := normalizeLoopValue b in
  match a with
  | GInt _ | XInt _ | XFloat _ => loop_numbers_equal (normalizeLoopValue a) b
  | XNil => match b with XNil => true | _ => false end
  | XBool x => match b with XBool y => eqb x y | _ => false end
  | XStr x => match b with XStr y => x =s y | _ => false end
  | XList x => match b with XList y => all2 loopStrictEqual x y | _ => false end
  | XMap x =>
      match b with
      | XMap y => (length x =? length y)%nat
                  && forallb (fun kv => match map_get y kv.1 with Some yv => loopStrictEqual kv.2 yv | None => false end) x
      | _ => false
      end
  | _ => false
  end.

Definition pval_value (p : pval) : value := match p with pKnown v => v | _ => XNil end.

Definition loopEqual (l r : pval) : bool :=
  if loopUnset l || loopUnset r then loopUnset l && loopUnset r
  else loopStrictEqual (pval_value l) (pval_value r).

Definition loopOrderable (p : pval) : bool :=
  match p with pKnown (XInt _ | XFloat _ | XStr _) => true | _ => false end.

Definition loopOrdered (op : order_op) (l r : value) : bool :=
  match l with
  | XStr ls => match r with XStr rs => order_holds op (sign_of_cmp (str_compare ls rs)) | _ => false end
  | _ => match loopCompareNumbers l r with Some c => order_holds op c | None => false end
  end.

Definition loopBlank (v : value) : bool :=
  match v with XNil => true | XStr s => TrimSpace s =s [] | _ => false end.

(** ** Reading the row and the args *)

Section Decide.
Context `{UnicodeTables} (param : gostring) (row : knownRow) (args : gset gostring).

Definition filterRowIntrinsics : list gostring :=
  [go "concept"; go "id"; go "type"; go "createdat"; go "createdby"; go "provenance"].

Definition graphEventEnvelopeKeys : list gostring :=
  [go "id"; go "nodeId"; go "nodeType"; go "actor"; go "createdAt"; go "oldStatus"; go "payload"].

Definition payloadField (f : gostring) : pval :=
  match k_Fields row !! f with
  | Some v => pKnown (normalizeLoopValue v)
  | None =>
      if bool_decide (f ∈ k_Unknown row) then pUnknown (WhyField f)
      else if bool_decide (f ∈ k_Absent row) || k_OthersKnown row then pAbsent
      else pUnknown (WhyField f)
  end.

Definition rowField (f : gostring) : pval :=
  let lower := ToLower f in
  if memS lower filterRowIntrinsics then
    if lower =s go "concept" then pKnown (XStr (k_Concept row)) else pUnknown (WhyColumn f)
  else payloadField f.

Definition argField (f : gostring) : pval :=
  if negb (bool_decide (f ∈ args)) then pAbsent
  else if f =s go "firstVersion" then
    match k_FirstVersion row with
    | triTrue => pKnown (XBool true)
    | triFalse => pKnown (XBool false)
    | triUnknown => pUnknown (WhyField f)
    end
  else if f =s go "concept" then
    if bool_decide (is_Some (k_Fields row !! f)) || bool_decide (f ∈ k_Unknown row) || bool_decide (f ∈ k_Absent row)
    then payloadField f
    else if k_OthersKnown row then pKnown (XStr (k_Concept row))
    else pUnknown (WhyField f)
  else if memS f graphEventEnvelopeKeys then pUnknown (WhyEnvelope f)
  else payloadField f.

(** One read through a value; [e] is the whole member expression. *)
Definition read_through (e : expr) (v : pval) (f : gostring) : pval :=
  match v with
  | pUnknown _ | pAbsent => v
  | pKnown XNil => pAbsent
  | pKnown (XMap obj) =>
      match map_get obj f with
      | Some x => pKnown (normalizeLoopValue x)
      | None => pAbsent
      end
  | pKnown _ => pUnknown (WhyNode e)
  end.

Definition member (e : expr) : pval :=
  match MemberPath e with
  | Some (root, f :: fields) =>
      if root =s param then fold_left (read_through e) fields (rowField f)
      else if root =s go "args" then fold_left (read_through e) fields (argField f)
      else pUnknown (WhyNode e)
  | _ => pUnknown (WhyNode e)
  end.

(** ** Operators *)

Definition coalesce (l r : pval) : pval :=
  let fall := match r with pAbsent => pKnown XNil | _ => r end in
  match l with
  | pUnknown _ => l
  | pKnown v => if loopBlank v then fall else l
  | pAbsent => fall
  end.

Definition compare_equal (negated : bool) (l r : pval) : decision :=
  match l, r with
  | pUnknown why, _ => unknown why
  | _, pUnknown why => unknown why
  | _, _ => decided (xorb negated (loopEqual l r))
  end.

Definition is_pUnknown (p : pval) : bool := match p with pUnknown _ => true | _ => false end.

Definition compare_ordered (op : order_op) (l r : pval) : decision :=
  if negb (is_pUnknown l) && negb (loopOrderable l) then decided false
  else if negb (is_pUnknown r) && negb (loopOrderable r) then decided false
  else match l, r with
       | pUnknown why, _ => unknown why
       | _, pUnknown why => unknown why
       | _, _ => decided (loopOrdered op (pval_value l) (pval_value r))
       end.

(** The elements of a list literal so far answered [out]. *)
Fixpoint in_elems (l : pval) (els : list pval) (out : decision) : decision :=
  match els with
  | [] => out
  | ev :: els' =>
      match ev with
      | pAbsent => in_elems l els' out
      | _ =>
          let later why := match out.1 with triFalse => unknown why | _ => out end in
          match l, ev with
          | pUnknown why, _ => in_elems l els' (later why)
          | _, pUnknown why => in_elems l els' (later why)
          | _, _ => if loopEqual l ev then decided true else in_elems l els' out
          end
      end
  end.

(** [r] is the right side, [els] its elements when it is a list literal. *)
Definition decide_in (n : expr) (l r : pval) (els : option (list pval)) : decision :=
  match els with
  | Some els => in_elems l els (decided false)
  | None =>
      match r with
      | pAbsent | pKnown XNil => decided false
      | pUnknown why => unknown why
      | pKnown _ => unknown (WhyNode n)
      end
  end.

(** The prefixes: a decision when they make it, else the strings. *)
Fixpoint elem_prefixes (els : list pval) : decision + list gostring :=
  match els with
  | [] => inr []
  | ev :: els' =>
      match ev with
      | pUnknown why => inl (unknown why)
      | pAbsent | pKnown XNil => elem_prefixes els'
      | pKnown (XStr s) => match elem_prefixes els' with inr ps => inr (s :: ps) | inl d => inl d end
      | pKnown _ => inl (decided false)
      end
  end.

Definition prefixes_of (r : pval) (els : option (list pval)) : decision + list gostring :=
  match els with
  | Some els => elem_prefixes els
  | None =>
      match r with
      | pUnknown why => inl (unknown why)
      | pAbsent | pKnown XNil => inl (decided false)
      | pKnown (XStr s) => inr [s]
      | pKnown _ => inl (decided false)
      end
  end.

Definition decide_startsWith (l r : pval) (els : option (list pval)) : decision :=
  match l with
  | pUnknown _ | pKnown (XStr _) =>
      match prefixes_of r els with
      | inl d => d
      | inr prefixes =>
          let nonBlank := List.filter (fun p => negb (TrimSpace p =s [])) prefixes in
          if (length nonBlank =? 0)%nat then decided false
          else match l with
               | pUnknown why => unknown why
               | pKnown (XStr s) => decided (existsb (HasPrefix s) nonBlank)
               | _ => decided false
               end
      end
  | _ => decided false
  end.

Definition tri_not (d : decision) : decision :=
  match d.1 with triTrue => decided false | triFalse => decided true | triUnknown => d end.

Definition tri_and (l r : decision) : decision :=
  match l.1, r.1 with
  | triFalse, _ => decided false
  | _, triFalse => decided false
  | triTrue, triTrue => decided true
  | triUnknown, _ => l
  | _, _ => r
  end.

Definition tri_or (l r : decision) : decision :=
  match l.1, r.1 with
  | triTrue, _ => decided true
  | _, triTrue => decided true
  | triFalse, triFalse => decided false
  | triUnknown, _ => l
  | _, _ => r
  end.

(** ** cond and value *)

(** What is known of one node: as a condition, as a value, and its elements when it
    is a list literal, parentheses aside. *)
Record judgement := mkJudgement { j_cond : decision; j_value : pval; j_elems : option (list pval) }.

(** A condition, and its bool as a value. *)
Definition of_cond (d : decision) : judgement :=
  mkJudgement d
    (match d with
     | (triTrue, _) => pKnown (XBool true)
     | (triFalse, _) => pKnown (XBool false)
     | (triUnknown, why) => pUnknown (default (WhyField []) why)
     end) None.

(** A value, and what it is in condition position. *)
Definition of_value (v : pval) : judgement :=
  mkJudgement
    (match v with
     | pUnknown why => unknown why
     | pAbsent => decided false
     | pKnown (XBool b) => decided b
     | pKnown _ => decided false
     end) v None.

Fixpoint judge (n : expr) : judgement :=
  match n with
  | ParenExpr i => judge i
  | LiteralExpr v => of_value (pKnown (normalizeLoopValue (literal_value v)))
  | NilExpr => of_value (pKnown XNil)
  | MemberExpr _ _ _ => of_value (member n)
  | UnaryExpr op x =>
      if op =s go "!" then of_cond (tri_not (j_cond (judge x))) else of_value (pUnknown (WhyNode n))
  | BinaryExpr op x y =>
      if op =s go "&&" then of_cond (tri_and (j_cond (judge x)) (j_cond (judge y)))
      else if op =s go "||" then of_cond (tri_or (j_cond (judge x)) (j_cond (judge y)))
      else if op =s go "==" then of_cond (compare_equal false (j_value (judge x)) (j_value (judge y)))
      else if op =s go "!=" then of_cond (compare_equal true (j_value (judge x)) (j_value (judge y)))
      else match order_of op with
      | Some o => of_cond (compare_ordered o (j_value (judge x)) (j_value (judge y)))
      | None =>
          if op =s go "in" then of_cond (decide_in y (j_value (judge x)) (j_value (judge y)) (j_elems (judge y)))
          else if op =s go "startsWith" then
            of_cond (decide_startsWith (j_value (judge x)) (j_value (judge y)) (j_elems (judge y)))
          else if op =s go "??" then of_value (coalesce (j_value (judge x)) (j_value (judge y)))
          else of_value (pUnknown (WhyNode n))
      end
  | ListExpr es =>
      let j := of_value (pUnknown (WhyNode n)) in
      mkJudgement (j_cond j) (j_value j) (Some ((fun e => j_value (judge e)) <$> es))
  | _ => of_value (pUnknown (WhyNode n))
  end.
End Decide.

(** decideFilter *)
Definition decideFilter `{UnicodeTables} (filter : option (list gostring * expr)) (row : knownRow) (args : gset gostring)
    : decision :=
  match filter with
  | None => (triTrue, None)
  | Some ([param], body) => j_cond (judge param row args body)
  | Some (params, body) => unknown (WhyParams (LambdaExpr params body))
  end.
