(* ===== verification/Triggers.v ===== *)
(** When an event fires an automation: the binding of its args block
    (component/automations/args_binding.go), the row its filter reads and the
    filter's scope (run_scope.go, scheduler.go, executor.go).

    regexp is a parameter ([GoRegexp]); the element type of a typed slice is read
    off its elements. *)

From S2P Require Import Prelude GoText GoSort Strconv Numbers ExprNumbers Times Values Ast Scope Eval Topics.

(** ** Events and automations *)

(** events.Event, as far as a trigger reads it. *)
Record trigger_event := mkTriggerEvent {
  te_Topic : gostring;
  te_Kind : gostring;                            (* Kind.String() *)
  te_Payload : list (gostring * value);
  te_Actor : gostring;                           (* Metadata["actor"] *)
  te_Timestamp : option Z
}.

Record ArgsField := mkArgsField {
  af_Name : gostring;
  af_Type : gostring;
  af_Optional : bool;
  af_Enum : list value;
  af_MaxLength : Z;
  af_Pattern : gostring
}.

(** ** Binding args *)

(** A compiled regular expression; [None] does not compile. *)
Class GoRegexp := { regexp_Compile : gostring -> option (gostring -> bool) }.

Inductive arg_reason : Type := ArgMissing | ArgType | ArgEnum | ArgTooLong | ArgPattern.

Definition arg_error : Type := gostring * arg_reason.

Definition is_map_value (v : value) : bool := match v with XMap _ => true | _ => false end.

Definition is_string_value (v : value) : bool := match v with XStr _ => true | _ => false end.

Definition argTypeMatches (v : value) (typ : gostring) : bool :=
  if (typ =s []) || (typ =s go "any") then true
  else if typ =s go "string" then is_string_value v
  else if typ =s go "number" then match v with XInt _ | GInt _ | XFloat _ => true | _ => false end
  else if (typ =s go "int") || (typ =s go "integer") then
    match v with
    | XInt _ | GInt _ => true
    | XFloat f => bool_decide (is_Some (WholeInt64 f))
    | _ => false
    end
  else if (typ =s go "bool") || (typ =s go "boolean") then match v with XBool _ => true | _ => false end
  else if typ =s go "object" then is_map_value v
  else if typ =s go "array" then
    match v with
    | XList _ => true
    | GSlice l => forallb is_map_value l || forallb is_string_value l
    | _ => false
    end
  else true.

(** Go's == on interfaces that hold scalars. *)
Definition same_scalar (a b : value) : bool :=
  match a, b with
  | XNil, XNil => true
  | XBool x, XBool y => eqb x y
  | XStr x, XStr y => x =s y
  | XInt x, XInt y | GInt x, GInt y => x =? y
  | XFloat x, XFloat y => f64_eqb x y
  | _, _ => false
  end.

Definition argInEnum (v : value) (options : list value) : bool := existsb (same_scalar v) options.

Section Binding.
Context `{GoRegexp}.

Definition validateAutomationArg (payload : list (gostring * value)) (field : ArgsField) : option arg_error :=
  match map_get payload (af_Name field) with
  | None | Some XNil => if af_Optional field then None else Some (af_Name field, ArgMissing)
  | Some v =>
      if negb (argTypeMatches v (af_Type field)) then Some (af_Name field, ArgType)
      else if (0 <? length (af_Enum field))%nat && negb (argInEnum v (af_Enum field)) then Some (af_Name field, ArgEnum)
      else match v with
           | XStr s =>
               if (0 <? af_MaxLength field) && (af_MaxLength field <? Z.of_nat (length s)) then Some (af_Name field, ArgTooLong)
               else if negb (TrimSpace (af_Pattern field) =s []) then
                 match regexp_Compile (af_Pattern field) with
                 | Some re => if re s then None else Some (af_Name field, ArgPattern)
                 | None => None
                 end
               else None
           | _ => None
           end
  end.

Fixpoint bind_fields (payload : list (gostring * value)) (fields : list ArgsField) (bound : list (gostring * value))
    : result arg_error (list (gostring * value)) :=
  match fields with
  | [] => Ok bound
  | field :: fields' =>
      if TrimSpace (af_Name field) =s [] then bind_fields payload fields' bound
      else match validateAutomationArg payload field with
           | Some e => Err e
           | None =>
               bind_fields payload fields'
                 (match map_get payload (af_Name field) with
                  | Some v => map_set bound (af_Name field) v
                  | None => bound
                  end)
           end
  end.

(** The bound args; [None] when the automation declares none. *)
Definition bindEventArgs (fields : list ArgsField) (event : trigger_event)
    : result arg_error (option (list (gostring * value))) :=
  match fields with
  | [] => Ok None
  | _ => Some <$> bind_fields (te_Payload event) fields []
  end.
End Binding.

(** declaredArgs: the names the block binds. *)
Definition declaredArgs (fields : list ArgsField) : gset gostring :=
  list_to_set (List.filter (fun f => negb (TrimSpace f =s [])) (af_Name <$> fields)).

(** ** The events of a write and of a publish *)

(** The row a write landed, and what the write knew. *)
Record written := mkWritten {
  wr_Id : gostring;
  wr_Type : gostring;
  wr_Concept : gostring;
  wr_Payload : list (gostring * value);          (* decoded *)
  wr_CreatedAt : Z;
  wr_priorExisted : bool;
  wr_priorStatus : gostring;
  wr_actor : gostring
}.

(** maps.Copy *)
Definition maps_Copy (dst src : list (gostring * value)) : list (gostring * value) :=
  fold_left (fun m kv => map_set m kv.1 kv.2) src dst.

Definition eventVersionTime (t : Z) : gostring := format_time (t - t mod 1000).

(** executeWrite's graph.node.created. *)
Definition created_payload (w : written) : list (gostring * value) :=
  let base := [(go "id", XStr (wr_Id w)); (go "nodeId", XStr (wr_Id w)); (go "concept", XStr (wr_Concept w));
               (go "actor", XStr (wr_actor w)); (go "nodeType", XStr (wr_Type w))] in
  let p := map_set (maps_Copy base (wr_Payload w)) (go "payload") (XMap (wr_Payload w)) in
  let p := map_set p (go "createdAt") (XStr (eventVersionTime (wr_CreatedAt w))) in
  map_set p (go "firstVersion") (XBool (negb (wr_priorExisted w))).

Definition created_event (now : Z) (w : written) : trigger_event :=
  mkTriggerEvent (BuildTopicWithConcept TopicGraphNodeCreated (wr_Concept w)) (go "node_created") (created_payload w)
    (wr_actor w) (Some now).

(** executeUpdate's graph.node.updated. *)
Definition updated_payload (w : written) : list (gostring * value) :=
  let base := [(go "id", XStr (wr_Id w)); (go "nodeId", XStr (wr_Id w)); (go "concept", XStr (wr_Concept w));
               (go "nodeType", XStr (wr_Type w))] in
  let p := map_set (maps_Copy base (wr_Payload w)) (go "payload") (XMap (wr_Payload w)) in
  let p := if wr_priorStatus w =s [] then p else map_set p (go "oldStatus") (XStr (wr_priorStatus w)) in
  let p := map_set p (go "createdAt") (XStr (eventVersionTime (wr_CreatedAt w))) in
  if wr_actor w =s [] then p else map_set p (go "actor") (XStr (wr_actor w)).

Definition updated_event (now : Z) (w : written) : trigger_event :=
  mkTriggerEvent (BuildTopicWithConcept TopicGraphNodeUpdated (wr_Concept w)) (go "node_updated") (updated_payload w)
    (wr_actor w) (Some now).

(** An event step's event, its payload evaluated. *)
Definition published_event (now : Z) (topic kind : gostring) (payload : list (gostring * value)) : trigger_event :=
  mkTriggerEvent topic kind payload [] (Some now).

(** ** The row and the scope of a filter *)

(** The part of the topic after its third dot. *)
Definition fourth_segment (topic : gostring) : option gostring :=
  a ← cut 46 topic; b ← cut 46 a.2; c ← cut 46 b.2; Some c.2.

Definition text_at (m : list (gostring * value)) (k : gostring) : option gostring :=
  match map_get m k with Some (XStr s) => Some s | _ => None end.

Definition first_text (l : list (option gostring)) : gostring :=
  match omap id l with s :: _ => s | [] => [] end.

(** The zero time.Time. *)
Definition zero_instant : Z := instant 1 1 1 0 0 0 0.

(** A fraction of a second parses under RFC3339 as under RFC3339Nano. *)
Definition TriggerRow (event : trigger_event) : value :=
  let payload := te_Payload event in
  match map_get payload (go "payload") with
  | Some (XMap stored) =>
      if HasPrefix (te_Topic event) (go "graph.node.") then
        XRow (first_text [text_at payload (go "nodeId"); text_at payload (go "id")])
          (first_text [fourth_segment (te_Topic event); text_at payload (go "concept")])
          (first_text [text_at payload (go "nodeType")])
          (if negb (te_Actor event =s []) then te_Actor event else first_text [text_at payload (go "actor")])
          (format_time <$>
             match text_at payload (go "createdAt") ≫= time_Parse RFC3339 with
             | Some t => if t =? zero_instant then te_Timestamp event else Some t
             | None => te_Timestamp event
             end)
          None stored
      else XRow [] [] [] [] None None payload
  | _ => XRow [] [] [] [] None None payload
  end.

Definition buildEventEnvelope (event : trigger_event) : value :=
  XMap ([(go "topic", XStr (te_Topic event)); (go "kind", XStr (te_Kind event)); (go "payload", XMap (te_Payload event))]
        ++ (if te_Actor event =s [] then [] else [(go "actor", XMap [(go "id", XStr (te_Actor event))])])
        ++ match te_Timestamp event with Some t => [(go "timestamp", XStr (format_time t))] | None => [] end).

(** auth.ActorEnvelopeMap(nil) at time [now]. *)
Definition denying_actor (now : gostring) : value :=
  XMap [(go "userId", XStr []); (go "role", XStr []); (go "identityId", XStr []); (go "primaryEmail", XStr []);
        (go "isClusterOwner", XBool false); (go "isOwner", XBool false); (go "now", XStr now)].

(** RunScope.Lookup before a statement has bound anything; [custom] is what was set. *)
Definition RunScope_Lookup (now : gostring) (custom : list (gostring * value)) (name : gostring) : option value :=
  if name =s go "row" then map_get custom name
  else if name =s go "actor" then
    match map_get custom name with Some v => Some v | None => Some (denying_actor now) end
  else if (name =s go "args") || (name =s go "event") || (name =s go "config") || (name =s go "partition") then
    match map_get custom name with Some v => Some v | None => Some XAbsent end
  else None.

(** bindScope.Lookup *)
Definition bind_Lookup (name : gostring) (v : value) (parent : gostring -> option value) (x : gostring) : option value :=
  if x =s name then Some v else parent x.

Definition filter_scope (now : gostring) (event : trigger_event) (bound : option (list (gostring * value))) (param : gostring)
    : gostring -> option value :=
  bind_Lookup param (TriggerRow event)
    (RunScope_Lookup now
       ((go "actor", denying_actor now) :: (go "event", buildEventEnvelope event)
        :: match bound with Some b => [(go "args", XMap b)] | None => [] end)).

Inductive filter_error : Type := NotOneParameter | FilterRefused (e : eval_error).

(** evaluateTriggerFilter; no filter fires on every event. *)
Definition evaluateTriggerFilter `{UnicodeTables, GoFmt} {W} (ctx : Z -> bool) (clock : Z) (opts : EvalOptions W) (w : W)
    (filter : option (list gostring * expr)) (event : trigger_event) (bound : option (list (gostring * value)))
    : result filter_error bool :=
  match filter with
  | None => Ok true
  | Some ([param], body) =>
      match (EvalCondition ctx clock body (filter_scope (format_time clock) event bound param) opts w).1 with
      | Ok b => Ok b
      | Err e => Err (FilterRefused e)
      end
  | Some _ => Err NotOneParameter
  end.

(** Whether an event the pattern matched fires: the args bind and the filter holds. *)
Definition fires `{UnicodeTables, GoFmt, GoRegexp} {W} (ctx : Z -> bool) (clock : Z) (opts : EvalOptions W) (w : W)
    (fields : list ArgsField) (filter : option (list gostring * expr)) (event : trigger_event) : bool :=
  match bindEventArgs fields event with
  | Err _ => false
  | Ok bound =>
      match evaluateTriggerFilter ctx clock opts w filter event bound with Ok b => b | Err _ => false end
  end.
