(* ===== verification/LoopFilterFacts.v ===== *)
(** What a decided filter says of the run: an answer decideFilter decides is the
    answer the evaluator gives for every row the write can produce. *)

From Stdlib Require Import SpecFloat.
From S2P Require Import Prelude GoText GoSort Strconv Numbers ExprNumbers Times Values Ast Scope Eval Predicates.
From S2P Require Import ValueFacts LoopFilter Triggers.

(** ** Values of a load *)

(** JSON data: what a stored payload decodes to. *)
Fixpoint decoded (v : value) : bool :=
  match v with
  | XNil | XBool _ | XStr _ => true
  | XInt i => in_int64 i
  | XFloat f => f64_finite f
  | XList l => forallb decoded l
  | XMap m => bool_decide (NoDup (m.*1)) && forallb (fun kv => decoded kv.2) m
  | _ => false
  end.

(** Conversion to float64 keeps the integer. *)
Definition float_exact (i : Z) : bool := f64_finite (f64_of_Z i) && (exact (f64_of_Z i) =? i * f64_unit).

Fixpoint exact_ints (v : value) : bool :=
  match v with
  | XInt i => float_exact i
  | XList l => forallb exact_ints l
  | XMap m => forallb (fun kv => exact_ints kv.2) m
  | _ => true
  end.

(** A literal the load reads. *)
Definition load (v : value) : bool := decoded v && exact_ints v.

Lemma decoded_data v : decoded v = true -> is_data v = true.
Proof.
  induction v as [v Hv|l IH| |m IH| | | | | |] using value_ind'; try done; cbn.
  - by destruct v.
  - rewrite !List.forallb_forall. intros Hl x Hx. rewrite List.Forall_forall in IH. auto.
  - rewrite !andb_true_iff, !List.forallb_forall. intros [? Hl]. split; [done|]. intros x Hx. rewrite List.Forall_forall in IH. auto.
Qed.

Lemma load_parts v : load v = true <-> decoded v = true /\ exact_ints v = true.
Proof. apply andb_true_iff. Qed.

Lemma load_data v : load v = true -> is_data v = true.
Proof. intros [? _]%load_parts. by apply decoded_data. Qed.

Lemma load_list l : load (XList l) = true -> Forall (fun v => load v = true) l.
Proof.
  intros [Hd He]%load_parts. cbn in *. rewrite List.forallb_forall in *. apply List.Forall_forall. intros x Hx.
  apply load_parts. auto.
Qed.

Lemma load_map m k v : load (XMap m) = true -> (k, v) ∈ m -> load v = true.
Proof.
  intros [Hd He]%load_parts Hin. cbn in *. apply andb_true_iff in Hd as [_ Hd]. rewrite List.forallb_forall in *.
  apply list_elem_of_In in Hin. apply load_parts. split; [apply (Hd (k, v) Hin)|apply (He (k, v) Hin)].
Qed.

(** A value that needs no normalising. *)
Lemma decoded_plain v : decoded v = true -> normalizeLoopValue v = v.
Proof. by destruct v. Qed.

(** *** Numbers *)

Lemma load_number v x : load v = true -> exprNumberOf v = Some x ->
  exists f, loopFloat v = Some f /\ f64_finite f = true /\ exact f = num_exact x.
Proof.
  intros [Hd He]%load_parts. destruct v; try done; intros [= <-]; cbn in *.
  - apply andb_true_iff in He as [Hf He]. apply Z.eqb_eq in He. by exists (f64_of_Z i).
  - by exists f.
Qed.

Lemma loop_compare a b x y : load a = true -> load b = true -> exprNumberOf a = Some x -> exprNumberOf b = Some y ->
  loopCompareNumbers a b = exprCompareNumbers x y.
Proof.
  intros Ha Hb Hx Hy. destruct (load_number a x Ha Hx) as (f & Hf & Ff & Ef). destruct (load_number b y Hb Hy) as (g & Hg & Fg & Eg).
  assert (Hc : (if is_nan f || is_nan g then None else Some (if f64_ltb f g then -1 else if f64_ltb g f then 1 else 0)) = exprCompareNumbers x y).
  { rewrite compare_numbers_exact by (eapply data_num_ok; [|done]; by apply load_data).
    pose proof (f64_finite_parts f Ff) as (_ & -> & _). pose proof (f64_finite_parts g Fg) as (_ & -> & _). cbn.
    by rewrite !f64_ltb_exact, sign_of_cmp_lt, Ef, Eg by done. }
  destruct a; try done; destruct b; try done; simplify_eq/=; done.
Qed.

Lemma loop_compare_none a b : exprNumberOf a = None \/ exprNumberOf b = None -> loopCompareNumbers a b = None.
Proof. intros [Ha|Hb]; destruct a; try done; destruct b; done. Qed.

(** *** Equality *)

Lemma loop_strict a : forall b, load a = true -> load b = true -> loopStrictEqual a b = strict_equal 16 a b.
Proof.
  induction a as [a Ha|l IH| |m IH| | | | | |] using value_ind'; try done; intros b Hla Hlb;
    pose proof (load_data _ Hla) as Hda; pose proof (load_data _ Hlb) as Hdb; pose proof (proj1 (load_parts _) Hlb) as [Hdec _];
    rewrite (strict_data _ b Hda Hdb).
  - destruct (exprNumberOf a) as [x|] eqn:Hx.
    + assert (Hn : loop_numbers_equal a b = numbers_equal x b).
      { unfold loop_numbers_equal, numbers_equal. destruct (exprNumberOf b) as [y|] eqn:Hy; [by rewrite (loop_compare a b x y)|].
        by rewrite loop_compare_none by (by right). }
      destruct a; simplify_eq/=; by rewrite (decoded_plain b).
    + destruct a; try done; cbn; rewrite (decoded_plain b) by done; by destruct b.
  - cbn. rewrite (decoded_plain b) by done. destruct b as [| | | | | |k| | | | | | | | | | | | | | |]; try done.
    apply load_list in Hla, Hlb. clear -IH Hla Hlb. revert k Hlb. induction IH as [|x l Hx IH IHl]; intros [|y k] Hlb; cbn; try done.
    inversion Hla; inversion Hlb; subst. rewrite Hx by done. f_equal. by apply IHl.
  - cbn. rewrite (decoded_plain b) by done. destruct b as [| | | | | | |k| | | | | | | | | | | | | |]; try done. unfold map_eqb. f_equal.
    apply eq_true_iff_eq. rewrite !List.forallb_forall. rewrite List.Forall_forall in IH.
    assert (Heq : forall kv, In kv m -> (match map_get k kv.1 with Some yv => loopStrictEqual kv.2 yv | None => false end)
      = match map_get k kv.1 with Some yv => strict_equal 16 kv.2 yv | None => false end).
    { intros [x v] Hin. cbn. destruct (map_get k x) as [yv|] eqn:E; [|done]. apply (IH (x, v) Hin).
      - apply (load_map m x v Hla). by apply list_elem_of_In.
      - apply (load_map k x yv Hlb). by apply map_get_Some_elem. }
    split; intros Hall kv Hin; specialize (Hall kv Hin); specialize (Heq kv Hin); congruence.
Qed.

(** ** What the run holds where the load knows a value *)

(** The row carries [v] where [k] was written: equal in the language's own sense,
    as JSON leaves it. *)
Definition like (k v : value) : Prop := load k = true /\ decoded v = true /\ strict_equal 16 k v = true.

Lemma like_refl k : load k = true -> like k k.
Proof. intros Hk. split; [done|]. split; [by apply load_parts in Hk as [? _]|]. apply strict_refl. by apply load_data. Qed.

Lemma like_cases k v : like k v ->
  match k with
  | XNil => v = XNil
  | XBool b => v = XBool b
  | XStr s => v = XStr s
  | XInt _ | XFloat _ => exists x y, exprNumberOf k = Some x /\ exprNumberOf v = Some y /\ num_exact x = num_exact y
      /\ num_ok x = true /\ num_ok y = true
  | XList l => exists l', v = XList l'
  | XMap m => exists m', v = XMap m' /\ NoDup (m.*1) /\ NoDup (m'.*1) /\ map_eqb (strict_equal 16) m m' = true
  | _ => False
  end.
Proof.
  intros (Hl & Hd & Hs). pose proof (load_data k Hl) as Hdk. pose proof (decoded_data v Hd) as Hdv.
  destruct (exprNumberOf k) as [x|] eqn:Hx.
  - rewrite (strict_num k v x) in Hs by done. destruct (exprNumberOf v) as [y|] eqn:Hy; [|done]. apply Z.eqb_eq in Hs.
    pose proof (data_num_ok k x Hdk Hx). pose proof (data_num_ok v y Hdv Hy). destruct k; try done; simplify_eq/=; eauto 10.
  - rewrite (strict_data k v Hdk Hdv) in Hs. destruct k; try done; destruct v; try done.
    + by destruct b, b0.
    + apply eqs_true in Hs. by subst.
    + eauto.
    + apply data_map in Hdk as [? _], Hdv as [? _]. eauto 10.
Qed.

Lemma like_equal k1 v1 k2 v2 : like k1 v1 -> like k2 v2 -> strict_equal 16 v1 v2 = loopStrictEqual k1 k2.
Proof.
  intros (L1 & D1 & S1) (L2 & D2 & S2). rewrite loop_strict by done.
  apply load_data in L1, L2. apply decoded_data in D1, D2. apply eq_true_iff_eq. split; intros Hs.
  - apply (strict_trans k1 v1 k2); [done..|]. apply (strict_trans v1 v2 k2); [done..|]. by apply strict_sym.
  - apply (strict_trans v1 k1 v2); [done..|by apply strict_sym|]. by apply (strict_trans k1 k2 v2).
Qed.

Lemma like_unset k v : like k v -> exprIsUnset v = loopUnset (pKnown k).
Proof.
  intros Hl. pose proof (like_cases k v Hl) as Hc. destruct Hl as (_ & Hd & _).
  destruct k; try done; try (by subst); destruct Hc as (x & Hc).
  - destruct Hc as (y & _ & Hy & _). by destruct v.
  - destruct Hc as (y & _ & Hy & _). by destruct v.
  - by subst.
  - by destruct Hc as [-> _].
Qed.

(** A value as an evaluation hands it out, and normalised. *)
Definition raw (v nv : value) : Prop := v = nv \/ exists z, v = GInt z /\ nv = normal_int z.

Definition rel (p : pval) (v : value) : Prop :=
  match p with
  | pKnown k => exists nv, raw v nv /\ like k nv
  | pAbsent => v = XAbsent
  | pUnknown _ => True
  end.

(** The same of a normalised value. *)
Definition nrel (p : pval) (nv : value) : Prop :=
  match p with
  | pKnown k => like k nv
  | pAbsent => nv = XAbsent
  | pUnknown _ => True
  end.

Lemma raw_normal v nv : raw v nv -> decoded nv = true -> exprNormalize v = Some nv.
Proof. intros [->|(z & -> & ->)] Hd; [apply is_data_normal; by apply decoded_data|done]. Qed.

Lemma rel_normal p v nv : rel p v -> exprNormalize v = Some nv -> nrel p nv.
Proof.
  destruct p as [k| |]; cbn; [|by intros -> [= <-]|done]. intros (nv' & Hr & Hl) Hn.
  rewrite (raw_normal v nv' Hr) in Hn by apply Hl. by injection Hn as <-.
Qed.

Lemma known_rel k : load k = true -> rel (pKnown k) k.
Proof. intros Hk. exists k. split; [by left|by apply like_refl]. Qed.

Lemma bool_rel b : rel (pKnown (XBool b)) (XBool b).
Proof. by apply known_rel. Qed.

(** *** Operators *)

Lemma nrel_unset p nv : nrel p nv -> is_pUnknown p = false -> exprIsUnset nv = loopUnset p.
Proof. destruct p as [k| |]; [|by intros ->|done]. intros Hl _. by apply like_unset. Qed.

Lemma equal_agrees l r nl nr : nrel l nl -> nrel r nr -> is_pUnknown l = false -> is_pUnknown r = false ->
  exprEqual nl nr = loopEqual l r.
Proof.
  intros Hl Hr Hul Hur. unfold exprEqual, loopEqual. rewrite (nrel_unset l nl), (nrel_unset r nr) by done.
  destruct (loopUnset l) eqn:El; [done|]. destruct (loopUnset r) eqn:Er; [done|]. cbn.
  destruct l, r; try done. by apply like_equal.
Qed.

Lemma equal_raw nl v nv : raw v nv -> decoded nv = true -> exprEqual nl v = exprEqual nl nv.
Proof.
  intros [->|(z & -> & ->)] Hd; [done|]. unfold exprEqual.
  assert (Hu : exprIsUnset (GInt z) = exprIsUnset (normal_int z)) by (unfold normal_int; by destruct (_ <? _)).
  rewrite Hu. destruct (_ || _); [done|]. unfold exprStrictEqual. pose proof (is_data_normal _ (decoded_data _ Hd)) as Hn.
  assert (He : forall a, strict_equal 16 a (GInt z) = strict_equal 16 a (normal_int z)); [|apply He].
  assert (Hn' : exprNormalize (GInt z) = exprNormalize (normal_int z)) by by rewrite Hn.
  assert (Hall : forall a h, strict_equal h a (GInt z) = strict_equal h a (normal_int z)); [|intros; apply Hall].
  intros a. induction a as [v Hv|l IH|l IH|m IH|m IH|i c t u at' p m IHp IHm|member stands IHm IHs|read IHr|v IHv|t d IHd]
    using value_ind'; intros h; cbn [strict_equal]; rewrite ?Hn'; try done.
  - destruct v; try done; cbn [strict_equal]; by rewrite Hn'.
  - destruct h; [done|]. apply IHs.
  - destruct d as [d|]; [|done]. destruct d; try done; apply IHd.
Qed.

Lemma number_ordered o v w x y : exprNumberOf v = Some x -> exprNumberOf w = Some y -> num_ok x = true -> num_ok y = true ->
  exprOrdered o v w = order_holds o (sign_of_cmp (num_exact x ?= num_exact y)).
Proof. intros Hx Hy Ox Oy. unfold exprOrdered. by rewrite Hx, Hy, compare_numbers_exact. Qed.

Lemma unorderable_left o l nl nr : nrel l nl -> is_pUnknown l = false -> loopOrderable l = false -> exprOrdered o nl nr = false.
Proof.
  destruct l as [k| |]; [|intros -> _ _; by destruct nr|done]. intros Hl _ Ho. pose proof (like_cases k nl Hl) as Hc.
  destruct k; try done; subst; try (by destruct nr); destruct Hc as (? & Hc); [subst|destruct Hc as [-> _]]; by destruct nr.
Qed.

Lemma unorderable_right o r nl nr : nrel r nr -> is_pUnknown r = false -> loopOrderable r = false -> exprOrdered o nl nr = false.
Proof.
  destruct r as [k| |]; [|intros -> _ _; by destruct nl|done]. intros Hl _ Ho. pose proof (like_cases k nr Hl) as Hc.
  destruct k; try done; subst; try (by destruct nl); destruct Hc as (? & Hc); [subst|destruct Hc as [-> _]]; by destruct nl.
Qed.

Lemma ordered_agrees o k1 k2 v1 v2 : like k1 v1 -> like k2 v2 -> loopOrderable (pKnown k1) = true -> loopOrderable (pKnown k2) = true ->
  exprOrdered o v1 v2 = loopOrdered o k1 k2.
Proof.
  intros H1 H2 O1 O2. pose proof (like_cases k1 v1 H1) as C1. pose proof (like_cases k2 v2 H2) as C2.
  assert (Hnum : forall x1 x2, exprNumberOf k1 = Some x1 -> exprNumberOf k2 = Some x2 -> exprOrdered o v1 v2 = loopOrdered o k1 k2).
  { intros x1 x2 E1 E2. destruct H1 as (L1 & D1 & S1), H2 as (L2 & D2 & S2).
    rewrite (strict_num k1 v1 x1) in S1 by auto using load_data, decoded_data.
    rewrite (strict_num k2 v2 x2) in S2 by auto using load_data, decoded_data.
    destruct (exprNumberOf v1) as [y1|] eqn:F1; [|done]. destruct (exprNumberOf v2) as [y2|] eqn:F2; [|done].
    apply Z.eqb_eq in S1, S2. pose proof (data_num_ok v1 y1 (decoded_data _ D1) F1). pose proof (data_num_ok v2 y2 (decoded_data _ D2) F2).
    rewrite (number_ordered o v1 v2 y1 y2) by done. rewrite <- S1, <- S2.
    pose proof (loop_compare k1 k2 x1 x2 L1 L2 E1 E2) as Hc.
    rewrite compare_numbers_exact in Hc by (eapply data_num_ok; [|done]; by apply load_data).
    unfold loopOrdered. destruct k1; try done; by rewrite Hc. }
  destruct k1; try done; destruct k2; try done; try (eapply Hnum; reflexivity).
  - by subst.
  - destruct C2 as (x & y & _ & Hy & _). subst. by destruct v2.
  - destruct C2 as (x & y & _ & Hy & _). subst. by destruct v2.
  - destruct C1 as (x & y & _ & Hy & _). subst. by destruct v1.
  - destruct C1 as (x & y & _ & Hy & _). subst. by destruct v1.
Qed.

(** An answer agrees with a decision. *)
Definition agrees (t : tri) (b : bool) : Prop :=
  match t with triTrue => b = true | triFalse => b = false | triUnknown => True end.

(** The elements a list literal keeps. *)
Inductive elems_rel : list pval -> list value -> Prop :=
| elems_nil : elems_rel [] []
| elems_drop p els vs : (match p with pKnown _ => False | _ => True end) -> elems_rel els vs -> elems_rel (p :: els) vs
| elems_keep p v els vs : p <> pAbsent -> rel p v -> elems_rel els vs -> elems_rel (p :: els) (v :: vs).

Lemma equal_elem l p nl v : nrel l nl -> rel p v -> p <> pAbsent -> is_pUnknown l = false -> is_pUnknown p = false ->
  exprEqual nl v = loopEqual l p.
Proof.
  intros Hl Hp Hna Hul Hup. destruct p as [k| |]; [|done|done]. destruct Hp as (nv & Hr & Hk).
  rewrite (equal_raw nl v nv Hr) by apply Hk. by apply (equal_agrees l (pKnown k)).
Qed.

(** The loop over the elements, after [found] among those before. *)
Lemma in_elems_agrees l nl els vs out found : nrel l nl -> elems_rel els vs ->
  (out.1 = triFalse /\ found = false \/ out.1 = triUnknown) ->
  agrees (in_elems l els out).1 (found || existsb (exprEqual nl) vs).
Proof.
  intros Hl He. revert out found. induction He as [|p els vs Hp He IH|p v els vs Hna Hp He IH]; intros out found Hout.
  - cbn. rewrite orb_false_r. by destruct Hout as [[-> ->]| ->].
  - destruct p as [k| |why]; [done|by apply IH|]. cbn [in_elems]. assert (Hlat : forall w,
      agrees (in_elems l els (match out.1 with triFalse => unknown w | _ => out end)).1 (found || existsb (exprEqual nl) vs)).
    { intros w. destruct Hout as [[E ->]|E]; rewrite E; apply IH; by right. }
    destruct l; apply Hlat.
  - cbn [in_elems existsb]. rewrite orb_assoc.
    assert (Hlat : forall w, agrees (in_elems l els (match out.1 with triFalse => unknown w | _ => out end)).1
      (found || exprEqual nl v || existsb (exprEqual nl) vs)).
    { intros w. destruct Hout as [[E _]|E]; rewrite E; apply IH; by right. }
    destruct p as [k| |why]; [|done|destruct l; apply Hlat].
    destruct (is_pUnknown l) eqn:Hul; [destruct l; try done; apply Hlat|].
    pose proof (equal_elem l (pKnown k) nl v Hl Hp Hna Hul eq_refl) as Heq.
    assert (Hstep : agrees (if loopEqual l (pKnown k) then decided true else in_elems l els out).1
      (found || exprEqual nl v || existsb (exprEqual nl) vs)).
    { rewrite Heq. destruct (loopEqual l (pKnown k)); [cbn; by rewrite orb_true_r|]. rewrite orb_false_r. by apply IH. }
    destruct l; done || exact Hstep.
Qed.

(** The prefixes a list literal gives the run. *)
Lemma elem_prefixes_run els vs : elems_rel els vs ->
  match elem_prefixes els with
  | inr ps => prefix_strings vs = Some ps
  | inl d => d.1 = triUnknown \/ d = decided false /\ prefix_strings vs = None
  end.
Proof.
  induction 1 as [|p els vs Hp He IH|p v els vs Hna Hp He IH]; [done| |].
  - destruct p; [done|done|by left].
  - destruct p as [k| |]; [|done|by left]. destruct Hp as (nv & Hr & Hk). cbn [prefix_strings].
    rewrite (raw_normal v nv Hr) by apply Hk. pose proof (like_cases k nv Hk) as Hc.
    assert (Hother : match k with XNil | XStr _ => False | _ => True end ->
      match nv with XStr s => cons s <$> prefix_strings vs | XNil | XAbsent => prefix_strings vs | _ => None end = None).
    { intros Hno. destruct k; try done; first [by subst|destruct Hc as (? & ->); done|destruct Hc as (? & -> & _); done
        |destruct Hc as (? & ? & _ & Hv & _); by destruct nv]. }
    cbn [elem_prefixes]. destruct k; try (right; split; [done|]; by apply Hother); subst; [done|].
    destruct (elem_prefixes els) as [d|ps]; [|by rewrite IH]. destruct IH as [IH|[-> ->]]; [by left|by right].
Qed.

(** *** Conditions and coalescing *)

Definition cond_of (p : pval) : tri :=
  match p with
  | pKnown (XBool b) => triOf b
  | pKnown _ | pAbsent => triFalse
  | pUnknown _ => triUnknown
  end.

Lemma arm_known v nv k : raw v nv -> like k nv -> exprCoalesceArm v = v /\ blank v = loopBlank k.
Proof.
  intros [->|(z & -> & ->)] Hl.
  - pose proof (like_cases k nv Hl) as Hc. destruct k; try done;
      first [by subst|destruct Hc as (? & ->); done|destruct Hc as (? & -> & _); done
        |destruct Hc as (? & ? & _ & Hv & _); by destruct nv].
  - split; [done|]. pose proof (like_cases k _ Hl) as Hc. destruct k; try done.
    + unfold normal_int in Hc. by destruct (_ <? _).
    + unfold normal_int in Hc. by destruct (_ <? _).
Qed.

Definition last_arm (v : value) : value := match exprCoalesceArm v with XAbsent => XNil | v' => v' end.

Lemma last_arm_rel p v : rel p v -> rel (match p with pAbsent => pKnown XNil | _ => p end) (last_arm v).
Proof.
  unfold last_arm. destruct p as [k| |]; [|intros ->; by apply known_rel|done]. intros (nv & Hr & Hl).
  destruct (arm_known v nv k Hr Hl) as [-> _]. exists nv. split; [|done].
  destruct Hr as [->|(z & -> & ->)]; [|by right; exists z]. left. destruct Hl as (_ & Hd & _). by destruct nv.
Qed.

(** ** The filter and the evaluator *)

Definition known_list (p : pval) : bool := match p with pKnown (XList _) => true | _ => false end.

(** Literals are data whose integers are exact as floats; names are as the lexer
    reads them; no known list is the right operand of startsWith. *)
Section FilterOk.
Context `{UnicodeTables} (param : gostring) (row : knownRow) (args : gset gostring).

Fixpoint filter_ok (n : expr) : bool :=
  match n with
  | ParenExpr i => filter_ok i
  | LiteralExpr v => load (normalizeLoopValue (literal_value v))
  | MemberExpr _ _ _ =>
      match MemberPath n with Some (_, fields) => forallb (fun f => TrimSpace f =s f) fields | None => true end
  | UnaryExpr _ x => filter_ok x
  | BinaryExpr op x y =>
      filter_ok x && filter_ok y && negb ((op =s go "startsWith") && known_list (j_value (judge param row args y)))
  | ListExpr es => forallb filter_ok es
  | _ => true
  end.
End FilterOk.

(** What holds of every value an evaluation answers. *)
Definition post {W A} (m : eval_m W A) (P : A -> Prop) : Prop := forall st a st', m st = (Ok a, st') -> P a.

Section Post.
Context {W : Type}.

Lemma post_ret {A} (a : A) (P : A -> Prop) : P a -> post (W := W) (mret a) P.
Proof. intros Ha st b st' [= <- <-]. done. Qed.

Lemma post_then {A B} (m : eval_m W A) (k : A -> eval_m W B) (P : A -> Prop) (Q : B -> Prop) :
  post m P -> (forall a, P a -> post (k a) Q) -> post (m ≫= k) Q.
Proof.
  intros Hm Hk st b st'. unfold mbind, eval_bind. destruct (m st) as [[a|e] st1] eqn:E; [|done].
  intros Hb. exact (Hk a (Hm _ _ _ E) _ _ _ Hb).
Qed.

Lemma post_any {A} (m : eval_m W A) : post m (fun _ => True).
Proof. done. Qed.

Lemma post_lift {A} (r : result eval_error A) (P : A -> Prop) : (forall a, r = Ok a -> P a) -> post (W := W) (lift r) P.
Proof. intros Hr st a st'. unfold lift. intros [= -> _]. by apply Hr. Qed.

Lemma post_mono {A} (m : eval_m W A) (P Q : A -> Prop) : post m P -> (forall a, P a -> Q a) -> post m Q.
Proof. intros Hm Hpq st a st' E. by eapply Hpq, Hm. Qed.

Lemma post_normalized c v : post (W := W) (normalized c v) (fun nv => exprNormalize v = Some nv).
Proof. unfold normalized. destruct (exprNormalize v); [by apply post_ret|done]. Qed.
End Post.

Section Run.
Context `{UnicodeTables, GoFmt} {W : Type} (ev : exprEvaluator W) (param : gostring) (row : knownRow) (args : gset gostring).
Context (rowv argsv : value).
Context (Hrow : ev_root ev param = Some rowv).
Context (Hrowf : forall f v, TrimSpace f = f -> exprMember rowv f = Ok v -> rel (rowField row f) v).
Context (Hargs : param <> go "args" -> ev_root ev (go "args") = Some argsv).
Context (Hargsf : forall f v, exprMember argsv f = Ok v -> rel (argField row args f) v).

Abbreviation judge := (judge param row args).
Abbreviation filter_ok := (filter_ok param row args).

(** *** Member paths *)

Fixpoint read_members (v : value) (fields : list gostring) : result eval_error value :=
  match fields with
  | [] => Ok v
  | f :: fields' => match exprMember v f with Ok v' => read_members v' fields' | Err e => Err e end
  end.

Lemma read_members_app v l f : read_members v (l ++ [f]) = match read_members v l with Ok v' => exprMember v' f | Err e => Err e end.
Proof. revert v. induction l as [|g l IH]; intros v; cbn; [by destruct (exprMember v f)|]. by destruct (exprMember v g). Qed.

Lemma member_path_acc n acc : member_path_loop n acc = (fun rf => (rf.1, rf.2 ++ reverse acc)) <$> member_path_loop n [].
Proof.
  revert acc. induction n; intros acc; cbn; try done.
  rewrite IHn, (IHn [field]). destruct (member_path_loop n []) as [[r fs]|]; cbn; [|done].
  by rewrite reverse_app, reverse_singleton, <- (assoc_L (++)).
Qed.

Lemma eval_path fuel depth n root fields : MemberPath n = Some (root, fields) ->
  post (eval_fuel ev fuel depth n []) (fun v => forall v0, ev_root ev root = Some v0 -> read_members v0 fields = Ok v).
Proof.
  revert fuel depth root fields. induction n; intros fuel depth root fields; unfold MemberPath; cbn; try done.
  - intros [= <- <-]. destruct fuel as [|fuel]; [done|]. cbn [eval_fuel]. unfold eval_body.
    apply (post_then _ _ (fun _ => True)); [apply post_any|]. intros _ _. cbn [eval_node]. unfold ident. cbn [Lookup].
    destruct (ev_root ev name) as [v|]; [apply post_ret; by intros v0 [= ->]|].
    destruct (name =s go "now"); [by apply post_ret|done].
  - rewrite member_path_acc. destruct (member_path_loop n []) as [[r fs]|] eqn:En; cbn; [|done]. intros [= <- <-].
    destruct fuel as [|fuel]; [done|]. cbn [eval_fuel]. unfold eval_body.
    apply (post_then _ _ (fun _ => True)); [apply post_any|]. intros _ _. cbn [eval_node].
    eapply post_then; [apply (IHn fuel depth r fs En)|]. intros obj Hobj. apply post_lift. intros v Hv v0 E.
    by rewrite read_members_app, (Hobj v0 E).
Qed.

Lemma normal_like k v : like k v -> normalizeLoopValue k = k.
Proof. intros (Hl & _). apply decoded_plain. by apply load_parts in Hl as [? _]. Qed.

(** One read through a known or an absent value. *)
Lemma read_through_rel e p v f v' : rel p v -> exprMember v f = Ok v' -> rel (read_through e p f) v'.
Proof.
  destruct p as [k| |]; [|intros ->; by intros [= <-]|done]. intros (nv & Hr & Hl) Hm.
  pose proof (like_cases k nv Hl) as Hc. destruct k; try done; cbn [read_through]; try (by destruct Hc).
  - subst nv. destruct Hr as [->|(z & _ & Hz)]; [by injection Hm as <-|]. unfold normal_int in Hz. by destruct (_ <? _).
  - destruct Hc as (m' & -> & Hn & Hn' & He). destruct Hr as [->|(z & _ & Hz)]; [|unfold normal_int in Hz; by destruct (_ <? _)].
    injection Hm as <-. destruct Hl as (Hlm & Hd & _). destruct (map_get m f) as [x|] eqn:Ex.
    + apply map_get_Some_elem in Ex. pose proof (load_map m f x Hlm Ex) as Hlx.
      destruct (proj1 (map_eqb_spec _ m m' Hn Hn') He) as [_ Hall]. destruct (Hall f x Ex) as (x' & Hx' & Hs).
      rewrite (map_get_elem_of m' f x' Hn' Hx'). cbn. exists x'. split; [by left|].
      rewrite decoded_plain by (by apply load_parts in Hlx as [? _]). split; [done|]. split; [|done].
      cbn in Hd. apply andb_true_iff in Hd as [_ Hd]. rewrite List.forallb_forall in Hd. apply (Hd (f, x')). by apply list_elem_of_In.
    + destruct (map_get m' f) as [x'|] eqn:Ex'; [|done]. apply map_get_Some_elem in Ex'.
      destruct (map_eqb_back _ m m' f x' Hn Hn' He Ex') as (x & Hx & _). by rewrite (map_get_elem_of m f x Hn Hx) in Ex.
Qed.

Lemma read_members_rel e fields p v v' : rel p v -> read_members v fields = Ok v' -> rel (fold_left (read_through e) fields p) v'.
Proof.
  revert p v. induction fields as [|f fields IH]; intros p v Hr; cbn; [by intros [= <-]|].
  destruct (exprMember v f) as [x|] eqn:E; [|done]. apply IH. by eapply read_through_rel.
Qed.

Lemma eval_member fuel depth n : (match n with MemberExpr _ _ _ => True | _ => False end) -> filter_ok n = true ->
  post (eval_fuel ev fuel depth n []) (rel (member param row args n)).
Proof.
  intros Hn Hok. unfold member. destruct (MemberPath n) as [[root fields]|] eqn:E; [|by intros st a st' _].
  destruct fields as [|f fields]; [by intros st a st' _|]. assert (Htrim : TrimSpace f = f).
  { destruct n; try done. cbn -[MemberPath] in Hok. rewrite E in Hok. cbn in Hok. apply andb_true_iff in Hok as [Hok _]. by apply eqs_true. }
  eapply post_mono; [apply (eval_path fuel depth n _ _ E)|]. intros v Hv. destruct (root =s param) eqn:Ep.
  - apply eqs_true in Ep as ->. specialize (Hv rowv Hrow). cbn in Hv. destruct (exprMember rowv f) as [x|] eqn:Ex; [|done].
    eapply read_members_rel; [|exact Hv]. by apply Hrowf.
  - destruct (root =s go "args") eqn:Ea; [|done]. apply eqs_true in Ea as ->. apply eqs_false in Ep.
    specialize (Hv argsv (Hargs (not_eq_sym Ep))). cbn in Hv. destruct (exprMember argsv f) as [x|] eqn:Ex; [|done].
    eapply read_members_rel; [|exact Hv]. by apply Hargsf.
Qed.

(** *** Operators *)

Lemma coherent n : (j_cond (judge n)).1 = cond_of (j_value (judge n)).
Proof.
  assert (Hc : forall d, (j_cond (of_cond d)).1 = cond_of (j_value (of_cond d))) by (by intros [[] []]).
  assert (Hv : forall v, (j_cond (of_value v)).1 = cond_of (j_value (of_value v))) by (by intros [[]| |]).
  induction n; cbn [LoopFilter.judge]; try apply Hv; try done.
  - destruct (op =s go "!"); [apply Hc|apply Hv].
  - repeat (case_match; try apply Hc; try apply Hv).
Qed.

Lemma of_cond_rel d b : agrees d.1 b -> rel (j_value (of_cond d)) (XBool b).
Proof. destruct d as [[] why]; cbn; [intros ->; apply bool_rel|intros ->; apply bool_rel|done]. Qed.

Lemma condition_agrees p v n s : rel p v -> post (condition ev v n s) (agrees (cond_of p)).
Proof.
  destruct p as [k| |]; [|intros ->; by apply post_ret|by intros _ st a st' _]. intros (nv & Hr & Hl).
  unfold condition. rewrite (raw_normal v nv Hr) by apply Hl. pose proof (like_cases k nv Hl) as Hc.
  assert (Hno : post (W := W) (if exprStoredRead (ev_root ev) n s then mret false else refuse condition_not_boolean) (agrees triFalse))
    by (destruct (exprStoredRead (ev_root ev) n s); [by apply post_ret|done]).
  destruct k; try done; first [subst; apply post_ret; by destruct b|by subst; try apply post_ret|destruct Hc as (? & ->); exact Hno
    |destruct Hc as (? & -> & _); exact Hno|destruct Hc as (? & ? & _ & Hv & _); destruct nv; done || exact Hno].
Qed.

(** Everything known of one node holds at this fuel. *)
Definition sound (fuel : nat) : Prop := forall depth n, filter_ok n = true ->
  post (eval_fuel ev fuel depth n []) (fun v => rel (j_value (judge n)) v
    /\ forall els, j_elems (judge n) = Some els -> exists vs, v = XList vs /\ elems_rel els vs)
  /\ post (cond_fuel ev fuel depth n []) (agrees (j_cond (judge n)).1).

Section Step.
Context (f : nat) (IH : sound f) (depth : nat).

Abbreviation e := (eval_fuel ev f).
Abbreviation c := (cond_fuel ev f).

Lemma sub_value x : filter_ok x = true -> post (e depth x []) (rel (j_value (judge x))).
Proof. intros Hx. eapply post_mono; [apply (IH depth x Hx)|]. by intros v [? _]. Qed.

Lemma sub_cond x : filter_ok x = true -> post (c depth x []) (agrees (j_cond (judge x)).1).
Proof. intros Hx. apply (IH depth x Hx). Qed.

Lemma step_not x : filter_ok x = true ->
  post (unary e c depth (go "!") x []) (rel (j_value (of_cond (tri_not (j_cond (judge x)))))).
Proof.
  intros Hx. unfold unary. change (go "!" =s go "!") with true. cbv iota. eapply post_then; [by apply sub_cond|].
  intros b Hb. apply post_ret, of_cond_rel. destruct (j_cond (judge x)) as [[] why]; cbn in *; by subst.
Qed.

Lemma step_and x y : filter_ok x = true -> filter_ok y = true ->
  post (binary ev e c depth (go "&&") x y []) (rel (j_value (of_cond (tri_and (j_cond (judge x)) (j_cond (judge y)))))).
Proof.
  intros Hx Hy. unfold binary. change ((go "&&" =s go "&&") || (go "&&" =s go "||")) with true.
  change (go "&&" =s go "&&") with true. cbv iota. eapply post_then; [by apply sub_cond|]. intros b Hb. destruct b; cbn [negb].
  - eapply post_then; [by apply sub_cond|]. intros b' Hb'. apply post_ret, of_cond_rel.
    destruct (j_cond (judge x)) as [[] ?], (j_cond (judge y)) as [[] ?]; cbn in *; by subst.
  - apply post_ret, of_cond_rel. destruct (j_cond (judge x)) as [[] ?], (j_cond (judge y)) as [[] ?]; cbn in *; by subst.
Qed.

Lemma step_or x y : filter_ok x = true -> filter_ok y = true ->
  post (binary ev e c depth (go "||") x y []) (rel (j_value (of_cond (tri_or (j_cond (judge x)) (j_cond (judge y)))))).
Proof.
  intros Hx Hy. unfold binary. change ((go "||" =s go "&&") || (go "||" =s go "||")) with true.
  change (go "||" =s go "&&") with false. cbv iota. eapply post_then; [by apply sub_cond|]. intros b Hb. destruct b.
  - apply post_ret, of_cond_rel. destruct (j_cond (judge x)) as [[] ?], (j_cond (judge y)) as [[] ?]; cbn in *; by subst.
  - eapply post_then; [by apply sub_cond|]. intros b' Hb'. apply post_ret, of_cond_rel.
    destruct (j_cond (judge x)) as [[] ?], (j_cond (judge y)) as [[] ?]; cbn in *; by subst.
Qed.

(** An operator of values answers what [P] says of the normalised operands. *)
Lemma step_values op x y (P : value -> Prop) : filter_ok x = true -> filter_ok y = true ->
  (op =s go "&&") || (op =s go "||") = false -> (op =s go "??") = false ->
  (forall nl nr v, nrel (j_value (judge x)) nl -> nrel (j_value (judge y)) nr ->
     (forall els, j_elems (judge y) = Some els -> exists vs, nr = XList vs /\ elems_rel els vs) ->
     binary_values op (exprStoredRead (ev_root ev) y []) nl nr = Ok v -> P v) ->
  post (binary ev e c depth op x y []) P.
Proof.
  intros Hx Hy H1 H2 HP. unfold binary. rewrite H1, H2. eapply post_then; [by apply sub_value|]. intros l Hl.
  eapply post_then; [apply (IH depth y Hy)|]. intros r [Hr Hels]. eapply post_then; [apply post_normalized|]. intros nl Hnl.
  eapply post_then; [apply post_normalized|]. intros nr Hnr. apply post_lift. intros v Hv. apply (HP nl nr v); [by eapply rel_normal..| |done].
  intros els E. destruct (Hels els E) as (vs & -> & Hvs). injection Hnr as <-. by exists vs.
Qed.

Lemma step_equal (ne : bool) x y : filter_ok x = true -> filter_ok y = true ->
  post (binary ev e c depth (if ne then go "!=" else go "==") x y [])
    (rel (j_value (of_cond (compare_equal ne (j_value (judge x)) (j_value (judge y)))))).
Proof.
  intros Hx Hy. apply step_values; [done|done|by destruct ne|by destruct ne|]. intros nl nr v Hl Hr _ Hv.
  assert (v = XBool (xorb ne (exprEqual nl nr))) as -> by (destruct ne; injection Hv as <-; by destruct (exprEqual nl nr)). apply of_cond_rel.
  unfold compare_equal. destruct (is_pUnknown (j_value (judge x))) eqn:Ul; [by destruct (j_value (judge x))|].
  destruct (is_pUnknown (j_value (judge y))) eqn:Ur; [by destruct (j_value (judge x)), (j_value (judge y))|].
  rewrite (equal_agrees _ _ nl nr Hl Hr Ul Ur). assert (Hd : forall b, agrees (decided b).1 b) by (by intros []).
  destruct (j_value (judge x)), (j_value (judge y)); done || apply Hd.
Qed.

Lemma order_not_logic op o : order_of op = Some o -> (op =s go "&&") || (op =s go "||") = false /\ (op =s go "??") = false
  /\ (op =s go "==") = false /\ (op =s go "!=") = false.
Proof.
  intros Ho. assert (Hs : forall s, order_of (go s) = None -> (op =s go s) = false).
  { intros s Hs. apply eqs_false. intros ->. congruence. }
  rewrite !Hs by done. done.
Qed.

Lemma step_order op o x y : order_of op = Some o -> filter_ok x = true -> filter_ok y = true ->
  post (binary ev e c depth op x y []) (rel (j_value (of_cond (compare_ordered o (j_value (judge x)) (j_value (judge y)))))).
Proof.
  intros Ho Hx Hy. destruct (order_not_logic op o Ho) as (H1 & H2 & H3 & H4). apply step_values; [done..|]. intros nl nr v Hl Hr _ Hv.
  assert (v = XBool (exprOrdered o nl nr)) as -> by (unfold binary_values in Hv; rewrite H3, H4, Ho in Hv; congruence).
  apply of_cond_rel. unfold compare_ordered.
  destruct (is_pUnknown (j_value (judge x))) eqn:Ul; cbn [negb andb].
  - destruct (is_pUnknown (j_value (judge y))) eqn:Ur; cbn [negb andb]; [by destruct (j_value (judge x))|].
    destruct (loopOrderable (j_value (judge y))) eqn:Or; cbn [negb]; [by destruct (j_value (judge x))|].
    by apply (unorderable_right o (j_value (judge y))).
  - destruct (loopOrderable (j_value (judge x))) eqn:Ol; cbn [negb]; [|by apply (unorderable_left o (j_value (judge x)))].
    destruct (is_pUnknown (j_value (judge y))) eqn:Ur; cbn [negb andb]; [by destruct (j_value (judge x)), (j_value (judge y))|].
    destruct (loopOrderable (j_value (judge y))) eqn:Or; cbn [negb]; [|by apply (unorderable_right o (j_value (judge y)))].
    destruct (j_value (judge x)) as [k1| |], (j_value (judge y)) as [k2| |]; try done.
    rewrite (ordered_agrees o k1 k2 nl nr) by done. cbn. by destruct (loopOrdered o k1 k2).
Qed.

Lemma decided_agrees b : agrees (decided b).1 b.
Proof. by destruct b. Qed.

Lemma step_in x y : filter_ok x = true -> filter_ok y = true ->
  post (binary ev e c depth (go "in") x y [])
    (rel (j_value (of_cond (decide_in y (j_value (judge x)) (j_value (judge y)) (j_elems (judge y)))))).
Proof.
  intros Hx Hy. apply step_values; [done..|]. intros nl nr v Hl Hr Hels Hv.
  change (binary_values _ _ nl nr) with (if exprStoredMismatch nr && exprStoredRead (ev_root ev) y [] then Ok (XBool false) else exprIn nl nr) in Hv.
  unfold decide_in. destruct (j_elems (judge y)) as [els|].
  - destruct (Hels els eq_refl) as (vs & -> & Hvs). injection Hv as <-. apply of_cond_rel.
    apply (in_elems_agrees _ nl els vs (decided false) false); [done|done|by left].
  - assert (Hnil : nr = XNil \/ nr = XAbsent -> v = XBool false) by (intros [->| ->]; by injection Hv as <-).
    destruct (j_value (judge y)) as [k| |]; [|by rewrite Hnil by (by right); apply bool_rel|done].
    destruct k; try done. rewrite Hnil; [apply bool_rel|]. left. exact (like_cases XNil nr Hr).
Qed.

Lemma startsWith_run l nl ps : nrel l nl ->
  agrees (if (length (normalizePrefixValues ps) =? 0)%nat then decided false
          else match l with
               | pUnknown why => unknown why
               | pKnown (XStr s) => decided (existsb (HasPrefix s) (normalizePrefixValues ps))
               | _ => decided false
               end).1
    (match nl with XStr s => startsWithAny s (normalizePrefixValues ps) | _ => false end).
Proof.
  intros Hl. destruct (normalizePrefixValues ps) as [|p qs] eqn:Ep; [by destruct nl|]. rewrite <- Ep.
  replace (length (normalizePrefixValues ps) =? 0)%nat with false by (by rewrite Ep).
  destruct l as [k| |]; [|by rewrite Hl|done]. pose proof (like_cases k nl Hl) as Hc.
  destruct k; try done; first [by subst|subst; apply decided_agrees|destruct Hc as (? & ->); done|destruct Hc as (? & -> & _); done
    |destruct Hc as (? & ? & _ & Hv & _); by destruct nl].
Qed.

Lemma startsWith_not l nl r v : nrel l nl -> is_pUnknown l = false -> (match l with pKnown (XStr _) => False | _ => True end) ->
  exprStartsWith nl r = Ok v -> v = XBool false.
Proof.
  intros Hl Hu Hno Hv. assert (Hn : match nl with XStr _ => False | _ => True end).
  { destruct l as [k| |]; [|by rewrite Hl|done]. pose proof (like_cases k nl Hl) as Hc.
    destruct k; try done; first [by subst|destruct Hc as (? & ->); done|destruct Hc as (? & -> & _); done
      |destruct Hc as (? & ? & _ & Hy & _); by destruct nl]. }
  unfold exprStartsWith in Hv. destruct nl; try done; destruct r; try done; try destruct (prefix_strings _); simplify_eq; done.
Qed.

Lemma step_startsWith x y : filter_ok x = true -> filter_ok y = true -> known_list (j_value (judge y)) = false ->
  post (binary ev e c depth (go "startsWith") x y [])
    (rel (j_value (of_cond (decide_startsWith (j_value (judge x)) (j_value (judge y)) (j_elems (judge y)))))).
Proof.
  intros Hx Hy Hnl. apply step_values; [done..|]. intros nl nr v Hl Hr Hels Hv. change (exprStartsWith nl nr = Ok v) in Hv.
  assert (Hmain : forall d, d = match prefixes_of (j_value (judge y)) (j_elems (judge y)) with
      | inl d => d
      | inr ps => if (length (normalizePrefixValues ps) =? 0)%nat then decided false
          else match j_value (judge x) with
               | pUnknown why => unknown why
               | pKnown (XStr s) => decided (existsb (HasPrefix s) (normalizePrefixValues ps))
               | _ => decided false
               end
      end -> rel (j_value (of_cond d)) v).
  { intros d ->. unfold prefixes_of. destruct (j_elems (judge y)) as [els|].
    - destruct (Hels els eq_refl) as (vs & -> & Hvs). pose proof (elem_prefixes_run els vs Hvs) as Hp. cbn in Hv.
      destruct (elem_prefixes els) as [d|ps].
      + destruct Hp as [Hp|[-> Hp]]; [destruct d as [[] ?]; done|]. by rewrite Hp in Hv.
      + rewrite Hp in Hv. injection Hv as <-. by apply of_cond_rel, startsWith_run.
    - destruct (j_value (judge y)) as [k| |]; [|rewrite Hr in Hv; injection Hv as <-; apply bool_rel|done].
      pose proof (like_cases k nr Hr) as Hc. destruct k; try done;
        first [subst; cbn in Hv; done|subst; injection Hv as <-; apply bool_rel
          |subst; injection Hv as <-; exact (of_cond_rel _ _ (startsWith_run _ nl [s] Hl))
          |destruct Hc as (? & ->); done|destruct Hc as (? & -> & _); done|destruct Hc as (? & ? & _ & Hy' & _); by destruct nr]. }
  unfold decide_startsWith. destruct (j_value (judge x)) as [k| |] eqn:Ex; [|by rewrite (startsWith_not pAbsent nl nr v); [apply bool_rel|..]
    |by apply Hmain].
  destruct k; try (rewrite (startsWith_not _ nl nr v Hl eq_refl I Hv); apply bool_rel). by apply Hmain.
Qed.

Lemma sub_arm x : filter_ok x = true ->
  post (v ← e depth x []; mret (exprCoalesceArm v)) (fun a => exists v, rel (j_value (judge x)) v /\ a = exprCoalesceArm v).
Proof. intros Hx. eapply post_then; [by apply sub_value|]. intros v Hv. apply post_ret. eauto. Qed.

Lemma step_coalesce x y : filter_ok x = true -> filter_ok y = true ->
  post (binary ev e c depth (go "??") x y []) (rel (coalesce (j_value (judge x)) (j_value (judge y)))).
Proof.
  intros Hx Hy.
  change (binary ev e c depth (go "??") x y []) with
    (coalesceSelect ((fun arm => v ← e depth arm []; mret (exprCoalesceArm v)) <$> [x; y])).
  cbn [fmap list_fmap coalesceSelect]. eapply post_then; [by apply sub_arm|]. intros a (v & Hv & ->).
  assert (Hfall : post (W := W) (v ← (v ← e depth y []; mret (exprCoalesceArm v)); mret (match v with XAbsent => XNil | _ => v end))
    (rel (match j_value (judge y) with pAbsent => pKnown XNil | _ => j_value (judge y) end))).
  { eapply post_then; [by apply sub_arm|]. intros a (v1 & Hv1 & ->). apply post_ret.
    pose proof (last_arm_rel _ v1 Hv1) as Hla. unfold last_arm in Hla. by destruct (exprCoalesceArm v1). }
  unfold coalesce. destruct (j_value (judge x)) as [k| |]; [|rewrite Hv; exact Hfall|done].
  destruct Hv as (nv & Hr & Hl). destruct (arm_known v nv k Hr Hl) as [-> ->]. destruct (loopBlank k); [exact Hfall|].
  apply post_ret. by exists nv.
Qed.

Lemma step_elems es : forallb filter_ok es = true ->
  post (eval_elems e depth es []) (elems_rel ((fun n => j_value (judge n)) <$> es)).
Proof.
  induction es as [|n es IHes]; cbn [forallb]; [intros _; apply post_ret; constructor|]. intros [Hn Hes]%andb_true_iff.
  cbn [eval_elems fmap list_fmap]. eapply post_then; [by apply sub_value|]. intros v Hv. eapply post_then; [by apply IHes|].
  intros vs Hvs. apply post_ret. destruct (j_value (judge n)) as [k| |] eqn:Ek.
  - destruct Hv as (nv & Hr & Hl). assert (exprResolveObject v = v /\ v <> XAbsent) as [-> Hna].
    { destruct Hr as [->|(z & -> & ->)]; [|done]. destruct Hl as (_ & Hd & _). by destruct nv. }
    assert (elems_rel (pKnown k :: ((fun n => j_value (judge n)) <$> es)) (v :: vs)) by (apply elems_keep; [done|by exists nv|done]).
    by destruct v.
  - rewrite Hv. by apply elems_drop.
  - assert (elems_rel (pUnknown why :: ((fun n => j_value (judge n)) <$> es)) vs) by (by apply elems_drop).
    assert (forall v, elems_rel (pUnknown why :: ((fun n => j_value (judge n)) <$> es)) (v :: vs)) by (intros v'; by apply elems_keep).
    by destruct (exprResolveObject v).
Qed.

(** The value of a binary node. *)
Lemma step_binary op x y : filter_ok (BinaryExpr op x y) = true ->
  post (binary ev e c depth op x y []) (rel (j_value (judge (BinaryExpr op x y)))).
Proof.
  intros [[Hx Hy]%andb_true_iff Hs]%andb_true_iff. cbn [LoopFilter.judge].
  destruct (op =s go "&&") eqn:E; [apply eqs_true in E as ->; by apply step_and|]. clear E.
  destruct (op =s go "||") eqn:E; [apply eqs_true in E as ->; by apply step_or|]. clear E.
  destruct (op =s go "==") eqn:E; [apply eqs_true in E as ->; by apply (step_equal false)|]. clear E.
  destruct (op =s go "!=") eqn:E; [apply eqs_true in E as ->; by apply (step_equal true)|]. clear E.
  destruct (order_of op) as [o|] eqn:E; [by apply step_order|]. clear E.
  destruct (op =s go "in") eqn:E; [apply eqs_true in E as ->; by apply step_in|]. clear E.
  destruct (op =s go "startsWith") eqn:E.
  { apply eqs_true in E as ->. apply step_startsWith; [done|done|]. by apply negb_true_iff in Hs. }
  destruct (op =s go "??") eqn:E'; [apply eqs_true in E' as ->; by apply step_coalesce|]. done.
Qed.

Lemma literal_rel v : load (normalizeLoopValue (literal_value v)) = true ->
  rel (pKnown (normalizeLoopValue (literal_value v))) (literal_value v).
Proof.
  intros Hv. exists (normalizeLoopValue (literal_value v)). split; [|by apply like_refl].
  destruct v; cbn; try (by left). right. eauto.
Qed.

(** One step of eval, and of evalCondition. *)
Lemma step_eval n : filter_ok n = true ->
  post (eval_body ev e c depth n []) (fun v => rel (j_value (judge n)) v
    /\ forall els, j_elems (judge n) = Some els -> exists vs, v = XList vs /\ elems_rel els vs).
Proof.
  intros Hn. assert (Hplain : j_elems (judge n) = None -> post (eval_body ev e c depth n []) (rel (j_value (judge n))) ->
    post (eval_body ev e c depth n []) (fun v => rel (j_value (judge n)) v
      /\ forall els, j_elems (judge n) = Some els -> exists vs, v = XList vs /\ elems_rel els vs)).
  { intros Hno Hm. eapply post_mono; [exact Hm|]. intros v Hv. split; [done|]. by rewrite Hno. }
  assert (Hcounted : forall P, post (eval_node ev e c depth n []) P -> post (eval_body ev e c depth n []) P).
  { intros P HP. eapply post_then; [apply post_any|]. by intros _ _. }
  destruct n as [|name|o field opt|r name kind as' named|op x|op x y|cn t fl|ps b|es|es|i|v| |fn];
    try (apply Hplain; [done|]; by intros st a st' _).
  - apply Hplain; [done|]. exact (eval_member (S f) depth (MemberExpr o field opt) I Hn).
  - apply Hplain; [cbn [LoopFilter.judge]; by case_match|]. apply Hcounted. cbn [eval_node LoopFilter.judge].
    destruct (op =s go "!") eqn:E; [|by intros st a st' _]. apply eqs_true in E as ->. by apply step_not.
  - apply Hplain; [cbn [LoopFilter.judge]; repeat (case_match; try done)|]. apply Hcounted. by apply step_binary.
  - apply Hcounted. cbn [eval_node]. eapply post_then; [by apply step_elems|]. intros vs Hvs. apply post_ret.
    split; [done|]. intros els [= <-]. eauto.
  - apply Hcounted. apply (IH depth i Hn).
  - apply Hplain; [done|]. apply Hcounted, post_ret. by apply literal_rel.
  - apply Hplain; [done|]. apply Hcounted, post_ret. by apply known_rel.
Qed.

Lemma step_cond n : filter_ok n = true -> post (cond_body ev e c depth n []) (agrees (j_cond (judge n)).1).
Proof.
  intros Hn. assert (Hvalue : post (v ← eval_body ev e c depth n []; condition ev v n []) (agrees (j_cond (judge n)).1)).
  { eapply post_then; [by apply step_eval|]. intros v [Hv _]. rewrite coherent. by apply condition_agrees. }
  destruct n; try exact Hvalue; [by intros st a st' _|]. cbn [cond_body].
  eapply post_then; [apply post_any|]. intros _ _. apply (IH depth n Hn).
Qed.
End Step.

(** What the load decides of a node, the run answers. *)
Lemma judge_sound fuel : sound fuel.
Proof.
  induction fuel as [|f IH]; intros depth n Hn; [by split|]. split; [by apply step_eval|by apply step_cond].
Qed.
End Run.
