(* ===== verification/TriggerFacts.v ===== *)
(** What a decided filter says of the events a write, or a publish, puts on the
    bus: an edge decideFilter drops never fires. *)

From Stdlib Require Import SpecFloat.
From S2P Require Import Prelude GoText GoSort Strconv Numbers ExprNumbers Times Values Ast Scope Eval Predicates Topics.
From S2P Require Import ValueFacts LoopFilter Triggers LoopFilterFacts.

(** ** Rows and events *)

Lemma map_get_set {A} (m : list (gostring * A)) k v j : map_get (map_set m k v) j = if j =s k then Some v else map_get m j.
Proof.
  induction m as [|[k' v'] m IH]; cbn; [done|]. destruct (k =s k') eqn:E; cbn.
  - apply eqs_true in E as ->. by destruct (j =s k').
  - rewrite IH. destruct (j =s k') eqn:E'; [|done]. apply eqs_true in E' as ->.
    destruct (k' =s k) eqn:E2; [|done]. apply eqs_true in E2 as ->. by rewrite eqs_refl in E.
Qed.

Lemma map_get_Copy src : forall dst f, NoDup (src.*1) ->
  map_get (maps_Copy dst src) f = match map_get src f with Some v => Some v | None => map_get dst f end.
Proof.
  induction src as [|[k v] src IH]; intros dst f Hnd; [done|]. inversion Hnd as [|? ? Hk Hsrc]; subst. cbn.
  change (fold_left _ src _) with (maps_Copy (map_set dst k v) src). rewrite IH, map_get_set by done.
  destruct (f =s k) eqn:E; [|done]. apply eqs_true in E as ->. destruct (map_get src k) as [x|] eqn:Ex; [|done].
  destruct Hk. apply map_get_Some_elem in Ex. apply list_elem_of_fmap. by exists (k, x).
Qed.

(** What the load knows of a row holds of a stored payload. *)
Record holds (row : knownRow) (stored : list (gostring * value)) : Prop := mkHolds {
  h_keys : NoDup (stored.*1);
  h_fields f k : k_Fields row !! f = Some k -> exists v, map_get stored f = Some v /\ like (normalizeLoopValue k) v;
  h_absent f : k_Fields row !! f = None -> f ∉ k_Unknown row -> f ∈ k_Absent row \/ k_OthersKnown row = true ->
    map_get stored f = None
}.

Lemma payload_rel row stored f : holds row stored -> rel (payloadField row f) (or_absent (map_get stored f)).
Proof.
  intros [_ Hf Ha]. unfold payloadField. destruct (k_Fields row !! f) as [k|] eqn:E.
  - destruct (Hf f k E) as (v & -> & Hl). exists v. split; [by left|done].
  - case_bool_decide; [done|]. destruct (bool_decide (f ∈ k_Absent row) || k_OthersKnown row) eqn:Eo; [|done].
    cbn. rewrite Ha; [done|done|done|]. apply orb_true_iff in Eo as [Eo|Eo]; [left; by apply bool_decide_eq_true in Eo|by right].
Qed.

Section Carry.
Context `{UnicodeTables, GoFmt}.

(** The events a known row's write, or its publish, can put on the bus. *)
Inductive carried (row : knownRow) (args : gset gostring) : trigger_event -> Prop :=
| carried_created now w :
    holds row (wr_Payload w) -> k_Concept row = wr_Concept w -> TrimSpace (wr_Concept w) = wr_Concept w -> wr_Concept w <> [] ->
    agrees (k_FirstVersion row) (negb (wr_priorExisted w)) -> (go "concept" ∈ args -> go "concept" ∉ k_Absent row) ->
    carried row args (created_event now w)
| carried_updated now w :
    holds row (wr_Payload w) -> k_Concept row = wr_Concept w -> TrimSpace (wr_Concept w) = wr_Concept w -> wr_Concept w <> [] ->
    k_FirstVersion row = triUnknown -> (go "concept" ∈ args -> go "concept" ∉ k_Absent row) ->
    carried row args (updated_event now w)
| carried_published now topic kind payload :
    holds row payload -> k_Concept row = [] -> HasPrefix topic (go "graph.node.") = false ->
    (forall b, k_FirstVersion row = triOf b -> k_Fields row !! go "firstVersion" = Some (XBool b)) ->
    (go "concept" ∈ args -> is_Some (k_Fields row !! go "concept") \/ go "concept" ∈ k_Unknown row \/ go "concept" ∈ k_Absent row) ->
    carried row args (published_event now topic kind payload).


Lemma row_field_rel row stored id type by' at' prov f : holds row stored -> TrimSpace f = f ->
  rel (rowField row f) (row_member id (k_Concept row) type by' at' prov stored f).
Proof.
  intros Hh Hf. pose proof (payload_rel row stored f Hh) as Hp. unfold rowField, row_member, resolveIntrinsicField. rewrite Hf.
  generalize dependent (ToLower f). intros l. cbv zeta.
  unfold filterRowIntrinsics, intrinsicFieldRegistry, memS. cbn [map_get existsb].
  destruct (l =s go "concept") eqn:Ec; [by apply known_rel|]. cbn [orb].
  repeat match goal with |- context [l =s go ?s] => destruct (l =s go s); [done|]; cbn [orb] end. exact Hp.
Qed.

(** *** The payload of an event *)

Definition envelope_keys : list gostring := go "concept" :: go "firstVersion" :: graphEventEnvelopeKeys.

Lemma event_keys f k : memS f envelope_keys = false -> memS k envelope_keys = true -> (f =s k) = false.
Proof. intros Hf Hk. apply eqs_false. intros ->. congruence. Qed.

Lemma created_lookup w f : NoDup ((wr_Payload w).*1) -> memS f envelope_keys = false ->
  map_get (created_payload w) f = map_get (wr_Payload w) f.
Proof.
  intros Hnd Hf. unfold created_payload. cbv zeta. rewrite !map_get_set, map_get_Copy by done. cbn [map_get].
  rewrite !(event_keys f) by done. by destruct (map_get (wr_Payload w) f).
Qed.

Lemma created_concept w : NoDup ((wr_Payload w).*1) ->
  map_get (created_payload w) (go "concept") = Some (default (XStr (wr_Concept w)) (map_get (wr_Payload w) (go "concept"))).
Proof.
  intros Hnd. unfold created_payload. cbv zeta. rewrite !map_get_set, map_get_Copy by done.
  by destruct (map_get (wr_Payload w) (go "concept")).
Qed.

Lemma created_version w : map_get (created_payload w) (go "firstVersion") = Some (XBool (negb (wr_priorExisted w))).
Proof. unfold created_payload. cbv zeta. by rewrite map_get_set. Qed.

Lemma created_stored w : map_get (created_payload w) (go "payload") = Some (XMap (wr_Payload w)).
Proof. unfold created_payload. cbv zeta. by rewrite !map_get_set. Qed.

Lemma updated_lookup w f : NoDup ((wr_Payload w).*1) -> memS f envelope_keys = false ->
  map_get (updated_payload w) f = map_get (wr_Payload w) f.
Proof.
  intros Hnd Hf. unfold updated_payload. cbv zeta.
  destruct (wr_actor w =s []), (wr_priorStatus w =s []); rewrite !map_get_set, map_get_Copy by done; cbn [map_get];
    rewrite !(event_keys f) by done; by destruct (map_get (wr_Payload w) f).
Qed.

Lemma updated_concept w : NoDup ((wr_Payload w).*1) ->
  map_get (updated_payload w) (go "concept") = Some (default (XStr (wr_Concept w)) (map_get (wr_Payload w) (go "concept"))).
Proof.
  intros Hnd. unfold updated_payload. cbv zeta.
  destruct (wr_actor w =s []), (wr_priorStatus w =s []); rewrite !map_get_set, map_get_Copy by done;
    by destruct (map_get (wr_Payload w) (go "concept")).
Qed.

Lemma updated_stored w : map_get (updated_payload w) (go "payload") = Some (XMap (wr_Payload w)).
Proof.
  unfold updated_payload. cbv zeta. destruct (wr_actor w =s []), (wr_priorStatus w =s []); by rewrite !map_get_set.
Qed.

Lemma graph_topic base c : base = TopicGraphNodeCreated \/ base = TopicGraphNodeUpdated -> TrimSpace c = c -> c <> [] ->
  HasPrefix (BuildTopicWithConcept base c) (go "graph.node.") = true /\ fourth_segment (BuildTopicWithConcept base c) = Some c.
Proof.
  intros Hb Ht Hc. unfold BuildTopicWithConcept. cbv zeta. rewrite Ht. destruct (c =s []) eqn:E; [by apply eqs_true in E|].
  by destruct Hb as [-> | ->].
Qed.

(** The row of a trigger. *)
Lemma trigger_row row args event : carried row args event -> exists id type by' at' prov stored,
  TriggerRow event = XRow id (k_Concept row) type by' at' prov stored /\ holds row stored.
Proof.
  destruct 1 as [now w Hh Hc Ht Hne _ _|now w Hh Hc Ht Hne _ _|now topic kind payload Hh Hc Htopic _ _]; unfold TriggerRow; cbv zeta.
  - cbn [te_Payload te_Topic created_event]. rewrite created_stored. destruct (graph_topic TopicGraphNodeCreated (wr_Concept w)) as [-> ->]; [auto..|].
    cbn [first_text omap list_omap id]. rewrite Hc. eauto 10.
  - cbn [te_Payload te_Topic updated_event]. rewrite updated_stored. destruct (graph_topic TopicGraphNodeUpdated (wr_Concept w)) as [-> ->]; [auto..|].
    cbn [first_text omap list_omap id]. rewrite Hc. eauto 10.
  - cbn [te_Payload te_Topic published_event]. rewrite Htopic, Hc. destruct (map_get payload (go "payload")) as [[]|]; eauto 10.
Qed.

(** The args of a trigger. *)
Lemma first_version_arg row args event : carried row args event ->
  rel (match k_FirstVersion row with
       | triTrue => pKnown (XBool true)
       | triFalse => pKnown (XBool false)
       | triUnknown => pUnknown (WhyField (go "firstVersion"))
       end) (or_absent (map_get (te_Payload event) (go "firstVersion"))).
Proof.
  destruct 1 as [now w Hh _ _ _ Hv _|now w Hh _ _ _ Hv _|now topic kind payload Hh _ _ Hv _].
  - cbn [te_Payload created_event]. rewrite created_version. destruct (k_FirstVersion row); cbn in Hv; [rewrite Hv; apply bool_rel..|done].
  - by rewrite Hv.
  - cbn [te_Payload published_event].
    assert (Hk : forall b, k_FirstVersion row = triOf b -> rel (pKnown (XBool b)) (or_absent (map_get payload (go "firstVersion")))).
    { intros b Hb. destruct (h_fields _ _ Hh _ _ (Hv b Hb)) as (v & -> & Hl). exists v. split; [by left|done]. }
    destruct (k_FirstVersion row); [by apply Hk..|done].
Qed.

Lemma concept_arg row args event : carried row args event -> go "concept" ∈ args ->
  rel (if bool_decide (is_Some (k_Fields row !! go "concept")) || bool_decide (go "concept" ∈ k_Unknown row)
          || bool_decide (go "concept" ∈ k_Absent row) then payloadField row (go "concept")
       else if k_OthersKnown row then pKnown (XStr (k_Concept row)) else pUnknown (WhyField (go "concept")))
    (or_absent (map_get (te_Payload event) (go "concept"))).
Proof.
  intros Hcar Hin. assert (Hgraph : forall payload stored, holds row stored -> go "concept" ∉ k_Absent row ->
    map_get payload (go "concept") = Some (default (XStr (k_Concept row)) (map_get stored (go "concept"))) ->
    rel (if bool_decide (is_Some (k_Fields row !! go "concept")) || bool_decide (go "concept" ∈ k_Unknown row)
            || bool_decide (go "concept" ∈ k_Absent row) then payloadField row (go "concept")
         else if k_OthersKnown row then pKnown (XStr (k_Concept row)) else pUnknown (WhyField (go "concept")))
      (or_absent (map_get payload (go "concept")))).
  { intros payload stored Hh Hna ->. pose proof (payload_rel row stored (go "concept") Hh) as Hp. unfold payloadField in *.
    destruct (k_Fields row !! go "concept") as [k|] eqn:Ek.
    - destruct (h_fields _ _ Hh _ _ Ek) as (v & Hv & _). by rewrite Hv in *.
    - rewrite (bool_decide_eq_false_2 (is_Some None)) by (by intros [? ?]). cbn [orb]. rewrite (bool_decide_eq_false_2 _ Hna).
      case_bool_decide as Hu; [done|]. cbn [orb]. destruct (k_OthersKnown row) eqn:Eo; [|done].
      rewrite (h_absent _ _ Hh) by (done || by right). by apply known_rel. }
  destruct Hcar as [now w Hh Hc _ _ _ Hna|now w Hh Hc _ _ _ Hna|now topic kind payload Hh _ _ _ Hset].
  - apply (Hgraph _ (wr_Payload w)); [done|by apply Hna|]. rewrite Hc. apply created_concept, Hh.
  - apply (Hgraph _ (wr_Payload w)); [done|by apply Hna|]. rewrite Hc. apply updated_concept, Hh.
  - pose proof (payload_rel row payload (go "concept") Hh) as Hp.
    destruct (Hset Hin) as [Hs|[Hs|Hs]]; rewrite (bool_decide_eq_true_2 _ Hs), ?orb_true_r; exact Hp.
Qed.

Lemma event_arg row args event f : carried row args event -> f ∈ args ->
  rel (argField row args f) (or_absent (map_get (te_Payload event) f)).
Proof.
  intros Hcar Hf. unfold argField. rewrite bool_decide_eq_true_2 by done. cbn [negb].
  destruct (f =s go "firstVersion") eqn:E1; [apply eqs_true in E1 as ->; by apply (first_version_arg row args)|].
  destruct (f =s go "concept") eqn:E2; [apply eqs_true in E2 as ->; by apply (concept_arg row args)|].
  destruct (memS f graphEventEnvelopeKeys) eqn:E3; [done|].
  assert (Hk : memS f envelope_keys = false) by (change ((f =s go "concept") || ((f =s go "firstVersion") || memS f graphEventEnvelopeKeys) = false); by rewrite E1, E2, E3).
  destruct Hcar as [now w Hh _ _ _ _ _|now w Hh _ _ _ _ _|now topic kind payload Hh _ _ _ _]; cbn [te_Payload created_event updated_event published_event].
  - rewrite created_lookup by (done || apply Hh). by apply payload_rel.
  - rewrite updated_lookup by (done || apply Hh). by apply payload_rel.
  - by apply payload_rel.
Qed.
End Carry.

(** *** Bound args *)

Section Bound.
Context `{UnicodeTables, GoRegexp}.

Lemma bind_lookup payload fields : forall bound out f, bind_fields payload fields bound = Ok out ->
  map_get out f = if bool_decide (f ∈ declaredArgs fields)
                  then match map_get payload f with Some v => Some v | None => map_get bound f end else map_get bound f.
Proof.
  unfold declaredArgs. induction fields as [|a fields IH]; intros bound out f; cbn [bind_fields].
  { intros [= <-]. by rewrite bool_decide_eq_false_2 by (cbn; set_solver). }
  cbn [fmap list_fmap List.filter]. destruct (TrimSpace (af_Name a) =s []) eqn:Eb; cbn [negb]; [apply IH|].
  destruct (validateAutomationArg payload a); [done|]. intros Hb. rewrite (IH _ _ f Hb). cbn [list_to_set].
  set (D := list_to_set _ : gset gostring). destruct (f =s af_Name a) eqn:Ef.
  - apply eqs_true in Ef as ->. rewrite (bool_decide_eq_true_2 (af_Name a ∈ {[af_Name a]} ∪ D)) by set_solver.
    destruct (map_get payload (af_Name a)) as [v|]; [rewrite map_get_set, eqs_refl|]; by case_bool_decide.
  - apply eqs_false in Ef as Hne. rewrite (bool_decide_ext (f ∈ {[af_Name a]} ∪ D) (f ∈ D)) by set_solver.
    assert (Hset : forall v, map_get (map_set bound (af_Name a) v) f = map_get bound f) by (intros v; by rewrite map_get_set, Ef).
    destruct (map_get payload (af_Name a)); [rewrite Hset|]; done.
Qed.

(** What args reads, bound or not. *)
Lemma args_member fields event bound f v : bindEventArgs fields event = Ok bound ->
  exprMember (match bound with Some b => XMap b | None => XAbsent end) f = Ok v ->
  v = if bool_decide (f ∈ declaredArgs fields) then or_absent (map_get (te_Payload event) f) else XAbsent.
Proof.
  intros Hb. unfold bindEventArgs in Hb. destruct fields as [|a fields].
  - injection Hb as <-. intros [= <-]. by rewrite bool_decide_eq_false_2 by (cbn; set_solver).
  - destruct (bind_fields (te_Payload event) (a :: fields) []) as [out|] eqn:E; [|done]. injection Hb as <-. intros [= <-].
    rewrite (bind_lookup _ _ _ _ f E). case_bool_decide; [|done]. by destruct (map_get _ f).
Qed.
End Bound.

(** ** Decisions and firings *)

Section Fires.
Context `{UnicodeTables, GoFmt, GoRegexp} {W : Type} (ctx : Z -> bool) (clock : Z) (opts : EvalOptions W) (w : W).
Context (fields : list ArgsField) (param : gostring) (body : expr) (row : knownRow) (event : trigger_event).
Context (Hcarried : carried row (declaredArgs fields) event).
Context (Hok : filter_ok param row (declaredArgs fields) body = true).

Abbreviation filter := (Some ([param], body)).

Lemma decision_agrees bound b : bindEventArgs fields event = Ok bound ->
  evaluateTriggerFilter ctx clock opts w filter event bound = Ok b -> agrees (decideFilter filter row (declaredArgs fields)).1 b.
Proof.
  intros Hb. unfold evaluateTriggerFilter, EvalCondition. set (root := filter_scope _ event bound param). intros Hev.
  destruct (trigger_row _ _ _ Hcarried) as (id & type & by' & at' & prov & stored & Hrow & Hh).
  pose proof (judge_sound (newExprEvaluator ctx clock root opts) param row (declaredArgs fields) (TriggerRow event)
    (match bound with Some x => XMap x | None => XAbsent end)) as Hs.
  assert (Hs' : sound (newExprEvaluator ctx clock root opts) param row (declaredArgs fields) (ev_fuel (newExprEvaluator ctx clock root opts))).
  { apply Hs.
    - cbn. unfold root, filter_scope, bind_Lookup. by rewrite eqs_refl.
    - intros f v Hf Hv. rewrite Hrow in Hv. injection Hv as <-. by apply row_field_rel.
    - intros Hne. cbn [ev_root newExprEvaluator]. unfold root, filter_scope, bind_Lookup.
      destruct (go "args" =s param) eqn:E; [by apply eqs_true in E|]. destruct bound; reflexivity.
    - intros f v Hv. rewrite (args_member fields event bound f v Hb Hv). case_bool_decide as Hf; [by apply event_arg|].
      unfold argField. by rewrite bool_decide_eq_false_2. }
  destruct (Hs' 0%nat body Hok) as [_ Hc]. unfold evalCondition in Hev.
  destruct (cond_fuel _ _ _ _ _ _) as [[b'|] st'] eqn:E; [|done]. cbn in Hev. injection Hev as ->. exact (Hc _ _ _ E).
Qed.

Lemma dropped_never_fires : (decideFilter filter row (declaredArgs fields)).1 = triFalse ->
  fires ctx clock opts w fields filter event = false.
Proof.
  intros Hd. unfold fires. destruct (bindEventArgs fields event) as [bound|] eqn:Hb; [|done].
  destruct (evaluateTriggerFilter ctx clock opts w filter event bound) as [b|] eqn:E; [|done].
  pose proof (decision_agrees bound b Hb E) as Ha. by rewrite Hd in Ha.
Qed.
End Fires.


(** *** A concrete write *)

Definition no_regexp : GoRegexp := {| regexp_Compile := fun _ => None |}.

Definition of_row (f : string) : expr := MemberExpr (IdentExpr (go "row")) (go f) false.
Definition of_args (f : string) : expr := MemberExpr (IdentExpr (go "args")) (go f) false.
Definition text_lit (s : string) : expr := LiteralExpr (VString (go s)).

(** An order written done, with a count the store hands back as a float. *)
Definition order_row : knownRow :=
  mkKnown (go "v1:shop:order") {[go "status" := XStr (go "done"); go "count" := XInt 3]} ∅ true triTrue ∅.
Definition order_written : written :=
  mkWritten (go "v1:shop:order:a1") (go "order") (go "v1:shop:order")
    [(go "status", XStr (go "done")); (go "count", XFloat (f64_of_Z 3))] 0 false [] (go "u1").
Definition order_args : list ArgsField :=
  [mkArgsField (go "firstVersion") (go "bool") false [] 0 []; mkArgsField (go "count") (go "number") false [] 0 []].
(** row => args.firstVersion && args.count == 3 && row.status != "done" *)
Definition order_filter : expr :=
  BinaryExpr (go "&&") (BinaryExpr (go "&&") (of_args "firstVersion") (BinaryExpr (go "==") (of_args "count") (LiteralExpr (VInt64 3))))
    (BinaryExpr (go "!=") (of_row "status") (text_lit "done")).

Lemma order_carried : carried order_row (declaredArgs order_args) (created_event 5 order_written).
Proof.
  apply carried_created; try done. split.
  - by apply (bool_decide_eq_true_1 _); vm_compute.
  - intros f k Hf. change (k_Fields order_row) with (<[go "status" := XStr (go "done")]> ({[go "count" := XInt 3]} : gmap gostring value)) in Hf.
    apply lookup_insert_Some in Hf as [[<- <-]|[_ Hf]]; [|apply lookup_singleton_Some in Hf as [<- <-]].
    + exists (XStr (go "done")). by vm_compute.
    + exists (XFloat (f64_of_Z 3)). by vm_compute.
  - intros f Hf _ _. assert (f <> go "status" /\ f <> go "count") as [H1 H2] by (split; intros ->; by vm_compute in Hf).
    apply eqs_false in H1, H2. cbn [order_written wr_Payload map_get]. by rewrite H1, H2.
Qed.


(** ** Where the load and the run differ *)

(** The load decides the filter false and the event fires it. *)
Definition missed (fields : list ArgsField) (body : expr) (row : knownRow) (event : trigger_event) : bool :=
  bool_decide ((@decideFilter latin1_tables (Some ([go "row"], body)) row (declaredArgs fields)).1 = triFalse)
  && @fires latin1_tables plain_fmt no_regexp unit (fun _ => false) 0 no_hooks tt fields (Some ([go "row"], body)) event.

Definition optional_arg (name : string) : ArgsField := mkArgsField (go name) [] true [] 0 [].

Definition new_order (payload : list (gostring * value)) : trigger_event :=
  created_event 5 (mkWritten (go "v1:shop:order:a1") (go "order") (go "v1:shop:order") payload 0 false [] []).

Definition order_fields (fields : gmap gostring value) (absent : gset gostring) : knownRow :=
  mkKnown (go "v1:shop:order") fields absent true triTrue ∅.

(** row.n != 2^53 + 1, where the write sets 2^53 + 1. *)
Definition big : Z := 9007199254740993.

