(* ===== verification/LoopGraph.v ===== *)
(** The static graph over automations, their writes and their triggers:
    component/automations/loop_graph.go, loop_graph_before_write.go,
    problemThrough of loop_graph_report.go, and the parts of types.go they read.

    An edge keeps what its reason is printed from, not the sentence; so two
    problems of one automation, origin and code stay in the order they were
    found.  A list of steps holds no nil step. *)

From stdpp Require Import relations.
From S2P Require Import Prelude GoText GoSort Strconv Numbers ExprNumbers Values CallGraph Ast Scope Eval Predicates.
From S2P Require Import Lexer Parser Topics Scc LoopFilter Triggers.

(** ** Automations *)

(** A step's value: plain JSON, an expression leaf, or a container. *)
Inductive arg_value : Type :=
| AValue (v : value)
| ALeaf (n : option expr)
| AMap (m : list (gostring * arg_value))
| AList (l : list arg_value).

Record EventStepConfig := mkEventStep {
  es_exprTopic : option expr;                    (* Exprs.Topic *)
  es_topicLeaf : bool;                           (* leaves has the topic *)
  es_Topic : gostring;
  es_Payload : list (gostring * arg_value)
}.

Inductive Step : Type := mkStep {
  s_Type : gostring;
  s_Function : option (gostring * list (gostring * arg_value));
  s_Automation : option gostring;
  s_Event : option EventStepConfig;
  s_Action : option gostring;
  s_ForEach : option (list Step);
  s_Parallel : option (list Step);
  s_Block : option (list Step);
  s_FieldWrite : option gostring
}.

Record TriggerConfig := mkTrigger {
  tr_Event : gostring;
  tr_Filter : gostring;
  tr_FilterLambda : option (list gostring * expr)
}.

Record LoopConfig := mkLoopConfig {
  lc_MaxDepth : Z;
  lc_Until : gostring
}.

Record BeforeWriteConfig := mkBeforeWrite {
  bw_On : gostring;
  bw_Concept : gostring;
  bw_Filter : gostring
}.

Record Automation := mkAutomation {
  a_Name : gostring;
  a_Origin : gostring;
  a_Enabled : option bool;
  a_Template : bool;
  a_Schedule : gostring;
  a_Trigger : option TriggerConfig;
  a_Args : list ArgsField;
  a_Steps : list Step;
  a_Loop : option LoopConfig;
  a_BeforeWrite : option BeforeWriteConfig
}.

Definition IsEnabled (a : Automation) : bool := default true (a_Enabled a).

Definition IsEventTriggered (a : Automation) : bool :=
  match a_Trigger a with Some t => negb (tr_Event t =s []) | None => false end.

(** ** Step facts *)

Record graphPublish := mkPublish { gp_topic : gostring; gp_payload : list (gostring * arg_value) }.

Record stepFacts := mkFacts {
  sf_calls : list (gostring * list (gostring * arg_value));
  sf_subs : list gostring;
  sf_publishes : list graphPublish;
  sf_opaque : list gostring
}.

Definition no_facts : stepFacts := mkFacts [] [] [] [].

Definition facts_app (f g : stepFacts) : stepFacts :=
  mkFacts (sf_calls f ++ sf_calls g) (sf_subs f ++ sf_subs g) (sf_publishes f ++ sf_publishes g)
    (sf_opaque f ++ sf_opaque g).

Definition eventPublishOf (e : EventStepConfig) : graphPublish :=
  mkPublish
    (match es_exprTopic e with
     | Some n => match Unparen n with LiteralExpr (VString topic) => topic | _ => [] end
     | None => if es_topicLeaf e then [] else es_Topic e
     end) (es_Payload e).

Fixpoint visit (s : Step) : stepFacts :=
  let walk (steps : list Step) := fold_right (fun s f => facts_app (visit s) f) no_facts steps in
  match s with
  | mkStep _ (Some (name, args)) _ _ _ _ _ _ _ => mkFacts [(name, args)] [] [] []
  | mkStep _ None (Some name) _ _ _ _ _ _ => mkFacts [] [name] [] []
  | mkStep _ None None (Some e) _ _ _ _ _ => mkFacts [] [] [eventPublishOf e] []
  | mkStep _ None None None (Some ref) _ _ _ _ => mkFacts [] [] [] [go "action " ++ ref]
  | mkStep _ None None None None (Some body) _ _ _ => walk body
  | mkStep _ None None None None None (Some branches) _ _ => walk branches
  | mkStep _ None None None None None None (Some steps) _ => walk steps
  | _ => no_facts
  end.

Definition collectStepFacts (a : Automation) : stepFacts :=
  fold_right (fun s f => facts_app (visit s) f) no_facts (a_Steps a).

(** ** Literals *)

Definition exprLeafKey : gostring := go "$expr".

Definition exprLeafSource (m : list (gostring * arg_value)) : option gostring :=
  match m with
  | [(k, AValue (XStr src))] => if k =s exprLeafKey then Some src else None
  | _ => None
  end.

Definition leaf_literal (n : expr) : option value :=
  match Unparen n with
  | LiteralExpr v => Some (normalizeLoopValue (literal_value v))
  | NilExpr => Some XNil
  | _ => None
  end.

Section Graph.
Context `{UnicodeTables}.

Fixpoint literalArg (v : arg_value) : option value :=
  match v with
  | ALeaf None => Some XNil
  | ALeaf (Some n) => leaf_literal n
  | AMap m =>
      match exprLeafSource m with
      | Some src => match ParseV1Expression src with Ok n => leaf_literal n | Err _ => None end
      | None => XMap <$> mapM (fun kv => pair kv.1 <$> literalArg kv.2) m
      end
  | AList l => XList <$> mapM literalArg l
  | AValue v => Some (normalizeLoopValue v)
  end.

(** ** Productions *)

Record production := mkProduction {
  p_kind : gostring;
  p_concept : gostring;
  p_topic : gostring;
  p_via : list gostring;
  p_row : knownRow
}.

Definition MutationKindInsert : gostring := go "insert".
Definition MutationKindUpdate : gostring := go "update".
Definition kindPublish : gostring := go "publish".

(** What a template puts in one field. *)
Inductive field_known : Type := FieldIs (v : value) | FieldAbsent | FieldUnknown.

Definition write_field (newRow direct : bool) (args : list (gostring * arg_value)) (fv : FieldValue) : field_known :=
  if HasLiteral fv then FieldIs (Literal fv)
  else if negb (Arg fv =s []) && direct then
    match map_get args (Arg fv) with
    | None => if newRow then FieldAbsent else FieldUnknown
    | Some a => match literalArg a with Some v => FieldIs v | None => FieldUnknown end
    end
  else FieldUnknown.

Definition add_field (row : knownRow) (f : gostring) (k : field_known) : knownRow :=
  match k with
  | FieldIs v =>
      mkKnown (k_Concept row) (<[f := v]> (k_Fields row)) (k_Absent row) (k_OthersKnown row) (k_FirstVersion row) (k_Unknown row)
  | FieldAbsent =>
      mkKnown (k_Concept row) (k_Fields row) ({[f]} ∪ k_Absent row) (k_OthersKnown row) (k_FirstVersion row) (k_Unknown row)
  | FieldUnknown =>
      mkKnown (k_Concept row) (k_Fields row) (k_Absent row) (k_OthersKnown row) (k_FirstVersion row) ({[f]} ∪ k_Unknown row)
  end.

Definition first_version (spec : WriteSpec) (newRow updatedTopic : bool) : tri :=
  if updatedTopic || negb ((ws_Kind spec =s MutationKindInsert) || (ws_Kind spec =s MutationKindUpdate)) then triUnknown
  else if ws_Kind spec =s MutationKindUpdate then triFalse
  else if newRow then triTrue
  else triUnknown.

Definition is_new_row (spec : WriteSpec) : bool := (ws_Kind spec =s MutationKindInsert) && NewRow spec.

Definition writeRow (w : Write) (args : list (gostring * arg_value)) (updatedTopic : bool) : knownRow :=
  let spec := w_Spec w in
  let direct := (length (w_Path w) =? 1)%nat in
  let newRow := is_new_row spec in
  fold_left (fun row fv => add_field row fv.1 (write_field newRow direct args fv.2)) (Fields spec)
    (mkKnown (w_Concept w) ∅ ∅ newRow (first_version spec newRow updatedTopic) ∅).

Definition writeProductions (w : Write) (args : list (gostring * arg_value)) (via : list gostring) : list production :=
  (fun topic => mkProduction (ws_Kind (w_Spec w)) (w_Concept w) topic via
     (writeRow w args (HasPrefix topic (TopicGraphNodeUpdated ++ dot))))
  <$> BuildTopicWithConcept TopicGraphNodeCreated (w_Concept w)
      :: (if ws_Kind (w_Spec w) =s MutationKindInsert then [] else [BuildTopicWithConcept TopicGraphNodeUpdated (w_Concept w)]).

Definition publish_field (v : arg_value) : field_known :=
  match literalArg v with Some lit => FieldIs lit | None => FieldUnknown end.

Definition publishProduction (p : graphPublish) (via : list gostring) : production :=
  let row := fold_left (fun row kv => add_field row kv.1 (publish_field kv.2)) (gp_payload p) (mkKnown [] ∅ ∅ true triUnknown ∅) in
  let first := match k_Fields row !! go "firstVersion" with Some (XBool b) => triOf b | _ => triUnknown end in
  mkProduction kindPublish [] (gp_topic p) via
    (mkKnown (k_Concept row) (k_Fields row) (k_Absent row) (k_OthersKnown row) first (k_Unknown row)).

(** What the steps of one automation publish, reached through [prefix]. *)
Definition ownProductions (reg : Registry) (f : stepFacts) (prefix : list gostring) : list production :=
  concat ((fun c => concat ((fun w => writeProductions w c.2 (prefix ++ w_Path w)) <$> UnionWrites [c.1] reg)) <$> sf_calls f)
  ++ ((fun p => publishProduction p prefix) <$> sf_publishes f).

(** *** Before-write hooks *)

(** The fields a hook body assigns; [None] for one that names none. *)
Fixpoint field_writes (s : Step) : list (option gostring) :=
  let walk (steps : option (list Step)) :=
    match steps with Some l => fold_right (fun s out => field_writes s ++ out) [] l | None => [] end in
  match s with
  | mkStep type _ _ _ _ forEach parallel block field =>
      (if type =s go "fieldWrite" then
         [match field with Some f => if f =s [] then None else Some f | None => None end]
       else []) ++ walk block ++ walk forEach ++ walk parallel
  end.

Definition hook_applies (p : production) (a : Automation) : bool :=
  match a_BeforeWrite a with
  | None => false
  | Some hook =>
      (bw_Concept hook =s p_concept p)
      && negb ((bw_On hook =s go "create") && (p_kind p =s MutationKindUpdate))
      && negb ((bw_On hook =s go "update") && (p_kind p =s MutationKindInsert)
               && bool_decide (k_FirstVersion (p_row p) = triTrue))
  end.

Definition hook_writes (nodes : list Automation) (p : production) : list (option gostring) :=
  concat ((fun a => concat (field_writes <$> a_Steps a)) <$> List.filter (hook_applies p) nodes).

Definition invalidateBeforeWriteFields (nodes : list Automation) (p : production) : production :=
  if (p_kind p =s kindPublish) || (p_concept p =s []) then p
  else
    let row := p_row p in
    let writes := hook_writes nodes p in
    let all := existsb (fun w => match w with None => true | Some _ => false end) writes in
    let changed : gset gostring :=
      list_to_set (omap id writes) ∪ (if all then dom (k_Fields row) ∪ k_Absent row else ∅) in
    mkProduction (p_kind p) (p_concept p) (p_topic p) (p_via p)
      (mkKnown (k_Concept row) (filter (fun kv => kv.1 ∉ changed) (k_Fields row)) (k_Absent row ∖ changed)
         (if all then false else k_OthersKnown row) (k_FirstVersion row) (changed ∪ k_Unknown row)).

(** *** Sub-automations *)

(** The automations entered, and the calls that lead to each. *)
Definition walk_state : Type := list nat * list (nat * list gostring).

(** Each is entered once: a level for every automation is enough. *)
Fixpoint sub_walk (subs : nat -> list gostring) (byName : gmap gostring nat) (fuel : nat) (j : nat) (path : list gostring)
    (st : walk_state) : option walk_state :=
  match fuel with
  | O => None
  | S f =>
      fold_left (fun acc name =>
        st ← acc;
        match byName !! name with
        | None => Some st
        | Some k =>
            if memn k st.1 then Some st
            else sub_walk subs byName f k (path ++ [name]) (k :: st.1, st.2 ++ [(k, path ++ [name])])
        end) (subs j) (Some st)
  end.

Definition prod_ltb (p q : production) : bool :=
  if negb (p_topic p =s p_topic q) then str_ltb (p_topic p) (p_topic q)
  else if negb (p_concept p =s p_concept q) then str_ltb (p_concept p) (p_concept q)
  else if negb (p_kind p =s p_kind q) then str_ltb (p_kind p) (p_kind q)
  else str_ltb (Join (p_via p) [0]) (Join (p_via q) [0]).

Record graphBuilder := mkBuilder {
  b_reg : Registry;
  b_nodes : list Automation;
  b_byName : gmap gostring nat
}.

Definition facts_at (b : graphBuilder) (i : nat) : stepFacts :=
  match b_nodes b !! i with Some a => collectStepFacts a | None => no_facts end.

(** Automation [i] and those it calls, in the order they are entered. *)
Definition entered_from (b : graphBuilder) (i : nat) : list (nat * list gostring) :=
  match sub_walk (fun j => sf_subs (facts_at b j)) (b_byName b) (S (length (b_nodes b))) i [] ([i], [(i, [])]) with
  | Some st => st.2
  | None => []
  end.

Definition productions (b : graphBuilder) (i : nat) : list production :=
  match a_BeforeWrite <$> b_nodes b !! i with
  | Some None =>
      sort_stable prod_ltb (invalidateBeforeWriteFields (b_nodes b) <$>
        concat ((fun kv => ownProductions (b_reg b) (facts_at b kv.1) kv.2) <$> entered_from b i))
  | _ => []
  end.

(** ** What a node reports *)

Definition enter_builtin (n : gostring) (t : Target) (path : list gostring) (out : list gostring) : list gostring :=
  match ConstructKind t with ConstructBuiltin => out ++ [go "builtin " ++ n] | _ => out end.

Definition reachedBuiltins (reg : Registry) (name : gostring) : list gostring :=
  walked (walk enter_builtin (fun _ => false) reg (walk_fuel reg) [] name (∅, [])) [].

(** Calls resolved, unresolved and opaque. *)
Record GraphCoverage := mkCoverage { cov_Resolved : nat; cov_Unresolved : nat; cov_Opaque : nat }.

Definition count {A} (f : A -> bool) (l : list A) : nat := length (List.filter f l).

Definition coverage_of (b : graphBuilder) (i : nat) : GraphCoverage :=
  let f := facts_at b i in
  let target c := ConstructKind <$> b_reg b !! c.1 in
  let builtin c := bool_decide (target c = Some ConstructBuiltin) in
  let resolved c := bool_decide (is_Some (target c)) && negb (builtin c) in
  let sub name := bool_decide (is_Some (b_byName b !! name)) in
  mkCoverage (count resolved (sf_calls f) + count sub (sf_subs f))
    (count (fun c => bool_decide (target c = None)) (sf_calls f) + count (fun n => negb (sub n)) (sf_subs f))
    (count builtin (sf_calls f) + length (sf_opaque f)).

Definition coverage_add (c d : GraphCoverage) : GraphCoverage :=
  mkCoverage (cov_Resolved c + cov_Resolved d) (cov_Unresolved c + cov_Unresolved d) (cov_Opaque c + cov_Opaque d).

Definition topicKnownAtRunTime : gostring := go "(expression)".

(** The writes, the publishes and the opaque calls of an automation and of those it
    calls. *)
Definition node_reports (b : graphBuilder) (i : nat) : list gostring * list gostring * list gostring :=
  let facts := (fun kv => facts_at b kv.1) <$> entered_from b i in
  let callNames := concat ((fun f => fst <$> sf_calls f) <$> facts) in
  let publishes := (fun p => if gp_topic p =s [] then topicKnownAtRunTime else gp_topic p) <$> concat (sf_publishes <$> facts) in
  let opaque := concat ((fun f => concat (reachedBuiltins (b_reg b) <$> (fst <$> sf_calls f)) ++ sf_opaque f) <$> facts) in
  (sortedUnique (Concepts (UnionFootprint callNames (b_reg b))), sortedUnique publishes, sortedUnique opaque).

(** ** Edges *)

Definition triggerFilterLambda (a : Automation) : result unit (option (list gostring * expr)) :=
  match a_Trigger a with
  | None => Ok None
  | Some t =>
      if TrimSpace (tr_Filter t) =s [] then Ok None
      else match tr_FilterLambda t with
           | Some lam => Ok (Some lam)
           | None => match ParseV1Lambda (tr_Filter t) with Ok lam => Ok (Some lam) | Err _ => Err tt end
           end
  end.

Definition pattern_of (a : Automation) : gostring := match a_Trigger a with Some t => tr_Event t | None => [] end.

Definition topic_matches (pattern : gostring) (p : production) : bool :=
  if negb (p_topic p =s []) then Match pattern (p_topic p)
  else (p_kind p =s kindPublish) && negb (HasPrefix pattern (go "graph.")).

(** Whether a production that matches fires [to]. *)
Definition filter_answer (to : Automation) (p : production) : tri :=
  match triggerFilterLambda to with
  | Err _ => triUnknown
  | Ok None => triTrue
  | Ok filter => (decideFilter filter (p_row p) (declaredArgs (a_Args to))).1
  end.

Record GraphEdge := mkEdge {
  ge_From : gostring;
  ge_To : gostring;
  ge_Concept : gostring;
  ge_Topic : gostring;
  ge_Via : list gostring;
  ge_Decided : bool
}.

(** The production an edge reports, and whether it is decided. *)
Fixpoint best_production (to : Automation) (prods : list production) (best : option (production * bool))
    : option (production * bool) :=
  match prods with
  | [] => best
  | p :: prods' =>
      if negb (topic_matches (pattern_of to) p) then best_production to prods' best
      else
        let t := filter_answer to p in
        if bool_decide (t = triFalse) then best_production to prods' best
        else
          let decided := bool_decide (t = triTrue) && negb (p_topic p =s []) in
          match best with
          | None => if decided then Some (p, decided) else best_production to prods' (Some (p, decided))
          | Some _ => if decided then Some (p, decided) else best_production to prods' best
          end
  end.

Definition graph_edge (from to : Automation) (prods : list production) : option GraphEdge :=
  (fun pd => mkEdge (a_Name from) (a_Name to) (p_concept pd.1) (p_topic pd.1) (p_via pd.1) pd.2)
  <$> best_production to prods None.

(** ** BuildLoopGraph *)

Inductive problem_code : Type := codeLoopCycle | codeLoopMaxDepthRange.

Definition code_text (c : problem_code) : gostring :=
  match c with codeLoopCycle => go "loop_cycle" | codeLoopMaxDepthRange => go "loop_max_depth_range" end.

Record LoopProblem := mkProblem {
  lp_Automation : gostring;
  lp_Origin : gostring;
  lp_Code : problem_code;
  lp_Path : list nat                             (* the cycle its message prints *)
}.

Record GraphCycle := mkCycle { gc_Members : list gostring; gc_PermittedBy : list gostring; gc_Path : list gostring }.

Record LoopGraph := mkGraph {
  g_nodes : list Automation;
  g_Reports : list (list gostring * list gostring * list gostring);
  g_Coverage : GraphCoverage;
  g_Edges : list (nat * nat * GraphEdge);
  g_succ : list (list nat);
  g_comps : list (list nat);
  g_comp : list nat;
  g_Stratum : list Z;
  g_Cycles : list GraphCycle;
  g_Problems : list LoopProblem
}.

Definition node_ltb (a b : Automation) : bool :=
  if negb (a_Name a =s a_Name b) then str_ltb (a_Name a) (a_Name b) else str_ltb (a_Origin a) (a_Origin b).

Definition authored (a : Automation) : bool := HasPrefix (a_Origin a) (go "authored:").

(** A name's first automation, a shipped one before an authored. *)
Definition add_name (nodes : list Automation) (byName : gmap gostring nat) (ia : nat * Automation) : gmap gostring nat :=
  match byName !! a_Name ia.2 with
  | None => <[a_Name ia.2 := ia.1]> byName
  | Some prior =>
      if (match nodes !! prior with Some p => authored p | None => false end) && negb (authored ia.2)
      then <[a_Name ia.2 := ia.1]> byName else byName
  end.

Definition new_builder (automations : list Automation) (reg : Registry) : graphBuilder :=
  let nodes := sort_stable node_ltb (List.filter IsEnabled automations) in
  mkBuilder reg nodes (fold_left (add_name nodes) (imap pair nodes) ∅).

Definition edges_from (b : graphBuilder) (i : nat) : list (nat * nat * GraphEdge) :=
  match b_nodes b !! i with
  | None => []
  | Some from =>
      let prods := productions b i in
      omap (fun jt => if IsEventTriggered jt.2 then pair (i, jt.1) <$> graph_edge from jt.2 prods else None)
        (imap pair (b_nodes b))
  end.

Definition names (b : graphBuilder) (idx : list nat) : list gostring := omap (fun i => a_Name <$> b_nodes b !! i) idx.

Definition is_loop (nodes : list Automation) (i : nat) : bool :=
  match nodes !! i with Some a => bool_decide (is_Some (a_Loop a)) | None => false end.

(** One cyclic component. *)
Definition cycle_of (b : graphBuilder) (succ : list (list nat)) (members : list nat) : GraphCycle * option LoopProblem :=
  let isLoop := is_loop (b_nodes b) in
  if covered members succ isLoop then
    (mkCycle (names b members) (sort_stable str_ltb (names b (List.filter isLoop members)))
       (names b (default [] (cyclePath members succ (fun _ => false)))), None)
  else
    let path := default [] (cyclePath members succ isLoop) in
    (mkCycle (names b members) [] (names b path),
     match path with
     | start :: _ =>
         (fun a => mkProblem (a_Name a) (a_Origin a) codeLoopCycle path) <$> b_nodes b !! start
     | [] => None
     end).

Definition first_member (members : list nat) : nat := match members with m :: _ => m | [] => O end.

Definition cycles (b : graphBuilder) (succ : list (list nat)) (comps : list (list nat)) : list (GraphCycle * option LoopProblem) :=
  cycle_of b succ
  <$> sort_stable (fun c d => (first_member c <? first_member d)%nat) (List.filter (cyclic_comp succ) comps).

(** The component of each node. *)
Definition comp_array (n : nat) (comps : list (list nat)) : list nat :=
  fold_left (fun comp cm => fold_left (fun comp m => <[m := cm.1]> comp) cm.2 comp) (imap pair comps) (replicate n O).

Definition depth_problem (depthCap : Z) (a : Automation) : option LoopProblem :=
  match a_Loop a with
  | Some l =>
      if (lc_MaxDepth l <? 1) || (depthCap <? lc_MaxDepth l)
      then Some (mkProblem (a_Name a) (a_Origin a) codeLoopMaxDepthRange []) else None
  | None => None
  end.

Definition problem_ltb (p q : LoopProblem) : bool :=
  if negb (lp_Automation p =s lp_Automation q) then str_ltb (lp_Automation p) (lp_Automation q)
  else if negb (lp_Origin p =s lp_Origin q) then str_ltb (lp_Origin p) (lp_Origin q)
  else str_ltb (code_text (lp_Code p)) (code_text (lp_Code q)).

Definition BuildLoopGraph (automations : list Automation) (reg : Registry) (depthCap : Z) : LoopGraph :=
  let b := new_builder automations reg in
  let n := length (b_nodes b) in
  let edges := edges_from b <$> seq 0 n in
  let succ := (fun es => (fun e => e.1.2) <$> es) <$> edges in
  let comps := tarjan n succ in
  let comp := comp_array n comps in
  let cs := cycles b succ comps in
  mkGraph (b_nodes b) (node_reports b <$> seq 0 n) (fold_left coverage_add (coverage_of b <$> seq 0 n) (mkCoverage 0 0 0))
    (concat edges) succ comps comp (strata comps comp succ) (fst <$> cs)
    (sort_stable problem_ltb
       (omap snd cs ++ if 0 <? depthCap then omap (depth_problem depthCap) (b_nodes b) else [])).

(** problemThrough: the cycle through the automation at an origin. *)
Fixpoint find_origin (origin : gostring) (nodes : list Automation) (i : nat) : option nat :=
  match nodes with
  | [] => None
  | a :: nodes' => if a_Origin a =s origin then Some i else find_origin origin nodes' (S i)
  end.

Definition problemThrough (g : LoopGraph) (origin : gostring) : option LoopProblem :=
  at' ← find_origin origin (g_nodes g) O;
  if is_loop (g_nodes g) at' then None
  else
    let allowed := List.filter (fun m => negb (is_loop (g_nodes g) m)) (nth (comp_at (g_comp g) at') (g_comps g) []) in
    path ← shortestCycle at' (g_succ g) allowed;
    a ← g_nodes g !! at';
    Some (mkProblem (a_Name a) (a_Origin a) codeLoopCycle path).
End Graph.
