(* ===== verification/LoopGraphFacts.v ===== *)
(** The static loop graph refuses exactly the cycles no @loop automation is on,
    its strata are the layers of its components, and a set of automations it does
    not refuse has no chain of firings that comes back without passing one. *)

From Stdlib Require Import SpecFloat Sorting.Sorted.
From stdpp Require Import relations.
From S2P Require Import Prelude GoText GoSort Strconv Numbers ExprNumbers Values CallGraph Ast Scope Eval Predicates.
From S2P Require Import Lexer Parser Topics Scc SccFacts LoopFilter Triggers ValueFacts LoopFilterFacts TriggerFacts LoopGraph.

(** ** The edges *)

Section Edges.
Context `{UnicodeTables}.

(** A production [to] may fire on. *)
Definition may_fire (to : Automation) (p : production) : Prop :=
  topic_matches (pattern_of to) p = true /\ filter_answer to p <> triFalse.

Lemma best_production_some to prods best : is_Some best -> is_Some (best_production to prods best).
Proof.
  revert best. induction prods as [|p prods IH]; intros best Hb; cbn; [done|]. destruct (negb _); [by apply IH|].
  case_bool_decide; [by apply IH|]. destruct best as [pd|]; [|by destruct Hb]. destruct (_ && _); [done|]. by apply IH.
Qed.

Lemma best_production_iff to prods :
  is_Some (best_production to prods None) <-> exists p, p ∈ prods /\ may_fire to p.
Proof.
  induction prods as [|p prods IH]; cbn [best_production].
  { split; [by intros [? ?]|]. intros (p & Hp & _). by apply not_elem_of_nil in Hp. }
  assert (Hskip : ~ may_fire to p -> (exists q, q ∈ p :: prods /\ may_fire to q) <-> exists q, q ∈ prods /\ may_fire to q).
  { intros Hn. split; [intros (q & [->|Hq]%elem_of_cons & Hm); [done|eauto]|intros (q & Hq & Hm); exists q; by rewrite elem_of_cons; auto]. }
  unfold may_fire in *. destruct (topic_matches (pattern_of to) p) eqn:Em; cbn [negb].
  - case_bool_decide as Hf; [rewrite IH, Hskip; [done|naive_solver]|]. split.
    + intros _. exists p. split; [by left|done].
    + intros _. destruct (_ && _); [done|]. by apply best_production_some.
  - rewrite IH, Hskip; [done|naive_solver].
Qed.

Context (b : graphBuilder).
Abbreviation nodes := (b_nodes b).
Abbreviation n := (length (b_nodes b)).

Definition succ_of : list (list nat) := (fun es => (fun e => e.1.2) <$> es) <$> (edges_from b <$> seq 0 n).

Lemma succ_of_lookup i : (i < n)%nat -> succs succ_of i = (fun e => e.1.2) <$> edges_from b i.
Proof. intros Hi. unfold succs, succ_of. by rewrite !list_lookup_fmap, lookup_seq_lt by done. Qed.

Lemma edge_iff i j : edge succ_of i j <->
  exists from to p, nodes !! i = Some from /\ nodes !! j = Some to /\ IsEventTriggered to = true
    /\ p ∈ productions b i /\ may_fire to p.
Proof.
  unfold edge. destruct (decide (i < n)%nat) as [Hi|Hi].
  - rewrite succ_of_lookup by done. destruct (lookup_lt_is_Some_2 _ _ Hi) as [from Hf]. unfold edges_from. rewrite Hf. split.
    + intros (e & -> & He)%list_elem_of_fmap. apply list_elem_of_omap in He as ([j' to] & Hj & He).
      apply elem_of_lookup_imap in Hj as (k & to' & [= <- <-] & Hk). cbn in He.
      destruct (IsEventTriggered to) eqn:Et; [|done]. destruct (graph_edge from to (productions b i)) as [ge|] eqn:Eg; [|done].
      injection He as <-. assert (Hs : is_Some (best_production to (productions b i) None)).
      { unfold graph_edge in Eg. destruct (best_production to (productions b i) None); [done|done]. }
      apply best_production_iff in Hs as (p & Hp & Hm). by exists from, to, p.
    + intros (from' & to & p & [= <-] & Hj & Et & Hp & Hm). destruct (proj2 (best_production_iff to (productions b i))) as [pd Hb]; [by exists p|].
      apply list_elem_of_fmap. exists (i, j, mkEdge (a_Name from) (a_Name to) (p_concept pd.1) (p_topic pd.1) (p_via pd.1) pd.2).
      split; [done|]. apply list_elem_of_omap. exists (j, to). split; [|cbn; unfold graph_edge; by rewrite Et, Hb].
      apply elem_of_lookup_imap. by exists j, to.
  - split.
    + unfold succs. rewrite lookup_ge_None_2; [intros []%not_elem_of_nil|]. unfold succ_of. rewrite !length_fmap, length_seq. lia.
    + intros (from & ? & ? & Hf & _). by apply lookup_lt_Some in Hf.
Qed.

Lemma succ_ok : graph_ok n succ_of.
Proof.
  split; [unfold succ_of; by rewrite !length_fmap, length_seq|]. intros v w (_ & to & _ & _ & Hw & _)%edge_iff.
  by apply lookup_lt_Some in Hw.
Qed.
End Edges.

(** ** Cycles and their refusal *)

(** An edge between automations that carry no @loop. *)
Definition uncovered (nodes : list Automation) (succ : list (list nat)) (i j : nat) : Prop :=
  edge succ i j /\ is_loop nodes i = false /\ is_loop nodes j = false.

Section Refusal.
Context (nodes : list Automation) (n : nat) (succ : list (list nat)) (Hg : graph_ok n succ).

Lemma component_NoDup c : c ∈ tarjan n succ -> NoDup c.
Proof.
  intros Hc. destruct (tarjan_spec n succ Hg) as (_ & Hs & _). destruct (Hs c Hc) as (_ & Hsort & _).
  clear -Hsort. induction Hsort as [|x l Hl IH Hx]; constructor; [|done]. rewrite Forall_forall in Hx. intros Hin. specialize (Hx x Hin). lia.
Qed.

Lemma tc_reach (R : nat -> nat -> Prop) x y : (forall i j, R i j -> edge succ i j) -> tc R x y -> reach succ x y.
Proof. intros HR. induction 1 as [x y Hxy|x y z Hxy _ IH]; [by apply rtc_once, HR|]. eapply rtc_l; [by apply HR|done]. Qed.

(** A cycle stays in one component. *)
Lemma cycle_inside c v : c ∈ tarjan n succ -> v ∈ c -> tc (uncovered nodes succ) v v ->
  tc (edge_in (outside (is_loop nodes) c) succ) v v.
Proof.
  intros Hc Hv. destruct (tarjan_spec n succ Hg) as (_ & Hs & _). destruct (Hs c Hc) as (_ & _ & Hscc).
  assert (Hgo : forall x y, tc (uncovered nodes succ) x y -> reach succ y v -> x ∈ c -> y ∈ c ->
    tc (edge_in (outside (is_loop nodes) c) succ) x y); [|by intros Ht; apply Hgo].
  induction 1 as [x y (He & Hx & Hy)|x y z (He & Hx & Hy) Ht IH]; intros Hyv Hxc Hyc.
  - apply tc_once. by repeat split; try apply outside_elem.
  - assert (Hyc' : y ∈ c).
    { apply (Hscc x Hxc). split; [by apply rtc_once|].
      assert (reach succ y z) by (by eapply tc_reach; [|exact Ht]; intros i j (? & _)).
      pose proof (proj1 (Hscc v Hv x) Hxc) as [Hvx _]. by do 2 (etrans; [done|]). }
    eapply tc_l; [|by apply IH]. by repeat split; try apply outside_elem.
Qed.

Lemma inside_cycle c v : tc (edge_in (outside (is_loop nodes) c) succ) v v -> tc (uncovered nodes succ) v v.
Proof.
  apply (tc_congruence id). intros x y (Hx & Hy & He). apply outside_elem in Hx as [_ ?], Hy as [_ ?]. done.
Qed.
End Refusal.

Lemma walks_mono (R R' : nat -> nat -> Prop) l : (forall x y, R x y -> R' x y) -> walks R l -> walks R' l.
Proof.
  intros HR. induction l as [|x l IH]; [done|]. destruct l as [|y l]; [done|]. intros [Hxy Hl]. split; [by apply HR|by apply IH].
Qed.

Section Problems.
Context `{UnicodeTables} (b : graphBuilder).
Abbreviation nodes := (b_nodes b).
Abbreviation n := (length (b_nodes b)).
Abbreviation succ := (succ_of b).

Lemma cycle_problem c p : c ∈ tarjan n succ -> (cycle_of b succ c).2 = Some p ->
  lp_Code p = codeLoopCycle /\ exists v mid, lp_Path p = v :: mid ++ [v] /\ walks (uncovered nodes succ) (lp_Path p).
Proof.
  intros Hc. unfold cycle_of. destruct (covered c succ (is_loop nodes)); [done|]. cbn.
  pose proof (cyclePath_spec c succ (is_loop nodes) (component_NoDup n succ (succ_ok b) c Hc)) as Hp.
  destruct (cyclePath c succ (is_loop nodes)) as [path|]; [|done]. destruct Hp as (v & mid & -> & Hw). cbn.
  destruct (nodes !! v) as [a|]; [|done]. intros [= <-]. split; [done|]. exists v, mid. split; [done|].
  eapply walks_mono; [|exact Hw]. intros x y (Hx & Hy & He). apply outside_elem in Hx as [_ ?], Hy as [_ ?]. done.
Qed.

Lemma uncovered_problem c v : c ∈ tarjan n succ -> v ∈ c -> tc (uncovered nodes succ) v v -> is_Some ((cycle_of b succ c).2).
Proof.
  intros Hc Hv Ht. pose proof (component_NoDup n succ (succ_ok b) c Hc) as Hnd.
  apply (cycle_inside nodes n succ (succ_ok b) c v Hc Hv) in Ht. unfold cycle_of.
  destruct (covered c succ (is_loop nodes)) eqn:E; [by apply (covered_spec c succ (is_loop nodes) Hnd) in Ht|].
  pose proof (cyclePath_spec c succ (is_loop nodes) Hnd) as Hp.
  destruct (cyclePath c succ (is_loop nodes)) as [path|]; [|by apply Hp in Ht]. destruct Hp as (w & mid & -> & Hw). cbn.
  assert (Hwn : (w < n)%nat).
  { destruct mid as [|y mid]; cbn in Hw; destruct Hw as [(_ & _ & He) _]; by eapply edge_src; [apply (succ_ok b)|]. }
  destruct (lookup_lt_is_Some_2 _ _ Hwn) as [a ->]. done.
Qed.

Lemma cycles_comp cp : cp ∈ cycles b succ (tarjan n succ) ->
  exists c, c ∈ tarjan n succ /\ cyclic_comp succ c = true /\ cp = cycle_of b succ c.
Proof.
  intros (c & -> & Hc)%list_elem_of_fmap. rewrite sort_stable_perm in Hc.
  apply list_elem_of_In, filter_In in Hc as [Hc Hcy]. apply list_elem_of_In in Hc. by exists c.
Qed.

Lemma comp_cycles c : c ∈ tarjan n succ -> cyclic_comp succ c = true -> cycle_of b succ c ∈ cycles b succ (tarjan n succ).
Proof.
  intros Hc Hcy. apply list_elem_of_fmap. exists c. split; [done|]. rewrite sort_stable_perm.
  apply list_elem_of_In, filter_In. split; [by apply list_elem_of_In|done].
Qed.

(** The refusals are the cycles no @loop is on. *)
Lemma cycle_problems_iff :
  (exists p, p ∈ omap snd (cycles b succ (tarjan n succ))) <-> exists v, tc (uncovered nodes succ) v v.
Proof.
  split.
  - intros (p & (cp & Hcp & Hp)%list_elem_of_omap). apply cycles_comp in Hcp as (c & Hc & _ & ->).
    apply cycle_problem in Hp as (_ & v & mid & Ep & Hw); [|done]. exists v. rewrite Ep in Hw. by eapply walks_tc.
  - intros (v & Ht). assert (Hv : (v < n)%nat).
    { apply tc_inv_l in Ht as [(He & _)|(u & (He & _) & _)]; by eapply edge_src; [apply (succ_ok b)|]. }
    destruct (comp_of n succ v (succ_ok b) Hv) as (c & Hc & Hvc). destruct (uncovered_problem c v Hc Hvc Ht) as [p Hp].
    exists p. apply list_elem_of_omap. exists (cycle_of b succ c). split; [|done]. apply comp_cycles; [done|].
    apply (cyclic_comp_true n); [apply succ_ok|done|]. exists v. split; [done|].
    eapply (tc_congruence id); [|exact Ht]. by intros x y (? & _).
Qed.
End Problems.

Section Build.
Context `{UnicodeTables} (automations : list Automation) (reg : Registry) (depthCap : Z).
Abbreviation g := (BuildLoopGraph automations reg depthCap).
Abbreviation b := (new_builder automations reg).

Lemma build_succ : g_succ g = succ_of b.
Proof. done. Qed.

Lemma build_nodes : g_nodes g = b_nodes b.
Proof. done. Qed.

Lemma build_comps : g_comps g = tarjan (length (g_nodes g)) (g_succ g).
Proof. done. Qed.

Lemma build_comp : g_comp g = comp_array (length (g_nodes g)) (g_comps g).
Proof. done. Qed.

Lemma build_strata : g_Stratum g = strata (g_comps g) (g_comp g) (g_succ g).
Proof. done. Qed.

Lemma build_ok : graph_ok (length (g_nodes g)) (g_succ g).
Proof. rewrite build_succ, build_nodes. apply succ_ok. Qed.

Lemma build_problem p : p ∈ g_Problems g <->
  p ∈ omap snd (cycles b (succ_of b) (tarjan (length (b_nodes b)) (succ_of b)))
  \/ 0 < depthCap /\ p ∈ omap (depth_problem depthCap) (b_nodes b).
Proof.
  change (g_Problems g) with (sort_stable problem_ltb (omap snd (cycles b (succ_of b) (tarjan (length (b_nodes b)) (succ_of b)))
    ++ if 0 <? depthCap then omap (depth_problem depthCap) (b_nodes b) else [])).
  rewrite sort_stable_perm, elem_of_app. destruct (Z.ltb_spec 0 depthCap); [naive_solver|].
  split; [intros [?|[]%not_elem_of_nil]; by left|]. intros [?|[? _]]; [by left|lia].
Qed.

Lemma depth_problem_code p a : depth_problem depthCap a = Some p -> lp_Code p = codeLoopMaxDepthRange.
Proof. unfold depth_problem. destruct (a_Loop a) as [l|]; [|done]. destruct (_ || _); [|done]. by intros [= <-]. Qed.

Lemma cycle_refusals :
  (exists p, p ∈ g_Problems g /\ lp_Code p = codeLoopCycle) <-> exists v, tc (uncovered (g_nodes g) (g_succ g)) v v.
Proof.
  rewrite build_succ, build_nodes, <- cycle_problems_iff. split.
  - intros (p & [Hp|(_ & (a & _ & Ha)%list_elem_of_omap)]%build_problem & Hc); [by exists p|].
    apply depth_problem_code in Ha. congruence.
  - intros (p & Hp). exists p. split; [apply build_problem; by left|]. apply list_elem_of_omap in Hp as (cp & Hcp & Hp).
    apply cycles_comp in Hcp as (c & Hc & _ & ->). by apply cycle_problem in Hp as [? _].
Qed.
End Build.

(** ** Strata *)

Section Strata.
Context `{UnicodeTables}.

Lemma assign_lookup (c : nat) ms : forall comp x, (x < length comp)%nat ->
  fold_left (fun comp m => <[m := c]> comp) ms comp !! x = if bool_decide (x ∈ ms) then Some c else comp !! x.
Proof.
  induction ms as [|m ms IH]; intros comp x Hx; cbn; [done|]. rewrite IH by (by rewrite length_insert).
  destruct (decide (x = m)) as [->|Hne].
  - rewrite (bool_decide_eq_true_2 (m ∈ m :: ms)) by (by left). rewrite list_lookup_insert_eq by done. by case_bool_decide.
  - rewrite list_lookup_insert_ne by congruence. rewrite (bool_decide_ext (x ∈ m :: ms) (x ∈ ms)); [done|]. rewrite elem_of_cons. naive_solver.
Qed.

Lemma assign_length (c : nat) ms : forall comp, length (fold_left (fun comp m => <[m := c]> comp) ms comp) = length comp.
Proof. induction ms as [|m ms IH]; intros comp; cbn; [done|]. by rewrite IH, length_insert. Qed.

Lemma assign_all_length l : forall comp,
  length (fold_left (fun comp (cm : nat * list nat) => fold_left (fun comp m => <[m := cm.1]> comp) cm.2 comp) l comp) = length comp.
Proof. induction l as [|cm l IH]; intros comp; cbn; [done|]. by rewrite IH, assign_length. Qed.

Lemma assign_all l : forall comp x c, (x < length comp)%nat ->
  comp !! x = Some c \/ (exists ms, (c, ms) ∈ l /\ x ∈ ms) -> (forall c' ms, (c', ms) ∈ l -> x ∈ ms -> c' = c) ->
  fold_left (fun comp (cm : nat * list nat) => fold_left (fun comp m => <[m := cm.1]> comp) cm.2 comp) l comp !! x = Some c.
Proof.
  induction l as [|[d ms] l IH]; intros comp x c Hx Hin Huniq; cbn.
  { destruct Hin as [?|(? & Hin & _)]; [done|]. by apply not_elem_of_nil in Hin. }
  apply IH; [by rewrite assign_length| |].
  - rewrite assign_lookup by done. case_bool_decide as Hd.
    + left. f_equal. apply (Huniq d ms); [by left|done].
    + destruct Hin as [?|(ms' & Hin & Hx')]; [by left|]. apply elem_of_cons in Hin as [[= -> ->]|Hin]; [done|]. right. by exists ms'.
  - intros c' ms' Hin'. apply Huniq. by right.
Qed.

Lemma NoDup_lookup_concat (l : list (list nat)) i j a b x : NoDup (concat l) -> l !! i = Some a -> l !! j = Some b -> x ∈ a -> x ∈ b -> i = j.
Proof.
  revert i j. induction l as [|c l IH]; intros i j Hnd; [done|]. cbn in Hnd. apply NoDup_app in Hnd as (_ & Hdis & Hnd).
  assert (Hin : forall k d, l !! k = Some d -> x ∈ d -> x ∈ concat l).
  { intros k d Hk Hx. apply list_elem_of_In, in_concat. exists d. rewrite <- !list_elem_of_In. split; [by eapply list_elem_of_lookup_2|done]. }
  destruct i as [|i], j as [|j]; cbn; intros Ha Hb Hxa Hxb; simplify_eq; [done| | |].
  - by destruct (Hdis x Hxa); eapply Hin.
  - by destruct (Hdis x Hxb); eapply Hin.
  - f_equal. by apply (IH i j).
Qed.

Lemma comp_array_ok n succ : graph_ok n succ -> length (comp_array n (tarjan n succ)) = n
  /\ forall c members m, tarjan n succ !! c = Some members -> m ∈ members -> comp_array n (tarjan n succ) !! m = Some c.
Proof.
  intros Hg. destruct (tarjan_spec n succ Hg) as (Hperm & Hs & _). split.
  - unfold comp_array. by rewrite assign_all_length, length_replicate.
  - intros c members m Hc Hm. assert (Hmn : (m < n)%nat).
    { assert (Hin : m ∈ concat (tarjan n succ)); [|rewrite Hperm, elem_of_seq in Hin; lia].
      apply list_elem_of_In, in_concat. exists members. rewrite <- !list_elem_of_In. split; [by eapply list_elem_of_lookup_2|done]. }
    apply assign_all; [by rewrite length_replicate| |].
    + right. exists members. split; [|done]. apply elem_of_lookup_imap. by exists c, members.
    + intros c' ms (k & ms' & [= <- <-] & Hk)%elem_of_lookup_imap Hm'.
      assert (Hnd : NoDup (concat (tarjan n succ))) by (rewrite Hperm; apply NoDup_seq).
      by apply (NoDup_lookup_concat (tarjan n succ) c' c ms members m).
Qed.

(** The layers of the components. *)
Lemma strata_edges n succ : graph_ok n succ ->
  let level := at_ (strata (tarjan n succ) (comp_array n (tarjan n succ)) succ) in
  (forall v w, edge succ v w -> level v < level w \/ strongly succ v w /\ level v = level w)
  /\ forall w, (w < n)%nat -> level w = 0
       \/ exists v u, edge succ v u /\ strongly succ u w /\ ~ strongly succ v w /\ level w = level v + 1.
Proof.
  intros Hg. cbv zeta. set (comp := comp_array n (tarjan n succ)). pose proof (comp_array_ok n succ Hg) as Hcomp. fold comp in Hcomp.
  destruct (strata_layered n succ Hg comp Hcomp) as (level & (Hl & Hup & Hex) & Hat).
  assert (Hsame : forall v w, (v < n)%nat -> (w < n)%nat -> comp_at comp v = comp_at comp w <-> strongly succ v w).
  { intros v w Hv Hw. destruct (of_node n succ Hg comp Hcomp v Hv) as (mv & Hmv & Hvm).
    destruct (of_node n succ Hg comp Hcomp w Hw) as (mw & Hmw & Hwm). destruct (tarjan_spec n succ Hg) as (_ & Hs & _).
    assert (Hscc : forall x, x ∈ mv <-> strongly succ v x) by (apply (Hs mv); [by eapply list_elem_of_lookup_2|done]). split.
    - intros E. rewrite E in Hmv. rewrite Hmv in Hmw. injection Hmw as <-. by apply Hscc.
    - intros Hst%Hscc. symmetry. by apply (of_member n succ comp Hcomp _ mv). }
  assert (Hsrc : forall v w, edge succ v w -> (v < n)%nat /\ (w < n)%nat).
  { intros v w He. split; [by eapply edge_src|by eapply edge_dst]. }
  split.
  - intros v w He. destruct (Hsrc v w He) as [Hv Hw]. rewrite !Hat by done.
    destruct (decide (comp_at comp w = comp_at comp v)) as [E|E].
    + right. split; [by apply Hsame|by rewrite E].
    + left. apply (Hup v w He); [lia|done].
  - intros w Hw. rewrite !Hat by done. assert (Hlt : (comp_at comp w < length (tarjan n succ))%nat) by (by eapply of_lt).
    destruct (Hex _ Hlt) as [?|(v & u & He & Eu & Hne & Hlv & _)]; [by left|]. right. destruct (Hsrc v u He) as [Hv Hu].
    exists v, u. split; [done|]. split; [by apply Hsame|]. split; [intros Hst; by apply Hsame in Hst|by rewrite Hat].
Qed.
End Strata.

(** ** problemThrough *)

Lemma find_origin_spec origin nodes : forall i,
  match find_origin origin nodes i with
  | Some k => exists j a, k = (i + j)%nat /\ nodes !! j = Some a /\ a_Origin a = origin
                /\ forall j' a', (j' < j)%nat -> nodes !! j' = Some a' -> a_Origin a' <> origin
  | None => forall j a, nodes !! j = Some a -> a_Origin a <> origin
  end.
Proof.
  induction nodes as [|a nodes IH]; intros i; cbn; [done|]. destruct (a_Origin a =s origin) eqn:E.
  - apply eqs_true in E. exists O, a. split_and!; [lia|done|done|intros; lia].
  - apply eqs_false in E. specialize (IH (S i)). destruct (find_origin origin nodes (S i)) as [k|].
    + destruct IH as (j & a' & -> & Ha & Ho & Hf). exists (S j), a'. split_and!; [lia|done|done|].
      intros [|j'] a'' Hlt Hj; cbn in Hj; [by injection Hj as <-|]. apply (Hf j'); [lia|done].
    + intros [|j] a' Hj; cbn in Hj; [by injection Hj as <-|]. by apply (IH j).
Qed.

Section Through.
Context `{UnicodeTables} (automations : list Automation) (reg : Registry) (depthCap : Z) (g : LoopGraph).
Context (Hbuilt : g = BuildLoopGraph automations reg depthCap).

Lemma problemThrough_at origin i : find_origin origin (g_nodes g) O = Some i ->
  match problemThrough g origin with
  | Some p => lp_Code p = codeLoopCycle /\ exists mid, lp_Path p = i :: mid ++ [i] /\ walks (uncovered (g_nodes g) (g_succ g)) (lp_Path p)
  | None => ~ tc (uncovered (g_nodes g) (g_succ g)) i i
  end.
Proof.
  pose proof (build_ok automations reg depthCap) as Hok. pose proof (build_comps automations reg depthCap) as Hcs.
  pose proof (build_comp automations reg depthCap) as Hco. rewrite <- Hbuilt in *. clear Hbuilt.
  intros Hi. unfold problemThrough. rewrite Hi. cbn [mbind option_bind].
  pose proof (find_origin_spec origin (g_nodes g) O) as Hf. rewrite Hi in Hf. destruct Hf as (j & a & -> & Ha & _ & _). cbn [Nat.add] in *.
  destruct (is_loop (g_nodes g) j) eqn:El.
  { intros [(_ & ? & _)|(u & (_ & ? & _) & _)]%tc_inv_l; congruence. }
  pose proof (comp_array_ok _ _ Hok) as Hcomp. rewrite <- Hcs, <- Hco in Hcomp. rewrite Hcs in Hcomp. pose proof (lookup_lt_Some _ _ _ Ha) as Hlt.
  destruct (of_node _ _ Hok _ Hcomp j Hlt) as (members & Hm & Hjm). rewrite <- Hcs in Hm.
  rewrite (nth_lookup_Some _ _ _ _ Hm). change (List.filter _ members) with (outside (is_loop (g_nodes g)) members).
  rewrite Hcs in Hm. pose proof (list_elem_of_lookup_2 _ _ _ Hm) as Hc. pose proof (component_NoDup _ _ Hok _ Hc) as Hnd.
  pose proof (shortestCycle_spec (g_succ g) j (outside (is_loop (g_nodes g)) members) ltac:(by apply outside_elem)
    ltac:(by apply NoDup_outside)) as Hs.
  destruct (shortestCycle j (g_succ g) (outside (is_loop (g_nodes g)) members)) as [path|]; cbn [mbind option_bind].
  - rewrite Ha. cbn [mbind option_bind]. split; [done|]. destruct Hs as (mid & -> & Hw). exists mid. split; [done|].
    eapply walks_mono; [|exact Hw]. intros x y (Hx & Hy & He). apply outside_elem in Hx as [_ ?], Hy as [_ ?]. done.
  - intros Ht. apply Hs. by eapply cycle_inside; [exact Hok|..].
Qed.
End Through.

(** ** Theorems *)

(** An edge of a built graph between automations that carry no @loop. *)
Definition graph_uncovered (g : LoopGraph) : nat -> nat -> Prop := uncovered (g_nodes g) (g_succ g).

(** C4: BuildLoopGraph refuses exactly the sets of automations with a cycle of edges
    on which no automation carries @loop.  A loop_cycle problem is among the
    graph's problems if and only if there is such a cycle, the path every such
    problem prints is one, closed on its first automation, and every other
    problem is a @loop whose maxDepth is outside 1 to the cap. *)
Theorem loop_refusals_exact `{UnicodeTables} (automations : list Automation) (reg : Registry) (depthCap : Z) :
  let g := BuildLoopGraph automations reg depthCap in
  ((exists p, p ∈ g_Problems g /\ lp_Code p = codeLoopCycle) <-> exists v, tc (graph_uncovered g) v v)
  /\ Forall (fun p => match lp_Code p with
       | codeLoopCycle => exists v mid, lp_Path p = v :: mid ++ [v] /\ walks (graph_uncovered g) (lp_Path p)
       | codeLoopMaxDepthRange => exists a l, a ∈ g_nodes g /\ a_Loop a = Some l /\ ~ (1 <= lc_MaxDepth l <= depthCap)
       end) (g_Problems g).
Proof.
  cbv zeta. split; [exact (cycle_refusals automations reg depthCap)|]. apply List.Forall_forall. intros p Hp. apply list_elem_of_In, build_problem in Hp.
  unfold graph_uncovered. rewrite build_succ, build_nodes. destruct Hp as [(cp & Hcp & Hp)%list_elem_of_omap|(_ & (a & Ha & Hp)%list_elem_of_omap)].
  - apply cycles_comp in Hcp as (c & Hc & _ & ->). apply cycle_problem in Hp as (-> & Hp); done.
  - rewrite (depth_problem_code depthCap p a Hp). unfold depth_problem in Hp. destruct (a_Loop a) as [l|] eqn:El; [|done].
    destruct (_ || _) eqn:E; [|done]. exists a, l. split_and!; [done|done|]. apply orb_true_iff in E. lia.
Qed.

(** The strata of the graph are the layers of its components.  An edge leads to a
    higher stratum or stays among automations that reach each other, which share
    one; and a stratum above 0 is one more than that of an automation with an edge
    into the component. *)
Theorem strata_are_layers `{UnicodeTables} (automations : list Automation) (reg : Registry) (depthCap : Z) :
  let g := BuildLoopGraph automations reg depthCap in
  let level := at_ (g_Stratum g) in
  (forall v w, edge (g_succ g) v w -> level v < level w \/ strongly (g_succ g) v w /\ level v = level w)
  /\ forall w, (w < length (g_nodes g))%nat -> level w = 0
       \/ exists v u, edge (g_succ g) v u /\ strongly (g_succ g) u w /\ ~ strongly (g_succ g) v w /\ level w = level v + 1.
Proof.
  cbv zeta. rewrite build_strata, build_comp, build_comps. apply strata_edges. apply build_ok.
Qed.

(** An authored automation is refused at activation exactly when it closes a
    cycle no @loop is on: problemThrough answers for the first automation of an
    origin, with a cycle through that automation if there is one among automations
    without @loop and with nothing otherwise. *)
Theorem problemThrough_exact `{UnicodeTables} (automations : list Automation) (reg : Registry) (depthCap : Z) (origin : gostring) (i : nat) :
  let g := BuildLoopGraph automations reg depthCap in
  find_origin origin (g_nodes g) 0 = Some i ->
  match problemThrough g origin with
  | Some p => lp_Code p = codeLoopCycle /\ exists mid, lp_Path p = i :: mid ++ [i] /\ walks (graph_uncovered g) (lp_Path p)
  | None => ~ tc (graph_uncovered g) i i
  end.
Proof. exact (problemThrough_at automations reg depthCap _ eq_refl origin i). Qed.

(** *** A cluster of three automations *)

Definition step_call (name : string) : Step := mkStep (go "function") (Some (go name, [])) None None None None None None None.

(** An automation with one call, its filter prepared. *)
Definition sample_auto (name pattern : string) (filter : option expr) (call : string) : Automation :=
  mkAutomation (go name) (go "unified:" ++ go name) None false []
    (Some (mkTrigger (go pattern) (match filter with Some _ => go "row => .." | None => [] end) ((fun n => ([go "row"], n)) <$> filter)))
    [] [step_call call] None None.

Definition template (kind : string) (concept : string) (fields : list (gostring * FieldValue)) : Target :=
  mkTarget ConstructMutation [] (go concept) no_footprint (Some (mkWriteSpec (go kind) (bool_decide (kind = "insert"%string)) fields)).

Definition shop_registry : Registry :=
  {[go "closeOrder" := template "update" "v1:shop:order" [(go "status", mkFieldValue (XStr (go "done")) true [])];
    go "logOrder" := template "insert" "v1:shop:log" []]}.

(** [close] closes open orders; [log] logs updates of orders; [relog] logs every log. *)
Definition sample_close : Automation :=
  sample_auto "close" "graph.node.created.v1:shop:order" (Some (BinaryExpr (go "==") (of_row "status") (text_lit "open"))) "closeOrder".
Definition sample_log : Automation := sample_auto "log" "graph.node.updated.v1:shop:order" None "logOrder".
Definition sample_relog : Automation := sample_auto "relog" "graph.node.created.v1:shop:log" None "logOrder".

Example clean_sample : g_Problems (@BuildLoopGraph latin1_tables [sample_log; sample_close] shop_registry 16) = []
  /\ g_succ (@BuildLoopGraph latin1_tables [sample_log; sample_close] shop_registry 16) = [[1%nat]; []].
Proof. by vm_compute. Qed.

Lemma problemThrough_exact_witness :
  let g := @BuildLoopGraph latin1_tables [sample_relog; sample_log; sample_close] shop_registry 16 in
  find_origin (go "unified:relog") (g_nodes g) 0 = Some 2%nat
  /\ match problemThrough g (go "unified:relog") with
     | Some p => lp_Code p = codeLoopCycle /\ exists mid, lp_Path p = 2%nat :: mid ++ [2%nat] /\ walks (graph_uncovered g) (lp_Path p)
     | None => ~ tc (graph_uncovered g) 2%nat 2%nat
     end.
Proof. split; [by vm_compute|]. apply problemThrough_exact. by vm_compute. Defined.
