(* ===== verification/LoopRuns.v ===== *)
(** The runs the static graph is about: what an automation's steps, and those of
    the automations it calls, put on the bus, and that every firing is an edge. *)

From Stdlib Require Import SpecFloat.
From stdpp Require Import relations.
From S2P Require Import Prelude GoText GoSort Strconv Numbers ExprNumbers Values CallGraph Ast Scope Eval Predicates.
From S2P Require Import Lexer Parser Topics Scc SccFacts LoopFilter Triggers ValueFacts LoopFilterFacts TriggerFacts LoopGraph LoopGraphFacts.

(** ** Sub-automations *)

Section SubWalk.
Context (subs : nat -> list gostring) (byName : gmap gostring nat) (n : nat) (Hn : forall name k, byName !! name = Some k -> (k < n)%nat).

Definition calls_sub (j k : nat) : Prop := exists name, name ∈ subs j /\ byName !! name = Some k.

(** The nodes not yet entered. *)
Definition fresh (seen : list nat) : nat := length (List.filter (fun k => negb (memn k seen)) (seq 0 n)).

Lemma fresh_mono seen seen' : seen ⊆ seen' -> (fresh seen' <= fresh seen)%nat.
Proof.
  intros Hs. unfold fresh. induction (seq 0 n) as [|x l IH]; cbn; [done|]. destruct (memn x seen) eqn:E; cbn.
  - apply memn_true, Hs, memn_true in E. by rewrite E.
  - destruct (memn x seen'); cbn; lia.
Qed.

Lemma fresh_enter k seen : (k < n)%nat -> memn k seen = false -> (fresh (k :: seen) < fresh seen)%nat.
Proof.
  intros Hk Hs. unfold fresh, memn in *. assert (Hin : k ∈ seq 0 n) by (apply elem_of_seq; lia). revert Hin.
  assert (Hle : forall l, (length (List.filter (fun x => negb (existsb (Nat.eqb x) (k :: seen))) l) <= length (List.filter (fun x => negb (existsb (Nat.eqb x) seen)) l))%nat).
  { induction l as [|x l IH]; cbn; [done|]. destruct (x =? k)%nat; cbn; destruct (existsb (Nat.eqb x) seen); cbn; cbn in IH; lia. }
  induction (seq 0 n) as [|x l IH]; [by intros []%not_elem_of_nil|]. intros [->|Hin]%elem_of_cons; cbn.
  - rewrite Nat.eqb_refl, Hs. cbn. specialize (Hle l). cbn in Hle. lia.
  - specialize (IH Hin). cbn in IH. destruct (x =? k)%nat; cbn; destruct (existsb (Nat.eqb x) seen); cbn; lia.
Qed.

(** What a walk adds: the nodes it enters are listed and their calls are entered. *)
Record grown (st st' : walk_state) : Prop := {
  g_seen : st.1 ⊆ st'.1;
  g_out : st.2 ⊆ st'.2;
  g_new : forall x, x ∈ st'.1 -> x ∈ st.1 \/ (exists via, (x, via) ∈ st'.2) /\ forall k, calls_sub x k -> k ∈ st'.1
}.

Lemma grown_refl st : grown st st.
Proof. split; [done|done|by left]. Qed.

Lemma grown_trans a b c : grown a b -> grown b c -> grown a c.
Proof.
  intros [Hs1 Ho1 Hn1] [Hs2 Ho2 Hn2]. split; [set_solver|set_solver|]. intros x Hx.
  destruct (Hn2 x Hx) as [Hb|Hb]; [|by right]. destruct (Hn1 x Hb) as [Ha|((via & Hvia) & Hc)]; [by left|]. right.
  split; [exists via; by apply Ho2|]. intros k Hk. by apply Hs2, Hc.
Qed.

Lemma sub_walk_spec fuel : forall j path st, (fresh st.1 < fuel)%nat ->
  exists st', sub_walk subs byName fuel j path st = Some st' /\ grown st st' /\ forall k, calls_sub j k -> k ∈ st'.1.
Proof.
  induction fuel as [|fuel IH]; intros j path st Hf; [lia|]. cbn [sub_walk].
  match goal with |- context [fold_left ?g _ _] => set (f := g) end.
  assert (Hgo : forall names st, (fresh st.1 < S fuel)%nat -> exists st', fold_left f names (Some st) = Some st' /\ grown st st'
    /\ forall name k, name ∈ names -> byName !! name = Some k -> k ∈ st'.1).
  { clear st Hf. induction names as [|name names IHn]; intros st Hf; cbn [fold_left].
    { exists st. split; [done|]. split; [apply grown_refl|]. by intros ? ? []%not_elem_of_nil. }
    assert (Hstep : exists st1, f (Some st) name = Some st1 /\ grown st st1 /\ forall k, byName !! name = Some k -> k ∈ st1.1).
    { cbn. destruct (byName !! name) as [k|] eqn:Ek; [|exists st; by split_and!; [|apply grown_refl|]].
      destruct (memn k st.1) eqn:Em.
      - exists st. split_and!; [done|apply grown_refl|]. intros k' [= <-]. by apply memn_true.
      - pose proof (fresh_enter k st.1 (Hn name k Ek) Em) as Hlt.
        destruct (IH k (path ++ [name]) (k :: st.1, st.2 ++ [(k, path ++ [name])])) as (st1 & E1 & [Hs1 Ho1 Hn1] & Hc1); [cbn; lia|].
        exists st1. split; [done|]. split.
        + split; [set_solver|set_solver|]. intros x Hx. destruct (Hn1 x Hx) as [[->|?]%elem_of_cons|?]; [|by left|by right].
          right. split; [|done]. exists (path ++ [name]). apply Ho1. set_solver.
        + intros k' [= <-]. apply Hs1. by left. }
    destruct Hstep as (st1 & E1 & Hg1 & Hk1). destruct (IHn st1) as (st2 & E2 & Hg2 & Hk2).
    { pose proof (fresh_mono _ _ (g_seen _ _ Hg1)). lia. }
    exists st2. rewrite E1. split; [done|]. split; [by eapply grown_trans|].
    intros name' k [->|Hin]%elem_of_cons Hk; [|by eapply Hk2]. by apply (g_seen _ _ Hg2), Hk1. }
  destruct (Hgo (subs j) st Hf) as (st' & E & Hg & Hk). exists st'. split; [done|]. split; [done|].
  intros k (name & Hin & Hb). by eapply Hk.
Qed.
End SubWalk.

(** ** What a write and a publish do *)

Section Runs.
Context `{UnicodeTables}.

(** The values a call, or an event step, hands on: what was written, evaluated. *)
Record passes (args : list (gostring * arg_value)) (given : list (gostring * value)) : Prop := {
  ps_left_out a : map_get args a = None -> map_get given a = None;
  ps_literal a x lit : map_get args a = Some x -> literalArg x = Some lit -> exists v, map_get given a = Some v /\ like lit v
}.

(** The payload a mutation's template makes of the arguments. *)
Record renders (w : Write) (given rendered : list (gostring * value)) : Prop := {
  rd_literal f fv : (f, fv) ∈ Fields (w_Spec w) -> HasLiteral fv = true ->
    exists v, map_get rendered f = Some v /\ like (normalizeLoopValue (Literal fv)) v;
  rd_arg f fv v : (f, fv) ∈ Fields (w_Spec w) -> HasLiteral fv = false -> Arg fv <> [] -> length (w_Path w) = 1%nat ->
    map_get given (Arg fv) = Some v -> map_get rendered f = Some v;
  rd_left_out f fv : (f, fv) ∈ Fields (w_Spec w) -> HasLiteral fv = false -> Arg fv <> [] -> length (w_Path w) = 1%nat ->
    map_get given (Arg fv) = None -> is_new_row (w_Spec w) = true -> map_get rendered f = None;
  rd_new f : is_new_row (w_Spec w) = true -> f ∉ (Fields (w_Spec w)).*1 -> map_get rendered f = None
}.

(** A hook runs by whether the row exists. *)
Definition hook_runs (priorExisted : bool) (concept : gostring) (a : Automation) : bool :=
  match a_BeforeWrite a with
  | None => false
  | Some hook => (bw_Concept hook =s concept) && negb ((bw_On hook =s go "create") && priorExisted)
                 && negb ((bw_On hook =s go "update") && negb priorExisted)
  end.

Definition assigned (nodes : list Automation) (wr : written) : list (option gostring) :=
  concat ((fun a => concat (field_writes <$> a_Steps a)) <$> List.filter (hook_runs (wr_priorExisted wr) (wr_Concept wr)) nodes).

(** A write of [w], called with [args], lands [wr]: the template's payload with the
    fields its hooks assign replaced. *)
Record performs (nodes : list Automation) (w : Write) (args : list (gostring * arg_value)) (wr : written) : Prop := {
  pf_rendered : exists given rendered, passes args given /\ renders w given rendered /\ NoDup (rendered.*1)
    /\ forall f, None ∉ assigned nodes wr -> Some f ∉ assigned nodes wr -> map_get (wr_Payload wr) f = map_get rendered f;
  pf_keys : NoDup ((wr_Payload wr).*1);
  pf_concept : wr_Concept wr = w_Concept w;
  pf_kind : ws_Kind (w_Spec w) <> kindPublish;
  pf_trimmed : TrimSpace (w_Concept w) = w_Concept w /\ w_Concept w <> [];
  pf_update : ws_Kind (w_Spec w) = MutationKindUpdate -> wr_priorExisted wr = true;
  pf_new : is_new_row (w_Spec w) = true -> wr_priorExisted wr = false
}.

(** *** The row a write is known to make *)

Lemma add_fields_spec l : forall row,
  let row' := fold_left (fun row (fk : gostring * field_known) => add_field row fk.1 fk.2) l row in
  k_Concept row' = k_Concept row /\ k_OthersKnown row' = k_OthersKnown row /\ k_FirstVersion row' = k_FirstVersion row
  /\ (forall f v, k_Fields row' !! f = Some v -> k_Fields row !! f = Some v \/ (f, FieldIs v) ∈ l)
  /\ (forall f, k_Fields row' !! f = None -> k_Fields row !! f = None /\ forall v, (f, FieldIs v) ∉ l)
  /\ (forall f, f ∈ k_Absent row' <-> f ∈ k_Absent row \/ (f, FieldAbsent) ∈ l)
  /\ (forall f, f ∈ k_Unknown row' <-> f ∈ k_Unknown row \/ (f, FieldUnknown) ∈ l).
Proof.
  induction l as [|[g k] l IH]; intros row; cbv zeta; cbn [fold_left].
  { split_and!; try done; intros f; try set_solver. }
  specialize (IH (add_field row g k)). cbv zeta in IH. destruct IH as (Hc & Ho & Hv & Hf & Hn & Ha & Hu). cbn [fst snd].
  split_and!.
  - rewrite Hc. by destruct k.
  - rewrite Ho. by destruct k.
  - rewrite Hv. by destruct k.
  - intros f v Hl. apply Hf in Hl as [Hl|Hl]; [|right; by right]. destruct k as [x| |]; cbn in Hl; [|by left|by left].
    apply lookup_insert_Some in Hl as [[<- <-]|[_ ?]]; [right; by left|by left].
  - intros f Hl. apply Hn in Hl as [Hl Hno]. destruct k as [x| |]; cbn in Hl.
    + apply lookup_insert_None in Hl as [Hl Hne]. split; [done|]. intros v [[= -> ->]|Hin]%elem_of_cons; [done|]. by apply (Hno v).
    + split; [done|]. intros v [[=]|Hin]%elem_of_cons. by apply (Hno v).
    + split; [done|]. intros v [[=]|Hin]%elem_of_cons. by apply (Hno v).
  - intros f. rewrite Ha, elem_of_cons. destruct k as [x| |]; cbn; set_solver.
  - intros f. rewrite Hu, elem_of_cons. destruct k as [x| |]; cbn; set_solver.
Qed.

Definition template_fields (w : Write) (args : list (gostring * arg_value)) : list (gostring * field_known) :=
  (fun fv => (fv.1, write_field (is_new_row (w_Spec w)) (length (w_Path w) =? 1)%nat args fv.2)) <$> Fields (w_Spec w).

Lemma fold_left_map {A B C} (f : C -> B -> C) (g : A -> B) l : forall c, fold_left (fun c a => f c (g a)) l c = fold_left f (g <$> l) c.
Proof. induction l as [|a l IH]; intros c; cbn; [done|]. apply IH. Qed.

Lemma writeRow_fields w args upd :
  let row := writeRow w args upd in
  k_Concept row = w_Concept w /\ k_OthersKnown row = is_new_row (w_Spec w)
  /\ k_FirstVersion row = first_version (w_Spec w) (is_new_row (w_Spec w)) upd
  /\ (forall f v, k_Fields row !! f = Some v -> (f, FieldIs v) ∈ template_fields w args)
  /\ (forall f, k_Fields row !! f = None -> forall v, (f, FieldIs v) ∉ template_fields w args)
  /\ (forall f, f ∈ k_Absent row <-> (f, FieldAbsent) ∈ template_fields w args)
  /\ (forall f, f ∈ k_Unknown row <-> (f, FieldUnknown) ∈ template_fields w args).
Proof.
  cbv zeta. set (row0 := mkKnown (w_Concept w) ∅ ∅ (is_new_row (w_Spec w)) (first_version (w_Spec w) (is_new_row (w_Spec w)) upd) ∅).
  assert (writeRow w args upd = fold_left (fun row (fk : gostring * field_known) => add_field row fk.1 fk.2) (template_fields w args) row0) as ->.
  { exact (fold_left_map (fun row (fk : gostring * field_known) => add_field row fk.1 fk.2)
      (fun fv => (fv.1, write_field (is_new_row (w_Spec w)) (length (w_Path w) =? 1)%nat args fv.2)) (Fields (w_Spec w)) row0). }
  pose proof (add_fields_spec (template_fields w args) row0) as Hs. cbv zeta in Hs.
  destruct Hs as (Hc & Ho & Hv & Hf & Hn & Ha & Hu). split_and!; try done.
  - intros f v Hl. by apply Hf in Hl as [?|?].
  - intros f Hl. by apply Hn in Hl as [_ ?].
  - intros f. rewrite Ha. split; [by intros [?%not_elem_of_empty|?]|by right].
  - intros f. rewrite Hu. split; [by intros [?%not_elem_of_empty|?]|by right].
Qed.

Lemma template_field w args f k : (f, k) ∈ template_fields w args -> exists fv, (f, fv) ∈ Fields (w_Spec w)
  /\ k = write_field (is_new_row (w_Spec w)) (length (w_Path w) =? 1)%nat args fv.
Proof. intros ([f' fv] & [= -> ->] & Hin)%list_elem_of_fmap. by exists fv. Qed.

(** The cases of a field of the template. *)
Lemma write_field_cases newRow (path : list gostring) args fv :
  match write_field newRow (length path =? 1)%nat args fv with
  | FieldIs v => HasLiteral fv = true /\ v = Literal fv
      \/ HasLiteral fv = false /\ Arg fv <> [] /\ length path = 1%nat /\ exists x, map_get args (Arg fv) = Some x /\ literalArg x = Some v
  | FieldAbsent => HasLiteral fv = false /\ Arg fv <> [] /\ length path = 1%nat /\ map_get args (Arg fv) = None /\ newRow = true
  | FieldUnknown => True
  end.
Proof.
  unfold write_field. destruct (HasLiteral fv); [by left|]. destruct (Arg fv =s []) eqn:Ea; [done|]. cbn [negb andb].
  apply eqs_false in Ea. destruct (Nat.eqb_spec (length path) 1) as [Hp|Hp]; [|done].
  destruct (map_get args (Arg fv)) as [x|] eqn:Ex; [|by destruct newRow]. destruct (literalArg x) as [v|] eqn:El; [|done].
  right. eauto 10.
Qed.

Lemma writeRow_holds w args upd given rendered : NoDup (rendered.*1) -> passes args given -> renders w given rendered ->
  holds (writeRow w args upd) rendered.
Proof.
  intros Hnd [Hout Hlit] [Rl Ra Ro Rn]. destruct (writeRow_fields w args upd) as (_ & Ho & _ & Hf & Hn & Ha & Hu). split; [done| |].
  - intros f v Hv. apply Hf, template_field in Hv as (fv & Hin & Hk).
    pose proof (write_field_cases (is_new_row (w_Spec w)) (w_Path w) args fv) as Hc. rewrite <- Hk in Hc.
    destruct Hc as [[Hl ->]|(Hl & Hne & Hp & x & Hx & Hxl)]; [by apply Rl|]. destruct (Hlit _ _ _ Hx Hxl) as (u & Hu' & Hlike).
    exists u. split; [by apply (Ra f fv)|]. by rewrite (normal_like v u Hlike).
  - intros f Hnone Hunk [Hab|Hoth].
    + apply Ha, template_field in Hab as (fv & Hin & Hk).
      pose proof (write_field_cases (is_new_row (w_Spec w)) (w_Path w) args fv) as Hc. rewrite <- Hk in Hc.
      destruct Hc as (Hl & Hne & Hp & Hx & Hnew). apply (Ro f fv); auto.
    + rewrite Ho in Hoth. destruct (decide (f ∈ (Fields (w_Spec w)).*1)) as [Hin|Hin]; [|by apply Rn].
      apply list_elem_of_fmap in Hin as ([f' fv] & -> & Hin). cbn in *.
      assert (Ht : (f', write_field (is_new_row (w_Spec w)) (length (w_Path w) =? 1)%nat args fv) ∈ template_fields w args).
      { apply list_elem_of_fmap. by exists (f', fv). }
      pose proof (write_field_cases (is_new_row (w_Spec w)) (w_Path w) args fv) as Hc.
      destruct (write_field _ _ _ _) as [v| |]; [by apply Hn in Ht| |by apply Hu in Ht].
      destruct Hc as (Hl & Hne & Hp & Hx & Hnew). apply (Ro f' fv); auto.
Qed.

(** *** Hooks *)

Definition no_assignment (writes : list (option gostring)) : bool :=
  existsb (fun w => match w with None => true | Some _ => false end) writes.

Lemma no_assignment_true writes : no_assignment writes = true <-> None ∈ writes.
Proof.
  unfold no_assignment. rewrite existsb_exists. setoid_rewrite <- list_elem_of_In. split; [intros ([|] & Hx & Hn); done|].
  intros Hn. by exists None.
Qed.

Lemma invalidate_holds nodes p rendered stored : holds (p_row p) rendered -> NoDup (stored.*1) ->
  (forall f, None ∉ hook_writes nodes p -> Some f ∉ hook_writes nodes p -> map_get stored f = map_get rendered f) ->
  (p_kind p =s kindPublish) || (p_concept p =s []) = false ->
  holds (p_row (invalidateBeforeWriteFields nodes p)) stored.
Proof.
  intros [_ Hf Ha] Hnd Hst Hk. unfold invalidateBeforeWriteFields. rewrite Hk. cbv zeta. cbn [p_row].
  fold (no_assignment (hook_writes nodes p)). set (all := no_assignment (hook_writes nodes p)).
  set (named := list_to_set (omap id (hook_writes nodes p)) : gset gostring).
  assert (Hnamed : forall f, f ∈ named <-> Some f ∈ hook_writes nodes p).
  { intros f. unfold named. rewrite elem_of_list_to_set, list_elem_of_omap. split; [intros (x & Hx & Ex)|intros Hx; by exists (Some f)].
    cbn in Ex. by subst. }
  assert (Hall : all = false -> None ∉ hook_writes nodes p).
  { intros E Hin. apply no_assignment_true in Hin. unfold all in E. congruence. }
  split; [done| |]; cbn [k_Fields k_Unknown k_Absent k_OthersKnown].
  - intros f k [Hl Hn]%map_lookup_filter_Some. cbn [fst] in Hn. rewrite not_elem_of_union, Hnamed in Hn. destruct Hn as [Hnf Hno].
    destruct all eqn:Ea.
    + destruct Hno. apply elem_of_union_l, elem_of_dom. eauto.
    + destruct (Hf f k Hl) as (v & Hv & Hlike). exists v. rewrite Hst by auto. done.
  - intros f Hl Hu Hor. rewrite not_elem_of_union in Hu. destruct Hu as [Hch Hu].
    assert (Hl' : k_Fields (p_row p) !! f = None).
    { destruct (k_Fields (p_row p) !! f) as [k|] eqn:E; [|done]. apply map_lookup_filter_None in Hl as [Hl|Hl]; [congruence|].
      by specialize (Hl k E). }
    rewrite not_elem_of_union, Hnamed in Hch. destruct Hch as [Hnf Hno]. destruct all eqn:Ea.
    + destruct Hor as [[Hab _]%elem_of_difference|?]; [|done]. destruct Hno. by apply elem_of_union_r.
    + rewrite Hst by auto. apply Ha; [done|done|]. destruct Hor as [[Hab _]%elem_of_difference|?]; [by left|by right].
Qed.

Lemma invalidate_rest nodes p : let q := invalidateBeforeWriteFields nodes p in
  p_kind q = p_kind p /\ p_concept q = p_concept p /\ p_topic q = p_topic p /\ k_Concept (p_row q) = k_Concept (p_row p)
  /\ k_FirstVersion (p_row q) = k_FirstVersion (p_row p) /\ k_Absent (p_row q) ⊆ k_Absent (p_row p).
Proof.
  cbv zeta. unfold invalidateBeforeWriteFields. destruct (_ || _); cbn; split_and!; try done. set_solver.
Qed.

(** *** The row an event step is known to make *)

Lemma publish_row_holds p via payload : NoDup ((gp_payload p).*1) -> NoDup (payload.*1) -> passes (gp_payload p) payload ->
  let row := p_row (publishProduction p via) in
  holds row payload /\ k_Concept row = [] /\ (forall b, k_FirstVersion row = triOf b -> k_Fields row !! go "firstVersion" = Some (XBool b)).
Proof.
  intros Hkeys Hnd [Hout Hlit]. cbv zeta. unfold publishProduction. cbv zeta. cbn [p_row k_Concept k_FirstVersion k_Fields].
  set (row0 := mkKnown [] ∅ ∅ true triUnknown ∅). set (l := (fun kv => (kv.1, publish_field kv.2)) <$> gp_payload p).
  assert (fold_left (fun row kv => add_field row kv.1 (publish_field kv.2)) (gp_payload p) row0
    = fold_left (fun row (fk : gostring * field_known) => add_field row fk.1 fk.2) l row0) as ->.
  { exact (fold_left_map (fun row (fk : gostring * field_known) => add_field row fk.1 fk.2)
      (fun kv => (kv.1, publish_field kv.2)) (gp_payload p) row0). }
  pose proof (add_fields_spec l row0) as Hs. cbv zeta in Hs. set (row := fold_left _ l row0) in *.
  destruct Hs as (Hc & Ho & _ & Hf & Hn & Ha & Hu).
  assert (Hin : forall f k, (f, k) ∈ l -> exists x, map_get (gp_payload p) f = Some x /\ k = publish_field x).
  { intros f k ([f' x] & [= -> ->] & Hx)%list_elem_of_fmap. exists x. split; [by apply map_get_elem_of|done]. }
  split; [|split; [by rewrite Hc|]].
  - split; [done| |]; cbn [k_Fields k_Unknown k_Absent k_OthersKnown].
    + intros f v Hv. apply Hf in Hv as [?|Hv]; [done|]. apply Hin in Hv as (x & Hx & Hk). unfold publish_field in Hk.
      destruct (literalArg x) as [lit|] eqn:El; [|done]. injection Hk as ->. destruct (Hlit _ _ _ Hx El) as (u & Hu' & Hl).
      exists u. by rewrite (normal_like lit u Hl).
    + intros f Hnone Hunk _. destruct (map_get (gp_payload p) f) as [x|] eqn:Ex; [|by apply Hout].
      assert (Hfl : (f, publish_field x) ∈ l) by (apply list_elem_of_fmap; exists (f, x); split; [done|by apply map_get_Some_elem]).
      unfold publish_field in Hfl. destruct (literalArg x); [by apply Hn in Hnone as [_ Hno]; apply Hno in Hfl|].
      destruct Hunk. apply Hu. by right.
  - intros b. destruct (k_Fields row !! go "firstVersion") as [v|]; [|by destruct b]. destruct v; try (by destruct b).
    by destruct b, b0.
Qed.

(** ** Runs *)

Context `{GoFmt, GoRegexp} (bd : graphBuilder).
Abbreviation nodes := (b_nodes bd).

Definition runs_sub : nat -> nat -> Prop := calls_sub (fun j => sf_subs (facts_at bd j)) (b_byName bd).

(** The events a run of automation [i] puts on the bus. *)
Inductive emits (i : nat) : trigger_event -> Prop :=
| emits_created k c w wr now : rtc runs_sub i k -> c ∈ sf_calls (facts_at bd k) -> w ∈ UnionWrites [c.1] (b_reg bd) ->
    performs nodes w c.2 wr -> emits i (created_event now wr)
| emits_updated k c w wr now : rtc runs_sub i k -> c ∈ sf_calls (facts_at bd k) -> w ∈ UnionWrites [c.1] (b_reg bd) ->
    performs nodes w c.2 wr -> ws_Kind (w_Spec w) <> MutationKindInsert -> emits i (updated_event now wr)
| emits_published k p topic kind payload now : rtc runs_sub i k -> p ∈ sf_publishes (facts_at bd k) ->
    NoDup ((gp_payload p).*1) -> NoDup (payload.*1) -> passes (gp_payload p) payload ->
    (gp_topic p <> [] -> topic = gp_topic p) -> (gp_topic p = [] -> HasPrefix topic (go "graph") = false) ->
    HasPrefix topic (go "graph.node.") = false -> emits i (published_event now topic kind payload).

(** A run of [i] fires [j]. *)
Definition run_fires (i j : nat) : Prop := exists from to event,
  nodes !! i = Some from /\ a_BeforeWrite from = None /\ nodes !! j = Some to /\ IsEventTriggered to = true
  /\ emits i event /\ Match (pattern_of to) (te_Topic event) = true
  /\ match triggerFilterLambda to with
     | Ok filter => exists (W : Type) ctx clock (opts : EvalOptions W) w, fires ctx clock opts w (a_Args to) filter event = true
     | Err _ => True
     end.

(** The filters and args blocks the load judges as the run does. *)
Definition judged_as_run (to : Automation) (p : production) : bool :=
  match triggerFilterLambda to with
  | Ok (Some ([param], body)) => filter_ok param (p_row p) (declaredArgs (a_Args to)) body
  | _ => true
  end.

Definition analysable : bool :=
  forallb (fun to => negb (bool_decide (go "concept" ∈ declaredArgs (a_Args to)))
    && forallb (fun i => forallb (judged_as_run to) (productions bd i)) (seq 0 (length nodes))) nodes.

Context (Hnames : forall name k, b_byName bd !! name = Some k -> (k < length nodes)%nat).

Lemma entered_complete i k : rtc runs_sub i k -> exists via, (k, via) ∈ entered_from bd i.
Proof.
  intros Hr. unfold entered_from.
  destruct (sub_walk_spec (fun j => sf_subs (facts_at bd j)) (b_byName bd) (length nodes) Hnames (S (length nodes)) i [] ([i], [(i, [])]))
    as (st & -> & [Hs Ho Hn] & Hc).
  { unfold fresh. pose proof (List.filter_length_le (fun k => negb (memn k [i])) (seq 0 (length nodes))) as Hle.
    rewrite length_seq in Hle. cbn [fst]. lia. }
  assert (Hclosed : forall x y, x ∈ st.1 -> runs_sub x y -> y ∈ st.1).
  { intros x y Hx Hxy. destruct (Hn x Hx) as [[->|[]%not_elem_of_nil]%elem_of_cons|[_ Hx']]; [by apply Hc|by apply Hx']. }
  assert (Hk : k ∈ st.1).
  { assert (Hi : i ∈ st.1) by (apply Hs; by left). clear -Hr Hi Hclosed. induction Hr as [|x y z Hxy _ IH]; [done|]. apply IH. by eapply Hclosed. }
  destruct (Hn k Hk) as [[->|[]%not_elem_of_nil]%elem_of_cons|[Hv _]]; [|done]. exists []. apply Ho. by left.
Qed.

Lemma production_of i from k (q : list gostring -> production) : nodes !! i = Some from -> a_BeforeWrite from = None ->
  rtc runs_sub i k -> (forall via, q via ∈ ownProductions (b_reg bd) (facts_at bd k) via) ->
  exists via, invalidateBeforeWriteFields nodes (q via) ∈ productions bd i.
Proof.
  intros Hi Hb Hr Hq. destruct (entered_complete i k Hr) as (via & Hvia). exists via. unfold productions. rewrite Hi. cbn. rewrite Hb.
  rewrite sort_stable_perm. apply list_elem_of_fmap. exists (q via). split; [done|].
  apply list_elem_of_In, in_concat. exists (ownProductions (b_reg bd) (facts_at bd k) via). rewrite <- !list_elem_of_In. split; [|done].
  apply list_elem_of_fmap. by exists (k, via).
Qed.

Lemma write_production c w k via topic : c ∈ sf_calls (facts_at bd k) -> w ∈ UnionWrites [c.1] (b_reg bd) ->
  topic = BuildTopicWithConcept TopicGraphNodeCreated (w_Concept w)
  \/ ws_Kind (w_Spec w) <> MutationKindInsert /\ topic = BuildTopicWithConcept TopicGraphNodeUpdated (w_Concept w) ->
  mkProduction (ws_Kind (w_Spec w)) (w_Concept w) topic (via ++ w_Path w) (writeRow w c.2 (HasPrefix topic (TopicGraphNodeUpdated ++ dot)))
    ∈ ownProductions (b_reg bd) (facts_at bd k) via.
Proof.
  intros Hc Hw Ht. apply elem_of_app. left. apply list_elem_of_In, in_concat.
  exists (concat ((fun w => writeProductions w c.2 (via ++ w_Path w)) <$> UnionWrites [c.1] (b_reg bd))).
  rewrite <- !list_elem_of_In. split; [apply list_elem_of_fmap; by exists c|].
  apply list_elem_of_In, in_concat. exists (writeProductions w c.2 (via ++ w_Path w)). rewrite <- !list_elem_of_In.
  split; [apply list_elem_of_fmap; by exists w|]. apply list_elem_of_fmap. exists topic. split; [done|].
  destruct Ht as [->|[Hk ->]]; [by left|]. destruct (ws_Kind (w_Spec w) =s MutationKindInsert) eqn:E; [by apply eqs_true in E|].
  right. by left.
Qed.

(** A hook that runs is one the graph counts. *)
Lemma assigned_counted w wr topic via args upd f : performs nodes w args wr ->
  f ∈ assigned nodes wr -> f ∈ hook_writes nodes (mkProduction (ws_Kind (w_Spec w)) (w_Concept w) topic via (writeRow w args upd)).
Proof.
  intros Hp Hf. unfold assigned, hook_writes in *. apply list_elem_of_In, in_concat in Hf as (l & Hl & Hf).
  apply list_elem_of_In, in_concat. exists l. split; [|done]. rewrite <- list_elem_of_In in *.
  apply list_elem_of_fmap in Hl as (a & -> & Ha). apply list_elem_of_fmap. exists a. split; [done|].
  rewrite list_elem_of_In, filter_In in *. destruct Ha as [Ha Hruns]. split; [done|]. unfold hook_runs, hook_applies in *.
  destruct (a_BeforeWrite a) as [hook|]; [|done]. cbn [p_kind p_concept p_row].
  apply andb_true_iff in Hruns as [[Hcon Hcr]%andb_true_iff Hup]. rewrite (pf_concept _ _ _ _ Hp) in Hcon. rewrite Hcon. cbn [andb].
  apply andb_true_iff. split.
  - destruct (bw_On hook =s go "create"); [|done]. cbn [negb andb] in *. destruct (ws_Kind (w_Spec w) =s MutationKindUpdate) eqn:E; [|done].
    apply eqs_true in E. by rewrite (pf_update _ _ _ _ Hp E) in Hcr.
  - destruct (bw_On hook =s go "update"); [|done]. cbn [negb andb] in *. case_bool_decide as Hv; [|by rewrite andb_false_r].
    destruct (writeRow_fields w args upd) as (_ & _ & Hfv & _). rewrite Hfv in Hv. unfold first_version in Hv.
    destruct (is_new_row (w_Spec w)) eqn:En; [by rewrite (pf_new _ _ _ _ Hp En) in Hup|].
    by destruct (upd || _), (ws_Kind (w_Spec w) =s MutationKindUpdate).
Qed.

(** The row of a write's production holds of what the write lands. *)
Lemma performed_holds w wr topic via args upd : performs nodes w args wr ->
  holds (p_row (invalidateBeforeWriteFields nodes (mkProduction (ws_Kind (w_Spec w)) (w_Concept w) topic via (writeRow w args upd)))) (wr_Payload wr).
Proof.
  intros Hp. destruct (pf_rendered _ _ _ _ Hp) as (given & rendered & Hpass & Hrend & Hnd & Hst).
  apply (invalidate_holds nodes _ rendered); cbn [p_row p_kind p_concept].
  - by eapply writeRow_holds.
  - apply Hp.
  - intros f Hno Hnf. apply Hst; [contradict Hno|contradict Hnf]; by eapply assigned_counted.
  - apply orb_false_iff. split; apply eqs_false; apply Hp.
Qed.

Lemma created_not_updated c : TrimSpace c = c -> c <> [] ->
  HasPrefix (BuildTopicWithConcept TopicGraphNodeCreated c) (TopicGraphNodeUpdated ++ dot) = false.
Proof. intros Ht Hc. unfold BuildTopicWithConcept. cbv zeta. rewrite Ht. destruct (c =s []) eqn:E; [by apply eqs_true in E|done]. Qed.

Lemma updated_is_updated c : TrimSpace c = c -> c <> [] ->
  HasPrefix (BuildTopicWithConcept TopicGraphNodeUpdated c) (TopicGraphNodeUpdated ++ dot) = true.
Proof.
  intros Ht Hc. unfold BuildTopicWithConcept. cbv zeta. rewrite Ht. destruct (c =s []) eqn:E; [by apply eqs_true in E|].
  rewrite (assoc_L (++)). apply HasPrefix_app.
Qed.

Lemma version_agrees w wr args : performs nodes w args wr ->
  agrees (first_version (w_Spec w) (is_new_row (w_Spec w)) false) (negb (wr_priorExisted wr)).
Proof.
  intros Hp. unfold first_version. cbn [orb]. destruct (negb _); [done|].
  destruct (ws_Kind (w_Spec w) =s MutationKindUpdate) eqn:E; [apply eqs_true in E; cbn; by rewrite (pf_update _ _ _ _ Hp E)|].
  destruct (is_new_row (w_Spec w)) eqn:En; [cbn; by rewrite (pf_new _ _ _ _ Hp En)|done].
Qed.

Lemma graph_pattern pattern topic : HasPrefix pattern (go "graph.") = true -> Match pattern topic = true -> HasPrefix topic (go "graph") = true.
Proof.
  intros (t & ->)%HasPrefix_inv. unfold Match.
  change ((go "graph." ++ t) =s hash) with false. change ((go "graph." ++ t) =s []) with false. cbn [orb].
  destruct (topic =s []) eqn:Et; [apply eqs_true in Et as ->; done|].
  destruct ((go "graph." ++ t) =s topic) eqn:E; [intros _; apply eqs_true in E as <-; done|].
  change (Split (go "graph." ++ t) 46) with (go "graph" :: Split t 46).
  pose proof (Join_Split topic 46) as Hj. destruct (Split topic 46) as [|seg rest]; [done|].
  cbn [matchParts]. change (go "graph" =s hash) with false. change (go "graph" =s star) with false. cbv iota.
  unfold segment_matches. change (ContainsAny (go "graph") (go "*?")) with false. cbv iota.
  intros [Hs _]%andb_true_iff. apply eqs_true in Hs as ->. rewrite <- Hj. destruct rest; [done|]. apply HasPrefix_app.
Qed.

(** Every event of a run is one of its automation's productions. *)
Lemma emits_carried i from event args : nodes !! i = Some from -> a_BeforeWrite from = None -> go "concept" ∉ args ->
  emits i event -> exists p, p ∈ productions bd i /\ carried (p_row p) args event
    /\ forall pattern, Match pattern (te_Topic event) = true -> topic_matches pattern p = true.
Proof.
  intros Hi Hb Hargs. destruct 1 as [k c w wr now Hr Hc Hw Hp|k c w wr now Hr Hc Hw Hp Hkind|k p topic kind payload now Hr Hpub Hk1 Hk2 Hpass Ht He Hg].
  - destruct (pf_trimmed _ _ _ _ Hp) as [Htr Hne].
    destruct (production_of i from k (fun via => mkProduction (ws_Kind (w_Spec w)) (w_Concept w)
      (BuildTopicWithConcept TopicGraphNodeCreated (w_Concept w)) (via ++ w_Path w) (writeRow w c.2 false)) Hi Hb Hr) as (via & Hin).
    { intros via. pose proof (write_production c w k via _ Hc Hw (or_introl eq_refl)) as Hin. by rewrite created_not_updated in Hin. }
    eexists. split; [exact Hin|]. clear Hin. set (p := mkProduction _ _ _ _ _).
    destruct (invalidate_rest nodes p) as (_ & _ & Et & Ec & Ev & _). destruct (writeRow_fields w c.2 false) as (Hcon & _ & Hver & _).
    pose proof (pf_concept _ _ _ _ Hp) as Ewc. split.
    + apply carried_created; [by apply performed_holds|by rewrite Ec, Ewc|by rewrite Ewc|by rewrite Ewc| |done].
      rewrite Ev. cbn [p_row p]. rewrite Hver. by eapply version_agrees.
    + intros pattern Hm. unfold topic_matches. rewrite Et. cbn [te_Topic created_event] in Hm. rewrite Ewc in Hm. cbn [p_topic p].
      destruct (BuildTopicWithConcept TopicGraphNodeCreated (w_Concept w) =s []) eqn:E0; [|done]. exfalso. apply eqs_true in E0.
      unfold BuildTopicWithConcept in E0. by destruct (TrimSpace (w_Concept w) =s []).
  - destruct (pf_trimmed _ _ _ _ Hp) as [Htr Hne].
    destruct (production_of i from k (fun via => mkProduction (ws_Kind (w_Spec w)) (w_Concept w)
      (BuildTopicWithConcept TopicGraphNodeUpdated (w_Concept w)) (via ++ w_Path w) (writeRow w c.2 true)) Hi Hb Hr) as (via & Hin).
    { intros via. pose proof (write_production c w k via _ Hc Hw (or_intror (conj Hkind eq_refl))) as Hin. by rewrite updated_is_updated in Hin. }
    eexists. split; [exact Hin|]. clear Hin. set (p := mkProduction _ _ _ _ _).
    destruct (invalidate_rest nodes p) as (_ & _ & Et & Ec & Ev & _). destruct (writeRow_fields w c.2 true) as (Hcon & _ & Hver & _).
    pose proof (pf_concept _ _ _ _ Hp) as Ewc. split.
    + apply carried_updated; [by apply performed_holds|by rewrite Ec, Ewc|by rewrite Ewc|by rewrite Ewc| |done].
      rewrite Ev. cbn [p_row p]. by rewrite Hver.
    + intros pattern Hm. unfold topic_matches. rewrite Et. cbn [te_Topic updated_event] in Hm. rewrite Ewc in Hm. cbn [p_topic p].
      destruct (BuildTopicWithConcept TopicGraphNodeUpdated (w_Concept w) =s []) eqn:E0; [|done]. exfalso. apply eqs_true in E0.
      unfold BuildTopicWithConcept in E0. by destruct (TrimSpace (w_Concept w) =s []).
  - destruct (production_of i from k (publishProduction p) Hi Hb Hr) as (via & Hin).
    { intros via. apply elem_of_app. right. apply list_elem_of_fmap. by exists p. }
    eexists. split; [exact Hin|]. clear Hin. change (invalidateBeforeWriteFields nodes (publishProduction p via)) with (publishProduction p via).
    destruct (publish_row_holds p via payload Hk1 Hk2 Hpass) as (Hh & Hcon & Hver). split; [by apply carried_published|].
    intros pattern Hm. cbn [te_Topic published_event] in Hm. unfold topic_matches. cbn [p_topic publishProduction p_kind].
    destruct (gp_topic p =s []) eqn:E0; [apply eqs_true in E0|apply eqs_false in E0]; cbn [negb]; [|by rewrite <- Ht].
    apply negb_true_iff. destruct (HasPrefix pattern (go "graph.")) eqn:Eg; [|done]. apply (graph_pattern _ _ Eg) in Hm. by rewrite He in Hm.
Qed.

Lemma analysable_at to i from : analysable = true -> to ∈ nodes -> nodes !! i = Some from ->
  go "concept" ∉ declaredArgs (a_Args to) /\ forall p, p ∈ productions bd i -> judged_as_run to p = true.
Proof.
  unfold analysable. rewrite forallb_forall. intros Han Hto Hi. specialize (Han to ltac:(by apply list_elem_of_In)).
  apply andb_true_iff in Han as [Hc Han]. apply negb_true_iff, bool_decide_eq_false in Hc. split; [done|]. intros p Hp.
  rewrite forallb_forall in Han. specialize (Han i). rewrite forallb_forall in Han. apply Han; [|by apply list_elem_of_In].
  apply list_elem_of_In, elem_of_seq. apply lookup_lt_Some in Hi. lia.
Qed.

(** Every firing is an edge. *)
Lemma run_fires_edge i j : analysable = true -> run_fires i j -> edge (succ_of bd) i j.
Proof.
  intros Han (from & to & event & Hi & Hb & Hj & Htr & Hem & Hm & Hf). apply edge_iff.
  destruct (analysable_at to i from Han (list_elem_of_lookup_2 _ _ _ Hj) Hi) as [Hc Hjudge].
  destruct (emits_carried i from event (declaredArgs (a_Args to)) Hi Hb Hc Hem) as (p & Hp & Hcar & Htopic).
  exists from, to, p. split_and!; try done. split; [by apply Htopic|]. specialize (Hjudge p Hp). unfold judged_as_run in Hjudge.
  unfold filter_answer. destruct (triggerFilterLambda to) as [[[params body]|]|]; [|done|done].
  destruct params as [|param [|]]; [done| |done]. destruct Hf as (W & ctx & clock & opts & w & Hf). intros Hd.
  by rewrite (dropped_never_fires ctx clock opts w (a_Args to) param body (p_row p) event Hcar Hjudge Hd) in Hf.
Qed.
End Runs.

(** ** A graph without refusals *)

Section Clean.
Context `{UnicodeTables, GoFmt, GoRegexp} (automations : list Automation) (reg : Registry) (depthCap : Z).
Abbreviation g := (BuildLoopGraph automations reg depthCap).
Abbreviation b := (new_builder automations reg).

Lemma names_in_range name k : b_byName b !! name = Some k -> (k < length (b_nodes b))%nat.
Proof.
  cbn [b_byName b_nodes new_builder]. set (nodes := sort_stable node_ltb (List.filter IsEnabled automations)).
  assert (Hgo : forall l m, (forall name k, m !! name = Some k -> (k < length nodes)%nat) -> (forall i a, (i, a) ∈ l -> (i < length nodes)%nat) ->
    forall name k, fold_left (add_name nodes) l m !! name = Some k -> (k < length nodes)%nat).
  { induction l as [|[i a] l IH]; intros m Hm Hl; cbn; [done|]. apply IH; [|intros ? ? ?; eapply Hl; by right].
    assert (Hins : forall name' k', <[a_Name a := i]> m !! name' = Some k' -> (k' < length nodes)%nat).
    { intros name' k' [[_ <-]|[_ ?]]%lookup_insert_Some; [eapply Hl; by left|by eapply Hm]. }
    intros name' k'. unfold add_name. cbn. destruct (m !! a_Name a) as [prior|]; [destruct (_ && _)|]; first [apply Hins|apply Hm]. }
  apply Hgo; [done|]. intros i a (j & a' & [= <- <-] & Hj)%elem_of_lookup_imap. by apply lookup_lt_Some in Hj.
Qed.

(** A firing between automations that carry no @loop. *)
Definition uncovered_firing (i j : nat) : Prop :=
  run_fires b i j /\ is_loop (b_nodes b) i = false /\ is_loop (b_nodes b) j = false.

Lemma no_uncovered_firing : analysable b = true -> (forall p, p ∈ g_Problems g -> lp_Code p <> codeLoopCycle) ->
  forall i, ~ tc uncovered_firing i i.
Proof.
  intros Han Hno i Ht. destruct (proj2 (cycle_refusals automations reg depthCap)) as (p & Hp & Hc); [|by apply (Hno p)].
  exists i. rewrite build_succ, build_nodes. eapply (tc_congruence id); [|exact Ht]. intros x y (Hf & Hx & Hy). split; [|done].
  by apply run_fires_edge; [apply names_in_range| |].
Qed.
End Clean.

(** ** Theorem *)

Lemma walks_prefix (R : nat -> nat -> Prop) l k : walks R (l ++ k) -> walks R l.
Proof.
  induction l as [|x l IH]; [done|]. destruct l as [|y l]; [done|]. intros [Hxy Hl]. split; [done|]. by apply IH.
Qed.

Lemma walks_acyclic (R : nat -> nat -> Prop) l : (forall x, ~ tc R x x) -> walks R l -> NoDup l.
Proof.
  intros Hac. induction l as [|x l IH]; intros Hw; [constructor|].
  assert (Hwl : walks R l) by (destruct l; [done|apply Hw]). constructor; [|by apply IH].
  intros (pre & post & ->)%list_elem_of_split. apply (Hac x), (walks_tc _ _ pre), (walks_prefix _ _ post).
  by rewrite <- app_comm_cons, <- (assoc_L (++)).
Qed.


(** *** A firing *)

#[local] Existing Instance latin1_tables.
#[local] Existing Instance plain_fmt.
#[local] Existing Instance no_regexp.

Definition closed_order : written :=
  mkWritten (go "v1:shop:order:a1") (go "order") (go "v1:shop:order") [(go "status", XStr (go "done"))] 0 true (go "open") [].

Definition close_write : Write :=
  mkWrite (go "v1:shop:order") (go "closeOrder") [go "closeOrder"]
    (mkWriteSpec (go "update") false [(go "status", mkFieldValue (XStr (go "done")) true [])]).

Lemma close_performs : performs (b_nodes (new_builder [sample_log; sample_close] shop_registry)) close_write [] closed_order.
Proof.
  split; [|apply (bool_decide_eq_true_1 _); by vm_compute|done..].
  exists [], [(go "status", XStr (go "done"))]. split_and!.
  - by split.
  - split; [|done|done|done]. intros f fv [[= -> ->]|[]%not_elem_of_nil]%elem_of_cons _. exists (XStr (go "done")). by vm_compute.
  - apply (bool_decide_eq_true_1 _). by vm_compute.
  - done.
Qed.

Lemma close_fires_log : uncovered_firing [sample_log; sample_close] shop_registry 0 1.
Proof.
  split; [|by vm_compute]. exists sample_close, sample_log, (updated_event 7 closed_order). split_and!; try (by vm_compute).
  - apply (emits_updated _ 0%nat 0%nat (go "closeOrder", []) close_write); [done|vm_compute; by left|vm_compute; by left|exact close_performs|done].
  - exists unit, (fun _ => false), 0, no_hooks, tt. by vm_compute.
Qed.

