(* ===== verification/LoopRuntime.v ===== *)
(** The loop protection at run time: component/automations/loop_runtime.go, the
    cause of a fire in executor.go and the trigger event journal.go records.

    The fingerprint of a map is a parameter ([Fingerprint]); a context is the
    cause it carries. *)

From Stdlib Require Import SpecFloat.
From S2P Require Import Prelude GoText GoSort Strconv Numbers Events.
From S2P Require Import ExprNumbers Values Ast Scope Eval Triggers LoopGraph.

(** The fingerprint of a map as JSON; [None] when it does not encode. *)
Class Fingerprint := { fp_FromMap : list (gostring * decoded) -> option gostring }.

(** ** The triggering event *)

(** events.Event, as far as the loop protection reads it. *)
Record run_event := mkRunEvent {
  re_Topic : gostring;
  re_Kind : Z;
  re_Payload : list (gostring * decoded);
  re_Cause : Cause
}.

Section Runtime.
Context `{Fingerprint}.

Definition rootCorrelation (ev : run_event) : gostring :=
  go "evt-" ++
  match fp_FromMap [(go "topic", DString (re_Topic ev)); (go "kind", DString (Kind_String (re_Kind ev)));
                    (go "payload", DMap (re_Payload ev))] with
  | Some fp => fp
  | None => default [] (fp_FromMap [(go "topic", DString (re_Topic ev)); (go "kind", DString (Kind_String (re_Kind ev)))])
  end.

(** ** Causes *)

(** The parent cause and the run's own. *)
Definition runCause (ctx : option Cause) (name runId : gostring) (ev : option run_event) : Cause * Cause :=
  let parent :=
    match ev with
    | Some e => if negb (IsZero (re_Cause e)) then re_Cause e else default zeroCause (CauseFromContext ctx)
    | None => default zeroCause (CauseFromContext ctx)
    end in
  let correlation :=
    if negb (CorrelationId parent =s []) then CorrelationId parent
    else match ev with Some e => rootCorrelation e | None => runId end in
  (parent, Next parent name runId correlation).

(** A run's chain without the run. *)
Definition priorRuns (run : Cause) : list Link :=
  match last (Chain run) with
  | Some l => if l_RunId l =s CausationId run then take (length (Chain run) - 1) (Chain run) else Chain run
  | None => Chain run
  end.

(** ** The bound *)

Inductive loop_reason : Type := LoopStopDepth | LoopStopLoopBound.

Record LoopRefusal := mkRefusal {
  lr_Reason : loop_reason;
  lr_Automation : gostring;
  lr_Depth : Z;
  lr_Cap : Z;
  lr_Cause : Cause
}.

Definition count_runs (name : gostring) (chain : list Link) : Z :=
  Z.of_nat (length (List.filter (fun l => l_Automation l =s name) chain)).

Definition loopBound (automation : Automation) (run : Cause) (cap : Z) : option LoopRefusal :=
  if cap <? Depth run then Some (mkRefusal LoopStopDepth (a_Name automation) (Depth run) cap run)
  else
    match a_Loop automation with
    | Some loop =>
        if (0 <? lc_MaxDepth loop) && (lc_MaxDepth loop <=? count_runs (a_Name automation) (priorRuns run))
        then Some (mkRefusal LoopStopLoopBound (a_Name automation) (Depth run) (lc_MaxDepth loop) run)
        else None
    | None => None
    end.

Definition contextWithRunCause (ctx : option Cause) (parent run : Cause) (refusal : option LoopRefusal) : option Cause :=
  match refusal with Some _ => ContextWithCause ctx parent | None => ContextWithCause ctx run end.

(** The start of executeWithEvent: the context a fire runs under, and its refusal. *)
Definition start_fire (cap : Z) (ctx : option Cause) (automation : Automation) (runId : gostring) (ev : option run_event)
    : option Cause * option LoopRefusal :=
  let '(parent, run) := runCause ctx (a_Name automation) runId ev in
  let refusal := loopBound automation run cap in
  (contextWithRunCause ctx parent run refusal, refusal).

(** ** The refusal as text *)

Definition PriorRuns (r : LoopRefusal) : list Link := priorRuns (lr_Cause r).

Definition chainText (chain : list Link) : gostring :=
  match chain with
  | [] => go "(no run recorded)"
  | _ => Join ((fun l => l_Automation l ++ go " (" ++ l_RunId l ++ go ")") <$> chain) (go " -> ")
  end.

Definition TerminalLoopDepthExceeded : gostring := go "loop_depth_exceeded".

Definition refusal_text (r : LoopRefusal) : gostring :=
  TerminalLoopDepthExceeded ++ go ": " ++ lr_Automation r ++ go " would run at depth " ++ FormatInt (lr_Depth r) ++ go ", "
  ++ match lr_Reason r with
     | LoopStopDepth => go "past the cap of " ++ FormatInt (lr_Cap r)
     | LoopStopLoopBound => go "past its @loop maxDepth of " ++ FormatInt (lr_Cap r) ++ go " runs in one chain"
     end
  ++ go "; chain: " ++ chainText (PriorRuns r) ++ go " [" ++ TerminalLoopDepthExceeded ++ go "]".

(** ** A journaled run *)

Definition kindScanLimit : nat := 256.

Definition kindNamed (name : gostring) : Z :=
  default 0 (List.find (fun k => Kind_String k =s name) (Z.of_nat <$> seq 0 kindScanLimit)).

Definition field_map (m : list (gostring * decoded)) (k : gostring) : list (gostring * decoded) :=
  match field m k with Some (DMap x) => x | _ => [] end.

Definition journalTriggerEvent (m : option (list (gostring * decoded))) : option run_event :=
  (fun m => mkRunEvent (field_string m (go "topic")) (kindNamed (field_string m (go "kind"))) (field_map m (go "payload"))
              (CauseFromMap (field_map m (go "cause")))) <$> m.

Definition journalRunCause (ctx : option Cause) (name runId : gostring) (triggerEvent : option (list (gostring * decoded))) : Cause :=
  (runCause ctx name runId (journalTriggerEvent triggerEvent)).2.

(** openRunArgs' triggerEvent, as JSON. *)
Definition recorded_trigger (ev : option run_event) (parent : Cause) : option (list (gostring * decoded)) :=
  (fun e => [(go "topic", DString (re_Topic e)); (go "kind", DString (Kind_String (re_Kind e))); (go "payload", DMap (re_Payload e))]
            ++ if IsZero parent then [] else [(go "cause", DMap (cause_json parent))]) <$> ev.
End Runtime.

(** ** The bound holds of every chain *)

(** A chain of runs: each a fire of one automation under the cause of the one
    before, from a root. *)
Record run_of := mkRunOf { ro_automation : Automation; ro_runId : gostring }.

(** The runs a cluster admits, fired one by the event of the other: the cause each
    leaves on what it publishes, and what it is refused. *)
Fixpoint run_all `{Fingerprint} (cap : Z) (c : Cause) (topic : run_event) (runs : list run_of) : Cause * list (option LoopRefusal) :=
  match runs with
  | [] => (c, [])
  | r :: runs' =>
      let '(ctx, refusal) := start_fire cap None (ro_automation r) (ro_runId r)
                               (Some (mkRunEvent (re_Topic topic) (re_Kind topic) (re_Payload topic) c)) in
      let '(c', refusals) := run_all cap (default c ctx) topic runs' in
      (c', refusal :: refusals)
  end.

(** *** Lineage *)

Section Bounds.
Context `{Fingerprint}.

Lemma priorRuns_Next c name runId corr : priorRuns (Next c name runId corr) = Chain c.
Proof.
  unfold priorRuns. cbn [Next Chain CausationId]. rewrite last_snoc. cbn [l_RunId]. rewrite eqs_refl, length_app. cbn [length].
  by rewrite Nat.add_sub, take_app_length.
Qed.

Lemma count_runs_snoc name chain l : count_runs name (chain ++ [l]) = count_runs name chain + (if l_Automation l =s name then 1 else 0).
Proof. unfold count_runs. rewrite List.filter_app, length_app. cbn [List.filter]. destruct (l_Automation l =s name); cbn [length]; lia. Qed.

Context (cap : Z) (Hcap : 0 <= cap < MaxInt) (cfg : gostring -> option LoopConfig).

(** Depth and chain agree, and neither bound is passed. *)
Record bounded (c : Cause) : Prop := {
  bd_depth : Depth c = Z.of_nat (length (Chain c));
  bd_cap : Depth c <= cap;
  bd_loop name l : cfg name = Some l -> 0 < lc_MaxDepth l -> count_runs name (Chain c) <= lc_MaxDepth l
}.

Lemma bounded_root : bounded zeroCause.
Proof. split; [done|cbn; lia|]. intros name l _ Hl. change (0 <= lc_MaxDepth l). lia. Qed.

(** One fire under a bounded parent. *)
Lemma fire_bounded c a runId corr : bounded c -> a_Loop a = cfg (a_Name a) -> loopBound a (Next c (a_Name a) runId corr) cap = None ->
  bounded (Next c (a_Name a) runId corr).
Proof.
  intros [Hd Hc Hl] Ha Hb. assert (Hn : Depth (Next c (a_Name a) runId corr) = Depth c + 1).
  { apply wrap_int_small. unfold MinInt. lia. }
  unfold loopBound in Hb. destruct (Z.ltb_spec cap (Depth (Next c (a_Name a) runId corr))) as [|Hle]; [done|].
  split; [|done|].
  - rewrite Hn, Hd. cbn [Next Chain]. rewrite length_app. cbn. lia.
  - intros name l Hname Hpos. cbn [Next Chain]. rewrite count_runs_snoc. cbn [l_Automation]. specialize (Hl name l Hname Hpos).
    destruct (a_Name a =s name) eqn:E; [|lia]. apply eqs_true in E as <-. rewrite Hname in Ha. rewrite Ha, priorRuns_Next in Hb.
    destruct (Z.ltb_spec 0 (lc_MaxDepth l)); [|lia]. cbn [andb] in Hb.
    destruct (Z.leb_spec (lc_MaxDepth l) (count_runs (a_Name a) (Chain c))); [done|lia].
Qed.

Lemma parent_bounded ctx name runId ev : (forall c, ctx = Some c -> bounded c) -> (forall e, ev = Some e -> bounded (re_Cause e)) ->
  exists corr, bounded (runCause ctx name runId ev).1
    /\ (runCause ctx name runId ev).2 = Next (runCause ctx name runId ev).1 name runId corr.
Proof.
  intros Hctx Hev. unfold runCause. cbv zeta.
  assert (Hc : bounded (default zeroCause (CauseFromContext ctx))).
  { destruct ctx as [c|]; [|apply bounded_root]. cbn. destruct (IsZero c); [apply bounded_root|by apply Hctx]. }
  destruct ev as [e|]; cbn [fst snd]; [|eauto]. destruct (negb (IsZero (re_Cause e))); [|eauto].
  eexists. split; [by apply Hev|done].
Qed.

(** The causes a context or an event can carry, from roots, fire by fire. *)
Inductive carries : Cause -> Prop :=
| carries_root : carries zeroCause
| carries_fire ctx a runId ev c refusal :
    (forall c0, ctx = Some c0 -> carries c0) -> (forall e, ev = Some e -> carries (re_Cause e)) ->
    a_Loop a = cfg (a_Name a) -> start_fire cap ctx a runId ev = (Some c, refusal) -> carries c.

Lemma carries_bounded c : carries c -> bounded c.
Proof.
  induction 1 as [|ctx a runId ev c refusal _ IHc _ IHe Ha Hs]; [apply bounded_root|].
  destruct (parent_bounded ctx (a_Name a) runId ev IHc IHe) as (corr & Hp & Hr). unfold start_fire in Hs.
  destruct (runCause ctx (a_Name a) runId ev) as [parent run]. cbn [fst snd] in *. subst run.
  destruct (loopBound a (Next parent (a_Name a) runId corr) cap) as [r|] eqn:Eb; injection Hs as <- _; [done|].
  by apply fire_bounded.
Qed.

(** *** Chains end *)

Lemma unrefused_depth topic runs : forall c, 0 <= Depth c <= cap ->
  Forall (fun r => r = None) (run_all cap c topic runs).2 ->
  Depth c + Z.of_nat (length runs) <= cap.
Proof.
  induction runs as [|r runs IH]; intros c Hd; [cbn; lia|]. cbn [run_all]. unfold start_fire, runCause. cbv zeta.
  cbn [re_Cause CauseFromContext default].
  assert ((if negb (IsZero c) then c else zeroCause) = c) as ->.
  { destruct (IsZero c) eqn:E; [|done]. by apply IsZero_true in E as ->. }
  cbn [from_option id]. set (corr := if negb (CorrelationId c =s []) then _ else _).
  set (next := Next c (a_Name (ro_automation r)) (ro_runId r) corr).
  destruct (loopBound (ro_automation r) next cap) as [x|] eqn:Eb; cbn [contextWithRunCause ContextWithCause default].
  { destruct (run_all cap _ topic runs) as [c' rs]. cbn. intros Hf. by inversion Hf. }
  cbn [from_option id]. destruct (run_all cap next topic runs) as [c' rs] eqn:Er. cbn [snd length]. intros Hf. inversion Hf as [|? ? _ Hrs]; subst.
  assert (Hn : Depth next = Depth c + 1) by (apply wrap_int_small; unfold MinInt; lia).
  unfold loopBound in Eb. destruct (Z.ltb_spec cap (Depth next)); [done|].
  specialize (IH next ltac:(lia)). rewrite Er in IH. specialize (IH Hrs). lia.
Qed.
End Bounds.

(** *** Journaled runs *)

Lemma kindNamed_name k : Kind_String (kindNamed (Kind_String k)) = Kind_String k.
Proof.
  assert (Hall : forallb (fun k => Kind_String (kindNamed (Kind_String k)) =s Kind_String k) (-1 :: (Z.of_nat <$> seq 0 (S (length kind_names)))) = true)
    by (by vm_compute).
  rewrite forallb_forall in Hall. assert (Hk : exists j, Kind_String k = Kind_String j /\ In j (-1 :: (Z.of_nat <$> seq 0 (S (length kind_names))))).
  { destruct (Z.ltb_spec k 0) as [Hn|Hn].
    - exists (-1). split; [|by left]. unfold Kind_String. destruct (Z.ltb_spec k 0); [done|lia].
    - destruct (Z.ltb_spec k (Z.of_nat (S (length kind_names)))) as [Hlt|Hge].
      + exists k. split; [done|]. right. apply list_elem_of_In, list_elem_of_fmap. exists (Z.to_nat k). split; [lia|]. apply elem_of_seq. lia.
      + exists (Z.of_nat (length kind_names)). split; [|right; apply list_elem_of_In, list_elem_of_fmap; eexists; split; [done|]; apply elem_of_seq; lia].
        unfold Kind_String. destruct (Z.ltb_spec k 0); [lia|]. rewrite lookup_ge_None_2 by lia. done. }
  destruct Hk as (j & -> & Hj). by apply Hall, eqs_true in Hj.
Qed.

Section Journal.
Context `{Fingerprint}.

Lemma recorded_back ev parent : 0 <= Depth parent <= MaxInt ->
  exists ev', journalTriggerEvent (recorded_trigger (Some ev) parent) = Some ev' /\ re_Cause ev' = parent
    /\ rootCorrelation ev' = rootCorrelation ev.
Proof.
  intros Hd. eexists. split; [reflexivity|]. cbn [recorded_trigger fmap option_fmap option_map]. split.
  - cbn [re_Cause]. destruct (IsZero parent) eqn:Ez.
    + by apply IsZero_true in Ez as ->.
    + by apply CauseFromMap_round_trip.
  - unfold rootCorrelation. cbn [re_Topic re_Kind re_Payload].
    assert (Hf : forall rest, field_string ([(go "topic", DString (re_Topic ev)); (go "kind", DString (Kind_String (re_Kind ev)));
      (go "payload", DMap (re_Payload ev))] ++ rest) (go "topic") = re_Topic ev) by done.
    assert (Hk : forall rest, field_string ([(go "topic", DString (re_Topic ev)); (go "kind", DString (Kind_String (re_Kind ev)));
      (go "payload", DMap (re_Payload ev))] ++ rest) (go "kind") = Kind_String (re_Kind ev)) by done.
    assert (Hm : forall rest, field_map ([(go "topic", DString (re_Topic ev)); (go "kind", DString (Kind_String (re_Kind ev)));
      (go "payload", DMap (re_Payload ev))] ++ rest) (go "payload") = re_Payload ev) by done.
    by rewrite Hf, Hk, Hm, kindNamed_name.
Qed.
End Journal.

(** ** Theorems *)

(** C35: No event and no context ever carries a chain past the loop bounds.  Whatever
    automations fire, on whatever events and under whatever contexts, starting from
    roots: the depth of a cause is the number of runs its chain names, it is at
    most the cap, and the chain holds at most maxDepth runs of an automation that
    carries @loop, a refused fire leaving its parent's chain as it was. *)
Theorem chain_bounds `{Fingerprint} (cap : Z) (cfg : gostring -> option LoopConfig) (c : Cause) :
  0 <= cap < MaxInt -> carries cap cfg c ->
  Depth c = Z.of_nat (length (Chain c)) /\ Depth c <= cap
  /\ forall name l, cfg name = Some l -> 0 < lc_MaxDepth l -> count_runs name (Chain c) <= lc_MaxDepth l.
Proof. intros Hcap Hc. destruct (carries_bounded cap Hcap cfg c Hc) as [? ? ?]. done. Qed.

Lemma some_or_none {A} (l : list (option A)) : (exists x, Some x ∈ l) \/ Forall (fun o => o = None) l.
Proof.
  induction l as [|[x|] l IH]; [by right|left; exists x; by left|]. destruct IH as [(x & Hx)|Hn]; [left; exists x; by right|].
  right. by constructor.
Qed.


(** A resumed run keeps its place in its chain: from the trigger event its first
    attempt recorded, with the parent cause, the run rebuilds the same cause, with
    the same correlation, depth and chain, whichever of the event and the context
    the parent came from. *)
Theorem resumed_run_keeps_cause `{Fingerprint} (ctx : option Cause) (name runId : gostring) (ev : run_event) :
  let '(parent, run) := runCause ctx name runId (Some ev) in
  0 <= Depth parent <= MaxInt -> journalRunCause None name runId (recorded_trigger (Some ev) parent) = run.
Proof.
  destruct (runCause ctx name runId (Some ev)) as [parent run] eqn:E. intros Hd.
  destruct (recorded_back ev parent Hd) as (ev' & Hj & Hc & Hroot). unfold journalRunCause. rewrite Hj.
  unfold runCause in E. cbv zeta in E. injection E as E1 <-. rewrite E1. unfold runCause. cbv zeta. cbn [CauseFromContext default snd].
  rewrite Hc. assert ((if negb (IsZero parent) then parent else zeroCause) = parent) as Hz.
  { destruct (IsZero parent) eqn:Ez; [|done]. by apply IsZero_true in Ez as ->. }
  cbn [from_option id]. rewrite Hz. by destruct (negb (CorrelationId parent =s [])); [|rewrite Hroot].
Qed.

(** A saturated depth is admitted.  causeDepth holds a recorded depth too large
    for an int at the largest one so that it stays past every cap, but the run's own
    depth is one more, which wraps to the smallest int, and the run is not refused. *)
Theorem saturated_depth_admitted `{Fingerprint} (cap : Z) (a : Automation) (runId topic : gostring) (kind : Z)
    (payload m : list (gostring * decoded)) :
  0 <= cap -> a_Loop a = None -> Depth (CauseFromMap m) = MaxInt ->
  exists c, start_fire cap None a runId (Some (mkRunEvent topic kind payload (CauseFromMap m))) = (Some c, None) /\ Depth c = MinInt.
Proof.
  intros Hcap Ha Hd. unfold start_fire, runCause. cbv zeta. cbn [re_Cause].
  assert (IsZero (CauseFromMap m) = false) as Hz.
  { destruct (IsZero (CauseFromMap m)) eqn:E; [|done]. apply IsZero_true in E. by rewrite E in Hd. }
  rewrite Hz. cbn [negb]. set (corr := if negb _ then _ else _).
  assert (Hn : Depth (Next (CauseFromMap m) (a_Name a) runId corr) = MinInt) by (cbn [Next Depth]; by rewrite Hd).
  unfold loopBound. rewrite Hn, Ha. assert ((cap <? MinInt) = false) as -> by (apply Z.ltb_ge; unfold MinInt; lia).
  eexists. split; [done|exact Hn].
Qed.

(** *** Witnesses *)

Definition no_fingerprint : Fingerprint := {| fp_FromMap := fun _ => None |}.

Definition plain_auto (name : string) (loop : option LoopConfig) : Automation :=
  mkAutomation (go name) [] None false [] None [] [] loop None.

Definition tidy_loop (name : gostring) : option LoopConfig :=
  if name =s go "tidy" then Some (mkLoopConfig 2 (go "row => row.done")) else None.

Definition created_topic (c : Cause) : run_event := mkRunEvent (go "graph.node.created.v1:shop:order") 5 [] c.

(** Two runs of tidy are admitted, and leave this cause. *)
Definition second_tidy : Cause :=
  mkCause (go "r2") (go "evt-") 2 [mkLink (go "tidy") (go "r1"); mkLink (go "tidy") (go "r2")].

Lemma second_tidy_carried : @carries no_fingerprint 16 tidy_loop second_tidy.
Proof.
  apply (@carries_fire no_fingerprint 16 tidy_loop None (plain_auto "tidy" (tidy_loop (go "tidy"))) (go "r2")
    (Some (created_topic (mkCause (go "r1") (go "evt-") 1 [mkLink (go "tidy") (go "r1")]))) second_tidy None); [done| |done|by vm_compute].
  intros e [= <-]. apply (@carries_fire no_fingerprint 16 tidy_loop None (plain_auto "tidy" (tidy_loop (go "tidy"))) (go "r1")
    (Some (created_topic zeroCause)) _ None); [done|intros e [= <-]; constructor|done|by vm_compute].
Qed.

Lemma chain_bounds_witness :
  count_runs (go "tidy") (Chain second_tidy) <= 2
  /\ (@start_fire no_fingerprint 16 None (plain_auto "tidy" (tidy_loop (go "tidy"))) (go "r3") (Some (created_topic second_tidy))).1 = Some second_tidy.
Proof.
  split; [|by vm_compute]. apply (@chain_bounds no_fingerprint 16 tidy_loop second_tidy) with (l := mkLoopConfig 2 (go "row => row.done"));
    [unfold MaxInt; lia|exact second_tidy_carried|by vm_compute|done].
Defined.


Lemma resumed_run_keeps_cause_witness :
  @journalRunCause no_fingerprint None (go "tidy") (go "r3") (recorded_trigger (Some (created_topic second_tidy)) second_tidy)
  = Next second_tidy (go "tidy") (go "r3") (go "evt-").
Proof. apply (@resumed_run_keeps_cause no_fingerprint None (go "tidy") (go "r3") (created_topic second_tidy)). split; vm_compute; congruence. Defined.

Lemma saturated_depth_admitted_witness :
  exists c, @start_fire no_fingerprint 16 None (plain_auto "a" None) (go "r1")
    (Some (mkRunEvent [] 5 [] (CauseFromMap [(go "depth", DFloat64 (f64_of_Z (10 ^ 300)))]))) = (Some c, None) /\ Depth c = MinInt.
Proof. apply (@saturated_depth_admitted no_fingerprint); [lia|done|by vm_compute]. Defined.
