(* ===== verification/Mask.v ===== *)
(** Masking a pipeline's secrets in its logs: component/pipelines/mask.go.

    Text is its bytes here, not its runes: a log is not always UTF-8, and the spans
    of the code are byte spans.  unicode.IsSpace is modelled on the encodings of the
    spaces, which no other rune's encoding begins or ends with. *)

From S2P Require Import Prelude GoText GoSort.

Open Scope nat_scope.

Abbreviation bytes := (list Z) (only parsing).

Definition minMaskedSecret : nat := 4.

Definition secretMask : bytes := go "***".

(** ** strings.TrimSpace on bytes *)

(** The spaces of one, two and three bytes. *)
Definition space1 (a : Z) : bool := between 9 13 a || (a =? 32)%Z.

Definition space2 (a b : Z) : bool := ((a =? 194) && ((b =? 133) || (b =? 160)))%Z.

Definition space3 (a b c : Z) : bool :=
  ((a =? 225) && (b =? 154) && (c =? 128)
   || (a =? 226) && (b =? 128) && (between 128 138 c || (c =? 168) || (c =? 169) || (c =? 175))
   || (a =? 226) && (b =? 129) && (c =? 159)
   || (a =? 227) && (b =? 128) && (c =? 128))%Z.

Fixpoint trim_front (s : bytes) : bytes :=
  match s with
  | [] => []
  | a :: s1 =>
      if space1 a then trim_front s1
      else match s1 with
           | [] => s
           | b :: s2 =>
               if space2 a b then trim_front s2
               else match s2 with
                    | [] => s
                    | c :: s3 => if space3 a b c then trim_front s3 else s
                    end
           end
  end.

(** The same from the back, on the reversed text: utf8.DecodeLastRune. *)
Fixpoint trim_back (s : bytes) : bytes :=
  match s with
  | [] => []
  | a :: s1 =>
      if space1 a then trim_back s1
      else match s1 with
           | [] => s
           | b :: s2 =>
               if space2 b a then trim_back s2
               else match s2 with
                    | [] => s
                    | c :: s3 => if space3 c b a then trim_back s3 else s
                    end
           end
  end.

Definition trim_space (s : bytes) : bytes := reverse (trim_back (reverse (trim_front s))).

(** ** MaskForms *)

Definition isLineBreak (r : Z) : bool := (r =? 10)%Z || (r =? 13)%Z.

(** strings.FieldsFunc: the maximal runs that hold no separator. *)
Fixpoint FieldsFunc (f : Z -> bool) (s : bytes) : list bytes :=
  match s with
  | [] => []
  | c :: s' =>
      if f c then FieldsFunc f s'
      else match s' with
           | [] => [[c]]
           | d :: _ =>
               if f d then [c] :: FieldsFunc f s'
               else match FieldsFunc f s' with
                    | field :: fields => (c :: field) :: fields
                    | [] => [[c]]
                    end
           end
  end.

(** The forms one value is masked in, short ones and repeats included. *)
Definition forms_of (v : bytes) : list bytes :=
  v :: trim_space v :: (if existsb isLineBreak v then trim_space <$> FieldsFunc isLineBreak v else []).

Definition add_form (out : list bytes) (s : bytes) : list bytes :=
  if (minMaskedSecret <=? length s) && negb (memS s out) then out ++ [s] else out.

Definition MaskForms (values : list bytes) : list bytes :=
  foldl (fun out v => foldl add_form out (forms_of v)) [] values.

(** ** MaskSecrets *)

(** strings.Index *)
Fixpoint Index (s sub : bytes) : option nat :=
  if HasPrefix s sub then Some 0
  else match s with [] => None | _ :: s' => S <$> Index s' sub end.

(** The spans of one needle from an offset on, overlapping ones too. *)
Fixpoint needle_spans (fuel : nat) (text needle : bytes) (from : nat) : list (nat * nat) :=
  match fuel with
  | O => []
  | S fuel' =>
      if from + length needle <=? length text then
        match Index (drop from text) needle with
        | None => []
        | Some i => (from + i, from + i + length needle) :: needle_spans fuel' text needle (from + i + 1)
        end
      else []
  end.

Definition spans_of (text : bytes) (needles : list bytes) : list (nat * nat) :=
  needles ≫= (fun needle => needle_spans (S (length text)) text needle 0).

(** flush: the text up to the span, then the mask. *)
Definition flush (text : bytes) (written : nat) (current : nat * nat) : bytes :=
  take (current.1 - written) (drop written text) ++ secretMask.

Fixpoint mask_spans (text : bytes) (written : nat) (current : nat * nat) (spans : list (nat * nat)) : bytes :=
  match spans with
  | [] => flush text written current ++ drop current.2 text
  | s :: spans' =>
      if s.1 <=? current.2 then mask_spans text written (current.1, Nat.max current.2 s.2) spans'
      else flush text written current ++ mask_spans text current.2 s spans'
  end.

(** The order of slices.SortFunc. *)
Definition by_start (a b : nat * nat) : bool := a.1 <? b.1.

Definition MaskSecrets (text : bytes) (values : list bytes) : bytes :=
  let needles := MaskForms values in
  if (length text =? 0) || (length needles =? 0) then text
  else match sort_stable by_start (spans_of text needles) with
       | [] => text
       | s :: spans => mask_spans text 0 s spans
       end.

(** ** What masking is for *)

(** A byte lies in an occurrence of one of the needles. *)
Definition hidden (text : bytes) (needles : list bytes) (i : nat) : bool :=
  existsb (fun needle =>
    existsb (fun start => (start <=? i) && (i <? start + length needle) && HasPrefix (drop start text) needle)
      (seq 0 (length text))) needles.

(** The text with every run of hidden bytes replaced by one mask. *)
Fixpoint redact (hid : nat -> bool) (i : nat) (inside : bool) (text : bytes) : bytes :=
  match text with
  | [] => []
  | c :: text' =>
      if hid i then (if inside then [] else secretMask) ++ redact hid (S i) true text'
      else c :: redact hid (S i) false text'
  end.
