(* ===== verification/MaskFacts.v ===== *)
(** Masking hides exactly the occurrences of the forms, and the forms are their own
    forms. *)

From S2P Require Import Prelude GoText GoSort Mask.
From Stdlib Require Import Sorted.

Open Scope nat_scope.

(** ** Occurrences *)

Definition occurs (text needle : bytes) (s : nat) : Prop := s < length text /\ HasPrefix (drop s text) needle = true.

Lemma HasPrefix_length s p : HasPrefix s p = true -> length p <= length s.
Proof. intros (t & ->)%HasPrefix_inv. rewrite length_app. lia. Qed.

Lemma Index_Some s sub i : Index s sub = Some i ->
  i <= length s /\ HasPrefix (drop i s) sub = true /\ forall j, j < i -> HasPrefix (drop j s) sub = false.
Proof.
  revert i. induction s as [|c s IH]; intros i; cbn [Index]; destruct (HasPrefix _ sub) eqn:E;
    try (intros [= <-]; cbn; split_and!; [lia|done|lia]); [done|].
  destruct (Index s sub) as [k|] eqn:Ek; [|done]. intros [= <-]. destruct (IH k eq_refl) as (? & ? & Hj).
  cbn [length drop]. split_and!; [lia|done|]. intros [|j] Hlt; [done|]. cbn. apply Hj. lia.
Qed.

Lemma Index_None s sub i : Index s sub = None -> HasPrefix (drop i s) sub = false.
Proof.
  revert i. induction s as [|c s IH]; intros i; cbn [Index]; destruct (HasPrefix _ sub) eqn:E; try done.
  - intros _. by rewrite drop_nil.
  - destruct (Index s sub) as [k|] eqn:Ek; [done|]. intros _. destruct i as [|i]; [done|]. cbn. by apply IH.
Qed.

Lemma needle_spans_elem fuel text needle from a b : 0 < length needle -> length text < fuel + from ->
  (a, b) ∈ needle_spans fuel text needle from <-> from <= a /\ occurs text needle a /\ b = a + length needle.
Proof.
  intros Hn. revert from. induction fuel as [|fuel IH]; intros from Hf; cbn [needle_spans].
  { split; [by intros ?%elem_of_nil|]. unfold occurs. intros. lia. }
  assert (Hnone : length text < from + length needle \/ (forall j, HasPrefix (drop j (drop from text)) needle = false) ->
    (a, b) ∈ ([] : list (nat * nat)) <-> from <= a /\ occurs text needle a /\ b = a + length needle).
  { intros Hno. split; [by intros ?%elem_of_nil|]. intros (Ha & (Hl & Hp) & _). exfalso.
    destruct Hno as [Hno|Hno].
    - apply HasPrefix_length in Hp. rewrite length_drop in Hp. lia.
    - specialize (Hno (a - from)). rewrite drop_drop in Hno. replace (from + (a - from)) with a in Hno by lia. congruence. }
  destruct (from + length needle <=? length text) eqn:El; [apply Nat.leb_le in El|apply Nat.leb_gt in El; apply Hnone; by left].
  destruct (Index (drop from text) needle) as [i|] eqn:Ei; [|apply Hnone; right; intros j; by apply Index_None].
  apply Index_Some in Ei as (Hi & Hp & Hmin). rewrite length_drop in Hi. rewrite drop_drop in Hp.
  rewrite elem_of_cons, IH by lia. split.
  - intros [[= -> ->]|(Ha & Ho & ->)]; (split_and!; [lia| |done]); [|done]. split; [|done].
    apply HasPrefix_length in Hp. rewrite length_drop in Hp. lia.
  - intros (Ha & Ho & ->). destruct (decide (a = from + i)) as [->|Hne]; [by left|]. right. split_and!; [|done|done].
    destruct (decide (from + i < a)); [lia|]. destruct Ho as [_ Ho]. specialize (Hmin (a - from)).
    rewrite drop_drop in Hmin. replace (from + (a - from)) with a in Hmin by lia. rewrite Hmin in Ho by lia. done.
Qed.

(** ** Merging the spans *)

Section Merge.
Implicit Types spans : list (nat * nat).

Definition covers spans (i : nat) : bool := existsb (fun s => (s.1 <=? i) && (i <? s.2)) spans.

Lemma covers_true spans i : covers spans i = true <-> exists s, s ∈ spans /\ s.1 <= i < s.2.
Proof.
  unfold covers. rewrite existsb_exists. setoid_rewrite <- list_elem_of_In.
  setoid_rewrite andb_true_iff. setoid_rewrite Nat.leb_le. done.
Qed.

Lemma redact_ext f g i inside text : (forall j, i <= j < i + length text -> f j = g j) ->
  redact f i inside text = redact g i inside text.
Proof.
  revert i inside. induction text as [|c text IH]; intros i inside Hfg; cbn in *; [done|].
  rewrite (Hfg i) by lia. destruct (g i); rewrite (IH (S i)); try done; intros; apply Hfg; lia.
Qed.

Lemma redact_clear f i inside text n : (forall j, i <= j < i + n -> f j = false) -> n <= length text -> 0 < n ->
  redact f i inside text = take n text ++ redact f (i + n) false (drop n text).
Proof.
  revert i inside text. induction n as [|n IH]; intros i inside text Hf Hl Hn; [lia|].
  destruct text as [|c text]; cbn in *; [lia|]. rewrite (Hf i) by lia. f_equal.
  destruct n as [|n]; [rewrite Nat.add_1_r; by cbn|].
  rewrite IH; [|intros; apply Hf; lia|lia|lia]. by rewrite Nat.add_succ_comm.
Qed.

Lemma redact_inside f i text n : (forall j, i <= j < i + n -> f j = true) -> n <= length text ->
  redact f i true text = redact f (i + n) true (drop n text).
Proof.
  revert i text. induction n as [|n IH]; intros i text Hf Hl; [by rewrite Nat.add_0_r|].
  destruct text as [|c text]; cbn in *; [lia|]. rewrite (Hf i) by lia. cbn.
  rewrite IH; [|intros; apply Hf; lia|lia]. by rewrite Nat.add_succ_comm.
Qed.

Lemma redact_masked f i text n : (forall j, i <= j < i + n -> f j = true) -> n <= length text -> 0 < n ->
  redact f i false text = secretMask ++ redact f (i + n) true (drop n text).
Proof.
  intros Hf Hl Hn. destruct n as [|n]; [lia|]. destruct text as [|c text]; cbn in *; [lia|]. rewrite (Hf i) by lia.
  rewrite (redact_inside f (S i) text n); [|intros; apply Hf; lia|lia]. by rewrite Nat.add_succ_comm.
Qed.

(** Spans of a text, each holding a byte. *)
Definition in_text (text : bytes) (s : nat * nat) : Prop := s.1 < s.2 <= length text.

Lemma covers_none spans i : (forall s, s ∈ spans -> i < s.1 \/ s.2 <= i) -> covers spans i = false.
Proof.
  intros Hs. destruct (covers spans i) eqn:E; [|done]. apply covers_true in E as (s & Hin & Hi).
  destruct (Hs s Hin); lia.
Qed.

Lemma redact_flush text written (current : nat * nat) spans : written <= current.1 -> in_text text current ->
  (forall s, s ∈ spans -> current.1 <= s.1) ->
  redact (covers (current :: spans)) written false (drop written text)
  = flush text written current ++ redact (covers (current :: spans)) current.2 true (drop current.2 text).
Proof.
  destruct current as [a b]. cbn. intros Hw [Hab Hbl] Hs. unfold flush. cbn in *.
  assert (Hcov : forall j, a <= j < a + (b - a) -> covers ((a, b) :: spans) j = true).
  { intros j Hj. apply covers_true. exists (a, b). split; [by left|cbn; lia]. }
  assert (Hmask : redact (covers ((a, b) :: spans)) a false (drop a text)
    = secretMask ++ redact (covers ((a, b) :: spans)) b true (drop b text)).
  { rewrite (redact_masked _ _ _ (b - a) Hcov); [|rewrite length_drop; lia|lia]. rewrite drop_drop.
    by replace (a + (b - a)) with b by lia. }
  destruct (decide (written = a)) as [->|Hne]; [by rewrite Nat.sub_diag, take_0|].
  rewrite (redact_clear _ _ _ _ (a - written)); [| |rewrite length_drop; lia|lia].
  - rewrite drop_drop. replace (written + (a - written)) with a by lia. by rewrite Hmask, (assoc_L (++)).
  - intros j Hj. apply covers_none. intros s [->|Hin]%elem_of_cons; cbn; [lia|]. specialize (Hs s Hin). lia.
Qed.

Lemma covers_merge a b s spans i : a <= s.1 <= b ->
  covers ((a, Nat.max b s.2) :: spans) i = covers ((a, b) :: s :: spans) i.
Proof.
  intros Hs. apply eq_bool_prop_intro. rewrite !Is_true_true, !covers_true. split.
  - intros (t & [->|Ht]%elem_of_cons & Hi); [|exists t; split; [by do 2 right|done]]. cbn in Hi.
    destruct (decide (i < b)); [exists (a, b)|exists s]; (split; [|cbn; lia]); [by left|by right; left].
  - intros (t & [->|[->|Ht]%elem_of_cons]%elem_of_cons & Hi); [..|exists t; by split; [right|]];
      exists (a, Nat.max b s.2); (split; [by left|cbn in *; lia]).
Qed.

Lemma covers_shift current spans i : current.2 <= i -> covers (current :: spans) i = covers spans i.
Proof.
  intros Hi. change (covers (current :: spans) i) with ((current.1 <=? i) && (i <? current.2) || covers spans i).
  by rewrite (proj2 (Nat.ltb_ge i current.2) Hi), andb_false_r.
Qed.

(** In any order of the starts the merge of spans is the text with the covered runs
    masked. *)
Lemma mask_spans_redact text written current spans : written <= current.1 -> in_text text current ->
  Forall (in_text text) spans -> StronglySorted (fun s t => s.1 <= t.1) (current :: spans) ->
  mask_spans text written current spans = redact (covers (current :: spans)) written false (drop written text).
Proof.
  revert written current. induction spans as [|s spans IH]; intros written current Hw Hc Hs Hsort; cbn [mask_spans].
  - rewrite redact_flush; [|done|done|by intros s ?%elem_of_nil]. f_equal.
    destruct (drop current.2 text) eqn:E; [done|]. rewrite (redact_clear _ _ _ _ (length (z :: l))); [|..|cbn; lia].
    + rewrite drop_ge by done. cbn. by rewrite firstn_all, app_nil_r.
    + intros j Hj. rewrite covers_shift by lia. done.
    + done.
  - apply StronglySorted_inv in Hsort as [Hsort Hall]. apply Forall_cons in Hs as [Hs1 Hs2].
    apply Forall_cons in Hall as [Hle Hall]. destruct (s.1 <=? current.2) eqn:E.
    + apply Nat.leb_le in E. rewrite IH; [|done| |done|].
      * apply redact_ext. intros j _. destruct current as [a b]. cbn in *. by apply covers_merge.
      * unfold in_text in *. cbn. lia.
      * apply StronglySorted_inv in Hsort as [Hsort Hss]. constructor; [done|]. done.
    + apply Nat.leb_gt in E. rewrite redact_flush; [|done|done|].
      2:{ intros t [->|Ht]%elem_of_cons; [done|]. rewrite Forall_forall in Hall. by apply Hall. }
      f_equal. rewrite IH; [|lia|done|done|done].
      apply StronglySorted_inv in Hsort as [_ Hss]. rewrite Forall_forall in Hss. unfold in_text in *.
      assert (Hclear : forall (f : nat -> bool) inside, (forall j, current.2 <= j < current.2 + (s.1 - current.2) -> f j = false) ->
        redact f current.2 inside (drop current.2 text) = redact f current.2 false (drop current.2 text)).
      { intros f inside Hf. trans (take (s.1 - current.2) (drop current.2 text)
          ++ redact f (current.2 + (s.1 - current.2)) false (drop (s.1 - current.2) (drop current.2 text)));
          [|symmetry]; apply redact_clear; try done; rewrite ?length_drop; lia. }
      rewrite (Hclear (covers (current :: s :: spans)) true).
      * apply redact_ext. intros j [Hj _]. symmetry. by apply covers_shift.
      * intros j Hj. rewrite covers_shift by lia. apply covers_none. intros t [->|Ht]%elem_of_cons; [lia|].
        specialize (Hss t Ht). lia.
Qed.
End Merge.

(** ** Spaces *)

Section Spaces.

(** The encoding of one space, and texts of spaces. *)
Definition space_code (k : bytes) : Prop :=
  match k with
  | [a] => space1 a = true
  | [a; b] => space2 a b = true
  | [a; b; c] => space3 a b c = true
  | _ => False
  end.

Inductive space_text : bytes -> Prop :=
| spaces_nil : space_text []
| spaces_cons k w : space_code k -> space_text w -> space_text (k ++ w).

Lemma spaces_app w w' : space_text w -> space_text w' -> space_text (w ++ w').
Proof. intros Hw Hw'. induction Hw as [|k w Hk Hw IH]; [done|]. rewrite <- (assoc_L (++)). by constructor. Qed.

Lemma spaces_one k : space_code k -> space_text k.
Proof. intros Hk. rewrite <- (app_nil_r k). by repeat constructor. Qed.

Ltac space_bytes := unfold space1, space2, space3, between, isLineBreak in *; lia.

Lemma space2_not1 a b : space2 a b = true -> space1 a = false /\ space1 b = false.
Proof. space_bytes. Qed.

Lemma space3_not2 a b c : space3 a b c = true ->
  space1 a = false /\ space2 a b = false /\ space1 c = false /\ space2 b c = false.
Proof. intros Hk. split_and!; space_bytes. Qed.

(** A space does not go on a code begun before it. *)
Lemma code_starts k w a : space_code k ->
  exists d r, k ++ w = d :: r /\ space2 a d = false /\ (forall c, space3 a d c = false) /\ forall b, space3 b a d = false.
Proof.
  destruct k as [|d [|e [|f [|]]]]; cbn; intros Hk; try done;
    (eexists _, _; split; [done|]); split_and!; intros; space_bytes.
Qed.


Lemma length_ind_bytes (P : bytes -> Prop) : (forall s, (forall t, length t < length s -> P t) -> P s) -> forall s, P s.
Proof. intros HP s. apply (well_founded_induction (well_founded_ltof _ (@length Z)) P). done. Qed.

Ltac on_pieces s := let IH := fresh "IH" in
  induction s as [s IH] using length_ind_bytes; destruct s as [|a s]; [|cbn [trim_front trim_back app];
    destruct (space1 a) eqn:E1; [|destruct s as [|b s]; [|destruct (space2 a b) eqn:E2;
      [|destruct s as [|c s]; [|destruct (space3 a b c) eqn:E3]]]]].

Lemma trim_front_spec s : exists w, space_text w /\ s = w ++ trim_front s.
Proof.
  on_pieces s.
  all: try (by exists []; split; [constructor|]).
  - destruct (IH s) as (w & Hw & Hs); [cbn; lia|]. exists (a :: w). split; [by apply (spaces_cons [a])|]. cbn. by rewrite <- Hs.
  - destruct (IH s) as (w & Hw & Hs); [cbn; lia|]. exists (a :: b :: w). split; [by apply (spaces_cons [a; b])|]. cbn. by rewrite <- Hs.
  - destruct (IH s) as (w & Hw & Hs); [cbn; lia|]. exists (a :: b :: c :: w). split; [by apply (spaces_cons [a; b; c])|].
    cbn. by rewrite <- Hs.
Qed.

Lemma trim_front_spaces w s : space_text w -> trim_front (w ++ s) = trim_front s.
Proof.
  intros Hw. induction Hw as [|k w Hk Hw IH]; [done|]. rewrite <- (assoc_L (++)).
  destruct k as [|a [|b [|c [|]]]]; cbn in Hk; try done; cbn [app trim_front].
  - by rewrite Hk.
  - destruct (space2_not1 a b Hk) as [-> _]. by rewrite Hk.
  - destruct (space3_not2 a b c Hk) as (-> & -> & _). by rewrite Hk.
Qed.

Lemma trim_front_idem s : trim_front (trim_front s) = trim_front s.
Proof. destruct (trim_front_spec s) as (w & Hw & Hs). rewrite Hs at 2. by rewrite trim_front_spaces. Qed.

Lemma trim_front_app s w : space_text w ->
  trim_front (s ++ w) = match trim_front s with [] => [] | t => t ++ w end.
Proof.
  intros Hw. on_pieces s.
  - cbn. rewrite <- (app_nil_r w). by rewrite trim_front_spaces.
  - rewrite IH by (cbn; lia). done.
  - destruct Hw as [|k w Hk Hw]; [by rewrite app_nil_r|]. destruct (code_starts k w a Hk) as (d & r & -> & H2 & H3 & _).
    cbn [app]. rewrite H2. destruct r as [|e r]; [done|]. by rewrite H3.
  - cbn [app]. rewrite E2, IH by (cbn; lia). done.
  - destruct Hw as [|k w Hk Hw]; [cbn [app]; by rewrite E2|]. destruct (code_starts k w b Hk) as (d & r & -> & _ & _ & H3).
    cbn [app]. by rewrite E2, H3.
  - cbn [app]. rewrite E2, E3, IH by (cbn; lia). done.
  - cbn [app]. by rewrite E2, E3.
Qed.
Lemma trim_back_spec r : exists w, space_text w /\ r = reverse w ++ trim_back r.
Proof.
  induction r as [r IH] using length_ind_bytes.
  assert (Hk : forall k t, space_code k -> r = reverse k ++ t -> trim_back r = trim_back t ->
    exists w, space_text w /\ r = reverse w ++ trim_back r).
  { intros k t Hk -> ->. destruct (IH t) as (w & Hw & Ht).
    - rewrite length_app, length_reverse. destruct k; [done|cbn; lia].
    - exists (w ++ k). split; [by apply spaces_app, spaces_one|]. by rewrite reverse_app, <- (assoc_L (++)), <- Ht. }
  destruct r as [|a r]; [by exists []; split; [constructor|]|]. cbn [trim_back] in *.
  destruct (space1 a) eqn:E1; [by apply (Hk [a] r)|]. destruct r as [|b r]; [by exists []; split; [constructor|]|].
  destruct (space2 b a) eqn:E2; [by apply (Hk [b; a] r)|]. destruct r as [|c r]; [by exists []; split; [constructor|]|].
  destruct (space3 c b a) eqn:E3; [by apply (Hk [c; b; a] r)|]. by exists []; split; [constructor|].
Qed.

Lemma trim_back_spaces w r : space_text w -> trim_back (reverse w ++ r) = trim_back r.
Proof.
  intros Hw. revert r. induction Hw as [|k w Hk Hw IH]; intros r; [done|]. rewrite reverse_app, <- (assoc_L (++)), IH.
  destruct k as [|a [|b [|c [|]]]]; cbn in Hk; try done; cbn.
  - by rewrite Hk.
  - destruct (space2_not1 a b Hk) as [_ ->]. by rewrite Hk.
  - destruct (space3_not2 a b c Hk) as (_ & _ & -> & ->). by rewrite Hk.
Qed.

Lemma trim_space_spec s : exists w w', space_text w /\ space_text w' /\ s = w ++ trim_space s ++ w'.
Proof.
  destruct (trim_front_spec s) as (w & Hw & Hs). destruct (trim_back_spec (reverse (trim_front s))) as (w' & Hw' & Hr).
  exists w, w'. split_and!; [done|done|]. unfold trim_space. rewrite <- (reverse_involutive w') at 1.
  rewrite <- reverse_app, <- Hr, reverse_involutive. done.
Qed.

Lemma trim_space_pad w s w' : space_text w -> space_text w' -> trim_space (w ++ s ++ w') = trim_space s.
Proof.
  intros Hw Hw'. unfold trim_space. rewrite trim_front_spaces, trim_front_app by done.
  destruct (trim_front s) as [|c t]; [done|]. by rewrite reverse_app, trim_back_spaces.
Qed.

Lemma trim_space_idem s : trim_space (trim_space s) = trim_space s.
Proof. destruct (trim_space_spec s) as (w & w' & Hw & Hw' & Hs). rewrite Hs at 2. by rewrite trim_space_pad. Qed.

(** ** Lines *)

Definition unbroken (s : bytes) : Prop := Forall (fun c => isLineBreak c = false) s.

(** A text's edge against a line break. *)
Definition ends_line (a : bytes) : Prop := forall c, last a = Some c -> isLineBreak c = true.
Definition starts_line (b : bytes) : Prop := forall c, head b = Some c -> isLineBreak c = true.

Lemma last_app_some {A} (a b : list A) : b <> [] -> last (a ++ b) = last b.
Proof. intros Hb. destruct (exists_last Hb) as (b' & c & ->). by rewrite (assoc_L (++)), !last_snoc. Qed.

Definition is_field (s p : bytes) : Prop :=
  p <> [] /\ unbroken p /\ exists a b, s = a ++ p ++ b /\ ends_line a /\ starts_line b.

Lemma FieldsFunc_cons c s : isLineBreak c = false ->
  FieldsFunc isLineBreak (c :: s) = match s with
    | d :: _ => if isLineBreak d then [c] :: FieldsFunc isLineBreak s
                else match FieldsFunc isLineBreak s with f :: fs => (c :: f) :: fs | [] => [[c]] end
    | [] => [[c]] end.
Proof. intros Hc. cbn [FieldsFunc]. by rewrite Hc. Qed.

(** A text that begins inside a line begins with its first field. *)
Lemma first_field d s : isLineBreak d = false ->
  exists p b, FieldsFunc isLineBreak (d :: s) = p :: FieldsFunc isLineBreak b /\ d :: s = p ++ b
    /\ p <> [] /\ unbroken p /\ starts_line b.
Proof.
  revert d. induction s as [|e s IH]; intros d Hd; rewrite FieldsFunc_cons by done.
  - exists [d], []. split_and!; [done|done|done|by constructor|done].
  - destruct (isLineBreak e) eqn:He.
    + exists [d], (e :: s). split_and!; [done|done|done|by repeat constructor|]. by intros ? [= <-].
    + destruct (IH e He) as (p & b & -> & Hs & Hne & Hu & Hb). exists (d :: p), b. rewrite Hs.
      split_and!; [done|done|done|by constructor|done].
Qed.

Lemma fields_meet p q b r : p <> [] -> q <> [] -> unbroken p -> unbroken q -> starts_line b -> starts_line r ->
  p ++ b = q ++ r -> p = q.
Proof.
  intros Hp Hq Hup Huq Hb Hr [(k & Hk & Hk')|(k & Hk & Hk')]%app_eq_inv; subst;
    (destruct k as [|d k]; [by rewrite app_nil_r|]); exfalso.
  - specialize (Hr d eq_refl). apply Forall_app in Hup as [_ [Hd _]%Forall_cons]. congruence.
  - specialize (Hb d eq_refl). apply Forall_app in Huq as [_ [Hd _]%Forall_cons]. congruence.
Qed.

Lemma FieldsFunc_elem s p : p ∈ FieldsFunc isLineBreak s <-> is_field s p.
Proof.
  induction s as [s IH] using length_ind_bytes. destruct s as [|c s].
  { cbn. split; [by intros ?%elem_of_nil|]. intros (Hne & _ & a & b & Hs & _). by destruct a, p. }
  destruct (isLineBreak c) eqn:Hc.
  - cbn [FieldsFunc]. rewrite Hc, IH by (cbn; lia). split; intros (Hne & Hu & a & b & Hs & Ha & Hb); split_and!; try done.
    + exists (c :: a), b. split_and!; [by rewrite Hs| |done]. intros d. destruct a as [|e a]; [by intros [= <-]|]. apply Ha.
    + destruct a as [|d a].
      { destruct p as [|d p]; [done|]. injection Hs as -> _. inversion Hu. congruence. }
      injection Hs as <- Hs. exists a, b. split_and!; [done| |done]. intros d Hd. apply Ha. by destruct a.
  - destruct (first_field c s Hc) as (q & r & -> & Hs & Hq & Hqu & Hr). rewrite elem_of_cons, IH.
    2:{ rewrite Hs, length_app. destruct q; [done|cbn; lia]. }
    split.
    + intros [->|(Hne & Hu & a & b & -> & Ha & Hb)].
      * split_and!; [done|done|]. exists [], r. by split_and!.
      * split_and!; [done|done|]. exists (q ++ a), b. split_and!; [by rewrite Hs, <- !(assoc_L (++))| |done].
        destruct a as [|e a]; [|intros d; rewrite last_app_some by done; apply Ha].
        exfalso. destruct p as [|d p]; [done|]. inversion Hu; subst. specialize (Hr d eq_refl). congruence.
    + intros (Hne & Hu & a & b & Hs' & Ha & Hb). rewrite Hs in Hs'. apply app_eq_inv in Hs' as [(k & Hk & Hk')|(k & Hk & Hk')].
      * left. assert (a = []) as ->; [|apply (fields_meet p q b r); [done..|]; by rewrite Hk, Hk', <- (assoc_L (++))].
        destruct a as [|d a] using rev_ind; [done|]. exfalso. specialize (Ha d (last_snoc _ _)).
        rewrite Hk in Hqu. apply Forall_app in Hqu as [[_ [Hd _]%Forall_cons]%Forall_app _]. congruence.
      * destruct k as [|e k]; [|right; split_and!; [done|done|]; exists (e :: k), b; split_and!; [done| |done]].
        -- rewrite app_nil_r in Hk. subst a. exfalso. destruct q as [|d q] using rev_ind; [done|].
           specialize (Ha d (last_snoc _ _)). apply Forall_app in Hqu as [_ [Hd _]%Forall_cons]. congruence.
        -- intros d Hd. apply Ha. rewrite Hk. by rewrite last_app_some.
Qed.
(** A code is one line break or holds none. *)
Lemma code_break k : space_code k -> unbroken k \/ exists c, k = [c] /\ isLineBreak c = true.
Proof.
  destruct k as [|a [|b [|c [|]]]]; cbn; intros Hk; try done.
  - destruct (isLineBreak a) eqn:Ea; [right; by exists a|left; by repeat constructor].
  - left. repeat constructor; space_bytes.
  - left. repeat constructor; space_bytes.
Qed.

Lemma spaces_front w : space_text w -> exists y z, w = y ++ z /\ space_text y /\ unbroken y /\ starts_line z.
Proof.
  intros Hw. induction Hw as [|k w Hk Hw (y & z & -> & Hy & Hu & Hz)]; [exists [], []; by split_and!; try constructor|].
  destruct (code_break k Hk) as [Hb|(c & -> & Hc)].
  - exists (k ++ y), z. split_and!; [by rewrite (assoc_L (++))|by constructor|by apply Forall_app|done].
  - exists [], (c :: y ++ z). split_and!; [done|constructor|constructor|]. by intros ? [= <-].
Qed.

Lemma spaces_end w : space_text w -> exists x y, w = x ++ y /\ ends_line x /\ space_text y /\ unbroken y.
Proof.
  intros Hw. induction Hw as [|k w Hk Hw (x & y & -> & Hx & Hy & Hu)]; [exists [], []; by split_and!; try constructor|].
  destruct x as [|e x].
  - destruct (code_break k Hk) as [Hb|(c & -> & Hc)].
    + exists [], (k ++ y). split_and!; [done|done|by constructor|by apply Forall_app].
    + exists [c], y. split_and!; [done| |done|done]. by intros ? [= <-].
  - exists (k ++ e :: x), y. split_and!; [by rewrite (assoc_L (++))| |done|done].
    intros c. rewrite last_app_some by done. apply Hx.
Qed.

(** Spaces around a text leave the trimmed fields as they are. *)
Lemma padded_field w s w' p : space_text w -> space_text w' -> is_field s p ->
  exists q, is_field (w ++ s ++ w') q /\ trim_space q = trim_space p.
Proof.
  intros Hw Hw' (Hne & Hu & a & b & -> & Ha & Hb).
  assert (exists a' x, w ++ a = a' ++ x /\ ends_line a' /\ space_text x /\ unbroken x) as (a' & x & Hax & Ha' & Hx & Hux).
  { destruct a as [|c a].
    - rewrite app_nil_r. destruct (spaces_end w Hw) as (x & y & -> & ? & ? & ?). by exists x, y.
    - exists (w ++ c :: a), []. split_and!; [by rewrite app_nil_r| |constructor|constructor].
      intros d. rewrite last_app_some by done. apply Ha. }
  assert (exists y b', b ++ w' = y ++ b' /\ starts_line b' /\ space_text y /\ unbroken y) as (y & b' & Hby & Hb' & Hy & Huy).
  { destruct b as [|c b].
    - destruct (spaces_front w' Hw') as (y & z & -> & ? & ? & ?). by exists y, z.
    - exists [], (c :: b ++ w'). split_and!; [done| |constructor|constructor]. intros d. apply Hb. }
  exists (x ++ p ++ y). split; [split_and!|by apply trim_space_pad].
  - intros [_ [? _]%app_eq_nil]%app_eq_nil. done.
  - by apply Forall_app; split; [|apply Forall_app].
  - exists a', b'. split_and!; [|done|done].
    rewrite <- !(assoc_L (++)), Hby, (assoc_L (++) w a), Hax. by rewrite <- !(assoc_L (++)).
Qed.
End Spaces.

(** ** The forms *)

Lemma add_form_elem out s f : f ∈ add_form out s <-> f ∈ out \/ (minMaskedSecret <= length s /\ f = s).
Proof.
  unfold add_form. destruct (minMaskedSecret <=? length s) eqn:El; cbn [andb].
  - apply Nat.leb_le in El. destruct (memS s out) eqn:Em; cbn [negb].
    + split; [by left|]. intros [?|[_ ->]]; [done|]. by apply list_elem_of_In, memS_In.
    + rewrite elem_of_app, list_elem_of_singleton. naive_solver.
  - apply Nat.leb_gt in El. split; [by left|]. intros [?|[? ->]]; [done|lia].
Qed.

Lemma add_forms_elem l out f : f ∈ foldl add_form out l <-> f ∈ out \/ (minMaskedSecret <= length f /\ f ∈ l).
Proof.
  revert out. induction l as [|s l IH]; intros out; cbn.
  - split; [by left|]. by intros [?|[_ ?%elem_of_nil]].
  - rewrite IH, add_form_elem, elem_of_cons. naive_solver.
Qed.

Lemma MaskForms_elem values f : f ∈ MaskForms values <-> minMaskedSecret <= length f /\ exists v, v ∈ values /\ f ∈ forms_of v.
Proof.
  unfold MaskForms. transitivity (f ∈ ([] : list bytes) \/ (minMaskedSecret <= length f /\ exists v, v ∈ values /\ f ∈ forms_of v)).
  - generalize (@nil bytes). induction values as [|v values IH]; intros out; cbn [foldl].
    + split; [by left|]. by intros [?|(_ & v & ?%elem_of_nil & _)].
    + rewrite IH, add_forms_elem. setoid_rewrite elem_of_cons. naive_solver.
  - split; [|by right]. by intros [?%elem_of_nil|?].
Qed.

Lemma unbroken_existsb s : existsb isLineBreak s = false <-> unbroken s.
Proof. unfold unbroken. induction s as [|c s IH]; cbn; [by split|]. rewrite orb_false_iff, IH, Forall_cons. done. Qed.

Lemma trim_space_unbroken s : unbroken s -> unbroken (trim_space s).
Proof.
  destruct (trim_space_spec s) as (w & w' & _ & _ & Hs). unfold unbroken. rewrite Hs at 1.
  by intros [_ [? _]%Forall_app]%Forall_app.
Qed.

(** A form of a form is a form. *)
Lemma forms_of_forms v f g : f ∈ forms_of v -> g ∈ forms_of f -> g ∈ forms_of v.
Proof.
  unfold forms_of at 1. intros [->|[->|Hf]%elem_of_cons]%elem_of_cons; [done| |].
  - unfold forms_of. rewrite !elem_of_cons, trim_space_idem. intros [->|[->|Hg]]; [by right; left..|].
    destruct (existsb isLineBreak (trim_space v)) eqn:Eb; [|by apply elem_of_nil in Hg].
    destruct (existsb isLineBreak v) eqn:Ev.
    2:{ apply unbroken_existsb, trim_space_unbroken, unbroken_existsb in Ev. congruence. }
    apply list_elem_of_fmap in Hg as (p & -> & Hp%FieldsFunc_elem). right; right.
    destruct (trim_space_spec v) as (w & w' & Hw & Hw' & Hv).
    destruct (padded_field w _ w' p Hw Hw' Hp) as (q & Hq & <-). rewrite <- Hv in Hq.
    apply list_elem_of_fmap. exists q. split; [done|by apply FieldsFunc_elem].
  - destruct (existsb isLineBreak v) eqn:Ev; [|by apply elem_of_nil in Hf].
    apply list_elem_of_fmap in Hf as (q & -> & Hq). assert (Hu : unbroken (trim_space q)).
    { apply FieldsFunc_elem in Hq as (_ & Hu & _). by apply trim_space_unbroken. }
    apply unbroken_existsb in Hu. unfold forms_of. rewrite Hu, Ev, trim_space_idem, !elem_of_cons.
    intros [->|[->|?%elem_of_nil]]; [..|done]; right; right; apply list_elem_of_fmap; by exists q.
Qed.

Lemma MaskForms_own values f : f ∈ MaskForms (MaskForms values) <-> f ∈ MaskForms values.
Proof.
  rewrite (MaskForms_elem (MaskForms values)). split.
  - intros (Hl & g & Hg & Hf). apply MaskForms_elem in Hg as (_ & v & Hv & Hg). apply MaskForms_elem.
    split; [done|]. exists v. split; [done|]. by apply (forms_of_forms v g f).
  - intros Hf. pose proof Hf as [Hl _]%MaskForms_elem. split; [done|]. exists f. split; [done|]. by left.
Qed.

(** ** MaskSecrets *)

Lemma hidden_true text needles i : hidden text needles i = true <->
  exists needle s, needle ∈ needles /\ occurs text needle s /\ s <= i < s + length needle.
Proof.
  unfold hidden, occurs. rewrite existsb_exists. split.
  - intros (n & Hn & (s & Hs%in_seq & Hi)%existsb_exists). apply andb_true_iff in Hi as [[?%Nat.leb_le ?%Nat.ltb_lt]%andb_true_iff ?].
    exists n, s. split_and!; [by apply list_elem_of_In|lia|done|lia|done].
  - intros (n & s & Hn%list_elem_of_In & (Hl & Hp) & Hi). exists n. split; [done|]. apply existsb_exists. exists s.
    split; [apply in_seq; lia|]. rewrite Hp, andb_true_r. apply andb_true_iff. by rewrite Nat.leb_le, Nat.ltb_lt.
Qed.

Lemma spans_of_elem text needles s : Forall (fun n => 0 < length n) needles ->
  s ∈ spans_of text needles <-> exists needle, needle ∈ needles /\ occurs text needle s.1 /\ s.2 = s.1 + length needle.
Proof.
  intros Hn. unfold spans_of. rewrite list_elem_of_bind. rewrite Forall_forall in Hn. destruct s as [a b].
  split; intros (n & H1 & H2); exists n.
  - rewrite (needle_spans_elem _ _ _ _ a b (Hn n H2)) in H1 by lia. naive_solver.
  - split; [|done]. apply needle_spans_elem; [by apply Hn|lia|]. cbn in *. split_and!; [lia|naive_solver..].
Qed.

Lemma covers_hidden text needles spans i : Forall (fun n => 0 < length n) needles -> spans ≡ₚ spans_of text needles ->
  covers spans i = hidden text needles i.
Proof.
  intros Hn Hp. apply eq_bool_prop_intro. rewrite !Is_true_true, covers_true, hidden_true. split.
  - intros (s & Hs & Hi). rewrite Hp, spans_of_elem in Hs by done. destruct Hs as (n & ? & ? & E). exists n, s.1.
    split_and!; [done|done|lia|lia].
  - intros (n & s & Hin & Ho & Hi). exists (s, s + length n). split; [|done]. rewrite Hp. apply spans_of_elem; [done|].
    by exists n.
Qed.

Lemma redact_none text hid i inside : (forall j, i <= j < i + length text -> hid j = false) -> redact hid i inside text = text.
Proof.
  intros Hf. destruct text as [|c text]; [done|]. rewrite (redact_clear _ _ _ _ (length (c :: text))); [|done|done|cbn; lia].
  by rewrite drop_ge, firstn_all, app_nil_r by done.
Qed.

Lemma spans_in_text text needles : Forall (fun n => 0 < length n) needles -> Forall (in_text text) (spans_of text needles).
Proof.
  intros Hn. apply Forall_forall. intros s Hs. apply spans_of_elem in Hs as (n & Hin & (Hl & Hp) & E); [|done].
  rewrite Forall_forall in Hn. specialize (Hn n Hin). apply HasPrefix_length in Hp. rewrite length_drop in Hp.
  unfold in_text. lia.
Qed.

Lemma sort_spans spans : StronglySorted (fun s t => s.1 <= t.1) (sort_stable by_start spans).
Proof.
  set (cmp := fun a b : nat * nat => (Z.of_nat a.1 - Z.of_nat b.1)%Z).
  rewrite (sort_stable_ext _ (less cmp)).
  2:{ intros x y. unfold less, cmp, by_start. destruct (Nat.ltb_spec x.1 y.1), (Z.ltb_spec (Z.of_nat x.1 - Z.of_nat y.1) 0); lia || done. }
  destruct (sort_stable_spec cmp (fun _ => True)) with (l := spans) as (_ & Hs & _); unfold cmp in *; try lia.
  { by apply Forall_true. }
  eapply StronglySorted_ind; [..|exact Hs]; [constructor|]. intros a l _ IH Hall. constructor; [done|].
  eapply Forall_impl; [exact Hall|]. cbn. lia.
Qed.

(** The masked text, for any needles that are not empty. *)
Lemma mask_redact text needles : Forall (fun n => 0 < length n) needles ->
  match sort_stable by_start (spans_of text needles) with
  | [] => text
  | s :: spans => mask_spans text 0 s spans
  end = redact (hidden text needles) 0 false text.
Proof.
  intros Hn. pose proof (sort_spans (spans_of text needles)) as Hs.
  pose proof (sort_stable_perm by_start (spans_of text needles)) as Hp.
  pose proof (spans_in_text text needles Hn) as Hi. rewrite <- Hp in Hi.
  destruct (sort_stable _ _) as [|s spans].
  - rewrite redact_none; [done|]. intros j _. by rewrite <- (covers_hidden text needles []).
  - apply Forall_cons in Hi as [Hs1 Hi]. rewrite mask_spans_redact by (done || lia). rewrite drop_0.
    apply redact_ext. intros j _. by apply covers_hidden.
Qed.

Lemma MaskForms_nonempty values : Forall (fun n => 0 < length n) (MaskForms values).
Proof. apply Forall_forall. intros n [Hl _]%MaskForms_elem. unfold minMaskedSecret in Hl. lia. Qed.

Lemma MaskSecrets_redact text values : MaskSecrets text values = redact (hidden text (MaskForms values)) 0 false text.
Proof.
  unfold MaskSecrets. destruct (length text =? 0) eqn:Et; [by apply Nat.eqb_eq, nil_length_inv in Et as ->|].
  destruct (length (MaskForms values) =? 0) eqn:En; cbn [orb].
  - apply Nat.eqb_eq, nil_length_inv in En as ->. by rewrite redact_none.
  - apply mask_redact, MaskForms_nonempty.
Qed.

(** ** Theorems *)

(** C16: Masking hides exactly the secrets: the masked text is the text with every
    maximal run of bytes that lie in an occurrence of a secret, in any of the forms it
    is printed in, replaced by one mask, overlapping occurrences included, and every
    other byte kept. *)
Theorem MaskSecrets_exact (text : bytes) (values : list bytes) :
  MaskSecrets text values = redact (hidden text (MaskForms values)) 0 false text
  /\ forall i, hidden text (MaskForms values) i = true <->
       exists v form start, v ∈ values /\ form ∈ forms_of v /\ minMaskedSecret <= length form
         /\ occurs text form start /\ start <= i < start + length form.
Proof.
  split; [apply MaskSecrets_redact|]. intros i. rewrite hidden_true. setoid_rewrite MaskForms_elem. naive_solver.
Qed.

(** C39: The forms of secrets are their own forms: masking with the forms computed
    once masks every text as the values themselves would. *)
Theorem MaskForms_once (text : bytes) (values : list bytes) :
  MaskSecrets text (MaskForms values) = MaskSecrets text values.
Proof.
  rewrite !MaskSecrets_redact. apply redact_ext. intros j _. apply eq_bool_prop_intro.
  rewrite !Is_true_true, !hidden_true. setoid_rewrite MaskForms_own. done.
Qed.
