(* ===== verification/Globs.v ===== *)
(** Path globs of a pipeline: component/pipelines/glob.go.

    CompileGlob writes a regular expression and compiles it with Go's regexp.  Here
    the expression is the list of the pieces written, and regexp is the matcher of
    [re] by derivatives, for the part of its syntax the pieces use.  Strings are
    their runes. *)

From S2P Require Import Prelude GoText.

(** ** regexp *)

(** One character: itself, [[^/]], or [.], which is anything but a line feed. *)
Inductive class :=
| Is (c : rune)
| NotSlash
| NotNewline.

Definition in_class (k : class) (c : rune) : bool :=
  match k with
  | Is d => c =? d
  | NotSlash => negb (c =? 47)
  | NotNewline => negb (c =? 10)
  end.

Inductive re :=
| Void
| Eps
| Chr (k : class)
| Cat (r1 r2 : re)
| Alt (r1 r2 : re)
| Rep (r : re).

Fixpoint nullable (r : re) : bool :=
  match r with
  | Void | Chr _ => false
  | Eps | Rep _ => true
  | Cat r1 r2 => nullable r1 && nullable r2
  | Alt r1 r2 => nullable r1 || nullable r2
  end.

Fixpoint deriv (c : rune) (r : re) : re :=
  match r with
  | Void | Eps => Void
  | Chr k => if in_class k c then Eps else Void
  | Cat r1 r2 => if nullable r1 then Alt (Cat (deriv c r1) r2) (deriv c r2) else Cat (deriv c r1) r2
  | Alt r1 r2 => Alt (deriv c r1) (deriv c r2)
  | Rep r1 => Cat (deriv c r1) (Rep r1)
  end.

(** re.MatchString of an expression between ^ and $. *)
Fixpoint MatchString (r : re) (s : gostring) : bool :=
  match s with
  | [] => nullable r
  | c :: s' => MatchString (deriv c r) s'
  end.

(** ** The pieces of an expression *)

(** A quoted literal, any run inside a segment, one character of a segment, a
    separator, whole directories with their separators, and the two endings of a
    trailing globstar: an optional separator with anything after it, and anything. *)
Inductive piece :=
| PQuote (literal : gostring)
| PStar
| POne
| PSep
| PDirs
| PTail
| PAll.

Definition piece_re (p : piece) : re :=
  match p with
  | PQuote literal => foldr (fun c r => Cat (Chr (Is c)) r) Eps literal
  | PStar => Rep (Chr NotSlash)
  | POne => Chr NotSlash
  | PSep => Chr (Is 47)
  | PDirs => Rep (Cat (Rep (Chr NotSlash)) (Chr (Is 47)))
  | PTail => Alt (Cat (Chr (Is 47)) (Rep (Chr NotNewline))) Eps
  | PAll => Rep (Chr NotNewline)
  end.

Definition pieces_re (ps : list piece) : re := foldr (fun p r => Cat (piece_re p) r) Eps ps.

(** What a loop writes that puts [sep] before every part but the first. *)
Definition between_parts (sep : piece) (write : gostring -> list piece) (parts : list gostring) : list piece :=
  match parts with
  | [] => []
  | part :: parts' => write part ++ (parts' ≫= (fun q => sep :: write q))
  end.

Definition globSegmentRegexp (seg : gostring) : list piece :=
  between_parts PStar (fun part => between_parts POne (fun literal => [PQuote literal]) (Split part 63)) (Split seg 42).

(** ** CompileGlob *)

Inductive glob_error :=
| EmptyPattern
| BareNegation
| MisplacedNegation
| UnsupportedMeta (c : rune)
| MixedGlobstar (seg : gostring).

Definition globUnsupportedMeta : gostring := go "[]{}()+@\".

(** body[i] at i = strings.IndexAny(body, chars) *)
Definition first_any (body chars : gostring) : option rune := find (fun c => ContainsRune chars c) body.

Definition globstar : gostring := go "**".

Fixpoint glob_pieces (first needSep : bool) (segments : list gostring) : result glob_error (list piece) :=
  match segments with
  | [] => Ok []
  | seg :: rest =>
      let sep := if needSep then [PSep] else [] in
      if Contains seg globstar then
        if negb (seg =s globstar) then Err (MixedGlobstar seg)
        else match rest with
             | [] => Ok [if first then PAll else PTail]
             | _ :: _ => (fun ps => sep ++ PDirs :: ps) <$> glob_pieces false false rest
             end
      else (fun ps => sep ++ globSegmentRegexp seg ++ ps) <$> glob_pieces false true rest
  end.

(** The compiled predicate: whether it is negated, and the expression. *)
Record matcher := mkMatcher { m_negated : bool; m_pieces : list piece }.

Definition matcher_run (m : matcher) (path : gostring) : bool :=
  xorb (m_negated m) (MatchString (pieces_re (m_pieces m)) path).

Definition CompileGlob (pattern : gostring) : result glob_error matcher :=
  if pattern =s [] then Err EmptyPattern
  else
    let negated := HasPrefix pattern (go "!") in
    let body := if negated then drop 1 pattern else pattern in
    if negated && (body =s []) then Err BareNegation
    else if ContainsRune body 33 then Err MisplacedNegation
    else match first_any body globUnsupportedMeta with
         | Some c => Err (UnsupportedMeta c)
         | None => mkMatcher negated <$> glob_pieces true false (Split body 47)
         end.

(** ** PathSet *)

Inductive path_set_error :=
| BadGlob (glob : gostring) (e : glob_error)
| NothingIncluded.

(** The globs of a list, compiled: the plain ones and the ones after a [!]. *)
Fixpoint compile_globs (globs : list gostring) : result path_set_error (list matcher * list matcher) :=
  match globs with
  | [] => Ok ([], [])
  | glob :: globs' =>
      if HasPrefix glob (go "!") then
        match CompileGlob (drop 1 glob) with
        | Err e => Err (BadGlob glob e)
        | Ok m => (fun '(include, exclude) => (include, m :: exclude)) <$> compile_globs globs'
        end
      else match CompileGlob glob with
           | Err e => Err (BadGlob glob e)
           | Ok m => (fun '(include, exclude) => (m :: include, exclude)) <$> compile_globs globs'
           end
  end.

(** The predicate: the first plain glob that matches settles it. *)
Fixpoint path_in (include exclude : list matcher) (path : gostring) : bool :=
  match include with
  | [] => false
  | m :: include' =>
      if matcher_run m path then negb (existsb (fun out => matcher_run out path) exclude)
      else path_in include' exclude path
  end.

Definition PathSet (globs : list gostring) : result path_set_error (gostring -> bool) :=
  match compile_globs globs with
  | Err e => Err e
  | Ok ([], _) => Err NothingIncluded
  | Ok (include, exclude) => Ok (path_in include exclude)
  end.

Definition AnyPathMatches (globs changed : list gostring) : result path_set_error bool :=
  (fun f => existsb f changed) <$> PathSet globs.
