(* ===== verification/GlobFacts.v ===== *)
(** What a compiled glob matches: paths segment by segment. *)

From S2P Require Import Prelude GoText TopicFacts Globs.

(** ** Languages of expressions *)

Inductive lang : re -> gostring -> Prop :=
| lang_eps : lang Eps []
| lang_chr k c : in_class k c = true -> lang (Chr k) [c]
| lang_cat r1 r2 s t : lang r1 s -> lang r2 t -> lang (Cat r1 r2) (s ++ t)
| lang_left r1 r2 s : lang r1 s -> lang (Alt r1 r2) s
| lang_right r1 r2 s : lang r2 s -> lang (Alt r1 r2) s
| lang_stop r : lang (Rep r) []
| lang_more r c s t : lang r (c :: s) -> lang (Rep r) t -> lang (Rep r) (c :: s ++ t).

#[export] Hint Constructors lang : memql.

Lemma nullable_lang r : nullable r = true <-> lang r [].
Proof.
  induction r as [| |k|r1 IH1 r2 IH2|r1 IH1 r2 IH2|r IH]; cbn.
  - split; [done|inversion 1].
  - split; [constructor|done].
  - split; [done|inversion 1].
  - rewrite andb_true_iff, IH1, IH2. split.
    + intros [H1 H2]. by apply (lang_cat _ _ [] []).
    + inversion 1 as [| |? ? s t H1 H2 E1 E2| | | |]; subst. apply app_eq_nil in E2 as [-> ->]. done.
  - rewrite orb_true_iff, IH1, IH2. split; [intros [?|?]; auto with memql|]. inversion 1; subst; auto.
  - split; [constructor|done].
Qed.

Lemma deriv_lang r c s : lang (deriv c r) s <-> lang r (c :: s).
Proof.
  revert s. induction r as [| |k|r1 IH1 r2 IH2|r1 IH1 r2 IH2|r IH]; intros s; cbn [deriv].
  - split; inversion 1.
  - split; inversion 1.
  - split.
    + destruct (in_class k c) eqn:E; inversion 1; subst. by constructor.
    + inversion 1 as [|? ? E| | | | |]; subst. rewrite E. constructor.
  - assert (Hc : lang (Cat r1 r2) (c :: s) <->
      lang (Cat (deriv c r1) r2) s \/ (lang r1 [] /\ lang (deriv c r2) s)).
    { rewrite IH2. split.
      - inversion 1 as [| |? ? x y H1 H2 E1 E2| | | |]; subst. destruct x as [|d x]; cbn in E2; subst; [by right|].
        injection E2 as -> <-. left. constructor; [|done]. by apply IH1.
      - intros [Hl|[H1 H2]]; [|by apply (lang_cat _ _ [] (c :: s))].
        inversion Hl as [| |? ? x y H1 H2| | | |]; subst. apply IH1 in H1. by apply (lang_cat _ _ (c :: x) y). }
    rewrite Hc, <- nullable_lang. destruct (nullable r1).
    + split; [inversion 1; subst; auto|intros [?|[_ ?]]; auto with memql].
    + split; [auto|]. by intros [?|[? _]].
  - split; (inversion 1; subst; [apply lang_left|apply lang_right]; by apply IH1 || by apply IH2).
  - split.
    + inversion 1 as [| |? ? x y H1 H2| | | |]; subst. constructor; [by apply IH|done].
    + inversion 1 as [| | | | | |? ? x y H1 H2]; subst. constructor; [by apply IH|done].
Qed.

Lemma MatchString_lang r s : MatchString r s = true <-> lang r s.
Proof. revert r. induction s as [|c s IH]; intros r; cbn; [apply nullable_lang|]. rewrite IH. apply deriv_lang. Qed.

(** ** Languages of pieces *)

Lemma lang_cat_iff r1 r2 u : lang (Cat r1 r2) u <-> exists s t, u = s ++ t /\ lang r1 s /\ lang r2 t.
Proof. split; [inversion 1; subst; eauto|]. intros (s & t & -> & H1 & H2). by constructor. Qed.

Lemma lang_rep_class k s : lang (Rep (Chr k)) s <-> Forall (fun c => in_class k c = true) s.
Proof.
  split.
  - intros Hl. remember (Rep (Chr k)) as r eqn:E. induction Hl; try done. injection E as ->.
    inversion Hl1; subst. cbn. constructor; [done|]. by apply IHHl2.
  - induction 1 as [|c s Hc _ IH]; [constructor|]. apply (lang_more _ c [] s); [by constructor|done].
Qed.

Lemma not_slash_class s : Forall (fun c => in_class NotSlash c = true) s <-> no_slash s.
Proof. unfold no_slash. apply Forall_proper; [|done]. intros c. cbn. rewrite negb_true_iff. apply Z.eqb_neq. Qed.

Definition no_newline (s : gostring) : Prop := Forall (fun c => c <> 10) s.

Lemma lang_any s : no_newline s -> lang (Rep (Chr NotNewline)) s.
Proof. intros Hs. apply lang_rep_class. eapply Forall_impl; [exact Hs|]. intros c Hc. cbn. by apply negb_true_iff, Z.eqb_neq. Qed.

Lemma lang_sep s : lang (Chr (Is 47)) s <-> s = [47].
Proof.
  split; [|intros ->; by constructor]. inversion 1 as [|? ? E| | | | |]; subst. cbn in E. apply Z.eqb_eq in E as ->. done.
Qed.

(** Directories, each with the separator after it. *)
Definition dirs_text (dirs : list gostring) : gostring := dirs ≫= (fun d => d ++ [47]).

Lemma lang_dir s : lang (Cat (Rep (Chr NotSlash)) (Chr (Is 47))) s <-> exists d, no_slash d /\ s = d ++ [47].
Proof.
  rewrite lang_cat_iff. setoid_rewrite lang_rep_class. setoid_rewrite not_slash_class. setoid_rewrite lang_sep. naive_solver.
Qed.

Lemma lang_dirs s : lang (piece_re PDirs) s <-> exists dirs, Forall no_slash dirs /\ s = dirs_text dirs.
Proof.
  cbn. split.
  - intros Hl. remember (Rep (Cat (Rep (Chr NotSlash)) (Chr (Is 47)))) as r eqn:E. induction Hl; try done; [by exists []|].
    injection E as ->. apply lang_dir in Hl1 as (d & Hd & Hs). destruct IHHl2 as (dirs & Hds & ->); [done|].
    exists (d :: dirs). split; [by constructor|]. cbn. by rewrite <- Hs.
  - intros (dirs & Hd & ->). induction Hd as [|d dirs Hd _ IH]; [constructor|]. cbn.
    assert (Hl : lang (Cat (Rep (Chr NotSlash)) (Chr (Is 47))) (d ++ [47])) by (apply lang_dir; by exists d).
    destruct (d ++ [47]) as [|c t] eqn:E; [by destruct d|]. cbn. by constructor.
Qed.

Lemma lang_quote l s : lang (piece_re (PQuote l)) s <-> s = l.
Proof.
  cbn. revert s. induction l as [|c l IH]; intros s; cbn [foldr].
  - split; [by inversion 1|]. intros ->. constructor.
  - rewrite lang_cat_iff. setoid_rewrite IH. split.
    + intros (x & y & -> & Hx & ->). inversion Hx as [|? ? E| | | | |]; subst. cbn in E. by apply Z.eqb_eq in E as ->.
    + intros ->. exists [c], l. split_and!; [done| |done]. constructor. cbn. apply Z.eqb_refl.
Qed.

Lemma lang_pieces_cons p ps s : lang (pieces_re (p :: ps)) s <-> exists x y, s = x ++ y /\ lang (piece_re p) x /\ lang (pieces_re ps) y.
Proof. apply lang_cat_iff. Qed.

Lemma lang_pieces_app ps qs s : lang (pieces_re (ps ++ qs)) s
  <-> exists x y, s = x ++ y /\ lang (pieces_re ps) x /\ lang (pieces_re qs) y.
Proof.
  revert s. induction ps as [|p ps IH]; intros s; cbn [app].
  - split; [intros Hs; exists [], s; by repeat constructor|]. intros (x & y & -> & Hx & Hy). by inversion Hx.
  - rewrite lang_pieces_cons. setoid_rewrite IH. setoid_rewrite lang_pieces_cons. split.
    + intros (x & ? & -> & Hx & y & z & -> & Hy & Hz). exists (x ++ y), z. split_and!; [by rewrite (assoc_L (++))| |done].
      by exists x, y.
    + intros (? & z & -> & (x & y & -> & Hx & Hy) & Hz). exists x, (y ++ z). split_and!; [by rewrite (assoc_L (++))|done|].
      by exists y, z.
Qed.

(** ** A segment *)

Definition write_part (part : gostring) : list piece := between_parts POne (fun literal => [PQuote literal]) (Split part 63).

Lemma between_cons sep write part parts s : parts <> [] ->
  lang (pieces_re (between_parts sep write (part :: parts))) s
  <-> exists x y z, s = x ++ y ++ z /\ lang (pieces_re (write part)) x /\ lang (piece_re sep) y
        /\ lang (pieces_re (between_parts sep write parts)) z.
Proof.
  intros Hp. destruct parts as [|q parts]; [done|]. cbn [between_parts mbind list_bind].
  rewrite lang_pieces_app. cbn [app]. setoid_rewrite lang_pieces_cons. naive_solver.
Qed.

Lemma lang_quotes l s : lang (pieces_re [PQuote l]) s <-> s = l.
Proof.
  rewrite lang_pieces_cons. setoid_rewrite lang_quote. split.
  - intros (x & y & -> & -> & Hy). inversion Hy. by rewrite app_nil_r.
  - intros ->. exists l, []. split_and!; [by rewrite app_nil_r|done|constructor].
Qed.

Lemma quote_step c l ps s : lang (pieces_re (PQuote (c :: l) :: ps)) s <-> exists t, s = c :: t /\ lang (pieces_re (PQuote l :: ps)) t.
Proof.
  rewrite lang_pieces_cons. setoid_rewrite lang_pieces_cons. setoid_rewrite lang_quote. split.
  - intros (x & y & -> & -> & Hy). exists (l ++ y). split; [done|]. by exists l, y.
  - intros (? & -> & x & y & -> & -> & Hy). by exists (c :: l), y.
Qed.

(** A character of a part that is not a star. *)
Lemma write_part_step c part ps s : lang (pieces_re (write_part (c :: part) ++ ps)) s
  <-> exists d t, s = d :: t /\ char_matches c d = true /\ lang (pieces_re (write_part part ++ ps)) t.
Proof.
  unfold write_part, char_matches. cbn [Split]. destruct (c =? 63) eqn:Hc.
  - rewrite lang_pieces_app. setoid_rewrite between_cons; [|apply Split_nonempty]. setoid_rewrite lang_quotes.
    setoid_rewrite lang_pieces_app. split.
    + intros (? & v & -> & (x & y & z & -> & -> & Hy & Hz) & Hv). inversion Hy as [|? d Hd| | | | |]; subst.
      exists d, (z ++ v). split_and!; [done|done|]. by exists z, v.
    + intros (d & ? & -> & Hd & z & v & -> & Hz & Hv). exists (d :: z), v. split_and!; [done| |done].
      exists [], [d], z. split_and!; [done|done|by constructor|done].
  - pose proof (Split_nonempty part 63). destruct (Split part 63) as [|q qs]; [done|].
    cbn [between_parts app]. rewrite quote_step. split.
    + intros (t & -> & Ht). exists c, t. by rewrite Z.eqb_refl.
    + intros (d & t & -> & ->%Z.eqb_eq & Ht). by exists t.
Qed.

Lemma segment_lang seg s : lang (pieces_re (globSegmentRegexp seg)) s <-> glob seg s.
Proof.
  change (globSegmentRegexp seg) with (between_parts PStar write_part (Split seg 42)).
  revert s. induction seg as [|c seg IH]; intros s.
  - change (between_parts PStar write_part (Split [] 42)) with [PQuote []]. by rewrite lang_quotes, glob_nil_inv.
  - cbn [Split]. destruct (Z.eqb_spec c 42) as [->|Hc].
    + rewrite between_cons by apply Split_nonempty. setoid_rewrite IH. change (write_part []) with [PQuote []].
      setoid_rewrite lang_quotes. cbn [piece_re]. setoid_rewrite lang_rep_class. setoid_rewrite not_slash_class. split.
      * intros (x & y & z & -> & -> & Hy & Hz). by apply (glob_star seg y z).
      * inversion 1; subst; [|done]. by eexists [], _, _.
    + pose proof (Split_nonempty seg 42). destruct (Split seg 42) as [|q qs] eqn:Eq; [done|].
      cbn [between_parts] in *. rewrite write_part_step. setoid_rewrite IH. unfold char_matches. split.
      * intros (d & t & -> & Hd & Ht). destruct (Z.eqb_spec c 63) as [->|].
        -- apply negb_true_iff, Z.eqb_neq in Hd. by constructor.
        -- apply Z.eqb_eq in Hd as ->. by constructor.
      * inversion 1 as [| |? d t Hd Ht|? ? t ? Hd Ht]; subst; [done| |].
        -- exists d, t. split_and!; [done| |done]. by apply negb_true_iff, Z.eqb_neq.
        -- exists c, t. split_and!; [done| |done]. apply Z.eqb_neq in Hd. by rewrite Hd, Z.eqb_refl.
Qed.

Lemma glob_no_slash seg s : no_slash seg -> glob seg s -> no_slash s.
Proof.
  intros Hs Hg. induction Hg as [|p u s Hu Hg IH|p c s Hc Hg IH|p c s H1 H2 Hg IH]; [constructor|..];
    apply Forall_cons in Hs as [Hc' Hs]; [apply Forall_app; by split; [|apply IH]|constructor; [done|by apply IH]..].
Qed.

(** ** Paths *)

(** What a pattern means: [**] stands for any number of segments, every other
    segment for one it matches. *)
Inductive path_glob : list gostring -> list gostring -> Prop :=
| path_done : path_glob [] []
| path_any pats skipped parts : path_glob pats parts -> path_glob (globstar :: pats) (skipped ++ parts)
| path_seg pat pats part parts : pat <> globstar -> glob pat part -> path_glob pats parts ->
    path_glob (pat :: pats) (part :: parts).

(** A globstar right before a final one: the one form CompileGlob gets wrong. *)
Fixpoint doubled_tail (segments : list gostring) : bool :=
  match segments with
  | [] => false
  | [a; b] => (a =s globstar) && (b =s globstar)
  | _ :: rest => doubled_tail rest
  end.

(** A separator and a segment, over and over. *)
Definition tail_text (parts : list gostring) : gostring := parts ≫= (fun p => 47 :: p).

Lemma Join_tail p parts : Join (p :: parts) [47] = p ++ tail_text parts.
Proof.
  revert p. induction parts as [|q parts IH]; intros p; [cbn; by rewrite app_nil_r|].
  change (Join (p :: q :: parts) [47]) with (p ++ 47 :: Join (q :: parts) [47]). by rewrite IH.
Qed.

Lemma no_slash_contains s : no_slash s <-> ContainsRune s 47 = false.
Proof. by rewrite ContainsRune_false. Qed.

Lemma Split_slash s parts : Split s 47 = parts <-> parts <> [] /\ Forall no_slash parts /\ s = Join parts [47].
Proof.
  assert (Hf : forall l, Forall no_slash l <-> Forall (fun p => ContainsRune p 47 = false) l).
  { intros l. apply Forall_proper; [|done]. intros p. apply no_slash_contains. }
  rewrite Hf. split.
  - intros <-. split_and!; [apply Split_nonempty|apply Split_parts|by rewrite Join_Split].
  - intros (Hne & Hp & ->). by apply Split_Join.
Qed.

Lemma dirs_Split dirs s : Forall no_slash dirs -> Split (dirs_text dirs ++ s) 47 = dirs ++ Split s 47.
Proof.
  induction 1 as [|d dirs Hd _ IH]; [done|].
  change (dirs_text (d :: dirs)) with ((d ++ [47]) ++ dirs_text dirs). rewrite <- !(assoc_L (++)). cbn [app].
  rewrite Split_app by by apply no_slash_contains. by rewrite IH.
Qed.

Lemma tail_Split s : tail_text (Split s 47) = 47 :: s.
Proof.
  destruct (Split s 47) as [|p parts] eqn:E; [by apply Split_nonempty in E|].
  apply Split_slash in E as (_ & _ & ->). by rewrite Join_tail.
Qed.

(** A pattern with a segment of its own matches no empty list of segments. *)
Lemma path_glob_nonempty pats parts : path_glob pats parts -> parts = [] -> Forall (eq globstar) pats.
Proof.
  induction 1 as [|pats skipped parts Hp IH|pat pats part parts Hne Hg Hp IH]; [constructor| |done].
  intros [_ ->]%app_eq_nil. constructor; [done|by apply IH].
Qed.

Lemma doubled_all pats : Forall (eq globstar) pats -> (2 <= length pats)%nat -> doubled_tail pats = true.
Proof.
  induction 1 as [|p pats Hp Hall IH]; cbn [length]; intros Hl; [lia|]. destruct pats as [|q [|r pats]]; cbn in *; [lia| |].
  - apply Forall_cons in Hall as [<- _]. subst p. done.
  - apply IH. lia.
Qed.

Lemma doubled_tail_cons seg rest : doubled_tail (seg :: rest) = false -> doubled_tail rest = false.
Proof. destruct rest as [|a [|b rest]]; cbn; done. Qed.

Lemma Join_dirs dirs parts : parts <> [] -> Join (dirs ++ parts) [47] = dirs_text dirs ++ Join parts [47].
Proof.
  intros Hp. induction dirs as [|d dirs IH]; [done|].
  change (dirs_text (d :: dirs)) with ((d ++ [47]) ++ dirs_text dirs). rewrite <- !(assoc_L (++)), <- IH. cbn [app].
  by destruct (dirs ++ parts) eqn:E; [apply app_eq_nil in E as [_ ?]|].
Qed.

(** Both readings of what a pattern's expression matches: a whole path, and, after a
    segment, what is left of it from a separator on. *)
Definition reads_path (ps : list piece) (segs : list gostring) : Prop :=
  forall s, no_newline s -> lang (pieces_re ps) s <-> path_glob segs (Split s 47).

Definition reads_tail (ps : list piece) (segs : list gostring) : Prop :=
  forall s, no_newline s -> lang (pieces_re ps) s
    <-> exists parts, Forall no_slash parts /\ s = tail_text parts /\ path_glob segs parts.

Lemma reads_sep ps segs : reads_path ps segs -> (forall parts, path_glob segs parts -> parts <> []) ->
  reads_tail (PSep :: ps) segs.
Proof.
  intros Hr Hne s Hs. rewrite lang_pieces_cons. cbn [piece_re]. setoid_rewrite lang_sep. split.
  - intros (? & t & -> & -> & Ht). apply Forall_app in Hs as [_ Hs]. apply Hr in Ht; [|done].
    exists (Split t 47). pose proof (proj1 (Split_slash t _) eq_refl) as (_ & Hp & _). split_and!; [done| |done].
    by rewrite tail_Split.
  - intros (parts & Hp & -> & Hg). pose proof (Hne parts Hg) as Hn. assert (Hsp : Split (Join parts [47]) 47 = parts).
    { by apply Split_slash. }
    exists [47], (Join parts [47]). rewrite <- Hsp at 1. rewrite tail_Split. split_and!; [done|done|].
    apply Hr; [|by rewrite Hsp]. rewrite <- Hsp, tail_Split in Hs. by apply Forall_cons in Hs as [_ Hs].
Qed.

Lemma path_glob_all parts : path_glob [globstar] parts.
Proof. rewrite <- (app_nil_r parts). by repeat constructor. Qed.

Lemma path_glob_own segs parts : path_glob segs parts -> (2 <= length segs)%nat -> doubled_tail segs = false -> parts <> [].
Proof. intros Hg Hl Hd ->. apply path_glob_nonempty in Hg; [|done]. apply doubled_all in Hg; [congruence|done]. Qed.

Lemma reads_dirs ps rest : rest <> [] -> doubled_tail (globstar :: rest) = false -> reads_path ps rest ->
  reads_path (PDirs :: ps) (globstar :: rest).
Proof.
  intros Hne Hd Hr s Hs. rewrite lang_pieces_cons. setoid_rewrite lang_dirs. split.
  - intros (? & y & -> & (dirs & Hdirs & ->) & Hy). apply Forall_app in Hs as [_ Hs]. rewrite dirs_Split by done.
    constructor. by apply Hr.
  - intros Hg. inversion Hg as [|? skipped parts Hp E1 E2|]; subst; [|done].
    assert (Hn : parts <> []).
    { intros ->. eapply path_glob_own; [exact (path_any rest [] [] Hp)| |done|done]. destruct rest; [done|cbn; lia]. }
    symmetry in E2. apply Split_slash in E2 as (_ & [H1 H2]%Forall_app & ->). rewrite Join_dirs in * by done.
    exists (dirs_text skipped), (Join parts [47]). split_and!; [done|by exists skipped|]. apply Forall_app in Hs as [_ Hs].
    apply Hr; [done|]. assert (Split (Join parts [47]) 47 = parts) as -> by by apply Split_slash. done.
Qed.

Lemma reads_segment ps seg rest : seg <> globstar -> no_slash seg -> reads_tail ps rest ->
  reads_path (globSegmentRegexp seg ++ ps) (seg :: rest).
Proof.
  intros Hne Hseg Hr s Hs. rewrite lang_pieces_app. setoid_rewrite segment_lang. split.
  - intros (x & y & -> & Hx & Hy). apply Forall_app in Hs as [_ Hs]. apply Hr in Hy as (parts & Hp & -> & Hg); [|done].
    pose proof (glob_no_slash _ _ Hseg Hx) as Hx'. assert (Split (x ++ tail_text parts) 47 = x :: parts) as ->.
    { apply Split_slash. split_and!; [done|by constructor|by rewrite Join_tail]. }
    by constructor.
  - intros Hg. inversion Hg as [|? ? ? Hp|? ? part parts _ Hx Hp E1 E2]; subst; [done|].
    symmetry in E2. apply Split_slash in E2 as (_ & [H1 H2]%Forall_cons & ->). rewrite Join_tail in *.
    exists part, (tail_text parts). split_and!; [done|done|]. apply Forall_app in Hs as [_ Hs]. apply Hr; [done|].
    by exists parts.
Qed.

Lemma reads_end : reads_tail [PTail] [globstar].
Proof.
  intros s Hs. rewrite lang_pieces_cons. split.
  - intros (x & y & -> & Hx & Hy). inversion Hy; subst. rewrite app_nil_r in *.
    inversion Hx as [| | |? ? ? Hl|? ? ? Hl| |]; subst.
    + apply lang_cat_iff in Hl as (a & t & -> & ->%lang_sep & _). exists (Split t 47). rewrite tail_Split.
      split_and!; [by destruct (proj1 (Split_slash t _) eq_refl) as (_ & ? & _)|done|apply path_glob_all].
    + inversion Hl. exists []. split_and!; [constructor|done|apply path_glob_all].
  - intros (parts & _ & -> & _). exists (tail_text parts), []. rewrite app_nil_r. split_and!; [done| |constructor].
    destruct parts as [|p parts]; [apply lang_right; constructor|].
    change (tail_text (p :: parts)) with ([47] ++ p ++ tail_text parts) in *. apply lang_left. constructor; [by apply lang_sep|].
    apply lang_any. by apply Forall_app in Hs as [_ Hs].
Qed.

Lemma contains_globstar : Contains globstar globstar = true.
Proof. reflexivity. Qed.

Lemma glob_pieces_reads segs first needSep ps : glob_pieces first needSep segs = Ok ps -> Forall no_slash segs ->
  doubled_tail segs = false ->
  if needSep then first = false -> reads_tail ps segs
  else segs <> [] -> first = true \/ segs <> [globstar] -> reads_path ps segs.
Proof.
  revert first needSep ps. induction segs as [|seg rest IH]; intros first needSep ps Hps Hsl Hd; cbn [glob_pieces] in Hps.
  { injection Hps as <-. destruct needSep; [|done]. intros _ s _. split.
    - intros Hl. inversion Hl. exists []. split_and!; [constructor|done|constructor].
    - intros (parts & _ & -> & Hg). inversion Hg. constructor. }
  apply Forall_cons in Hsl as [Hseg Hsl]. pose proof (doubled_tail_cons _ _ Hd) as Hd'.
  destruct (Contains seg globstar) eqn:Ec.
  - destruct (seg =s globstar) eqn:Eg; [|done]. apply eqs_true in Eg as ->. cbn [negb] in Hps. destruct rest as [|r rest].
    + injection Hps as <-. destruct needSep; [intros ->; apply reads_end|].
      intros _ [->|?] s Hs; [|done]. split; [intros _; apply path_glob_all|]. intros _.
      apply lang_pieces_cons. exists s, []. rewrite app_nil_r. split_and!; [done|by apply lang_any|constructor].
    + destruct (glob_pieces false false (r :: rest)) as [ps'|] eqn:Ep; [|done]. injection Hps as <-.
      assert (Hr : reads_path (PDirs :: ps') (globstar :: r :: rest)).
      { apply reads_dirs; [done|done|]. apply (IH _ _ _ Ep Hsl Hd'); [done|]. right. intros [= -> ->]. done. }
      destruct needSep; [intros _|by intros _ _]. apply reads_sep; [done|]. intros parts Hg.
      apply (path_glob_own _ _ Hg); [cbn; lia|done].
  - assert (Hne : seg <> globstar) by (intros ->; by rewrite contains_globstar in Ec).
    destruct (glob_pieces false true rest) as [ps'|] eqn:Ep; [|done]. injection Hps as <-.
    assert (Hr : reads_path (globSegmentRegexp seg ++ ps') (seg :: rest)).
    { apply reads_segment; [done|done|]. by apply (IH _ _ _ Ep Hsl Hd'). }
    destruct needSep; [intros _|by intros _ _]. apply reads_sep; [done|]. intros parts Hg. by inversion Hg.
Qed.

(** ** A doubled globstar at the end *)

Definition has_empty (s : gostring) : Prop := [] ∈ Split s 47.

Lemma Split_suffix x y : exists pre, Split (x ++ 47 :: y) 47 = pre ++ Split y 47.
Proof.
  exists (Split x 47). destruct (Split x 47) as [|p ps] eqn:E; [by apply Split_nonempty in E|].
  apply Split_slash in E as (Hne & Hf & ->). apply Split_slash.
  pose proof (proj1 (Split_slash y _) eq_refl) as (Hn & Hy & Hj). split_and!; [done|by apply Forall_app|].
  set (l := Split y 47) in *. rewrite Hj. destruct l as [|q qs]; [done|]. rewrite !Join_tail. cbn [app].
  rewrite Join_tail. unfold tail_text. rewrite bind_app. cbn. by rewrite <- !(assoc_L (++)).
Qed.

Lemma has_empty_suffix x y : has_empty y -> has_empty (x ++ 47 :: y).
Proof. unfold has_empty. intros Hy. destruct (Split_suffix x y) as (pre & ->). apply elem_of_app. by right. Qed.

Lemma doubled_pieces segs first needSep ps s : glob_pieces first needSep segs = Ok ps -> doubled_tail segs = true ->
  lang (pieces_re ps) s -> if needSep then exists t, s = 47 :: t /\ has_empty t else has_empty s.
Proof.
  revert first needSep ps s. induction segs as [|seg rest IH]; intros first needSep ps s Hps Hd Hs; [done|]. cbn [glob_pieces] in Hps.
  assert (Hsep : forall qs, ps = (if needSep then [PSep] else []) ++ qs -> (forall t, lang (pieces_re qs) t -> has_empty t) ->
    if needSep then exists t, s = 47 :: t /\ has_empty t else has_empty s).
  { intros qs -> Hq. destruct needSep; [|by apply Hq]. apply lang_pieces_cons in Hs as (x & t & -> & ->%lang_sep & Ht).
    exists t. split; [done|by apply Hq]. }
  destruct (Contains seg globstar) eqn:Ec.
  - destruct (seg =s globstar) eqn:Eg; [|done]. cbn [negb] in Hps. destruct rest as [|r rest]; [by cbn in Hd|].
    destruct (glob_pieces false false (r :: rest)) as [ps'|] eqn:Ep; [|done]. injection Hps as <-. apply (Hsep (PDirs :: ps')); [done|].
    intros t (? & y & -> & (dirs & Hdirs & ->)%lang_dirs & Hy)%lang_pieces_cons. unfold has_empty. rewrite dirs_Split by done.
    apply elem_of_app. right. destruct rest as [|r' rest]; [|by apply (IH _ _ _ y Ep)].
    cbn in Hd. apply andb_true_iff in Hd as [_ ->%eqs_true]. injection Ep as <-.
    apply lang_pieces_cons in Hy as (u & v & -> & Hu & Hv). inversion Hv; subst. rewrite app_nil_r.
    inversion Hu as [| | |? ? ? Hl|? ? ? Hl| |]; subst; [|inversion Hl; by left].
    apply lang_cat_iff in Hl as (a & b & -> & ->%lang_sep & _). by left.
  - destruct (glob_pieces false true rest) as [ps'|] eqn:Ep; [|done]. injection Hps as <-.
    apply (Hsep (globSegmentRegexp seg ++ ps')); [done|]. intros t (x & y & -> & _ & Hy)%lang_pieces_app.
    destruct rest as [|r rest]; [by cbn in Hd|]. assert (Hd' : doubled_tail (r :: rest) = true).
    { destruct rest as [|]; [|done]. cbn in Hd. apply andb_true_iff in Hd as [->%eqs_true _]. done. }
    destruct (IH _ _ _ y Ep Hd' Hy) as (t & -> & Ht). by apply has_empty_suffix.
Qed.

(** ** Compiled globs *)

(** The pattern without its negation. *)
Definition glob_body (pattern : gostring) : gostring := if HasPrefix pattern (go "!") then drop 1 pattern else pattern.

(** What one glob says of a path. *)
Definition glob_means (pattern path : gostring) : Prop :=
  let matched := path_glob (Split (glob_body pattern) 47) (Split path 47) in
  if HasPrefix pattern (go "!") then ~ matched else matched.

Definition plain_tail (pattern : gostring) : Prop := doubled_tail (Split (glob_body pattern) 47) = false.

Lemma CompileGlob_pieces pattern m : CompileGlob pattern = Ok m ->
  m_negated m = HasPrefix pattern (go "!") /\ glob_pieces true false (Split (glob_body pattern) 47) = Ok (m_pieces m).
Proof.
  unfold CompileGlob, glob_body. destruct (pattern =s []); [done|]. set (body := if HasPrefix _ _ then _ else _).
  destruct (HasPrefix pattern (go "!") && (body =s [])); [done|]. destruct (ContainsRune body 33); [done|].
  destruct (first_any body globUnsupportedMeta); [done|]. destruct (glob_pieces true false (Split body 47)) as [ps|] eqn:E; [|done].
  by intros [= <-].
Qed.

Lemma matcher_means pattern m path : CompileGlob pattern = Ok m -> plain_tail pattern -> no_newline path ->
  matcher_run m path = true <-> glob_means pattern path.
Proof.
  intros (Hn & Hp)%CompileGlob_pieces Ht Hs.
  pose proof (glob_pieces_reads _ true false _ Hp) as Hr. cbn beta iota in Hr.
  assert (Hl : MatchString (pieces_re (m_pieces m)) path = true <-> path_glob (Split (glob_body pattern) 47) (Split path 47)).
  { rewrite MatchString_lang. apply Hr; [|done|apply Split_nonempty|by left|done].
    by destruct (proj1 (Split_slash (glob_body pattern) _) eq_refl) as (_ & ? & _). }
  unfold matcher_run, glob_means. rewrite Hn. destruct (HasPrefix pattern (go "!")); rewrite <- Hl; destruct (MatchString _ path); naive_solver.
Qed.

(** ** PathSet *)

Lemma HasPrefix_bang g : HasPrefix g (go "!") = true <-> exists r, g = 33 :: r.
Proof.
  split; [intros (r & ->)%HasPrefix_inv; by exists r|]. intros (r & ->). done.
Qed.

Lemma compile_globs_elem globs include exclude m : compile_globs globs = Ok (include, exclude) ->
  (m ∈ include <-> exists g, g ∈ globs /\ HasPrefix g (go "!") = false /\ CompileGlob g = Ok m)
  /\ (m ∈ exclude <-> exists g, 33 :: g ∈ globs /\ CompileGlob g = Ok m).
Proof.
  revert include exclude. induction globs as [|g globs IH]; intros include exclude; cbn [compile_globs].
  { intros [= <- <-]. split; (split; [by intros ?%elem_of_nil|]); intros (g & ?%elem_of_nil & _); done. }
  destruct (HasPrefix g (go "!")) eqn:Eh.
  - apply HasPrefix_bang in Eh as (r & ->). change (drop 1 (33 :: r)) with r. destruct (CompileGlob r) as [k|] eqn:Ec; [|done].
    destruct (compile_globs globs) as [[i e]|]; [|done]. cbn. intros [= <- <-]. destruct (IH i e eq_refl) as [Hi He].
    rewrite elem_of_cons, Hi, He. split.
    + split; [intros (g & ? & ? & ?); exists g; by split_and!; [right| |]|].
      intros (g & [->|?]%elem_of_cons & Hg & ?); [done|]. by exists g.
    + split.
      * intros [->|(g & ? & ?)]; [exists r; by split; [left|]|exists g; by split; [right|]].
      * intros (g & [[= ->]|?]%elem_of_cons & ?); [left; congruence|right; by exists g].
  - destruct (CompileGlob g) as [k|] eqn:Ec; [|done].
    destruct (compile_globs globs) as [[i e]|]; [|done]. cbn. intros [= <- <-]. destruct (IH i e eq_refl) as [Hi He].
    rewrite elem_of_cons, Hi, He. split.
    + split.
      * intros [->|(g' & ? & ? & ?)]; [exists g; by split_and!; [left| |]|exists g'; by split_and!; [right| |]].
      * intros (g' & [->|?]%elem_of_cons & ? & ?); [left; congruence|right; by exists g'].
    + split; intros (g' & Hg & ?); exists g'; (split; [|done]); [by right|].
      apply elem_of_cons in Hg as [<-|?]; [done|done].
Qed.

Lemma path_in_true include exclude path : path_in include exclude path = true <->
  (exists m, m ∈ include /\ matcher_run m path = true) /\ forall m, m ∈ exclude -> matcher_run m path = false.
Proof.
  assert (Hex : negb (existsb (fun out => matcher_run out path) exclude) = true
    <-> forall m, m ∈ exclude -> matcher_run m path = false).
  { rewrite negb_true_iff. split.
    - intros He m Hm. apply not_true_iff_false. intros Hr. apply not_true_iff_false in He. apply He, existsb_exists.
      exists m. by rewrite <- list_elem_of_In.
    - intros Hm. apply not_true_iff_false. intros (m & Hin & Hr)%existsb_exists. apply list_elem_of_In, Hm in Hin. congruence. }
  induction include as [|m include IH]; cbn [path_in].
  - split; [done|]. by intros [(m & ?%elem_of_nil & _) _].
  - destruct (matcher_run m path) eqn:E.
    + rewrite Hex. split; [|by intros [_ ?]]. intros Hx. split; [|done]. exists m. by split; [left|].
    + rewrite IH. split; intros [(m' & Hm & Hr) Hx]; (split; [|done]); exists m'; (split; [|done]); [by right|].
      apply elem_of_cons in Hm as [->|?]; [congruence|done].
Qed.

Lemma compile_globs_ok globs include exclude g : compile_globs globs = Ok (include, exclude) -> g ∈ globs ->
  exists m, CompileGlob (if HasPrefix g (go "!") then drop 1 g else g) = Ok m.
Proof.
  revert include exclude. induction globs as [|h globs IH]; intros include exclude Hc Hg; [by apply elem_of_nil in Hg|].
  cbn [compile_globs] in Hc. apply elem_of_cons in Hg as [->|Hg].
  - destruct (HasPrefix h (go "!")); [destruct (CompileGlob (drop 1 h))|destruct (CompileGlob h)]; try done; eauto.
  - destruct (compile_globs globs) as [[i e]|] eqn:E; [by eapply IH|].
    destruct (HasPrefix h (go "!")); [destruct (CompileGlob (drop 1 h))|destruct (CompileGlob h)]; done.
Qed.

(** ** Theorems *)


(** The rules of [path_glob] on a concrete pattern and path, for the witnesses. *)
Fixpoint path_globb (pats parts : list gostring) : bool :=
  match pats with
  | [] => (length parts =? 0)%nat
  | pat :: pats' =>
      if pat =s globstar then existsb (fun n => path_globb pats' (drop n parts)) (seq 0 (S (length parts)))
      else match parts with
           | part :: parts' => MatchString (pieces_re (globSegmentRegexp pat)) part && path_globb pats' parts'
           | [] => false
           end
  end.

Lemma path_globb_true pats parts : path_globb pats parts = true <-> path_glob pats parts.
Proof.
  revert parts. induction pats as [|pat pats IH]; intros parts; cbn [path_globb].
  - rewrite Nat.eqb_eq. split; [intros ->%nil_length_inv; constructor|by inversion 1].
  - destruct (pat =s globstar) eqn:E.
    + apply eqs_true in E as ->. rewrite existsb_exists. setoid_rewrite IH. split.
      * intros (n & _ & Hn). rewrite <- (take_drop n parts). by constructor.
      * inversion 1 as [|? skipped ps Hp|]; subst; [|done]. exists (length skipped). rewrite in_seq, length_app, drop_app_length.
        split; [lia|done].
    + apply eqs_false in E. destruct parts as [|part parts].
      * split; [done|]. inversion 1 as [|? ? ? ? E1 E2|]; subst; done.
      * rewrite andb_true_iff, MatchString_lang, segment_lang, IH. split; [intros [? ?]; by constructor|].
        inversion 1; subst; done.
Qed.


(** C40: A pattern that ends in two globstars selects no file: no path whose segments
    all have a name is matched, though by the meaning of [**] every path below its
    directory would be. *)
Theorem doubled_globstar_selects_nothing (pattern path : gostring) (m : matcher) :
  CompileGlob pattern = Ok m -> HasPrefix pattern (go "!") = false -> doubled_tail (Split pattern 47) = true ->
  [] ∉ Split path 47 -> matcher_run m path = false.
Proof.
  intros (Hn & Hp)%CompileGlob_pieces Hh Hd He. apply not_true_iff_false. unfold matcher_run, glob_body in *. rewrite Hh in *.
  rewrite Hn. cbn [xorb]. rewrite MatchString_lang. intros Hl. by apply He, (doubled_pieces _ true false _ path Hp Hd).
Qed.

Lemma doubled_globstar_selects_nothing_witness :
  path_glob (Split (go "src/**/**") 47) (Split (go "src/main.go") 47)
  /\ exists m, CompileGlob (go "src/**/**") = Ok m /\ matcher_run m (go "src/main.go") = false.
Proof.
  split; [apply path_globb_true; vm_compute; reflexivity|]. eexists. split; [vm_compute; reflexivity|].
  apply (doubled_globstar_selects_nothing (go "src/**/**")); [vm_compute; reflexivity..|].
  apply (bool_decide_eq_false_1 ([] ∈ _)). vm_compute. reflexivity.
Defined.
