(* ===== verification/GoPath.v ===== *)
(** Go's path package and the parts of strings that the import graph uses. *)

From S2P Require Import Prelude GoText.

Definition dot_path : gostring := go ".".
Definition dotdot : gostring := go "..".
Definition slash : gostring := go "/".

(** strings.HasSuffix *)
Definition HasSuffix (s suf : gostring) : bool := HasPrefix (reverse s) (reverse suf).

(** strings.Fields: the maximal runs that hold no space. *)
Fixpoint Fields (s : gostring) : list gostring :=
  match s with
  | [] => []
  | c :: s' =>
      if IsSpace c then Fields s'
      else match s' with
           | [] => [[c]]
           | d :: _ =>
               if IsSpace d then [c] :: Fields s'
               else match Fields s' with
                    | field :: fields => (c :: field) :: fields
                    | [] => [[c]]
                    end
           end
  end.

(** ** path.Clean *)

(** One element of a path, on the elements kept so far, the last first. *)
Definition path_step (rooted : bool) (kept : list gostring) (seg : gostring) : list gostring :=
  if (seg =s []) || (seg =s dot_path) then kept
  else if seg =s dotdot then
    match kept with
    | top :: rest => if top =s dotdot then dotdot :: kept else rest
    | [] => if rooted then [] else [dotdot]
    end
  else seg :: kept.

Definition IsAbs (p : gostring) : bool := HasPrefix p slash.

Definition Clean (p : gostring) : gostring :=
  let body := Join (reverse (foldl (path_step (IsAbs p)) [] (Split p 47))) slash in
  if IsAbs p then 47 :: body else if body =s [] then dot_path else body.

(** ** path.Dir and path.Base *)

(** path.Split: up to and with the last slash, and what follows it. *)
Fixpoint split_last (p : gostring) : gostring * gostring :=
  match p with
  | [] => ([], [])
  | c :: p' =>
      let '(d, f) := split_last p' in
      match d with
      | [] => if c =? 47 then ([c], f) else ([], c :: f)
      | _ :: _ => (c :: d, f)
      end
  end.

Definition Dir (p : gostring) : gostring := Clean (split_last p).1.

Definition Base (p : gostring) : gostring :=
  if p =s [] then dot_path
  else
    let stripped := reverse (trim_left (Z.eqb 47) (reverse p)) in
    let base := (split_last stripped).2 in
    if base =s [] then slash else base.

(** path.Join of a directory and a name. *)
Definition join_path (dir name : gostring) : gostring := Clean (dir ++ slash ++ name).

(** ** Lemmas *)

Lemma split_last_app p : p = (split_last p).1 ++ (split_last p).2.
Proof.
  induction p as [|c p IH]; [done|]. cbn [split_last]. destruct (split_last p) as [[|e d] f]; cbn in *; [|by rewrite IH].
  destruct (Z.eqb_spec c 47) as [->|]; by rewrite IH.
Qed.

Lemma split_last_dir p : (split_last p).1 = [] \/ exists d, (split_last p).1 = d ++ [47].
Proof.
  induction p as [|c p IH]; [by left|]. cbn [split_last]. destruct (split_last p) as [[|e d] f]; cbn in *.
  - destruct (Z.eqb_spec c 47) as [->|]; [right; by exists []|by left].
  - right. destruct IH as [|(d' & E)]; [done|]. exists (c :: d'). cbn. by rewrite E.
Qed.

(** What the elements of a path take, each with a slash. *)
Definition elements_size (l : list gostring) : nat := sum_list_with (fun s => S (length s)) l.

Lemma Join_size l : l <> [] -> (S (length (Join l slash)) = elements_size l)%nat.
Proof.
  unfold elements_size. induction l as [|s [|t l] IH]; intros Hl; [done|cbn; lia|].
  change (Join (s :: t :: l) slash) with (s ++ slash ++ Join (t :: l) slash). rewrite !length_app.
  assert (Hn : t :: l <> []) by done. specialize (IH Hn). cbn in *. lia.
Qed.

Lemma Split_size s : elements_size (Split s 47) = S (length s).
Proof. rewrite <- Join_size by apply Split_nonempty. unfold slash. change (go "/") with [47]. by rewrite Join_Split. Qed.

(** An element of a cleaned path: named, of one segment. *)
Definition element (s : gostring) : Prop := s <> [] /\ ContainsRune s 47 = false.

Lemma path_step_element rooted kept seg : Forall element kept -> ContainsRune seg 47 = false ->
  Forall element (path_step rooted kept seg).
Proof.
  intros Hk Hs. unfold path_step. destruct ((seg =s []) || (seg =s dot_path)) eqn:E; [done|]. bprop.
  destruct (seg =s dotdot).
  - destruct kept as [|top rest]; [destruct rooted; by repeat constructor|].
    destruct (top =s dotdot); [by constructor|by apply Forall_cons in Hk as [_ ?]].
  - constructor; [|done]. split; [by apply eqs_false|done].
Qed.

Lemma clean_element rooted segs kept : Forall (fun s => ContainsRune s 47 = false) segs -> Forall element kept ->
  Forall element (foldl (path_step rooted) kept segs).
Proof.
  intros Hs. revert kept. induction Hs as [|s segs Hs _ IH]; intros kept Hk; [done|]. cbn. by apply IH, path_step_element.
Qed.

Lemma path_step_size rooted kept seg : (elements_size (path_step rooted kept seg) <= elements_size kept + S (length seg))%nat.
Proof.
  unfold path_step, elements_size. destruct ((seg =s []) || (seg =s dot_path)); [lia|]. destruct (seg =s dotdot) eqn:E; [|cbn; lia].
  apply eqs_true in E as ->. destruct kept as [|top rest]; [destruct rooted; cbn; lia|]. destruct (top =s dotdot); cbn; lia.
Qed.

Lemma clean_size rooted segs kept : (elements_size (foldl (path_step rooted) kept segs) <= elements_size kept + elements_size segs)%nat.
Proof.
  revert kept. induction segs as [|s segs IH]; intros kept; cbn [foldl]; [lia|]. etrans; [apply IH|].
  change (elements_size (s :: segs)) with (S (length s) + elements_size segs)%nat.
  pose proof (path_step_size rooted kept s). lia.
Qed.

Lemma Split_trailing d : Split (d ++ [47]) 47 = Split d 47 ++ [[]].
Proof.
  induction d as [|c d IH]; [done|]. cbn [app Split]. rewrite IH. destruct (c =? 47); [done|].
  pose proof (Split_nonempty d 47). by destruct (Split d 47).
Qed.

(** The elements of a relative path. *)
Definition path_elements (p : gostring) : list gostring := reverse (foldl (path_step false) [] (Split p 47)).

Lemma Clean_relative p : IsAbs p = false -> Clean p = dot_path \/ (path_elements p <> [] /\ Clean p = Join (path_elements p) slash).
Proof.
  intros Hp. unfold Clean. rewrite Hp. fold (path_elements p). destruct (Join (path_elements p) slash =s []) eqn:E; [by left|].
  right. split; [|done]. intros Hn. rewrite Hn in E. done.
Qed.

Lemma elements_named p : Forall element (path_elements p).
Proof. apply Forall_reverse, clean_element; [apply Split_parts|constructor]. Qed.

Lemma Join_head s l : exists r, Join (s :: l) slash = s ++ r.
Proof. destruct l as [|t l]; [exists []; by rewrite app_nil_r|]. by eexists. Qed.

Lemma IsAbs_Clean p : IsAbs p = false -> IsAbs (Clean p) = false.
Proof.
  intros Hp. destruct (Clean_relative p Hp) as [->|[Hn ->]]; [done|]. pose proof (elements_named p) as He.
  destruct (path_elements p) as [|s l]; [done|]. apply Forall_cons in He as [[Hs Hc] _]. destruct (Join_head s l) as (r & ->).
  destruct s as [|c s]; [done|]. unfold IsAbs, slash. change (go "/") with [47]. cbn [app HasPrefix].
  unfold ContainsRune in Hc. cbn [existsb] in Hc. apply orb_false_iff in Hc as [Hc _]. by rewrite Hc.
Qed.

Lemma Clean_dir_size d : IsAbs (d ++ [47]) = false -> Clean (d ++ [47]) = dot_path \/ (length (Clean (d ++ [47%Z])) <= length d)%nat.
Proof.
  intros Hp. destruct (Clean_relative _ Hp) as [?|[Hn ->]]; [by left|right]. apply Join_size in Hn.
  unfold path_elements in *. rewrite Split_trailing, foldl_app in *. cbn [foldl path_step] in *.
  change (path_step false ?k []) with k in *.
  assert (Hr : forall l, elements_size (reverse l) = elements_size l) by (intros l; apply sum_list_with_reverse).
  rewrite Hr in Hn. pose proof (clean_size false (Split d 47) []) as Hs. rewrite Split_size in Hs.
  unfold elements_size in Hs at 2. cbn in Hs. lia.
Qed.

(** path.Dir leaves a relative path relative, and shorter until it is [.]. *)
Lemma Dir_relative p : IsAbs p = false -> IsAbs (Dir p) = false /\ (Dir p = dot_path \/ (length (Dir p) < length p)%nat).
Proof.
  intros Hp. unfold Dir. destruct (split_last_dir p) as [->|(d & Hd)]; [split; [done|by left]|].
  pose proof (split_last_app p) as Ha. rewrite Hd in *. assert (Hr : IsAbs (d ++ [47]) = false).
  { rewrite Ha in Hp. by destruct d as [|c d]. }
  split; [by apply IsAbs_Clean|]. destruct (Clean_dir_size d Hr) as [?|Hl]; [by left|right].
  rewrite Ha, !length_app. cbn. lia.
Qed.
