(* ===== verification/GoGraph.v ===== *)
(** The Go import graph of a repository: component/pipelines/gograph.go.

    The tree of files is a [node], with what cannot be read marked.  go/parser and
    strconv.Unquote are the class [GoSource].  Where the code ranges over a map in no
    order, the model ranges over it in the order of its keys, and what is built is
    sorted afterwards, as there. *)

From S2P Require Import Prelude GoText GoSort GoPath.

(** The imports of a file, unquoted, or [None] when its imports do not parse; and
    strconv.Unquote. *)
Class GoSource := {
  parse_imports : gostring -> option (list gostring);
  go_unquote : gostring -> option gostring
}.

(** ** Maps and lists *)

(** slices.Sort and slices.Compact *)
Definition sort_strings (l : list gostring) : list gostring := sort_stable str_ltb l.

Fixpoint compact_after (prev : gostring) (l : list gostring) : list gostring :=
  match l with
  | [] => []
  | s :: l' => if s =s prev then compact_after prev l' else s :: compact_after s l'
  end.

Definition compact (l : list gostring) : list gostring :=
  match l with [] => [] | s :: l' => s :: compact_after s l' end.

Definition sortedMapKeys {V} (m : gmap gostring V) : list gostring := sort_strings (map_to_list m).*1.

(** A key's value in a map of slices, nil when there is none. *)
Definition at_key {V} (m : gmap gostring (list V)) (k : gostring) : list V := default [] (m !! k).

(** ** Types *)

Record Package := mkPackage { p_ImportPath : gostring; p_Dir : gostring; p_Imports : list gostring }.

(** A file with what reading it gives, something that is neither file nor directory,
    or a directory with its entries by name; [None] where reading fails. *)
Inductive node :=
| NFile (data : option gostring)
| NSpecial
| NDir (entries : option (list (gostring * node))).

Record Graph := mkGraph {
  g_source : node;
  g_goFiles : gmap gostring (list gostring);
  g_pkgs : gmap gostring Package;
  g_byDir : gmap gostring gostring;
  g_modules : gmap gostring gostring;
  g_importers : gmap gostring (list gostring);
  g_incomplete : list gostring
}.

(** ** Names *)

Definition skippedByTheGoTool (name : gostring) : bool :=
  (name =s go "testdata") || (name =s go "vendor") || HasPrefix name (go ".") || HasPrefix name (go "_").

(** A name the go tool reads as a source file. *)
Definition go_file_name (name : gostring) : bool :=
  HasSuffix name (go ".go") && negb (HasPrefix name (go ".")) && negb (HasPrefix name (go "_")).

Definition repoPath (p : gostring) : option gostring :=
  let p := Clean (TrimSpace p) in
  if (p =s dot_path) || (p =s dotdot) || IsAbs p || HasPrefix p (go "../") then None else Some p.

(** A line up to its comment. *)
Fixpoint before_comment (line : gostring) : gostring :=
  if HasPrefix line (go "//") then []
  else match line with [] => [] | c :: line' => c :: before_comment line' end.

Section Source.
Context `{GoSource}.

(** The first line that reads as a module directive settles it. *)
Fixpoint module_line (lines : list gostring) : option gostring :=
  match lines with
  | [] => None
  | line :: lines' =>
      match Fields (before_comment line) with
      | [key; modPath] =>
          if key =s go "module" then
            let modPath := default modPath (go_unquote modPath) in
            if (modPath =s []) || existsb (fun c => ContainsRune [34; 96; 32] c) modPath then None else Some modPath
          else module_line lines'
      | _ => module_line lines'
      end
  end.

Definition modulePath (gomod : gostring) : option gostring := module_line (Split gomod 10).

(** ** Modules *)

(** moduleRootOf: the loop ends at [.], which every path reaches. *)
Fixpoint module_root (fuel : nat) (modules : gmap gostring gostring) (dir : gostring) : option gostring :=
  match modules !! dir with
  | Some _ => Some dir
  | None =>
      if dir =s dot_path then None
      else match fuel with O => None | S fuel' => module_root fuel' modules (Dir dir) end
  end.

Definition moduleRootOf (modules : gmap gostring gostring) (dir : gostring) : option gostring :=
  module_root (S (length dir)) modules dir.

Definition importPathOf (modules : gmap gostring gostring) (dir : gostring) : option gostring :=
  match moduleRootOf modules dir with
  | None => None
  | Some root =>
      let modPath := default [] (modules !! root) in
      if modPath =s [] then None
      else if dir =s root then Some modPath
      else
        let rel := if root =s dot_path then dir else TrimPrefix dir (root ++ slash) in
        Some (modPath ++ slash ++ rel)
  end.

Definition isFirstParty (modules : gmap gostring gostring) (importPath : gostring) : bool :=
  existsb (fun modPath => negb (modPath =s []) && ((importPath =s modPath) || HasPrefix importPath (modPath ++ slash)))
    (map_to_list modules).*2.

(** ** ScanGoTree *)

(** What the walk over the tree gathers: the files with their contents. *)
Record scan := mkScan {
  s_modules : gmap gostring gostring;
  s_files : gmap gostring (list (gostring * option gostring));
  s_incomplete : list gostring
}.

Definition scan_file (p name : gostring) (data : option gostring) (st : scan) : option scan :=
  if name =s go "go.mod" then
    match data with
    | None => None
    | Some text =>
        let modPath := modulePath text in
        Some (mkScan (<[Dir p := default [] modPath]> (s_modules st)) (s_files st)
                (s_incomplete st ++ match modPath with Some _ => [] | None => [p] end))
    end
  else if go_file_name name then
    Some (mkScan (s_modules st) (<[Dir p := at_key (s_files st) (Dir p) ++ [(p, data)]]> (s_files st)) (s_incomplete st))
  else Some st.

(** fs.WalkDir with the function of ScanGoTree; [None] is its error. *)
Fixpoint walk_tree (p name : gostring) (n : node) (st : scan) : option scan :=
  match n with
  | NSpecial => Some st
  | NFile data => scan_file p name data st
  | NDir entries =>
      if negb (p =s dot_path) && skippedByTheGoTool name then Some st
      else match entries with
           | None => None
           | Some es =>
               (fix walk_entries es st :=
                  match es with
                  | [] => Some st
                  | (name', n') :: es' =>
                      match walk_tree (join_path p name') name' n' st with
                      | Some st' => walk_entries es' st'
                      | None => None
                      end
                  end) es st
           end
  end.

(** The packages as they are found, what each declares to import, and the paths that
    could not be read. *)
Record scan_found := mkFound {
  f_pkgs : gmap gostring gostring;
  f_byDir : gmap gostring gostring;
  f_declared : gmap gostring (gset gostring);
  f_incomplete : list gostring
}.

(** The imports of one directory's files. *)
Fixpoint read_imports (files : list (gostring * option gostring)) (imports : gset gostring) (incomplete : list gostring)
    : option (gset gostring * list gostring) :=
  match files with
  | [] => Some (imports, incomplete)
  | (file, data) :: files' =>
      match data with
      | None => None
      | Some src =>
          match parse_imports src with
          | None => read_imports files' imports (incomplete ++ [file])
          | Some l => read_imports files' (imports ∪ list_to_set l) incomplete
          end
      end
  end.

Definition find_package (st : scan) (dir : gostring) (fd : scan_found) : option scan_found :=
  match importPathOf (s_modules st) dir with
  | None => Some fd
  | Some importPath =>
      match f_pkgs fd !! importPath with
      | Some other => Some (mkFound (f_pkgs fd) (f_byDir fd) (f_declared fd) (f_incomplete fd ++ [other; dir]))
      | None =>
          match read_imports (at_key (s_files st) dir) ∅ (f_incomplete fd) with
          | None => None
          | Some (imports, incomplete) =>
              Some (mkFound (<[importPath := dir]> (f_pkgs fd)) (<[dir := importPath]> (f_byDir fd))
                      (<[importPath := imports]> (f_declared fd)) incomplete)
          end
      end
  end.

Fixpoint find_packages (st : scan) (dirs : list gostring) (fd : scan_found) : option scan_found :=
  match dirs with
  | [] => Some fd
  | dir :: dirs' => match find_package st dir fd with Some fd' => find_packages st dirs' fd' | None => None end
  end.

(** The first-party imports of a package, sorted. *)
Definition first_party (modules : gmap gostring gostring) (importPath : gostring) (imports : gset gostring) : list gostring :=
  sort_strings (List.filter (fun imported => negb (imported =s importPath) && isFirstParty modules imported) (elements imports)).

(** One package's edges, added to the importers of each import. *)
Definition add_importer (importPath : gostring) (importers : gmap gostring (list gostring)) (imported : gostring)
    : gmap gostring (list gostring) :=
  <[imported := at_key importers imported ++ [importPath]]> importers.

Definition add_edges (importers : gmap gostring (list gostring)) (edge : gostring * list gostring) : gmap gostring (list gostring) :=
  foldl (add_importer edge.1) importers edge.2.

Definition ScanGoTree (tree : node) : option Graph :=
  match walk_tree dot_path dot_path tree (mkScan ∅ ∅ []) with
  | None => None
  | Some st =>
      match find_packages st (sortedMapKeys (s_files st)) (mkFound ∅ ∅ ∅ (s_incomplete st)) with
      | None => None
      | Some fd =>
          let edges := map_imap (fun importPath imports => Some (first_party (s_modules st) importPath imports)) (f_declared fd) in
          Some (mkGraph tree ((fun files => files.*1) <$> s_files st)
                  (map_imap (fun importPath dir => Some (mkPackage importPath dir (at_key edges importPath))) (f_pkgs fd))
                  (f_byDir fd) (s_modules st)
                  (sort_strings <$> foldl add_edges ∅ ((fun k => (k, at_key edges k)) <$> sortedMapKeys edges))
                  (compact (sort_strings (f_incomplete fd))))
      end
  end.

(** ** Reading the graph *)

Definition Packages (g : Graph) : list Package := omap (fun k => g_pkgs g !! k) (sortedMapKeys (g_pkgs g)).

Definition importPaths (g : Graph) : list gostring := sortedMapKeys (g_pkgs g).

Definition dirOf (g : Graph) (importPath : gostring) : gostring :=
  match g_pkgs g !! importPath with Some p => p_Dir p | None => [] end.

(** The package of a directory or the nearest one above it in its module. *)
Fixpoint package_above (fuel : nat) (g : Graph) (dir : gostring) : option gostring :=
  match g_byDir g !! dir with
  | Some importPath => Some importPath
  | None =>
      if bool_decide (is_Some (g_modules g !! dir)) || (dir =s dot_path) then None
      else match fuel with O => None | S fuel' => package_above fuel' g (Dir dir) end
  end.

Definition PackageAt (g : Graph) (p : gostring) : option gostring :=
  match repoPath p with
  | None => None
  | Some p => package_above (S (length (Dir p))) g (Dir p)
  end.

Definition orphans (g : Graph) (p : gostring) : gostring * list gostring :=
  let dir := Dir p in
  if bool_decide (is_Some (g_byDir g !! dir)) then ([], [])
  else match importPathOf (g_modules g) dir with
       | None => ([], [])
       | Some importPath => (importPath, at_key (g_importers g) importPath)
       end.
End Source.
