(* ===== verification/Selection.v ===== *)
(** What a change selects among a repository's Go packages:
    component/pipelines/affected.go, selection.go and test_inputs.go.

    go/build is the class [GoBuild]; an unreadable file of the tree is one that does
    not open.  The reason of a selection is the numbers its text names. *)

From S2P Require Import Prelude GoText GoSort GoPath Topics Globs GoGraph.

(** What go/build's ImportDir gives of one source file of a directory: the names of
    its build files, and its embed patterns, of the package and of its tests. *)
Class GoBuild := {
  import_file : node -> gostring -> gostring -> option (list gostring * list gostring * list gostring)
}.

Definition ManifestPath : gostring := go "memql-package.yaml".

Record ChangedPathFacts := mkPathFacts {
  cp_Path : gostring;
  cp_BaseName : gostring;
  cp_RepositoryPath : bool;
  cp_Vendored : bool;
  cp_ConfiguredFull : bool;
  cp_DeclaredTestInput : bool;
  cp_TestInputEligible : bool;
  cp_TestInputUncertain : bool;
  cp_owners : list gostring
}.

Record SelectionFacts := mkFacts {
  sf_Known : bool;
  sf_ChangedCount : nat;
  sf_GraphComplete : bool;
  sf_Paths : list ChangedPathFacts;
  sf_Incomplete : list gostring;
  sf_AllPackages : list gostring;
  sf_Seeds : list gostring;
  sf_Missing : list gostring
}.

Record SelectionDecision := mkDecision { d_Full : bool; d_Reason : gostring; d_TestInputs : list gostring }.

Inductive selection_reason :=
| FullReason (text : gostring)
| NoGoPackage (changed : nat)
| Seeded (changed seeds selected all inputs : nat) (missing : list gostring).

Record Selection := mkSelection {
  sel_Full : bool;
  sel_Reason : selection_reason;
  sel_Seeds : list gostring;
  sel_Packages : list gostring
}.

(** ** AnalyzeChangedPaths *)

Definition pathHasSegment (p segment : gostring) : bool := existsb (fun part => part =s segment) (Split p 47).

Inductive analyze_error :=
| BadFullGlobs (e : path_set_error)
| BadTestInputGlobs (e : path_set_error).

Definition changed_path (inFull : option (gostring -> bool)) (raw : gostring) : ChangedPathFacts :=
  match repoPath raw with
  | None => mkPathFacts raw [] false false false false false false []
  | Some p =>
      mkPathFacts p (Base p) true (pathHasSegment p (go "vendor"))
        (match inFull with Some f => f p | None => false end) false false false []
  end.

(** A list of globs as a predicate, [None] for an empty list. *)
Definition optional_set (globs : list gostring) : result path_set_error (option (gostring -> bool)) :=
  match globs with [] => Ok None | _ => Some <$> PathSet globs end.

Definition AnalyzeChangedPaths (changed : list gostring) (known : bool) (fullGlobs : list gostring)
    : result analyze_error SelectionFacts :=
  match optional_set fullGlobs with
  | Err e => Err (BadFullGlobs e)
  | Ok inFull => Ok (mkFacts known (length changed) true (changed_path inFull <$> changed) [] [] [] [])
  end.

(** ** Test inputs *)

Definition fullSelectionPath (p : ChangedPathFacts) : bool :=
  cp_Vendored p || cp_ConfiguredFull p || (cp_Path p =s ManifestPath)
  || (cp_BaseName p =s go "go.mod") || (cp_BaseName p =s go "go.sum")
  || (cp_BaseName p =s go "go.work") || (cp_BaseName p =s go "go.work.sum").

(** fs.ValidPath *)
Definition ValidPath (p : gostring) : bool :=
  (p =s dot_path) || forallb (fun s => negb ((s =s []) || (s =s dot_path) || (s =s dotdot))) (Split p 47).

(** The node at a path of the tree. *)
Fixpoint node_at (n : node) (segs : list gostring) : option node :=
  match segs with
  | [] => Some n
  | seg :: segs' =>
      match n with
      | NDir (Some es) => match find (fun e => e.1 =s seg) es with Some (_, n') => node_at n' segs' | None => None end
      | _ => None
      end
  end.

Definition dir_node (tree : node) (dir : gostring) : option node :=
  if dir =s dot_path then Some tree else node_at tree (Split dir 47).

Definition regularTreeFile (tree : node) (name : gostring) : bool :=
  match dir_node tree (Dir name) with
  | Some (NDir (Some es)) =>
      match find (fun e => (e.1 =s Base name) && match e.2 with NFile _ => true | _ => false end) es with
      | Some (_, NFile (Some _)) => true
      | _ => false
      end
  | _ => false
  end.

(** A pattern matches a name or a directory above it. *)
Fixpoint embeds_above (fuel : nat) (pattern p : gostring) : bool :=
  if p =s dot_path then false
  else match PathMatch pattern p with
       | Ok true => true
       | _ => match fuel with O => false | S fuel' => embeds_above fuel' pattern (Dir p) end
       end.

Definition matchesEmbed (patterns : list gostring) (name : gostring) : bool :=
  existsb (fun pattern => embeds_above (length name) (TrimPrefix pattern (go "all:")) name) patterns.

Record packageInputs := mkInputs {
  in_buildFiles : gset gostring;
  in_runtime : list gostring;
  in_test : list gostring
}.

Definition valid_embed (pattern : gostring) : bool :=
  let pattern := TrimPrefix pattern (go "all:") in
  is_ok (PathMatch pattern []) && negb (pattern =s dot_path) && ValidPath pattern.

Section Build.
Context `{GoSource, GoBuild}.

Fixpoint read_inputs (tree : node) (dir : gostring) (files : list gostring) (inputs : packageInputs) : option packageInputs :=
  match files with
  | [] => Some inputs
  | file :: files' =>
      match import_file tree dir (Base file) with
      | None => None
      | Some (names, runtime, test) =>
          read_inputs tree dir files'
            (mkInputs (in_buildFiles inputs ∪ list_to_set names) (in_runtime inputs ++ runtime) (in_test inputs ++ test))
      end
  end.

(** [None] is an error. *)
Definition readPackageInputs (g : Graph) (dir : gostring) : option packageInputs :=
  match read_inputs (g_source g) dir (at_key (g_goFiles g) dir) (mkInputs ∅ [] []) with
  | None => None
  | Some inputs => if forallb valid_embed (in_runtime inputs ++ in_test inputs) then Some inputs else None
  end.

(** The walk over the directories above a path: whether reading an owner's inputs
    failed, whether the path is a runtime input, and the owners with those it gains. *)
Fixpoint classify_above (fuel : nat) (g : Graph) (path dir : gostring) (runtime : bool) (owners : list gostring)
    : bool * bool * list gostring :=
  let '(failed, runtime, owners) :=
    match g_byDir g !! dir with
    | None => (false, runtime, owners)
    | Some owner =>
        match readPackageInputs g dir with
        | None => (true, runtime, owners)
        | Some inputs =>
            let rel := if dir =s dot_path then path else TrimPrefix path (dir ++ slash) in
            let built := bool_decide (rel ∈ in_buildFiles inputs) || matchesEmbed (in_runtime inputs) rel in
            (false, runtime || built,
             owners ++ (if built then [owner] else []) ++ (if matchesEmbed (in_test inputs) rel then [owner] else []))
        end
    end in
  if failed || bool_decide (is_Some (g_modules g !! dir)) || (dir =s dot_path) then (failed, runtime, owners)
  else match fuel with O => (failed, runtime, owners) | S fuel' => classify_above fuel' g path (Dir dir) runtime owners end.

Definition with_input (p : ChangedPathFacts) (eligible uncertain : bool) (owners : list gostring) : ChangedPathFacts :=
  mkPathFacts (cp_Path p) (cp_BaseName p) (cp_RepositoryPath p) (cp_Vendored p) (cp_ConfiguredFull p)
    true eligible uncertain owners.

(** A path declared as a test input, classified. *)
Definition classifyTestInput (g : Graph) (p : ChangedPathFacts) : ChangedPathFacts :=
  if fullSelectionPath p then with_input p (cp_TestInputEligible p) (cp_TestInputUncertain p) (cp_owners p)
  else if (length (cp_owners p) =? 0)%nat || negb (regularTreeFile (g_source g) (cp_Path p)) then
    with_input p (cp_TestInputEligible p) true (cp_owners p)
  else
    let '(failed, runtimeInput, owners) :=
      classify_above (S (length (Dir (cp_Path p)))) g (cp_Path p) (Dir (cp_Path p))
        (HasSuffix (cp_Path p) (go ".go")) (cp_owners p) in
    if failed then with_input p (cp_TestInputEligible p) true owners
    else with_input p (negb runtimeInput) (cp_TestInputUncertain p) owners.

(** ** AnalyzeSelection *)

Definition isVendoredPath (g : Graph) (p : gostring) : bool :=
  existsb (fun root => HasPrefix p (if root =s dot_path then go "vendor/" else root ++ go "/vendor/")) (map_to_list (g_modules g)).*1.

Definition analyze_path (g : Graph) (declared : option (gostring -> bool)) (p : ChangedPathFacts) : ChangedPathFacts :=
  if negb (cp_RepositoryPath p) then p
  else
    let owners := cp_owners p ++ match PackageAt g (cp_Path p) with Some o => [o] | None => [] end ++ (orphans g (cp_Path p)).2 in
    let p := mkPathFacts (cp_Path p) (cp_BaseName p) true (isVendoredPath g (cp_Path p)) (cp_ConfiguredFull p)
               (cp_DeclaredTestInput p) (cp_TestInputEligible p) (cp_TestInputUncertain p) owners in
    let p := match declared with
             | Some f => if f (cp_Path p) then classifyTestInput g p else p
             | None => p
             end in
    mkPathFacts (cp_Path p) (cp_BaseName p) (cp_RepositoryPath p) (cp_Vendored p) (cp_ConfiguredFull p)
      (cp_DeclaredTestInput p) (cp_TestInputEligible p) (cp_TestInputUncertain p) (compact (sort_strings (cp_owners p))).

(** The import path a changed directory would have, where it is still imported. *)
Definition missing_of (g : Graph) (p : ChangedPathFacts) : option gostring :=
  if negb (cp_RepositoryPath p) then None
  else match orphans g (cp_Path p) with
       | (_, []) => None
       | (importPath, _) => Some importPath
       end.

Definition set_keys (l : list gostring) : list gostring := sort_strings (elements (list_to_set l : gset gostring)).

Definition AnalyzeSelectionWithTestInputs (g : Graph) (changed : list gostring) (known : bool)
    (fullGlobs testInputGlobs : list gostring) : result analyze_error SelectionFacts :=
  match AnalyzeChangedPaths changed known fullGlobs with
  | Err e => Err e
  | Ok facts =>
      match optional_set testInputGlobs with
      | Err e => Err (BadTestInputGlobs e)
      | Ok declared =>
          let paths := analyze_path g declared <$> sf_Paths facts in
          Ok (mkFacts (sf_Known facts) (sf_ChangedCount facts) (length (g_incomplete g) =? 0)%nat paths (g_incomplete g)
                (importPaths g) (set_keys (paths ≫= (fun p => if cp_RepositoryPath p then cp_owners p else [])))
                (set_keys (omap (missing_of g) (sf_Paths facts))))
      end
  end.

Definition AnalyzeSelection (g : Graph) (changed : list gostring) (known : bool) (fullGlobs : list gostring)
    : result analyze_error SelectionFacts :=
  AnalyzeSelectionWithTestInputs g changed known fullGlobs [].
End Build.

(** ** ResolveSelection *)

Inductive resolve_error :=
| NarrowedBlind
| NarrowedForeign (path : gostring)
| NarrowedUncertain (path : gostring)
| InputTwice (path : gostring)
| InputBesideFull (path : gostring)
| InputIneligible (path : gostring)
| InputNotChanged.

(** The first changed path that forbids an affected answer. *)
Fixpoint unsafe_path (paths : list ChangedPathFacts) : option resolve_error :=
  match paths with
  | [] => None
  | p :: paths' =>
      if negb (cp_RepositoryPath p) then Some (NarrowedForeign (cp_Path p))
      else if cp_TestInputUncertain p then Some (NarrowedUncertain (cp_Path p))
      else unsafe_path paths'
  end.

Fixpoint local_inputs (inputs : list gostring) (local : gset gostring) : result resolve_error (gset gostring) :=
  match inputs with
  | [] => Ok local
  | p :: inputs' => if bool_decide (p ∈ local) then Err (InputTwice p) else local_inputs inputs' ({[p]} ∪ local)
  end.

(** The owners whose importers follow, and the owners of local inputs, which stand
    alone. *)
Fixpoint split_owners (local : gset gostring) (paths : list ChangedPathFacts) (queue : list gostring)
    (matched selected : gset gostring) : result resolve_error (list gostring * gset gostring * gset gostring) :=
  match paths with
  | [] => Ok (queue, matched, selected)
  | p :: paths' =>
      if fullSelectionPath p then Err (InputBesideFull (cp_Path p))
      else if negb (bool_decide (cp_Path p ∈ local)) then split_owners local paths' (queue ++ cp_owners p) matched selected
      else if negb (cp_DeclaredTestInput p) || negb (cp_TestInputEligible p) || (length (cp_owners p) =? 0)%nat
      then Err (InputIneligible (cp_Path p))
      else split_owners local paths' queue ({[cp_Path p]} ∪ matched) (list_to_set (cp_owners p) ∪ selected)
  end.

(** The traversal of the importers, and what it needs: one round for each entry of
    the queue, then and later. *)
Fixpoint traverse (fuel : nat) (importers : gmap gostring (list gostring)) (queue : list gostring)
    (traversed selected : gset gostring) : option (gset gostring) :=
  match queue with
  | [] => Some selected
  | next :: queue' =>
      match fuel with
      | O => None
      | S fuel' =>
          if bool_decide (next ∈ traversed) then traverse fuel' importers queue' traversed selected
          else traverse fuel' importers (queue' ++ at_key importers next) ({[next]} ∪ traversed) ({[next]} ∪ selected)
      end
  end.

Definition importer_count (importers : gmap gostring (list gostring)) : nat :=
  sum_list_with (fun kv => length kv.2) (map_to_list importers).

Definition full_reason (reason : gostring) : gostring :=
  let reason := TrimSpace reason in
  if reason =s [] then go "the pinned pipeline DSL selected full package coverage" else reason.

(** What the traversal starts from: the queue and the packages selected already. *)
Definition resolve_start (facts : SelectionFacts) (inputs : list gostring) : result resolve_error (list gostring * gset gostring) :=
  match inputs with
  | [] => Ok (sf_Seeds facts, ∅)
  | _ :: _ =>
      match local_inputs inputs ∅ with
      | Err e => Err e
      | Ok local =>
          match split_owners local (sf_Paths facts) [] ∅ ∅ with
          | Err e => Err e
          | Ok (queue, matched, selected) =>
              if (size matched =? size local)%nat then Ok (queue, selected) else Err InputNotChanged
          end
      end
  end.

Definition ResolveSelection (g : Graph) (facts : SelectionFacts) (decision : SelectionDecision) : result resolve_error Selection :=
  if d_Full decision then Ok (mkSelection true (FullReason (full_reason (d_Reason decision))) [] (sf_AllPackages facts))
  else if negb (sf_Known facts) || (sf_ChangedCount facts =? 0)%nat || negb (sf_GraphComplete facts) then Err NarrowedBlind
  else match unsafe_path (sf_Paths facts) with
       | Some e => Err e
       | None =>
           match resolve_start facts (d_TestInputs decision) with
           | Err e => Err e
           | Ok (queue, selected) =>
               let selected := default selected
                 (traverse (length queue + importer_count (g_importers g)) (g_importers g) queue ∅ selected) in
               let packages := sort_strings (elements selected) in
               Ok (mkSelection false
                     (match sf_Seeds facts with
                      | [] => NoGoPackage (sf_ChangedCount facts)
                      | _ => Seeded (sf_ChangedCount facts) (length (sf_Seeds facts)) (length packages)
                               (length (sf_AllPackages facts)) (length (d_TestInputs decision)) (sf_Missing facts)
                      end) (sf_Seeds facts) packages)
           end
       end.
