(* ===== verification/AffectedFacts.v ===== *)
(** The affected packages of a change are exactly those that reach it through
    imports. *)

From S2P Require Import Prelude GoText GoSort GoPath Topics Globs GoGraph Selection.

(** ** Sorted lists of strings *)

Lemma sort_strings_elem l x : x ∈ sort_strings l <-> x ∈ l.
Proof. unfold sort_strings. by rewrite sort_stable_perm. Qed.

Lemma compact_after_elem prev l x : x ∈ compact_after prev l \/ x = prev <-> x ∈ l \/ x = prev.
Proof.
  revert prev. induction l as [|s l IH]; intros prev; cbn [compact_after]; [done|].
  destruct (s =s prev) eqn:E; [apply eqs_true in E as ->|].
  - rewrite elem_of_cons, IH. naive_solver.
  - rewrite !elem_of_cons. specialize (IH s). naive_solver.
Qed.

Lemma compact_elem l x : x ∈ compact l <-> x ∈ l.
Proof.
  destruct l as [|s l]; cbn [compact]; [done|]. rewrite !elem_of_cons. pose proof (compact_after_elem s l x). naive_solver.
Qed.

Lemma sortedMapKeys_elem {V} (m : gmap gostring V) k : k ∈ sortedMapKeys m <-> is_Some (m !! k).
Proof.
  unfold sortedMapKeys. rewrite sort_strings_elem, list_elem_of_fmap. split.
  - intros ([k' v] & -> & Hkv%elem_of_map_to_list). by exists v.
  - intros (v & Hv). exists (k, v). by rewrite elem_of_map_to_list.
Qed.

Lemma set_keys_elem l x : x ∈ set_keys l <-> x ∈ l.
Proof. unfold set_keys. by rewrite sort_strings_elem, elem_of_elements, elem_of_list_to_set. Qed.

(** ** The traversal *)

Section Traverse.
Context (importers : gmap gostring (list gostring)).

Definition imported_by (a b : gostring) : Prop := b ∈ at_key importers a.

(** The entries the packages not yet traversed would add to the queue. *)
Definition pending (traversed : gset gostring) : nat :=
  sum_list_with (fun kv => if decide (kv.1 ∈ traversed) then 0%nat else length kv.2) (map_to_list importers).

Lemma sum_list_with_perm {A} (f : A -> nat) l k : l ≡ₚ k -> sum_list_with f l = sum_list_with f k.
Proof. induction 1; cbn; lia. Qed.

Lemma sum_list_with_ext {A} (f g : A -> nat) l : (forall x, x ∈ l -> f x = g x) -> sum_list_with f l = sum_list_with g l.
Proof.
  intros Hfg. induction l as [|x l IH]; [done|]. cbn. rewrite (Hfg x) by by left. rewrite IH; [done|].
  intros y Hy. apply Hfg. by right.
Qed.

Lemma pending_step next traversed : next ∉ traversed ->
  pending traversed = (length (at_key importers next) + pending ({[next]} ∪ traversed))%nat.
Proof.
  intros Hn. unfold pending, at_key. destruct (importers !! next) as [l|] eqn:E; cbn [default].
  - pose proof (map_to_list_insert (delete next importers) next l (lookup_delete_eq _ _)) as Hp.
    rewrite (insert_delete_id _ _ _ E) in Hp. rewrite !(sum_list_with_perm _ _ _ Hp). cbn [sum_list_with fst snd].
    rewrite decide_False by done. rewrite decide_True by set_solver. cbn. f_equal. apply sum_list_with_ext.
    intros [k v] Hk%elem_of_map_to_list. cbn. assert (k <> next) by (intros ->; by rewrite lookup_delete_eq in Hk).
    destruct (decide (k ∈ traversed)), (decide (k ∈ {[next]} ∪ traversed)); set_solver.
  - cbn. apply sum_list_with_ext. intros [k v] Hk%elem_of_map_to_list. cbn. assert (k <> next) by congruence.
    destruct (decide (k ∈ traversed)), (decide (k ∈ {[next]} ∪ traversed)); set_solver.
Qed.

Lemma traverse_ends fuel queue traversed selected : (length queue + pending traversed <= fuel)%nat ->
  is_Some (traverse fuel importers queue traversed selected).
Proof.
  revert queue traversed selected. induction fuel as [|fuel IH]; intros [|next queue] traversed selected Hf;
    cbn [traverse length] in *; [done|lia|done|].
  destruct (bool_decide (next ∈ traversed)) eqn:E; bprop.
  - apply IH. lia.
  - apply IH. rewrite length_app. rewrite (pending_step next) in Hf by done. lia.
Qed.

(** A set that holds the queue and all that imports what it holds. *)
Lemma traverse_closed fuel queue traversed selected out : traverse fuel importers queue traversed selected = Some out ->
  traversed ⊆ selected -> (forall a b, a ∈ traversed -> imported_by a b -> b ∈ traversed \/ b ∈ queue) ->
  selected ⊆ out /\ exists all : gset gostring, traversed ⊆ all /\ all ⊆ out /\ (forall q, q ∈ queue -> q ∈ all)
    /\ forall a b, a ∈ all -> imported_by a b -> b ∈ all.
Proof.
  revert queue traversed selected. induction fuel as [|fuel IH]; intros [|next queue] traversed selected Ht Hs Hc; cbn [traverse] in Ht.
  1,3: injection Ht as <-; (split; [done|]); exists traversed; (split_and!; [done|done|by intros ? ?%elem_of_nil|]);
    intros a b Ha Hb; by destruct (Hc a b Ha Hb) as [|?%elem_of_nil].
  - done.
  - destruct (bool_decide (next ∈ traversed)) eqn:E; bprop.
    + destruct (IH _ _ _ Ht Hs) as (Ho & all & H1 & H2 & H3 & H4).
      { intros a b Ha Hb. destruct (Hc a b Ha Hb) as [?|[->|?]%elem_of_cons]; auto. }
      split; [done|]. exists all. split_and!; [done|done| |done]. intros q [->|?]%elem_of_cons; auto.
    + destruct (IH _ _ _ Ht) as (Ho & all & H1 & H2 & H3 & H4); [set_solver| |].
      { intros a b [->%elem_of_singleton|Ha]%elem_of_union Hb; [right; apply elem_of_app; by right|].
        destruct (Hc a b Ha Hb) as [?|[->|?]%elem_of_cons]; [set_solver|set_solver|right; apply elem_of_app; by left]. }
      split; [set_solver|]. exists all. split_and!; [set_solver|done| |done].
      intros q [->|Hq]%elem_of_cons; [set_solver|]. apply H3, elem_of_app. by left.
Qed.

Lemma traverse_reached fuel queue traversed selected out x : traverse fuel importers queue traversed selected = Some out ->
  x ∈ out -> x ∈ selected \/ exists q, q ∈ queue /\ rtc imported_by q x.
Proof.
  revert queue traversed selected. induction fuel as [|fuel IH]; intros [|next queue] traversed selected Ht Hx; cbn [traverse] in Ht.
  1,3: injection Ht as <-; by left.
  - done.
  - destruct (bool_decide (next ∈ traversed)) eqn:E; bprop.
    + destruct (IH _ _ _ Ht Hx) as [?|(q & Hq & Hr)]; [by left|right]. exists q. split; [by right|done].
    + destruct (IH _ _ _ Ht Hx) as [[->%elem_of_singleton|?]%elem_of_union|(q & [Hq|Hq]%elem_of_app & Hr)].
      * right. exists next. split; [by left|done].
      * by left.
      * right. exists q. split; [by right|done].
      * right. exists next. split; [by left|]. by eapply rtc_l.
Qed.

Lemma pending_all : pending ∅ = importer_count importers.
Proof. apply sum_list_with_ext. intros kv _. by rewrite decide_False by set_solver. Qed.

(** With the fuel given, the traversal adds exactly what reaches the queue. *)
Lemma traverse_exact queue selected x :
  x ∈ default selected (traverse (length queue + importer_count importers) importers queue ∅ selected)
  <-> x ∈ selected \/ exists q, q ∈ queue /\ rtc imported_by q x.
Proof.
  destruct (traverse_ends (length queue + importer_count importers) queue ∅ selected) as (out & Ho); [by rewrite pending_all|].
  rewrite Ho. cbn [default]. split; [by apply (traverse_reached _ _ _ _ _ _ Ho)|].
  destruct (traverse_closed _ _ _ _ _ Ho) as (Hs & all & _ & Ha & Hq & Hc); [set_solver|set_solver|].
  intros [?|(q & Hin & Hr)]; [set_solver|]. apply Ha. apply Hq in Hin. clear -Hin Hr Hc. induction Hr; [done|]. eauto.
Qed.
End Traverse.

Lemma rtc_reverse {A} (R S : A -> A -> Prop) x y : (forall a b, R a b <-> S b a) -> rtc R x y <-> rtc S y x.
Proof.
  intros Hrs. split.
  - induction 1 as [|a b c Hab _ IH]; [done|]. eapply rtc_r; [exact IH|]. by apply Hrs.
  - induction 1 as [|a b c Hab _ IH]; [done|]. eapply rtc_r; [exact IH|]. by apply Hrs.
Qed.

(** ** The scanned graph *)

(** A package of the graph imports a first-party path. *)
Definition imports (g : Graph) (a b : gostring) : Prop := exists p, g_pkgs g !! a = Some p /\ b ∈ p_Imports p.

Lemma at_key_insert {V} (m : gmap gostring (list V)) k l k' :
  at_key (<[k := l]> m) k' = if decide (k = k') then l else at_key m k'.
Proof.
  unfold at_key. destruct (decide (k = k')) as [->|Hn]; [by rewrite lookup_insert_eq|by rewrite lookup_insert_ne].
Qed.

Lemma add_importer_elem a imported l importers b : 
  a ∈ at_key (foldl (add_importer imported) importers l) b <-> a ∈ at_key importers b \/ (a = imported /\ b ∈ l).
Proof.
  revert importers. induction l as [|x l IH]; intros importers; cbn [foldl].
  - split; [by left|]. by intros [?|[_ ?%elem_of_nil]].
  - rewrite IH. unfold add_importer. rewrite at_key_insert, elem_of_cons. destruct (decide (x = b)) as [->|Hn].
    + rewrite elem_of_app, list_elem_of_singleton. naive_solver.
    + naive_solver.
Qed.

Lemma add_edges_elem a b edges importers : a ∈ at_key (foldl add_edges importers edges) b
  <-> a ∈ at_key importers b \/ exists l, (a, l) ∈ edges /\ b ∈ l.
Proof.
  revert importers. induction edges as [|[x l] edges IH]; intros importers; cbn [foldl].
  - split; [by left|]. by intros [?|(l & ?%elem_of_nil & _)].
  - rewrite IH. unfold add_edges at 1. rewrite add_importer_elem. cbn [fst snd]. setoid_rewrite elem_of_cons. naive_solver.
Qed.

Section Scanned.
Context `{GoSource}.

(** Every package found has its imports declared, under the same path. *)
Lemma find_package_dom st dir fd fd' : find_package st dir fd = Some fd' ->
  (forall k, is_Some (f_pkgs fd !! k) <-> is_Some (f_declared fd !! k)) ->
  forall k, is_Some (f_pkgs fd' !! k) <-> is_Some (f_declared fd' !! k).
Proof.
  unfold find_package. intros Hf Hd. destruct (importPathOf (s_modules st) dir) as [ip|]; [|by injection Hf as <-].
  destruct (f_pkgs fd !! ip); [by injection Hf as <-|].
  destruct (read_imports (at_key (s_files st) dir) ∅ (f_incomplete fd)) as [[imports incomplete]|]; [|done].
  injection Hf as <-. cbn. intros k. rewrite !lookup_insert_is_Some. rewrite Hd. done.
Qed.

Lemma find_packages_dom st dirs fd fd' : find_packages st dirs fd = Some fd' ->
  (forall k, is_Some (f_pkgs fd !! k) <-> is_Some (f_declared fd !! k)) ->
  forall k, is_Some (f_pkgs fd' !! k) <-> is_Some (f_declared fd' !! k).
Proof.
  revert fd. induction dirs as [|dir dirs IH]; intros fd; cbn [find_packages]; [by intros [= <-]|].
  destruct (find_package st dir fd) as [fd1|] eqn:E; [|done]. intros Hf Hd. apply (IH fd1 Hf).
  by apply (find_package_dom _ _ _ _ E).
Qed.

(** The importers of a scanned graph are its imports, the other way round. *)
Lemma scanned_importers tree g a b : ScanGoTree tree = Some g -> imported_by (g_importers g) b a <-> imports g a b.
Proof.
  unfold ScanGoTree, imports, imported_by. destruct (walk_tree dot_path dot_path tree (mkScan ∅ ∅ [])) as [st|]; [|done].
  destruct (find_packages st (sortedMapKeys (s_files st)) (mkFound ∅ ∅ ∅ (s_incomplete st))) as [fd|] eqn:E; [|done].
  intros [= <-]. cbn [g_importers g_pkgs].
  pose proof (find_packages_dom _ _ _ _ E) as Hdom. cbn in Hdom.
  set (edges := map_imap _ (f_declared fd)). set (raw := foldl add_edges _ _).
  assert (Hs : at_key (sort_strings <$> raw) b = sort_strings (at_key raw b)).
  { unfold at_key. rewrite lookup_fmap. by destruct (raw !! b). }
  rewrite Hs, sort_strings_elem. unfold raw. rewrite add_edges_elem. setoid_rewrite list_elem_of_fmap.
  setoid_rewrite sortedMapKeys_elem. setoid_rewrite map_lookup_imap. split.
  - intros [Hn|(l & (k & [= -> ->] & l' & Hl) & Hb)]; [by apply elem_of_nil in Hn|].
    unfold edges in Hl. rewrite map_lookup_imap in Hl. destruct (f_declared fd !! k) as [decl|] eqn:Ed; [|done].
    assert (is_Some (f_pkgs fd !! k)) as (d & Hd).
    { apply Hdom; [|by rewrite Ed]. intros k'. rewrite !lookup_empty. done. }
    rewrite Hd. cbn. eexists. split; [done|]. done.
  - intros (p & Hp & Hb). right. destruct (f_pkgs fd !! a) as [d|] eqn:Ed; [|done]. cbn in Hp. injection Hp as <-. cbn in Hb.
    exists (at_key edges a). split; [|done]. exists a. split; [done|]. unfold at_key in Hb.
    destruct (edges !! a) as [l|]; [done|]. by apply elem_of_nil in Hb.
Qed.

(** ** What a changed path touches *)

(** The package that owns a directory: its own, or the nearest above it inside its
    module. *)
Inductive owned (g : Graph) : gostring -> option gostring -> Prop :=
| owned_here dir o : g_byDir g !! dir = Some o -> owned g dir (Some o)
| owned_none dir : g_byDir g !! dir = None -> is_Some (g_modules g !! dir) \/ dir = dot_path -> owned g dir None
| owned_above dir o : g_byDir g !! dir = None -> g_modules g !! dir = None -> dir <> dot_path ->
    owned g (Dir dir) o -> owned g dir o.

Lemma package_above_owned fuel g dir : IsAbs dir = false -> (length dir < fuel)%nat \/ dir = dot_path ->
  owned g dir (package_above fuel g dir).
Proof.
  revert dir. induction fuel as [|fuel IH]; intros dir Habs Hf; cbn [package_above];
    (destruct (g_byDir g !! dir) as [o|] eqn:E; [by constructor|]);
    destruct (bool_decide (is_Some (g_modules g !! dir))) eqn:Em; bprop; cbn [orb]; try (by constructor; [|left]);
    destruct (dir =s dot_path) eqn:Ed; try (apply eqs_true in Ed as ->; by constructor; [|right]);
    apply eqs_false in Ed; (destruct Hf as [Hf|?]; [|done]); [lia|].
  constructor 3; [done|by apply eq_None_not_Some|done|]. destruct (Dir_relative dir Habs) as [Ha Hl]. apply IH; [done|].
  destruct Hl as [?|?]; [by right|left; lia].
Qed.

Lemma repoPath_relative raw p : repoPath raw = Some p -> IsAbs p = false.
Proof.
  unfold repoPath. set (q := Clean (TrimSpace raw)). destruct (q =s dot_path), (q =s dotdot), (IsAbs q) eqn:E, (HasPrefix q (go "../"));
    cbn [orb]; try done. by intros [= <-].
Qed.

Lemma owned_det g dir o o' : owned g dir o -> owned g dir o' -> o = o'.
Proof.
  intros Ho. revert o'. induction Ho as [dir o Hd|dir Hd Hs|dir o Hd Hm Hn Ho IH]; intros o' Ho'; inversion Ho'; subst; try congruence.
  - destruct Hs as [(m & Hm)|?]; congruence.
  - match goal with Hx : is_Some _ \/ _ |- _ => destruct Hx as [(m & Hm')|?]; congruence end.
  - by apply IH.
Qed.

Lemma PackageAt_owned g p q : repoPath p = Some q -> owned g (Dir q) (PackageAt g p).
Proof.
  intros Hq. unfold PackageAt. rewrite Hq. destruct (Dir_relative q (repoPath_relative _ _ Hq)) as [Ha _].
  apply package_above_owned; [done|left; lia].
Qed.
End Scanned.

(** ** Resolving *)

Lemma unsafe_path_none paths : unsafe_path paths = None <->
  forall p, p ∈ paths -> cp_RepositoryPath p = true /\ cp_TestInputUncertain p = false.
Proof.
  induction paths as [|p paths IH]; cbn [unsafe_path]; [split; [by intros _ ? ?%elem_of_nil|done]|].
  setoid_rewrite elem_of_cons. destruct (cp_RepositoryPath p) eqn:Er, (cp_TestInputUncertain p) eqn:Eu; cbn [negb];
    (split; [try done|]); intros Hp; try (destruct (Hp p (or_introl eq_refl)); congruence).
  - intros q [->|Hq]; [done|]. by apply IH.
  - apply IH. intros q Hq. apply Hp. by right.
Qed.

Lemma local_inputs_elem inputs local out p : local_inputs inputs local = Ok out -> p ∈ out <-> p ∈ inputs \/ p ∈ local.
Proof.
  revert local. induction inputs as [|x inputs IH]; intros local; cbn [local_inputs].
  - intros [= <-]. split; [by right|]. by intros [?%elem_of_nil|?].
  - destruct (bool_decide (x ∈ local)); [done|]. intros Hl. rewrite (IH _ Hl), elem_of_cons, elem_of_union, elem_of_singleton.
    tauto.
Qed.

Lemma split_owners_elem local paths queue matched selected queue' matched' selected' o :
  split_owners local paths queue matched selected = Ok (queue', matched', selected') ->
  (o ∈ queue' <-> o ∈ queue \/ exists p, p ∈ paths /\ cp_Path p ∉ local /\ o ∈ cp_owners p)
  /\ (o ∈ selected' <-> o ∈ selected \/ exists p, p ∈ paths /\ cp_Path p ∈ local /\ o ∈ cp_owners p).
Proof.
  revert queue matched selected. induction paths as [|p paths IH]; intros queue matched selected; cbn [split_owners].
  { intros [= <- <- <-]. split; (split; [by left|]); by intros [?|(p & ?%elem_of_nil & _)]. }
  destruct (fullSelectionPath p); [done|]. destruct (bool_decide (cp_Path p ∈ local)) eqn:El; bprop; cbn [negb].
  - destruct (negb (cp_DeclaredTestInput p) || negb (cp_TestInputEligible p) || (length (cp_owners p) =? 0)%nat); [done|].
    intros (Hq & Hs)%IH. rewrite Hq, Hs, elem_of_union, elem_of_list_to_set. setoid_rewrite elem_of_cons. split; naive_solver.
  - intros (Hq & Hs)%IH. rewrite Hq, Hs, elem_of_app. setoid_rewrite elem_of_cons. split; naive_solver.
Qed.

(** What an affected answer starts from: owners whose importers follow, and owners of
    the inputs the decision keeps local. *)
Lemma resolve_start_elem facts inputs queue selected o : resolve_start facts inputs = Ok (queue, selected) ->
  (forall s, s ∈ sf_Seeds facts <-> exists p, p ∈ sf_Paths facts /\ s ∈ cp_owners p) ->
  (o ∈ queue <-> exists p, p ∈ sf_Paths facts /\ cp_Path p ∉ inputs /\ o ∈ cp_owners p)
  /\ (o ∈ selected <-> exists p, p ∈ sf_Paths facts /\ cp_Path p ∈ inputs /\ o ∈ cp_owners p).
Proof.
  intros Hr Hseeds. unfold resolve_start in Hr. destruct inputs as [|x inputs].
  - injection Hr as <- <-. rewrite Hseeds. split; [|set_solver]. split; intros (p & ?); exists p; [|naive_solver].
    split_and!; [naive_solver|apply not_elem_of_nil|naive_solver].
  - destruct (local_inputs (x :: inputs) ∅) as [local|] eqn:El; [|done].
    destruct (split_owners local (sf_Paths facts) [] ∅ ∅) as [[[q m] s]|] eqn:Es; [|done].
    destruct (size m =? size local)%nat; [|done]. injection Hr as <- <-.
    assert (Hl : forall p, p ∈ local <-> p ∈ x :: inputs).
    { intros p. rewrite (local_inputs_elem _ _ _ p El). set_solver. }
    destruct (split_owners_elem _ _ _ _ _ _ _ _ o Es) as [-> ->]. setoid_rewrite Hl. split.
    + split; [by intros [?%elem_of_nil|?]|by right].
    + split; [intros [?|?]; [set_solver|done]|by right].
Qed.

Lemma ResolveSelection_exact g facts decision sel : ResolveSelection g facts decision = Ok sel -> d_Full decision = false ->
  (forall s, s ∈ sf_Seeds facts <-> exists p, p ∈ sf_Paths facts /\ s ∈ cp_owners p) ->
  sf_Known facts = true /\ sf_ChangedCount facts <> 0%nat /\ sf_GraphComplete facts = true
  /\ (forall p, p ∈ sf_Paths facts -> cp_RepositoryPath p = true /\ cp_TestInputUncertain p = false)
  /\ forall pkg, pkg ∈ sel_Packages sel <->
       (exists p, p ∈ sf_Paths facts /\ cp_Path p ∈ d_TestInputs decision /\ pkg ∈ cp_owners p)
       \/ exists p o, p ∈ sf_Paths facts /\ cp_Path p ∉ d_TestInputs decision /\ o ∈ cp_owners p
            /\ rtc (imported_by (g_importers g)) o pkg.
Proof.
  unfold ResolveSelection. intros Hr Hf Hseeds. rewrite Hf in Hr.
  destruct (negb (sf_Known facts) || (sf_ChangedCount facts =? 0)%nat || negb (sf_GraphComplete facts)) eqn:Eb; [done|].
  apply orb_false_iff in Eb as [[Hk%negb_false_iff Hc%Nat.eqb_neq]%orb_false_iff Hg%negb_false_iff].
  destruct (unsafe_path (sf_Paths facts)) eqn:Eu; [done|]. rewrite unsafe_path_none in Eu.
  destruct (resolve_start facts (d_TestInputs decision)) as [[queue selected]|] eqn:Es; [|done]. injection Hr as <-.
  split_and!; [done|done|done|done|]. intros pkg. cbn [sel_Packages]. rewrite sort_strings_elem, elem_of_elements, traverse_exact.
  rewrite (proj2 (resolve_start_elem _ _ _ _ pkg Es Hseeds)). apply or_iff_compat_l. split.
  - intros (q & Hq & Hr). apply (proj1 (resolve_start_elem _ _ _ _ q Es Hseeds)) in Hq as (p & ?). exists p, q. naive_solver.
  - intros (p & o & Hp & Hn & Ho & Hr). exists o. split; [|done]. apply (proj1 (resolve_start_elem _ _ _ _ o Es Hseeds)). by exists p.
Qed.

(** ** Analysing *)

Section Analyze.
Context `{GoSource, GoBuild}.

(** The package a changed path belongs to, or one that imports what was at its
    directory. *)
Definition touches (g : Graph) (p o : gostring) : Prop :=
  PackageAt g p = Some o \/ (g_byDir g !! Dir p = None /\ exists gone, importPathOf (g_modules g) (Dir p) = Some gone /\ imports g o gone).

Lemma orphans_elem tree g p o : ScanGoTree tree = Some g ->
  o ∈ (orphans g p).2 <-> g_byDir g !! Dir p = None /\ exists gone, importPathOf (g_modules g) (Dir p) = Some gone /\ imports g o gone.
Proof.
  intros Hg. unfold orphans. destruct (g_byDir g !! Dir p) as [d|] eqn:E.
  { rewrite bool_decide_true by eauto. cbn. split; [by intros ?%elem_of_nil|]. by intros [? _]. }
  rewrite bool_decide_false by (intros [? ?]; congruence). destruct (importPathOf (g_modules g) (Dir p)) as [ip|]; cbn.
  - pose proof (scanned_importers tree g o ip Hg) as Hi. unfold imported_by in Hi. rewrite Hi. naive_solver.
  - split; [by intros ?%elem_of_nil|]. by intros (_ & gone & ? & _).
Qed.

Lemma analyzed_owners tree g p o : ScanGoTree tree = Some g -> cp_owners p = [] -> cp_RepositoryPath p = true ->
  o ∈ cp_owners (analyze_path g None p) <-> touches g (cp_Path p) o.
Proof.
  intros Hg Hn Hr. unfold analyze_path. rewrite Hr, Hn. cbn [negb cp_owners app].
  rewrite compact_elem, sort_strings_elem, elem_of_app, (orphans_elem tree) by done. unfold touches.
  apply or_iff_compat_r. destruct (PackageAt g (cp_Path p)); [rewrite list_elem_of_singleton; naive_solver|].
  split; [by intros ?%elem_of_nil|done].
Qed.

Lemma analyze_path_repository g declared p : cp_RepositoryPath (analyze_path g declared p) = cp_RepositoryPath p.
Proof.
  unfold analyze_path. destruct (cp_RepositoryPath p) eqn:Er; [cbn [negb]|by cbn; rewrite Er]. cbn [cp_RepositoryPath].
  destruct declared as [f|]; [|done]. destruct (f _); [|done]. unfold classifyTestInput. by repeat dmatch.
Qed.

(** The facts of an analysis: its paths are the changed ones, its seeds their owners. *)
Lemma AnalyzeSelection_facts g changed known full inputs facts :
  AnalyzeSelectionWithTestInputs g changed known full inputs = Ok facts ->
  exists inFull declared, optional_set full = Ok inFull /\ optional_set inputs = Ok declared
  /\ sf_Known facts = known /\ sf_ChangedCount facts = length changed
  /\ (sf_GraphComplete facts = true <-> g_incomplete g = [])
  /\ sf_Paths facts = analyze_path g declared <$> (changed_path inFull <$> changed)
  /\ forall s, s ∈ sf_Seeds facts <-> exists p, p ∈ sf_Paths facts /\ s ∈ cp_owners p.
Proof.
  unfold AnalyzeSelectionWithTestInputs, AnalyzeChangedPaths. destruct (optional_set full) as [inFull|] eqn:Ef; [|done].
  destruct (optional_set inputs) as [declared|] eqn:Ei; [|done]. intros [= <-]. exists inFull, declared. cbn.
  split_and!; try done.
  - rewrite Nat.eqb_eq. split; [apply nil_length_inv|by intros ->].
  - intros s. rewrite set_keys_elem, list_elem_of_bind. split.
    + intros (p & Hs & Hp). exists p. split; [done|]. destruct (cp_RepositoryPath p); [done|by apply elem_of_nil in Hs].
    + intros (p & Hp & Hs). exists p. split; [|done]. destruct (cp_RepositoryPath p) eqn:Er; [done|].
      apply list_elem_of_fmap in Hp as (q & -> & (raw & -> & _)%list_elem_of_fmap). rewrite analyze_path_repository in Er.
      unfold analyze_path in Hs. rewrite Er in Hs. cbn in Hs. unfold changed_path in *. by destruct (repoPath raw).
Qed.
End Analyze.

(** ** Theorems *)

(** C12: An affected answer selects exactly what the change can reach.  On the import
    graph scanned from a tree, an analysis that is resolved to the affected packages
    was made on a known and complete basis, every changed path a path of the
    repository; and the packages selected are those with a chain of imports to a
    package a changed path belongs to, or to one that still imports a package the
    change removed. *)
Theorem affected_selection_exact `{GoSource, GoBuild} (tree : node) (g : Graph) (changed : list gostring) (known : bool)
    (full : list gostring) (facts : SelectionFacts) (reason : gostring) (sel : Selection) :
  ScanGoTree tree = Some g -> AnalyzeSelection g changed known full = Ok facts ->
  ResolveSelection g facts (mkDecision false reason []) = Ok sel ->
  (known = true /\ changed <> [] /\ g_incomplete g = [] /\ forall raw, raw ∈ changed -> is_Some (repoPath raw))
  /\ forall pkg, pkg ∈ sel_Packages sel <->
       exists raw p o, raw ∈ changed /\ repoPath raw = Some p /\ touches g p o /\ rtc (imports g) pkg o.
Proof.
  intros Hg Ha Hr. unfold AnalyzeSelection in Ha.
  destruct (AnalyzeSelection_facts _ _ _ _ _ _ Ha) as (inFull & declared & _ & [= <-] & Hk & Hc & Hgc & Hp & Hs).
  destruct (ResolveSelection_exact _ _ _ _ Hr eq_refl Hs) as (Hk' & Hc' & Hg' & Hu & Hx).
  assert (Hraw : forall raw, raw ∈ changed -> exists p, repoPath raw = Some p).
  { intros raw Hin. destruct (Hu (analyze_path g None (changed_path inFull raw))) as [Hrep _].
    - rewrite Hp. by do 2 apply list_elem_of_fmap_2.
    - rewrite analyze_path_repository in Hrep. unfold changed_path in Hrep. destruct (repoPath raw); [eauto|done]. }
  split; [split_and!; [congruence| |by apply Hgc|done]|].
  { intros ->. by rewrite Hc in Hc'. }
  assert (Hown : forall raw p o, raw ∈ changed -> repoPath raw = Some p ->
    o ∈ cp_owners (analyze_path g None (changed_path inFull raw)) <-> touches g p o).
  { intros raw p o _ Hrp. unfold changed_path. rewrite Hrp. by rewrite (analyzed_owners tree). }
  assert (Hrtc : forall o pkg, rtc (imported_by (g_importers g)) o pkg <-> rtc (imports g) pkg o).
  { intros o pkg. apply rtc_reverse. intros a b. by apply (scanned_importers tree). }
  intros pkg. rewrite Hx, Hp. cbn [d_TestInputs]. split.
  - intros [(p & _ & ?%elem_of_nil & _)|(p & o & (q & -> & (raw & -> & Hin)%list_elem_of_fmap)%list_elem_of_fmap & _ & Ho & Hl)]; [done|].
    destruct (Hraw raw Hin) as (path & Hrp). exists raw, path, o. split_and!; [done|done| |by apply Hrtc]. by apply (Hown raw path).
  - intros (raw & path & o & Hin & Hrp & Ht & Hl). right. exists (analyze_path g None (changed_path inFull raw)), o.
    split_and!; [by do 2 apply list_elem_of_fmap_2|apply not_elem_of_nil|by apply (Hown raw path)|by apply Hrtc].
Qed.

(** A source of one import a line, and a tree of three packages, one importing
    another. *)
Definition line_source : GoSource :=
  {| parse_imports := fun data => Some (List.filter (fun l => negb (l =s [])) (Split data 10)); go_unquote := fun _ => None |}.

Definition no_build : GoBuild := {| import_file := fun _ _ _ => None |}.

Definition sample_tree : node :=
  NDir (Some [(go "a", NDir (Some [(go "a.go", NFile (Some []))]));
              (go "b", NDir (Some [(go "b.go", NFile (Some (go "m/a")))]));
              (go "c", NDir (Some [(go "c.go", NFile (Some (go "fmt")))]));
              (go "go.mod", NFile (Some (go "module m")))]).

Lemma affected_selection_exact_witness :
  exists g facts sel, @ScanGoTree line_source sample_tree = Some g
  /\ @AnalyzeSelection no_build g [go "a/a.go"] true [] = Ok facts
  /\ ResolveSelection g facts (mkDecision false [] []) = Ok sel
  /\ sel_Packages sel = [go "m/a"; go "m/b"]
  /\ forall pkg, pkg ∈ sel_Packages sel <->
       exists raw p o, raw ∈ [go "a/a.go"] /\ repoPath raw = Some p /\ touches g p o /\ rtc (imports g) pkg o.
Proof.
  do 3 eexists. split; [vm_compute; reflexivity|]. split; [vm_compute; reflexivity|]. split; [vm_compute; reflexivity|].
  split; [vm_compute; reflexivity|].
  eapply (@affected_selection_exact line_source no_build sample_tree _ [go "a/a.go"] true [] _ []); vm_compute; reflexivity.
Defined.
