(* ===== verification/Shards.v ===== *)
(** Splitting a step's packages into shards: component/pipelines/shard.go.

    Times are float64.  The shards and their loads are one list of pairs.  Where the
    code sorts with a total order, any sort gives the same list. *)

From Stdlib Require Import Sorting.Sorted Floats.SpecFloat.
From S2P Require Import Prelude GoText GoSort Strconv Numbers GoGraph AffectedFacts.

Definition MaxShards : Z := 8.

Definition UnknownSeconds : float64 := f64_of_Z 5.

(** A measured time: not negative, not infinite, a number. *)
Definition measured (seconds : gmap gostring float64) (pkg : gostring) : option float64 :=
  match seconds !! pkg with
  | Some s => if f64_leb (f64_of_Z 0) s && negb (match s with S754_infinity false => true | _ => false end) then Some s else None
  | None => None
  end.

Definition is_measured (seconds : gmap gostring float64) (pkg : gostring) : bool := bool_decide (is_Some (measured seconds pkg)).

Definition weight (seconds : gmap gostring float64) (pkg : gostring) : float64 := default (f64_of_Z 0) (seconds !! pkg).

(** The heavier first, then by name. *)
Definition heavier (seconds : gmap gostring float64) (a b : gostring) : bool :=
  let sa := weight seconds a in let sb := weight seconds b in
  if f64_eqb sa sb then str_ltb a b else f64_ltb sb sa.

Abbreviation shard := (list gostring * float64)%type (only parsing).

(** lightest: the first index of the least load. *)
Fixpoint lightest_from (shards : list shard) (i best : nat) (least : float64) : nat :=
  match shards with
  | [] => best
  | (_, load) :: shards' =>
      if f64_ltb load least then lightest_from shards' (S i) i load else lightest_from shards' (S i) best least
  end.

Definition lightest (shards : list shard) : nat :=
  match shards with
  | [] => 0%nat
  | (_, load) :: shards' => lightest_from shards' 1 0 load
  end.

Definition place (seconds : gmap gostring float64) (known : bool) (shards : list shard) (pkg : gostring) : list shard :=
  alter (fun '(pkgs, load) => (pkgs ++ [pkg], f64_add load (if known then weight seconds pkg else UnknownSeconds)))
    (lightest shards) shards.

Definition Partition (packages : list gostring) (seconds : gmap gostring float64) (n : Z) : list (list gostring) :=
  let unique := compact (sort_strings packages) in
  match unique with
  | [] => []
  | _ :: _ =>
      let n := Z.max 1 (Z.min n (Z.min MaxShards (Z.of_nat (length unique)))) in
      let known := sort_stable (heavier seconds) (List.filter (is_measured seconds) unique) in
      let unknown := List.filter (fun p => negb (is_measured seconds p)) unique in
      let shards := replicate (Z.to_nat n) ([], f64_of_Z 0) in
      let shards := foldl (place seconds false) (foldl (place seconds true) shards known) unknown in
      sort_strings <$> List.filter (fun s => negb (length s =? 0)%nat) (shards.*1)
  end.

(** ** Sorted lists without repeats *)

Lemma sort_strings_sorted l : StronglySorted (fun a b => str_sign a b <= 0) (sort_strings l).
Proof.
  destruct (sort_stable_spec str_sign (fun _ => True) (fun x y _ _ => str_sign_anti x y)
    (fun x y z _ _ _ => str_sign_trans x y z) l) as (_ & Hs & _); [by apply Forall_true|].
  by rewrite (sort_stable_ext _ str_ltb) in Hs by (intros; symmetry; apply str_ltb_sign).
Qed.

Lemma compact_after_NoDup prev l : StronglySorted (fun a b => str_sign a b <= 0) (prev :: l) ->
  NoDup (prev :: compact_after prev l).
Proof.
  revert prev. induction l as [|s l IH]; intros prev Hs; cbn [compact_after]; [by repeat constructor; apply not_elem_of_nil|].
  apply StronglySorted_inv in Hs as [Hs Hp]. apply Forall_cons in Hp as [Hle Hp].
  destruct (s =s prev) eqn:E; [apply eqs_true in E as ->; by apply IH|]. apply eqs_false in E.
  pose proof (IH s Hs) as Hnd. constructor; [|done]. intros Hin.
  assert (Hin' : prev ∈ l \/ prev = s).
  { apply elem_of_cons in Hin as [->|Hin]; [by right|]. apply (compact_after_elem s l prev). by left. }
  destruct Hin' as [Hin'|?]; [|done]. apply StronglySorted_inv in Hs as [_ Hs]. rewrite Forall_forall in Hs.
  specialize (Hs prev Hin'). apply E. apply str_sign_zero. pose proof (str_sign_anti s prev). lia.
Qed.

Lemma compact_sorted_NoDup l : NoDup (compact (sort_strings l)).
Proof.
  pose proof (sort_strings_sorted l) as Hs. destruct (sort_strings l) as [|s k]; [constructor|]. by apply compact_after_NoDup.
Qed.

(** ** The shards *)

Lemma lightest_from_bound shards i best least : (best < i)%nat -> (lightest_from shards i best least < i + length shards)%nat.
Proof.
  revert i best least. induction shards as [|[pkgs load] shards IH]; intros i best least Hb; cbn [lightest_from length]; [lia|].
  destruct (f64_ltb load least); (eapply Nat.lt_le_trans; [apply IH|]); lia.
Qed.

Lemma lightest_bound shards : shards <> [] -> (lightest shards < length shards)%nat.
Proof.
  destruct shards as [|[pkgs load] shards]; [done|]. intros _. cbn [lightest length]. pose proof (lightest_from_bound shards 1 0 load).
  lia.
Qed.

Lemma place_length seconds known shards pkg : length (place seconds known shards pkg) = length shards.
Proof. apply length_alter. Qed.

Lemma alter_split {A} (f : A -> A) l i x : l !! i = Some x -> alter f i l = take i l ++ f x :: drop (S i) l.
Proof.
  intros Hx. assert (Ha : alter f i l = <[i := f x]> l).
  { apply list_eq. intros j. destruct (decide (i = j)) as [->|Hn].
    - rewrite list_lookup_alter_eq, Hx. rewrite list_lookup_insert_eq; [done|by eapply lookup_lt_Some].
    - by rewrite list_lookup_alter_ne, list_lookup_insert_ne. }
  rewrite Ha. by apply insert_take_drop; eapply lookup_lt_Some.
Qed.

(** Placing puts one package more in the shards. *)
Lemma place_perm seconds known shards pkg : shards <> [] ->
  concat (place seconds known shards pkg).*1 ≡ₚ pkg :: concat shards.*1.
Proof.
  intros Hne. unfold place. destruct (lookup_lt_is_Some_2 shards (lightest shards)) as ([pkgs load] & Hx); [by apply lightest_bound|].
  rewrite (alter_split _ _ _ _ Hx). set (w := f64_add load _).
  set (i := lightest shards) in *. assert (Hc : concat shards.*1 = concat (take i shards).*1 ++ pkgs ++ concat (drop (S i) shards).*1).
  { rewrite <- (take_drop_middle shards i (pkgs, load) Hx) at 1. by rewrite fmap_app, fmap_cons, concat_app. }
  rewrite Hc, !fmap_app, !fmap_cons, !concat_app. cbn [concat fst]. rewrite <- !(assoc_L (++)). solve_Permutation.
Qed.

Lemma places_perm seconds known pkgs shards : shards <> [] ->
  concat (foldl (place seconds known) shards pkgs).*1 ≡ₚ pkgs ++ concat shards.*1
  /\ length (foldl (place seconds known) shards pkgs) = length shards.
Proof.
  revert shards. induction pkgs as [|p pkgs IH]; intros shards Hne; cbn [foldl app]; [done|].
  pose proof (place_length seconds known shards p) as Hl. assert (Hn : place seconds known shards p <> []).
  { intros E. rewrite E in Hl. by destruct shards. }
  destruct (IH _ Hn) as [Hp Hlen]. split; [|by rewrite Hlen]. rewrite Hp, (place_perm seconds known shards p Hne). solve_Permutation.
Qed.

Lemma concat_nonempty (l : list (list gostring)) : concat (List.filter (fun s => negb (length s =? 0)%nat) l) = concat l.
Proof. induction l as [|[|x s] l IH]; cbn; [done|done|]. by rewrite IH. Qed.

Lemma concat_sorted (l : list (list gostring)) : concat (sort_strings <$> l) ≡ₚ concat l.
Proof. induction l as [|s l IH]; cbn; [done|]. unfold sort_strings at 1. by rewrite sort_stable_perm, IH. Qed.

Lemma filter_partition {A} (f : A -> bool) l : List.filter f l ++ List.filter (fun x => negb (f x)) l ≡ₚ l.
Proof.
  induction l as [|x l IH]; cbn; [done|]. destruct (f x); cbn; [by apply Permutation_skip|].
  rewrite <- Permutation_middle. by apply Permutation_skip.
Qed.

Lemma NoDup_concat_part {A} (l : list (list A)) s : NoDup (concat l) -> s ∈ l -> NoDup s.
Proof.
  intros Hn Hs. apply list_elem_of_split in Hs as (a & b & ->). rewrite concat_app in Hn. cbn in Hn.
  apply NoDup_app in Hn as (_ & _ & Hn). by apply NoDup_app in Hn as (Hn & _ & _).
Qed.

Lemma partition_facts (packages : list gostring) (seconds : gmap gostring float64) (n : Z) :
  let shards := Partition packages seconds n in
  (forall p, p ∈ packages <-> p ∈ concat shards) /\ NoDup (concat shards)
  /\ Forall (fun s => s <> [] /\ StronglySorted (fun a b => str_ltb a b = true) s) shards
  /\ Z.of_nat (length shards) <= Z.max 1 (Z.min n MaxShards).
Proof.
  cbv zeta. unfold Partition. pose proof (compact_sorted_NoDup packages) as Hnd.
  assert (Hel : forall p, p ∈ packages <-> p ∈ compact (sort_strings packages)).
  { intros p. by rewrite compact_elem, sort_strings_elem. }
  destruct (compact (sort_strings packages)) as [|u us] eqn:Eu.
  { split_and!; [done|constructor|constructor|cbn; lia]. }
  rewrite <- Eu in *. clear Eu u us. set (unique := compact (sort_strings packages)) in *.
  set (k := Z.max 1 _). set (init := replicate (Z.to_nat k) _).
  assert (Hi : init <> [] /\ concat init.*1 = []).
  { unfold init. assert (Z.to_nat k <> 0%nat) by lia. split; [by destruct (Z.to_nat k)|].
    clear. induction (Z.to_nat k); cbn; [done|done]. }
  destruct Hi as [Hi Hi0]. set (known := sort_stable _ _). set (unknown := List.filter _ unique).
  destruct (places_perm seconds true known init Hi) as [Hp1 Hl1]. set (mid := foldl (place seconds true) init known) in *.
  assert (Hm : mid <> []) by (intros E; rewrite E in Hl1; by destruct init).
  destruct (places_perm seconds false unknown mid Hm) as [Hp2 Hl2]. set (out := foldl (place seconds false) mid unknown) in *.
  assert (Hall : concat (sort_strings <$> List.filter (fun s => negb (length s =? 0)%nat) out.*1) ≡ₚ unique).
  { rewrite concat_sorted, concat_nonempty, Hp2, Hp1, Hi0, app_nil_r. unfold known. rewrite sort_stable_perm.
    rewrite (comm (++)). apply filter_partition. }
  split_and!.
  - intros p. by rewrite Hall.
  - by rewrite Hall.
  - apply Forall_fmap, Forall_forall. intros s Hs. cbn. apply list_elem_of_In, filter_In in Hs as [Hs Hne].
    apply list_elem_of_In in Hs. split.
    + intros E. assert (Hperm : sort_strings s ≡ₚ s) by apply sort_stable_perm. rewrite E in Hperm.
      apply Permutation_nil in Hperm as ->. done.
    + apply sort_strings_strict. apply (NoDup_concat_part out.*1); [|done].
      rewrite <- concat_nonempty, <- concat_sorted, Hall. done.
  - rewrite length_fmap. etrans; [apply Nat2Z.inj_le, List.filter_length_le|]. rewrite length_fmap, Hl2, Hl1.
    unfold init. rewrite length_replicate. lia.
Qed.

(** ** Theorems *)

(** The shards partition the packages: every package is in exactly one shard,
    once, however often it was listed; no shard is empty, each is in strict order of
    its names, there are at most as many as asked for and eight, and packages always
    come back. *)
Theorem Partition_partitions (packages : list gostring) (seconds : gmap gostring float64) (n : Z) :
  let shards := Partition packages seconds n in
  (forall p, p ∈ packages <-> p ∈ concat shards) /\ NoDup (concat shards)
  /\ Forall (fun s => s <> [] /\ StronglySorted (fun a b => str_ltb a b = true) s) shards
  /\ Z.of_nat (length shards) <= Z.max 1 (Z.min n MaxShards).
Proof. apply partition_facts. Qed.
