(* ===== verification/Durations.v ===== *)
(** Go's time.ParseDuration.  A duration is its nanoseconds; an error is [None].  The
    arithmetic is on 64 bits without a sign; only the sum of the parts can reach its
    bound. *)

From S2P Require Import Prelude GoText Strconv Numbers.

Definition is_digit (c : rune) : bool := between 48 57 c.

Definition bit63 : Z := 2 ^ 63.

(** leadingInt: the digits read and the text left. *)
Fixpoint leadingInt (x : Z) (s : gostring) : option (Z * gostring) :=
  match s with
  | [] => Some (x, [])
  | c :: s' =>
      if negb (is_digit c) then Some (x, s)
      else if bit63 / 10 <? x then None
      else
        let x := x * 10 + c - 48 in
        if bit63 <? x then None else leadingInt x s'
  end.

(** leadingFraction: digits past what the number holds are read and dropped. *)
Fixpoint leadingFraction (x : Z) (scale : float64) (overflow : bool) (s : gostring) : Z * float64 * gostring :=
  match s with
  | [] => (x, scale, [])
  | c :: s' =>
      if negb (is_digit c) then (x, scale, s)
      else if overflow then leadingFraction x scale true s'
      else if (bit63 - 1) / 10 <? x then leadingFraction x scale true s'
      else
        let y := x * 10 + c - 48 in
        if bit63 <? y then leadingFraction x scale true s'
        else leadingFraction y (f64_mul scale (f64_of_Z 10)) false s'
  end.

(** unitMap *)
Definition unit_of (u : gostring) : option Z :=
  if u =s go "ns" then Some 1
  else if (u =s go "us") || (u =s [181; 115]) || (u =s [956; 115]) then Some 1000
  else if u =s go "ms" then Some 1000000
  else if u =s go "s" then Some 1000000000
  else if u =s go "m" then Some 60000000000
  else if u =s go "h" then Some 3600000000000
  else None.

(** One number with its unit: its nanoseconds and the text left. *)
Definition duration_part (s : gostring) : option (Z * gostring) :=
  match s with
  | [] => None
  | c :: _ =>
      if negb ((c =? 46) || is_digit c) then None
      else match leadingInt 0 s with
           | None => None
           | Some (v, s1) =>
               let pre := negb (length s1 =? length s)%nat in
               let '(f, scale, s2, post) :=
                 match s1 with
                 | d :: s1' =>
                     if d =? 46 then
                       let '(f, scale, s2) := leadingFraction 0 (f64_of_Z 1) false s1' in
                       (f, scale, s2, negb (length s2 =? length s1')%nat)
                     else (0, f64_of_Z 1, s1, false)
                 | [] => (0, f64_of_Z 1, s1, false)
                 end in
               if negb pre && negb post then None
               else
                 let '(u, rest) := span (fun c => negb ((c =? 46) || is_digit c)) s2 in
                 match unit_of u with
                 | None => None
                 | Some unit =>
                     if bit63 / unit <? v then None
                     else
                       let v := v * unit in
                       let v := if 0 <? f then v + trunc (f64_mul (f64_of_Z f) (f64_div (f64_of_Z unit) scale)) else v in
                       if (0 <? f) && (bit63 <? v) then None else Some (v, rest)
                 end
           end
  end.

(** The parts, added up; every part takes a character. *)
Fixpoint duration_parts (fuel : nat) (d : Z) (s : gostring) : option Z :=
  match s with
  | [] => Some d
  | _ :: _ =>
      match fuel with
      | O => None
      | S fuel' =>
          match duration_part s with
          | None => None
          | Some (v, rest) =>
              let d := (d + v) mod 2 ^ 64 in
              if bit63 <? d then None else duration_parts fuel' d rest
          end
      end
  end.

Definition ParseDuration (s : gostring) : option Z :=
  let neg := HasPrefix s (go "-") in
  let s := if neg || HasPrefix s (go "+") then drop 1 s else s in
  if s =s go "0" then Some 0
  else match s with
       | [] => None
       | _ :: _ =>
           match duration_parts (length s) 0 s with
           | None => None
           | Some d => if neg then Some (- d) else if bit63 - 1 <? d then None else Some d
           end
       end.

(** The fuel is enough: every part is read off the front of the text. *)
Lemma leadingInt_length x s v rest : leadingInt x s = Some (v, rest) -> (length rest <= length s)%nat.
Proof.
  revert x. induction s as [|c s IH]; intros x; cbn [leadingInt]; [by intros [= _ <-]|].
  destruct (negb (is_digit c)); [by intros [= _ <-]|]. destruct (bit63 / 10 <? x); [done|].
  destruct (bit63 <? x * 10 + c - 48); [done|]. intros ?%IH. cbn. lia.
Qed.

Lemma leadingFraction_length x scale o s : (length (leadingFraction x scale o s).2 <= length s)%nat.
Proof.
  revert x scale o. induction s as [|c s IH]; intros x scale o; cbn [leadingFraction]; [done|].
  repeat match goal with |- context [if ?b then _ else _] => destruct b end; cbn [snd length]; try done;
    (etrans; [apply IH|lia]).
Qed.

Lemma unit_of_nil : unit_of [] = None.
Proof. reflexivity. Qed.

Lemma duration_part_shorter s v rest : duration_part s = Some (v, rest) -> (length rest < length s)%nat.
Proof.
  unfold duration_part. destruct s as [|c s]; [done|]. set (t := c :: s). destruct (negb ((c =? 46) || is_digit c)); [done|].
  destruct (leadingInt 0 t) as [[x s1]|] eqn:Ei; [|done]. apply leadingInt_length in Ei.
  set (frac := match s1 with [] => _ | _ :: _ => _ end).
  assert (Hf : (length frac.1.2 <= length s1)%nat).
  { unfold frac. destruct s1 as [|d s1']; [done|]. destruct (d =? 46); [|done].
    pose proof (leadingFraction_length 0 (f64_of_Z 1) false s1') as Hl.
    destruct (leadingFraction 0 (f64_of_Z 1) false s1') as [[f scale] s2]. cbn in *. lia. }
  destruct frac as [[[f scale] s2] post]. cbn in Hf.
  destruct (negb (negb (length s1 =? length t)%nat) && negb post); [done|].
  destruct (span (fun c => negb ((c =? 46) || is_digit c)) s2) as [u r] eqn:Es. apply span_app in Es as ->.
  destruct (unit_of u) as [unit|] eqn:Eu; [|done]. destruct (bit63 / unit <? x); [done|].
  destruct ((0 <? f) && (bit63 <? (if 0 <? f then _ else _))); [done|]. intros [= _ <-].
  destruct u as [|e u]; [done|]. rewrite length_app in Hf. cbn in Hf. lia.
Qed.

Lemma duration_parts_fuel fuel d s : (length s <= fuel)%nat -> duration_parts fuel d s = duration_parts (S fuel) d s.
Proof.
  revert d s. induction fuel as [|fuel IH]; intros d s Hl; [by destruct s; [|cbn in Hl; lia]|].
  destruct s as [|c s]; [done|]. cbn [duration_parts]. destruct (duration_part (c :: s)) as [[v rest]|] eqn:E; [|done].
  apply duration_part_shorter in E. destruct (bit63 <? (d + v) mod 2 ^ 64); [done|]. rewrite (IH _ rest); [done|]. lia.
Qed.

Example ParseDuration_hours : ParseDuration (go "1h30m") = Some 5400000000000.
Proof. vm_compute. reflexivity. Qed.

Example ParseDuration_fraction : ParseDuration (go "1.5h") = Some 5400000000000 /\ ParseDuration (go "-.5s") = Some (-500000000)
  /\ ParseDuration (go "20") = None /\ ParseDuration (go "0") = Some 0.
Proof. vm_compute. done. Qed.
