(* ===== verification/Manifest.v ===== *)
(** A pipeline as its manifest declares it, and what of it is refused:
    component/pipelines/spec.go, validate.go, execution.go, verification.go,
    image_build.go, secrets.go, needs.go, sarif.go, and the parts of
    repository_change.go and contract.go they use.

    A refusal is its code and its scope; the sentence is left out.  url.Parse is the
    class [GoURL].  Names are matched by their characters, as the expressions of the
    code say. *)

From S2P Require Import Prelude GoText GoSort Strconv Sha256 GoPath GoGraph Globs Selection Shards Durations.

(** url.Parse: scheme, host name, and whether there is a user. *)
Class GoURL := { url_Parse : gostring -> option (gostring * gostring * bool) }.

(** ** The manifest *)

Record Service := mkService { sv_Image : gostring; sv_Env : gmap gostring gostring; sv_Ready : gostring }.

Record SelectSpec := mkSelect {
  se_Go : gostring;
  se_DBGated : list gostring;
  se_Full : list gostring;
  se_TestInputs : list gostring;
  se_Buckets : gmap gostring (list gostring)
}.

Record Link := mkLink { l_Label : gostring; l_URL : gostring }.

Record SARIFReport := mkSARIF { sr_Step : gostring; sr_Path : gostring }.

Record RepositoryChange := mkChange { rc_Rule : gostring; rc_Step : gostring; rc_Path : gostring }.

Record ImageBuild := mkBuild {
  ib_Context : gostring;
  ib_Dockerfile : gostring;
  ib_Target : gostring;
  ib_Args : gmap gostring gostring
}.

Record StepSpec := mkStepSpec {
  st_Verification : bool;
  st_Repeatable : option bool;
  st_GitHubReadToken : bool;
  st_CheckoutHistory : gostring;
  st_RepositoryChange : option RepositoryChange;
  st_SARIF : option SARIFReport;
  st_CPUMilli : Z;
  st_ImageBuild : option ImageBuild;
  st_MemoryMiB : Z;
  st_Image : gostring;
  st_Placement : gostring;
  st_Execution : gostring;
  st_Platform : gostring;
  st_Name : gostring;
  st_Run : gostring;
  st_Packages : gostring;
  st_PackageRoots : list gostring;
  st_Only : gostring;
  st_Shards : Z;
  st_When : option gostring;
  st_Needs : gmap gostring bool;
  st_Services : list gostring;
  st_Caches : option (list gostring);
  st_Timeout : gostring;
  st_Artifacts : list gostring;
  st_Secrets : list gostring;
  st_ImagePullSecret : gostring
}.

Record StageSpec := mkStage {
  sg_Schedule : gostring;
  sg_RunAfterFailure : bool;
  sg_Name : gostring;
  sg_Needs : list gostring;
  sg_On : list gostring;
  sg_Channel : gostring;
  sg_Links : list Link;
  sg_Steps : list StepSpec
}.

Record Spec := mkSpec {
  sp_Workflow : gostring;
  sp_Schedule : gostring;
  sp_Platform : gostring;
  sp_Image : gostring;
  sp_Services : gmap gostring Service;
  sp_Repeatable : bool;
  sp_Caches : list gostring;
  sp_Select : option SelectSpec;
  sp_Stages : list StageSpec
}.

(** ** Refusals *)

Inductive code :=
| CodeNotDeclared
| CodeStageInvalid
| CodeStepInvalid
| CodeSelectInvalid
| CodeSelectMissing
| CodeEventUnknown
| CodeBucketUnknown
| CodeServiceUnknown
| CodeNeedUnknown
| CodeSecretInvalid
| CodeSecretNotAllowed
| CodeFleetNotConsented.

Record Refusal := mkRefusal { r_Code : code; r_Scope : gostring }.

(** A check, the next one when it passes, and a check of every element in turn. *)
Definition refuse_if (bad : bool) (c : code) (scope : gostring) : option Refusal :=
  if bad then Some (mkRefusal c scope) else None.

Definition or_else (r : option Refusal) (next : option Refusal) : option Refusal :=
  match r with Some _ => r | None => next end.

Infix "?>" := or_else (at level 60, right associativity).

Definition first_refusal {A} (f : A -> option Refusal) (l : list A) : option Refusal :=
  foldr (fun x r => f x ?> r) None l.

Definition sorted_keys {V} (m : gmap gostring V) : list gostring := sortedMapKeys m.

(** ** Names *)

Definition lower (c : rune) : bool := between 97 122 c.
Definition upper (c : rune) : bool := between 65 90 c.

(** One character of a class, then up to [most] of another. *)
Definition name_match (first rest : rune -> bool) (most : option nat) (s : gostring) : bool :=
  match s with
  | [] => false
  | c :: s' => first c && forallb rest s' && match most with Some n => (length s' <=? n)%nat | None => true end
  end.

Definition manifestName : gostring -> bool :=
  name_match (fun c => lower c || is_digit c) (fun c => lower c || is_digit c || (c =? 45)) (Some 39%nat).

Definition workflowName : gostring -> bool :=
  name_match (fun c => lower c || upper c) (fun c => lower c || upper c || is_digit c || (c =? 95)) (Some 127%nat).

Definition serviceEnvKey : gostring -> bool :=
  name_match (fun c => upper c || (c =? 95)) (fun c => upper c || is_digit c || (c =? 95)) None.

Definition secretName : gostring -> bool :=
  name_match upper (fun c => upper c || is_digit c || (c =? 95)) (Some 127%nat).

Definition imageBuildName : gostring -> bool :=
  name_match (fun c => lower c || upper c || (c =? 95))
    (fun c => lower c || upper c || is_digit c || (c =? 95) || (c =? 46) || (c =? 45)) (Some 127%nat).

Definition repositoryChangeName : gostring -> bool :=
  name_match lower (fun c => lower c || is_digit c || (c =? 45)) (Some 62%nat).

Definition dbGatedSegment : gostring -> bool :=
  let alnum c := lower c || upper c || is_digit c in
  name_match alnum (fun c => alnum c || ContainsRune (go "._+~-") c) None.

Definition TrimSuffix (s suf : gostring) : gostring :=
  if HasSuffix s suf then take (length s - length suf) s else s.

Definition dbGatedTree (entry : gostring) : option gostring :=
  let tree := TrimSuffix (TrimPrefix entry (go "./")) slash in
  if (tree =s []) || Contains tree dotdot || negb ((tree =s dot_path) || forallb dbGatedSegment (Split tree 47)) then None
  else Some (Clean tree).

Definition byte_len (s : gostring) : nat := length (utf8_bytes s).

Definition IsControl (r : rune) : bool := between 0 31 r || between 127 159 r.

Definition isSpaceOrControl (r : rune) : bool := IsSpace r || IsControl r.

(** The runes of a set, any of which a text may hold: strings.ContainsAny. *)
Definition contains_any (s : gostring) (chars : gostring) : bool := existsb (fun c => ContainsRune chars c) s.

(** ** Needs, secrets and defaults *)

Definition Needs : list gostring := [go "display"; go "docker"; go "gpu"; go "macos_tooling"; go "user_files"].

Definition IsNeed (name : gostring) : bool := memS name Needs.

Definition secretNames (environment : list gostring) (imagePull : gostring) : list gostring :=
  if negb (imagePull =s []) && negb (memS imagePull environment) then environment ++ [imagePull] else environment.

Definition SecretNames (s : StepSpec) : list gostring := secretNames (st_Secrets s) (st_ImagePullSecret s).

Definition stepNeeds (s : StepSpec) : list gostring :=
  List.filter (fun need => default false (st_Needs s !! need)) (sorted_keys (st_Needs s)).

Definition ExecutionContainer : gostring := go "container".
Definition ExecutionNative : gostring := go "native".
Definition PlacementCluster : gostring := go "cluster".
Definition PlacementFleet : gostring := go "fleet".
Definition PlacementPool : gostring := go "pool".

(** The first value that is set. *)
Definition or_text (a b : gostring) : gostring := if a =s [] then b else a.

Definition ExecutionOf (value : gostring) : gostring := or_text value ExecutionContainer.

Definition PlatformOf (spec : Spec) (step : StepSpec) : gostring := or_text (st_Platform step) (sp_Platform spec).

Definition cachesFor (spec : Spec) (step : StepSpec) : list gostring := default (sp_Caches spec) (st_Caches step).

Definition nonempty {A} (l : list A) : bool := match l with [] => false | _ :: _ => true end.

Definition PlacementOf (step : StepSpec) : gostring :=
  if negb (st_Placement step =s []) then st_Placement step
  else if (st_Execution step =s ExecutionNative) || nonempty (stepNeeds step) then PlacementFleet
  else PlacementCluster.

Definition StepKey (stage step : gostring) : gostring := stage ++ go "." ++ step.

Definition scope_of (stage step : gostring) : gostring := stage ++ slash ++ step.
