(* ===== verification/Validate.v ===== *)
(** What of a manifest is refused before anything runs: component/pipelines/validate.go
    with execution.go, verification.go, image_build.go, sarif.go and the step check of
    repository_change.go. *)

From S2P Require Import Prelude GoText GoSort Strconv Sha256 GoPath GoGraph Globs Selection Shards Durations Manifest.

Definition minute : Z := 60 * 1000000000.
Definition hour : Z := 60 * minute.

Definition DefaultStepTimeout : Z := 20 * minute.
Definition MaxStepTimeout : Z := 6 * hour.
Definition minStepTimeout : Z := minute.

Definition maxStageLinks : nat := 5.
Definition maxLinkLabelRunes : nat := 40.
Definition maxLinkURLBytes : nat := 512.

Definition stageOnValues : list gostring :=
  [go "pull_request"; go "merge_group"; go "push"; go "release"; go "schedule"; go "manual"; go "affected"; go "full"].

(** "stages[i]" and "stage/steps[j]" *)
Definition indexed (what : gostring) (i : nat) : gostring := what ++ go "[" ++ FormatInt (Z.of_nat i) ++ go "]".

(** ** The services and the selection *)

Definition validateServices (services : gmap gostring Service) : option Refusal :=
  first_refusal (fun name =>
    let scope := go "services/" ++ name in
    refuse_if (negb (manifestName name)) CodeStepInvalid (go "services")
    ?> match services !! name with
       | None => None
       | Some service =>
           refuse_if (TrimSpace (sv_Image service) =s []) CodeStepInvalid scope
           ?> first_refusal (fun key => refuse_if (negb (serviceEnvKey key)) CodeStepInvalid scope) (sorted_keys (sv_Env service))
       end) (sorted_keys services).

Definition SelectImportGraph : gostring := go "import-graph".

Definition validateSelect (sel : option SelectSpec) : option Refusal :=
  match sel with
  | None => None
  | Some sel =>
      refuse_if (negb (se_Go sel =s []) && negb (se_Go sel =s SelectImportGraph)) CodeSelectInvalid (go "select")
      ?> first_refusal (fun entry => refuse_if (negb (bool_decide (is_Some (dbGatedTree entry)))) CodeSelectInvalid (go "select/dbGated"))
           (se_DBGated sel)
      ?> refuse_if (nonempty (se_Full sel) && negb (is_ok (PathSet (se_Full sel)))) CodeSelectInvalid (go "select/full")
      ?> (if nonempty (se_TestInputs sel) then
            refuse_if (negb (se_Go sel =s SelectImportGraph)) CodeSelectInvalid (go "select/testInputs")
            ?> first_refusal (fun glob =>
                 let body := TrimPrefix glob (go "!") in
                 refuse_if ((body =s dot_path) || negb (ValidPath body)) CodeSelectInvalid (go "select/testInputs")) (se_TestInputs sel)
            ?> refuse_if (negb (is_ok (PathSet (se_TestInputs sel)))) CodeSelectInvalid (go "select/testInputs")
          else None)
      ?> first_refusal (fun name =>
           let globs := default [] (se_Buckets sel !! name) in
           let scope := go "select/buckets/" ++ name in
           refuse_if (negb (manifestName name)) CodeSelectInvalid (go "select/buckets")
           ?> refuse_if (negb (nonempty globs)) CodeSelectInvalid scope
           ?> refuse_if (negb (is_ok (PathSet globs))) CodeSelectInvalid scope) (sorted_keys (se_Buckets sel))
  end.

(** ** The runtime of a step *)

Definition linux_platform (platform : gostring) : bool := memS platform [go "linux/amd64"; go "linux/arm64"].

Definition known_platform (platform : gostring) : bool :=
  linux_platform platform || memS platform [go "darwin/amd64"; go "darwin/arm64"].

(** The checks that answer an error: true is an error. *)
Definition CheckExecution (execution platform : gostring) (fleet : bool) : bool :=
  negb (memS execution [ExecutionContainer; ExecutionNative])
  || negb (platform =s []) && negb (known_platform platform)
  || (execution =s ExecutionContainer) && negb (platform =s []) && negb (linux_platform platform)
  || fleet && (platform =s []).

Definition CheckMemoryMiB (memory : Z) (native : bool) : bool :=
  negb (memory =? 0) && ((memory <? 128) || (1048576 <? memory) || native).

Definition CheckCPUMilli (cpu : Z) (native : bool) : bool :=
  negb (cpu =? 0) && ((cpu <? 1) || (256000 <? cpu) || native).

Definition CheckCheckoutHistory (history : gostring) (fleet : bool) : bool :=
  negb (history =s []) && (negb (history =s go "full") || fleet).

Definition CheckExecutionNeeds (execution : gostring) (needs : list gostring) : bool :=
  (execution =s ExecutionContainer) && nonempty needs.

Definition source_path (dockerfile : bool) (value : gostring) : bool :=
  negb ((value =s []) || (512 <? byte_len value)%nat || IsAbs value || negb (Clean value =s value)
        || (value =s dotdot) || HasPrefix value (go "../") || HasPrefix value (go "-")
        || contains_any value [92; 0; 13; 10] || dockerfile && (value =s dot_path)).

Definition CheckImageBuild (build : ImageBuild) (platform : gostring) : bool :=
  negb (linux_platform platform)
  || negb (source_path false (ib_Context build)) || negb (source_path true (ib_Dockerfile build))
  || negb (ib_Target build =s []) && negb (imageBuildName (ib_Target build))
  || (64 <? size (ib_Args build))%nat
  || existsb (fun '(key, value) =>
       (key =s go "MEMQL_COMMIT") || (key =s go "MEMQL_RELEASE")
       || negb (imageBuildName key) || (4096 <? byte_len value)%nat || ContainsRune value 0) (map_to_list (ib_Args build)).

Definition is_set {A} (o : option A) : bool := bool_decide (is_Some o).

Definition validateStepRuntime (spec : Spec) (step : StepSpec) (scope : gostring) : option Refusal :=
  let execution := ExecutionOf (st_Execution step) in
  let platform := PlatformOf spec step in
  let placement := PlacementOf step in
  let container := execution =s ExecutionContainer in
  let native := execution =s ExecutionNative in
  refuse_if (st_GitHubReadToken step && (negb container || negb (placement =s PlacementCluster))) CodeStepInvalid scope
  ?> match st_ImageBuild step with
     | None => None
     | Some build =>
         refuse_if (CheckImageBuild build platform) CodeStepInvalid scope
         ?> refuse_if ((st_MemoryMiB step <? 512) || negb (st_Run step =s []) || negb (st_Image step =s [])
                       || nonempty (st_Services step) || nonempty (cachesFor spec step) || nonempty (st_Secrets step)
                       || negb (st_ImagePullSecret step =s []) || nonempty (st_Artifacts step) || negb (st_Packages step =s [])
                       || negb container || negb (placement =s PlacementCluster) || nonempty (stepNeeds step)) CodeStepInvalid scope
     end
  ?> refuse_if (negb (st_Image step =s []) && (native || existsb isSpaceOrControl (st_Image step))) CodeStepInvalid scope
  ?> refuse_if (CheckCheckoutHistory (st_CheckoutHistory step) (placement =s PlacementFleet)) CodeStepInvalid scope
  ?> refuse_if (CheckCPUMilli (st_CPUMilli step) native) CodeStepInvalid scope
  ?> refuse_if (CheckMemoryMiB (st_MemoryMiB step) native) CodeStepInvalid scope
  ?> refuse_if (negb (st_ImagePullSecret step =s []) && (negb (placement =s PlacementCluster) || negb container)) CodeStepInvalid scope
  ?> refuse_if (memS (st_ImagePullSecret step) (st_Secrets step)) CodeSecretInvalid scope
  ?> refuse_if (negb (memS placement [PlacementCluster; PlacementFleet; PlacementPool])) CodeStepInvalid scope
  ?> refuse_if ((placement =s PlacementPool)
                && (negb container || nonempty (stepNeeds step) || is_set (st_ImageBuild step) || negb (st_CheckoutHistory step =s [])
                    || st_GitHubReadToken step || negb (st_ImagePullSecret step =s []))) CodeStepInvalid scope
  ?> refuse_if ((placement =s PlacementCluster) && (native || nonempty (stepNeeds step))) CodeStepInvalid scope
  ?> refuse_if (CheckExecutionNeeds execution (stepNeeds step)) CodeStepInvalid scope
  ?> refuse_if (CheckExecution execution platform (memS placement [PlacementFleet; PlacementPool])) CodeStepInvalid scope
  ?> refuse_if (native && (nonempty (st_Services step) || nonempty (cachesFor spec step))) CodeStepInvalid scope.

(** ** Verification, reports and repository changes *)

Definition hex_char_ok (c : rune) : bool := is_digit c || between 97 102 c || between 65 70 c.

(** strings.Cut at a separator: what is before it and after. *)
Fixpoint cut_at (s sep : gostring) : option (gostring * gostring) :=
  if HasPrefix s sep then Some ([], drop (length sep) s)
  else match s with
       | [] => None
       | c :: s' => match cut_at s' sep with Some (a, b) => Some (c :: a, b) | None => None end
       end.

(** sixty-four characters that hex.DecodeString reads *)
Definition digestPinnedImage (image : gostring) : bool :=
  match cut_at image (go "@sha256:") with
  | None => false
  | Some (name, digest) => negb (name =s []) && (byte_len digest =? 64)%nat && forallb hex_char_ok digest
  end.

Definition validateVerification (spec : Spec) (step : StepSpec) (scope : gostring) : option Refusal :=
  let image := or_text (st_Image step) (sp_Image spec) in
  let placement := PlacementOf step in
  refuse_if (is_set (st_ImageBuild step) || is_set (st_SARIF step) || is_set (st_RepositoryChange step) || st_GitHubReadToken step
             || nonempty (st_Secrets step) || negb (st_ImagePullSecret step =s []) || nonempty (st_Artifacts step)
             || negb (memS placement [PlacementCluster; PlacementPool])
             || negb (ExecutionOf (st_Execution step) =s ExecutionContainer) || negb (digestPinnedImage image)) CodeStepInvalid scope
  ?> first_refusal (fun name =>
       refuse_if (negb (digestPinnedImage (match sp_Services spec !! name with Some s => sv_Image s | None => [] end)))
         CodeStepInvalid scope) (st_Services step).

(** What a report or a repository change may not carry beside its own fields. *)
Definition carries_more (step : StepSpec) : bool :=
  st_GitHubReadToken step || negb (st_CheckoutHistory step =s []) || negb (st_Run step =s []) || is_set (st_ImageBuild step)
  || negb (st_Image step =s []) || negb (st_Execution step =s []) || negb (st_Placement step =s []) || negb (st_Platform step =s [])
  || negb (st_CPUMilli step =? 0) || negb (st_MemoryMiB step =? 0) || negb (st_Packages step =s []) || negb (st_Only step =s [])
  || negb (st_Shards step =? 0) || is_set (st_When step) || negb (size (st_Needs step) =? 0)%nat || nonempty (st_Services step)
  || is_set (st_Caches step) || nonempty (st_Secrets step) || negb (st_ImagePullSecret step =s []) || nonempty (st_Artifacts step)
  || is_set (st_Repeatable step).

(** A timeout of a delivery: one to ten minutes. *)
Definition bad_delivery_timeout (timeout : gostring) : bool :=
  negb (timeout =s [])
  && match ParseDuration timeout with Some d => (d <? minute) || (10 * minute <? d) | None => true end.

(** A step of an earlier stage that can produce what a report names. *)
Fixpoint has_producer (stages : list StageSpec) (stage key : gostring) : bool :=
  match stages with
  | [] => false
  | prior :: stages' =>
      if sg_Name prior =s stage then false
      else existsb (fun producer =>
             (StepKey (sg_Name prior) (st_Name producer) =s key) && negb (is_set (st_SARIF producer))
             && negb (is_set (st_RepositoryChange producer)) && negb (is_set (st_ImageBuild producer))
             && (st_Shards producer <=? 1) && nonempty (st_Artifacts producer)) (sg_Steps prior)
           || has_producer stages' stage key
  end.

Definition repositoryChangePath (p : gostring) : bool :=
  negb (p =s []) && (byte_len p <=? 512)%nat && (Clean p =s p) && negb (IsAbs p) && negb (p =s dot_path) && negb (p =s dotdot)
  && negb (HasPrefix p (go "../")) && negb (contains_any p [92; 0; 13; 10; 42; 63; 91; 93])
  && negb (HasPrefix p (go ".git/")) && negb (p =s go ".git").

Definition validateRepositoryChangeStep (spec : Spec) (stage : gostring) (step : StepSpec) (r : RepositoryChange) : option Refusal :=
  let scope := scope_of stage (st_Name step) in
  refuse_if (negb (repositoryChangeName (rc_Rule r)) || negb (repositoryChangePath (rc_Path r)) || negb (HasSuffix (rc_Path r) (go ".json")))
    CodeStepInvalid scope
  ?> refuse_if (is_set (st_SARIF step) || carries_more step) CodeStepInvalid scope
  ?> refuse_if (bad_delivery_timeout (st_Timeout step)) CodeStepInvalid scope
  ?> refuse_if (negb (has_producer (sp_Stages spec) stage (rc_Step r))) CodeStepInvalid scope.

Definition validateSARIFStep (spec : Spec) (stage : gostring) (step : StepSpec) (r : SARIFReport) : option Refusal :=
  let scope := scope_of stage (st_Name step) in
  refuse_if ((sr_Path r =s []) || (1024 <? byte_len (sr_Path r))%nat || negb (Clean (sr_Path r) =s sr_Path r)
             || HasPrefix (sr_Path r) slash || HasPrefix (sr_Path r) (go "../")
             || contains_any (sr_Path r) [92; 0; 13; 10; 42; 63; 91; 93] || negb (HasSuffix (sr_Path r) (go ".sarif"))) CodeStepInvalid scope
  ?> refuse_if (is_set (st_RepositoryChange step) || carries_more step) CodeStepInvalid scope
  ?> refuse_if (bad_delivery_timeout (st_Timeout step)) CodeStepInvalid scope
  ?> refuse_if (negb (has_producer (sp_Stages spec) stage (sr_Step r))) CodeStepInvalid scope.

(** ** A step *)

Definition bad_timeout (timeout : gostring) : bool :=
  negb (timeout =s [])
  && match ParseDuration timeout with Some d => (d <? minStepTimeout) || (MaxStepTimeout <? d) | None => true end.

Definition validateStep (spec : Spec) (stage : gostring) (j : nat) (step : StepSpec) (seen : list gostring) : option Refusal :=
  let unnamed := stage ++ go "/" ++ indexed (go "steps") j in
  let scope := scope_of stage (st_Name step) in
  let selects := negb (st_Packages step =s []) in
  refuse_if (st_Name step =s []) CodeStepInvalid unnamed
  ?> refuse_if (negb (manifestName (st_Name step))) CodeStepInvalid unnamed
  ?> refuse_if (memS (st_Name step) seen) CodeStepInvalid scope
  ?> refuse_if (st_Verification step && match st_Repeatable step with Some false => true | _ => false end) CodeStepInvalid scope
  ?> (if st_Verification step then validateVerification spec step scope else None)
  ?> match st_RepositoryChange step, st_SARIF step with
     | Some r, _ => validateRepositoryChangeStep spec stage step r
     | None, Some r => validateSARIFStep spec stage step r
     | None, None =>
         refuse_if ((TrimSpace (st_Run step) =s []) && negb (is_set (st_ImageBuild step))) CodeStepInvalid scope
         ?> refuse_if (negb (memS (st_Packages step) [[]; go "affected"; go "all"])) CodeStepInvalid scope
         ?> refuse_if (negb (memS (st_Only step) [[]; go "db-gated"; go "not-db-gated"])) CodeStepInvalid scope
         ?> refuse_if (negb (st_Only step =s []) && negb selects) CodeStepInvalid scope
         ?> refuse_if (nonempty (st_PackageRoots step) && negb selects) CodeStepInvalid scope
         ?> first_refusal (fun root => refuse_if (negb (is_set (dbGatedTree root))) CodeStepInvalid scope) (st_PackageRoots step)
         ?> (if selects then
               match sp_Select spec with
               | None => Some (mkRefusal CodeSelectMissing scope)
               | Some sel => refuse_if (negb (se_Go sel =s SelectImportGraph)) CodeSelectMissing scope
               end
             else None)
         ?> refuse_if (negb (st_Only step =s []) && match sp_Select spec with None => true | Some sel => negb (nonempty (se_DBGated sel)) end)
              CodeSelectInvalid scope
         ?> refuse_if ((st_Shards step <? 0) || (MaxShards <? st_Shards step)) CodeStepInvalid scope
         ?> refuse_if ((1 <? st_Shards step) && negb selects) CodeStepInvalid scope
         ?> match st_When step with
            | None => None
            | Some bucket =>
                refuse_if (negb (match sp_Select spec with None => false | Some sel => is_set (se_Buckets sel !! bucket) end)) CodeBucketUnknown scope
            end
         ?> refuse_if (existsb (fun need => negb (IsNeed need)) (sorted_keys (st_Needs step))) CodeNeedUnknown scope
         ?> first_refusal (fun name => refuse_if (negb (is_set (sp_Services spec !! name))) CodeServiceUnknown scope) (st_Services step)
         ?> refuse_if (bad_timeout (st_Timeout step)) CodeStepInvalid scope
         ?> first_refusal (fun name =>
              refuse_if (negb (secretName name)) CodeSecretInvalid scope
              ?> refuse_if (HasPrefix name (go "MEMQL_")) CodeSecretInvalid scope) (SecretNames step)
         ?> validateStepRuntime spec step scope
     end.

Fixpoint validateSteps (spec : Spec) (stage : gostring) (j : nat) (steps : list StepSpec) (seen : list gostring) : option Refusal :=
  match steps with
  | [] => None
  | step :: steps' => validateStep spec stage j step seen ?> validateSteps spec stage (S j) steps' (st_Name step :: seen)
  end.

(** ** A stage *)

Section URL.
Context `{GoURL}.

Definition validateLinkURL (stage raw : gostring) : option Refusal :=
  match url_Parse raw with
  | None => Some (mkRefusal CodeStageInvalid stage)
  | Some (scheme, hostname, user) =>
      refuse_if (negb (scheme =s go "https") || (hostname =s []) || existsb isSpaceOrControl raw) CodeStageInvalid stage
      ?> refuse_if user CodeStageInvalid stage
      ?> refuse_if (maxLinkURLBytes <? byte_len raw)%nat CodeStageInvalid stage
  end.

Definition validateLinks (stage : gostring) (links : list Link) : option Refusal :=
  refuse_if (maxStageLinks <? length links)%nat CodeStageInvalid stage
  ?> first_refusal (fun link =>
       let label := TrimSpace (l_Label link) in
       refuse_if (length label =? 0)%nat CodeStageInvalid stage
       ?> refuse_if (maxLinkLabelRunes <? length label)%nat CodeStageInvalid stage
       ?> validateLinkURL stage (l_URL link)) links.

Definition cadence (s : gostring) : bool := memS s [go "daily"; go "weekly"].

Definition validateStage (spec : Spec) (i : nat) (stage : StageSpec) (earlier : list gostring) : option Refusal :=
  let name := sg_Name stage in
  refuse_if (negb (sg_Schedule stage =s [])
             && (negb (cadence (sg_Schedule stage)) || (sp_Schedule spec =s []) || negb (memS (go "schedule") (sg_On stage))))
    CodeStageInvalid name
  ?> refuse_if (name =s []) CodeStageInvalid (indexed (go "stages") i)
  ?> refuse_if (negb (manifestName name)) CodeStageInvalid (indexed (go "stages") i)
  ?> refuse_if (memS name earlier) CodeStageInvalid name
  ?> first_refusal (fun need => refuse_if (negb (memS need earlier)) CodeStageInvalid name) (sg_Needs stage)
  ?> first_refusal (fun on =>
       refuse_if (negb (memS on stageOnValues)) CodeEventUnknown name
       ?> refuse_if ((on =s go "schedule") && (sp_Schedule spec =s [])) CodeStageInvalid name) (sg_On stage)
  ?> (if negb (sg_Channel stage =s []) then
        refuse_if (nonempty (sg_Steps stage)) CodeStageInvalid name
        ?> refuse_if (negb (manifestName (sg_Channel stage))) CodeStageInvalid name
        ?> validateLinks name (sg_Links stage)
      else
        refuse_if (negb (nonempty (sg_Steps stage))) CodeStageInvalid name
        ?> refuse_if (nonempty (sg_Links stage)) CodeStageInvalid name
        ?> validateSteps spec name 0 (sg_Steps stage) []).

Fixpoint validateStages (spec : Spec) (i : nat) (stages : list StageSpec) (earlier : list gostring) : option Refusal :=
  match stages with
  | [] => None
  | stage :: stages' => validateStage spec i stage earlier ?> validateStages spec (S i) stages' (sg_Name stage :: earlier)
  end.

Definition hasScheduledStage (spec : Spec) : bool := existsb (fun stage => memS (go "schedule") (sg_On stage)) (sp_Stages spec).

Definition Validate (spec : option Spec) : option Refusal :=
  match spec with
  | None => Some (mkRefusal CodeNotDeclared [])
  | Some spec =>
      refuse_if (negb (sp_Workflow spec =s []) && negb (workflowName (sp_Workflow spec))) CodeStageInvalid (go "workflow")
      ?> refuse_if (negb (sp_Schedule spec =s []) && negb (cadence (sp_Schedule spec))) CodeStageInvalid (go "schedule")
      ?> refuse_if (negb (nonempty (sp_Stages spec))) CodeStageInvalid []
      ?> validateServices (sp_Services spec)
      ?> validateSelect (sp_Select spec)
      ?> validateStages spec 0 (sp_Stages spec) []
      ?> refuse_if (negb (sp_Schedule spec =s []) && negb (hasScheduledStage spec)) CodeStageInvalid (go "schedule")
  end.
End URL.
