(* ===== verification/Plan.v ===== *)
(** Compiling a manifest to the plan one run executes: component/pipelines/compile.go
    with the step and plan types of contract.go.

    A Selector is a record of its answers.  A plan shares nothing with what it was
    compiled from, since values are not shared here at all.  The reason of a skip is
    left out but for its code. *)

From S2P Require Import Prelude GoText GoSort Strconv GoPath GoGraph Selection Shards Durations Manifest Validate.

(** ** Types *)

Inductive Mode := ModeAffected | ModeFull.

Inductive Event := EventPullRequest | EventMergeGroup | EventPush | EventRelease | EventSchedule | EventManual.

Inductive Compute := ComputeUnset | ComputeCluster | ComputeClusterAndFleet.

Inductive StepKind := StepCommand | StepNotify | StepSARIF | StepRepositoryChange.

Record ShardRef := mkShard { sh_Index : Z; sh_Count : Z }.

Inductive Skip := NoChangeUnder (bucket : gostring) | NoAffectedPackages | NoDBGatedAffected.

Record Step := mkStep {
  x_Verification : bool;
  x_GitHubReadToken : bool;
  x_CheckoutHistory : gostring;
  x_RepositoryChange : option RepositoryChange;
  x_SARIF : option SARIFReport;
  x_CPUMilli : Z;
  x_ImageBuild : option ImageBuild;
  x_MemoryMiB : Z;
  x_Repeatable : bool;
  x_RunAfterFailure : bool;
  x_Placement : gostring;
  x_Execution : gostring;
  x_Platform : gostring;
  x_Key : gostring;
  x_Stage : gostring;
  x_Name : gostring;
  x_Kind : StepKind;
  x_Run : gostring;
  x_Image : gostring;
  x_Services : gmap gostring Service;
  x_Caches : list gostring;
  x_Needs : list gostring;
  x_TimeoutSeconds : Z;
  x_Artifacts : list gostring;
  x_Secrets : list gostring;
  x_ImagePullSecret : gostring;
  x_Packages : list gostring;
  x_Shard : ShardRef;
  x_Balanced : bool;
  x_Channel : gostring;
  x_Links : list Link;
  x_DependsOn : list gostring;
  x_Skip : option Skip
}.

Record PlanStage := mkPlanStage { ps_Name : gostring; ps_Needs : list gostring; ps_Steps : list Step }.

Record Plan := mkPlan { pl_Workflow : gostring; pl_Mode : Mode; pl_Event : Event; pl_Stages : list PlanStage }.

Definition Steps (p : Plan) : list Step := pl_Stages p ≫= ps_Steps.

Record Selector := mkSelector { so_All : list gostring; so_Affected : Selection; so_DirOf : gostring -> gostring }.

Record PackagePolicy := mkPolicy { pp_Coverage : gostring; pp_Filter : gostring }.

Record CompileInput := mkInput {
  ci_Mode : Mode;
  ci_Event : Event;
  ci_Compute : Compute;
  ci_StageSelection : option (list gostring);
  ci_AllowedSecrets : list gostring;
  ci_Selector : option Selector;
  ci_PackagePolicies : gmap gostring PackagePolicy;
  ci_BucketSelection : option (list gostring);
  ci_Timings : gmap gostring float64
}.

(** ** What a manifest asks for *)

Definition NeedsSelector (spec : Spec) : bool :=
  existsb (fun stage => existsb (fun step => negb (st_Packages step =s [])) (sg_Steps stage)) (sp_Stages spec).

Definition NeedsBucketSelection (spec : Spec) : bool :=
  existsb (fun stage => existsb (fun step => is_set (st_When step)) (sg_Steps stage)) (sp_Stages spec).

Definition repeatableOf (spec : Spec) (step : StepSpec) : bool :=
  if st_Verification step then true else default (sp_Repeatable spec) (st_Repeatable step).

Definition stepTimeoutSeconds (timeout : gostring) : Z :=
  (if timeout =s [] then DefaultStepTimeout else default DefaultStepTimeout (ParseDuration timeout)) ÷ 1000000000.

(** ** Consent *)

Definition stepConsent (scope : gostring) (declared : StepSpec) (compute : Compute) (allowedSecrets : list gostring) : option Refusal :=
  refuse_if (memS (PlacementOf declared) [PlacementFleet; PlacementPool]
             && match compute with ComputeClusterAndFleet => false | _ => true end) CodeFleetNotConsented scope
  ?> refuse_if (existsb (fun name => negb (memS name allowedSecrets)) (SecretNames declared)) CodeSecretNotAllowed scope.

Definition Consent (spec : option Spec) (compute : Compute) (allowedSecrets : list gostring) : option Refusal :=
  match spec with
  | None => None
  | Some spec =>
      first_refusal (fun stage =>
        first_refusal (fun step => stepConsent (scope_of (sg_Name stage) (st_Name step)) step compute allowedSecrets) (sg_Steps stage))
        (sp_Stages spec)
  end.

(** ** A step *)

Definition ImageBuildArtifacts : list gostring :=
  [go ".memql-image-build/image.oci.tar"; go ".memql-image-build/metadata.json"].

(** A step of which only what it is and when it runs is set. *)
Definition bare_step (stage name : gostring) (kind : StepKind) (timeout : Z) (dependsOn : list gostring) : Step :=
  {| x_Verification := false; x_GitHubReadToken := false; x_CheckoutHistory := []; x_RepositoryChange := None; x_SARIF := None;
     x_CPUMilli := 0; x_ImageBuild := None; x_MemoryMiB := 0; x_Repeatable := false; x_RunAfterFailure := false;
     x_Placement := []; x_Execution := []; x_Platform := []; x_Key := StepKey stage name; x_Stage := stage; x_Name := name;
     x_Kind := kind; x_Run := []; x_Image := []; x_Services := ∅; x_Caches := []; x_Needs := []; x_TimeoutSeconds := timeout;
     x_Artifacts := []; x_Secrets := []; x_ImagePullSecret := []; x_Packages := []; x_Shard := mkShard 0 0; x_Balanced := false;
     x_Channel := []; x_Links := []; x_DependsOn := dependsOn; x_Skip := None |}.

Definition with_change (s : Step) (change : RepositoryChange) : Step :=
  mkStep (x_Verification s) (x_GitHubReadToken s) (x_CheckoutHistory s) (Some change) (x_SARIF s) (x_CPUMilli s) (x_ImageBuild s)
    (x_MemoryMiB s) (x_Repeatable s) (x_RunAfterFailure s) (x_Placement s) (x_Execution s) (x_Platform s) (x_Key s) (x_Stage s)
    (x_Name s) (x_Kind s) (x_Run s) (x_Image s) (x_Services s) (x_Caches s) (x_Needs s) (x_TimeoutSeconds s) (x_Artifacts s)
    (x_Secrets s) (x_ImagePullSecret s) (x_Packages s) (x_Shard s) (x_Balanced s) (x_Channel s) (x_Links s) (x_DependsOn s) (x_Skip s).

Definition with_report (s : Step) (report : SARIFReport) : Step :=
  mkStep (x_Verification s) (x_GitHubReadToken s) (x_CheckoutHistory s) (x_RepositoryChange s) (Some report) (x_CPUMilli s)
    (x_ImageBuild s) (x_MemoryMiB s) (x_Repeatable s) (x_RunAfterFailure s) (x_Placement s) (x_Execution s) (x_Platform s) (x_Key s)
    (x_Stage s) (x_Name s) (x_Kind s) (x_Run s) (x_Image s) (x_Services s) (x_Caches s) (x_Needs s) (x_TimeoutSeconds s)
    (x_Artifacts s) (x_Secrets s) (x_ImagePullSecret s) (x_Packages s) (x_Shard s) (x_Balanced s) (x_Channel s) (x_Links s)
    (x_DependsOn s) (x_Skip s).

(** A step with its packages, as a shard under its own key or whole. *)
Definition with_packages (s : Step) (key : gostring) (packages : list gostring) (shard : ShardRef) : Step :=
  mkStep (x_Verification s) (x_GitHubReadToken s) (x_CheckoutHistory s) (x_RepositoryChange s) (x_SARIF s) (x_CPUMilli s)
    (x_ImageBuild s) (x_MemoryMiB s) (x_Repeatable s) (x_RunAfterFailure s) (x_Placement s) (x_Execution s) (x_Platform s) key
    (x_Stage s) (x_Name s) (x_Kind s) (x_Run s) (x_Image s) (x_Services s) (x_Caches s) (x_Needs s) (x_TimeoutSeconds s)
    (x_Artifacts s) (x_Secrets s) (x_ImagePullSecret s) packages shard (x_Balanced s) (x_Channel s) (x_Links s)
    (x_DependsOn s) (x_Skip s).

Definition with_skip (s : Step) (skip : Skip) : Step :=
  mkStep (x_Verification s) (x_GitHubReadToken s) (x_CheckoutHistory s) (x_RepositoryChange s) (x_SARIF s) (x_CPUMilli s)
    (x_ImageBuild s) (x_MemoryMiB s) (x_Repeatable s) (x_RunAfterFailure s) (x_Placement s) (x_Execution s) (x_Platform s) (x_Key s)
    (x_Stage s) (x_Name s) (x_Kind s) (x_Run s) (x_Image s) (x_Services s) (x_Caches s) (x_Needs s) (x_TimeoutSeconds s)
    (x_Artifacts s) (x_Secrets s) (x_ImagePullSecret s) (x_Packages s) (x_Shard s) (x_Balanced s) (x_Channel s) (x_Links s)
    (x_DependsOn s) (Some skip).

Definition with_run_after_failure (b : bool) (s : Step) : Step :=
  mkStep (x_Verification s) (x_GitHubReadToken s) (x_CheckoutHistory s) (x_RepositoryChange s) (x_SARIF s) (x_CPUMilli s)
    (x_ImageBuild s) (x_MemoryMiB s) (x_Repeatable s) b (x_Placement s) (x_Execution s) (x_Platform s) (x_Key s) (x_Stage s)
    (x_Name s) (x_Kind s) (x_Run s) (x_Image s) (x_Services s) (x_Caches s) (x_Needs s) (x_TimeoutSeconds s) (x_Artifacts s)
    (x_Secrets s) (x_ImagePullSecret s) (x_Packages s) (x_Shard s) (x_Balanced s) (x_Channel s) (x_Links s) (x_DependsOn s) (x_Skip s).

Definition servicesFor (spec : Spec) (names : list gostring) : gmap gostring Service :=
  foldl (fun out name => <[name := default (mkService [] ∅ []) (sp_Services spec !! name)]> out) ∅ names.

(** A command step as it is declared, before what it selects is decided. *)
Definition command_step (spec : Spec) (stage : gostring) (declared : StepSpec) (dependsOn : list gostring) : Step :=
  let execution := ExecutionOf (st_Execution declared) in
  {| x_Verification := st_Verification declared; x_GitHubReadToken := st_GitHubReadToken declared;
     x_CheckoutHistory := st_CheckoutHistory declared; x_RepositoryChange := None; x_SARIF := None;
     x_CPUMilli := st_CPUMilli declared; x_ImageBuild := st_ImageBuild declared; x_MemoryMiB := st_MemoryMiB declared;
     x_Repeatable := repeatableOf spec declared; x_RunAfterFailure := false; x_Placement := PlacementOf declared;
     x_Execution := execution; x_Platform := PlatformOf spec declared; x_Key := StepKey stage (st_Name declared);
     x_Stage := stage; x_Name := st_Name declared; x_Kind := StepCommand; x_Run := st_Run declared;
     x_Image := if (execution =s ExecutionNative) || is_set (st_ImageBuild declared) then [] else or_text (st_Image declared) (sp_Image spec);
     x_Services := servicesFor spec (st_Services declared); x_Caches := cachesFor spec declared; x_Needs := stepNeeds declared;
     x_TimeoutSeconds := stepTimeoutSeconds (st_Timeout declared);
     x_Artifacts := if is_set (st_ImageBuild declared) then ImageBuildArtifacts else st_Artifacts declared;
     x_Secrets := st_Secrets declared; x_ImagePullSecret := st_ImagePullSecret declared; x_Packages := [];
     x_Shard := mkShard 0 0; x_Balanced := 1 <? st_Shards declared; x_Channel := []; x_Links := []; x_DependsOn := dependsOn;
     x_Skip := None |}.

(** ** Packages *)

Definition dbGated (trees : list gostring) (selector : Selector) (importPath : gostring) : bool :=
  let dir := so_DirOf selector importPath in
  if dir =s [] then false
  else
    let dir := Clean dir in
    existsb (fun tree => (dir =s tree) || negb (tree =s dot_path) && HasPrefix dir (tree ++ slash)) trees.

Definition under_roots (roots : list gostring) (dir : gostring) : bool :=
  existsb (fun root =>
    let root := default [] (dbGatedTree root) in
    (root =s dot_path) || (dir =s root) || HasPrefix dir (root ++ slash)) roots.

Definition PackageFilterAll : gostring := go "all".
Definition PackageFilterDBGated : gostring := go "db-gated".
Definition PackageFilterNotDBGated : gostring := go "not-db-gated".

Definition PackageCoverageAll : gostring := go "all".
Definition PackageCoverageAffected : gostring := go "affected".

(** The packages kept of those selected, or a refusal for one with no directory. *)
Fixpoint keep_packages (trees roots : list gostring) (selector : Selector) (filter scope : gostring) (pkgs : list gostring)
    : result Refusal (list gostring) :=
  match pkgs with
  | [] => Ok []
  | pkg :: pkgs' =>
      let rest := keep_packages trees roots selector filter scope pkgs' in
      let dir := so_DirOf selector pkg in
      if nonempty roots && (dir =s []) then Err (mkRefusal CodeSelectInvalid scope)
      else if nonempty roots && negb (under_roots roots dir) then rest
      else if filter =s PackageFilterAll then cons pkg <$> rest
      else if filter =s PackageFilterDBGated then if dbGated trees selector pkg then cons pkg <$> rest else rest
      else if filter =s PackageFilterNotDBGated then if dbGated trees selector pkg then rest else cons pkg <$> rest
      else Err (mkRefusal CodeSelectInvalid scope)
  end.

Definition packagesFor (in_ : CompileInput) (trees : list gostring) (selector : Selector) (stage : gostring) (declared : StepSpec)
    : result Refusal (list gostring) :=
  let key := StepKey stage (st_Name declared) in
  let scope := go "selection/" ++ key in
  let policy := default (mkPolicy [] []) (ci_PackagePolicies in_ !! key) in
  let candidates :=
    if pp_Coverage policy =s PackageCoverageAll then Some (so_All selector)
    else if pp_Coverage policy =s PackageCoverageAffected then Some (sel_Packages (so_Affected selector))
    else None in
  match candidates with
  | None => Err (mkRefusal CodeSelectInvalid scope)
  | Some l => keep_packages trees (st_PackageRoots declared) selector (pp_Filter policy) scope (compact (sort_strings l))
  end.

(** The check of a step's package policy. *)
Definition check_policy (in_ : CompileInput) (stage scope : gostring) (declared : StepSpec) : option Refusal :=
  if st_Packages declared =s [] then None
  else match ci_Selector in_ with
       | None => Some (mkRefusal CodeSelectMissing scope)
       | Some selector =>
           match ci_PackagePolicies in_ !! StepKey stage (st_Name declared) with
           | None => Some (mkRefusal CodeSelectMissing scope)
           | Some policy =>
               (if pp_Coverage policy =s PackageCoverageAll then None
                else if pp_Coverage policy =s PackageCoverageAffected then refuse_if (sel_Full (so_Affected selector)) CodeSelectInvalid scope
                else Some (mkRefusal CodeSelectInvalid scope))
               ?> refuse_if (negb (memS (pp_Filter policy) [PackageFilterAll; PackageFilterDBGated; PackageFilterNotDBGated])) CodeSelectInvalid scope
           end
       end.

(** One step for each shard, in order. *)
Definition shard_steps (step : Step) (shards : list (list gostring)) : list Step :=
  imap (fun i packages =>
    with_packages step (x_Key step ++ go "#" ++ FormatInt (Z.of_nat (S i))) packages
      (mkShard (Z.of_nat (S i)) (Z.of_nat (length shards)))) shards.

(** A delivery the driver makes itself: five minutes unless it says. *)
Definition delivery_timeout (timeout : gostring) : Z := if timeout =s [] then 5 * 60 else stepTimeoutSeconds timeout.

Definition compileStep (spec : Spec) (in_ : CompileInput) (trees buckets : list gostring) (stage : gostring) (dependsOn : list gostring)
    (declared : StepSpec) : result Refusal (list Step) :=
  let scope := scope_of stage (st_Name declared) in
  let delivery kind := bare_step stage (st_Name declared) kind (delivery_timeout (st_Timeout declared)) dependsOn in
  match st_RepositoryChange declared, st_SARIF declared with
  | Some change, _ => Ok [with_change (delivery StepRepositoryChange) change]
  | None, Some report => Ok [with_report (delivery StepSARIF) report]
  | None, None =>
      match stepConsent scope declared (ci_Compute in_) (ci_AllowedSecrets in_) ?> check_policy in_ stage scope declared with
      | Some r => Err r
      | None =>
          let step := command_step spec stage declared dependsOn in
          let skipped := match st_When declared with Some bucket => if memS bucket buckets then None else Some bucket | None => None end in
          match skipped, ci_Selector in_ with
          | Some bucket, _ => Ok [with_skip step (NoChangeUnder bucket)]
          | None, None => Ok [step]
          | None, Some selector =>
              if st_Packages declared =s [] then Ok [step]
              else match packagesFor in_ trees selector stage declared with
                   | Err r => Err r
                   | Ok [] =>
                       let policy := default (mkPolicy [] []) (ci_PackagePolicies in_ !! StepKey stage (st_Name declared)) in
                       Ok [with_skip step (if pp_Filter policy =s PackageFilterDBGated then NoDBGatedAffected else NoAffectedPackages)]
                   | Ok candidates =>
                       let shards := if 1 <? st_Shards declared then Partition candidates (ci_Timings in_) (st_Shards declared) else [] in
                       if (1 <? length shards)%nat then Ok (shard_steps step shards)
                       else Ok [with_packages step (x_Key step) candidates (x_Shard step)]
                   end
          end
      end
  end.

(** ** Compile *)

Fixpoint compile_steps (compile : StepSpec -> result Refusal (list Step)) (steps : list StepSpec) : result Refusal (list Step) :=
  match steps with
  | [] => Ok []
  | step :: steps' =>
      match compile step with
      | Err r => Err r
      | Ok l => app l <$> compile_steps compile steps'
      end
  end.

Definition notify_step (stage : StageSpec) (previous : list gostring) : Step :=
  let s := bare_step (sg_Name stage) (go "notify") StepNotify (DefaultStepTimeout ÷ 1000000000) previous in
  mkStep (x_Verification s) (x_GitHubReadToken s) (x_CheckoutHistory s) (x_RepositoryChange s) (x_SARIF s) (x_CPUMilli s)
    (x_ImageBuild s) (x_MemoryMiB s) (x_Repeatable s) (x_RunAfterFailure s) (x_Placement s) (x_Execution s) (x_Platform s) (x_Key s)
    (x_Stage s) (x_Name s) (x_Kind s) (x_Run s) (x_Image s) (x_Services s) (x_Caches s) (x_Needs s) (x_TimeoutSeconds s)
    (x_Artifacts s) (x_Secrets s) (x_ImagePullSecret s) (x_Packages s) (x_Shard s) (x_Balanced s) (sg_Channel stage) (sg_Links stage)
    (x_DependsOn s) (x_Skip s).

(** One stage, its steps waiting for those of the stage planned before it. *)
Definition compile_stage (spec : Spec) (in_ : CompileInput) (trees buckets previous : list gostring) (stage : StageSpec)
    : result Refusal PlanStage :=
  let steps :=
    if negb (sg_Channel stage =s []) then Ok [notify_step stage previous]
    else compile_steps (compileStep spec in_ trees buckets (sg_Name stage) previous) (sg_Steps stage) in
  (fun steps => mkPlanStage (sg_Name stage) (sg_Needs stage) (with_run_after_failure (sg_RunAfterFailure stage) <$> steps)) <$> steps.

Fixpoint compile_stages (spec : Spec) (in_ : CompileInput) (trees buckets : list gostring) (selected : option (list gostring))
    (previous : list gostring) (stages : list StageSpec) : result Refusal (list PlanStage) :=
  match stages with
  | [] => Ok []
  | stage :: stages' =>
      if match selected with Some names => negb (memS (sg_Name stage) names) | None => false end
      then compile_stages spec in_ trees buckets selected previous stages'
      else match compile_stage spec in_ trees buckets previous stage with
           | Err r => Err r
           | Ok planned => cons planned <$> compile_stages spec in_ trees buckets selected (x_Key <$> ps_Steps planned) stages'
           end
  end.

(** Names chosen by a policy: each one known, and once. *)
Fixpoint chosen_ok (known : gostring -> bool) (seen names : list gostring) : bool :=
  match names with
  | [] => true
  | name :: names' => known name && negb (memS name seen) && chosen_ok known (name :: seen) names'
  end.

(** A step that reads what another produced comes after it in the plan. *)
Fixpoint producers_planned (planned : list gostring) (steps : list Step) : option Refusal :=
  match steps with
  | [] => None
  | s :: steps' =>
      refuse_if (match x_RepositoryChange s with Some c => negb (memS (rc_Step c) planned) | None => false end) CodeStepInvalid (x_Key s)
      ?> refuse_if (match x_SARIF s with Some r => negb (memS (sr_Step r) planned) | None => false end) CodeStepInvalid (x_Key s)
      ?> producers_planned (x_Key s :: planned) steps'
  end.

Definition package_step_keys (spec : Spec) : list gostring :=
  sp_Stages spec ≫= (fun stage => StepKey (sg_Name stage) ∘ st_Name <$> List.filter (fun s => negb (st_Packages s =s [])) (sg_Steps stage)).

(** The refusals of a compile's input, before any stage is compiled. *)
Definition check_input (spec : Spec) (in_ : CompileInput) : option Refusal :=
  refuse_if (negb (is_set (ci_StageSelection in_)) && existsb (fun stage => nonempty (sg_On stage)) (sp_Stages spec))
    CodeStageInvalid (go "selection")
  ?> refuse_if (negb (NeedsSelector spec) && negb (size (ci_PackagePolicies in_) =? 0)%nat) CodeSelectInvalid (go "selection")
  ?> first_refusal (fun key => refuse_if (negb (memS key (package_step_keys spec))) CodeSelectInvalid (go "selection/" ++ key))
       (sortedMapKeys (ci_PackagePolicies in_))
  ?> refuse_if (NeedsBucketSelection spec && negb (is_set (ci_BucketSelection in_))) CodeSelectMissing (go "selection")
  ?> match ci_BucketSelection in_ with
     | None => None
     | Some names =>
         refuse_if (negb (chosen_ok (fun name => match sp_Select spec with Some sel => is_set (se_Buckets sel !! name) | None => false end) [] names))
           CodeSelectMissing (go "selection")
     end
  ?> match ci_StageSelection in_ with
     | None => None
     | Some names => refuse_if (negb (chosen_ok (fun name => memS name (sg_Name <$> sp_Stages spec)) [] names)) CodeStageInvalid (go "selection")
     end.

Section Compile.
Context `{GoURL}.

Definition Compile (spec : option Spec) (in_ : CompileInput) : result Refusal Plan :=
  match spec, Validate spec with
  | _, Some r => Err r
  | None, None => Err (mkRefusal CodeNotDeclared [])
  | Some spec, None =>
      match check_input spec in_ with
      | Some r => Err r
      | None =>
          let trees := match sp_Select spec with Some sel => omap dbGatedTree (se_DBGated sel) | None => [] end in
          let buckets := default [] (ci_BucketSelection in_) in
          match compile_stages spec in_ trees buckets (ci_StageSelection in_) [] (sp_Stages spec) with
          | Err r => Err r
          | Ok stages =>
              let plan := mkPlan (sp_Workflow spec) (ci_Mode in_) (ci_Event in_) stages in
              match producers_planned [] (Steps plan) with
              | Some r => Err r
              | None => Ok plan
              end
          end
      end
  end.
End Compile.
