(* ===== verification/PlanFacts.v ===== *)
(** What a compiled plan guarantees the run that executes it. *)

From Stdlib Require Import Sorting.Sorted.
From S2P Require Import Prelude GoText GoSort Strconv HeadFacts GoPath GoGraph AffectedFacts Selection Shards Durations Manifest Validate Plan.

(** ** Checks that pass *)

Lemma or_else_None r next : r ?> next = None <-> r = None /\ next = None.
Proof. destruct r; cbn; naive_solver. Qed.

Lemma refuse_if_None b c scope : refuse_if b c scope = None <-> b = false.
Proof. destruct b; cbn; naive_solver. Qed.

Lemma first_refusal_None {A} (f : A -> option Refusal) l : first_refusal f l = None <-> forall x, x ∈ l -> f x = None.
Proof.
  induction l as [|x l IH]; cbn; [split; [by intros _ ? ?%elem_of_nil|done]|].
  change (foldr (fun y r => f y ?> r) None l) with (first_refusal f l). rewrite or_else_None, IH. setoid_rewrite elem_of_cons. naive_solver.
Qed.

Ltac passed :=
  repeat match goal with
  | H : or_else _ _ = None |- _ => apply or_else_None in H as [? H]
  | H : refuse_if _ _ _ = None |- _ => apply refuse_if_None in H
  end.

Lemma memS_elem s l : memS s l = true <-> s ∈ l.
Proof. rewrite memS_In. symmetry. apply list_elem_of_In. Qed.

Lemma memS_false s l : memS s l = false <-> s ∉ l.
Proof. rewrite <- memS_elem. destruct (memS s l); naive_solver. Qed.

(** ** What validation leaves *)

(** A step the manifest may hold. *)
Record valid_step (d : StepSpec) : Prop := {
  vs_name : manifestName (st_Name d) = true;
  vs_timeout : st_Timeout d <> [] -> exists t, ParseDuration (st_Timeout d) = Some t /\ minStepTimeout <= t <= MaxStepTimeout;
  vs_command : st_RepositoryChange d = None -> st_SARIF d = None ->
    0 <= st_Shards d <= MaxShards
    /\ CheckMemoryMiB (st_MemoryMiB d) (ExecutionOf (st_Execution d) =s ExecutionNative) = false
    /\ CheckCPUMilli (st_CPUMilli d) (ExecutionOf (st_Execution d) =s ExecutionNative) = false
}.

Lemma timeout_bounds timeout lo hi : negb (timeout =s [])
  && match ParseDuration timeout with Some d => (d <? lo) || (hi <? d) | None => true end = false ->
  timeout <> [] -> exists t, ParseDuration timeout = Some t /\ lo <= t <= hi.
Proof.
  intros Hb Hn. apply eqs_false in Hn. rewrite Hn in Hb. cbn in Hb. destruct (ParseDuration timeout) as [t|]; [|done].
  apply orb_false_iff in Hb as [?%Z.ltb_ge ?%Z.ltb_ge]. by exists t.
Qed.

Lemma validateStep_valid spec stage j d seen : validateStep spec stage j d seen = None -> valid_step d /\ st_Name d ∉ seen.
Proof.
  unfold validateStep. intros Hv. passed. rename select (memS (st_Name d) seen = false) into Hs. apply memS_false in Hs. split; [|done].
  rename select (negb (manifestName _) = false) into Hn. apply negb_false_iff in Hn.
  destruct (st_RepositoryChange d) as [r|] eqn:Er; [|destruct (st_SARIF d) as [r|] eqn:Es].
  - unfold validateRepositoryChangeStep in Hv. passed. rename select (bad_delivery_timeout _ = false) into Ht.
    split; [done| |by rewrite Er]. intros Hne. destruct (timeout_bounds _ _ _ Ht Hne) as (t & ? & ?). exists t.
    split; [done|]. unfold minStepTimeout, MaxStepTimeout, hour, minute in *. lia.
  - unfold validateSARIFStep in Hv. passed. rename select (bad_delivery_timeout _ = false) into Ht.
    split; [done| |by rewrite Es]. intros Hne. destruct (timeout_bounds _ _ _ Ht Hne) as (t & ? & ?). exists t.
    split; [done|]. unfold minStepTimeout, MaxStepTimeout, hour, minute in *. lia.
  - passed. rename select (bad_timeout _ = false) into Ht. rename select ((_ <? 0) || _ = false) into Hsh.
    unfold validateStepRuntime in Hv. passed. rename select (CheckMemoryMiB _ _ = false) into Hm.
    rename select (CheckCPUMilli _ _ = false) into Hc. split; [done|by apply timeout_bounds|]. intros _ _.
    apply orb_false_iff in Hsh as [?%Z.ltb_ge ?%Z.ltb_ge]. done.
Qed.

Lemma validateSteps_valid spec stage j steps seen : validateSteps spec stage j steps seen = None ->
  Forall valid_step steps /\ NoDup (st_Name <$> steps) /\ forall d, d ∈ steps -> st_Name d ∉ seen.
Proof.
  revert j seen. induction steps as [|d steps IH]; intros j seen; cbn [validateSteps].
  { intros _. split_and!; [constructor|constructor|by intros ? ?%elem_of_nil]. }
  intros (Hd & Hs)%or_else_None. apply validateStep_valid in Hd as [Hd Hn]. apply IH in Hs as (Hv & Hnd & Hf).
  split_and!; [by constructor| |].
  - cbn. constructor; [|done]. intros (e & He & Hin)%list_elem_of_fmap. apply (Hf e Hin). rewrite He. by left.
  - intros e [->|He]%elem_of_cons; [done|]. intros Hin. apply (Hf e He). by right.
Qed.

(** A stage the manifest may hold. *)
Record valid_stage (stage : StageSpec) : Prop := {
  vg_name : manifestName (sg_Name stage) = true;
  vg_steps : sg_Channel stage = [] ->
    sg_Steps stage <> [] /\ Forall valid_step (sg_Steps stage) /\ NoDup (st_Name <$> sg_Steps stage)
}.

Section Valid.
Context `{GoURL}.

Lemma validateStage_valid spec i stage earlier : validateStage spec i stage earlier = None ->
  valid_stage stage /\ sg_Name stage ∉ earlier.
Proof.
  unfold validateStage. intros Hv. do 6 (apply or_else_None in Hv as [? Hv]). passed.
  rename select (memS (sg_Name stage) earlier = false) into He. apply memS_false in He. split; [|done].
  rename select (negb (manifestName _) = false) into Hn. apply negb_false_iff in Hn. split; [done|]. intros Hc.
  rewrite (proj2 (eqs_true _ _) Hc) in Hv. cbn [negb] in Hv. passed.
  rename select (negb (nonempty _) = false) into Hne. apply validateSteps_valid in Hv as (? & ? & _).
  split_and!; [|done|done]. intros E. by rewrite E in Hne.
Qed.

Lemma validateStages_valid spec i stages earlier : validateStages spec i stages earlier = None ->
  Forall valid_stage stages /\ NoDup (sg_Name <$> stages) /\ forall s, s ∈ stages -> sg_Name s ∉ earlier.
Proof.
  revert i earlier. induction stages as [|s stages IH]; intros i earlier; cbn [validateStages].
  { intros _. split_and!; [constructor|constructor|by intros ? ?%elem_of_nil]. }
  intros (Hd & Hs)%or_else_None. apply validateStage_valid in Hd as [Hd Hn]. apply IH in Hs as (Hv & Hnd & Hf).
  split_and!; [by constructor| |].
  - cbn. constructor; [|done]. intros (e & He & Hin)%list_elem_of_fmap. apply (Hf e Hin). rewrite He. by left.
  - intros e [->|He]%elem_of_cons; [done|]. intros Hin. apply (Hf e He). by right.
Qed.

Lemma Validate_valid spec : Validate (Some spec) = None -> Forall valid_stage (sp_Stages spec) /\ NoDup (sg_Name <$> sp_Stages spec).
Proof.
  unfold Validate. intros Hv. do 5 (apply or_else_None in Hv as [? Hv]). apply or_else_None in Hv as [Hv _].
  by apply validateStages_valid in Hv as (? & ? & _).
Qed.
End Valid.

(** ** Compiled steps *)

(** What is known of a step compiled from a declared one. *)
Record compiled_from (in_ : CompileInput) (stage : gostring) (deps : list gostring) (d : StepSpec) (s : Step) : Prop := {
  cf_key : exists suf, x_Key s = StepKey stage (st_Name d) ++ suf /\ (suf = [] \/ exists r, suf = 35 :: r);
  cf_deps : x_DependsOn s = deps;
  cf_fleet : x_Placement s ∈ [PlacementFleet; PlacementPool] -> ci_Compute in_ = ComputeClusterAndFleet;
  cf_secrets : forall n, n ∈ secretNames (x_Secrets s) (x_ImagePullSecret s) -> n ∈ ci_AllowedSecrets in_;
  cf_timeout : 60 <= x_TimeoutSeconds s <= 6 * 60 * 60;
  cf_memory : x_MemoryMiB s = 0 \/ 128 <= x_MemoryMiB s <= 1048576;
  cf_cpu : x_CPUMilli s = 0 \/ 1 <= x_CPUMilli s <= 256000;
  cf_shard : 0 <= sh_Index (x_Shard s) <= sh_Count (x_Shard s) /\ sh_Count (x_Shard s) <= MaxShards
}.

Lemma stepTimeoutSeconds_bounds d : valid_step d -> 60 <= stepTimeoutSeconds (st_Timeout d) <= 6 * 60 * 60.
Proof.
  intros Hd. unfold stepTimeoutSeconds. destruct (st_Timeout d =s []) eqn:E; [by vm_compute|].
  apply eqs_false in E. destruct (vs_timeout d Hd E) as (t & -> & Ht). change (default DefaultStepTimeout (Some t)) with t.
  unfold minStepTimeout, MaxStepTimeout, hour, minute in Ht. rewrite Z.quot_div_nonneg by lia.
  split; [apply Z.div_le_lower_bound|apply Z.div_le_upper_bound]; lia.
Qed.

Lemma delivery_timeout_bounds d : valid_step d -> 60 <= delivery_timeout (st_Timeout d) <= 6 * 60 * 60.
Proof.
  intros Hd. unfold delivery_timeout. destruct (st_Timeout d =s []) eqn:E; [lia|]. by apply stepTimeoutSeconds_bounds.
Qed.

Lemma secretNames_nil : secretNames [] [] = [].
Proof. reflexivity. Qed.

Lemma delivery_compiled in_ stage deps d kind : valid_step d ->
  compiled_from in_ stage deps d (bare_step stage (st_Name d) kind (delivery_timeout (st_Timeout d)) deps).
Proof.
  intros Hd. split; cbn.
  - exists []. rewrite app_nil_r. split; [done|by left].
  - done.
  - intros Hin. exfalso. apply memS_elem in Hin. done.
  - by intros n ?%elem_of_nil.
  - by apply delivery_timeout_bounds.
  - by left.
  - by left.
  - unfold MaxShards. lia.
Qed.

Lemma stepConsent_passed scope d compute allowed : stepConsent scope d compute allowed = None ->
  (PlacementOf d ∈ [PlacementFleet; PlacementPool] -> compute = ComputeClusterAndFleet)
  /\ forall n, n ∈ SecretNames d -> n ∈ allowed.
Proof.
  unfold stepConsent. intros Hc. passed. rename select (memS _ _ && _ = false) into Hf. split.
  - intros Hp%memS_elem. rewrite Hp in Hf. by destruct compute.
  - intros n Hn. apply memS_elem. destruct (memS n allowed) eqn:E; [done|]. exfalso.
    apply not_true_iff_false in Hc. apply Hc, existsb_exists. exists n. split; [by apply list_elem_of_In|by rewrite E].
Qed.

Lemma command_compiled spec in_ stage deps d : valid_step d -> st_RepositoryChange d = None -> st_SARIF d = None ->
  stepConsent (scope_of stage (st_Name d)) d (ci_Compute in_) (ci_AllowedSecrets in_) = None ->
  compiled_from in_ stage deps d (command_step spec stage d deps).
Proof.
  intros Hd Hr Hs (Hf & Hsec)%stepConsent_passed. destruct (vs_command d Hd Hr Hs) as (_ & Hm & Hc). split; cbn.
  - exists []. rewrite app_nil_r. split; [done|by left].
  - done.
  - done.
  - done.
  - by apply stepTimeoutSeconds_bounds.
  - unfold CheckMemoryMiB in Hm. destruct (Z.eqb_spec (st_MemoryMiB d) 0); [by left|right]. cbn [negb andb] in Hm.
    bprop. lia.
  - unfold CheckCPUMilli in Hc. destruct (Z.eqb_spec (st_CPUMilli d) 0); [by left|right]. cbn [negb andb] in Hc.
    bprop. lia.
  - unfold MaxShards. lia.
Qed.

Lemma shard_steps_compiled in_ stage deps d s shards : compiled_from in_ stage deps d s -> x_Key s = StepKey stage (st_Name d) ->
  Z.of_nat (length shards) <= MaxShards ->
  Forall (compiled_from in_ stage deps d) (shard_steps s shards) /\ NoDup (x_Key <$> shard_steps s shards)
  /\ (x_Packages <$> shard_steps s shards) = shards.
Proof.
  intros [Hk Hd Hf Hs Ht Hm Hc _] Hkey Hl. unfold shard_steps. split_and!.
  - apply Forall_forall. intros t (i & pkgs & -> & Hi)%elem_of_lookup_imap. apply lookup_lt_Some in Hi. split; cbn; try done.
    + exists (go "#" ++ FormatInt (Z.of_nat (S i))). rewrite Hkey. split; [done|]. right. by eexists.
    + lia.
  - rewrite fmap_imap. apply NoDup_alt. intros i j k Hi Hj. rewrite list_lookup_imap in Hi, Hj.
    destruct (shards !! i); [|done]. destruct (shards !! j); [|done]. cbn in Hi, Hj. injection Hi as <-. injection Hj as Hj.
    apply app_inv_head in Hj. cbn in Hj. injection Hj as Hj. apply FormatInt_inj in Hj. lia.
  - rewrite fmap_imap. apply list_eq. intros i. rewrite list_lookup_imap. by destruct (shards !! i).
Qed.

(** What a step without a split becomes. *)
Lemma one_compiled in_ stage deps d s : compiled_from in_ stage deps d s ->
  Forall (compiled_from in_ stage deps d) [s] /\ NoDup (x_Key <$> [s]).
Proof. intros Hs. split; [by apply Forall_singleton|]. apply NoDup_singleton. Qed.

Lemma compileStep_compiled spec in_ trees buckets stage deps d steps : valid_step d ->
  compileStep spec in_ trees buckets stage deps d = Ok steps ->
  Forall (compiled_from in_ stage deps d) steps /\ NoDup (x_Key <$> steps).
Proof.
  intros Hd. unfold compileStep. destruct (st_RepositoryChange d) as [r|] eqn:Er.
  { intros [= <-]. apply one_compiled. by destruct (delivery_compiled in_ stage deps d StepRepositoryChange Hd). }
  destruct (st_SARIF d) as [r|] eqn:Es.
  { intros [= <-]. apply one_compiled. by destruct (delivery_compiled in_ stage deps d StepSARIF Hd). }
  destruct (_ ?> _) eqn:Ec; [done|]. apply or_else_None in Ec as [Hcons _].
  pose proof (command_compiled spec in_ stage deps d Hd Er Es Hcons) as Hcmd. cbv zeta.
  set (s := command_step spec stage d deps) in *. set (skipped := match st_When d with Some _ => _ | None => _ end).
  assert (Hskip : forall k, compiled_from in_ stage deps d (with_skip s k)) by (intros k; by destruct Hcmd).
  destruct skipped as [bucket|]; [intros [= <-]; by apply one_compiled|].
  destruct (ci_Selector in_) as [selector|]; [|intros [= <-]; by apply one_compiled].
  destruct (st_Packages d =s []); [intros [= <-]; by apply one_compiled|].
  destruct (packagesFor in_ trees selector stage d) as [[|pkg pkgs]|]; [intros [= <-]; by apply one_compiled| |done].
  set (shards := if 1 <? st_Shards d then _ else _). destruct (1 <? length shards)%nat eqn:El.
  - intros [= <-]. destruct (shard_steps_compiled in_ stage deps d s shards) as (? & ? & _); [done|done| |done].
    unfold shards. destruct (1 <? st_Shards d); [|cbn; unfold MaxShards; lia].
    destruct (partition_facts (pkg :: pkgs) (ci_Timings in_) (st_Shards d)) as (_ & _ & _ & Hl).
    etrans; [exact Hl|]. unfold MaxShards. lia.
  - intros [= <-]. apply one_compiled. by destruct Hcmd.
Qed.

Lemma compileStep_nonempty spec in_ trees buckets stage deps d steps :
  compileStep spec in_ trees buckets stage deps d = Ok steps -> steps <> [].
Proof.
  unfold compileStep. destruct (st_RepositoryChange d); [by intros [= <-]|]. destruct (st_SARIF d); [by intros [= <-]|].
  destruct (_ ?> _); [done|]. cbv zeta. destruct (match st_When d with Some _ => _ | None => _ end); [by intros [= <-]|].
  destruct (ci_Selector in_) as [selector|]; [|by intros [= <-]]. destruct (st_Packages d =s []); [by intros [= <-]|].
  destruct (packagesFor in_ trees selector stage d) as [[|pkg pkgs]|]; [by intros [= <-]| |done].
  set (shards := if 1 <? st_Shards d then _ else _). destruct (1 <? length shards)%nat eqn:El; [|by intros [= <-]].
  intros [= <-]. unfold shard_steps. destruct shards; [done|]. done.
Qed.

(** ** Keys *)

Lemma manifestName_chars s : manifestName s = true -> Forall (fun c => c <> 46 /\ c <> 35) s.
Proof.
  unfold manifestName, name_match. destruct s as [|c s]; [done|]. intros [[Hc Hs]%andb_true_iff _]%andb_true_iff.
  constructor; [unfold lower, is_digit, between in Hc; lia|]. rewrite forallb_forall in Hs. apply List.Forall_forall.
  intros d Hd. specialize (Hs d Hd). unfold lower, is_digit, between in Hs. lia.
Qed.

(** A text without a mark is cut off before one. *)
Lemma cut_before (mark : Z) a b s t : Forall (fun c => c <> mark) a -> Forall (fun c => c <> mark) b ->
  (s = [] \/ exists r, s = mark :: r) -> (t = [] \/ exists r, t = mark :: r) -> a ++ s = b ++ t -> a = b.
Proof.
  intros Ha. revert b. induction Ha as [|c a Hc _ IH]; intros [|d b] Hb Hs Ht E; cbn in E; [done|..].
  - exfalso. apply Forall_cons in Hb as [Hd _]. destruct Hs as [->|(r & ->)]; congruence.
  - exfalso. destruct Ht as [->|(r & ->)]; congruence.
  - injection E as <- E. apply Forall_cons in Hb as [_ Hb]. f_equal. by apply IH.
Qed.

Lemma no_mark_46 s : manifestName s = true -> Forall (fun c => c <> 46) s.
Proof. intros Hs%manifestName_chars. eapply Forall_impl; [exact Hs|]. by intros c []. Qed.

Lemma no_mark_35 s : manifestName s = true -> Forall (fun c => c <> 35) s.
Proof. intros Hs%manifestName_chars. eapply Forall_impl; [exact Hs|]. by intros c []. Qed.

Lemma key_stage stage stage' r r' : manifestName stage = true -> manifestName stage' = true ->
  stage ++ 46 :: r = stage' ++ 46 :: r' -> stage = stage'.
Proof. intros Hs Hs'. apply (cut_before 46); [by apply no_mark_46|by apply no_mark_46|right; by eexists..]. Qed.

Lemma key_name in_ stage deps deps' d d' s s' : manifestName (st_Name d) = true -> manifestName (st_Name d') = true ->
  compiled_from in_ stage deps d s -> compiled_from in_ stage deps' d' s' -> x_Key s = x_Key s' -> st_Name d = st_Name d'.
Proof.
  intros Hd Hd' Hs Hs' E. destruct (cf_key _ _ _ _ _ Hs) as (suf & Hk & Hsuf), (cf_key _ _ _ _ _ Hs') as (suf' & Hk' & Hsuf').
  rewrite Hk, Hk' in E. unfold StepKey in E. rewrite <- !(assoc_L (++)) in E. apply app_inv_head, app_inv_head in E.
  by apply (cut_before 35 _ _ suf suf'); [apply no_mark_35|apply no_mark_35|..].
Qed.

(** ** Stages *)

Lemma compile_steps_compiled spec in_ trees buckets stage deps ds steps : Forall valid_step ds -> NoDup (st_Name <$> ds) ->
  compile_steps (compileStep spec in_ trees buckets stage deps) ds = Ok steps ->
  (forall s, s ∈ steps -> exists d, d ∈ ds /\ compiled_from in_ stage deps d s) /\ NoDup (x_Key <$> steps)
  /\ (ds <> [] -> steps <> []).
Proof.
  intros Hv. revert steps. induction Hv as [|d ds Hd Hv IH]; intros steps Hnd; cbn [compile_steps].
  { intros [= <-]. split_and!; [by intros ? ?%elem_of_nil|constructor|done]. }
  destruct (compileStep spec in_ trees buckets stage deps d) as [l|] eqn:El; [|done].
  destruct (compile_steps _ ds) as [rest|] eqn:Er; [|done]. cbn. intros [= <-]. apply NoDup_cons in Hnd as [Hn Hnd].
  destruct (IH rest Hnd eq_refl) as (Hrest & Hk & _). pose proof (compileStep_nonempty _ _ _ _ _ _ _ _ El) as Hne.
  destruct (compileStep_compiled _ _ _ _ _ _ _ _ Hd El) as [Hl Hkl]. rewrite Forall_forall in Hl. split_and!.
  - intros s [Hs|Hs]%elem_of_app; [exists d; split; [by left|by apply Hl]|].
    destruct (Hrest s Hs) as (e & He & ?). exists e. split; [by right|done].
  - rewrite fmap_app. apply NoDup_app. split_and!; [done| |done].
    intros k (s & -> & Hs)%list_elem_of_fmap (s' & Hkk & Hs')%list_elem_of_fmap. destruct (Hrest s' Hs') as (e & He & Hc).
    apply Hn. rewrite (key_name in_ stage deps deps d e s s'); [by apply list_elem_of_fmap_2| | |by apply Hl|done|done].
    + by apply vs_name.
    + rewrite Forall_forall in Hv. by apply vs_name, Hv.
  - intros _ [? _]%app_eq_nil. done.
Qed.

(** What is known of a step of a plan. *)
Record planned_step (in_ : CompileInput) (stage : gostring) (deps : list gostring) (s : Step) : Prop := {
  pn_key : exists r, x_Key s = stage ++ 46 :: r;
  pn_deps : x_DependsOn s = deps;
  pn_fleet : x_Placement s ∈ [PlacementFleet; PlacementPool] -> ci_Compute in_ = ComputeClusterAndFleet;
  pn_secrets : forall n, n ∈ secretNames (x_Secrets s) (x_ImagePullSecret s) -> n ∈ ci_AllowedSecrets in_;
  pn_timeout : 60 <= x_TimeoutSeconds s <= 6 * 60 * 60;
  pn_memory : x_MemoryMiB s = 0 \/ 128 <= x_MemoryMiB s <= 1048576;
  pn_cpu : x_CPUMilli s = 0 \/ 1 <= x_CPUMilli s <= 256000;
  pn_shard : 0 <= sh_Index (x_Shard s) <= sh_Count (x_Shard s) /\ sh_Count (x_Shard s) <= MaxShards
}.

Lemma compiled_planned in_ stage deps d s b : compiled_from in_ stage deps d s -> planned_step in_ stage deps (with_run_after_failure b s).
Proof.
  intros [(suf & Hk & _) ? ? ? ? ? ? ?]. split; cbn; try done. exists (st_Name d ++ suf). rewrite Hk. unfold StepKey.
  by rewrite <- !(assoc_L (++)).
Qed.

Lemma notify_planned in_ stage deps b : planned_step in_ (sg_Name stage) deps (with_run_after_failure b (notify_step stage deps)).
Proof.
  split; cbn; try done.
  - by eexists.
  - intros Hin. exfalso. apply memS_elem in Hin. done.
  - by intros n ?%elem_of_nil.
  - by left.
  - by left.
Qed.

Lemma compile_stage_planned spec in_ trees buckets previous stage planned : valid_stage stage ->
  compile_stage spec in_ trees buckets previous stage = Ok planned ->
  ps_Name planned = sg_Name stage /\ ps_Steps planned <> [] /\ Forall (planned_step in_ (sg_Name stage) previous) (ps_Steps planned)
  /\ NoDup (x_Key <$> ps_Steps planned).
Proof.
  intros Hv. unfold compile_stage. destruct (sg_Channel stage =s []) eqn:Ec; cbn [negb].
  - apply eqs_true in Ec. destruct (vg_steps _ Hv Ec) as (Hne & Hsteps & Hnd).
    destruct (compile_steps _ (sg_Steps stage)) as [l|] eqn:El; [|done]. cbn. intros [= <-].
    destruct (compile_steps_compiled _ _ _ _ _ _ _ _ Hsteps Hnd El) as (Hl & Hk & Hn). cbn. split_and!; [done| | |].
    + intros E%fmap_nil_inv. by apply Hn.
    + apply Forall_fmap, Forall_forall. intros s Hs. destruct (Hl s Hs) as (d & _ & Hd). by apply (compiled_planned _ _ _ d).
    + by rewrite <- list_fmap_compose.
  - cbn. intros [= <-]. cbn. split_and!; [done|done| |apply NoDup_singleton]. apply Forall_singleton, notify_planned.
Qed.

(** The steps of each stage wait for those of the one before. *)
Fixpoint waits_in_order (in_ : CompileInput) (previous : list gostring) (stages : list PlanStage) : Prop :=
  match stages with
  | [] => True
  | st :: rest =>
      ps_Steps st <> [] /\ Forall (planned_step in_ (ps_Name st) previous) (ps_Steps st) /\ NoDup (x_Key <$> ps_Steps st)
      /\ waits_in_order in_ (x_Key <$> ps_Steps st) rest
  end.

Definition is_selected (selected : option (list gostring)) (name : gostring) : bool :=
  match selected with Some names => memS name names | None => true end.

Lemma compile_stages_planned spec in_ trees buckets selected previous stages out : Forall valid_stage stages ->
  compile_stages spec in_ trees buckets selected previous stages = Ok out ->
  ps_Name <$> out = List.filter (is_selected selected) (sg_Name <$> stages) /\ waits_in_order in_ previous out.
Proof.
  intros Hv. revert previous out. induction Hv as [|st stages Hst Hv IH]; intros previous out; cbn [compile_stages fmap list_fmap List.filter].
  { by intros [= <-]. }
  replace (match selected with Some names => negb (memS (sg_Name st) names) | None => false end)
    with (negb (is_selected selected (sg_Name st))) by by destruct selected.
  destruct (is_selected selected (sg_Name st)); cbn [negb]; [|by apply IH].
  destruct (compile_stage spec in_ trees buckets previous st) as [planned|] eqn:Ep; [|done].
  destruct (compile_stages spec in_ trees buckets selected _ stages) as [rest|] eqn:Er; [|done]. cbn. intros [= <-].
  destruct (IH _ _ Er) as [Hn Hw]. destruct (compile_stage_planned _ _ _ _ _ _ _ Hst Ep) as (Hname & Hne & Hf & Hk).
  cbn. rewrite Hn, Hname. by split_and!.
Qed.

(** ** The plan *)

Lemma waits_planned in_ previous stages st s : waits_in_order in_ previous stages -> st ∈ stages -> s ∈ ps_Steps st ->
  exists deps, planned_step in_ (ps_Name st) deps s.
Proof.
  revert previous. induction stages as [|x stages IH]; intros previous; cbn [waits_in_order]; [by intros _ ?%elem_of_nil|].
  intros (_ & Hf & _ & Hw) [->|Hst]%elem_of_cons Hs; [|by eapply IH]. rewrite Forall_forall in Hf. exists previous. by apply Hf.
Qed.

(** The keys a stage's steps wait for. *)
Definition before_stage (previous : list gostring) (stages : list PlanStage) (i : nat) : list gostring :=
  match i with
  | O => previous
  | S j => match stages !! j with Some t => x_Key <$> ps_Steps t | None => [] end
  end.

Lemma waits_lookup in_ previous stages i st : waits_in_order in_ previous stages -> stages !! i = Some st ->
  ps_Steps st <> [] /\ Forall (fun s => x_DependsOn s = before_stage previous stages i) (ps_Steps st).
Proof.
  revert previous i. induction stages as [|x stages IH]; intros previous i; cbn [waits_in_order]; [by destruct i|].
  intros (Hne & Hf & _ & Hw). destruct i as [|i]; cbn.
  - intros [= <-]. split; [done|]. eapply Forall_impl; [exact Hf|]. intros s Hs. by apply pn_deps in Hs.
  - intros Hi. destruct (IH _ i Hw Hi) as [? Hd]. split; [done|]. eapply Forall_impl; [exact Hd|]. intros s ->. by destruct i.
Qed.

Lemma waits_NoDup in_ previous stages : waits_in_order in_ previous stages -> NoDup (ps_Name <$> stages) ->
  Forall (fun n => manifestName n = true) (ps_Name <$> stages) -> NoDup (x_Key <$> (stages ≫= ps_Steps)).
Proof.
  revert previous. induction stages as [|st stages IH]; intros previous; cbn [waits_in_order]; [constructor|].
  intros (_ & Hf & Hk & Hw) [Hn Hnd]%NoDup_cons [Hm Hms]%Forall_cons. cbn [mbind list_bind]. rewrite fmap_app.
  apply NoDup_app. split_and!; [done| |by eapply IH].
  intros k (s & -> & Hs)%list_elem_of_fmap (s' & Hkk & Hs')%list_elem_of_fmap.
  apply list_elem_of_bind in Hs' as (st' & Hs' & Hst'). destruct (waits_planned _ _ _ _ _ Hw Hst' Hs') as (deps & Hp').
  rewrite Forall_forall in Hf. rewrite Forall_forall in Hms. destruct (pn_key _ _ _ _ (Hf s Hs)) as (r & Er), (pn_key _ _ _ _ Hp') as (r' & Er').
  apply Hn. rewrite (key_stage (ps_Name st) (ps_Name st') r r'); [by apply list_elem_of_fmap_2|done| |congruence].
  apply Hms. by apply list_elem_of_fmap_2.
Qed.

Lemma producers_planned_lookup planned steps i s : producers_planned planned steps = None -> steps !! i = Some s ->
  forall key, (rc_Step <$> x_RepositoryChange s = Some key \/ sr_Step <$> x_SARIF s = Some key) ->
  key ∈ planned \/ exists j t, (j < i)%nat /\ steps !! j = Some t /\ x_Key t = key.
Proof.
  revert planned i. induction steps as [|x steps IH]; intros planned i; cbn [producers_planned]; [by destruct i|].
  intros (Hc & (Hr & Hp)%or_else_None)%or_else_None. rewrite refuse_if_None in Hc, Hr. destruct i as [|i]; cbn.
  - intros [= ->] key [Hk|Hk]; left.
    + destruct (x_RepositoryChange s); [|done]. injection Hk as <-. apply negb_false_iff in Hc. by apply memS_elem.
    + destruct (x_SARIF s); [|done]. injection Hk as <-. apply negb_false_iff in Hr. by apply memS_elem.
  - intros Hi key Hk. destruct (IH _ i Hp Hi key Hk) as [[->|Hin]%elem_of_cons|(j & t & Hj & Ht & Hkey)].
    + right. exists 0%nat, x. split_and!; [lia|done|done].
    + by left.
    + right. exists (S j), t. split_and!; [lia|done|done].
Qed.

Lemma Compile_stages `{GoURL} spec in_ plan : Compile (Some spec) in_ = Ok plan ->
  Forall valid_stage (sp_Stages spec) /\ NoDup (sg_Name <$> sp_Stages spec)
  /\ ps_Name <$> pl_Stages plan = List.filter (is_selected (ci_StageSelection in_)) (sg_Name <$> sp_Stages spec)
  /\ waits_in_order in_ [] (pl_Stages plan) /\ producers_planned [] (Steps plan) = None.
Proof.
  unfold Compile. destruct (Validate (Some spec)) eqn:Ev; [done|]. apply Validate_valid in Ev as [Hv Hnd].
  destruct (check_input spec in_); [done|]. set (trees := match sp_Select spec with Some _ => _ | None => _ end).
  destruct (compile_stages spec in_ trees _ _ [] (sp_Stages spec)) as [stages|] eqn:Es; [|done].
  destruct (producers_planned [] _) eqn:Ep; [done|]. intros [= <-].
  destruct (compile_stages_planned _ _ _ _ _ _ _ _ Hv Es) as [Hn Hw]. done.
Qed.

Lemma filter_NoDup {A} (f : A -> bool) l : NoDup l -> NoDup (List.filter f l).
Proof.
  induction 1 as [|x l Hx _ IH]; cbn; [constructor|]. destruct (f x); [|done]. constructor; [|done].
  intros Hin. apply list_elem_of_In, filter_In in Hin as [Hin _]. by apply list_elem_of_In in Hin.
Qed.

(** ** The packages of a step *)

(** A package a step asks for: under its roots, and on the side of the database gate
    its policy names. *)
Definition asked_for (trees roots : list gostring) (selector : Selector) (filter pkg : gostring) : Prop :=
  (roots = [] \/ under_roots roots (so_DirOf selector pkg) = true)
  /\ (filter = PackageFilterAll \/ (filter = PackageFilterDBGated /\ dbGated trees selector pkg = true)
      \/ (filter = PackageFilterNotDBGated /\ dbGated trees selector pkg = false)).

Lemma keep_packages_exact trees roots selector filter scope pkgs out :
  keep_packages trees roots selector filter scope pkgs = Ok out ->
  (forall p, p ∈ out <-> p ∈ pkgs /\ asked_for trees roots selector filter p) /\ (NoDup pkgs -> NoDup out).
Proof.
  revert out. induction pkgs as [|p pkgs IH]; intros out; cbn [keep_packages].
  { intros [= <-]. split; [|done]. intros p. split; [by intros ?%elem_of_nil|by intros [? _]]. }
  destruct (nonempty roots && (so_DirOf selector p =s [])); [done|].
  assert (Hkeep : forall b, (asked_for trees roots selector filter p <-> b = true) ->
    (if b then cons p <$> keep_packages trees roots selector filter scope pkgs else keep_packages trees roots selector filter scope pkgs) = Ok out ->
    (forall q, q ∈ out <-> q ∈ p :: pkgs /\ asked_for trees roots selector filter q) /\ (NoDup (p :: pkgs) -> NoDup out)).
  { intros b Hb Hr. destruct (keep_packages trees roots selector filter scope pkgs) as [rest|]; [|by destruct b].
    destruct (IH rest eq_refl) as [He Hn]. setoid_rewrite elem_of_cons. destruct b; injection Hr as <-.
    - split; [intros q; rewrite elem_of_cons, He; naive_solver|]. intros [Hp Hnd]%NoDup_cons. constructor; [|by apply Hn].
      by intros [? _]%He.
    - split; [intros q; rewrite He|by intros [_ ?]%NoDup_cons; apply Hn]. split; [naive_solver|].
      intros [[->|?] ?]; [naive_solver|done]. }
  unfold asked_for in *. destruct (nonempty roots && negb (under_roots roots (so_DirOf selector p))) eqn:Er.
  { apply (Hkeep false). destruct roots; [done|]. cbn [nonempty andb] in Er. apply negb_true_iff in Er. split; [|done].
    intros [[?|?] _]; congruence. }
  assert (Hroots : roots = [] \/ under_roots roots (so_DirOf selector p) = true).
  { destruct roots; [by left|right]. cbn [nonempty andb] in Er. by apply negb_false_iff in Er. }
  destruct (filter =s PackageFilterAll) eqn:E1; [apply eqs_true in E1; apply (Hkeep true); naive_solver|apply eqs_false in E1].
  destruct (filter =s PackageFilterDBGated) eqn:E2; [apply eqs_true in E2|apply eqs_false in E2].
  { apply Hkeep. split; [|tauto]. intros [_ [?|[[_ ?]|[Hx _]]]]; [done|done|]. rewrite E2 in Hx. by vm_compute in Hx. }
  destruct (filter =s PackageFilterNotDBGated) eqn:E3; [apply eqs_true in E3|done].
  intros Hr. apply (Hkeep (negb (dbGated trees selector p))).
  - rewrite negb_true_iff. split; [|tauto]. intros [_ [?|[[Hx _]|[_ ?]]]]; [done| |done]. rewrite E3 in Hx. by vm_compute in Hx.
  - by destruct (dbGated trees selector p).
Qed.

(** The packages a policy's coverage offers. *)
Definition covered_by (selector : Selector) (policy : PackagePolicy) : list gostring :=
  if pp_Coverage policy =s PackageCoverageAll then so_All selector else sel_Packages (so_Affected selector).

Lemma packagesFor_exact in_ trees selector stage d policy pkgs : packagesFor in_ trees selector stage d = Ok pkgs ->
  ci_PackagePolicies in_ !! StepKey stage (st_Name d) = Some policy ->
  NoDup pkgs /\ forall p, p ∈ pkgs <-> p ∈ covered_by selector policy /\ asked_for trees (st_PackageRoots d) selector (pp_Filter policy) p.
Proof.
  unfold packagesFor, covered_by. intros Hp Hpol. rewrite Hpol in Hp.
  change (default (mkPolicy [] []) (Some policy)) with policy in Hp.
  assert (Hx : forall l, keep_packages trees (st_PackageRoots d) selector (pp_Filter policy)
      (go "selection/" ++ StepKey stage (st_Name d)) (compact (sort_strings l)) = Ok pkgs ->
    NoDup pkgs /\ forall p, p ∈ pkgs <-> p ∈ l /\ asked_for trees (st_PackageRoots d) selector (pp_Filter policy) p).
  { intros l (He & Hn)%keep_packages_exact. split; [apply Hn, compact_sorted_NoDup|]. intros p.
    by rewrite He, compact_elem, sort_strings_elem. }
  revert Hp. destruct (pp_Coverage policy =s PackageCoverageAll); [by apply Hx|].
  destruct (pp_Coverage policy =s PackageCoverageAffected); [by apply Hx|done].
Qed.

(** ** A sample pipeline: sharded tests, a step with a secret, a notice *)

Definition no_url : GoURL := {| url_Parse := fun _ => None |}.

Definition declared_sample (name run packages : gostring) (shards : Z) (secrets : list gostring) : StepSpec :=
  mkStepSpec false None false [] None None 0 None 0 [] [] [] [] name run packages [] [] shards None ∅ [] None (go "30m") [] secrets [].

Definition sample_spec : Spec :=
  mkSpec [] [] [] (go "golang") ∅ false [] (Some (mkSelect SelectImportGraph [] [] [] ∅))
    [mkStage [] false (go "tests") [] [] [] [] [declared_sample (go "unit") (go "go test") (go "affected") 2 []];
     mkStage [] false (go "deploy") [go "tests"] [] [] [] [declared_sample (go "ship") (go "make ship") [] 0 [go "TOKEN"]];
     mkStage [] true (go "tell") [] [] (go "news") [] []].

Definition sample_selector : Selector :=
  mkSelector [go "m/a"; go "m/b"; go "m/c"] (mkSelection false (NoGoPackage 1) [go "m/a"] [go "m/a"; go "m/b"]) (fun _ => go "src").

Definition sample_input : CompileInput :=
  mkInput ModeAffected EventPullRequest ComputeCluster None [go "TOKEN"] (Some sample_selector)
    {[ go "tests.unit" := mkPolicy PackageCoverageAffected PackageFilterAll ]} None ∅.

(** ** Theorems *)



(** C15: No plan goes past what the pipeline's owner allowed: a step placed on the fleet
    or the pool is in a plan only under the owner's consent to the fleet, and every
    secret a step's command or image pull receives is one the owner allowed. *)
Theorem plan_within_consent `{GoURL} (spec : Spec) (in_ : CompileInput) (plan : Plan) (s : Step) :
  Compile (Some spec) in_ = Ok plan -> s ∈ Steps plan ->
  (x_Placement s ∈ [PlacementFleet; PlacementPool] -> ci_Compute in_ = ComputeClusterAndFleet)
  /\ forall name, name ∈ secretNames (x_Secrets s) (x_ImagePullSecret s) -> name ∈ ci_AllowedSecrets in_.
Proof.
  intros (_ & _ & _ & Hw & _)%Compile_stages (st & Hs & Hst)%list_elem_of_bind.
  by destruct (waits_planned _ _ _ _ _ Hw Hst Hs) as (deps & []).
Qed.

Lemma plan_within_consent_witness : exists plan s, @Compile no_url (Some sample_spec) sample_input = Ok plan
  /\ Steps plan !! 2%nat = Some s /\ x_Secrets s = [go "TOKEN"]
  /\ forall name, name ∈ secretNames (x_Secrets s) (x_ImagePullSecret s) -> name ∈ ci_AllowedSecrets sample_input.
Proof.
  do 2 eexists. split; [vm_compute; reflexivity|]. split; [vm_compute; reflexivity|]. split; [vm_compute; reflexivity|].
  eapply (@plan_within_consent no_url sample_spec sample_input); [vm_compute; reflexivity|].
  apply (list_elem_of_lookup_2 _ 2). vm_compute. reflexivity.
Defined.

(** C38: Every step of a plan is bounded: it times out after one minute to six hours, its
    memory and its share of a processor are unset or within their limits, and it is
    one of at most eight shards. *)
Theorem plan_steps_bounded `{GoURL} (spec : Spec) (in_ : CompileInput) (plan : Plan) (s : Step) :
  Compile (Some spec) in_ = Ok plan -> s ∈ Steps plan ->
  60 <= x_TimeoutSeconds s <= 6 * 60 * 60
  /\ (x_MemoryMiB s = 0 \/ 128 <= x_MemoryMiB s <= 1048576) /\ (x_CPUMilli s = 0 \/ 1 <= x_CPUMilli s <= 256000)
  /\ 0 <= sh_Index (x_Shard s) <= sh_Count (x_Shard s) /\ sh_Count (x_Shard s) <= MaxShards.
Proof.
  intros (_ & _ & _ & Hw & _)%Compile_stages (st & Hs & Hst)%list_elem_of_bind.
  by destruct (waits_planned _ _ _ _ _ Hw Hst Hs) as (deps & []).
Qed.

Lemma plan_steps_bounded_witness : exists plan s, @Compile no_url (Some sample_spec) sample_input = Ok plan
  /\ Steps plan !! 0%nat = Some s /\ x_Shard s = mkShard 1 2 /\ 60 <= x_TimeoutSeconds s <= 6 * 60 * 60.
Proof.
  do 2 eexists. split; [vm_compute; reflexivity|]. split; [vm_compute; reflexivity|]. split; [vm_compute; reflexivity|].
  eapply (@plan_steps_bounded no_url sample_spec sample_input); [vm_compute; reflexivity|].
  apply (list_elem_of_lookup_2 _ 0). vm_compute. reflexivity.
Defined.

(** C14: A step that selects packages tests each of them once.  Compiled and not skipped
    for its bucket, the packages of its shards together are exactly those its
    policy's coverage offers that lie under its roots and on its side of the database
    gate, none of them in two shards; and affected coverage is only compiled from a
    selection that is not full. *)
Theorem compiled_packages_exact (spec : Spec) (in_ : CompileInput) (trees buckets : list gostring) (stage : gostring)
    (deps : list gostring) (d : StepSpec) (selector : Selector) (steps : list Step) :
  compileStep spec in_ trees buckets stage deps d = Ok steps ->
  st_RepositoryChange d = None -> st_SARIF d = None -> st_Packages d <> [] -> ci_Selector in_ = Some selector ->
  (forall bucket, st_When d = Some bucket -> bucket ∈ buckets) ->
  exists policy, ci_PackagePolicies in_ !! StepKey stage (st_Name d) = Some policy
  /\ (pp_Coverage policy = PackageCoverageAffected -> sel_Full (so_Affected selector) = false)
  /\ NoDup (concat (x_Packages <$> steps))
  /\ forall p, p ∈ concat (x_Packages <$> steps) <->
       p ∈ covered_by selector policy /\ asked_for trees (st_PackageRoots d) selector (pp_Filter policy) p.
Proof.
  intros Hc Hr Hs Hp Hsel Hw. unfold compileStep in Hc. rewrite Hr, Hs, Hsel in Hc.
  destruct (_ ?> _) eqn:Ec; [done|]. apply or_else_None in Ec as [_ Hpol]. unfold check_policy in Hpol.
  apply eqs_false in Hp. rewrite Hp, Hsel in Hpol. rewrite Hp in Hc.
  destruct (ci_PackagePolicies in_ !! StepKey stage (st_Name d)) as [policy|] eqn:Epol; [|done]. exists policy. split; [done|].
  apply or_else_None in Hpol as [Hcov _]. split.
  { intros E. rewrite E in Hcov. change (PackageCoverageAffected =s PackageCoverageAll) with false in Hcov. rewrite eqs_refl in Hcov.
    by apply refuse_if_None in Hcov. }
  assert (Hskip : match st_When d with Some bucket => if memS bucket buckets then None else Some bucket | None => None end = None).
  { destruct (st_When d) as [b|]; [|done]. by rewrite (proj2 (memS_elem b buckets) (Hw b eq_refl)). }
  cbv zeta in Hc. rewrite Hskip in Hc. destruct (packagesFor in_ trees selector stage d) as [pkgs|] eqn:Ep; [|done].
  destruct (packagesFor_exact _ _ _ _ _ _ _ Ep Epol) as [Hnd Hx]. destruct pkgs as [|pkg pkgs].
  { injection Hc as <-. cbn. split; [constructor|]. intros p. rewrite <- Hx. done. }
  set (shards := if 1 <? st_Shards d then _ else _) in Hc. destruct (1 <? length shards)%nat eqn:El; injection Hc as <-.
  - assert (Hpk : x_Packages <$> shard_steps (command_step spec stage d deps) shards = shards).
    { unfold shard_steps. rewrite fmap_imap. apply list_eq. intros i. rewrite list_lookup_imap. by destruct (shards !! i). }
    rewrite Hpk. unfold shards in *. destruct (1 <? st_Shards d); [|done].
    destruct (partition_facts (pkg :: pkgs) (ci_Timings in_) (st_Shards d)) as (He & Hn & _). split; [done|].
    intros p. by rewrite <- He, Hx.
  - cbn [fmap list_fmap concat with_packages x_Packages]. rewrite app_nil_r. done.
Qed.

Lemma compiled_packages_exact_witness :
  exists steps, compileStep sample_spec sample_input [] [] (go "tests") [] (declared_sample (go "unit") (go "go test") (go "affected") 2 []) = Ok steps
  /\ x_Packages <$> steps = [[go "m/a"]; [go "m/b"]]
  /\ exists policy, ci_PackagePolicies sample_input !! StepKey (go "tests") (go "unit") = Some policy
  /\ (pp_Coverage policy = PackageCoverageAffected -> sel_Full (so_Affected sample_selector) = false)
  /\ NoDup (concat (x_Packages <$> steps))
  /\ forall p, p ∈ concat (x_Packages <$> steps) <->
       p ∈ covered_by sample_selector policy /\ asked_for [] [] sample_selector (pp_Filter policy) p.
Proof.
  eexists. split; [vm_compute; reflexivity|]. split; [vm_compute; reflexivity|].
  apply (compiled_packages_exact sample_spec sample_input [] [] (go "tests") [] (declared_sample (go "unit") (go "go test") (go "affected") 2 [])
    sample_selector); [vm_compute; reflexivity|done|done|done|done|done].
Defined.
